(* ===== verification/_CoqProject ===== *)
-Q . S2P
Prelude.v
FindBit.v
Hweight.v
Bitmap.v
Kfifo.v
Lmb.v
Semaphore.v
Rwsem.v
Buddy.v
Timer.v
CString.v
Vsprintf.v
Resource.v
Sort.v
Arith.v
RadixTree.v
RbTree.v
Crc.v
Checksum.v
TextSearch.v
Calendar.v
TimeConv.v
ListHead.v
Plist.v
NextTimer.v
