(* ===== verification/Prelude.v ===== *)
(** Core routines of the Linux kernel 2.6.32.21, modelled and verified.

    The sources are under src/linux-2.6.32.21/; paths below are relative to it.
    The kernel is far larger than what is treated here.  This development takes
    the parts that the rest is built on and that have a contract of their own:
    the library of bits, bitmaps, strings and numbers, sorting, linked lists, the radix
    tree and the red-black tree, check sums and text search, the sleeping locks, the timers,
    dates and values of time, and the allocators of memory and of address ranges.

    * How the code is modelled

    Every C function is a Rocq function of the same name with the same branches in
    the same order.  What it reads and writes is an argument and a result:
    records for structures, lists for arrays and linked lists, [mem] (below) or a
    byte array where pointers may alias.  Machine integers are [Z] with the
    wrap-around written out ([u8] to [u64], [s32], [s64]).  The machine is a 64-bit
    one ([BITS_PER_LONG] 64).  A function that can read or write out of bounds, hit
    [BUG_ON] or run for ever returns [option]; the theorems show that it returns
    [Some].  Loops that are not over a list are [loop] (with fuel) or [for_];
    where fuel is a parameter the theorem names an amount that suffices, derived
    from the data (the height or the number of nodes of a tree, the entries of a
    table, a distance), and where the amount is fixed in the definition it exceeds
    the number of iterations a 64-bit counter or the data allow.  Code that runs
    under a spin lock is one step; what can happen between two such stretches is
    interleaved by a step relation.

    * The files

    - Prelude: words, control flow, arrays, memory, alignment; the lemmas,
      tactics and hint databases the components share.
    - FindBit: lib/find_next_bit.c, lib/find_last_bit.c, [__ffs], [__fls] and [ffz] of
      asm-generic.  Searches return the position that the bits themselves define.
    - Hweight: lib/hweight.c.  The parallel sums count the set bits.
    - Bitmap: lib/bitmap.c over a memory of word arrays; calls FindBit and Hweight.
      Every operation is described by the bits of its operands, aliasing
      allowed; region allocation is first fit while its sizes fit an [int];
      remapping is rank and select.
    - Kfifo: kernel/kfifo.c.  The FIFO refines a bounded queue of bytes for all values
      of its wrapping indices, and one writer and one reader without a lock are
      safe under every interleaving of their accesses; the accesses are shown to
      be those of the two functions.
    - Lmb: lib/lmb.c, the allocator of the boot phase.  Tables stay sorted, disjoint
      and merged, and are read as the set of addresses they cover; allocation
      returns the highest place that fits.
    - Semaphore: kernel/semaphore.c.  Permits are conserved under every interleaving
      with signals and timeouts, and are handed over in the order of the calls.
    - Rwsem: lib/rwsem-spinlock.c.  At most one writer and no reader beside it, the
      meaning of [activity], and the order of the queue.
    - Buddy: the free lists of a zone in mm/page_alloc.c.  Freeing and allocating
      keep the blocks aligned, disjoint, maximally merged and counted.
    - Timer: the timer wheel of kernel/timer.c.  Every timer runs in the tick it
      expires in, through all cascades and wrap-around of [jiffies], with the calls
      timer functions make; the operations on timers do what they document.
    - NextTimer: [get_next_timer_interrupt] of kernel/timer.c over Timer and TimeConv.  An
      idle processor wakes up no later than for the first timer that may not be
      deferred; the remembered event stays early enough.
    - CString: lib/string.c and lib/ctype.c over a byte array with aliasing.
    - Vsprintf: the number parsers and [number] of lib/vsprintf.c; uses CString.
      Layout and bounds of what is printed while the width does not overflow,
      values and errors of what is read, and the round trip between them.
    - Resource: the tree of address ranges of kernel/resource.c.  The tree stays well
      formed; which requests, insertions, adjustments and regions are refused;
      allocation is first fit; releasing undoes requesting.
    - Sort: the heap sort of lib/sort.c on bytes.  The result is a permutation whatever
      the comparison answers, and sorted when it is an order.
    - Arith: lib/gcd.c, lcm.c, int_sqrt.c, div64.c and reciprocal_div.c against the
      mathematical operations, with the inputs on which they differ.
    - RadixTree: lib/radix-tree.c.  Sequences of operations refine a finite map with two
      sets of marked indices; the errors of an insertion and the nodes it allocates;
      gang lookups and searches for holes.
    - RbTree: lib/rbtree.c and include/linux/rbtree.h on nodes in memory, colours packed
      into parent words.  Insertion and removal keep a red-black tree and the order
      of its nodes, in logarithmically many steps; walking and replacing.
    - Crc: lib/crc16.c, crc-ccitt.c, crc-itu-t.c, crc-t10dif.c, crc7.c, crc32.c with
      gen_crc32table.c, and bitrev.c.  Every table and every routine computes the
      remainder of a division of polynomials over two elements, except
      [crc32_be] when only one of its two table sizes is 8.
    - Checksum: lib/checksum.c and the combining functions of the headers, against
      the one's complement sum of 16-bit words.
    - TextSearch: lib/textsearch.c and lib/ts_kmp.c.  The core is written against the
      interface [ts_ops], which the algorithm of Knuth, Morris and Pratt implements;
      searches enumerate the occurrences; the registry stays well formed and
      references on modules balance.
    - Calendar: [mktime], kernel/time/timeconv.c and drivers/rtc/rtc-lib.c against the
      Gregorian calendar.
    - TimeConv: the conversions of kernel/time.c between nanoseconds, [struct timespec],
      [struct timeval], milliseconds, jiffies and [clock_t], for the tick
      frequencies of kernel/Kconfig.hz.
    - ListHead: the doubly linked lists of include/linux/list.h, on heads in memory.
    - Plist: the priority-sorted lists of lib/plist.c, over ListHead: two linked lists
      kept consistent, one of all nodes and one of the first node of every priority.

    * What the theorems are

    Each component has an invariant of its state that every operation is shown to
    preserve, and theorems that give the result of each operation on every
    branch, errors included.  Kfifo has an abstract queue and RadixTree an abstract
    map that the code refines, and RbTree an inductive tree that the pointers represent;
    Hweight, Bitmap and FindBit are equated with definitions
    on single bits, Arith, Crc and Checksum with arithmetic on integers and
    polynomials, Calendar with the count of days; TimeConv bounds the error of scaled arithmetic;
    Semaphore, Rwsem and Kfifo have step relations with invariants over all
    reachable states; Timer shows that timers do run; Vsprintf, Resource and
    Calendar have round trips; termination is part of every theorem, and of [Resource] also its
    failure: the splitting reservation recurses for ever on a range that is not
    inside the root.  Theorems with hypotheses are followed by a witness, a
    concrete input at which they apply.

    * What is not modelled

    Of the files above: parsing and printing of bitmaps as text and their copies
    to user space (lib/bitmap.c); per-CPU page lists, watermarks and the zone
    fallback of mm/page_alloc.c; moving timers between processors and the
    sleeping functions of kernel/timer.c; the format
    interpreter of lib/vsprintf.c; the reports and the device-managed regions of
    kernel/resource.c; the algorithms of lib/ts_bm.c and lib/ts_fsm.c; the system calls of
    kernel/time.c; preloading, deferred freeing, lockless readers and the
    functions on slot addresses of lib/radix-tree.c; iteration macros and debugging checks
    of the lists.  Sleeping, waking and memory
    allocation appear as steps or outcomes chosen freely.

    Not modelled at all, since their meaning lies in hardware, in devices or in
    the object graph of a running system: architecture code, drivers, file
    systems, networking, the scheduler, processes and signals, page tables and
    reclaim, slab caches, the block layer, IPC, security modules, ciphers, booting
    and virtualisation.

    * What comes next

    In this order: identifier allocation (lib/idr.c), priority heaps (lib/prio_heap.c), the text form of bitmaps,
    and the format interpreter of lib/vsprintf.c. *)
From Stdlib Require Import ZArith Lia Bool.
From stdpp Require Import base numbers list gmap option.

Local Open Scope Z_scope.

(** * Machine words *)

(** Error numbers of errno-base.h. *)
Definition ENOENT : Z := 2.
Definition ENOMEM : Z := 12.
Definition EEXIST : Z := 17.
Definition EBUSY : Z := 16.
Definition EINVAL : Z := 22.
Definition EINTR : Z := 4.
Definition ETIME : Z := 62.

(** [wrap w x] is [x] as a [w]-bit unsigned integer. *)
Definition wrap (w x : Z) : Z := x mod 2 ^ w.
Abbreviation u64 := (wrap 64).
Abbreviation u32 := (wrap 32).

(** [x] as a 32-bit signed integer. *)
Definition s32 (x : Z) : Z := (x + 2 ^ 31) mod 2 ^ 32 - 2 ^ 31.

(** A 64-bit word read as a signed integer. *)
Definition s64 (x : Z) : Z := if x <? 2 ^ 63 then x else x - 2 ^ 64.

(** The range of an unsigned integer of [w] bits. *)
Definition is_word (w x : Z) : Prop := 0 <= x < 2 ^ w.
Abbreviation is_u64 := (is_word 64).
Abbreviation is_u32 := (is_word 32).

Abbreviation BITS_PER_LONG := 64.

(** Operators of [unsigned long].  A shift count is taken modulo 64, which is
    what the processor does; the C standard only defines counts below 64. *)
Definition not64 (x : Z) : Z := u64 (Z.lnot x).
Definition shl64 (x n : Z) : Z := u64 (Z.shiftl x (n mod 64)).
Definition shr64 (x n : Z) : Z := Z.shiftr x (n mod 64).
Definition ULONG_MAX : Z := Z.ones 64.

Declare Scope c_scope.
Delimit Scope c_scope with c.
Notation "x ⊕ y" := (u64 (x + y)) (at level 50, left associativity) : c_scope.
Notation "x ⊖ y" := (u64 (x - y)) (at level 50, left associativity) : c_scope.
Notation "x ⊗ y" := (u64 (x * y)) (at level 40, left associativity) : c_scope.
Notation "x &ₗ y" := (Z.land x y) (at level 40, left associativity) : c_scope.
Notation "x |ₗ y" := (Z.lor x y) (at level 50, left associativity) : c_scope.
Notation "x ^ₗ y" := (Z.lxor x y) (at level 50, left associativity) : c_scope.
Notation "x <<ₗ y" := (shl64 x y) (at level 40, left associativity) : c_scope.
Notation "x >>ₗ y" := (shr64 x y) (at level 40, left associativity) : c_scope.
Notation "∼ₗ x" := (not64 x) (at level 35, right associativity) : c_scope.

(** ** Bits of words *)

Create HintDb words.
Create Rewrite HintDb zbits.

Lemma wrap_bits w x i :
  0 <= w -> 0 <= i -> Z.testbit (wrap w x) i = (i <? w) && Z.testbit x i.
Proof.
  intros Hw Hi. unfold wrap. destruct (Z.ltb_spec i w); simpl.
  - by apply Z.mod_pow2_bits_low.
  - apply Z.mod_pow2_bits_high. lia.
Qed.

Lemma not64_bits x i : 0 <= i -> Z.testbit (not64 x) i = (i <? 64) && negb (Z.testbit x i).
Proof. intros Hi. unfold not64. by rewrite wrap_bits, Z.lnot_spec by lia. Qed.

Lemma shl64_bits x n i :
  0 <= i -> 0 <= n < 64 ->
  Z.testbit (shl64 x n) i = (i <? 64) && Z.testbit x (i - n).
Proof.
  intros Hi Hn. unfold shl64. rewrite Z.mod_small by lia.
  by rewrite wrap_bits, Z.shiftl_spec by lia.
Qed.

Lemma shr64_bits x n i :
  0 <= i -> 0 <= n < 64 -> Z.testbit (shr64 x n) i = Z.testbit x (i + n).
Proof. intros Hi Hn. unfold shr64. rewrite Z.mod_small by lia. by rewrite Z.shiftr_spec by lia. Qed.

Lemma ULONG_MAX_bits i : 0 <= i -> Z.testbit ULONG_MAX i = (i <? 64).
Proof.
  intros Hi. unfold ULONG_MAX. destruct (Z.ltb_spec i 64).
  - apply Z.ones_spec_low. lia.
  - apply Z.ones_spec_high. lia.
Qed.

Lemma ones_bits w i : 0 <= w -> 0 <= i -> Z.testbit (Z.ones w) i = (i <? w).
Proof.
  intros Hw Hi. destruct (Z.ltb_spec i w).
  - apply Z.ones_spec_low. lia.
  - apply Z.ones_spec_high. lia.
Qed.

Lemma pow2_bits n i : 0 <= n -> Z.testbit (2 ^ n) i = (n =? i).
Proof. intros Hn. by apply Z.pow2_bits_eqb. Qed.

Lemma word_bits_high w x i : is_word w x -> 0 <= w <= i -> Z.testbit x i = false.
Proof.
  intros Hx Hi. rewrite <- (Z.mod_small x (2 ^ w)) by exact Hx.
  apply Z.mod_pow2_bits_high. lia.
Qed.

(** A non-negative number with no bit at or above [w] is a [w]-bit word. *)
Lemma is_word_bits w x :
  0 <= w -> 0 <= x -> (forall i, w <= i -> Z.testbit x i = false) -> is_word w x.
Proof.
  intros Hw Hx Hb. split; [done|].
  destruct (Z.eq_dec x 0) as [->|Hnz]; [lia|].
  apply Z.log2_lt_pow2; [lia|].
  destruct (Z.lt_ge_cases (Z.log2 x) w) as [|Hge]; [done|].
  specialize (Hb _ Hge). rewrite Z.bit_log2 in Hb by lia. done.
Qed.

Lemma wrap_range w x : 0 <= w -> is_word w (wrap w x).
Proof. intros Hw. apply Z.mod_pos_bound. by apply Z.pow_pos_nonneg. Qed.

Lemma wrap_small w x : is_word w x -> wrap w x = x.
Proof. apply Z.mod_small. Qed.

Lemma s32_small x : - 2 ^ 31 <= x < 2 ^ 31 -> s32 x = x.
Proof. intros. unfold s32. rewrite Z.mod_small by lia. lia. Qed.

Lemma wrap_wrap w x : 0 <= w -> wrap w (wrap w x) = wrap w x.
Proof. intros Hw. by apply wrap_small, wrap_range. Qed.


#[export] Hint Rewrite wrap_bits not64_bits shl64_bits shr64_bits ULONG_MAX_bits ones_bits
  pow2_bits Z.shiftl_spec Z.shiftr_spec Z.lnot_spec using lia : zbits.
#[export] Hint Rewrite Z.land_spec Z.lor_spec Z.lxor_spec Z.ldiff_spec Z.bits_0 : zbits.
#[export] Hint Rewrite andb_true_l andb_true_r andb_false_l andb_false_r orb_true_l orb_true_r
  orb_false_l orb_false_r xorb_false_l xorb_false_r xorb_true_l xorb_true_r negb_involutive
  : zbits.

(** Case analysis on every integer comparison of the goal. *)
Ltac zcases :=
  repeat match goal with
  | |- context [Z.ltb ?a ?b] => destruct (Z.ltb_spec a b)
  | |- context [Z.leb ?a ?b] => destruct (Z.leb_spec a b)
  | |- context [Z.eqb ?a ?b] => destruct (Z.eqb_spec a b)
  end; simpl; try lia; rewrite ?andb_true_r, ?andb_false_r, ?orb_false_r, ?orb_true_r; try done.

(** Equality of integers bit by bit. *)
Tactic Notation "bitwise" ident(i) ident(Hi) :=
  apply Z.bits_inj'; intros i Hi; autorewrite with zbits.

(** Removes [wrap] from arithmetic that does not overflow. *)
Ltac word_lia := first [lia | unfold is_word in *; lia | nia].
Ltac unwrap :=
  repeat match goal with
  | |- context [wrap ?w ?x] => rewrite (wrap_small w x) by word_lia
  end.

Lemma s64_u64 x : - 2 ^ 63 <= x < 2 ^ 63 -> s64 (u64 x) = x.
Proof.
  intros Hx. unfold s64, wrap. destruct (Z.lt_ge_cases x 0).
  - rewrite <- (Z.mod_add x 1), Z.mod_small by lia. zcases.
  - rewrite Z.mod_small by lia. zcases.
Qed.

Lemma shr64_range x n : is_u64 x -> is_u64 (shr64 x n).
Proof.
  intros [H0 H1]. unfold shr64, is_word.
  pose proof (Z.mod_pos_bound n 64 ltac:(lia)).
  rewrite Z.shiftr_div_pow2 by lia.
  assert (0 < 2 ^ (n mod 64)) by (apply Z.pow_pos_nonneg; lia).
  split; [by apply Z.div_pos|]. eapply Z.le_lt_trans; [|exact H1].
  apply Z.div_le_upper_bound; nia.
Qed.

Lemma land_range_l w x y : 0 <= w -> is_word w x -> is_word w (Z.land x y).
Proof.
  intros Hw Hx. apply is_word_bits; [done| |].
  - apply Z.land_nonneg. left. apply Hx.
  - intros i Hi. rewrite Z.land_spec, (word_bits_high w x) by (done || lia). done.
Qed.

Lemma land_range_r w x y : 0 <= w -> is_word w y -> is_word w (Z.land x y).
Proof. intros. rewrite Z.land_comm. by apply land_range_l. Qed.

Lemma lor_range w x y : 0 <= w -> is_word w x -> is_word w y -> is_word w (Z.lor x y).
Proof.
  intros Hw Hx Hy. apply is_word_bits; [done| |].
  - apply Z.lor_nonneg. split; [apply Hx|apply Hy].
  - intros i Hi. rewrite Z.lor_spec, (word_bits_high w x), (word_bits_high w y) by (done || lia).
    done.
Qed.

Lemma lxor_range w x y : 0 <= w -> is_word w x -> is_word w y -> is_word w (Z.lxor x y).
Proof.
  intros Hw Hx Hy. apply is_word_bits; [done| |].
  - apply Z.lxor_nonneg. split; intros; [apply Hy|apply Hx].
  - intros i Hi. rewrite Z.lxor_spec, (word_bits_high w x), (word_bits_high w y) by (done || lia).
    done.
Qed.

Lemma not64_range x : is_u64 (not64 x).
Proof. by apply wrap_range. Qed.

Lemma shl64_range x n : is_u64 (shl64 x n).
Proof. by apply wrap_range. Qed.

Lemma ULONG_MAX_range : is_u64 ULONG_MAX.
Proof. by vm_compute. Qed.

Lemma word_0_range w : 0 <= w -> is_word w 0.
Proof. intros. split; [done|]. by apply Z.pow_pos_nonneg. Qed.

#[export] Hint Resolve wrap_range shr64_range shl64_range not64_range land_range_l lor_range
  lxor_range ULONG_MAX_range word_0_range : words.
#[export] Hint Extern 5 (0 <= _) => lia : words.

(** A word is zero exactly when all its bits are. *)
Lemma word_zero_iff w x :
  0 <= w -> is_word w x -> x = 0 <-> (forall i, 0 <= i < w -> Z.testbit x i = false).
Proof.
  intros Hw Hx. split; [intros -> i _; apply Z.bits_0|].
  intros Hb. apply Z.bits_inj'. intros i Hi. rewrite Z.bits_0.
  destruct (Z.lt_ge_cases i w); [by apply Hb|]. eapply word_bits_high; [exact Hx|lia].
Qed.

(** * Runs of C code

    A run yields [None] when it is undefined: an access outside an array, a
    [BUG_ON] that fires, or a loop that has used up its fuel.  Theorems state
    that the run yields [Some] result. *)

(** One iteration of a loop: go on with a new state, or leave with a result. *)
Inductive ctl (S R : Type) : Type :=
| Next (s : S)
| Done (r : R).
Arguments Next {S R} s.
Arguments Done {S R} r.

(** [while] with [break], [return] and [goto] out of the loop as [Done]. *)
Fixpoint loop {S R : Type} (fuel : nat) (step : S -> option (ctl S R)) (s : S) : option R :=
  match fuel with
  | O => None
  | S fuel' =>
      match step s with
      | None => None
      | Some (Next s') => loop fuel' step s'
      | Some (Done r) => Some r
      end
  end.

(** [n] iterations of [for (k = a; ...; k++) body], with early exit. *)
Fixpoint for_n {S R : Type} (n : nat) (a : Z) (body : Z -> S -> option (ctl S R)) (s : S)
  : option (ctl S R) :=
  match n with
  | O => Some (Next s)
  | S n' =>
      match body a s with
      | None => None
      | Some (Next s') => for_n n' (a + 1) body s'
      | Some (Done r) => Some (Done r)
      end
  end.

(** [for (k = a; k < b; k++) body]. *)
Definition for_ {S R : Type} (a b : Z) (body : Z -> S -> option (ctl S R)) (s : S)
  : option (ctl S R) :=
  for_n (Z.to_nat (b - a)) a body s.

(** The same with a body that always runs to its end. *)
Definition for_all {S : Type} (a b : Z) (body : Z -> S -> option S) (s : S) : option S :=
  x ← @for_ S Empty_set a b (fun k s => s' ← body k s; Some (Next s')) s;
  match x with Next s' => Some s' | Done r => match (r : Empty_set) with end end.

(** Total correctness of [loop]: an invariant and a measure that decreases. *)
Lemma loop_total {S R : Type} (step : S -> option (ctl S R)) (I : S -> Prop) (Q : R -> Prop)
    (m : S -> nat) :
  (forall s, I s -> exists x, step s = Some x /\
     match x with Next s' => I s' /\ (m s' < m s)%nat | Done r => Q r end) ->
  forall fuel s, I s -> (m s < fuel)%nat -> exists r, loop fuel step s = Some r /\ Q r.
Proof.
  intros Hstep. induction fuel as [|fuel IH]; intros s HI Hm; [lia|].
  destruct (Hstep s HI) as ([s'|r] & Hx & Hpost); simpl; rewrite Hx.
  - destruct Hpost. apply IH; [done|lia].
  - by exists r.
Qed.

(** An invariant of a loop that is known to end. *)
Lemma loop_inv {S R : Type} (step : S -> option (ctl S R)) (I : S -> Prop) (Q : R -> Prop) :
  (forall s, I s -> match step s with Some (Next s') => I s' | Some (Done r) => Q r | None => True end) ->
  forall fuel s r, I s -> loop fuel step s = Some r -> Q r.
Proof.
  intros Hstep. induction fuel as [|fuel IH]; intros s r HI; simpl; [done|].
  specialize (Hstep s HI). destruct (step s) as [[s'|r']|]; [by apply IH| |done]. by intros [= <-].
Qed.

(** One iteration. *)
Lemma loop_S {S R : Type} n (step : S -> option (ctl S R)) s :
  loop (Datatypes.S n) step s =
  match step s with
  | None => None
  | Some (Next s') => loop n step s'
  | Some (Done r) => Some r
  end.
Proof. done. Qed.

Lemma for_n_rule {S R : Type} (body : Z -> S -> option (ctl S R)) (I : Z -> S -> Prop)
    (Q : R -> Prop) : forall n a s,
  (forall k s, a <= k < a + Z.of_nat n -> I k s -> exists x, body k s = Some x /\
     match x with Next s' => I (k + 1) s' | Done r => Q r end) ->
  I a s ->
  exists x, for_n n a body s = Some x /\
    match x with Next s' => I (a + Z.of_nat n) s' | Done r => Q r end.
Proof.
  induction n as [|n IH]; intros a s Hb HI; simpl.
  - exists (Next s). split; [done|]. by rewrite Z.add_0_r.
  - destruct (Hb a s ltac:(lia) HI) as ([s'|r] & Hx & Hpost); rewrite Hx.
    + destruct (IH (a + 1) s') as (x & Hr & Hx'); [|done|].
      { intros k s0 Hk. apply Hb. lia. }
      exists x. split; [done|]. destruct x; [|done].
      by replace (a + Z.of_nat (Datatypes.S n)) with (a + 1 + Z.of_nat n) by lia.
    + exists (Done r). done.
Qed.

(** Total correctness of [for_]: the loop ends at [b] with the invariant, or
    leaves early with [Q]. *)
Lemma for_rule {S R : Type} (body : Z -> S -> option (ctl S R)) (I : Z -> S -> Prop)
    (Q : R -> Prop) a b s :
  a <= b ->
  I a s ->
  (forall k s, a <= k < b -> I k s -> exists x, body k s = Some x /\
     match x with Next s' => I (k + 1) s' | Done r => Q r end) ->
  exists x, for_ a b body s = Some x /\
    match x with Next s' => I b s' | Done r => Q r end.
Proof.
  intros Hab HI Hb. unfold for_.
  destruct (for_n_rule body I Q (Z.to_nat (b - a)) a s) as (x & Hx & Hp);
    [intros k s' Hk; apply Hb; lia|done|].
  exists x. split; [done|]. destruct x; [|done].
  by replace b with (a + Z.of_nat (Z.to_nat (b - a))) by lia.
Qed.

Lemma for_all_rule {S : Type} (body : Z -> S -> option S) (I : Z -> S -> Prop) a b s :
  a <= b ->
  I a s ->
  (forall k s, a <= k < b -> I k s -> exists s', body k s = Some s' /\ I (k + 1) s') ->
  exists s', for_all a b body s = Some s' /\ I b s'.
Proof.
  intros Hab HI Hb. unfold for_all.
  destruct (for_rule (R := Empty_set) (fun k s => s' ← body k s; Some (Next s')) I
    (fun _ => True) a b s) as ([s'|[]] & Hx & Hp); [done|done| |].
  - intros k s0 Hk HI0. destruct (Hb k s0 Hk HI0) as (s' & Hs & HI').
    exists (Next s'). rewrite Hs. done.
  - rewrite Hx. simpl. eauto.
Qed.

(** Two loops whose bodies agree on an invariant agree. *)
Lemma loop_ext {S R} (I : S -> Prop) (f g : S -> option (ctl S R)) n s :
  (forall s, I s -> f s = g s /\ forall s', f s = Some (Next s') -> I s') ->
  I s -> loop n f s = loop n g s.
Proof.
  intros H. revert s. induction n as [|n IH]; intros s HI; simpl; [done|].
  destruct (H s HI) as [<- Hn]. destruct (f s) as [[|]|]; [|done|done]. by apply IH, Hn.
Qed.

#[global] Arguments loop : simpl never.
#[global] Arguments for_ : simpl never.
#[global] Arguments for_all : simpl never.

(** * Arrays *)

Definition zlen {A : Type} (l : list A) : Z := Z.of_nat (length l).

(** [l[i]] and [l[i] = v]; outside the array both are undefined. *)
Definition aget {A : Type} (l : list A) (i : Z) : option A :=
  if 0 <=? i then l !! Z.to_nat i else None.

Definition aset {A : Type} (l : list A) (i : Z) (v : A) : option (list A) :=
  if (0 <=? i) && (i <? zlen l) then Some (<[Z.to_nat i := v]> l) else None.

Lemma aget_is_Some {A : Type} (l : list A) i : is_Some (aget l i) <-> 0 <= i < zlen l.
Proof.
  unfold aget, zlen. destruct (Z.leb_spec 0 i).
  - rewrite lookup_lt_is_Some. lia.
  - split; [intros [? [=]]|lia].
Qed.

Lemma aget_range {A : Type} (l : list A) i v : aget l i = Some v -> 0 <= i < zlen l.
Proof. intros H. apply aget_is_Some. eauto. Qed.

Lemma aget_lookup {A : Type} (l : list A) i : 0 <= i -> aget l i = l !! Z.to_nat i.
Proof. intros. unfold aget. destruct (Z.leb_spec 0 i); [done|lia]. Qed.

Lemma aget_fmap {A B} (f : A -> B) (l : list A) i : aget (f <$> l) i = f <$> aget l i.
Proof. unfold aget. destruct (0 <=? i); [|done]. apply list_lookup_fmap. Qed.

Lemma aset_Some {A : Type} (l : list A) i v :
  0 <= i < zlen l -> aset l i v = Some (<[Z.to_nat i := v]> l).
Proof. intros. unfold aset. zcases. Qed.

Lemma aset_inv {A : Type} (l l' : list A) i v :
  aset l i v = Some l' -> 0 <= i < zlen l /\ l' = <[Z.to_nat i := v]> l.
Proof. unfold aset. zcases; intros; simplify_eq. split; [lia|done]. Qed.

Lemma aset_len {A : Type} (l l' : list A) i v : aset l i v = Some l' -> zlen l' = zlen l.
Proof. intros [_ ->]%aset_inv. unfold zlen. by rewrite length_insert. Qed.

Lemma aget_aset {A : Type} (l l' : list A) i j v :
  aset l i v = Some l' -> aget l' j = if i =? j then Some v else aget l j.
Proof.
  intros [Hi ->]%aset_inv. unfold aget, zlen in *.
  destruct (Z.leb_spec 0 j), (Z.eqb_spec i j); subst; try lia; try done.
  - by rewrite list_lookup_insert_eq by lia.
  - by rewrite list_lookup_insert_ne by lia.
Qed.

Lemma zlen_app {A : Type} (l l' : list A) : zlen (l ++ l') = zlen l + zlen l'.
Proof. unfold zlen. rewrite length_app. lia. Qed.

Lemma zlen_cons {A : Type} (x : A) l : zlen (x :: l) = zlen l + 1.
Proof. unfold zlen. simpl. lia. Qed.

Lemma zlen_nonneg {A : Type} (l : list A) : 0 <= zlen l.
Proof. unfold zlen. lia. Qed.

Lemma zlen_nil_inv {A : Type} (l : list A) : zlen l = 0 -> l = [].
Proof. unfold zlen. destruct l; simpl; [done|lia]. Qed.

Lemma aget_app_l {A : Type} (l l' : list A) i : i < zlen l -> aget (l ++ l') i = aget l i.
Proof.
  intros Hi. unfold aget, zlen in *. destruct (Z.leb_spec 0 i); [|done].
  apply lookup_app_l. lia.
Qed.

Lemma aget_app_r {A : Type} (l l' : list A) i :
  zlen l <= i -> aget (l ++ l') i = aget l' (i - zlen l).
Proof.
  intros Hi. unfold aget, zlen in *.
  destruct (Z.leb_spec 0 i), (Z.leb_spec 0 (i - Z.of_nat (length l))); try lia.
  rewrite lookup_app_r by lia. f_equal. lia.
Qed.

(** Reading and writing the element after a prefix. *)
Lemma aget_mid {A : Type} (l r : list A) x i : i = zlen l -> aget (l ++ x :: r) i = Some x.
Proof. intros ->. rewrite aget_app_r, Z.sub_diag by lia. done. Qed.

Lemma aset_mid {A : Type} (l r : list A) x y i :
  i = zlen l -> aset (l ++ x :: r) i y = Some (l ++ y :: r).
Proof.
  intros ->. rewrite aset_Some by (rewrite zlen_app, zlen_cons; pose proof (zlen_nonneg l);
    pose proof (zlen_nonneg r); lia).
  f_equal. unfold zlen. by rewrite Nat2Z.id, insert_app_r_alt, Nat.sub_diag by lia.
Qed.

(** An element in range splits the list. *)
Lemma aget_split {A : Type} (l : list A) i x :
  aget l i = Some x -> exists l1 l2, l = l1 ++ x :: l2 /\ zlen l1 = i.
Proof.
  intros H. pose proof (aget_range _ _ _ H) as Hi. rewrite aget_lookup in H by lia.
  exists (take (Z.to_nat i) l), (drop (S (Z.to_nat i)) l).
  split; [by rewrite take_drop_middle|]. unfold zlen in *. rewrite length_take. lia.
Qed.

(** A search through the front [l] of an array. *)
Lemma scan_rule {A R : Type} (l j : list A) (f : Z -> A -> option (ctl unit R))
    (P : A -> Prop) (Q : R -> Prop) :
  (forall la p lb, l = la ++ p :: lb -> Forall P la ->
     exists x, f (zlen la) p = Some x /\ match x with Next _ => P p | Done r => Q r end) ->
  exists x, for_ 0 (zlen l) (fun i _ => p ← aget (l ++ j) i; f i p) tt = Some x /\
    match x with Next _ => Forall P l | Done r => Q r end.
Proof.
  intros Hf. pose proof (zlen_nonneg l).
  destruct (for_rule (fun i (_ : unit) => p ← aget (l ++ j) i; f i p)
    (fun k _ => forall la lb, l = la ++ lb -> zlen la = k -> Forall P la) Q 0 (zlen l) tt)
    as (x & Hx & Hpost); [lia| | |].
  - intros la lb -> Hz. by apply zlen_nil_inv in Hz as ->.
  - intros k [] Hk HI. destruct (proj2 (aget_is_Some l k)) as [p Hp]; [lia|].
    rewrite aget_app_l, Hp by lia. apply aget_split in Hp as (la & lb & -> & <-).
    destruct (Hf la p lb eq_refl) as (x & Hx & Hpost); [by eapply HI|].
    exists x. split; [done|]. destruct x; [|done]. intros la' lb' Heq Hla'.
    replace (la ++ p :: lb) with ((la ++ [p]) ++ lb) in Heq by (by rewrite <- app_assoc).
    apply app_inj_1 in Heq as [<- _]; [|rewrite length_app; simpl; unfold zlen in *; lia].
    apply Forall_app. split; [by eapply HI|by constructor].
  - exists x. split; [done|]. destruct x; [|done]. apply (Hpost l []); [by rewrite app_nil_r|done].
Qed.

(** Applies [scan_rule] to the search in the goal. *)
Tactic Notation "scan_array" constr(l) constr(j) uconstr(P) uconstr(Q) ident(x) ident(H) :=
  match goal with
  | |- context [for_ 0 _ (fun i _ => mbind (fun p => @?f i p) (aget _ i)) tt] =>
      destruct (scan_rule l j f P Q) as (x & -> & H)
  end.

(** [setw l a b F] is [l] with the entries from [a] up to [b] replaced by [F]. *)
Definition setw {A : Type} (l : list A) (a b : Z) (F : Z -> A) : list A :=
  imap (fun i x => if (a <=? Z.of_nat i) && (Z.of_nat i <? b) then F (Z.of_nat i) else x) l.

Lemma setw_zlen {A : Type} (l : list A) a b F : zlen (setw l a b F) = zlen l.
Proof. unfold zlen, setw. by rewrite length_imap. Qed.

Lemma setw_aget {A : Type} (l : list A) a b F i :
  0 <= i < zlen l ->
  aget (setw l a b F) i = if (a <=? i) && (i <? b) then Some (F i) else aget l i.
Proof.
  intros Hi. rewrite !aget_lookup by lia. unfold setw. rewrite list_lookup_imap, Z2Nat.id by lia.
  destruct (lookup_lt_is_Some_2 l (Z.to_nat i)) as [x Hx]; [unfold zlen in Hi; lia|].
  rewrite Hx. simpl. by destruct ((a <=? i) && (i <? b)).
Qed.

Lemma aget_ext {A : Type} (l l' : list A) :
  zlen l = zlen l' -> (forall i, 0 <= i < zlen l -> aget l i = aget l' i) -> l = l'.
Proof.
  intros Hlen H. apply list_eq. intros i. unfold zlen in *.
  destruct (decide (i < length l)%nat).
  - specialize (H (Z.of_nat i) ltac:(lia)). rewrite !aget_lookup in H by lia.
    by rewrite Nat2Z.id in H.
  - rewrite !lookup_ge_None_2 by lia. done.
Qed.

Lemma setw_empty {A : Type} (l : list A) a b F : b <= a -> setw l a b F = l.
Proof.
  intros. apply aget_ext; [apply setw_zlen|]. rewrite setw_zlen. intros i Hi.
  rewrite setw_aget by done. zcases.
Qed.

(** Writing the next entry, upwards and downwards. *)
Lemma setw_up {A : Type} (l : list A) a k F :
  0 <= a <= k -> k < zlen l -> aset (setw l a k F) k (F k) = Some (setw l a (k + 1) F).
Proof.
  intros Hk Hl. rewrite aset_Some by (rewrite setw_zlen; lia). f_equal.
  assert (Hs : aset (setw l a k F) k (F k) = Some (<[Z.to_nat k := F k]> (setw l a k F)))
    by (apply aset_Some; rewrite setw_zlen; lia).
  apply aget_ext; [by rewrite (aset_len _ _ _ _ Hs), !setw_zlen|].
  rewrite (aset_len _ _ _ _ Hs), setw_zlen. intros i Hi.
  rewrite (aget_aset _ _ _ i _ Hs), !setw_aget by done.
  destruct (Z.eqb_spec k i) as [->|]; zcases.
Qed.

Lemma setw_down {A : Type} (l : list A) k b F :
  0 <= k < b -> k < zlen l -> aset (setw l (k + 1) b F) k (F k) = Some (setw l k b F).
Proof.
  intros Hk Hl. rewrite aset_Some by (rewrite setw_zlen; lia). f_equal.
  assert (Hs : aset (setw l (k + 1) b F) k (F k) = Some (<[Z.to_nat k := F k]> (setw l (k + 1) b F)))
    by (apply aset_Some; rewrite setw_zlen; lia).
  apply aget_ext; [by rewrite (aset_len _ _ _ _ Hs), !setw_zlen|].
  rewrite (aset_len _ _ _ _ Hs), setw_zlen. intros i Hi.
  rewrite (aget_aset _ _ _ i _ Hs), !setw_aget by done.
  destruct (Z.eqb_spec k i) as [->|]; zcases.
Qed.

(** * Memory

    Arrays that may be the same array are blocks of a memory, named by
    pointers. *)
Abbreviation ptr := positive.
Abbreviation mem := (gmap positive (list Z)).

Definition load (m : mem) (p : ptr) (i : Z) : option Z := l ← m !! p; aget l i.

Definition store (m : mem) (p : ptr) (i v : Z) : option mem :=
  l ← m !! p; l' ← aset l i v; Some (<[p := l']> m).

(** [memset(&p[a], 0, n * sizeof(unsigned long))]. *)
Definition mem_zero (m : mem) (p : ptr) (a n : Z) : option mem :=
  for_all 0 n (fun i m => store m p (a + i) 0) m.

Lemma load_insert m p q l i :
  load (<[p := l]> m) q i = if decide (p = q) then aget l i else load m q i.
Proof. unfold load. rewrite lookup_insert. by case_decide. Qed.

Lemma store_insert m p l i v :
  store (<[p := l]> m) p i v = l' ← aset l i v; Some (<[p := l']> m).
Proof.
  unfold store. rewrite lookup_insert_eq. simpl. destruct (aset l i v); simpl; [|done].
  by rewrite insert_insert_eq.
Qed.

(** [memcpy(dst + doff, src + soff, n)] between two arrays. *)
Definition memcpy {A : Type} (dst : list A) (doff : Z) (src : list A) (soff n : Z) : option (list A) :=
  for_all 0 n (fun i dst => b ← aget src (soff + i); aset dst (doff + i) b) dst.

Lemma aget_lookup_total {A : Type} `{Inhabited A} (l : list A) i :
  0 <= i < zlen l -> aget l i = Some (l !!! Z.to_nat i).
Proof.
  intros Hi. rewrite aget_lookup by lia. apply list_lookup_lookup_total_lt. unfold zlen in Hi. lia.
Qed.

Lemma memcpy_spec {A : Type} `{Inhabited A} (dst src : list A) doff soff n :
  0 <= n -> 0 <= doff -> doff + n <= zlen dst -> 0 <= soff -> soff + n <= zlen src ->
  memcpy dst doff src soff n =
  Some (setw dst doff (doff + n) (fun k => src !!! Z.to_nat (soff + (k - doff)))).
Proof.
  intros Hn Hd Hdl Hs Hsl. unfold memcpy. set (F := fun k => src !!! Z.to_nat (soff + (k - doff))).
  match goal with |- for_all 0 n ?body _ = _ =>
    destruct (for_all_rule body (fun k d => d = setw dst doff (doff + k) F) 0 n dst)
      as (d & -> & ->) end; [lia|by rewrite setw_empty by lia| |done].
  intros k d Hk ->. rewrite aget_lookup_total by lia. simpl.
  replace (src !!! Z.to_nat (soff + k)) with (F (doff + k)) by (unfold F; do 2 f_equal; lia).
  rewrite setw_up by lia. eexists. split; [done|]. by rewrite Z.add_assoc.
Qed.

(** A stronger condition keeps fewer elements. *)
Lemma filter_shrink {A : Type} (P Q : A -> Prop) `{!forall x, Decision (P x)} `{!forall x, Decision (Q x)}
    (l : list A) p :
  (forall q, Q q -> P q) -> p ∈ l -> P p -> ~ Q p -> (length (filter Q l) < length (filter P l))%nat.
Proof.
  intros HQP Hin HP HQ. assert (Hle : forall l, (length (filter Q l) <= length (filter P l))%nat).
  { intros l'. induction l' as [|x l' IH]; [done|]. rewrite !filter_cons.
    repeat case_decide; simpl; try lia. naive_solver. }
  apply list_elem_of_split in Hin as (l1 & l2 & ->). rewrite !list.filter_app, !length_app, !filter_cons.
  rewrite (decide_True _ _ HP), (decide_False _ _ HQ). simpl. pose proof (Hle l1). pose proof (Hle l2). lia.
Qed.

(** Elements with distinct keys are determined by their key. *)
Lemma NoDup_key {A B : Type} (f : A -> B) (l : list A) x y :
  NoDup (f <$> l) -> x ∈ l -> y ∈ l -> f x = f y -> x = y.
Proof.
  induction l as [|z l IH]; intros Hd Hx Hy Hf; [by apply elem_of_nil in Hx|].
  rewrite fmap_cons in Hd. apply list.NoDup_cons in Hd as [Hz Hd].
  apply elem_of_cons in Hx as [->|Hx], Hy as [->|Hy]; [done| | |by apply IH];
    (exfalso; apply Hz; first [rewrite Hf|rewrite <- Hf]; by apply list_elem_of_fmap_2).
Qed.

(** Powers of two. *)
Lemma land_pow2_sub1 x k : 0 <= k -> Z.land x (2 ^ k - 1) = x mod 2 ^ k.
Proof. intros. by rewrite <- Z.land_ones, Z.ones_equiv, Z.sub_1_r by lia. Qed.

Lemma mod_mod_pow2 x k w : 0 <= k <= w -> (x mod 2 ^ w) mod 2 ^ k = x mod 2 ^ k.
Proof.
  intros. apply Z.bits_inj'. intros i Hi. destruct (Z.lt_ge_cases i k).
  - by rewrite !Z.mod_pow2_bits_low by lia.
  - by rewrite !Z.mod_pow2_bits_high by lia.
Qed.

(** Rounding down and up to a multiple of a power of two. *)
Section align.
Context (k : Z) (Hk : 0 <= k < 64).

Lemma align_mask a : is_u64 a -> Z.land a (not64 (u64 (2 ^ k - 1))) = a - a mod 2 ^ k.
Proof using Hk.
  intros Ha. pose proof (Z.pow_pos_nonneg 2 k).
  assert (2 ^ k < 2 ^ 64) by (apply Z.pow_lt_mono_r; lia).
  rewrite (wrap_small 64 (2 ^ k - 1)) by word_lia.
  replace (a - a mod 2 ^ k) with (Z.ldiff a (Z.ones k)).
  - rewrite Z.ones_equiv, <- Z.sub_1_r. apply Z.bits_inj'. intros i Hi.
    rewrite Z.land_spec, Z.ldiff_spec, not64_bits by lia. destruct (Z.ltb_spec i 64); [done|].
    rewrite (word_bits_high 64 a i) by (done || lia). done.
  - rewrite Z.ldiff_ones_r, Z.shiftl_mul_pow2, Z.shiftr_div_pow2 by lia.
    rewrite (Z.div_mod a (2 ^ k)) at 2 by lia. lia.
Qed.

Lemma align_mask_range a : is_u64 a ->
  let d := Z.land a (not64 (u64 (2 ^ k - 1))) in 0 <= d <= a /\ d mod 2 ^ k = 0 /\ a < d + 2 ^ k.
Proof using Hk.
  intros Ha. simpl. rewrite align_mask by done. pose proof (Z.pow_pos_nonneg 2 k).
  pose proof (Z.mod_pos_bound a (2 ^ k) ltac:(lia)). pose proof (Z.mod_le a (2 ^ k) ltac:(apply Ha) ltac:(lia)).
  split_and!; try lia. rewrite Zminus_mod_idemp_r, Z.sub_diag. apply Z.mod_0_l. lia.
Qed.

Lemma mask_up a : 0 <= a -> a + 2 ^ k <= 2 ^ 64 ->
  let u := Z.land (u64 (a + u64 (2 ^ k - 1))) (not64 (u64 (2 ^ k - 1))) in
  a <= u < a + 2 ^ k /\ u mod 2 ^ k = 0.
Proof using Hk.
  intros Ha Hle. pose proof (Z.pow_pos_nonneg 2 k).
  assert (2 ^ k < 2 ^ 64) by (apply Z.pow_lt_mono_r; lia).
  destruct (align_mask_range (a + (2 ^ k - 1))) as (? & ? & ?); [word_lia|].
  rewrite (wrap_small 64 (2 ^ k - 1)) in * by word_lia. rewrite wrap_small by word_lia.
  simpl. split; [lia|done].
Qed.

(** The least multiple at or above an address. *)
Lemma mask_up_least a u c : a <= u < a + 2 ^ k -> u mod 2 ^ k = 0 -> a <= c -> c mod 2 ^ k = 0 -> u <= c.
Proof using Hk.
  intros Hu Hm Hc Hmc. pose proof (Z.pow_pos_nonneg 2 k).
  apply Z.mod_divide in Hm as [x ->]; [|lia]. apply Z.mod_divide in Hmc as [y ->]; [|lia].
  apply Z.mul_le_mono_nonneg_r; [lia|]. assert (x < y + 1); [|lia]. apply (Z.mul_lt_mono_pos_r (2 ^ k)); lia.
Qed.
End align.
