(* ===== verification/FindBit.v ===== *)
(** Bit search: the generic [__ffs], [__fls] and [ffz] of asm-generic, and the
    word-wise searches
    [find_next_bit], [find_next_zero_bit], [find_first_bit],
    [find_first_zero_bit] of lib/find_next_bit.c and [find_last_bit] of
    lib/find_last_bit.c.  A bitmap is the list of its [unsigned long]s; each
    search is proved to return the position the bits themselves define. *)
From Stdlib Require Import ZArith Lia Bool.
From stdpp Require Import base numbers list gmap option.
From S2P Require Import Prelude.

Local Open Scope Z_scope.
Local Open Scope c_scope.

(** * Definitions *)

(** asm-generic/bitops/__ffs.h, with BITS_PER_LONG == 64. *)
Definition __ffs (word : Z) : Z :=
  let num := 0 in
  let '(num, word) :=
    if (word &ₗ 0xffffffff) =? 0 then (num + 32, word >>ₗ 32) else (num, word) in
  let '(num, word) :=
    if (word &ₗ 0xffff) =? 0 then (num + 16, word >>ₗ 16) else (num, word) in
  let '(num, word) :=
    if (word &ₗ 0xff) =? 0 then (num + 8, word >>ₗ 8) else (num, word) in
  let '(num, word) :=
    if (word &ₗ 0xf) =? 0 then (num + 4, word >>ₗ 4) else (num, word) in
  let '(num, word) :=
    if (word &ₗ 0x3) =? 0 then (num + 2, word >>ₗ 2) else (num, word) in
  if (word &ₗ 0x1) =? 0 then num + 1 else num.

(** asm-generic/bitops/ffz.h. *)
Definition ffz (x : Z) : Z := __ffs (∼ₗ x).

(** asm-generic/bitops/__fls.h, with BITS_PER_LONG == 64. *)
Definition __fls (word : Z) : Z :=
  let num := BITS_PER_LONG - 1 in
  let '(num, word) :=
    if (word &ₗ (ULONG_MAX <<ₗ 32)) =? 0 then (num - 32, word <<ₗ 32) else (num, word) in
  let '(num, word) :=
    if (word &ₗ (ULONG_MAX <<ₗ (BITS_PER_LONG - 16))) =? 0
    then (num - 16, word <<ₗ 16) else (num, word) in
  let '(num, word) :=
    if (word &ₗ (ULONG_MAX <<ₗ (BITS_PER_LONG - 8))) =? 0
    then (num - 8, word <<ₗ 8) else (num, word) in
  let '(num, word) :=
    if (word &ₗ (ULONG_MAX <<ₗ (BITS_PER_LONG - 4))) =? 0
    then (num - 4, word <<ₗ 4) else (num, word) in
  let '(num, word) :=
    if (word &ₗ (ULONG_MAX <<ₗ (BITS_PER_LONG - 2))) =? 0
    then (num - 2, word <<ₗ 2) else (num, word) in
  if (word &ₗ (ULONG_MAX <<ₗ (BITS_PER_LONG - 1))) =? 0 then num - 1 else num.

(** The tail of [find_next_bit] and [find_first_bit] on the last, partial
    word: labels [found_first] and [found_middle]. *)
Definition found_first (result size tmp : Z) : Z :=
  let tmp := tmp &ₗ (ULONG_MAX >>ₗ (BITS_PER_LONG - size)) in
  if tmp =? 0 then result ⊕ size else result ⊕ __ffs tmp.

(** The loop over whole words and what follows it, from word [p] on. *)
Definition scan_set (addr : list Z) (p result size : Z) : option Z :=
  loop (S (Z.to_nat (size / BITS_PER_LONG)))
    (fun '(p, result, size) =>
       if negb ((size &ₗ ∼ₗ (BITS_PER_LONG - 1)) =? 0) then
         tmp ← aget addr p;
         if negb (tmp =? 0) then Some (Done (result ⊕ __ffs tmp))
         else Some (Next (p + 1, result ⊕ BITS_PER_LONG, size ⊖ BITS_PER_LONG))
       else if size =? 0 then Some (Done result)
       else tmp ← aget addr p; Some (Done (found_first result size tmp)))
    (p, result, size).

Definition find_next_bit (addr : list Z) (size offset : Z) : option Z :=
  let p := offset / BITS_PER_LONG in
  let result := offset &ₗ ∼ₗ (BITS_PER_LONG - 1) in
  if size <=? offset then Some size else
  let size := size ⊖ result in
  let offset := offset mod BITS_PER_LONG in
  if negb (offset =? 0) then
    tmp ← aget addr p;
    let tmp := tmp &ₗ (ULONG_MAX <<ₗ offset) in
    if size <? BITS_PER_LONG then Some (found_first result size tmp)
    else if negb (tmp =? 0) then Some (result ⊕ __ffs tmp)
    else scan_set addr (p + 1) (result ⊕ BITS_PER_LONG) (size ⊖ BITS_PER_LONG)
  else scan_set addr p result size.

Definition find_first_bit (addr : list Z) (size : Z) : option Z :=
  scan_set addr 0 0 size.

(** The same for zero bits. *)
Definition found_first_zero (result size tmp : Z) : Z :=
  let tmp := tmp |ₗ (ULONG_MAX <<ₗ size) in
  if tmp =? ULONG_MAX then result ⊕ size else result ⊕ ffz tmp.

Definition scan_clear (addr : list Z) (p result size : Z) : option Z :=
  loop (S (Z.to_nat (size / BITS_PER_LONG)))
    (fun '(p, result, size) =>
       if negb ((size &ₗ ∼ₗ (BITS_PER_LONG - 1)) =? 0) then
         tmp ← aget addr p;
         if negb (∼ₗ tmp =? 0) then Some (Done (result ⊕ ffz tmp))
         else Some (Next (p + 1, result ⊕ BITS_PER_LONG, size ⊖ BITS_PER_LONG))
       else if size =? 0 then Some (Done result)
       else tmp ← aget addr p; Some (Done (found_first_zero result size tmp)))
    (p, result, size).

Definition find_next_zero_bit (addr : list Z) (size offset : Z) : option Z :=
  let p := offset / BITS_PER_LONG in
  let result := offset &ₗ ∼ₗ (BITS_PER_LONG - 1) in
  if size <=? offset then Some size else
  let size := size ⊖ result in
  let offset := offset mod BITS_PER_LONG in
  if negb (offset =? 0) then
    tmp ← aget addr p;
    let tmp := tmp |ₗ (ULONG_MAX >>ₗ (BITS_PER_LONG - offset)) in
    if size <? BITS_PER_LONG then Some (found_first_zero result size tmp)
    else if negb (∼ₗ tmp =? 0) then Some (result ⊕ ffz tmp)
    else scan_clear addr (p + 1) (result ⊕ BITS_PER_LONG) (size ⊖ BITS_PER_LONG)
  else scan_clear addr p result size.

Definition find_first_zero_bit (addr : list Z) (size : Z) : option Z :=
  scan_clear addr 0 0 size.

(** The loop [while (words)] of [find_last_bit]. *)
Definition scan_down (addr : list Z) (words size : Z) : option Z :=
  loop (S (Z.to_nat words))
    (fun words =>
       if negb (words =? 0) then
         let words := words ⊖ 1 in
         tmp ← aget addr words;
         if negb (tmp =? 0) then Some (Done ((words ⊗ BITS_PER_LONG) ⊕ __fls tmp))
         else Some (Next words)
       else Some (Done size))
    words.

Definition find_last_bit (addr : list Z) (size : Z) : option Z :=
  let words := size / BITS_PER_LONG in
  if negb ((size &ₗ (BITS_PER_LONG - 1)) =? 0) then
    w ← aget addr words;
    let tmp := w &ₗ (ULONG_MAX >>ₗ (BITS_PER_LONG - (size &ₗ (BITS_PER_LONG - 1)))) in
    if negb (tmp =? 0) then Some ((words ⊗ BITS_PER_LONG) ⊕ __fls tmp)
    else scan_down addr words size
  else scan_down addr words size.

(** * Specification *)

(** Bit [i] of a bitmap; false past its last word. *)
Definition bit (l : list Z) (i : Z) : bool :=
  match aget l (i / 64) with Some w => Z.testbit w (i mod 64) | None => false end.

Definition bitmap_wf (l : list Z) : Prop := Forall is_u64 l.

(** [r] is the first position at or after [offset] where [f] holds, or [size]
    when there is none below [size]. *)
Definition is_next (f : Z -> bool) (size offset r : Z) : Prop :=
  (r = size \/ (offset <= r < size /\ f r = true)) /\
  (forall i, offset <= i < r -> i < size -> f i = false).

(** [r] is the last position below [size] where [f] holds, or [size] when
    there is none. *)
Definition is_last (f : Z -> bool) (size r : Z) : Prop :=
  (0 <= r < size /\ f r = true /\ forall i, r < i < size -> f i = false) \/
  (r = size /\ forall i, 0 <= i < size -> f i = false).

(** The least and the greatest set bit of a word. *)
Definition lowest_bit (w f : Z) : Prop :=
  0 <= f /\ Z.testbit w f = true /\ forall i, 0 <= i < f -> Z.testbit w i = false.

Definition highest_bit (w f : Z) : Prop :=
  0 <= f /\ Z.testbit w f = true /\ forall i, f < i -> Z.testbit w i = false.

Lemma is_next_unique f size offset r r' :
  offset <= size -> is_next f size offset r -> is_next f size offset r' -> r = r'.
Proof.
  intros Hs [Hr Hn] [Hr' Hn'].
  destruct Hr as [->|[Hr Hf]], Hr' as [->|[Hr' Hf']]; [done| | |].
  - rewrite Hn in Hf' by lia. done.
  - rewrite Hn' in Hf by lia. done.
  - destruct (Z.lt_trichotomy r r') as [H|[H|H]]; [|done|].
    + rewrite Hn' in Hf by lia. done.
    + rewrite Hn in Hf' by lia. done.
Qed.

Lemma bit_word l p w j :
  aget l p = Some w -> 0 <= j < 64 -> bit l (64 * p + j) = Z.testbit w j.
Proof.
  intros Hw Hj. unfold bit.
  replace ((64 * p + j) / 64) with p by (Z.div_mod_to_equations; lia).
  replace ((64 * p + j) mod 64) with j by (Z.div_mod_to_equations; lia).
  by rewrite Hw.
Qed.

Lemma bitmap_wf_aget l p w : bitmap_wf l -> aget l p = Some w -> is_u64 w.
Proof.
  intros Hl Hw. unfold aget in Hw. destruct (0 <=? p); [|done].
  eapply Forall_lookup_1; eauto.
Qed.

Lemma aget_word l p : bitmap_wf l -> 0 <= p < zlen l -> exists w, aget l p = Some w /\ is_u64 w.
Proof.
  intros Hl Hp. apply aget_is_Some in Hp as [w Hw]. exists w. split; [done|].
  by eapply bitmap_wf_aget.
Qed.

(** * [__ffs], [ffz], [__fls] *)

(** A nonzero word has a lowest and a highest bit. *)
Lemma lowest_bit_exists w : is_u64 w -> w <> 0 -> exists f, lowest_bit w f /\ f < 64.
Proof.
  intros Hw Hnz.
  assert (Hs : forall n : nat, (forall i, 0 <= i < Z.of_nat n -> Z.testbit w i = false) \/
    exists f, lowest_bit w f /\ f < Z.of_nat n).
  { induction n as [|n [IH|(f & Hf & ?)]].
    - left. intros i Hi. lia.
    - destruct (Z.testbit w (Z.of_nat n)) eqn:E.
      + right. exists (Z.of_nat n). unfold lowest_bit. split_and!; try done; lia.
      + left. intros i Hi. destruct (decide (i = Z.of_nat n)) as [->|]; [done|].
        apply IH. lia.
    - right. exists f. split; [done|lia]. }
  destruct (Hs 64%nat) as [H|H]; [|done].
  exfalso. apply Hnz. by apply (word_zero_iff 64 w ltac:(lia) Hw).
Qed.

Lemma highest_bit_exists w : 0 < w -> highest_bit w (Z.log2 w).
Proof.
  intros Hw. split_and!; [apply Z.log2_nonneg|by apply Z.bit_log2|].
  intros i Hi. apply Z.bits_above_log2; lia.
Qed.

Lemma ones_range k : 0 <= k -> is_word k (Z.ones k).
Proof.
  intros Hk. rewrite Z.ones_equiv. unfold is_word.
  assert (0 < 2 ^ k) by (by apply Z.pow_pos_nonneg). lia.
Qed.

Lemma land_ones_zero w k :
  0 <= k -> Z.land w (Z.ones k) = 0 <-> (forall i, 0 <= i < k -> Z.testbit w i = false).
Proof.
  intros Hk. rewrite (word_zero_iff k) by (done || by apply land_range_r, ones_range).
  split; intros H i Hi; specialize (H i Hi);
    rewrite Z.land_spec, ones_bits in * by lia;
    rewrite (proj2 (Z.ltb_lt i k)) in * by lia; by destruct (Z.testbit w i).
Qed.

(** One halving step of [__ffs]. *)
Lemma ffs_step (w num f k : Z) :
  0 < k < 64 -> lowest_bit w f -> f < 2 * k ->
  exists num' w' f' : Z,
    (if (Z.land w (Z.ones k)) =? 0 then (num + k, shr64 w k) else (num, w)) = (num', w') /\
    lowest_bit w' f' /\ f' < k /\ num' + f' = num + f.
Proof.
  intros Hk (Hf0 & Hf & Hlow) H2. destruct (Z.eqb_spec (Z.land w (Z.ones k)) 0) as [E|E].
  - rewrite land_ones_zero in E by lia.
    assert (k <= f) by (destruct (Z.lt_ge_cases f k); [rewrite E in Hf by lia; done|done]).
    exists (num + k), (shr64 w k), (f - k). split_and!; try done; try lia.
    split_and!; [lia| |].
    + rewrite shr64_bits by lia. by replace (f - k + k) with f by lia.
    + intros i Hi. rewrite shr64_bits by lia. apply Hlow. lia.
  - exists num, w, f. split_and!; try done; try lia.
    destruct (Z.lt_ge_cases f k); [done|]. destruct E. apply land_ones_zero; [lia|].
    intros i Hi. apply Hlow. lia.
Qed.

Lemma ffs_lowest w f : lowest_bit w f -> f < 64 -> __ffs w = f.
Proof.
  intros Hf Hlt. unfold __ffs.
  change 0xffffffff with (Z.ones 32). change 0xffff with (Z.ones 16).
  change 0xff with (Z.ones 8). change 0xf with (Z.ones 4). change 0x3 with (Z.ones 2).
  destruct (ffs_step w 0 f 32) as (n1 & w1 & f1 & -> & ? & ? & ?); [lia|done|lia|].
  destruct (ffs_step w1 n1 f1 16) as (n2 & w2 & f2 & -> & ? & ? & ?); [lia|done|lia|].
  destruct (ffs_step w2 n2 f2 8) as (n3 & w3 & f3 & -> & ? & ? & ?); [lia|done|lia|].
  destruct (ffs_step w3 n3 f3 4) as (n4 & w4 & f4 & -> & ? & ? & ?); [lia|done|lia|].
  destruct (ffs_step w4 n4 f4 2) as (n5 & w5 & f5 & -> & ? & ? & ?); [lia|done|lia|].
  destruct (ffs_step w5 n5 f5 1) as (n6 & w6 & f6 & E6 & [? _] & ? & ?); [lia|done|lia|].
  change (Z.ones 1) with 1 in E6. revert E6.
  destruct (Z.land w5 1 =? 0); intros; simplify_eq; lia.
Qed.

Lemma ffs_spec w : is_u64 w -> w <> 0 -> lowest_bit w (__ffs w) /\ __ffs w < 64.
Proof.
  intros Hw Hnz. destruct (lowest_bit_exists w Hw Hnz) as (f & Hf & Hlt).
  by rewrite (ffs_lowest w f).
Qed.

(** One halving step of [__fls]: [n] bits of the word are still in play at
    its top. *)
Lemma fls_step (w num f k : Z) :
  0 < k < 64 -> is_u64 w -> highest_bit w f -> 64 - 2 * k <= f ->
  exists num' w' f' : Z,
    (if (Z.land w (shl64 ULONG_MAX (64 - k))) =? 0 then (num - k, shl64 w k) else (num, w))
      = (num', w') /\
    is_u64 w' /\ highest_bit w' f' /\ 64 - k <= f' /\ num' + f' = num + f.
Proof.
  intros Hk Hw (Hf0 & Hf & Hhi) H2.
  assert (Hf64 : f < 64) by (destruct (Z.lt_ge_cases f 64); [done|];
    rewrite (word_bits_high 64 w) in Hf by (done || lia); done).
  assert (Hz : Z.land w (shl64 ULONG_MAX (64 - k)) = 0 <-> f < 64 - k).
  { rewrite (word_zero_iff 64) by (lia || by apply land_range_l). split.
    - intros H. destruct (Z.lt_ge_cases f (64 - k)); [done|]. specialize (H f ltac:(lia)).
      autorewrite with zbits in H. rewrite Hf in H. revert H. zcases.
    - intros H i Hi. autorewrite with zbits. destruct (Z.lt_ge_cases f i).
      + by rewrite Hhi by lia.
      + replace (Z.testbit ULONG_MAX (i - (64 - k))) with false; [by rewrite !andb_false_r|].
        symmetry. apply Z.testbit_neg_r. lia. }
  destruct (Z.eqb_spec (Z.land w (shl64 ULONG_MAX (64 - k))) 0) as [E|E].
  - apply Hz in E. exists (num - k), (shl64 w k), (f + k).
    split_and!; try done; try lia; auto with words. split_and!; [lia| |].
    + rewrite shl64_bits by lia. replace (f + k - k) with f by lia. rewrite Hf. zcases.
    + intros i Hi. rewrite shl64_bits by lia. rewrite Hhi by lia. by rewrite andb_false_r.
  - exists num, w, f. split_and!; try done; try lia.
Qed.

Lemma fls_highest w f : is_u64 w -> highest_bit w f -> __fls w = f.
Proof.
  intros Hw Hf. unfold __fls.
  change (ULONG_MAX <<ₗ 32) with (ULONG_MAX <<ₗ (64 - 32)).
  destruct (fls_step w (64 - 1) f 32) as (n1 & w1 & f1 & -> & ? & ? & ? & ?);
    [lia|done|done|destruct Hf; lia|].
  destruct (fls_step w1 n1 f1 16) as (n2 & w2 & f2 & -> & ? & ? & ? & ?); [lia|done|done|lia|].
  destruct (fls_step w2 n2 f2 8) as (n3 & w3 & f3 & -> & ? & ? & ? & ?); [lia|done|done|lia|].
  destruct (fls_step w3 n3 f3 4) as (n4 & w4 & f4 & -> & ? & ? & ? & ?); [lia|done|done|lia|].
  destruct (fls_step w4 n4 f4 2) as (n5 & w5 & f5 & -> & ? & ? & ? & ?); [lia|done|done|lia|].
  destruct (fls_step w5 n5 f5 1) as (n6 & w6 & f6 & E6 & ? & [? [Hf6 _]] & ? & ?);
    [lia|done|done|lia|].
  assert (f6 < 64).
  { destruct (Z.lt_ge_cases f6 64); [done|].
    rewrite (word_bits_high 64 w6) in Hf6 by (done || lia). done. }
  revert E6. destruct (Z.land w5 (shl64 ULONG_MAX (64 - 1)) =? 0); intros; simplify_eq; lia.
Qed.

Lemma fls_spec w : is_u64 w -> w <> 0 -> highest_bit w (__fls w) /\ 0 <= __fls w < 64.
Proof.
  intros Hw Hnz. assert (Hp : 0 < w) by (destruct Hw; lia).
  pose proof (highest_bit_exists w Hp) as Hh. rewrite (fls_highest w _ Hw Hh).
  split; [done|]. split; [apply Z.log2_nonneg|]. apply Z.log2_lt_pow2; [done|apply Hw].
Qed.

(** * The word-wise searches *)

Lemma size_has_word size :
  is_u64 size -> negb (Z.land size (not64 63) =? 0) = (64 <=? size).
Proof.
  intros Hs. destruct (Z.leb_spec 64 size).
  - destruct (Z.eqb_spec (Z.land size (not64 63)) 0) as [E|]; [|done]. exfalso.
    assert (0 < size) by lia. pose proof (Z.bit_log2 size H0) as Hb.
    assert (6 <= Z.log2 size) by (apply Z.log2_le_pow2; lia).
    apply (f_equal (fun z => Z.testbit z (Z.log2 size))) in E.
    rewrite Z.land_spec, Hb, not64_bits, Z.bits_0 in E by lia.
    assert (Z.log2 size < 64) by (apply Z.log2_lt_pow2; [lia|apply Hs]).
    change 63 with (Z.ones 6) in E. rewrite ones_bits in E by lia. revert E. zcases.
  - replace (Z.land size (not64 63)) with 0; [done|]. symmetry.
    apply (word_zero_iff 64); [lia|by apply land_range_l|].
    intros i Hi. rewrite Z.land_spec, not64_bits by lia.
    change 63 with (Z.ones 6). rewrite ones_bits by lia.
    destruct (Z.ltb_spec i 6); [by rewrite !andb_false_r|].
    rewrite (word_bits_high 6 size); [done| |lia]. destruct Hs. split; [done|]. lia.
Qed.

(** Rounding down to a multiple of 64. *)
Lemma mask_down offset : is_u64 offset -> Z.land offset (not64 63) = 64 * (offset / 64).
Proof.
  intros Ho. bitwise i Hi. change 63 with (Z.ones 6). rewrite ones_bits by lia.
  change 64 with (2 ^ 6) at 2 3. rewrite Z.mul_comm, <- Z.shiftr_div_pow2, <- Z.shiftl_mul_pow2 by lia.
  rewrite Z.shiftl_spec by lia. destruct (Z.ltb_spec i 6); simpl.
  - rewrite andb_false_r, andb_false_r. symmetry. apply Z.testbit_neg_r. lia.
  - rewrite Z.shiftr_spec by lia. replace (i - 6 + 6) with i by lia.
    destruct (Z.ltb_spec i 64); [by rewrite andb_true_r|].
    rewrite (word_bits_high 64 offset) by (done || lia). done.
Qed.

(** The mask of the low [n] bits of a word. *)
Lemma low_mask_bits n i :
  0 < n <= 64 -> 0 <= i -> Z.testbit (shr64 ULONG_MAX (64 - n)) i = (i <? n).
Proof. intros Hn Hi. autorewrite with zbits. zcases. Qed.

Section search.
Context (l : list Z) (total : Z).
Context (Hwf : bitmap_wf l) (Htot : is_u64 total) (Hlen : total <= 64 * zlen l).

(** The end of a search inside word [p]: the word [tmp] agrees with the
    bitmap from bit [offset] on and has no bit below it. *)
Lemma word_hit p w tmp offset :
  aget l p = Some w -> is_u64 tmp -> 0 <= offset < 64 ->
  (forall j, 0 <= j < 64 -> Z.testbit tmp j = (offset <=? j) && Z.testbit w j) ->
  tmp <> 0 -> 64 * p + 64 <= total ->
  is_next (bit l) total (64 * p + offset) (u64 (64 * p + __ffs tmp)).
Proof.
  intros Hp Ht Ho Hb Hnz Hle. destruct (ffs_spec tmp Ht Hnz) as [(H0 & H1 & H2) H3].
  pose proof (aget_range _ _ _ Hp). unwrap.
  assert (offset <= __ffs tmp /\ Z.testbit w (__ffs tmp) = true) as [? Hw].
  { rewrite Hb in H1 by lia. revert H1. zcases. }
  split.
  - right. split; [lia|]. by rewrite (bit_word l p w) by (done || lia).
  - intros i Hi _. replace i with (64 * p + (i - 64 * p)) by lia.
    rewrite (bit_word l p w) by (done || lia).
    specialize (H2 (i - 64 * p) ltac:(lia)). rewrite Hb in H2 by lia. revert H2. zcases.
Qed.

Lemma word_last p w tmp offset size :
  aget l p = Some w -> is_u64 tmp -> 0 <= offset < 64 -> 0 < size < 64 ->
  (forall j, 0 <= j < 64 -> Z.testbit tmp j = (offset <=? j) && Z.testbit w j) ->
  64 * p + size = total ->
  is_next (bit l) total (64 * p + offset) (found_first (64 * p) size tmp).
Proof.
  intros Hp Ht Ho Hs Hb Heq. unfold found_first.
  set (m := Z.land tmp _). assert (Hm : is_u64 m) by (by apply land_range_l).
  assert (Hmb : forall j, 0 <= j < 64 ->
    Z.testbit m j = (offset <=? j) && (j <? size) && Z.testbit w j).
  { intros j Hj. unfold m. rewrite Z.land_spec, low_mask_bits, Hb by lia.
    by destruct (offset <=? j), (j <? size), (Z.testbit w j). }
  pose proof (aget_range _ _ _ Hp).
  destruct (Z.eqb_spec m 0) as [E|E]; unwrap.
  - split; [left; lia|]. intros i Hi Hit.
    replace i with (64 * p + (i - 64 * p)) by lia. rewrite (bit_word l p w) by (done || lia).
    rewrite (word_zero_iff 64) in E by (done || lia). specialize (E (i - 64 * p) ltac:(lia)).
    rewrite Hmb in E by lia. revert E. zcases.
  - destruct (ffs_spec m Hm E) as [(H0 & H1 & H2) H3].
    assert (offset <= __ffs m < size /\ Z.testbit w (__ffs m) = true) as [? Hw].
    { rewrite Hmb in H1 by lia. revert H1. zcases. }
    unwrap. split.
    + right. split; [lia|]. by rewrite (bit_word l p w) by (done || lia).
    + intros i Hi _. replace i with (64 * p + (i - 64 * p)) by lia.
      rewrite (bit_word l p w) by (done || lia).
      specialize (H2 (i - 64 * p) ltac:(lia)). rewrite Hmb in H2 by lia. revert H2. zcases.
Qed.

Lemma is_next_skip f size offset offset' r :
  offset <= offset' -> (forall i, offset <= i < offset' -> f i = false) ->
  is_next f size offset' r -> is_next f size offset r.
Proof.
  intros Ho Hf [Hr Hn]. split; [destruct Hr as [|[]]; [by left|right; split; [lia|done]]|].
  intros i Hi Hs. destruct (Z.lt_ge_cases i offset'); [apply Hf|apply Hn]; lia.
Qed.

Lemma scan_set_spec p size :
  0 <= p -> 64 * p + size = total -> 0 <= size ->
  exists r, scan_set l p (64 * p) size = Some r /\ is_next (bit l) total (64 * p) r.
Proof.
  intros Hp Heq Hsz. unfold scan_set.
  eapply (loop_total _ (fun '(q, result, sz) =>
    result = 64 * q /\ p <= q /\ 0 <= sz /\ result + sz = total /\
    forall i, 64 * p <= i < result -> bit l i = false) _ (fun '(_, _, sz) => Z.to_nat (sz / 64))).
  2:{ split_and!; try done; lia. } 2:{ lia. }
  intros [[q result] sz] (-> & Hq & Hs0 & Hsum & Hz).
  assert (Hszw : is_u64 sz) by (unfold is_word in *; lia).
  rewrite size_has_word by done. destruct (Z.leb_spec 64 sz).
  - destruct (aget_word l q Hwf ltac:(lia)) as (w & Hw & Hwr). rewrite Hw. simpl.
    destruct (Z.eqb_spec w 0) as [->|Hnz]; simpl.
    + eexists. split; [done|]. unwrap. split_and!; try lia.
      * intros i Hi. destruct (Z.lt_ge_cases i (64 * q)); [apply Hz; lia|].
        replace i with (64 * q + (i - 64 * q)) by lia.
        rewrite (bit_word l q 0) by (done || lia). apply Z.bits_0.
      * Z.div_mod_to_equations; lia.
    + eexists. split; [done|]. apply (is_next_skip _ _ _ (64 * q)); [lia|done|].
      rewrite <- (Z.add_0_r (64 * q)) at 1.
      apply (word_hit q w w 0); try done; try lia. intros j Hj. zcases.
  - destruct (Z.eqb_spec sz 0) as [->|Hnz].
    + eexists. split; [done|]. split; [left; lia|]. intros i Hi _. apply Hz. lia.
    + destruct (aget_word l q Hwf ltac:(lia)) as (w & Hw & Hwr). rewrite Hw. simpl.
      eexists. split; [done|]. apply (is_next_skip _ _ _ (64 * q)); [lia|done|].
      rewrite <- (Z.add_0_r (64 * q)) at 1.
      apply (word_last q w w 0); try done; try lia. intros j Hj. zcases.
Qed.
End search.

Lemma find_next_bit_is_next l size offset :
  bitmap_wf l -> is_u64 size -> size <= 64 * zlen l -> is_u64 offset ->
  exists r, find_next_bit l size offset = Some r /\ is_next (bit l) size offset r.
Proof.
  intros Hwf Hs Hlen Ho. unfold find_next_bit. destruct (Z.leb_spec size offset).
  { exists size. split; [done|]. split; [by left|]. intros; lia. }
  rewrite mask_down by done. set (p := offset / 64).
  assert (Hoff : offset = 64 * p + offset mod 64) by (unfold p; Z.div_mod_to_equations; lia).
  pose proof (Z.mod_pos_bound offset 64 ltac:(lia)) as Hm.
  set (o := offset mod 64) in *. clearbody p o.
  assert (0 <= p) by (destruct Ho; lia). unwrap.
  destruct (Z.eqb_spec o 0) as [->|Hnz]; simpl.
  { rewrite Hoff, Z.add_0_r. apply scan_set_spec; try done; lia. }
  destruct (aget_word l p Hwf ltac:(lia)) as (w & Hw & Hwr). rewrite Hw. simpl.
  assert (Ht : forall j, 0 <= j < 64 ->
    Z.testbit (Z.land w (shl64 ULONG_MAX o)) j = (o <=? j) && Z.testbit w j).
  { intros j Hj. autorewrite with zbits. rewrite andb_comm. f_equal.
    destruct (Z.leb_spec o j); [autorewrite with zbits; zcases|].
    rewrite Z.testbit_neg_r by lia. by rewrite andb_false_r. }
  assert (Htr : is_u64 (Z.land w (shl64 ULONG_MAX o))) by (by apply land_range_l).
  set (tmp := Z.land w _) in *. rewrite Hoff.
  destruct (Z.ltb_spec (size - 64 * p) 64).
  { eexists. split; [done|]. apply (word_last l size Hs p w); try done; lia. }
  destruct (Z.eqb_spec tmp 0) as [E|E]; simpl.
  - unwrap. replace (64 * p + 64) with (64 * (p + 1)) by lia.
    destruct (scan_set_spec l size Hwf Hs Hlen (p + 1) (size - 64 * p - 64)) as (r & Hr & Hn);
      [lia|lia|lia|].
    exists r. split; [done|]. apply (is_next_skip _ _ _ (64 * (p + 1))); [lia| |done].
    intros i Hi. replace i with (64 * p + (i - 64 * p)) by lia.
    rewrite (bit_word l p w) by (done || lia).
    rewrite (word_zero_iff 64) in E by (done || lia). specialize (E (i - 64 * p) ltac:(lia)).
    rewrite Ht in E by lia. revert E. zcases.
  - eexists. split; [done|]. apply (word_hit l size Hs p w); try done; lia.
Qed.

Lemma find_first_bit_is_next l size :
  bitmap_wf l -> is_u64 size -> size <= 64 * zlen l ->
  exists r, find_first_bit l size = Some r /\ is_next (bit l) size 0 r.
Proof.
  intros Hwf Hs Hlen. apply (scan_set_spec l size Hwf Hs Hlen 0 size); [done|done|apply Hs].
Qed.

(** Searching for zeros is searching for ones in the complement. *)

Lemma not64_involutive w : is_u64 w -> not64 (not64 w) = w.
Proof.
  intros Hw. bitwise i Hi. destruct (Z.ltb_spec i 64); simpl; [by rewrite negb_involutive|].
  symmetry. eapply word_bits_high; [exact Hw|lia].
Qed.

Lemma not64_zero w : is_u64 w -> not64 w = 0 <-> w = ULONG_MAX.
Proof.
  intros Hw. split; [|by intros ->].
  intros H. rewrite <- (not64_involutive w Hw), H. by vm_compute.
Qed.

Lemma found_first_zero_compl result size tmp :
  is_u64 tmp -> 0 < size < 64 ->
  found_first_zero result size tmp = found_first result size (not64 tmp).
Proof.
  intros Ht Hs. unfold found_first_zero, found_first, ffz.
  assert (E : not64 (Z.lor tmp (shl64 ULONG_MAX size)) =
              Z.land (not64 tmp) (shr64 ULONG_MAX (64 - size))).
  { bitwise i Hi. destruct (Z.ltb_spec i 64), (Z.ltb_spec (i + (64 - size)) 64); simpl;
      try lia; try rewrite andb_true_r; try rewrite andb_false_r; try done.
    - rewrite Z.testbit_neg_r with (a := ULONG_MAX) by lia. by rewrite orb_false_r.
    - rewrite ULONG_MAX_bits by lia. destruct (Z.ltb_spec (i - size) 64); [|lia].
      by rewrite orb_true_r. }
  rewrite E. destruct (Z.eqb_spec (Z.lor tmp (shl64 ULONG_MAX size)) ULONG_MAX) as [Ez|Ez].
  - rewrite <- E, Ez. done.
  - destruct (Z.eqb_spec (Z.land (not64 tmp) (shr64 ULONG_MAX (64 - size))) 0) as [Ea|]; [|done].
    destruct Ez. apply not64_zero; [auto with words|]. by rewrite E.
Qed.

Lemma scan_clear_compl l p result size :
  bitmap_wf l -> is_u64 size ->
  scan_clear l p result size = scan_set (not64 <$> l) p result size.
Proof.
  intros Hwf Hs. apply (loop_ext (fun '(_, _, sz) => is_u64 sz)); [|done].
  intros [[q r] sz] Hsz. change (64 - 1) with 63. rewrite size_has_word by done.
  rewrite aget_fmap. destruct (aget l q) as [w|] eqn:Ew; simpl.
  - split.
    + destruct (Z.leb_spec 64 sz); [done|]. destruct (Z.eqb_spec sz 0); [done|].
      do 2 f_equal. apply found_first_zero_compl; [by eapply bitmap_wf_aget|].
      destruct Hsz. lia.
    + intros [[q' r'] sz'] H. destruct (64 <=? sz), (negb (not64 w =? 0)), (sz =? 0);
        simplify_eq; auto with words.
  - split; [done|]. intros s'. by destruct (64 <=? sz), (sz =? 0).
Qed.

Lemma compl_wf l : bitmap_wf (not64 <$> l).
Proof. apply Forall_fmap, Forall_true. intros. apply not64_range. Qed.

Lemma compl_zlen l : zlen (not64 <$> l) = zlen l.
Proof. unfold zlen. by rewrite length_fmap. Qed.

Lemma bit_compl l i : 0 <= i < 64 * zlen l -> bit (not64 <$> l) i = negb (bit l i).
Proof.
  intros Hi. unfold bit. rewrite aget_fmap.
  assert (is_Some (aget l (i / 64))) as [w ->] by (apply aget_is_Some; Z.div_mod_to_equations; lia).
  simpl. rewrite not64_bits by (apply Z.mod_pos_bound; lia).
  pose proof (Z.mod_pos_bound i 64 ltac:(lia)). zcases.
Qed.

Lemma find_next_zero_bit_compl l size offset :
  bitmap_wf l -> is_u64 size -> is_u64 offset ->
  find_next_zero_bit l size offset = find_next_bit (not64 <$> l) size offset.
Proof.
  intros Hwf Hs Ho. unfold find_next_zero_bit, find_next_bit.
  destruct (Z.leb_spec size offset); [done|]. rewrite mask_down by done.
  assert (Hle : 64 * (offset / 64) <= offset) by (Z.div_mod_to_equations; lia).
  assert (H0 : 0 <= offset / 64) by (apply Z.div_pos; [apply Ho|lia]).
  pose proof (Z.mod_pos_bound offset 64 ltac:(lia)) as Hm.
  rewrite (wrap_small 64 (size - _)) by word_lia.
  destruct (Z.eqb_spec (offset mod 64) 0); simpl.
  { apply scan_clear_compl; [done|word_lia]. }
  rewrite aget_fmap. destruct (aget l (offset / 64)) as [w|] eqn:Ew; [|done]. simpl.
  pose proof (bitmap_wf_aget _ _ _ Hwf Ew) as Hw. set (o := offset mod 64) in *.
  assert (E : not64 (Z.lor w (shr64 ULONG_MAX (64 - o))) =
              Z.land (not64 w) (shl64 ULONG_MAX o)).
  { bitwise i Hi. destruct (Z.ltb_spec i 64), (Z.ltb_spec (i + (64 - o)) 64); simpl; try lia;
      rewrite ?orb_true_r, ?orb_false_r; try done.
    - rewrite Z.testbit_neg_r with (a := ULONG_MAX) by lia. by rewrite andb_false_r.
    - rewrite ULONG_MAX_bits by lia. destruct (Z.ltb_spec (i - o) 64); [|lia].
      by rewrite andb_true_r. }
  assert (Hu : is_u64 (Z.lor w (shr64 ULONG_MAX (64 - o)))) by auto with words.
  destruct (Z.ltb_spec (size - 64 * (offset / 64)) 64).
  { f_equal. rewrite found_first_zero_compl, E by (done || (unfold o in *; Z.div_mod_to_equations; lia)).
    done. }
  unfold ffz. rewrite E. destruct (negb (Z.land (not64 w) (shl64 ULONG_MAX o) =? 0)); [done|].
  apply scan_clear_compl; [done|auto with words].
Qed.

Lemma is_next_ext f g size offset r :
  (forall i, offset <= i < size -> f i = g i) ->
  is_next f size offset r -> is_next g size offset r.
Proof.
  intros He [Hr Hn]. split.
  - destruct Hr as [|[Hr Hf]]; [by left|right]. split; [done|]. by rewrite <- He by lia.
  - intros i Hi Hs. rewrite <- He by lia. by apply Hn.
Qed.

Lemma find_next_zero_bit_is_next l size offset :
  bitmap_wf l -> is_u64 size -> size <= 64 * zlen l -> is_u64 offset ->
  exists r, find_next_zero_bit l size offset = Some r /\
    is_next (fun i => negb (bit l i)) size offset r.
Proof.
  intros Hwf Hs Hlen Ho. rewrite find_next_zero_bit_compl by done.
  destruct (find_next_bit_is_next (not64 <$> l) size offset) as (r & Hr & Hn);
    [apply compl_wf|done|by rewrite compl_zlen|done|].
  exists r. split; [done|]. eapply is_next_ext; [|exact Hn].
  intros i Hi. apply bit_compl. destruct Ho; lia.
Qed.

Lemma find_first_zero_bit_is_next l size :
  bitmap_wf l -> is_u64 size -> size <= 64 * zlen l ->
  exists r, find_first_zero_bit l size = Some r /\
    is_next (fun i => negb (bit l i)) size 0 r.
Proof.
  intros Hwf Hs Hlen. unfold find_first_zero_bit. rewrite scan_clear_compl by done.
  destruct (find_first_bit_is_next (not64 <$> l) size) as (r & Hr & Hn);
    [apply compl_wf|done|by rewrite compl_zlen|].
  exists r. split; [done|]. eapply is_next_ext; [|exact Hn].
  intros i Hi. apply bit_compl. lia.
Qed.

(** * [find_last_bit] *)

Lemma word_last_hit l size p w tmp k :
  bitmap_wf l -> is_u64 size -> aget l p = Some w -> is_u64 tmp -> tmp <> 0 ->
  0 < k <= 64 -> 64 * p + k <= size ->
  (forall j, 0 <= j < 64 -> Z.testbit tmp j = (j <? k) && Z.testbit w j) ->
  (forall i, 64 * p + k <= i < size -> bit l i = false) ->
  is_last (bit l) size (u64 (u64 (p * 64) + __fls tmp)).
Proof.
  intros Hwf Hs Hp Ht Hnz Hk Hle Hb Hz. destruct (fls_spec tmp Ht Hnz) as [(H0 & H1 & H2) H3].
  pose proof (aget_range _ _ _ Hp). rewrite Hb in H1 by lia.
  assert (__fls tmp < k /\ Z.testbit w (__fls tmp) = true) as [Hfk Hf] by (revert H1; zcases).
  unwrap. left. split_and!; [lia|lia| |].
  - rewrite Z.mul_comm. by rewrite (bit_word l p w) by (done || lia).
  - intros i Hi. destruct (Z.lt_ge_cases i (64 * p + k)); [|apply Hz; lia].
    replace i with (64 * p + (i - 64 * p)) by lia. rewrite (bit_word l p w) by (done || lia).
    specialize (H2 (i - 64 * p) ltac:(lia)). rewrite Hb in H2 by lia. revert H2. zcases.
Qed.

Lemma scan_down_spec l size words :
  bitmap_wf l -> is_u64 size -> size <= 64 * zlen l ->
  0 <= words -> 64 * words <= size ->
  (forall i, 64 * words <= i < size -> bit l i = false) ->
  exists r, scan_down l words size = Some r /\ is_last (bit l) size r.
Proof.
  intros Hwf Hs Hlen H0 Hle Hz. unfold scan_down.
  eapply (loop_total _ (fun k => 0 <= k /\ 64 * k <= size /\
    forall i, 64 * k <= i < size -> bit l i = false) _ Z.to_nat); [|done|lia].
  intros k (Hk0 & Hk & Hkz). destruct (Z.eqb_spec k 0) as [->|Hnz]; simpl.
  - eexists. split; [done|]. right. split; [done|]. intros i Hi. apply Hkz. lia.
  - unwrap. destruct (aget_word l (k - 1) Hwf ltac:(lia)) as (w & Hw & Hwr). rewrite Hw. simpl.
    destruct (Z.eqb_spec w 0) as [->|Hnzw]; simpl.
    + eexists. split; [done|]. split; [|lia]. split_and!; [lia|lia|]. intros i Hi.
      destruct (Z.lt_ge_cases i (64 * k)); [|apply Hkz; lia].
      replace i with (64 * (k - 1) + (i - 64 * (k - 1))) by lia.
      rewrite (bit_word l (k - 1) 0) by (done || lia). apply Z.bits_0.
    + eexists. split; [done|]. rewrite <- (wrap_small 64 ((k - 1) * 64)) by word_lia.
      apply (word_last_hit l size (k - 1) w w 64); try done; try lia.
      * intros j Hj. zcases.
      * intros i Hi. apply Hkz. lia.
Qed.

Lemma land_63 x : 0 <= x -> Z.land x 63 = x mod 64.
Proof. intros. change 63 with (Z.ones 6). by rewrite Z.land_ones by lia. Qed.

Lemma find_last_bit_is_last l size :
  bitmap_wf l -> is_u64 size -> size <= 64 * zlen l ->
  exists r, find_last_bit l size = Some r /\ is_last (bit l) size r.
Proof.
  intros Hwf Hs Hlen. unfold find_last_bit. change (64 - 1) with 63.
  rewrite land_63 by apply Hs. pose proof (Z.mod_pos_bound size 64 ltac:(lia)) as Hm.
  assert (Hsz : size = 64 * (size / 64) + size mod 64) by (Z.div_mod_to_equations; lia).
  assert (0 <= size / 64) by (apply Z.div_pos; [apply Hs|lia]).
  set (p := size / 64) in *. set (k := size mod 64) in *. clearbody p k.
  destruct (Z.eqb_spec k 0) as [->|Hnz]; simpl.
  { apply scan_down_spec; try done; lia. }
  destruct (aget_word l p Hwf ltac:(lia)) as (w & Hw & Hwr). rewrite Hw. simpl.
  assert (Ht : forall j, 0 <= j < 64 ->
    Z.testbit (Z.land w (shr64 ULONG_MAX (64 - k))) j = (j <? k) && Z.testbit w j).
  { intros j Hj. rewrite Z.land_spec, low_mask_bits by lia. apply andb_comm. }
  assert (Htr : is_u64 (Z.land w (shr64 ULONG_MAX (64 - k)))) by (by apply land_range_l).
  set (tmp := Z.land w _) in *. destruct (Z.eqb_spec tmp 0) as [E|E]; simpl.
  - apply scan_down_spec; try done; try lia. intros i Hi.
    replace i with (64 * p + (i - 64 * p)) by lia. rewrite (bit_word l p w) by (done || lia).
    rewrite (word_zero_iff 64) in E by (done || lia). specialize (E (i - 64 * p) ltac:(lia)).
    rewrite Ht in E by lia. revert E. zcases.
  - eexists. split; [done|]. apply (word_last_hit l size p w tmp k); try done; lia.
Qed.
