(* ===== verification/Hweight.v ===== *)
(** Population counts: [hweight8], [hweight16], [hweight32] and [hweight64] of
    lib/hweight.c.  The parallel sums are proved to count the set bits by
    following what they do to each byte of the word. *)
From Stdlib Require Import ZArith Lia Bool.
From stdpp Require Import base numbers list gmap option.
From S2P Require Import Prelude.

Local Open Scope Z_scope.

(** * Definitions *)

Definition hweight32 (w : Z) : Z :=
  let res := u32 (w - Z.land (Z.shiftr w 1) 0x55555555) in
  let res := u32 (Z.land res 0x33333333 + Z.land (Z.shiftr res 2) 0x33333333) in
  let res := Z.land (u32 (res + Z.shiftr res 4)) 0x0F0F0F0F in
  let res := u32 (res + Z.shiftr res 8) in
  Z.land (u32 (res + Z.shiftr res 16)) 0x000000FF.

Definition hweight16 (w : Z) : Z :=
  let res := u32 (w - Z.land (Z.shiftr w 1) 0x5555) in
  let res := u32 (Z.land res 0x3333 + Z.land (Z.shiftr res 2) 0x3333) in
  let res := Z.land (u32 (res + Z.shiftr res 4)) 0x0F0F in
  Z.land (u32 (res + Z.shiftr res 8)) 0x00FF.

Definition hweight8 (w : Z) : Z :=
  let res := u32 (w - Z.land (Z.shiftr w 1) 0x55) in
  let res := u32 (Z.land res 0x33 + Z.land (Z.shiftr res 2) 0x33) in
  Z.land (u32 (res + Z.shiftr res 4)) 0x0F.

(** BITS_PER_LONG == 64, without ARCH_HAS_FAST_MULTIPLIER. *)
Definition hweight64 (w : Z) : Z :=
  let res := u64 (w - Z.land (Z.shiftr w 1) 0x5555555555555555) in
  let res := u64 (Z.land res 0x3333333333333333 +
                  Z.land (Z.shiftr res 2) 0x3333333333333333) in
  let res := Z.land (u64 (res + Z.shiftr res 4)) 0x0F0F0F0F0F0F0F0F in
  let res := u64 (res + Z.shiftr res 8) in
  let res := u64 (res + Z.shiftr res 16) in
  Z.land (u64 (res + Z.shiftr res 32)) 0x00000000000000FF.

(** BITS_PER_LONG == 64, with ARCH_HAS_FAST_MULTIPLIER. *)
Definition hweight64_mul (w : Z) : Z :=
  let w := u64 (w - Z.land (Z.shiftr w 1) 0x5555555555555555) in
  let w := u64 (Z.land w 0x3333333333333333 +
                Z.land (Z.shiftr w 2) 0x3333333333333333) in
  let w := Z.land (u64 (w + Z.shiftr w 4)) 0x0f0f0f0f0f0f0f0f in
  Z.shiftr (u64 (w * 0x0101010101010101)) 56.

(** * Specification *)

(** How many of the [n] positions from [a] on satisfy [f]. *)
Fixpoint count (f : Z -> bool) (a : Z) (n : nat) : Z :=
  match n with O => 0 | S n' => Z.b2z (f a) + count f (a + 1) n' end.

Lemma count_app f a n m : count f a (n + m) = count f a n + count f (a + Z.of_nat n) m.
Proof.
  revert a. induction n as [|n IH]; intros a; simpl count.
  - by rewrite Z.add_0_r.
  - rewrite IH. replace (a + 1 + Z.of_nat n) with (a + Z.of_nat (S n)) by lia. lia.
Qed.

Lemma count_ext f g a b n :
  (forall i, 0 <= i < Z.of_nat n -> f (a + i) = g (b + i)) -> count f a n = count g b n.
Proof.
  revert a b. induction n as [|n IH]; intros a b H; simpl; [done|]. f_equal.
  - specialize (H 0). rewrite !Z.add_0_r in H. by rewrite H by lia.
  - apply IH. intros i Hi. specialize (H (i + 1)).
    rewrite !Z.add_assoc in H. replace (a + 1 + i) with (a + i + 1) by lia.
    replace (b + 1 + i) with (b + i + 1) by lia. apply H. lia.
Qed.

Lemma count_bounds f a n : 0 <= count f a n <= Z.of_nat n.
Proof.
  revert a. induction n as [|n IH]; intros a; simpl count; [lia|].
  specialize (IH (a + 1)). destruct (f a); simpl Z.b2z; lia.
Qed.

(** * Byte lanes *)

(** The word whose bytes, least significant first, are [bs]. *)
Definition lanes (bs : list Z) : Z := foldr (fun b acc => b + 256 * acc) 0 bs.

Lemma lanes_cons b bs : lanes (b :: bs) = b + 256 * lanes bs.
Proof. done. Qed.

Definition is_byte (b : Z) : Prop := 0 <= b < 256.

Lemma lanes_nonneg bs : Forall is_byte bs -> 0 <= lanes bs.
Proof. induction 1 as [|b bs [] _ IH]; simpl; lia. Qed.

Lemma lane_bits b hi i :
  is_byte b -> 0 <= hi -> 0 <= i ->
  Z.testbit (b + 256 * hi) i = if i <? 8 then Z.testbit b i else Z.testbit hi (i - 8).
Proof.
  intros Hb Hh Hi. unfold is_byte in Hb. destruct (Z.ltb_spec i 8).
  - rewrite <- (Z.mod_pow2_bits_low (b + 256 * hi) 8) by lia. f_equal.
    change (2 ^ 8) with 256. Z.div_mod_to_equations; lia.
  - replace i with (i - 8 + 8) at 1 by lia. rewrite <- Z.div_pow2_bits by lia. f_equal.
    change (2 ^ 8) with 256. Z.div_mod_to_equations; lia.
Qed.

(** A masked shift works on each byte alone when the mask clears the bits that
    come in from the next byte. *)
Lemma land_shr_lane k b hi m M :
  is_byte b -> 0 <= hi -> 0 <= k -> 0 <= m < 2 ^ (8 - k) -> k <= 8 -> 0 <= M ->
  Z.land (Z.shiftr (b + 256 * hi) k) (m + 256 * M) =
  Z.land (Z.shiftr b k) m + 256 * Z.land (Z.shiftr hi k) M.
Proof.
  intros Hb Hh Hk Hm Hk8 HM.
  assert (Hmb : is_byte m).
  { destruct Hm as [? Hm]. split; [done|]. eapply Z.lt_le_trans; [exact Hm|].
    change 256 with (2 ^ 8). apply Z.pow_le_mono_r; lia. }
  assert (Hlb : is_byte (Z.land (Z.shiftr b k) m)) by (apply (land_range_r 8); [lia|done]).
  assert (0 <= Z.land (Z.shiftr hi k) M) by (apply Z.land_nonneg; by right).
  bitwise i Hi. rewrite !lane_bits by (done || lia). destruct (Z.ltb_spec i 8).
  - autorewrite with zbits. destruct (Z.ltb_spec (i + k) 8); [done|].
    rewrite (word_bits_high (8 - k) m) by (done || lia). by rewrite !andb_false_r.
  - autorewrite with zbits. destruct (Z.ltb_spec (i + k) 8); [lia|].
    by replace (i + k - 8) with (i - 8 + k) by lia.
Qed.

Definition s1 (b : Z) : Z := b - Z.land (Z.shiftr b 1) 0x55.
Definition s2 (b : Z) : Z := Z.land b 0x33 + Z.land (Z.shiftr b 2) 0x33.
Definition s3 (b : Z) : Z := Z.land (b + Z.shiftr b 4) 0x0f.

Lemma lanes_s1 bs :
  Forall is_byte bs ->
  lanes bs - Z.land (Z.shiftr (lanes bs) 1) (lanes (replicate (length bs) 0x55)) =
  lanes (s1 <$> bs).
Proof.
  induction 1 as [|b bs Hb Hbs IH]; [done|].
  cbn [length replicate]. rewrite fmap_cons, !lanes_cons, <- IH.
  rewrite land_shr_lane; try done; try lia.
  - unfold s1. lia.
  - by apply lanes_nonneg.
  - by apply lanes_nonneg, Forall_replicate.
Qed.

Lemma lanes_s2 bs :
  Forall is_byte bs ->
  Z.land (lanes bs) (lanes (replicate (length bs) 0x33)) +
  Z.land (Z.shiftr (lanes bs) 2) (lanes (replicate (length bs) 0x33)) =
  lanes (s2 <$> bs).
Proof.
  assert (Hr : forall n, 0 <= lanes (replicate n 0x33))
    by (intros; by apply lanes_nonneg, Forall_replicate).
  induction 1 as [|b bs Hb Hbs IH]; [done|]. pose proof (lanes_nonneg _ Hbs).
  specialize (Hr (length bs)). cbn [length replicate].
  rewrite fmap_cons, !lanes_cons, <- IH, <- (Z.shiftr_0_r (b + 256 * lanes bs)) at 1.
  rewrite !land_shr_lane by (done || lia). rewrite !Z.shiftr_0_r. unfold s2. lia.
Qed.

Lemma lanes_s3 bs :
  Forall (fun b => 0 <= b /\ b mod 16 <= 4 /\ b / 16 <= 4) bs ->
  Z.land (lanes bs + Z.shiftr (lanes bs) 4) (lanes (replicate (length bs) 0x0f)) =
  lanes (s3 <$> bs).
Proof.
  assert (Hr : forall n, 0 <= lanes (replicate n 0x0f))
    by (intros; by apply lanes_nonneg, Forall_replicate).
  induction 1 as [|b bs (Hb0 & Hb1 & Hb2) Hbs IH]; [done|]. specialize (Hr (length bs)).
  assert (Hlo : 0 <= lanes bs /\ lanes bs mod 16 <= 4).
  { destruct Hbs as [|c cs (? & ? & ?) Hcs]; [done|].
    assert (0 <= lanes cs) by (apply lanes_nonneg; revert Hcs; apply Forall_impl;
      intros x (? & ? & ?); split; Z.div_mod_to_equations; lia).
    rewrite lanes_cons. Z.div_mod_to_equations; lia. }
  cbn [length replicate]. rewrite fmap_cons, !lanes_cons, <- IH. unfold s3. clear IH.
  set (L := lanes bs) in *. set (M := lanes (replicate _ _)) in *.
  rewrite !Z.shiftr_div_pow2 by lia. change (2 ^ 4) with 16. change 15 with (Z.ones 4).
  assert (E : b + 256 * L + (b + 256 * L) / 16 =
    (b + b / 16 + 16 * (L mod 16)) + 256 * (L + L / 16)) by (Z.div_mod_to_equations; lia).
  rewrite E, <- (Z.shiftr_0_r (_ + 256 * _)).
  assert (Hbb : is_byte (b + b / 16 + 16 * (L mod 16)))
    by (split; Z.div_mod_to_equations; lia).
  rewrite land_shr_lane; [|done|Z.div_mod_to_equations; lia|lia|by vm_compute|lia|done].
  rewrite !Z.shiftr_0_r. f_equal. rewrite !Z.land_ones by lia. change (2 ^ 4) with 16.
  Z.div_mod_to_equations; lia.
Qed.

(** The three steps on one byte, checked on all 256 of them. *)
Definition byte_steps_ok (b : Z) : bool :=
  let x := s1 b in let y := s2 x in
  (0 <=? x) && (x <? 256) && (0 <=? y) && (y mod 16 <=? 4) && (y / 16 <=? 4) &&
  (s3 y =? count (Z.testbit b) 0 8).

Lemma byte_steps b : is_byte b ->
  is_byte (s1 b) /\ (0 <= s2 (s1 b) /\ s2 (s1 b) mod 16 <= 4 /\ s2 (s1 b) / 16 <= 4) /\
  s3 (s2 (s1 b)) = count (Z.testbit b) 0 8.
Proof.
  intros Hb. assert (H : forallb byte_steps_ok (seqZ 0 256) = true) by by vm_compute.
  rewrite forallb_forall in H. specialize (H b).
  assert (Hin : In b (seqZ 0 256)) by (apply list_elem_of_In, elem_of_seqZ; destruct Hb; lia).
  specialize (H Hin). unfold byte_steps_ok in H. unfold is_byte.
  repeat rewrite andb_true_iff in H. rewrite !Z.leb_le, Z.ltb_lt, Z.eqb_eq in H. lia.
Qed.

Lemma count_lanes bs :
  Forall is_byte bs ->
  count (Z.testbit (lanes bs)) 0 (8 * length bs) =
  foldr Z.add 0 ((fun b => count (Z.testbit b) 0 8) <$> bs).
Proof.
  induction 1 as [|b bs Hb Hbs IH]; [done|]. cbn [length fmap list_fmap foldr].
  replace (8 * S (length bs))%nat with (8 + 8 * length bs)%nat by lia.
  rewrite count_app, <- IH, lanes_cons. pose proof (lanes_nonneg _ Hbs).
  f_equal; apply count_ext; intros i Hi; rewrite lane_bits by (done || lia).
  - zcases.
  - zcases. f_equal. lia.
Qed.

(** Splitting a word into its bytes. *)
Fixpoint split_lanes (n : nat) (w : Z) : list Z :=
  match n with O => [] | S n' => w mod 256 :: split_lanes n' (w / 256) end.

Lemma split_lanes_spec n w :
  0 <= w < 256 ^ Z.of_nat n ->
  lanes (split_lanes n w) = w /\ Forall is_byte (split_lanes n w) /\
  length (split_lanes n w) = n.
Proof.
  revert w. induction n as [|n IH]; intros w Hw.
  - change (256 ^ Z.of_nat 0) with 1 in Hw. simpl. split_and!; [|done|done].
    unfold lanes; simpl; lia.
  - rewrite Nat2Z.inj_succ, Z.pow_succ_r in Hw by lia.
    destruct (IH (w / 256)) as (H1 & H2 & H3).
    { split; [apply Z.div_pos; lia|]. apply Z.div_lt_upper_bound; lia. }
    cbn [split_lanes length]. rewrite lanes_cons, H1, H3. split_and!; [Z.div_mod_to_equations; lia| |done].
    constructor; [|done]. apply Z.mod_pos_bound. lia.
Qed.

(** After the three steps each byte holds its own count. *)
Lemma lanes_counts bs :
  Forall is_byte bs ->
  let x := lanes bs - Z.land (Z.shiftr (lanes bs) 1) (lanes (replicate (length bs) 0x55)) in
  let m := lanes (replicate (length bs) 0x33) in
  let y := Z.land x m + Z.land (Z.shiftr x 2) m in
  let z := Z.land (y + Z.shiftr y 4) (lanes (replicate (length bs) 0x0f)) in
  x = lanes (s1 <$> bs) /\ Forall is_byte (s1 <$> bs) /\
  y = lanes (s2 <$> (s1 <$> bs)) /\ Forall (fun b => 0 <= b <= 68) (s2 <$> (s1 <$> bs)) /\
  z = lanes ((fun b => count (Z.testbit b) 0 8) <$> bs).
Proof.
  intros Hbs x m y z. subst x m y z.
  assert (H1 : Forall is_byte (s1 <$> bs)).
  { apply Forall_fmap. revert Hbs. apply Forall_impl. intros b Hb. apply (byte_steps b Hb). }
  assert (H2 : Forall (fun b => 0 <= b /\ b mod 16 <= 4 /\ b / 16 <= 4) (s2 <$> (s1 <$> bs))).
  { rewrite <- list_fmap_compose. apply Forall_fmap. revert Hbs. apply Forall_impl.
    intros b Hb. apply (byte_steps b Hb). }
  rewrite lanes_s1 by done.
  pose proof (lanes_s2 (s1 <$> bs) H1) as E2. rewrite length_fmap in E2. rewrite E2.
  pose proof (lanes_s3 (s2 <$> (s1 <$> bs)) H2) as E3. rewrite !length_fmap in E3. rewrite E3.
  split_and!; try done.
  - revert H2. apply Forall_impl. intros b (? & ? & ?). Z.div_mod_to_equations; lia.
  - f_equal. rewrite <- !list_fmap_compose. apply list_fmap_ext. intros i b Hb.
    eapply Forall_lookup_1 in Hb; [|exact Hbs]. apply (byte_steps b Hb).
Qed.

Lemma lanes_bound c bs : 0 <= c < 256 -> Forall (fun b => 0 <= b <= c) bs ->
  0 <= lanes bs <= c * lanes (replicate (length bs) 1).
Proof.
  intros Hc. induction 1 as [|b bs Hb _ IH]; [simpl; unfold lanes; simpl; lia|].
  cbn [length replicate]. rewrite !lanes_cons. lia.
Qed.

Lemma count8_bounds bs : Forall (fun b => 0 <= b <= 8) ((fun b => count (Z.testbit b) 0 8) <$> bs).
Proof. apply Forall_fmap, Forall_true. intros b. apply (count_bounds (Z.testbit b) 0 8). Qed.

Lemma lanes_8 c0 c1 c2 c3 c4 c5 c6 c7 :
  lanes [c0; c1; c2; c3; c4; c5; c6; c7] =
  c0 + 256 * c1 + 65536 * c2 + 16777216 * c3 + 4294967296 * c4 + 1099511627776 * c5 +
  281474976710656 * c6 + 72057594037927936 * c7.
Proof. unfold lanes. simpl foldr. lia. Qed.

(** Shifting a word of small bytes right by whole bytes and adding. *)
Lemma shr_lanes k cs :
  Forall is_byte cs -> Z.shiftr (lanes cs) (8 * Z.of_nat k) = lanes (drop k cs).
Proof.
  intros H. revert cs H. induction k as [|k IH]; intros cs Hcs; [by rewrite drop_0, Z.shiftr_0_r|].
  destruct Hcs as [|b cs Hb Hcs]; [by rewrite Z.shiftr_0_l|]. simpl drop. rewrite <- IH by done.
  replace (8 * Z.of_nat (S k)) with (8 + 8 * Z.of_nat k) by lia.
  rewrite <- Z.shiftr_shiftr, lanes_cons by lia. f_equal.
  rewrite Z.shiftr_div_pow2 by lia. change (2 ^ 8) with 256.
  unfold is_byte in Hb. Z.div_mod_to_equations; lia.
Qed.

Lemma lanes_mod_256 b cs : is_byte b -> Z.land (lanes (b :: cs)) 255 = b.
Proof.
  intros Hb. change 255 with (Z.ones 8). rewrite Z.land_ones, lanes_cons by lia.
  change (2 ^ 8) with 256. unfold is_byte in Hb. Z.div_mod_to_equations; lia.
Qed.

(** Adding the byte counts of a word by shifts. *)
Lemma fold_sum_8 cs :
  length cs = 8%nat -> Forall (fun b => 0 <= b <= 8) cs ->
  let r := u64 (lanes cs + Z.shiftr (lanes cs) 8) in
  let r := u64 (r + Z.shiftr r 16) in
  Z.land (u64 (r + Z.shiftr r 32)) 255 = foldr Z.add 0 cs.
Proof.
  intros Hlen Hc. do 8 (destruct cs as [|? cs]; [by simpl in Hlen; lia|]).
  destruct cs; [|simpl in Hlen; lia].
  do 8 apply Forall_cons_1 in Hc as [? Hc].
  cbv zeta. rewrite (shr_lanes 1) by (repeat constructor; lia).
  match goal with |- context [u64 (lanes ?x + lanes ?y)] => assert (E : u64 (lanes x + lanes y) =
    lanes [z + z0; z0 + z1; z1 + z2; z2 + z3; z3 + z4; z4 + z5; z5 + z6; z6]) end.
  { simpl drop. rewrite wrap_small; unfold lanes; simpl foldr; unfold is_word; lia. }
  rewrite E, (shr_lanes 2) by (repeat constructor; lia). clear E.
  match goal with |- context [u64 (lanes ?x + lanes ?y)] => assert (E : u64 (lanes x + lanes y) =
    lanes [z + z0 + (z1 + z2); z0 + z1 + (z2 + z3); z1 + z2 + (z3 + z4); z2 + z3 + (z4 + z5);
           z3 + z4 + (z5 + z6); z4 + z5 + z6; z5 + z6; z6]) end.
  { simpl drop. rewrite wrap_small; unfold lanes; simpl foldr; unfold is_word; lia. }
  rewrite E, (shr_lanes 4) by (repeat constructor; lia). clear E.
  rewrite wrap_small by (unfold lanes; simpl; unfold is_word; lia).
  simpl drop. rewrite !lanes_cons.
  match goal with |- Z.land ?x 255 = _ => replace x with (lanes [z + z0 + z1 + z2 + z3 + z4 + z5 + z6;
    z0 + z1 + z2 + z3 + z4 + z5 + z6; z1 + z2 + z3 + z4 + z5 + z6; z2 + z3 + z4 + z5 + z6;
    z3 + z4 + z5 + z6; z4 + z5 + z6; z5 + z6; z6]) by (unfold lanes; simpl; lia) end.
  rewrite lanes_mod_256 by (split; lia). simpl. lia.
Qed.

Lemma lanes_replicate n m : lanes (replicate n m) = m * lanes (replicate n 1).
Proof.
  induction n as [|n IH]; [unfold lanes; simpl; lia|]. simpl replicate.
  rewrite !lanes_cons, IH. lia.
Qed.

(** The common part of the four functions: for a word of [n] bytes the three
    masked steps leave each byte's count in its lane, and none of the
    intermediate results leaves the word. *)
Lemma counts_in_lanes n w :
  (n <= 8)%nat -> 0 <= w < 256 ^ Z.of_nat n ->
  let one := lanes (replicate n 1) in
  let x := w - Z.land (Z.shiftr w 1) (0x55 * one) in
  let y := Z.land x (0x33 * one) + Z.land (Z.shiftr x 2) (0x33 * one) in
  exists cs, length cs = n /\ Forall (fun b => 0 <= b <= 8) cs /\
    0 <= x <= 255 * one /\ 0 <= y <= 68 * one /\
    Z.land (y + Z.shiftr y 4) (0x0f * one) = lanes cs /\
    count (Z.testbit w) 0 (8 * n) = foldr Z.add 0 cs.
Proof.
  intros Hn Hw one x y. destruct (split_lanes_spec n w Hw) as (Hl & Hb & Hlen).
  set (bs := split_lanes n w) in *. clearbody bs.
  destruct (lanes_counts bs Hb) as (Hx & Hxb & Hy & Hyb & Hz).
  pose proof (count_lanes bs Hb) as Hc.
  rewrite Hlen, Hl, (lanes_replicate n 0x55), (lanes_replicate n 0x33),
    (lanes_replicate n 0x0f) in *. fold one in Hx, Hy, Hz. fold x in Hx, Hy, Hz. fold y in Hy, Hz.
  exists ((fun b => count (Z.testbit b) 0 8) <$> bs).
  rewrite length_fmap. split_and!; try done; try apply count8_bounds.
  - rewrite Hx. apply lanes_nonneg. done.
  - assert (Hx' : Forall (fun b => 0 <= b <= 255) (s1 <$> bs))
      by (revert Hxb; apply Forall_impl; unfold is_byte; lia).
    rewrite Hx. apply lanes_bound in Hx'; [|lia]. rewrite length_fmap, Hlen in Hx'. apply Hx'.
  - rewrite Hy. apply lanes_bound in Hyb; lia.
  - rewrite Hy. apply lanes_bound in Hyb; [|lia]. rewrite !length_fmap, Hlen in Hyb. apply Hyb.
Qed.

(** Computes the four masks of [counts_in_lanes]. *)
Ltac lane_masks v :=
  let m5 := eval vm_compute in (0x55 * v) in
  let m3 := eval vm_compute in (0x33 * v) in
  let mf := eval vm_compute in (0x0f * v) in
  change (0x55 * v) with m5 in *; change (0x33 * v) with m3 in *; change (0x0f * v) with mf in *.

(** [hweight64] counts the set bits of a 64-bit word, and so do the narrower
    functions on theirs. *)
Lemma hweight64_count w : is_u64 w -> hweight64 w = count (Z.testbit w) 0 64.
Proof.
  intros Hw. destruct (counts_in_lanes 8 w) as (cs & Hlen & Hc & Hx & Hy & Hz & Hcnt);
    [lia|exact Hw|].
  change (lanes (replicate 8 1)) with 0x0101010101010101 in *.
  lane_masks 0x0101010101010101. unfold hweight64.
  set (x := w - _) in *. rewrite (wrap_small 64 x) by word_lia.
  set (y := _ + Z.land (Z.shiftr x 2) _) in *. rewrite (wrap_small 64 y) by word_lia.
  assert (Z.shiftr y 4 <= y) by (rewrite Z.shiftr_div_pow2 by lia; Z.div_mod_to_equations; lia).
  assert (0 <= Z.shiftr y 4) by (apply Z.shiftr_nonneg; lia).
  rewrite (wrap_small 64 (y + _)) by word_lia. rewrite Hz.
  change (8 * 8)%nat with 64%nat in Hcnt. rewrite Hcnt. by apply fold_sum_8.
Qed.

(** The masked steps of the narrower functions, at 32-bit width. *)
Ltac narrow_steps n w Hw :=
  let cs := fresh "cs" in
  destruct (counts_in_lanes n w) as (cs & Hlen & Hc & Hx & Hy & Hz & Hcnt); [lia|exact Hw|];
  set (one := lanes (replicate n 1)) in *;
  let v := eval vm_compute in (lanes (replicate n 1)) in change one with v in *; clear one;
  lane_masks v;
  set (x := w - _) in *; rewrite ?(wrap_small 32 x) by word_lia;
  set (y := _ + Z.land (Z.shiftr x 2) _) in *; rewrite ?(wrap_small 32 y) by word_lia;
  assert (Z.shiftr y 4 <= y) by (rewrite Z.shiftr_div_pow2 by lia; Z.div_mod_to_equations; lia);
  assert (0 <= Z.shiftr y 4) by (apply Z.shiftr_nonneg; lia);
  rewrite ?(wrap_small 32 (y + _)) by word_lia; rewrite Hz; rewrite Hcnt;
  destruct cs as [|c0 cs]; [done|]; apply Forall_cons_1 in Hc as [? Hc].

Lemma hweight8_count w : is_word 8 w -> hweight8 w = count (Z.testbit w) 0 8.
Proof.
  intros Hw. unfold hweight8. change (count (Z.testbit w) 0 8) with (count (Z.testbit w) 0 (8 * 1)).
  narrow_steps 1%nat w Hw. destruct cs; [|simpl in Hlen; lia]. unfold lanes; simpl; lia.
Qed.

Lemma hweight16_count w : is_word 16 w -> hweight16 w = count (Z.testbit w) 0 16.
Proof.
  intros Hw. unfold hweight16.
  change (count (Z.testbit w) 0 16) with (count (Z.testbit w) 0 (8 * 2)).
  narrow_steps 2%nat w Hw. destruct cs as [|c1 cs]; [done|].
  apply Forall_cons_1 in Hc as [? Hc]. destruct cs; [|simpl in Hlen; lia].
  rewrite (shr_lanes 1) by (repeat constructor; lia). simpl drop.
  rewrite wrap_small by (unfold lanes; simpl; unfold is_word; lia).
  replace (lanes [c0; c1] + lanes [c1]) with (lanes [c0 + c1; c1]) by (unfold lanes; simpl; lia).
  rewrite lanes_mod_256 by (split; lia). simpl. lia.
Qed.

Lemma hweight32_count w : is_u32 w -> hweight32 w = count (Z.testbit w) 0 32.
Proof.
  intros Hw. unfold hweight32.
  change (count (Z.testbit w) 0 32) with (count (Z.testbit w) 0 (8 * 4)).
  narrow_steps 4%nat w Hw. do 3 (destruct cs as [|? cs]; [done|]).
  do 3 apply Forall_cons_1 in Hc as [? Hc]. destruct cs; [|simpl in Hlen; lia].
  rewrite (shr_lanes 1) by (repeat constructor; lia). simpl drop.
  rewrite (wrap_small 32 (lanes _ + _)) by (unfold lanes; simpl; unfold is_word; lia).
  match goal with |- context [lanes ?x + lanes ?y] =>
    replace (lanes x + lanes y) with (lanes [c0 + z; z + z0; z0 + z1; z1])
      by (unfold lanes; simpl; lia) end.
  rewrite (shr_lanes 2) by (repeat constructor; lia). simpl drop.
  rewrite wrap_small by (unfold lanes; simpl; unfold is_word; lia).
  match goal with |- context [lanes ?x + lanes ?y] =>
    replace (lanes x + lanes y) with (lanes [c0 + z + z0 + z1; z + z0 + z1; z0 + z1; z1])
      by (unfold lanes; simpl; lia) end.
  rewrite lanes_mod_256 by (split; lia). simpl. lia.
Qed.

(** The multiplying variant gives the same count: the product's top byte is the
    sum of the byte counts. *)
Lemma mul_sum_8 cs :
  length cs = 8%nat -> Forall (fun b => 0 <= b <= 8) cs ->
  Z.shiftr (u64 (lanes cs * 0x0101010101010101)) 56 = foldr Z.add 0 cs.
Proof.
  intros Hlen Hc. do 8 (destruct cs as [|? cs]; [by simpl in Hlen; lia|]).
  destruct cs; [|simpl in Hlen; lia]. do 8 apply Forall_cons_1 in Hc as [? Hc].
  set (A := lanes [z; z + z0; z + z0 + z1; z + z0 + z1 + z2; z + z0 + z1 + z2 + z3;
    z + z0 + z1 + z2 + z3 + z4; z + z0 + z1 + z2 + z3 + z4 + z5;
    z + z0 + z1 + z2 + z3 + z4 + z5 + z6]).
  set (B := lanes [z0 + z1 + z2 + z3 + z4 + z5 + z6; z1 + z2 + z3 + z4 + z5 + z6;
    z2 + z3 + z4 + z5 + z6; z3 + z4 + z5 + z6; z4 + z5 + z6; z5 + z6; z6]).
  match goal with |- context [u64 ?p] => assert (E : u64 p = A) end.
  { symmetry. unfold wrap. apply (Z.mod_unique _ _ B).
    - left. unfold A, lanes; simpl; lia.
    - unfold A, B. rewrite lanes_8. unfold lanes. simpl foldr. lia. }
  rewrite E. unfold A. rewrite (shr_lanes 7) by (repeat constructor; lia).
  unfold lanes. simpl. lia.
Qed.

Lemma hweight64_mul_count w : is_u64 w -> hweight64_mul w = count (Z.testbit w) 0 64.
Proof.
  intros Hw. destruct (counts_in_lanes 8 w) as (cs & Hlen & Hc & Hx & Hy & Hz & Hcnt);
    [lia|exact Hw|].
  change (lanes (replicate 8 1)) with 0x0101010101010101 in *.
  lane_masks 0x0101010101010101. unfold hweight64_mul.
  set (x := w - _) in *. rewrite (wrap_small 64 x) by word_lia.
  set (y := _ + Z.land (Z.shiftr x 2) _) in *. rewrite (wrap_small 64 y) by word_lia.
  assert (Z.shiftr y 4 <= y) by (rewrite Z.shiftr_div_pow2 by lia; Z.div_mod_to_equations; lia).
  assert (0 <= Z.shiftr y 4) by (apply Z.shiftr_nonneg; lia).
  rewrite (wrap_small 64 (y + _)) by word_lia. rewrite Hz.
  change (8 * 8)%nat with 64%nat in Hcnt. rewrite Hcnt. by apply mul_sum_8.
Qed.
