(* ===== verification/Bitmap.v ===== *)
(** Bitmaps of lib/bitmap.c (with the inline helpers of linux/bitmap.h and the
    bit operations they use).  Predicates take the words of their bitmaps;
    operations that write take the memory and pointers, so that a destination
    may be one of the sources.  Each is proved against the bits of its
    operands. *)
From Stdlib Require Import ZArith Lia Bool.
From stdpp Require Import base numbers list gmap option.
From S2P Require Import Prelude FindBit Hweight.

Local Open Scope Z_scope.
Local Open Scope c_scope.

(** * Definitions *)

Definition BITS_TO_LONGS (nr : Z) : Z := (nr + 63) / 64.

Definition BITMAP_LAST_WORD_MASK (nbits : Z) : Z :=
  if negb (nbits mod 64 =? 0) then (1 <<ₗ (nbits mod 64)) ⊖ 1 else ULONG_MAX.


(** The shape of the predicates: test the whole words, then the valid bits of
    the last, partial one; [hit] on the first test that succeeds. *)
Definition scan_words (bits : Z) (test last : Z -> option bool) (hit miss : Z) : option Z :=
  let lim := bits / BITS_PER_LONG in
  x ← for_ 0 lim (fun k _ => b ← test k; if (b : bool) then Some (Done hit) else Some (Next tt)) tt;
  match x with
  | Done r => Some r
  | Next _ =>
      if negb (bits mod BITS_PER_LONG =? 0) then
        b ← last lim; if (b : bool) then Some hit else Some miss
      else Some miss
  end.

Definition __bitmap_empty (bitmap : list Z) (bits : Z) : option Z :=
  scan_words bits
    (fun k => w ← aget bitmap k; Some (negb (w =? 0)))
    (fun k => w ← aget bitmap k; Some (negb ((w &ₗ BITMAP_LAST_WORD_MASK bits) =? 0))) 0 1.

Definition __bitmap_full (bitmap : list Z) (bits : Z) : option Z :=
  scan_words bits
    (fun k => w ← aget bitmap k; Some (negb (∼ₗ w =? 0)))
    (fun k => w ← aget bitmap k; Some (negb ((∼ₗ w &ₗ BITMAP_LAST_WORD_MASK bits) =? 0))) 0 1.

Definition __bitmap_equal (bitmap1 bitmap2 : list Z) (bits : Z) : option Z :=
  scan_words bits
    (fun k => w1 ← aget bitmap1 k; w2 ← aget bitmap2 k; Some (negb (w1 =? w2)))
    (fun k => w1 ← aget bitmap1 k; w2 ← aget bitmap2 k;
              Some (negb (((w1 ^ₗ w2) &ₗ BITMAP_LAST_WORD_MASK bits) =? 0))) 0 1.

Definition __bitmap_intersects (bitmap1 bitmap2 : list Z) (bits : Z) : option Z :=
  scan_words bits
    (fun k => w1 ← aget bitmap1 k; w2 ← aget bitmap2 k; Some (negb ((w1 &ₗ w2) =? 0)))
    (fun k => w1 ← aget bitmap1 k; w2 ← aget bitmap2 k;
              Some (negb (((w1 &ₗ w2) &ₗ BITMAP_LAST_WORD_MASK bits) =? 0))) 1 0.

Definition __bitmap_subset (bitmap1 bitmap2 : list Z) (bits : Z) : option Z :=
  scan_words bits
    (fun k => w1 ← aget bitmap1 k; w2 ← aget bitmap2 k; Some (negb ((w1 &ₗ ∼ₗ w2) =? 0)))
    (fun k => w1 ← aget bitmap1 k; w2 ← aget bitmap2 k;
              Some (negb (((w1 &ₗ ∼ₗ w2) &ₗ BITMAP_LAST_WORD_MASK bits) =? 0))) 0 1.

(** linux/bitops.h, with sizeof(long) == 8. *)
Definition hweight_long (w : Z) : Z := hweight64 w.

Definition __bitmap_weight (bitmap : list Z) (bits : Z) : option Z :=
  let lim := bits / BITS_PER_LONG in
  w ← for_all 0 lim (fun k w => b ← aget bitmap k; Some (w + hweight_long b)) 0;
  if negb (bits mod BITS_PER_LONG =? 0) then
    b ← aget bitmap lim; Some (w + hweight_long (b &ₗ BITMAP_LAST_WORD_MASK bits))
  else Some w.

Definition __bitmap_complement (m : mem) (dst src : ptr) (bits : Z) : option mem :=
  let lim := bits / BITS_PER_LONG in
  m ← for_all 0 lim (fun k m => w ← load m src k; store m dst k (∼ₗ w)) m;
  if negb (bits mod BITS_PER_LONG =? 0) then
    w ← load m src lim; store m dst lim (∼ₗ w &ₗ BITMAP_LAST_WORD_MASK bits)
  else Some m.

(** The word-wise operations; [__bitmap_and] and [__bitmap_andnot] also return
    whether some word of the result is nonzero. *)
Definition __bitmap_and (m : mem) (dst bitmap1 bitmap2 : ptr) (bits : Z) : option (mem * bool) :=
  let nr := BITS_TO_LONGS bits in
  '(m, result) ← for_all 0 nr (fun k '(m, result) =>
      w1 ← load m bitmap1 k; w2 ← load m bitmap2 k;
      m ← store m dst k (w1 &ₗ w2); Some (m, result |ₗ (w1 &ₗ w2))) (m, 0);
  Some (m, negb (result =? 0)).

Definition __bitmap_or (m : mem) (dst bitmap1 bitmap2 : ptr) (bits : Z) : option mem :=
  let nr := BITS_TO_LONGS bits in
  for_all 0 nr (fun k m =>
    w1 ← load m bitmap1 k; w2 ← load m bitmap2 k; store m dst k (w1 |ₗ w2)) m.

Definition __bitmap_xor (m : mem) (dst bitmap1 bitmap2 : ptr) (bits : Z) : option mem :=
  let nr := BITS_TO_LONGS bits in
  for_all 0 nr (fun k m =>
    w1 ← load m bitmap1 k; w2 ← load m bitmap2 k; store m dst k (w1 ^ₗ w2)) m.

Definition __bitmap_andnot (m : mem) (dst bitmap1 bitmap2 : ptr) (bits : Z) : option (mem * bool) :=
  let nr := BITS_TO_LONGS bits in
  '(m, result) ← for_all 0 nr (fun k '(m, result) =>
      w1 ← load m bitmap1 k; w2 ← load m bitmap2 k;
      m ← store m dst k (w1 &ₗ ∼ₗ w2); Some (m, result |ₗ (w1 &ₗ ∼ₗ w2))) (m, 0);
  Some (m, negb (result =? 0)).

Definition __bitmap_shift_right (m : mem) (dst src : ptr) (shift bits : Z) : option mem :=
  let lim := BITS_TO_LONGS bits in
  let left := bits mod BITS_PER_LONG in
  let off := shift / BITS_PER_LONG in
  let rem := shift mod BITS_PER_LONG in
  let mask := (1 <<ₗ left) ⊖ 1 in
  m ← for_all 0 (lim - off) (fun k m =>
    upper ← (if (rem =? 0) || (lim <=? off + k + 1) then Some 0
             else
               upper ← load m src (off + k + 1);
               Some (if (off + k + 1 =? lim - 1) && negb (left =? 0) then upper &ₗ mask else upper));
    lower ← load m src (off + k);
    let lower := if negb (left =? 0) && (off + k =? lim - 1) then lower &ₗ mask else lower in
    m ← store m dst k ((upper <<ₗ (BITS_PER_LONG - rem)) |ₗ (lower >>ₗ rem));
    if negb (left =? 0) && (k =? lim - 1) then
      w ← load m dst k; store m dst k (w &ₗ mask)
    else Some m) m;
  if negb (off =? 0) then mem_zero m dst (lim - off) off else Some m.

(** The descending loop runs with [k = lim - off - 1 - i]. *)
Definition __bitmap_shift_left (m : mem) (dst src : ptr) (shift bits : Z) : option mem :=
  let lim := BITS_TO_LONGS bits in
  let left := bits mod BITS_PER_LONG in
  let off := shift / BITS_PER_LONG in
  let rem := shift mod BITS_PER_LONG in
  m ← for_all 0 (lim - off) (fun i m =>
    let k := lim - off - 1 - i in
    lower ← (if negb (rem =? 0) && (0 <? k) then load m src (k - 1) else Some 0);
    upper ← load m src k;
    let upper := if negb (left =? 0) && (k =? lim - 1)
                 then upper &ₗ ((1 <<ₗ left) ⊖ 1) else upper in
    m ← store m dst (k + off) ((lower >>ₗ (BITS_PER_LONG - rem)) |ₗ (upper <<ₗ rem));
    if negb (left =? 0) && (k + off =? lim - 1) then
      w ← load m dst (k + off); store m dst (k + off) (w &ₗ ((1 <<ₗ left) ⊖ 1))
    else Some m) m;
  if negb (off =? 0) then mem_zero m dst 0 off else Some m.

(** ** Single bits and regions *)

(** asm-generic/bitops: [test_bit], [set_bit] and [clear_bit]. *)
Definition test_bit (nr : Z) (addr : list Z) : option bool :=
  w ← aget addr (nr / BITS_PER_LONG);
  Some (negb ((1 &ₗ (w >>ₗ (nr &ₗ (BITS_PER_LONG - 1)))) =? 0)).

Definition set_bit (nr : Z) (m : mem) (addr : ptr) : option mem :=
  let mask := 1 <<ₗ (nr mod BITS_PER_LONG) in
  w ← load m addr (nr / BITS_PER_LONG); store m addr (nr / BITS_PER_LONG) (w |ₗ mask).

Definition clear_bit (nr : Z) (m : mem) (addr : ptr) : option mem :=
  let mask := 1 <<ₗ (nr mod BITS_PER_LONG) in
  w ← load m addr (nr / BITS_PER_LONG); store m addr (nr / BITS_PER_LONG) (w &ₗ ∼ₗ mask).

(** linux/bitmap.h, for a size that is not a small compile-time constant. *)
Definition bitmap_zero (m : mem) (dst : ptr) (nbits : Z) : option mem :=
  mem_zero m dst 0 (BITS_TO_LONGS nbits).

Inductive reg_op_t : Type := REG_OP_ISFREE | REG_OP_ALLOC | REG_OP_RELEASE.

(** [1 << order] of an [int]. *)
Definition int_shl1 (order : Z) : Z := s32 (Z.shiftl 1 (order mod 32)).

(** Everything but [mask] is an [int]; [BITS_TO_LONGS] computes with [unsigned
    long], since its divisor is a [size_t]. *)
Definition __reg_op (bitmap : list Z) (pos order : Z) (reg_op : reg_op_t)
  : option (list Z * Z) :=
  let nbits_reg := int_shl1 order in
  let index := Z.quot pos BITS_PER_LONG in
  let offset := pos - index * BITS_PER_LONG in
  let nlongs_reg := s32 (u64 (nbits_reg + 63) / 64) in
  let nbitsinlong := Z.min nbits_reg BITS_PER_LONG in
  let mask := 1 <<ₗ s32 (nbitsinlong - 1) in
  let mask := mask ⊕ (mask ⊖ 1) in
  let mask := mask <<ₗ offset in
  match reg_op with
  | REG_OP_ISFREE =>
      x ← for_ 0 nlongs_reg (fun i _ =>
        w ← aget bitmap (index + i);
        if negb ((w &ₗ mask) =? 0) then Some (Done 0) else Some (Next tt)) tt;
      match x with Done r => Some (bitmap, r) | Next _ => Some (bitmap, 1) end
  | REG_OP_ALLOC =>
      bitmap ← for_all 0 nlongs_reg (fun i bitmap =>
        w ← aget bitmap (index + i); aset bitmap (index + i) (w |ₗ mask)) bitmap;
      Some (bitmap, 0)
  | REG_OP_RELEASE =>
      bitmap ← for_all 0 nlongs_reg (fun i bitmap =>
        w ← aget bitmap (index + i); aset bitmap (index + i) (w &ₗ ∼ₗ mask)) bitmap;
      Some (bitmap, 0)
  end.

(** The loop visits at most [bits / 2^order] regions. *)
Definition bitmap_find_free_region (bitmap : list Z) (bits order : Z) : option (list Z * Z) :=
  loop (S (Z.to_nat bits)) (fun pos =>
    let end_ := s32 (pos + int_shl1 order) in
    if end_ <=? bits then
      '(_, free) ← __reg_op bitmap pos order REG_OP_ISFREE;
      if free =? 0 then Some (Next end_)
      else
        '(bitmap, _) ← __reg_op bitmap pos order REG_OP_ALLOC;
        Some (Done (bitmap, pos))
    else Some (Done (bitmap, - ENOMEM))) 0.

Definition bitmap_release_region (bitmap : list Z) (pos order : Z) : option (list Z) :=
  '(bitmap, _) ← __reg_op bitmap pos order REG_OP_RELEASE; Some bitmap.

Definition bitmap_allocate_region (bitmap : list Z) (pos order : Z) : option (list Z * Z) :=
  '(_, free) ← __reg_op bitmap pos order REG_OP_ISFREE;
  if free =? 0 then Some (bitmap, - EBUSY)
  else '(bitmap, _) ← __reg_op bitmap pos order REG_OP_ALLOC; Some (bitmap, 0).

(** ** Ordinals of set bits, and the maps built from them *)

Definition bitmap_pos_to_ord (buf : list Z) (pos bits : Z) : option Z :=
  let body :=
    i ← find_first_bit buf bits;
    loop (S (Z.to_nat bits)) (fun '(i, ord) =>
      if i <? pos then
        i ← find_next_bit buf bits (i + 1); Some (Next (i, ord + 1))
      else if i =? pos then Some (Done ord) (* BUG_ON(i != pos) *)
      else None) (i, 0) in
  if (pos <? 0) || (bits <=? pos) then Some (-1)
  else b ← test_bit pos buf; if (b : bool) then body else Some (-1).

Definition bitmap_ord_to_pos (buf : list Z) (ord bits : Z) : option Z :=
  let pos := 0 in
  if (0 <=? ord) && (ord <? bits) then
    i ← find_first_bit buf bits;
    loop (S (Z.to_nat bits)) (fun '(i, ord) =>
      if (i <? bits) && (0 <? ord) then
        i ← find_next_bit buf bits (i + 1); Some (Next (i, ord - 1))
      else if (i <? bits) && (ord =? 0) then Some (Done i)
      else Some (Done pos)) (i, ord)
  else Some pos.

(** The loop [for (b = find_first_bit(p, bits); b < bits; b = find_next_bit(...))],
    whose body may change the memory. *)
Definition for_each_bit {S : Type} (bits : Z) (src : S -> option (list Z))
    (body : Z -> S -> option S) (s : S) : option S :=
  l ← src s;
  b ← find_first_bit l bits;
  loop (Datatypes.S (Z.to_nat bits)) (fun '(b, s) =>
    if b <? bits then
      s ← body b s; l ← src s;
      b ← find_next_bit l bits (b + 1); Some (Next (b, s))
    else Some (Done s)) (b, s).

Definition bitmap_remap (m : mem) (dst src old new : ptr) (bits : Z) : option mem :=
  if decide (dst = src) then Some m else
  m ← bitmap_zero m dst bits;
  newl ← m !! new;
  w ← __bitmap_weight newl bits;
  for_each_bit bits (fun m => m !! src) (fun oldbit m =>
    oldl ← m !! old;
    n ← bitmap_pos_to_ord oldl oldbit bits;
    if (n <? 0) || (w =? 0) then set_bit oldbit m dst
    else newl ← m !! new; p ← bitmap_ord_to_pos newl (Z.rem n w) bits; set_bit p m dst) m.

Definition bitmap_bitremap (oldbit : Z) (old new : list Z) (bits : Z) : option Z :=
  w ← __bitmap_weight new bits;
  n ← bitmap_pos_to_ord old oldbit bits;
  if (n <? 0) || (w =? 0) then Some oldbit
  else bitmap_ord_to_pos new (Z.rem n w) bits.

Definition bitmap_onto (m : mem) (dst orig relmap : ptr) (bits : Z) : option mem :=
  if decide (dst = orig) then Some m else
  m ← bitmap_zero m dst bits;
  '(_, m) ← for_each_bit bits (fun '(_, m) => m !! relmap) (fun n '(mm, m) =>
    l ← m !! orig;
    b ← test_bit mm l;
    m ← (if (b : bool) then set_bit n m dst else Some m);
    Some (mm + 1, m)) (0, m);
  Some m.

Definition bitmap_fold (m : mem) (dst orig : ptr) (sz bits : Z) : option mem :=
  if decide (dst = orig) then Some m else
  m ← bitmap_zero m dst bits;
  for_each_bit bits (fun m => m !! orig) (fun oldbit m =>
    if sz =? 0 then None else set_bit (Z.rem oldbit sz) m dst) m.

(** Little-endian: [cpu_to_le64] is the identity. *)
Definition bitmap_copy_le (m : mem) (dst src : ptr) (nbits : Z) : option mem :=
  for_all 0 (nbits / BITS_PER_LONG) (fun i m => w ← load m src i; store m dst i w) m.

(** * Predicates *)

(** Some position below [n] satisfies [P]. *)
Definition any_bit (P : Z -> bool) (n : Z) : bool := existsb P (seqZ 0 n).

Lemma any_bit_true P n : any_bit P n = true <-> exists i, 0 <= i < n /\ P i = true.
Proof.
  unfold any_bit. rewrite existsb_exists. setoid_rewrite <- list_elem_of_In.
  setoid_rewrite elem_of_seqZ. split; intros (i & Hi & HP); exists i; split; try done; lia.
Qed.

Lemma div_mod_64 x : x = 64 * (x / 64) + x mod 64 /\ 0 <= x mod 64 < 64.
Proof. split; Z.div_mod_to_equations; lia. Qed.

Lemma last_word_mask_bits bits i :
  0 <= i -> bits mod 64 <> 0 ->
  Z.testbit (BITMAP_LAST_WORD_MASK bits) i = (i <? bits mod 64).
Proof.
  intros Hi Hr. unfold BITMAP_LAST_WORD_MASK. destruct (div_mod_64 bits) as [_ Hm].
  destruct (Z.eqb_spec (bits mod 64) 0); [done|]. simpl.
  rewrite <- (ones_bits (bits mod 64) i) by lia. f_equal.
  rewrite Z.ones_equiv. unfold shl64. rewrite (Z.mod_small (bits mod 64)), Z.shiftl_1_l by lia.
  assert (0 < 2 ^ (bits mod 64) < 2 ^ 64)
    by (split; [apply Z.pow_pos_nonneg; lia|apply Z.pow_lt_mono_r; lia]).
  unwrap. lia.
Qed.

Lemma last_word_mask_range bits : is_u64 (BITMAP_LAST_WORD_MASK bits).
Proof. unfold BITMAP_LAST_WORD_MASK. destruct (negb _); auto with words. Qed.

Lemma low_mask_is_last bits :
  bits mod 64 <> 0 -> u64 (shl64 1 (bits mod 64) - 1) = BITMAP_LAST_WORD_MASK bits.
Proof. intros H. unfold BITMAP_LAST_WORD_MASK. by destruct (Z.eqb_spec (bits mod 64) 0). Qed.

(** A word of which the bits below [r] matter is nonzero iff one of them is. *)
Lemma word_nonzero w : is_u64 w ->
  negb (w =? 0) = true <-> exists j, 0 <= j < 64 /\ Z.testbit w j = true.
Proof.
  intros Hw. destruct (Z.eqb_spec w 0) as [->|Hnz]; simpl.
  - split; [done|]. intros (j & _ & Hj). by rewrite Z.bits_0 in Hj.
  - split; [|done]. intros _. destruct (lowest_bit_exists w Hw Hnz) as (f & (? & ? & _) & ?).
    by exists f.
Qed.

Lemma masked_nonzero w bits : is_u64 w -> bits mod 64 <> 0 ->
  negb (Z.land w (BITMAP_LAST_WORD_MASK bits) =? 0) = true <->
  exists j, 0 <= j < bits mod 64 /\ Z.testbit w j = true.
Proof.
  intros Hw Hr. destruct (div_mod_64 bits) as [_ Hm].
  rewrite word_nonzero by (by apply land_range_l).
  split; intros (j & Hj & Hb).
  - rewrite Z.land_spec, last_word_mask_bits in Hb by (done || lia).
    exists j. revert Hb. destruct (Z.ltb_spec j (bits mod 64)); rewrite ?andb_false_r; [|done].
    rewrite andb_true_r. split; [lia|done].
  - exists j. rewrite Z.land_spec, last_word_mask_bits, Hb by (done || lia). zcases.
Qed.

Section scan.
Context (bits : Z) (Hbits : 0 <= bits).

Lemma scan_words_spec (test last : Z -> option bool) (hit miss : Z) (P : Z -> bool) :
  (forall k, 0 <= k < bits / 64 -> exists b, test k = Some b /\
     (b = true <-> exists j, 0 <= j < 64 /\ P (64 * k + j) = true)) ->
  (bits mod 64 <> 0 -> exists b, last (bits / 64) = Some b /\
     (b = true <-> exists j, 0 <= j < bits mod 64 /\ P (64 * (bits / 64) + j) = true)) ->
  scan_words bits test last hit miss = Some (if any_bit P bits then hit else miss).
Proof.
  intros Ht Hl. destruct (div_mod_64 bits) as [Hb Hm]. unfold scan_words.
  assert (0 <= bits / 64) by (apply Z.div_pos; lia).
  destruct (for_rule (S := unit) (fun k _ => b ← test k; if (b : bool) then Some (Done hit) else Some (Next tt))
    (fun k _ => forall i, 0 <= i < 64 * k -> P i = false) (fun r => r = hit /\ any_bit P bits = true)
    0 (bits / 64) tt) as ([[]|r] & Hx & Hpost); [done|intros; lia| | |].
  - intros k _ Hk HI. destruct (Ht k Hk) as (b & -> & Hiff). simpl. destruct b.
    + eexists. split; [done|]. split; [done|]. apply any_bit_true.
      destruct (proj1 Hiff eq_refl) as (j & Hj & HP). exists (64 * k + j). split; [lia|done].
    + eexists. split; [done|]. intros i Hi. destruct (Z.lt_ge_cases i (64 * k)); [apply HI; lia|].
      destruct (P i) eqn:E; [|done]. exfalso.
      assert (false = true); [|done]. apply Hiff. exists (i - 64 * k). split; [lia|].
      by replace (64 * k + (i - 64 * k)) with i by lia.
  - rewrite Hx. simpl. destruct (Z.eqb_spec (bits mod 64) 0) as [E|E]; simpl.
    + destruct (any_bit P bits) eqn:Ea; [|done]. apply any_bit_true in Ea as (i & Hi & HP).
      rewrite Hpost in HP by lia. done.
    + destruct (Hl E) as (b & -> & Hiff). simpl.
      assert (b = any_bit P bits) as ->; [|by destruct (any_bit P bits)].
      apply eq_true_iff_eq. rewrite Hiff, any_bit_true. split.
      * intros (j & Hj & HP). exists (64 * (bits / 64) + j). split; [lia|done].
      * intros (i & Hi & HP). exists (i - 64 * (bits / 64)). split.
        -- destruct (Z.lt_ge_cases i (64 * (bits / 64))); [rewrite Hpost in HP by lia; done|lia].
        -- by replace (64 * (bits / 64) + (i - 64 * (bits / 64))) with i by lia.
  - rewrite Hx. simpl. by destruct Hpost as [-> ->].
Qed.

(** Words of a bitmap that is long enough. *)
Lemma valid_word l k : bitmap_wf l -> bits <= 64 * zlen l ->
  0 <= k -> 64 * k < bits -> exists w, aget l k = Some w /\ is_u64 w.
Proof. intros. apply aget_word; [done|]. lia. Qed.

(** A one-bitmap scan whose word function [f] works bit by bit as [g]. *)
Lemma scan_words_1 l (f : Z -> Z) (g : bool -> bool) hit miss :
  bitmap_wf l -> bits <= 64 * zlen l ->
  (forall w, is_u64 w -> is_u64 (f w)) ->
  (forall w j, is_u64 w -> 0 <= j < 64 -> Z.testbit (f w) j = g (Z.testbit w j)) ->
  scan_words bits (fun k => w ← aget l k; Some (negb (f w =? 0)))
    (fun k => w ← aget l k; Some (negb (Z.land (f w) (BITMAP_LAST_WORD_MASK bits) =? 0))) hit miss
  = Some (if any_bit (fun i => g (bit l i)) bits then hit else miss).
Proof.
  intros Hl Hlen Hf Hg. destruct (div_mod_64 bits) as [Hb Hm].
  assert (0 <= bits / 64) by (apply Z.div_pos; lia).
  apply scan_words_spec.
  - intros k Hk. destruct (valid_word l k) as (w & Hw & Hwr); [done|done|lia|lia|].
    rewrite Hw. simpl. eexists. split; [done|]. rewrite word_nonzero by auto.
    split; intros (j & Hj & HP); exists j; (split; [done|]); revert HP;
      rewrite (bit_word l k w), Hg by done; done.
  - intros Hr. destruct (valid_word l (bits / 64)) as (w & Hw & Hwr); [done|done|lia|lia|].
    rewrite Hw. simpl. eexists. split; [done|]. rewrite masked_nonzero by auto.
    split; intros (j & Hj & HP); exists j; (split; [done|]); revert HP;
      rewrite (bit_word l (bits / 64) w), Hg by (done || lia); done.
Qed.

Lemma scan_words_2 l1 l2 (t : Z -> Z -> bool) (f : Z -> Z -> Z) (g : bool -> bool -> bool) hit miss :
  bitmap_wf l1 -> bits <= 64 * zlen l1 -> bitmap_wf l2 -> bits <= 64 * zlen l2 ->
  (forall w1 w2, is_u64 w1 -> is_u64 w2 -> is_u64 (f w1 w2) /\ t w1 w2 = negb (f w1 w2 =? 0)) ->
  (forall w1 w2 j, 0 <= j < 64 ->
     Z.testbit (f w1 w2) j = g (Z.testbit w1 j) (Z.testbit w2 j)) ->
  scan_words bits (fun k => w1 ← aget l1 k; w2 ← aget l2 k; Some (t w1 w2))
    (fun k => w1 ← aget l1 k; w2 ← aget l2 k;
              Some (negb (Z.land (f w1 w2) (BITMAP_LAST_WORD_MASK bits) =? 0))) hit miss
  = Some (if any_bit (fun i => g (bit l1 i) (bit l2 i)) bits then hit else miss).
Proof.
  intros Hl1 Hlen1 Hl2 Hlen2 Hf Hg. destruct (div_mod_64 bits) as [Hb Hm].
  assert (0 <= bits / 64) by (apply Z.div_pos; lia).
  apply scan_words_spec.
  - intros k Hk. destruct (valid_word l1 k) as (w1 & Hw1 & Hr1); [done|done|lia|lia|].
    destruct (valid_word l2 k) as (w2 & Hw2 & Hr2); [done|done|lia|lia|].
    destruct (Hf w1 w2 Hr1 Hr2) as [Hfr Ht].
    rewrite Hw1, Hw2. simpl. eexists. split; [done|]. rewrite Ht, word_nonzero by done.
    split; intros (j & Hj & HP); exists j; (split; [done|]); revert HP;
      rewrite (bit_word l1 k w1), (bit_word l2 k w2), Hg by done; done.
  - intros Hr. destruct (valid_word l1 (bits / 64)) as (w1 & Hw1 & Hr1); [done|done|lia|lia|].
    destruct (valid_word l2 (bits / 64)) as (w2 & Hw2 & Hr2); [done|done|lia|lia|].
    destruct (Hf w1 w2 Hr1 Hr2) as [Hfr Ht].
    rewrite Hw1, Hw2. simpl. eexists. split; [done|]. rewrite masked_nonzero by done.
    split; intros (j & Hj & HP); exists j; (split; [done|]); revert HP;
      rewrite (bit_word l1 (bits / 64) w1), (bit_word l2 (bits / 64) w2), Hg by (done || lia);
      done.
Qed.
End scan.

Lemma lxor_zero_eqb w1 w2 : negb (w1 =? w2) = negb (Z.lxor w1 w2 =? 0).
Proof.
  f_equal. apply eq_true_iff_eq. rewrite !Z.eqb_eq. symmetry. apply Z.lxor_eq_0_iff.
Qed.

(** ** The predicates against the bits *)

Lemma bitmap_empty_spec l bits :
  0 <= bits <= 64 * zlen l -> bitmap_wf l ->
  __bitmap_empty l bits = Some (if any_bit (bit l) bits then 0 else 1).
Proof.
  intros Hb Hl. apply (scan_words_1 bits ltac:(lia) l (fun w => w) (fun b => b)); try done; lia.
Qed.

Lemma bitmap_full_spec l bits :
  0 <= bits <= 64 * zlen l -> bitmap_wf l ->
  __bitmap_full l bits = Some (if any_bit (fun i => negb (bit l i)) bits then 0 else 1).
Proof.
  intros Hb Hl. apply (scan_words_1 bits ltac:(lia) l not64 negb); try done; try lia.
  - intros. apply not64_range.
  - intros w j _ Hj. rewrite not64_bits by lia. zcases.
Qed.

Lemma bitmap_equal_spec l1 l2 bits :
  0 <= bits <= 64 * zlen l1 -> bits <= 64 * zlen l2 -> bitmap_wf l1 -> bitmap_wf l2 ->
  __bitmap_equal l1 l2 bits =
  Some (if any_bit (fun i => xorb (bit l1 i) (bit l2 i)) bits then 0 else 1).
Proof.
  intros Hb1 Hb2 Hl1 Hl2.
  apply (scan_words_2 bits ltac:(lia) l1 l2 _ Z.lxor xorb); try done; try lia.
  - intros w1 w2 H1 H2. split; [auto with words|apply lxor_zero_eqb].
  - intros. apply Z.lxor_spec.
Qed.

Lemma bitmap_intersects_spec l1 l2 bits :
  0 <= bits <= 64 * zlen l1 -> bits <= 64 * zlen l2 -> bitmap_wf l1 -> bitmap_wf l2 ->
  __bitmap_intersects l1 l2 bits =
  Some (if any_bit (fun i => bit l1 i && bit l2 i) bits then 1 else 0).
Proof.
  intros Hb1 Hb2 Hl1 Hl2.
  apply (scan_words_2 bits ltac:(lia) l1 l2 _ Z.land andb); try done; try lia.
  - intros w1 w2 H1 H2. split; [auto with words|done].
  - intros. apply Z.land_spec.
Qed.

Lemma bitmap_subset_spec l1 l2 bits :
  0 <= bits <= 64 * zlen l1 -> bits <= 64 * zlen l2 -> bitmap_wf l1 -> bitmap_wf l2 ->
  __bitmap_subset l1 l2 bits =
  Some (if any_bit (fun i => bit l1 i && negb (bit l2 i)) bits then 0 else 1).
Proof.
  intros Hb1 Hb2 Hl1 Hl2.
  apply (scan_words_2 bits ltac:(lia) l1 l2 _ (fun a b => Z.land a (not64 b))
    (fun a b => a && negb b)); try done; try lia.
  - intros w1 w2 H1 H2. split; [auto with words|done].
  - intros w1 w2 j Hj. rewrite Z.land_spec, not64_bits by lia. zcases.
Qed.

(** ** Weight *)

Lemma count_word l k w n :
  aget l k = Some w -> (n <= 64)%nat ->
  count (bit l) (64 * k) n = count (Z.testbit w) 0 n.
Proof.
  intros Hw Hn. apply count_ext. intros i Hi. rewrite (bit_word l k w) by (done || lia). done.
Qed.

Lemma count_masked w bits : is_u64 w -> bits mod 64 <> 0 ->
  count (Z.testbit (Z.land w (BITMAP_LAST_WORD_MASK bits))) 0 64 =
  count (Z.testbit w) 0 (Z.to_nat (bits mod 64)).
Proof.
  intros Hw Hr. destruct (div_mod_64 bits) as [_ Hm].
  replace 64%nat with (Z.to_nat (bits mod 64) + (64 - Z.to_nat (bits mod 64)))%nat at 1 by lia.
  rewrite count_app. set (r := Z.to_nat _). assert (Hr' : Z.of_nat r = bits mod 64) by lia.
  rewrite (count_ext _ (fun _ => false) (0 + Z.of_nat r) 0 (64 - r)).
  - assert (E : forall a n, count (fun _ => false) a n = 0).
    { intros a n. revert a. induction n as [|n IH]; intros a; simpl; [done|]. by rewrite IH. }
    rewrite E, Z.add_0_r. apply count_ext. intros i Hi.
    rewrite Z.land_spec, last_word_mask_bits by (done || lia). zcases.
  - intros i Hi. rewrite Z.land_spec, last_word_mask_bits by (done || lia).
    zcases.
Qed.

Lemma bitmap_weight_spec l bits :
  0 <= bits <= 64 * zlen l -> bitmap_wf l ->
  __bitmap_weight l bits = Some (count (bit l) 0 (Z.to_nat bits)).
Proof.
  intros Hb Hl. destruct (div_mod_64 bits) as [Hbe Hm]. unfold __bitmap_weight.
  assert (0 <= bits / 64) by (apply Z.div_pos; lia).
  destruct (for_all_rule (fun k w => b ← aget l k; Some (w + hweight_long b))
    (fun k w => w = count (bit l) 0 (Z.to_nat (64 * k))) 0 (bits / 64) 0) as (w & Hw & ->);
    [lia|done| |].
  - intros k w Hk ->. destruct (valid_word bits l k) as (b & Hbw & Hbr); [done|lia|lia|lia|].
    rewrite Hbw. simpl. eexists. split; [done|].
    replace (Z.to_nat (64 * (k + 1))) with (Z.to_nat (64 * k) + 64)%nat by lia.
    rewrite count_app, Z2Nat.id by lia. unfold hweight_long.
    by rewrite hweight64_count, Z.add_0_l, (count_word l k b) by (done || lia).
  - rewrite Hw. simpl. destruct (Z.eqb_spec (bits mod 64) 0) as [E|E]; simpl.
    + do 3 f_equal. lia.
    + destruct (valid_word bits l (bits / 64)) as (b & Hbw & Hbr); [done|lia|lia|lia|].
      rewrite Hbw. simpl. f_equal. unfold hweight_long.
      rewrite hweight64_count, count_masked by auto with words.
      replace (Z.to_nat bits) with (Z.to_nat (64 * (bits / 64)) + Z.to_nat (bits mod 64))%nat by lia.
      rewrite count_app, Z2Nat.id, Z.add_0_l, (count_word l (bits / 64) b) by (done || lia). done.
Qed.

(** * Operations that write *)

(** Pointer [p] holds a bitmap of at least [bits] bits. *)
Definition is_bitmap (m : mem) (p : ptr) (bits : Z) : Prop :=
  exists l, m !! p = Some l /\ bitmap_wf l /\ bits <= 64 * zlen l.

(** The bits of the bitmap at [p]. *)
Definition mbit (m : mem) (p : ptr) (i : Z) : bool := bit (default [] (m !! p)) i.

Lemma BITS_TO_LONGS_spec bits :
  0 <= bits -> bits <= 64 * BITS_TO_LONGS bits < bits + 64.
Proof. intros. unfold BITS_TO_LONGS. Z.div_mod_to_equations; lia. Qed.

Lemma bit_setw l a b F i :
  0 <= i < 64 * zlen l ->
  bit (setw l a b F) i =
  if (a <=? i / 64) && (i / 64 <? b) then Z.testbit (F (i / 64)) (i mod 64) else bit l i.
Proof.
  intros Hi. unfold bit. rewrite setw_aget by (Z.div_mod_to_equations; lia).
  by destruct ((a <=? i / 64) && (i / 64 <? b)).
Qed.

Lemma setw_wf l a b F : bitmap_wf l -> (forall k, a <= k < b -> is_u64 (F k)) ->
  bitmap_wf (setw l a b F).
Proof.
  intros Hl HF. apply Forall_lookup_2. intros i x Hx. unfold setw in Hx.
  rewrite list_lookup_imap in Hx. destruct (l !! i) as [y|] eqn:Ey; [|done].
  simpl in Hx. simplify_eq. pose proof (Forall_lookup_1 _ _ _ _ Hl Ey).
  destruct (_ && _) eqn:E; [|done]. apply andb_true_iff in E as [?%Z.leb_le ?%Z.ltb_lt].
  apply HF. lia.
Qed.

(** A loop over words [0, n) that stores [F k] into word [k] of [dst]. *)
Lemma for_store_up (body : Z -> mem -> option mem) m dst l n F :
  m !! dst = Some l -> 0 <= n <= zlen l ->
  (forall k, 0 <= k < n ->
     body k (<[dst := setw l 0 k F]> m) = store (<[dst := setw l 0 k F]> m) dst k (F k)) ->
  for_all 0 n body m = Some (<[dst := setw l 0 n F]> m).
Proof.
  intros Hl Hn Hb.
  destruct (for_all_rule body (fun k m' => m' = <[dst := setw l 0 k F]> m) 0 n m)
    as (m' & -> & ->); [lia| | |done].
  - rewrite setw_empty by lia. by rewrite insert_id.
  - intros k m' Hk ->. rewrite Hb, store_insert, setw_up by lia. simpl. eauto.
Qed.

(** The outcome of an operation on bitmaps of [bits] bits: the words of [dst]
    that hold them are the only thing changed, and they hold bits [f]. *)
Definition result_bits (m m' : mem) (dst : ptr) (bits : Z) (f : Z -> bool) : Prop :=
  is_bitmap m' dst bits /\
  (forall i, 0 <= i < bits -> mbit m' dst i = f i) /\
  (forall i, 64 * BITS_TO_LONGS bits <= i -> mbit m' dst i = mbit m dst i) /\
  (forall p, p <> dst -> m' !! p = m !! p).

(** A result written word by word has the bits of its words. *)
Lemma result_words m dst l bits F f :
  m !! dst = Some l -> bitmap_wf l -> 0 <= bits <= 64 * zlen l ->
  (forall k, 0 <= k < BITS_TO_LONGS bits -> is_u64 (F k)) ->
  (forall i, 0 <= i < bits -> Z.testbit (F (i / 64)) (i mod 64) = f i) ->
  result_bits m (<[dst := setw l 0 (BITS_TO_LONGS bits) F]> m) dst bits f.
Proof.
  intros Hl Hwf Hb HF Hf. pose proof (BITS_TO_LONGS_spec bits ltac:(lia)) as HL.
  unfold result_bits, is_bitmap, mbit. rewrite lookup_insert_eq. simpl. split_and!.
  - eexists. split; [done|]. rewrite setw_zlen. split; [by apply setw_wf|lia].
  - intros i Hi. rewrite bit_setw by lia. rewrite Hf by done.
    destruct (div_mod_64 i). zcases.
  - intros i Hi. rewrite Hl. simpl. destruct (Z.lt_ge_cases i (64 * zlen l)).
    + rewrite bit_setw by lia. destruct (div_mod_64 i). zcases.
    + unfold bit. destruct (div_mod_64 i).
      assert (aget (setw l 0 (BITS_TO_LONGS bits) F) (i / 64) = None) as ->.
      { apply eq_None_not_Some. rewrite aget_is_Some, setw_zlen. lia. }
      assert (aget l (i / 64) = None) as ->; [|done].
      apply eq_None_not_Some. rewrite aget_is_Some. lia.
  - intros p Hp. by rewrite lookup_insert_ne.
Qed.

(** The words of a bitmap, as an integer-valued function. *)
Definition mword (m : mem) (p : ptr) (k : Z) : Z := default 0 (load m p k).

Lemma mword_load m p k bits :
  is_bitmap m p bits -> 0 <= k < BITS_TO_LONGS bits -> 0 <= bits ->
  load m p k = Some (mword m p k) /\ is_u64 (mword m p k).
Proof.
  intros (l & Hl & Hwf & Hlen) Hk Hb. pose proof (BITS_TO_LONGS_spec bits Hb).
  destruct (aget_word l k Hwf ltac:(lia)) as (w & Hw & Hr).
  unfold mword, load. rewrite Hl. simpl. by rewrite Hw.
Qed.

Lemma mword_bit m p i bits :
  is_bitmap m p bits -> 0 <= i < bits -> Z.testbit (mword m p (i / 64)) (i mod 64) = mbit m p i.
Proof.
  intros (l & Hl & Hwf & Hlen) Hi. unfold mword, mbit, load. rewrite Hl. simpl. unfold bit.
  destruct (div_mod_64 i). destruct (aget_word l (i / 64) Hwf ltac:(lia)) as (w & Hw & Hr).
  by rewrite Hw.
Qed.

(** Reading a word at or after the ones already overwritten. *)
Lemma load_setw m dst l p k j F bits :
  m !! dst = Some l -> is_bitmap m p bits -> 0 <= bits -> 0 <= k <= j ->
  j < BITS_TO_LONGS bits ->
  load (<[dst := setw l 0 k F]> m) p j = Some (mword m p j).
Proof.
  intros Hl Hp Hb Hk Hj. destruct (mword_load m p j bits Hp ltac:(lia) Hb) as [Hload _].
  rewrite load_insert. case_decide as E; [|done]. subst p.
  rewrite <- Hload. unfold load in *. rewrite Hl in *. simpl in *.
  pose proof (aget_range _ _ _ Hload). rewrite setw_aget by done. zcases.
Qed.

Section wordwise.
Context (m : mem) (dst b1 b2 : ptr) (bits : Z) (Hbits : 0 <= bits).
Context (Hd : is_bitmap m dst bits) (H1 : is_bitmap m b1 bits) (H2 : is_bitmap m b2 bits).
Context (op : Z -> Z -> Z) (bop : bool -> bool -> bool).
Context (Hop : forall x y, is_u64 x -> is_u64 y -> is_u64 (op x y)).
Context (Hbop : forall x y j, 0 <= j < 64 ->
  Z.testbit (op x y) j = bop (Z.testbit x j) (Z.testbit y j)).

Lemma wordwise_result l :
  m !! dst = Some l -> bitmap_wf l -> bits <= 64 * zlen l ->
  result_bits m (<[dst := setw l 0 (BITS_TO_LONGS bits)
    (fun k => op (mword m b1 k) (mword m b2 k))]> m) dst bits
    (fun i => bop (mbit m b1 i) (mbit m b2 i)).
Proof using Hbits H1 H2 Hop Hbop.
  intros Hl Hwf Hlen. apply result_words; try done.
  - intros k Hk. apply Hop; [apply (mword_load m b1 k bits)|apply (mword_load m b2 k bits)]; done.
  - intros i Hi. destruct (div_mod_64 i). rewrite Hbop by lia.
    by rewrite (mword_bit m b1 i bits), (mword_bit m b2 i bits).
Qed.

(** [for (k = 0; k < nr; k++) dst[k] = op(bitmap1[k], bitmap2[k])], where the
    three bitmaps may coincide. *)
Lemma wordwise_spec :
  exists m', for_all 0 (BITS_TO_LONGS bits) (fun k m =>
      w1 ← load m b1 k; w2 ← load m b2 k; store m dst k (op w1 w2)) m = Some m' /\
    result_bits m m' dst bits (fun i => bop (mbit m b1 i) (mbit m b2 i)).
Proof using Hbits Hd H1 H2 Hop Hbop.
  destruct Hd as (l & Hl & Hwf & Hlen). pose proof (BITS_TO_LONGS_spec bits Hbits).
  eexists. split; [|by apply wordwise_result].
  apply (for_store_up _ _ _ l); [done|lia|].
  intros k Hk. rewrite !(load_setw m dst l _ k k _ bits) by (done || lia). done.
Qed.

(** The same loop accumulating the disjunction of the words. *)
Lemma wordwise_any_spec :
  exists m' r, for_all 0 (BITS_TO_LONGS bits) (fun k '(m, result) =>
      w1 ← load m b1 k; w2 ← load m b2 k;
      m ← store m dst k (op w1 w2); Some (m, Z.lor result (op w1 w2))) (m, 0) = Some (m', r) /\
    result_bits m m' dst bits (fun i => bop (mbit m b1 i) (mbit m b2 i)) /\
    (r = 0 <-> forall k, 0 <= k < BITS_TO_LONGS bits -> op (mword m b1 k) (mword m b2 k) = 0).
Proof using Hbits Hd H1 H2 Hop Hbop.
  destruct Hd as (l & Hl & Hwf & Hlen). pose proof (BITS_TO_LONGS_spec bits Hbits).
  set (F := fun k => op (mword m b1 k) (mword m b2 k)).
  match goal with |- context [for_all 0 ?n ?body _] =>
    destruct (for_all_rule body (fun k '(m', r) => m' = <[dst := setw l 0 k F]> m /\
      (r = 0 <-> forall i, 0 <= i < k -> F i = 0)) 0 n (m, 0)) as ([m' r] & -> & -> & Hr)
  end; [lia| | |].
  - rewrite setw_empty by lia. rewrite insert_id by done. split; [done|]. split; [lia|done].
  - intros k [m' r] Hk [-> Hr]. rewrite !(load_setw m dst l _ k k _ bits) by (done || lia). simpl.
    rewrite store_insert. fold (F k). rewrite setw_up by lia. simpl. eexists. split; [done|].
    split; [done|]. rewrite Z.lor_eq_0_iff, Hr. split.
    + intros [Ha Hb] i Hi. destruct (Z.eq_dec i k) as [->|]; [done|apply Ha; lia].
    + intros Ha. split; [intros i Hi; apply Ha|apply Ha]; lia.
  - exists (<[dst := setw l 0 (BITS_TO_LONGS bits) F]> m), r. split; [done|]. split; [|done].
    by apply wordwise_result.
Qed.
End wordwise.

Lemma bitmap_or_spec m dst b1 b2 bits :
  0 <= bits -> is_bitmap m dst bits -> is_bitmap m b1 bits -> is_bitmap m b2 bits ->
  exists m', __bitmap_or m dst b1 b2 bits = Some m' /\
    result_bits m m' dst bits (fun i => mbit m b1 i || mbit m b2 i).
Proof.
  intros. apply wordwise_spec; auto with words. intros. apply Z.lor_spec.
Qed.

Lemma bitmap_xor_spec m dst b1 b2 bits :
  0 <= bits -> is_bitmap m dst bits -> is_bitmap m b1 bits -> is_bitmap m b2 bits ->
  exists m', __bitmap_xor m dst b1 b2 bits = Some m' /\
    result_bits m m' dst bits (fun i => xorb (mbit m b1 i) (mbit m b2 i)).
Proof.
  intros. apply wordwise_spec; auto with words. intros. apply Z.lxor_spec.
Qed.

(** The truth value of [__bitmap_and] and [__bitmap_andnot] is over the whole
    words, the unused bits of the last one included. *)
Lemma bitmap_and_spec m dst b1 b2 bits :
  0 <= bits -> is_bitmap m dst bits -> is_bitmap m b1 bits -> is_bitmap m b2 bits ->
  exists m' r, __bitmap_and m dst b1 b2 bits = Some (m', r) /\
    result_bits m m' dst bits (fun i => mbit m b1 i && mbit m b2 i) /\
    (r = false <-> forall k, 0 <= k < BITS_TO_LONGS bits -> Z.land (mword m b1 k) (mword m b2 k) = 0).
Proof.
  intros Hb Hd H1 H2. unfold __bitmap_and.
  destruct (wordwise_any_spec m dst b1 b2 bits Hb Hd H1 H2 Z.land andb)
    as (m' & r & -> & Hr & Hz); [auto with words|intros; apply Z.land_spec|].
  simpl. exists m', (negb (r =? 0)). split; [done|]. split; [done|].
  rewrite <- Hz, negb_false_iff. apply Z.eqb_eq.
Qed.

Lemma bitmap_andnot_spec m dst b1 b2 bits :
  0 <= bits -> is_bitmap m dst bits -> is_bitmap m b1 bits -> is_bitmap m b2 bits ->
  exists m' r, __bitmap_andnot m dst b1 b2 bits = Some (m', r) /\
    result_bits m m' dst bits (fun i => mbit m b1 i && negb (mbit m b2 i)) /\
    (r = false <-> forall k, 0 <= k < BITS_TO_LONGS bits ->
       Z.land (mword m b1 k) (not64 (mword m b2 k)) = 0).
Proof.
  intros Hb Hd H1 H2. unfold __bitmap_andnot.
  destruct (wordwise_any_spec m dst b1 b2 bits Hb Hd H1 H2 (fun x y => Z.land x (not64 y))
    (fun x y => x && negb y)) as (m' & r & -> & Hr & Hz); [auto with words| |].
  { intros x y j Hj. rewrite Z.land_spec, not64_bits by lia. zcases. }
  simpl. exists m', (negb (r =? 0)). split; [done|]. split; [done|].
  rewrite <- Hz, negb_false_iff. apply Z.eqb_eq.
Qed.

Lemma store_store m p k v v' m' :
  store m p k v = Some m' -> load m' p k = Some v /\ store m' p k v' = store m p k v'.
Proof.
  unfold store. destruct (m !! p) as [l|] eqn:El; [|done]. simpl.
  destruct (aset l k v) as [l'|] eqn:Es; [|done]. simpl. intros. simplify_eq.
  rewrite load_insert, lookup_insert_eq. rewrite decide_True by done.
  rewrite (aget_aset _ _ _ _ _ Es), Z.eqb_refl. split; [done|]. simpl.
  apply aset_inv in Es as [Hk ->]. rewrite !aset_Some by (unfold zlen in *; rewrite ?length_insert; lia).
  simpl. by rewrite list_insert_insert_eq, insert_insert_eq.
Qed.

(** A store followed by masking the stored word is one store. *)
Lemma store_then_mask m p k v (c : bool) mask :
  (m ← store m p k v;
   if c then w ← load m p k; store m p k (Z.land w mask) else Some m) =
  store m p k (if c then Z.land v mask else v).
Proof.
  destruct (store m p k v) as [m'|] eqn:E; simpl.
  - destruct c; [|done]. destruct (store_store m p k v (Z.land v mask) m' E) as [-> Hs]. exact Hs.
  - destruct c; [|done]. revert E. unfold store. destruct (m !! p) as [l|]; [|done]. simpl.
    unfold aset. by destruct (_ && _).
Qed.

Lemma BITS_TO_LONGS_cases bits :
  0 <= bits ->
  (bits mod 64 = 0 /\ BITS_TO_LONGS bits = bits / 64) \/
  (bits mod 64 <> 0 /\ BITS_TO_LONGS bits = bits / 64 + 1).
Proof. intros. unfold BITS_TO_LONGS. Z.div_mod_to_equations; lia. Qed.

(** [__bitmap_complement] writes zero above the last valid bit. *)
Lemma bitmap_complement_spec m dst src bits :
  0 <= bits -> is_bitmap m dst bits -> is_bitmap m src bits ->
  exists m', __bitmap_complement m dst src bits = Some m' /\
    result_bits m m' dst bits (fun i => negb (mbit m src i)).
Proof.
  intros Hb Hd Hs. pose proof Hd as (l & Hl & Hwf & Hlen).
  pose proof (BITS_TO_LONGS_spec bits Hb). destruct (div_mod_64 bits) as [Hbe Hm].
  set (F := fun k => if k <? bits / 64 then not64 (mword m src k)
                     else Z.land (not64 (mword m src k)) (BITMAP_LAST_WORD_MASK bits)).
  assert (HF : result_bits m (<[dst := setw l 0 (BITS_TO_LONGS bits) F]> m) dst bits
                 (fun i => negb (mbit m src i))).
  { apply result_words; try done.
    - intros k _. unfold F. destruct (k <? bits / 64); auto with words.
    - intros i Hi. destruct (div_mod_64 i). unfold F. rewrite <- (mword_bit m src i bits) by done.
      destruct (Z.ltb_spec (i / 64) (bits / 64)).
      + rewrite not64_bits by lia. zcases.
      + rewrite Z.land_spec, not64_bits, last_word_mask_bits by lia. zcases. }
  unfold __bitmap_complement. assert (0 <= bits / 64) by (apply Z.div_pos; lia).
  rewrite (for_store_up _ m dst l (bits / 64) F); [|done|lia|].
  - simpl. destruct (BITS_TO_LONGS_cases bits Hb) as [[E HL]|[E HL]].
    + rewrite E. simpl. rewrite <- HL. eauto.
    + destruct (Z.eqb_spec (bits mod 64) 0); [done|]. simpl.
      rewrite (load_setw m dst l src _ _ _ bits) by (done || lia). simpl. rewrite store_insert.
      replace (Z.land (not64 (mword m src (bits / 64))) (BITMAP_LAST_WORD_MASK bits))
        with (F (bits / 64)) by (unfold F; by rewrite Z.ltb_irrefl).
      rewrite setw_up by lia. simpl. rewrite <- HL. eauto.
  - intros k Hk. rewrite (load_setw m dst l src _ _ _ bits) by (done || lia). simpl.
    f_equal. unfold F. zcases.
Qed.

(** ** Shifts *)

(** Word [k] of a bitmap with its unused bits cleared; zero past its end. *)
Definition vword (m : mem) (src : ptr) (bits k : Z) : Z :=
  if (0 <=? k) && (k <? BITS_TO_LONGS bits) then
    if negb (bits mod 64 =? 0) && (k =? BITS_TO_LONGS bits - 1)
    then Z.land (mword m src k) (u64 (shl64 1 (bits mod 64) - 1)) else mword m src k
  else 0.

Lemma vword_range m src bits k :
  0 <= bits -> is_bitmap m src bits -> is_u64 (vword m src bits k).
Proof.
  intros Hb Hs. unfold vword. destruct (_ && _) eqn:E; [|auto with words].
  apply andb_true_iff in E as [?%Z.leb_le ?%Z.ltb_lt].
  destruct (mword_load m src k bits) as [_ Hr]; [done|lia|done|].
  destruct (_ && _); auto with words.
Qed.

Lemma vword_bits m src bits k j :
  0 <= bits -> is_bitmap m src bits -> 0 <= j < 64 ->
  Z.testbit (vword m src bits k) j =
  (0 <=? 64 * k + j) && (64 * k + j <? bits) && mbit m src (64 * k + j).
Proof.
  intros Hb Hs Hj. pose proof (BITS_TO_LONGS_spec bits Hb).
  assert (Hk : (64 * k + j) / 64 = k /\ (64 * k + j) mod 64 = j) by (Z.div_mod_to_equations; lia).
  unfold vword. destruct (Z.leb_spec 0 k), (Z.ltb_spec k (BITS_TO_LONGS bits)); simpl;
    try (rewrite Z.bits_0; zcases).
  destruct (div_mod_64 bits) as [Hbe Hm].
  assert (Hin : 64 * k + j < bits -> Z.testbit (mword m src k) j = mbit m src (64 * k + j)).
  { intros. destruct Hk as [E1 E2]. rewrite <- E1 at 1. rewrite <- E2 at 2.
    apply (mword_bit m src _ bits); [done|lia]. }
  destruct (BITS_TO_LONGS_cases bits Hb) as [[E HL]|[E HL]].
  - rewrite E. simpl. rewrite Hin by lia. zcases.
  - rewrite low_mask_is_last by done.
    destruct (Z.eqb_spec (bits mod 64) 0); [done|]. simpl.
    destruct (Z.eqb_spec k (BITS_TO_LONGS bits - 1)).
    + rewrite Z.land_spec, last_word_mask_bits by lia.
      destruct (Z.ltb_spec j (bits mod 64)), (Z.ltb_spec (64 * k + j) bits); try lia.
      * rewrite Hin by lia. zcases.
    + rewrite Hin by lia. zcases.
Qed.

(** Joining two neighbouring words shifted by [rem]. *)
Lemma join_right_bits hi lo rem j :
  is_u64 hi -> is_u64 lo -> 0 <= rem < 64 -> (rem = 0 -> hi = 0) -> 0 <= j < 64 ->
  Z.testbit (Z.lor (shl64 hi (64 - rem)) (shr64 lo rem)) j =
  if j + rem <? 64 then Z.testbit lo (j + rem) else Z.testbit hi (j + rem - 64).
Proof.
  intros Hh Hl Hr Hz Hj. rewrite Z.lor_spec, shr64_bits by lia.
  destruct (Z.eq_dec rem 0) as [->|Hnz].
  - rewrite Hz by done. unfold shl64. rewrite Z.shiftl_0_l. change (u64 0) with 0.
    rewrite Z.bits_0. simpl. destruct (Z.ltb_spec (j + 0) 64); [done|lia].
  - rewrite shl64_bits by lia. destruct (Z.ltb_spec (j + rem) 64).
    + rewrite (Z.testbit_neg_r hi) by lia. by rewrite andb_false_r.
    + rewrite (word_bits_high 64 lo) by (done || lia). rewrite orb_false_r.
      replace (j - (64 - rem)) with (j + rem - 64) by lia. zcases.
Qed.

Lemma join_left_bits lo up rem j :
  is_u64 lo -> is_u64 up -> 0 <= rem < 64 -> (rem = 0 -> lo = 0) -> 0 <= j < 64 ->
  Z.testbit (Z.lor (shr64 lo (64 - rem)) (shl64 up rem)) j =
  if rem <=? j then Z.testbit up (j - rem) else Z.testbit lo (j - rem + 64).
Proof.
  intros Hl Hu Hr Hz Hj. rewrite Z.lor_spec, shl64_bits by lia.
  destruct (Z.eq_dec rem 0) as [->|Hnz].
  - rewrite Hz by done. unfold shr64. rewrite Z.shiftr_0_l, Z.bits_0. simpl. zcases.
  - rewrite shr64_bits by lia. destruct (Z.leb_spec rem j).
    + rewrite (word_bits_high 64 lo) by (done || lia). simpl. zcases.
    + rewrite (Z.testbit_neg_r up) by lia. rewrite andb_false_r, orb_false_r. f_equal. lia.
Qed.

(** The last words are cleared by [memset]. *)
Lemma mem_zero_spec m dst l a n F b :
  0 <= n -> 0 <= a -> a + n <= zlen l -> b = a -> (forall k, a <= k < a + n -> F k = 0) ->
  mem_zero (<[dst := setw l 0 b F]> m) dst a n = Some (<[dst := setw l 0 (a + n) F]> m).
Proof.
  intros Hn Ha Hl -> HF. unfold mem_zero.
  match goal with |- for_all 0 n ?body _ = _ =>
    destruct (for_all_rule body (fun k m' => m' = <[dst := setw l 0 (a + k) F]> m) 0 n
      (<[dst := setw l 0 a F]> m)) as (m' & -> & ->) end; [lia|by rewrite Z.add_0_r| |done].
  intros k m' Hk ->. rewrite store_insert. pose proof (setw_up l 0 (a + k) F ltac:(lia) ltac:(lia)) as E.
  rewrite HF in E by lia. rewrite E. simpl. eexists. split; [done|]. by rewrite Z.add_assoc.
Qed.

Lemma mem_zero_block m dst l a n :
  m !! dst = Some l -> 0 <= n -> 0 <= a -> a + n <= zlen l ->
  mem_zero m dst a n = Some (<[dst := setw l a (a + n) (fun _ => 0)]> m).
Proof.
  intros Hl Hn Ha Hlen. unfold mem_zero.
  match goal with |- for_all 0 n ?body _ = _ =>
    destruct (for_all_rule body (fun k m' => m' = <[dst := setw l a (a + k) (fun _ => 0)]> m) 0 n m)
      as (m' & -> & ->) end; [lia| | |done].
  - rewrite setw_empty by lia. by rewrite insert_id.
  - intros k m' Hk ->. rewrite store_insert.
    pose proof (setw_up l a (a + k) (fun _ => 0) ltac:(lia) ltac:(lia)) as E. rewrite E. simpl.
    eexists. split; [done|]. by rewrite Z.add_assoc.
Qed.

Lemma setw_below {A} (l : list A) off lim (F G : Z -> A) :
  0 <= off <= lim ->
  setw (setw l off lim F) 0 off G = setw l 0 lim (fun k => if k <? off then G k else F k).
Proof.
  intros Ho. apply aget_ext; rewrite !setw_zlen; [done|]. intros i Hi.
  rewrite !setw_aget by (rewrite ?setw_zlen; done). zcases.
Qed.

(** The words both shifts compute, for one source, distance and number of bits. *)
Section shift.
Context (m : mem) (src : ptr) (shift bits : Z).
Context (Hb : 0 <= bits) (Hsh : 0 <= shift) (Hs : is_bitmap m src bits).
Abbreviation lim := (BITS_TO_LONGS bits).
Abbreviation off := (shift / 64).
Abbreviation rem := (shift mod 64).
Abbreviation mask := (u64 (shl64 1 (bits mod 64) - 1)).

Lemma shift_split : shift = 64 * off + rem /\ 0 <= rem < 64 /\ 0 <= off.
Proof using Hsh.
  Z.div_mod_to_equations; lia.
Qed.

(** The code masks a word when it is the last of the bitmap. *)
Lemma masked_vword k :
  0 <= k < lim ->
  (if negb (bits mod 64 =? 0) && (k =? lim - 1) then Z.land (mword m src k) mask else mword m src k) =
  vword m src bits k.
Proof using Type.
  intros Hk. unfold vword.  destruct (Z.leb_spec 0 k), (Z.ltb_spec k lim); lia || done.
Qed.

Lemma masked_low w k j :
  0 <= j < 64 -> k < lim -> 64 * k + j < bits ->
  Z.testbit (if negb (bits mod 64 =? 0) && (k =? lim - 1) then Z.land w mask else w) j = Z.testbit w j.
Proof using Hb.
  intros Hj Hk Hin. destruct (Z.eqb_spec (bits mod 64) 0); [done|]. simpl.
  destruct (Z.eqb_spec k (BITS_TO_LONGS bits - 1)); [|done]. rewrite low_mask_is_last by done.
  rewrite Z.land_spec, last_word_mask_bits by (done || lia). destruct (div_mod_64 bits).
  destruct (BITS_TO_LONGS_cases bits Hb) as [[]|[]]; [done|]. zcases.
Qed.

(** Masking the last word changes nothing when its bits past the end are clear. *)
Lemma masked_same w k :
  is_u64 w -> (forall j, 0 <= j < 64 -> bits <= 64 * k + j -> Z.testbit w j = false) ->
  (if negb (bits mod 64 =? 0) && (k =? lim - 1) then Z.land w mask else w) = w.
Proof using Hb.
  intros Hw Hz. destruct (Z.eqb_spec (bits mod 64) 0) as [|Hne]; [done|]. simpl.
  destruct (Z.eqb_spec k (BITS_TO_LONGS bits - 1)) as [->|]; [|done]. rewrite low_mask_is_last by done.
  bitwise j Hj. rewrite last_word_mask_bits by done.
  destruct (Z.lt_ge_cases j 64); [|by rewrite (word_bits_high 64 w) by (done || lia)].
  destruct (div_mod_64 bits). destruct (BITS_TO_LONGS_cases bits Hb) as [[]|[]]; [done|].
  destruct (Z.ltb_spec j (bits mod 64)); [apply andb_true_r|]. rewrite Hz by lia. done.
Qed.

(** Word [k] of the bitmap shifted right; zero where nothing is left. *)
Definition right_word (k : Z) : Z :=
  if k <? lim - off then
    Z.lor (shl64 (if rem =? 0 then 0 else vword m src bits (off + k + 1)) (64 - rem))
          (shr64 (vword m src bits (off + k)) rem)
  else 0.

Lemma right_word_range k : is_u64 (right_word k).
Proof using Hb Hs.
  unfold right_word. destruct (k <? lim - off); [|auto with words].
  pose proof (vword_range m src bits (off + k) Hb Hs). auto with words.
Qed.

Lemma right_word_bits k j :
  0 <= k < lim -> 0 <= j < 64 ->
  Z.testbit (right_word k) j = (64 * k + j + shift <? bits) && mbit m src (64 * k + j + shift).
Proof using Hb Hs Hsh.
  intros Hk Hj. destruct shift_split as (Hse & Hsm & Ho).
  pose proof (BITS_TO_LONGS_spec bits Hb) as HL.
  unfold right_word. destruct (Z.ltb_spec k (lim - off)).
  - pose proof (vword_range m src bits (off + k) Hb Hs).
    pose proof (vword_range m src bits (off + k + 1) Hb Hs).
    rewrite join_right_bits; [|destruct (rem =? 0); auto with words|done|lia|
      intros ->; by rewrite Z.eqb_refl|lia].
    destruct (Z.ltb_spec (j + rem) 64).
    + rewrite vword_bits by (done || lia).
      replace (64 * (off + k) + (j + rem)) with (64 * k + j + shift) by lia. zcases.
    + destruct (Z.eqb_spec rem 0); [lia|]. rewrite vword_bits by (done || lia).
      replace (64 * (off + k + 1) + (j + rem - 64)) with (64 * k + j + shift) by lia. zcases.
  - rewrite Z.bits_0. zcases.
Qed.

(** Word [t] of the bitmap shifted left, before the last one is masked. *)
Definition left_word (t : Z) : Z :=
  Z.lor
    (shr64 (if negb (rem =? 0) && (0 <? t - off) then vword m src bits (t - off - 1) else 0) (64 - rem))
    (shl64 (vword m src bits (t - off)) rem).

Lemma left_word_range t : is_u64 (left_word t).
Proof using Hb Hs.
  unfold left_word. pose proof (vword_range m src bits (t - off) Hb Hs).
  pose proof (vword_range m src bits (t - off - 1) Hb Hs). destruct (_ && _); auto with words.
Qed.

Lemma left_word_bits t j :
  off <= t < lim -> 0 <= j < 64 -> 64 * t + j < bits ->
  Z.testbit (left_word t) j = (shift <=? 64 * t + j) && mbit m src (64 * t + j - shift).
Proof using Hb Hs Hsh.
  intros Ht Hj Hin. destruct shift_split as (Hse & Hsm & Ho).
  unfold left_word. pose proof (vword_range m src bits (t - off) Hb Hs).
  pose proof (vword_range m src bits (t - off - 1) Hb Hs).
  rewrite join_left_bits; [|destruct (_ && _); auto with words|done|lia|
    intros ->; by rewrite Z.eqb_refl|lia].
  destruct (Z.leb_spec rem j).
  - rewrite vword_bits by (done || lia).
    replace (64 * (t - off) + (j - rem)) with (64 * t + j - shift) by lia. zcases.
  - destruct (Z.eqb_spec rem 0); [lia|]. simpl. destruct (Z.ltb_spec 0 (t - off)).
    + rewrite vword_bits by (done || lia).
      replace (64 * (t - off - 1) + (j - rem + 64)) with (64 * t + j - shift) by lia. zcases.
    + rewrite Z.bits_0. zcases.
Qed.

(** What the loops read: all words at and above [k], or all up to [k], are as
    they were. *)
Section reads.
Context (M : mem) (k : Z).

Lemma right_upper :
  0 <= off + k -> (forall j, off + k <= j < lim -> load M src j = Some (mword m src j)) ->
  (if (rem =? 0) || (lim <=? off + k + 1) then Some 0
   else upper ← load M src (off + k + 1);
     Some (if (off + k + 1 =? lim - 1) && negb (bits mod 64 =? 0) then Z.land upper mask else upper)) =
  Some (if rem =? 0 then 0 else vword m src bits (off + k + 1)).
Proof using Type.
  intros Hk Hld. destruct (Z.eqb_spec rem 0); [done|]. simpl.
  destruct (Z.leb_spec lim (off + k + 1)); simpl; [unfold vword; zcases|].
  rewrite Hld by lia. simpl. rewrite andb_comm, masked_vword by lia. done.
Qed.

Lemma left_lower :
  k < lim -> (forall j, 0 <= j <= k -> load M src j = Some (mword m src j)) ->
  (if negb (rem =? 0) && (0 <? k) then load M src (k - 1) else Some 0) =
  Some (if negb (rem =? 0) && (0 <? k) then vword m src bits (k - 1) else 0).
Proof using Type.
  intros Hk Hld. destruct (Z.eqb_spec rem 0); [done|]. simpl. destruct (Z.ltb_spec 0 k); [|done].
  rewrite Hld by lia. rewrite <- masked_vword by lia.
  destruct (Z.eqb_spec (k - 1) (lim - 1)); [lia|]. by rewrite andb_false_r.
Qed.
End reads.

Lemma bitmap_shift_right_spec dst :
  off <= lim -> is_bitmap m dst bits ->
  exists m', __bitmap_shift_right m dst src shift bits = Some m' /\
    result_bits m m' dst bits (fun i => (i + shift <? bits) && mbit m src (i + shift)).
Proof using Hb Hs Hsh.
  intros Hoff Hd. pose proof Hd as (l & Hl & Hwf & Hlen).
  pose proof (BITS_TO_LONGS_spec bits Hb) as HL. destruct shift_split as (Hse & Hsm & Ho).
  unfold __bitmap_shift_right.
  rewrite (for_store_up _ m dst l (lim - off) right_word); [|done|lia|].
  - simpl. destruct (Z.eqb_spec off 0) as [Eo|Eo]; simpl;
      [|rewrite (mem_zero_spec _ _ _ _ _ right_word) by (lia || (intros; unfold right_word; zcases))];
      (eexists; split; [done|]);
      [replace (lim - off) with lim by lia|replace (lim - off + off) with lim by lia];
      (apply result_words; [done|done|lia|intros; apply right_word_range|]);
      intros i Hi; destruct (div_mod_64 i) as [Hi1 Hi2]; rewrite right_word_bits by lia; by rewrite <- Hi1.
  - intros k Hk.
    assert (Hld : forall j, off + k <= j < lim -> load (<[dst := setw l 0 k right_word]> m) src j =
      Some (mword m src j)) by (intros; apply (load_setw m dst l src _ _ _ bits); done || lia).
    rewrite right_upper by (done || lia). simpl. rewrite Hld by lia. simpl.
    rewrite masked_vword by lia. rewrite store_then_mask.
    assert (E : right_word k = Z.lor (shl64 (if rem =? 0 then 0 else vword m src bits (off + k + 1)) (64 - rem))
      (shr64 (vword m src bits (off + k)) rem)) by (unfold right_word; zcases).
    rewrite <- E. f_equal. apply masked_same; [apply right_word_range|].
    intros j Hj Hout. rewrite right_word_bits by lia. zcases.
Qed.

(** Word [t] of the result of the left shift. *)
Definition left_result (t : Z) : Z :=
  if negb (bits mod 64 =? 0) && (t =? lim - 1) then Z.land (left_word t) mask else left_word t.

Lemma left_result_range t : is_u64 (left_result t).
Proof using Hb Hs.
  pose proof (left_word_range t). unfold left_result. destruct (_ && _); auto with words.
Qed.

(** The descending loop has not yet written the words it reads. *)
Lemma left_loads dst l t j :
  m !! dst = Some l -> 0 <= j < t -> t <= lim ->
  load (<[dst := setw l t lim left_result]> m) src j = Some (mword m src j).
Proof using Hb Hs.
  intros Hl Hj Ht. destruct (mword_load m src j bits Hs ltac:(lia) Hb) as [Hload _].
  rewrite load_insert. case_decide as E; [|done]. subst dst.
  rewrite <- Hload. unfold load in *. rewrite Hl in *. simpl in *.
  pose proof (aget_range _ _ _ Hload). rewrite setw_aget by done. zcases.
Qed.

Lemma bitmap_shift_left_spec dst :
  off <= lim -> is_bitmap m dst bits ->
  exists m', __bitmap_shift_left m dst src shift bits = Some m' /\
    result_bits m m' dst bits (fun i => (shift <=? i) && mbit m src (i - shift)).
Proof using Hb Hs Hsh.
  intros Hoff Hd. pose proof Hd as (l & Hl & Hwf & Hlen).
  pose proof (BITS_TO_LONGS_spec bits Hb) as HL. destruct shift_split as (Hse & Hsm & Ho).
  unfold __bitmap_shift_left.
  match goal with |- context [for_all 0 ?n ?body m] =>
    destruct (for_all_rule body (fun i m' => m' = <[dst := setw l (lim - i) lim left_result]> m) 0 n m)
      as (m' & -> & ->) end; [lia| | |].
  - rewrite Z.sub_0_r, setw_empty by lia. by rewrite insert_id.
  - intros i m' Hi ->. set (k := lim - off - 1 - i).
    replace (lim - i) with (k + off + 1) by (unfold k; lia).
    replace (lim - (i + 1)) with (k + off) by (unfold k; lia).
    assert (Hld : forall j, 0 <= j <= k -> load (<[dst := setw l (k + off + 1) lim left_result]> m) src j =
      Some (mword m src j)) by (intros; apply left_loads; unfold k in *; done || lia).
    rewrite left_lower by (done || (unfold k; lia)). simpl. rewrite Hld by (unfold k; lia). simpl.
    rewrite masked_vword by (unfold k; lia). rewrite store_then_mask.
    exists (<[dst := setw l (k + off) lim left_result]> m). split; [|done].
    assert (E : left_word (k + off) =
      Z.lor (shr64 (if negb (rem =? 0) && (0 <? k) then vword m src bits (k - 1) else 0) (64 - rem))
        (shl64 (vword m src bits k) rem))
      by (unfold left_word; by replace (k + off - off) with k by lia).
    rewrite <- E. fold (left_result (k + off)).
    by rewrite store_insert, setw_down by (unfold k; lia).
  - simpl. replace (lim - (lim - off)) with off by lia.
    assert (Hres : result_bits m (<[dst := setw l 0 lim (fun k => if k <? off then 0 else left_result k)]> m)
      dst bits (fun i => (shift <=? i) && mbit m src (i - shift))).
    { apply result_words; [done|done|lia| |].
      - intros k _. destruct (k <? off); [auto with words|apply left_result_range].
      - intros i Hi. destruct (div_mod_64 i) as [Hi1 Hi2]. destruct (Z.ltb_spec (i / 64) off).
        + rewrite Z.bits_0. zcases.
        + unfold left_result. rewrite masked_low, left_word_bits by lia. by rewrite <- Hi1. }
    destruct (Z.eqb_spec off 0) as [Eo|Eo]; simpl.
    + eexists. split; [done|].
      rewrite <- (setw_empty (setw l off lim left_result) 0 off (fun _ => 0)) by lia.
      by rewrite setw_below by lia.
    + rewrite (mem_zero_block _ dst (setw l off lim left_result)); [|by rewrite lookup_insert_eq|lia|lia|
        rewrite setw_zlen; lia].
      eexists. split; [done|]. rewrite insert_insert_eq. simpl. by rewrite setw_below by lia.
Qed.
End shift.

(** * Regions *)

(** As long as [2 ^ order] is an [int] nothing wraps around. *)
Lemma int_shl1_eq order : 0 <= order < 31 -> int_shl1 order = 2 ^ order.
Proof.
  intros Ho. unfold int_shl1. rewrite Z.mod_small, Z.shiftl_1_l by lia. apply s32_small.
  assert (0 < 2 ^ order < 2 ^ 31) by (split; [apply Z.pow_pos_nonneg|apply Z.pow_lt_mono_r]; lia). lia.
Qed.

(** The geometry of [__reg_op]: [n] bits from [pos] on, [n] a power of two that
    divides [pos], are [offset, offset + min(n, 64)) of each of the
    BITS_TO_LONGS(n) words from [pos / 64] on. *)
Section region.
Context (pos order : Z) (Hpos : 0 <= pos) (Horder : 0 <= order < 31) (Hal : pos mod 2 ^ order = 0).
Let n := 2 ^ order.
Let index := pos / 64.
Let offset := pos - index * 64.
Let nl := BITS_TO_LONGS n.
Let nw := Z.min n 64.
Let mask := shl64 (u64 (shl64 1 (nw - 1) + u64 (shl64 1 (nw - 1) - 1))) offset.

Lemma nlongs_eq : s32 (u64 (n + 63) / 64) = nl.
Proof using Hpos Horder Hal.
  assert (0 < n < 2 ^ 31) by (unfold n; split; [apply Z.pow_pos_nonneg|apply Z.pow_lt_mono_r]; lia).
  rewrite wrap_small by word_lia. apply s32_small. unfold nl, BITS_TO_LONGS. Z.div_mod_to_equations; lia.
Qed.

Lemma nw_eq : s32 (nw - 1) = nw - 1.
Proof using Hpos Horder Hal.
  assert (0 < n) by (unfold n; apply Z.pow_pos_nonneg; lia). apply s32_small. unfold nw. lia.
Qed.

Lemma region_index_eq : Z.quot pos BITS_PER_LONG = index.
Proof using Hpos Horder Hal. by apply Z.quot_div_nonneg. Qed.

Lemma region_cases :
  (nl = 1 /\ nw = n /\ 1 <= n <= 32 /\ 0 <= offset /\ offset + n <= 64) \/
  (nw = 64 /\ n = 64 * nl /\ 1 <= nl /\ offset = 0).
Proof using Hpos Horder Hal.
  unfold nl, nw, offset, index, n in *. destruct (Z.lt_ge_cases order 6).
  - left. assert (Hn : 1 <= 2 ^ order <= 32).
    { split; [pose proof (Z.pow_pos_nonneg 2 order); lia|].
      change 32 with (2 ^ 5). apply Z.pow_le_mono_r; lia. }
    assert (H64 : 64 = 2 ^ order * 2 ^ (6 - order)).
    { rewrite <- Z.pow_add_r by lia. by replace (order + (6 - order)) with 6 by lia. }
    unfold BITS_TO_LONGS. split_and!; try lia.
    + Z.div_mod_to_equations; lia.
    + Z.div_mod_to_equations; lia.
    + apply Z.mod_divide in Hal as [q Hq]; [|lia].
      assert (Hq2 : pos - pos / 64 * 64 = 2 ^ order * (q mod 2 ^ (6 - order))).
      { replace (pos - pos / 64 * 64) with (pos mod 64) by (Z.div_mod_to_equations; lia).
        rewrite H64 at 1. rewrite Hq, Z.mul_comm, Z.mul_mod_distr_l; [done| |lia].
        apply Z.pow_nonzero; lia. }
      rewrite Hq2. pose proof (Z.mod_pos_bound q (2 ^ (6 - order)) ltac:(apply Z.pow_pos_nonneg; lia)).
      nia.
  - right. assert (Hn : 2 ^ order = 64 * 2 ^ (order - 6)).
    { change 64 with (2 ^ 6). rewrite <- Z.pow_add_r by lia. f_equal. lia. }
    assert (1 <= 2 ^ (order - 6)) by (pose proof (Z.pow_pos_nonneg 2 (order - 6)); lia).
    assert (HL : BITS_TO_LONGS (2 ^ order) = 2 ^ (order - 6)).
    { unfold BITS_TO_LONGS. rewrite Hn. Z.div_mod_to_equations; lia. }
    rewrite HL. split_and!; try lia.
    apply Z.mod_divide in Hal as [q Hq]; [|lia]. rewrite Hn in Hq.
    assert (pos = 64 * (q * 2 ^ (order - 6))) by lia. Z.div_mod_to_equations; lia.
Qed.

Lemma region_mask_bits j :
  0 <= j < 64 -> Z.testbit mask j = (offset <=? j) && (j <? offset + nw).
Proof using Hpos Horder Hal.
  intros Hj. assert (Hnw : 1 <= nw <= 64 /\ 0 <= offset < 64).
  { destruct region_cases as [(?&?&?&?&?)|(?&?&?&?)]; lia. }
  unfold mask. rewrite shl64_bits by lia.
  assert (E : u64 (shl64 1 (nw - 1) + u64 (shl64 1 (nw - 1) - 1)) = Z.ones nw).
  { rewrite Z.ones_equiv. unfold shl64. rewrite (Z.mod_small (nw - 1)), Z.shiftl_1_l by lia.
    assert (H2 : 2 ^ nw = 2 * 2 ^ (nw - 1))
      by (rewrite <- Z.pow_succ_r by lia; f_equal; lia).
    assert (0 < 2 ^ (nw - 1) <= 2 ^ 63)
      by (split; [apply Z.pow_pos_nonneg; lia|apply Z.pow_le_mono_r; lia]).
    unwrap. lia. }
  rewrite E. destruct (Z.leb_spec offset j).
  - rewrite ones_bits by lia. zcases.
  - rewrite Z.testbit_neg_r by lia. zcases.
Qed.

Lemma region_cover x :
  0 <= x ->
  (pos <=? x) && (x <? pos + n) =
  (index <=? x / 64) && (x / 64 <? index + nl) && ((offset <=? x mod 64) && (x mod 64 <? offset + nw)).
Proof using Hpos Horder Hal.
  intros Hx. pose proof (div_mod_64 x) as [Hx1 Hx2].
  assert (pos = 64 * index + offset) by (unfold offset, index; lia).
  destruct region_cases as [(?&?&?&?&?)|(?&?&?&?)];
    apply eq_true_iff_eq; rewrite !andb_true_iff, !Z.leb_le, !Z.ltb_lt; lia.
Qed.

Lemma region_words l k : bitmap_wf l -> pos + n <= 64 * zlen l -> 0 <= k < nl ->
  exists w, aget l (index + k) = Some w /\ is_u64 w.
Proof using Hpos Horder Hal.
  intros Hl Hlen Hk. assert (pos = 64 * index + offset) by (unfold offset, index; lia).
  assert (0 <= index) by (apply Z.div_pos; lia).
  apply aget_word; [done|]. destruct region_cases as [(?&?&?&?&?)|(?&?&?&?)]; lia.
Qed.

(** [REG_OP_ISFREE]. *)
Lemma region_isfree l :
  bitmap_wf l -> pos + n <= 64 * zlen l ->
  exists r, __reg_op l pos order REG_OP_ISFREE = Some (l, r) /\
    (r = 1 \/ r = 0) /\ (r = 1 <-> forall x, pos <= x < pos + n -> bit l x = false).
Proof using Hpos Horder Hal.
  intros Hl Hlen. unfold __reg_op. rewrite int_shl1_eq, region_index_eq by done. fold n. rewrite nlongs_eq. fold offset nw. rewrite nw_eq.
  fold mask.
  assert (Hnl : 1 <= nl) by (destruct region_cases as [(?&?&?&?&?)|(?&?&?&?)]; lia).
  assert (0 <= index) by (apply Z.div_pos; lia).
  match goal with |- context [for_ 0 nl ?body tt] =>
    destruct (for_rule body (fun k _ => forall x, index <= x / 64 < index + k -> 0 <= x ->
        (offset <= x mod 64 < offset + nw) -> bit l x = false)
      (fun r => r = 0 /\ exists x, pos <= x < pos + n /\ bit l x = true) 0 nl tt)
      as ([[]|r] & -> & Hpost) end; [lia|intros; lia| | |].
  - intros k _ Hk HI. destruct (region_words l k Hl Hlen Hk) as (w & Hw & Hwr). rewrite Hw. simpl.
    assert (Hmr : is_u64 (Z.land w mask)) by auto with words.
    destruct (negb (Z.land w mask =? 0)) eqn:E.
    + eexists. split; [done|]. split; [done|]. apply word_nonzero in E as (j & Hj & Hb); [|done].
      rewrite Z.land_spec, region_mask_bits in Hb by lia.
      apply andb_true_iff in Hb as [Hb1 Hb2].
      exists (64 * (index + k) + j). rewrite (bit_word l _ w) by done. split; [|done].
      pose proof (region_cover (64 * (index + k) + j) ltac:(lia)) as Hc.
      replace ((64 * (index + k) + j) / 64) with (index + k) in Hc by (Z.div_mod_to_equations; lia).
      replace ((64 * (index + k) + j) mod 64) with j in Hc by (Z.div_mod_to_equations; lia).
      rewrite Hb2, andb_true_r in Hc. revert Hc. zcases.
    + eexists. split; [done|]. apply negb_false_iff, Z.eqb_eq in E.
      intros x Hx Hx0 Hxo. destruct (Z.lt_ge_cases (x / 64) (index + k)); [by apply HI; try lia|].
      destruct (div_mod_64 x) as [Hx1 Hx2]. rewrite Hx1.
      rewrite (bit_word l (x / 64) w) by (done || by replace (x / 64) with (index + k) by lia).
      rewrite (word_zero_iff 64) in E by (done || lia). specialize (E (x mod 64) Hx2).
      rewrite Z.land_spec, region_mask_bits in E by lia. revert E. zcases.
  - exists 1. split; [done|]. split; [by left|]. split; [|done]. intros _ x Hx.
    pose proof (region_cover x ltac:(lia)) as Hc.
    rewrite (proj2 (andb_true_iff _ _)) in Hc by (rewrite Z.leb_le, Z.ltb_lt; lia).
    symmetry in Hc. rewrite !andb_true_iff, !Z.leb_le, !Z.ltb_lt in Hc. apply Hpost; lia.
  - destruct Hpost as [-> (x & Hx & Hb)]. exists 0. split; [done|]. split; [by right|].
    split; [done|]. intros H'. by rewrite H' in Hb.
Qed.

(** [REG_OP_ALLOC] and [REG_OP_RELEASE]: a word operation on each word of the
    region, which outside the mask leaves the word alone. *)
Lemma region_update l (op : Z -> Z) (v : bool) :
  bitmap_wf l -> pos + n <= 64 * zlen l ->
  (forall w, is_u64 w -> is_u64 (op w)) ->
  (forall w j, is_u64 w -> 0 <= j < 64 ->
     Z.testbit (op w) j = if Z.testbit mask j then v else Z.testbit w j) ->
  exists l', for_all 0 nl (fun i l => w ← aget l (index + i); aset l (index + i) (op w)) l = Some l' /\
    bitmap_wf l' /\ zlen l' = zlen l /\
    forall x, 0 <= x -> bit l' x = if (pos <=? x) && (x <? pos + n) then v else bit l x.
Proof using Hpos Horder Hal.
  intros Hl Hlen Hop Hopb.
  assert (Hnl : 1 <= nl) by (destruct region_cases as [(?&?&?&?&?)|(?&?&?&?)]; lia).
  assert (0 <= index) by (apply Z.div_pos; lia).
  match goal with |- context [for_all 0 nl ?body l] =>
    destruct (for_all_rule body (fun k l' => bitmap_wf l' /\ zlen l' = zlen l /\
      forall i, aget l' i = if (index <=? i) && (i <? index + k) then op <$> aget l i else aget l i)
      0 nl l) as (l' & -> & Hwf' & Hlen' & Hl') end; [lia| | |].
  - split_and!; [done|done|]. intros i. zcases.
  - intros k l' Hk (Hwf' & Hlen' & Hl'). destruct (region_words l k Hl Hlen Hk) as (w & Hw & Hwr).
    rewrite Hl'. replace ((index <=? index + k) && (index + k <? index + k)) with false by zcases.
    rewrite Hw. simpl. pose proof (aget_range _ _ _ Hw).
    destruct (aset l' (index + k) (op w)) as [l2|] eqn:Es;
      [|rewrite aset_Some in Es by lia; done].
    exists l2. split; [done|]. split_and!.
    + apply aset_inv in Es as [_ ->]. apply Forall_insert; [done|by apply Hop].
    + by rewrite (aset_len _ _ _ _ Es).
    + intros i. rewrite (aget_aset _ _ _ _ _ Es), Hl'.
      destruct (Z.eqb_spec (index + k) i) as [<-|]; [rewrite Hw|]; zcases.
  - exists l'. split_and!; try done. intros x Hx. unfold bit. rewrite Hl', region_cover by done.
    destruct (div_mod_64 x) as [Hx1 Hx2].
    destruct ((index <=? x / 64) && (x / 64 <? index + nl)) eqn:E; simpl; [|done].
    apply andb_true_iff in E as [?%Z.leb_le ?%Z.ltb_lt].
    destruct (region_words l (x / 64 - index) Hl Hlen ltac:(lia)) as (w & Hw & Hwr).
    replace (index + (x / 64 - index)) with (x / 64) in Hw by lia. rewrite Hw. simpl.
    by rewrite Hopb, region_mask_bits by (done || lia).
Qed.

Lemma region_alloc l :
  bitmap_wf l -> pos + n <= 64 * zlen l ->
  exists l', __reg_op l pos order REG_OP_ALLOC = Some (l', 0) /\
    bitmap_wf l' /\ zlen l' = zlen l /\
    forall x, 0 <= x -> bit l' x = if (pos <=? x) && (x <? pos + n) then true else bit l x.
Proof using Hpos Horder Hal.
  intros Hl Hlen. unfold __reg_op. rewrite int_shl1_eq, region_index_eq by done. fold n. rewrite nlongs_eq. fold offset nw. rewrite nw_eq.
  fold mask.
  assert (Hm : is_u64 mask) by apply shl64_range.
  destruct (region_update l (fun w => Z.lor w mask) true) as (l' & -> & H'); try done.
  - auto with words.
  - intros w j _ _. rewrite Z.lor_spec. destruct (Z.testbit mask j); [apply orb_true_r|apply orb_false_r].
  - simpl. eauto.
Qed.

Lemma region_release l :
  bitmap_wf l -> pos + n <= 64 * zlen l ->
  exists l', __reg_op l pos order REG_OP_RELEASE = Some (l', 0) /\
    bitmap_wf l' /\ zlen l' = zlen l /\
    forall x, 0 <= x -> bit l' x = if (pos <=? x) && (x <? pos + n) then false else bit l x.
Proof using Hpos Horder Hal.
  intros Hl Hlen. unfold __reg_op. rewrite int_shl1_eq, region_index_eq by done. fold n. rewrite nlongs_eq. fold offset nw. rewrite nw_eq.
  fold mask.
  destruct (region_update l (fun w => Z.land w (not64 mask)) false) as (l' & -> & H'); try done.
  - auto with words.
  - intros w j _ Hj. rewrite Z.land_spec, not64_bits by lia.
    destruct (Z.testbit mask j); simpl; rewrite ?andb_false_r; zcases.
  - simpl. eauto.
Qed.
End region.

(** ** The region allocator *)

#[local] Arguments __reg_op : simpl never.

Lemma pow2_pos order : 0 <= order -> 1 <= 2 ^ order.
Proof. intros. pose proof (Z.pow_pos_nonneg 2 order). lia. Qed.

(** First fit: the region returned is the first aligned one that is free, and
    it becomes the only change; without one the bitmap is left alone. *)
Lemma find_free_region_first_fit l bits order :
  bitmap_wf l -> 0 <= bits <= 64 * zlen l -> 0 <= order < 31 -> bits + 2 ^ order < 2 ^ 31 ->
  let free pos := forall x, pos <= x < pos + 2 ^ order -> bit l x = false in
  exists l' r, bitmap_find_free_region l bits order = Some (l', r) /\
    ((r = - ENOMEM /\ l' = l /\
      forall pos, pos mod 2 ^ order = 0 -> 0 <= pos -> pos + 2 ^ order <= bits -> ~ free pos) \/
     (0 <= r /\ r + 2 ^ order <= bits /\ r mod 2 ^ order = 0 /\ free r /\
      (forall pos, pos mod 2 ^ order = 0 -> 0 <= pos < r -> ~ free pos) /\
      bitmap_wf l' /\ zlen l' = zlen l /\
      forall x, 0 <= x -> bit l' x = (r <=? x) && (x <? r + 2 ^ order) || bit l x)).
Proof.
  intros Hl Hb Ho Hint free. pose proof (pow2_pos order (proj1 Ho)) as Hn. unfold bitmap_find_free_region.
  match goal with |- exists l' r, loop ?fuel ?step 0 = Some (l', r) /\ @?Q l' r =>
    assert (exists p, loop fuel step 0 = Some p /\ Q p.1 p.2) as ([l' r] & ? & ?) end; [|by eauto].
  eapply (loop_total _ (fun pos => 0 <= pos /\ pos mod 2 ^ order = 0 /\ pos <= bits /\
      forall q, q mod 2 ^ order = 0 -> 0 <= q < pos -> ~ free q)
    _ (fun pos => Z.to_nat (bits - pos))); [|split_and!; try done; try lia|lia].
  intros pos (Hp0 & Hpa & Hpb & Hprev). rewrite int_shl1_eq, s32_small by (done || lia).
  destruct (Z.leb_spec (pos + 2 ^ order) bits).
  - destruct (region_isfree pos order Hp0 Ho Hpa l Hl ltac:(lia)) as (r & -> & Hr & Hfree). simpl.
    destruct Hr as [-> | ->]; simpl.
    + destruct (region_alloc pos order Hp0 Ho Hpa l Hl ltac:(lia)) as (l' & -> & Hwf' & Hlen' & Hbits).
      simpl. eexists. split; [done|]. right. simpl. split_and!; try done; try lia.
      intros x Hx. by apply (proj1 Hfree eq_refl).
    + eexists. split; [done|]. split; [|lia]. split_and!; [lia| |lia|].
      * rewrite <- Z.add_mod_idemp_r, Z.mod_same, Z.add_0_r by lia. done.
      * intros q Hqa Hq. destruct (Z.lt_ge_cases q pos); [by apply Hprev; try lia|].
        assert (q = pos) as ->.
        { apply Z.mod_divide in Hqa as [a Ha]; [|lia]. apply Z.mod_divide in Hpa as [b Hb']; [|lia].
          assert (b <= a) by nia. assert (a < b + 1) by nia. assert (a = b) by lia. by subst. }
        intros Hf. apply Hfree in Hf. done.
  - eexists. split; [done|]. left. simpl. split_and!; [done|done|].
    intros q Hqa Hq0 Hqb. apply Hprev; [done|]. lia.
Qed.

(** An order of 31 makes the size the least [int]. *)
Lemma find_free_region_wraps l bits : 0 <= bits < 2 ^ 31 -> bitmap_find_free_region l bits 31 = Some (l, 0).
Proof.
  intros Hb. unfold bitmap_find_free_region, loop.
  change (s32 (0 + int_shl1 31)) with (- 2 ^ 31). by destruct (Z.leb_spec (- 2 ^ 31) bits); [|lia].
Qed.

Lemma allocate_region_correct l pos order :
  bitmap_wf l -> 0 <= pos -> 0 <= order < 31 -> pos mod 2 ^ order = 0 -> pos + 2 ^ order <= 64 * zlen l ->
  exists l' r, bitmap_allocate_region l pos order = Some (l', r) /\
    ((r = 0 /\ (forall x, pos <= x < pos + 2 ^ order -> bit l x = false) /\ bitmap_wf l' /\
      (forall x, 0 <= x -> bit l' x = (pos <=? x) && (x <? pos + 2 ^ order) || bit l x)) \/
     (r = - EBUSY /\ l' = l /\ exists x, pos <= x < pos + 2 ^ order /\ bit l x = true)).
Proof.
  intros Hl Hp Ho Ha Hlen. unfold bitmap_allocate_region.
  destruct (region_isfree pos order Hp Ho Ha l Hl Hlen) as (r & -> & [-> | ->] & Hfree); simpl.
  - destruct (region_alloc pos order Hp Ho Ha l Hl Hlen) as (l' & -> & Hwf & _ & Hb). simpl.
    do 2 eexists. split; [done|]. left. split_and!; [done|by apply Hfree|done|].
    intros x Hx. rewrite Hb by done. by destruct (_ && _).
  - do 2 eexists. split; [done|]. right. split_and!; [done|done|].
    destruct (any_bit (fun i => bit l (pos + i)) (2 ^ order)) eqn:E.
    + apply any_bit_true in E as (i & Hi & Hb). exists (pos + i). split; [lia|done].
    + exfalso. assert (0 = 1); [|done]. apply Hfree. intros x Hx.
      destruct (bit l x) eqn:Eb; [|done]. rewrite <- E. symmetry. apply any_bit_true.
      exists (x - pos). split; [lia|]. by replace (pos + (x - pos)) with x by lia.
Qed.

(** Releasing an allocated region restores every bit. *)
Lemma release_allocated_region l pos order l' :
  bitmap_wf l -> 0 <= pos -> 0 <= order < 31 -> pos mod 2 ^ order = 0 -> pos + 2 ^ order <= 64 * zlen l ->
  bitmap_allocate_region l pos order = Some (l', 0) ->
  exists l'', bitmap_release_region l' pos order = Some l'' /\
    forall x, 0 <= x -> bit l'' x = bit l x.
Proof.
  intros Hl Hp Ho Ha Hlen Hal. unfold bitmap_allocate_region in Hal.
  destruct (region_isfree pos order Hp Ho Ha l Hl Hlen) as (r & Hr & [-> | ->] & Hfree);
    rewrite Hr in Hal; simpl in Hal; [|done].
  destruct (region_alloc pos order Hp Ho Ha l Hl Hlen) as (l1 & H1 & Hwf & Hz & Hb).
  rewrite H1 in Hal. simpl in Hal. simplify_eq.
  destruct (region_release pos order Hp Ho Ha l' Hwf ltac:(lia)) as (l2 & H2 & _ & _ & Hb2).
  unfold bitmap_release_region. rewrite H2. simpl. eexists. split; [done|]. intros x Hx.
  rewrite Hb2 by done. destruct ((pos <=? x) && (x <? pos + 2 ^ order)) eqn:E.
  - symmetry. apply (proj1 Hfree eq_refl). revert E. zcases.
  - rewrite Hb by done. by rewrite E.
Qed.

(** * Ordinals of set bits *)

(** The number of set bits below [x]. *)
Abbreviation rank f x := (count f 0 (Z.to_nat x)).

Lemma rank_split f a b : 0 <= a <= b -> rank f b = rank f a + count f a (Z.to_nat (b - a)).
Proof.
  intros. replace (Z.to_nat b) with (Z.to_nat a + Z.to_nat (b - a))%nat by lia.
  by rewrite count_app, Z.add_0_l, Z2Nat.id by lia.
Qed.

Lemma count_none f a n : (forall i, a <= i < a + Z.of_nat n -> f i = false) -> count f a n = 0.
Proof.
  revert a. induction n as [|n IH]; intros a H; simpl; [done|].
  rewrite H by lia. rewrite IH; [done|]. intros i Hi. apply H. lia.
Qed.

Lemma rank_skip f a b : 0 <= a <= b -> (forall i, a <= i < b -> f i = false) -> rank f b = rank f a.
Proof.
  intros Hab Hf. rewrite (rank_split f a b), (count_none f a); [lia| |done].
  intros i Hi. apply Hf. lia.
Qed.

Lemma rank_succ f a : 0 <= a -> rank f (a + 1) = rank f a + Z.b2z (f a).
Proof.
  intros. rewrite (rank_split f a (a + 1)) by lia.
  replace (Z.to_nat (a + 1 - a)) with 1%nat by lia. simpl. lia.
Qed.

Lemma rank_mono f a b : 0 <= a <= b -> rank f a <= rank f b.
Proof. intros. rewrite (rank_split f a b) by done. pose proof (count_bounds f a (Z.to_nat (b - a))). lia. Qed.

Lemma rank_inj f a b : 0 <= a -> 0 <= b -> f a = true -> f b = true -> rank f a = rank f b -> a = b.
Proof.
  intros Ha Hb Hfa Hfb E. destruct (Z.lt_trichotomy a b) as [|[|]]; [|done|].
  - pose proof (rank_mono f (a + 1) b ltac:(lia)). rewrite rank_succ, Hfa in H0 by lia. simpl in *. lia.
  - pose proof (rank_mono f (b + 1) a ltac:(lia)). rewrite rank_succ, Hfb in H0 by lia. simpl in *. lia.
Qed.

Lemma test_bit_spec nr l : 0 <= nr < 64 * zlen l -> bitmap_wf l -> test_bit nr l = Some (bit l nr).
Proof.
  intros Hn Hl. unfold test_bit, bit. destruct (div_mod_64 nr) as [H1 H2].
  destruct (aget_word l (nr / 64) Hl ltac:(lia)) as (w & -> & Hw). simpl. f_equal.
  change (64 - 1) with 63. rewrite land_63 by lia.
  rewrite Z.land_comm. change 1 with (Z.ones 1). apply eq_true_iff_eq. split.
  - intros E. apply negb_true_iff, Z.eqb_neq in E. apply not_false_is_true. intros Hb.
    apply E. apply land_ones_zero; [lia|]. intros i Hi. replace i with 0 by lia.
    by rewrite shr64_bits by lia.
  - intros Hb. apply negb_true_iff, Z.eqb_neq. intros E. rewrite land_ones_zero in E by lia.
    specialize (E 0 ltac:(lia)). rewrite shr64_bits in E by lia. rewrite Z.add_0_l in E. by rewrite Hb in E.
Qed.

(** The next search position: [bits] or the next set bit, whose rank is known. *)
Lemma next_rank f bits a r :
  0 <= a <= bits -> is_next f bits a r ->
  a <= r <= bits /\ (r < bits -> f r = true) /\ rank f r = rank f a.
Proof.
  intros Ha [Hr Hn]. assert (a <= r <= bits) by (destruct Hr as [->|[]]; lia).
  split_and!; try lia.
  - intros. destruct Hr as [->|[]]; [lia|done].
  - apply rank_skip; [lia|]. intros i Hi. apply Hn; lia.
Qed.

Section ordinals.
Context (l : list Z) (bits : Z) (Hl : bitmap_wf l) (Hb : 0 <= bits <= 64 * zlen l) (Hint : bits < 2 ^ 31).

Lemma int_bits_u64 a : 0 <= a <= bits -> is_u64 a.
Proof using Hint. intros. unfold is_word. lia. Qed.

Lemma pos_to_ord_rank pos :
  bitmap_pos_to_ord l pos bits =
  Some (if (0 <=? pos) && (pos <? bits) && bit l pos then rank (bit l) pos else -1).
Proof using Hl Hb Hint.
  unfold bitmap_pos_to_ord.
  destruct (Z.ltb_spec pos 0), (Z.leb_spec bits pos), (Z.leb_spec 0 pos), (Z.ltb_spec pos bits);
    simpl; try lia; try done.
  rewrite test_bit_spec by (done || lia). simpl. destruct (bit l pos) eqn:Ep; [|done].
  destruct (find_first_bit_is_next l bits) as (i0 & -> & Hn0);
    [done|apply int_bits_u64; lia|lia|]. simpl.
  destruct (next_rank (bit l) bits 0 i0) as (Hi0 & Hf0 & Hr0); [lia|done|].
  assert (Hle : forall a r, 0 <= a <= pos -> is_next (bit l) bits a r -> r <= pos).
  { intros a r Ha [_ Hn]. destruct (Z.lt_ge_cases pos r); [|lia].
    rewrite Hn in Ep by lia. done. }
  pose proof (Hle 0 i0 ltac:(lia) Hn0).
  match goal with |- ?lp = Some ?v => enough (exists r, lp = Some r /\ r = v)
    as (r & -> & ->) by done end.
  eapply (loop_total _ (fun '(i, ord) => 0 <= i <= pos /\ bit l i = true /\ ord = rank (bit l) i)
    _ (fun '(i, _) => Z.to_nat (pos - i))); [| |lia].
  - intros [i ord] (Hi & Hfi & ->). destruct (Z.ltb_spec i pos).
    + destruct (find_next_bit_is_next l bits (i + 1)) as (r & -> & Hn);
        [done|apply int_bits_u64; lia|lia|apply int_bits_u64; lia|]. simpl.
      eexists. split; [done|]. destruct (next_rank (bit l) bits (i + 1) r) as (Hr & Hfr & Hrr); [lia|done|].
      pose proof (Hle (i + 1) r ltac:(lia) Hn). split; [|lia].
      split_and!; [lia|lia|apply Hfr; lia|]. rewrite Hrr, rank_succ, Hfi by lia. done.
    + destruct (Z.eqb_spec i pos) as [->|]; [|lia]. by eexists.
  - split_and!; [lia|lia|apply Hf0; lia|]. rewrite Hr0. done.
Qed.

(** The position [bitmap_ord_to_pos] returns: of the [ord]-th set bit, or 0. *)
Lemma ord_to_pos_select ord :
  exists p, bitmap_ord_to_pos l ord bits = Some p /\
    ((0 <= ord < rank (bit l) bits /\ 0 <= p < bits /\ bit l p = true /\ rank (bit l) p = ord) \/
     (~ 0 <= ord < rank (bit l) bits /\ p = 0)).
Proof using Hl Hb Hint.
  unfold bitmap_ord_to_pos. pose proof (count_bounds (bit l) 0 (Z.to_nat bits)) as Hcb.
  destruct (Z.leb_spec 0 ord), (Z.ltb_spec ord bits); simpl;
    try (eexists; split; [done|]; right; split; [lia|done]).
  destruct (find_first_bit_is_next l bits) as (i0 & -> & Hn0);
    [done|apply int_bits_u64; lia|lia|]. simpl.
  destruct (next_rank (bit l) bits 0 i0) as (Hi0 & Hf0 & Hr0); [lia|done|].
  eapply (loop_total _ (fun '(i, o) => 0 <= i <= bits /\ (i < bits -> bit l i = true) /\
      0 <= o /\ rank (bit l) i + o = ord) _ (fun '(i, _) => Z.to_nat (bits - i))).
  - intros [i o] (Hi & Hfi & Ho & Hsum). destruct (Z.ltb_spec i bits); simpl.
    + destruct (Z.ltb_spec 0 o).
      * destruct (find_next_bit_is_next l bits (i + 1)) as (r & -> & Hn);
          [done|apply int_bits_u64; lia|lia|apply int_bits_u64; lia|]. simpl.
        eexists. split; [done|]. destruct (next_rank (bit l) bits (i + 1) r) as (Hr & Hfr & Hrr); [lia|done|].
        split; [|lia]. split_and!; [lia|lia|done|lia|].
        rewrite Hrr, rank_succ, Hfi by lia. simpl. lia.
      * destruct (Z.eqb_spec o 0); [|lia]. eexists. split; [done|]. left.
        pose proof (rank_mono (bit l) (i + 1) bits ltac:(lia)) as Hm.
        rewrite rank_succ, Hfi in Hm by lia. simpl in Hm. split_and!; try lia. by apply Hfi.
    + eexists. split; [done|]. right. assert (i = bits) as -> by lia. split; [lia|done].
  - split_and!; [lia|lia|done|lia|]. rewrite Hr0. simpl. lia.
  - lia.
Qed.
End ordinals.

(** * Maps between bitmaps *)

Lemma set_bit_spec m dst bits nr :
  is_bitmap m dst bits -> 0 <= nr < bits ->
  exists m', set_bit nr m dst = Some m' /\ is_bitmap m' dst bits /\
    (forall x, 0 <= x -> mbit m' dst x = (x =? nr) || mbit m dst x) /\
    (forall p, p <> dst -> m' !! p = m !! p).
Proof.
  intros (l & Hl & Hwf & Hlen) Hn. destruct (div_mod_64 nr) as [Hn1 Hn2].
  destruct (aget_word l (nr / 64) Hwf ltac:(lia)) as (w & Hw & Hwr).
  unfold set_bit, store, load. rewrite Hl. simpl. rewrite Hw. simpl.
  set (mask := shl64 1 (nr mod 64)).
  assert (Hmb : forall j, 0 <= j < 64 -> Z.testbit mask j = (j =? nr mod 64)).
  { intros j Hj. unfold mask. rewrite shl64_bits by lia. destruct (Z.eqb_spec j (nr mod 64)) as [->|].
    - rewrite Z.sub_diag. zcases.
    - destruct (Z.lt_ge_cases j (nr mod 64)); [rewrite Z.testbit_neg_r by lia; zcases|].
      rewrite (word_bits_high 1 1) by (unfold is_word; lia). zcases. }
  destruct (aset l (nr / 64) (Z.lor w mask)) as [l'|] eqn:Es;
    [|rewrite aset_Some in Es by lia; done].
  simpl. eexists. split; [done|]. split_and!.
  - exists l'. rewrite lookup_insert_eq. split; [done|]. rewrite (aset_len _ _ _ _ Es). split; [|done].
    apply aset_inv in Es as [_ ->]. apply Forall_insert; [done|].
    pose proof (shl64_range 1 (nr mod 64)). auto with words.
  - intros x Hx. unfold mbit. rewrite lookup_insert_eq, Hl. simpl. unfold bit.
    rewrite (aget_aset _ _ _ _ _ Es). destruct (div_mod_64 x) as [Hx1 Hx2].
    destruct (Z.eqb_spec (nr / 64) (x / 64)) as [E|E].
    + rewrite <- E, Hw, Z.lor_spec, Hmb by lia. rewrite orb_comm. f_equal.
      destruct (Z.eqb_spec (x mod 64) (nr mod 64)), (Z.eqb_spec x nr); lia.
    + destruct (Z.eqb_spec x nr) as [->|]; [done|]. done.
  - intros p Hp. by rewrite lookup_insert_ne.
Qed.

Lemma bitmap_zero_spec m dst bits :
  0 <= bits -> is_bitmap m dst bits ->
  exists m', bitmap_zero m dst bits = Some m' /\ result_bits m m' dst bits (fun _ => false).
Proof.
  intros Hb (l & Hl & Hwf & Hlen). pose proof (BITS_TO_LONGS_spec bits Hb).
  unfold bitmap_zero. rewrite (mem_zero_block _ _ l) by (done || lia). eexists. split; [done|].
  apply result_words; try done; try lia. intros. apply Z.bits_0.
Qed.

(** The loop over the set bits of a bitmap [l] that the body leaves alone. *)
Lemma for_each_bit_rule {S : Type} bits (src : S -> option (list Z)) body s l (I : Z -> S -> Prop) :
  bitmap_wf l -> 0 <= bits <= 64 * zlen l -> bits < 2 ^ 31 ->
  I 0 s ->
  (forall b s, I b s -> src s = Some l) ->
  (forall b s, 0 <= b < bits -> bit l b = true -> I b s -> exists s', body b s = Some s' /\ I (b + 1) s') ->
  (forall b b' s, 0 <= b <= b' -> (forall i, b <= i < b' -> bit l i = false) -> I b s -> I b' s) ->
  exists s', for_each_bit bits src body s = Some s' /\ I bits s'.
Proof.
  intros Hl Hb Hint HI Hsrc Hbody Hskip. unfold for_each_bit. rewrite (Hsrc _ _ HI). simpl.
  destruct (find_first_bit_is_next l bits) as (b0 & -> & [Hr0 Hn0]);
    [done|unfold is_word; lia|lia|]. simpl.
  eapply (loop_total _ (fun '(b, s) => 0 <= b <= bits /\ (b < bits -> bit l b = true) /\ I b s)
    _ (fun '(b, _) => Z.to_nat (bits - b))).
  - intros [b t] (Hbb & Hset & HIb). destruct (Z.ltb_spec b bits).
    + destruct (Hbody b t ltac:(lia) (Hset ltac:(lia)) HIb) as (t' & -> & HI'). simpl.
      rewrite (Hsrc _ _ HI'). simpl.
      destruct (find_next_bit_is_next l bits (b + 1)) as (r & -> & [Hr Hn]);
        [done|unfold is_word; lia|lia|unfold is_word; lia|]. simpl.
      eexists. split; [done|]. assert (b + 1 <= r <= bits) by (destruct Hr as [->|[]]; lia).
      split; [|lia]. split_and!; [lia|lia|intros; destruct Hr as [->|[]]; [lia|done]|].
      eapply Hskip; [| |exact HI']; [lia|]. intros i Hi. apply Hn; lia.
    + eexists. split; [done|]. by replace bits with b by lia.
  - assert (0 <= b0 <= bits) by (destruct Hr0 as [->|[]]; lia).
    split_and!; [lia|lia|intros; destruct Hr0 as [->|[]]; [lia|done]|].
    eapply Hskip; [| |exact HI]; [lia|]. intros i Hi. apply Hn0; lia.
  - assert (0 <= b0) by (destruct Hr0 as [->|[]]; lia). lia.
Qed.

(** The states of such a loop: [dst] holds the images under [phi] of the bits
    below [b] of [src] that satisfy [cond]. *)
Definition image_below (m m' : mem) (dst : ptr) (bits : Z) (P : Z -> Prop) (phi : Z -> Z) (b : Z) : Prop :=
  is_bitmap m' dst bits /\ (forall p, p <> dst -> m' !! p = m !! p) /\
  forall x, 0 <= x < bits -> mbit m' dst x = true <-> exists i, 0 <= i < b /\ P i /\ phi i = x.

Lemma image_step m m' dst bits P phi b :
  image_below m m' dst bits P phi b -> 0 <= b -> P b -> 0 <= phi b < bits ->
  exists m'', set_bit (phi b) m' dst = Some m'' /\ image_below m m'' dst bits P phi (b + 1).
Proof.
  intros (Hd & Hf & Hx) Hb HP Hphi. destruct (set_bit_spec m' dst bits (phi b) Hd Hphi)
    as (m'' & Hs & Hd'' & Hb'' & Hf'').
  exists m''. split; [done|]. split_and!; [done|intros p Hp; by rewrite Hf'', Hf|].
  intros x Hx0. rewrite Hb'' by lia. rewrite orb_true_iff, Z.eqb_eq, Hx by done. split.
  - intros [->|(i & Hi & ? & ?)]; [exists b|exists i]; (split; [lia|done]).
  - intros (i & Hi & HPi & Hxi). destruct (Z.eq_dec i b) as [->|]; [by left|right].
    exists i. split; [lia|done].
Qed.

Lemma image_skip m m' dst bits (P : Z -> Prop) phi b b' :
  0 <= b <= b' -> (forall i, b <= i < b' -> ~ P i) ->
  image_below m m' dst bits P phi b -> image_below m m' dst bits P phi b'.
Proof.
  intros Hb HP (Hd & Hf & Hx). split_and!; [done|done|]. intros x Hx0. rewrite Hx by done. split.
  - intros (i & Hi & ?). exists i. split; [lia|done].
  - intros (i & Hi & HPi & ?). exists i. split; [|done].
    destruct (Z.lt_ge_cases i b); [lia|]. destruct (HP i); [lia|done].
Qed.

Lemma image_start m m0 dst bits P phi :
  result_bits m m0 dst bits (fun _ => false) -> image_below m m0 dst bits P phi 0.
Proof.
  intros (Hd & Hz & _ & Hf). split_and!; [done|done|]. intros x Hx. rewrite Hz by done.
  split; [done|]. intros (i & Hi & _). lia.
Qed.

Lemma image_block m m' dst bits P phi b p l :
  image_below m m' dst bits P phi b -> p <> dst -> m !! p = Some l -> m' !! p = Some l.
Proof. intros (_ & Hf & _) Hp Hl. by rewrite Hf. Qed.

Lemma bitremap_total oldbit old new bits :
  bitmap_wf old -> bitmap_wf new -> 0 <= bits <= 64 * zlen old -> bits <= 64 * zlen new ->
  bits < 2 ^ 31 ->
  exists x, bitmap_bitremap oldbit old new bits = Some x /\
    (if (0 <=? oldbit) && (oldbit <? bits) && bit old oldbit && negb (rank (bit new) bits =? 0)
     then 0 <= x < bits /\ bit new x = true /\
          rank (bit new) x = rank (bit old) oldbit mod rank (bit new) bits
     else x = oldbit).
Proof.
  intros Ho Hn Hbo Hbn Hint. unfold bitmap_bitremap.
  rewrite bitmap_weight_spec by (done || lia). simpl.
  rewrite pos_to_ord_rank by (done || lia). simpl.
  pose proof (count_bounds (bit new) 0 (Z.to_nat bits)) as Hw.
  pose proof (count_bounds (bit old) 0 (Z.to_nat oldbit)) as Hr.
  destruct ((0 <=? oldbit) && (oldbit <? bits) && bit old oldbit) eqn:E; simpl; [|by eauto].
  rewrite (proj2 (Z.ltb_ge _ 0)) by lia. simpl.
  destruct (Z.eqb_spec (rank (bit new) bits) 0) as [|Hnz]; simpl; [by eauto|].
  rewrite Z.rem_mod_nonneg by lia.
  destruct (ord_to_pos_select new bits Hn ltac:(lia) Hint (rank (bit old) oldbit mod rank (bit new) bits))
    as (p & -> & [(? & ? & ? & ?)|[Hno _]]).
  - by exists p.
  - destruct Hno. apply Z.mod_pos_bound. lia.
Qed.

(** What [bitmap_bitremap] returns, as a function. *)
Definition remap_pos (old new : list Z) (bits i : Z) : Z :=
  default i (bitmap_bitremap i old new bits).

Lemma remap_correct m dst src old new bits lo ln ls :
  m !! old = Some lo -> m !! new = Some ln -> m !! src = Some ls -> is_bitmap m dst bits ->
  dst <> src -> dst <> old -> dst <> new ->
  bitmap_wf lo -> bitmap_wf ln -> bitmap_wf ls ->
  0 <= bits <= 64 * zlen lo -> bits <= 64 * zlen ln -> bits <= 64 * zlen ls -> bits < 2 ^ 31 ->
  exists m', bitmap_remap m dst src old new bits = Some m' /\
    is_bitmap m' dst bits /\ (forall p, p <> dst -> m' !! p = m !! p) /\
    forall x, 0 <= x < bits -> mbit m' dst x = true <->
      exists i, 0 <= i < bits /\ bit ls i = true /\ bitmap_bitremap i lo ln bits = Some x.
Proof.
  intros Hlo Hln Hls Hd Hne1 Hne2 Hne3 Hwo Hwn Hws Hbo Hbn Hbs Hint.
  unfold bitmap_remap. rewrite decide_False by done.
  destruct (bitmap_zero_spec m dst bits ltac:(lia) Hd) as (m0 & -> & Hz). simpl.
  pose proof (image_start m m0 dst bits (fun i => bit ls i = true) (remap_pos lo ln bits) Hz) as Him.
  rewrite (image_block _ _ _ _ _ _ _ new ln Him) by done. simpl.
  rewrite bitmap_weight_spec by (done || lia). simpl.
  match goal with |- context [for_each_bit bits ?src ?body m0] =>
    destruct (for_each_bit_rule bits src body m0 ls
      (fun b m' => image_below m m' dst bits (fun i => bit ls i = true) (remap_pos lo ln bits) b))
      as (m' & Hm' & Hres) end; [done|lia|done|done| | | | ].
  - intros b m' HI. by apply (image_block _ _ _ _ _ _ _ src ls HI).
  - intros b m' Hb Hset HI. rewrite (image_block _ _ _ _ _ _ _ old lo HI) by done. simpl.
    rewrite (image_block _ _ _ _ _ _ _ new ln HI) by done.
    destruct (bitremap_total b lo ln bits) as (x & Hx & Hspec); try done; try lia.
    assert (Hxr : 0 <= x < bits).
    { destruct (_ && negb _); [lia|]. subst. lia. }
    destruct (image_step m m' dst bits _ (remap_pos lo ln bits) b HI) as (m'' & Hs & HI');
      [lia|done|unfold remap_pos; by rewrite Hx|].
    exists m''. split; [|done]. rewrite <- Hs. unfold remap_pos. rewrite Hx. simpl.
    unfold bitmap_bitremap in Hx. rewrite bitmap_weight_spec in Hx by (done || lia). simpl in Hx.
    destruct (bitmap_pos_to_ord lo b bits) as [n|]; [|done]. simpl in *.
    destruct ((n <? 0) || (_ =? 0)); [by simplify_eq|]. rewrite Hx. done.
  - intros b b' m' Hb Hno HI. eapply image_skip; [done| |done]. intros i Hi. by rewrite Hno.
  - exists m'. split; [exact Hm'|]. destruct Hres as (H1 & H2 & H3). split_and!; [done|done|].
    intros x Hx. rewrite H3 by done. split; intros (i & Hi & Hset & He); exists i; (split_and!; [lia|lia|done|]).
    + destruct (bitremap_total i lo ln bits) as (y & Hy & _); try done; try lia.
      unfold remap_pos in He. rewrite Hy in *. simpl in He. by subst.
    + unfold remap_pos. by rewrite He.
Qed.

Lemma fold_correct m dst orig sz bits lo :
  m !! orig = Some lo -> is_bitmap m dst bits -> dst <> orig -> bitmap_wf lo ->
  0 <= bits <= 64 * zlen lo -> bits < 2 ^ 31 -> 0 < sz <= bits ->
  exists m', bitmap_fold m dst orig sz bits = Some m' /\
    is_bitmap m' dst bits /\ (forall p, p <> dst -> m' !! p = m !! p) /\
    forall x, 0 <= x < bits -> mbit m' dst x = true <->
      exists i, 0 <= i < bits /\ bit lo i = true /\ i mod sz = x.
Proof.
  intros Hlo Hd Hne Hwo Hbo Hint Hsz. unfold bitmap_fold. rewrite decide_False by done.
  destruct (bitmap_zero_spec m dst bits ltac:(lia) Hd) as (m0 & -> & Hz). simpl.
  apply (image_start m m0 dst bits (fun i => bit lo i = true) (fun i => i mod sz)) in Hz.
  match goal with |- context [for_each_bit bits ?src ?body m0] =>
    destruct (for_each_bit_rule bits src body m0 lo
      (fun b m' => image_below m m' dst bits (fun i => bit lo i = true) (fun i => i mod sz) b))
      as (m' & Hm' & Hres) end; [done|lia|done|done| | | |].
  - intros b m' HI. by apply (image_block _ _ _ _ _ _ _ orig lo HI).
  - intros b m' Hb Hset HI. destruct (Z.eqb_spec sz 0); [lia|].
    rewrite Z.rem_mod_nonneg by lia.
    apply (image_step m m' dst bits _ (fun i => i mod sz)); try done; try lia.
    pose proof (Z.mod_pos_bound b sz ltac:(lia)). lia.
  - intros b b' m' Hb Hno HI. eapply image_skip; [done| |done]. intros i Hi. by rewrite Hno.
  - exists m'. split; [exact Hm'|]. destruct Hres as (H1 & H2 & H3). split_and!; [done|done|].
    intros x Hx. by rewrite H3.
Qed.

(** [bitmap_onto]: bit [n] of the result is set iff it is the [m]-th set bit of
    [relmap] for some [m] set in [orig]. *)
Lemma onto_correct m dst orig relmap bits lo lr :
  m !! orig = Some lo -> m !! relmap = Some lr -> is_bitmap m dst bits ->
  dst <> orig -> dst <> relmap -> bitmap_wf lo -> bitmap_wf lr ->
  0 <= bits <= 64 * zlen lo -> bits <= 64 * zlen lr -> bits < 2 ^ 31 ->
  exists m', bitmap_onto m dst orig relmap bits = Some m' /\
    is_bitmap m' dst bits /\ (forall p, p <> dst -> m' !! p = m !! p) /\
    forall n, 0 <= n < bits -> mbit m' dst n = bit lr n && bit lo (rank (bit lr) n).
Proof.
  intros Hlo Hlr Hd Hne1 Hne2 Hwo Hwr Hbo Hbr Hint. unfold bitmap_onto. rewrite decide_False by done.
  destruct (bitmap_zero_spec m dst bits ltac:(lia) Hd) as (m0 & -> & Hz). simpl.
  set (P := fun i => bit lr i = true /\ bit lo (rank (bit lr) i) = true).
  apply (image_start m m0 dst bits P (fun i => i)) in Hz.
  match goal with |- context [for_each_bit bits ?src ?body (0, m0)] =>
    destruct (for_each_bit_rule bits src body (0, m0) lr
      (fun b '(k, m') => k = rank (bit lr) b /\ image_below m m' dst bits P (fun i => i) b))
      as ([k m'] & Hm' & _ & Hres) end; [done|lia|done|done| | | |].
  - intros b [k m'] [_ HI]. by apply (image_block _ _ _ _ _ _ _ relmap lr HI).
  - intros b [k m'] Hb Hset [-> HI]. rewrite (image_block _ _ _ _ _ _ _ orig lo HI) by done. simpl.
    pose proof (count_bounds (bit lr) 0 (Z.to_nat b)).
    rewrite test_bit_spec by (done || lia). simpl.
    destruct (bit lo (rank (bit lr) b)) eqn:Eb.
    + destruct (image_step m m' dst bits P (fun i => i) b HI) as (m'' & -> & HI'); [lia|done|lia|].
      simpl. eexists. split; [done|]. split; [|done]. by rewrite rank_succ, Hset by lia.
    + simpl. eexists. split; [done|]. split; [by rewrite rank_succ, Hset by lia|].
      eapply image_skip; [|  |exact HI]; [lia|]. intros i Hi [_ ?]. replace i with b in * by lia. congruence.
  - intros b b' [k m'] Hb Hno [-> HI]. split; [symmetry; by apply rank_skip|].
    eapply image_skip; [done| |done]. intros i Hi [? _]. by rewrite Hno in *.
  - rewrite Hm'. simpl. exists m'. split; [done|]. destruct Hres as (H1 & H2 & H3).
    split_and!; [done|done|]. intros n Hn. apply eq_true_iff_eq. rewrite H3, andb_true_iff by done.
    split; [intros (i & _ & [] & ->); done|]. intros []. exists n. split; [lia|]. done.
Qed.

(** * Properties *)

(** Well-formedness of concrete bitmaps, by evaluation. *)
Definition wfb (l : list Z) : bool := forallb (fun w => (0 <=? w) && (w <? 2 ^ 64)) l.

Lemma wfb_wf l : wfb l = true -> bitmap_wf l.
Proof.
  unfold wfb, bitmap_wf. rewrite forallb_forall, List.Forall_forall. intros H w Hw.
  specialize (H w Hw). unfold is_word. lia.
Qed.

Lemma is_bitmapb m p bits :
  match m !! p with Some l => wfb l && (bits <=? 64 * zlen l) | None => false end = true ->
  is_bitmap m p bits.
Proof.
  destruct (m !! p) as [l|] eqn:E; [|done]. rewrite andb_true_iff. intros [Hw Hl].
  exists l. split_and!; [done|by apply wfb_wf|lia].
Qed.

Definition two_maps (l1 l2 : list Z) : mem := <[1%positive := l1]> (<[2%positive := l2]> ∅).

(** C40 The bit primitives under the bitmaps. The five searches of
    lib/find_next_bit.c and lib/find_last_bit.c return the least (the greatest)
    position below [size], at or after the offset, where the bit is set (clear),
    and [size] when there is none; no access is outside the words of the bitmap.
    Each population count of lib/hweight.c, the multiplying and the adding 64-bit
    variants included, is the number of set bits of its argument, although the
    partial sums are computed in lanes of one machine word. *)
Theorem bit_primitives_correct l size offset w :
  bitmap_wf l -> is_u64 size -> size <= 64 * zlen l -> is_u64 offset ->
  (exists r, find_next_bit l size offset = Some r /\ is_next (bit l) size offset r) /\
  (exists r, find_next_zero_bit l size offset = Some r /\
     is_next (fun i => negb (bit l i)) size offset r) /\
  (exists r, find_first_bit l size = Some r /\ is_next (bit l) size 0 r) /\
  (exists r, find_first_zero_bit l size = Some r /\ is_next (fun i => negb (bit l i)) size 0 r) /\
  (exists r, find_last_bit l size = Some r /\ is_last (bit l) size r) /\
  (is_word 8 w -> hweight8 w = count (Z.testbit w) 0 8) /\
  (is_word 16 w -> hweight16 w = count (Z.testbit w) 0 16) /\
  (is_u32 w -> hweight32 w = count (Z.testbit w) 0 32) /\
  (is_u64 w -> hweight64 w = count (Z.testbit w) 0 64 /\ hweight64_mul w = count (Z.testbit w) 0 64).
Proof.
  intros. split_and!; [by apply find_next_bit_is_next|by apply find_next_zero_bit_is_next|
    by apply find_first_bit_is_next|by apply find_first_zero_bit_is_next|by apply find_last_bit_is_last|
    apply hweight8_count|apply hweight16_count|apply hweight32_count|].
  intros Hw. split; [by apply hweight64_count|by apply hweight64_mul_count].
Qed.

Lemma bit_primitives_correct_witness :
  (exists r, find_next_bit [1; 0; 6] 190 1 = Some r /\ is_next (bit [1; 0; 6]) 190 1 r /\ r = 129) /\
  hweight64_mul 0xfedcba9876543210 = 32.
Proof.
  destruct (bit_primitives_correct [1; 0; 6] 190 1 0xfedcba9876543210)
    as ((r & Hr & Hn) & _ & _ & _ & _ & _ & _ & _ & Hw);
    [repeat constructor; done|done|by vm_compute|done|].
  split; [|destruct Hw as [_ ->]; [by unfold is_word|]; by vm_compute].
  exists r. split; [done|]. split; [done|]. vm_compute in Hr. by injection Hr as <-.
Defined.

(** C39 The word-wise operations set the bits of the destination below [bits] to
    the Boolean combination of the bits the operands had before the call, also
    when the destination is one of the operands, and change no other object.  The
    truth values of [__bitmap_and] and [__bitmap_andnot] are those of whole words:
    unused bits of the last word count, so that two bitmaps without a common bit
    below [bits] can give true.  The shifts move every bit by [shift] positions, fill
    with zeros, take no bit from beyond [bits], and may work in place.  The predicates
    look at exactly the bits below [bits]: emptiness, fullness, equality, intersection
    and inclusion are those of the sets of set bits, and the weight is their number,
    whatever the unused bits of the last word hold. *)
Theorem bitmap_wordwise_ops_correct m dst b1 b2 bits :
  0 <= bits -> is_bitmap m dst bits -> is_bitmap m b1 bits -> is_bitmap m b2 bits ->
  (exists m', __bitmap_or m dst b1 b2 bits = Some m' /\
     result_bits m m' dst bits (fun i => mbit m b1 i || mbit m b2 i)) /\
  (exists m', __bitmap_xor m dst b1 b2 bits = Some m' /\
     result_bits m m' dst bits (fun i => xorb (mbit m b1 i) (mbit m b2 i))) /\
  (exists m' r, __bitmap_and m dst b1 b2 bits = Some (m', r) /\
     result_bits m m' dst bits (fun i => mbit m b1 i && mbit m b2 i) /\
     (r = false <-> forall k, 0 <= k < BITS_TO_LONGS bits -> Z.land (mword m b1 k) (mword m b2 k) = 0)) /\
  (exists m' r, __bitmap_andnot m dst b1 b2 bits = Some (m', r) /\
     result_bits m m' dst bits (fun i => mbit m b1 i && negb (mbit m b2 i)) /\
     (r = false <-> forall k, 0 <= k < BITS_TO_LONGS bits ->
        Z.land (mword m b1 k) (not64 (mword m b2 k)) = 0)) /\
  (exists m', __bitmap_complement m dst b1 bits = Some m' /\
     result_bits m m' dst bits (fun i => negb (mbit m b1 i))) /\
  (forall shift, 0 <= shift -> shift / 64 <= BITS_TO_LONGS bits ->
     (exists m', __bitmap_shift_right m dst b1 shift bits = Some m' /\
        result_bits m m' dst bits (fun i => (i + shift <? bits) && mbit m b1 (i + shift))) /\
     (exists m', __bitmap_shift_left m dst b1 shift bits = Some m' /\
        result_bits m m' dst bits (fun i => (shift <=? i) && mbit m b1 (i - shift)))) /\
  (forall l1 l2, bitmap_wf l1 -> bitmap_wf l2 -> bits <= 64 * zlen l1 -> bits <= 64 * zlen l2 ->
     __bitmap_empty l1 bits = Some (if any_bit (bit l1) bits then 0 else 1) /\
     __bitmap_full l1 bits = Some (if any_bit (fun i => negb (bit l1 i)) bits then 0 else 1) /\
     __bitmap_equal l1 l2 bits = Some (if any_bit (fun i => xorb (bit l1 i) (bit l2 i)) bits then 0 else 1) /\
     __bitmap_intersects l1 l2 bits = Some (if any_bit (fun i => bit l1 i && bit l2 i) bits then 1 else 0) /\
     __bitmap_subset l1 l2 bits =
       Some (if any_bit (fun i => bit l1 i && negb (bit l2 i)) bits then 0 else 1) /\
     __bitmap_weight l1 bits = Some (count (bit l1) 0 (Z.to_nat bits))) /\
  (exists m', __bitmap_and (two_maps [9] [12]) 1 1 2 3 = Some (m', true)) /\
  __bitmap_intersects [9] [12] 3 = Some 0.
Proof.
  intros Hb Hd H1 H2. split_and!; [by apply bitmap_or_spec|by apply bitmap_xor_spec|by apply bitmap_and_spec|
    by apply bitmap_andnot_spec|by apply bitmap_complement_spec| | | |by vm_compute].
  - intros. split; [by apply bitmap_shift_right_spec|by apply bitmap_shift_left_spec].
  - intros l1 l2 Hw1 Hw2 Hb1 Hb2. split_and!; [by apply bitmap_empty_spec|by apply bitmap_full_spec|
      by apply bitmap_equal_spec|by apply bitmap_intersects_spec|by apply bitmap_subset_spec|by apply bitmap_weight_spec].
  - eexists. vm_compute. reflexivity.
Qed.

Lemma bitmap_wordwise_ops_correct_witness :
  (exists m', __bitmap_xor (two_maps [5; 1] [4; 3]) 1 1 2 66 = Some m' /\
    mbit m' 1 2 = false /\ mbit m' 1 65 = true) /\
  (exists m', __bitmap_shift_left (two_maps [5; 1] [4; 3]) 1 1 63 66 = Some m' /\
    mbit m' 1 63 = true /\ mbit m' 1 64 = false /\ mbit m' 1 65 = true).
Proof.
  destruct (bitmap_wordwise_ops_correct (two_maps [5; 1] [4; 3]) 1 1 2 66) as (_ & Hx & _ & _ & _ & Hs & _);
    [lia|by apply is_bitmapb; vm_compute..|].
  destruct (Hs 63) as [_ (m1 & Hm1 & _)]; [lia|by vm_compute|].
  destruct Hx as (m' & Hm & Hr). split; [exists m'|exists m1]; (split; [done|]).
  - vm_compute in Hm. injection Hm as <-. by vm_compute.
  - vm_compute in Hm1. injection Hm1 as <-. by vm_compute.
Defined.

(** C37 [bitmap_find_free_region] allocates the first aligned free block of
    [2^order] bits below [bits], or fails with [-ENOMEM] exactly when there is
    none, and changes nothing else, as long as [bits + 2^order] is an [int].
    [bitmap_allocate_region] succeeds exactly when the aligned block is free, reports
    [-EBUSY] and changes nothing otherwise, and [bitmap_release_region], which clears
    exactly the block, undoes it.
    For order 31 the size wraps around to a negative number: the search
    then reports success at 0 for every bitmap and allocates nothing. *)
Theorem bitmap_regions_correct l order :
  bitmap_wf l -> 0 <= order < 31 ->
  let free pos := forall x, pos <= x < pos + 2 ^ order -> bit l x = false in
  let taken l' pos := forall x, 0 <= x -> bit l' x = (pos <=? x) && (x <? pos + 2 ^ order) || bit l x in
  (forall bits, 0 <= bits <= 64 * zlen l -> bits + 2 ^ order < 2 ^ 31 ->
   exists l' r, bitmap_find_free_region l bits order = Some (l', r) /\
    ((r = - ENOMEM /\ l' = l /\
      forall pos, pos mod 2 ^ order = 0 -> 0 <= pos -> pos + 2 ^ order <= bits -> ~ free pos) \/
     (0 <= r /\ r + 2 ^ order <= bits /\ r mod 2 ^ order = 0 /\ free r /\
      (forall pos, pos mod 2 ^ order = 0 -> 0 <= pos < r -> ~ free pos) /\
      bitmap_wf l' /\ zlen l' = zlen l /\ taken l' r))) /\
  (forall pos, 0 <= pos -> pos mod 2 ^ order = 0 -> pos + 2 ^ order <= 64 * zlen l ->
   exists l' r, bitmap_allocate_region l pos order = Some (l', r) /\
    ((r = 0 /\ free pos /\ bitmap_wf l' /\ taken l' pos /\
      exists l'', bitmap_release_region l' pos order = Some l'' /\
        forall x, 0 <= x -> bit l'' x = bit l x) \/
     (r = - EBUSY /\ l' = l /\ exists x, pos <= x < pos + 2 ^ order /\ bit l x = true))) /\
  (forall pos, 0 <= pos -> pos mod 2 ^ order = 0 -> pos + 2 ^ order <= 64 * zlen l ->
   exists l', bitmap_release_region l pos order = Some l' /\ bitmap_wf l' /\ zlen l' = zlen l /\
     forall x, 0 <= x -> bit l' x = if (pos <=? x) && (x <? pos + 2 ^ order) then false else bit l x) /\
  (forall bits, 0 <= bits < 2 ^ 31 -> bitmap_find_free_region l bits 31 = Some (l, 0)).
Proof.
  intros Hl Ho free taken. split; [intros bits Hb Hi; by apply find_free_region_first_fit|].
  split; [|split; [|apply find_free_region_wraps]].
  2: { intros pos Hp Hm Hz. destruct (region_release pos order Hp Ho Hm l Hl Hz) as (l' & Hr & Hx).
       exists l'. unfold bitmap_release_region. by rewrite Hr. }
  intros pos Hp Hm Hz. destruct (allocate_region_correct l pos order) as (l' & r & Ha & Hr); [done..|].
  exists l', r. split; [done|]. destruct Hr as [(-> & Hfree & Hw & Hb)|Hr]; [left|by right].
  split_and!; try done. by eapply release_allocated_region.
Qed.

Lemma bitmap_regions_correct_witness :
  (exists l' r, bitmap_find_free_region [0x1d; 0] 100 2 = Some (l', r) /\ r = 8 /\ bit l' 9 = true) /\
  (exists l' r, bitmap_allocate_region [0x1d; 0] 64 6 = Some (l', r) /\ r = 0 /\ bit l' 127 = true).
Proof.
  split.
  - destruct (bitmap_regions_correct [0x1d; 0] 2) as [Hf _]; [by apply wfb_wf|lia|].
    destruct (Hf 100) as (l' & r & Hr & _); [by vm_compute|by vm_compute|].
    exists l', r. split; [done|]. vm_compute in Hr. injection Hr as <- <-. by vm_compute.
  - destruct (bitmap_regions_correct [0x1d; 0] 6) as (_ & Ha & _); [by apply wfb_wf|lia|].
    destruct (Ha 64) as (l' & r & Hr & _); [lia|by vm_compute|by vm_compute|].
    exists l', r. split; [done|]. vm_compute in Hr. injection Hr as <- <-. by vm_compute.
Defined.

(** Rank and select. *)
Lemma pos_ord_inverse l bits pos ord :
  bitmap_wf l -> 0 <= bits <= 64 * zlen l -> bits < 2 ^ 31 ->
  bitmap_pos_to_ord l pos bits =
    Some (if (0 <=? pos) && (pos <? bits) && bit l pos then rank (bit l) pos else -1) /\
  (0 <= pos < bits -> bit l pos = true ->
     bitmap_ord_to_pos l (rank (bit l) pos) bits = Some pos) /\
  (0 <= ord < rank (bit l) bits -> exists p, bitmap_ord_to_pos l ord bits = Some p /\
     bitmap_pos_to_ord l p bits = Some ord).
Proof.
  intros Hl Hb Hs. split_and!.
  - by apply pos_to_ord_rank.
  - intros Hp Hbit. destruct (ord_to_pos_select l bits Hl Hb Hs (rank (bit l) pos)) as (p & -> & Hsel).
    f_equal. destruct Hsel as [(_ & Hp2 & Hb2 & Hr)|[Hn _]].
    + apply (rank_inj (bit l)); (done || lia).
    + destruct Hn. pose proof (rank_mono (bit l) 0 pos ltac:(lia)).
      pose proof (rank_mono (bit l) (pos + 1) bits ltac:(lia)).
      rewrite rank_succ, Hbit in H0 by lia. simpl in *. lia.
  - intros Ho. destruct (ord_to_pos_select l bits Hl Hb Hs ord) as (p & Hp & Hsel). exists p. split; [done|].
    destruct Hsel as [(_ & Hp2 & Hb2 & Hr)|[Hn _]]; [|done].
    rewrite pos_to_ord_rank, Hb2, Hr by done. zcases.
Qed.

(** C38 [bitmap_bitremap] sends the n-th set bit of [old] to the n-th set bit of
    [new], counted modulo the weight of [new], and leaves bits outside [old]
    where they are; [bitmap_remap] is the image of a set under that map.
    [bitmap_onto] puts the n-th bit of [src] at the n-th set bit of [old], and
    [bitmap_fold] is the image of [src] modulo [sz].  Underneath,
    [bitmap_pos_to_ord] is the number of set bits below a set bit,
    [bitmap_ord_to_pos] finds the set bit with a given number, and each undoes
    the other. *)
Theorem bitmap_relative_maps_correct m dst src old new sz bits lo ln ls :
  m !! old = Some lo -> m !! new = Some ln -> m !! src = Some ls -> is_bitmap m dst bits ->
  dst <> src -> dst <> old -> dst <> new -> bitmap_wf lo -> bitmap_wf ln -> bitmap_wf ls ->
  0 <= bits <= 64 * zlen lo -> bits <= 64 * zlen ln -> bits <= 64 * zlen ls -> bits < 2 ^ 31 -> 0 < sz <= bits ->
  (forall i, exists x, bitmap_bitremap i lo ln bits = Some x /\
     (if (0 <=? i) && (i <? bits) && bit lo i && negb (rank (bit ln) bits =? 0)
      then 0 <= x < bits /\ bit ln x = true /\ rank (bit ln) x = rank (bit lo) i mod rank (bit ln) bits
      else x = i)) /\
  (exists m', bitmap_remap m dst src old new bits = Some m' /\
     is_bitmap m' dst bits /\ (forall p, p <> dst -> m' !! p = m !! p) /\
     forall x, 0 <= x < bits -> mbit m' dst x = true <->
       exists i, 0 <= i < bits /\ bit ls i = true /\ bitmap_bitremap i lo ln bits = Some x) /\
  (exists m', bitmap_onto m dst src old bits = Some m' /\
     is_bitmap m' dst bits /\ (forall p, p <> dst -> m' !! p = m !! p) /\
     forall n, 0 <= n < bits -> mbit m' dst n = bit lo n && bit ls (rank (bit lo) n)) /\
  (exists m', bitmap_fold m dst src sz bits = Some m' /\
     is_bitmap m' dst bits /\ (forall p, p <> dst -> m' !! p = m !! p) /\
     forall x, 0 <= x < bits -> mbit m' dst x = true <->
       exists i, 0 <= i < bits /\ bit ls i = true /\ i mod sz = x) /\
  (forall pos ord,
     bitmap_pos_to_ord lo pos bits =
       Some (if (0 <=? pos) && (pos <? bits) && bit lo pos then rank (bit lo) pos else -1) /\
     (0 <= pos < bits -> bit lo pos = true -> bitmap_ord_to_pos lo (rank (bit lo) pos) bits = Some pos) /\
     (0 <= ord < rank (bit lo) bits -> exists p, bitmap_ord_to_pos lo ord bits = Some p /\
        bitmap_pos_to_ord lo p bits = Some ord)).
Proof.
  intros. split; [intros i; by apply bitremap_total|]. split; [by eapply remap_correct|].
  split; [eapply onto_correct; (done || lia)|]. split; [eapply fold_correct; (done || lia)|].
  intros pos ord. by apply pos_ord_inverse.
Qed.

(** Four bitmaps of one word. *)
Definition four_maps (a b c d : Z) : mem :=
  <[1%positive := [a]]> (<[2%positive := [b]]> (<[3%positive := [c]]> (<[4%positive := [d]]> ∅))).

Lemma bitmap_relative_maps_correct_witness :
  (exists m', bitmap_remap (four_maps 0 0xf1 0xf0 0xf000) 1 2 3 4 20 = Some m' /\
    mbit m' 1 12 = true /\ mbit m' 1 0 = true) /\
  (exists m', bitmap_onto (four_maps 0 0x5 0xf0 0) 1 2 3 20 = Some m' /\
    mbit m' 1 4 = true /\ mbit m' 1 5 = false /\ mbit m' 1 6 = true).
Proof.
  split.
  - destruct (bitmap_relative_maps_correct (four_maps 0 0xf1 0xf0 0xf000) 1 2 3 4 4 20 [0xf0] [0xf000] [0xf1])
      as (_ & (m' & Hm & _ & _ & Hi) & _);
      [by vm_compute|by vm_compute|by vm_compute|by apply is_bitmapb; vm_compute|done|done|done|
       by apply wfb_wf|by apply wfb_wf|by apply wfb_wf|by vm_compute|by vm_compute|by vm_compute|lia|lia|].
    exists m'. split; [done|]. split.
    + apply Hi; [lia|]. exists 4. split_and!; [lia|lia|by vm_compute|by vm_compute].
    + apply Hi; [lia|]. exists 0. split_and!; [lia|lia|by vm_compute|by vm_compute].
  - destruct (bitmap_relative_maps_correct (four_maps 0 0x5 0xf0 0) 1 2 3 4 4 20 [0xf0] [0] [0x5])
      as (_ & _ & (m' & Hm & _ & _ & Hi) & _);
      [by vm_compute|by vm_compute|by vm_compute|by apply is_bitmapb; vm_compute|done|done|done|
       by apply wfb_wf|by apply wfb_wf|by apply wfb_wf|by vm_compute|by vm_compute|by vm_compute|lia|lia|].
    exists m'. split; [exact Hm|]. rewrite !Hi by lia. vm_compute. repeat split.
Defined.
