(* ===== verification/Kfifo.v ===== *)
(** The byte FIFO of kernel/kfifo.c and linux/kfifo.h.

    [kfifo] is the structure with its buffer; [kfifo_alloc], [kfifo_init],
    [__kfifo_put], [__kfifo_get], [kfifo_get], [__kfifo_reset] and [__kfifo_len]
    are its operations.  They refine a queue of bytes of bounded length although
    the two indices are 32-bit counters that wrap.  The second half is the
    interleaving of one writer and one reader without a lock, byte by byte. *)
From Stdlib Require Import ZArith Lia Bool.
From stdpp Require Import base numbers list gmap option.
From S2P Require Import Prelude FindBit.

Local Open Scope Z_scope.

(** * Definitions *)

Record kfifo : Type := Kfifo {
  buffer : list Z;
  size : Z;
  in_ : Z;
  out : Z
}.

(** linux/log2.h, for sizes in the range of [unsigned int]. *)
Definition is_power_of_2 (n : Z) : bool := negb (n =? 0) && (Z.land n (n - 1) =? 0).
Definition fls_long (l : Z) : Z := if l =? 0 then 0 else __fls l + 1.
Definition roundup_pow_of_two (n : Z) : Z := shl64 1 (fls_long (u64 (n - 1))).

(** [BUG_ON(!is_power_of_2(size))]; [mem] is the outcome of [kmalloc] for the
    structure.  The lock is a pointer that is only stored. *)
Definition kfifo_init (buffer : list Z) (size : Z) (mem : bool) : option (Z + kfifo) :=
  if negb (is_power_of_2 size) then None
  else if negb mem then Some (inl (- ENOMEM))
  else Some (inr (Kfifo buffer size 0 0)).

(** [kmalloc size] yields the buffer's initial contents, or [None] when it fails. *)
Definition kfifo_alloc (size : Z) (kmalloc : Z -> option (list Z)) (mem : bool)
  : option (Z + kfifo) :=
  size ← (if negb (is_power_of_2 size) then
            if 0x80000000 <? size then None else Some (u32 (roundup_pow_of_two size))
          else Some size);
  match kmalloc size with
  | None => Some (inl (- ENOMEM))
  | Some buffer => kfifo_init buffer size mem
  end.

Definition __kfifo_put (fifo : kfifo) (buf : list Z) (len : Z) : option (kfifo * Z) :=
  let len := Z.min len (u32 (u32 (size fifo - in_ fifo) + out fifo)) in
  let l := Z.min len (u32 (size fifo - Z.land (in_ fifo) (size fifo - 1))) in
  b ← memcpy (buffer fifo) (Z.land (in_ fifo) (size fifo - 1)) buf 0 l;
  b ← memcpy b 0 buf l (len - l);
  Some (Kfifo b (size fifo) (u32 (in_ fifo + len)) (out fifo), len).

(** Returns the FIFO, the caller's buffer and the number of bytes copied. *)
Definition __kfifo_get (fifo : kfifo) (buf : list Z) (len : Z) : option (kfifo * list Z * Z) :=
  let len := Z.min len (u32 (in_ fifo - out fifo)) in
  let l := Z.min len (u32 (size fifo - Z.land (out fifo) (size fifo - 1))) in
  buf ← memcpy buf 0 (buffer fifo) (Z.land (out fifo) (size fifo - 1)) l;
  buf ← memcpy buf l (buffer fifo) 0 (len - l);
  Some (Kfifo (buffer fifo) (size fifo) (in_ fifo) (u32 (out fifo + len)), buf, len).

Definition __kfifo_reset (fifo : kfifo) : kfifo := Kfifo (buffer fifo) (size fifo) 0 0.

Definition __kfifo_len (fifo : kfifo) : Z := u32 (in_ fifo - out fifo).

(** The locked [kfifo_get] also resets the indices of an empty FIFO. *)
Definition kfifo_get (fifo : kfifo) (buf : list Z) (len : Z) : option (kfifo * list Z * Z) :=
  '(fifo, buf, ret) ← __kfifo_get fifo buf len;
  let fifo := if in_ fifo =? out fifo then Kfifo (buffer fifo) (size fifo) 0 0 else fifo in
  Some (fifo, buf, ret).

(** * Invariant and abstraction *)

Definition kfifo_wf (f : kfifo) : Prop :=
  (exists k, 0 <= k <= 31 /\ size f = 2 ^ k) /\
  zlen (buffer f) = size f /\ is_u32 (in_ f) /\ is_u32 (out f) /\
  __kfifo_len f <= size f.

(** The queued bytes, oldest first. *)
Definition contents (f : kfifo) : list Z :=
  (fun i => buffer f !!! Z.to_nat ((out f + i) mod size f)) <$> seqZ 0 (__kfifo_len f).

Lemma contents_zlen f : kfifo_wf f -> zlen (contents f) = __kfifo_len f.
Proof.
  intros _. unfold zlen, contents. rewrite length_fmap, length_seqZ.
  pose proof (wrap_range 32 (in_ f - out f) ltac:(lia)). unfold __kfifo_len, is_word in *. lia.
Qed.

Lemma contents_lookup f i :
  0 <= i < __kfifo_len f ->
  contents f !! Z.to_nat i = Some (buffer f !!! Z.to_nat ((out f + i) mod size f)).
Proof.
  intros Hi. unfold contents. rewrite list_lookup_fmap, lookup_seqZ_lt by lia. simpl.
  by rewrite Z2Nat.id by lia.
Qed.

(** Positions of the ring at distance below [n] are distinct. *)
Lemma mod_neq n a b : 0 < n -> a < b < a + n -> a mod n <> b mod n.
Proof.
  intros Hn Hab E. assert (Hd : (b - a) mod n = 0).
  { rewrite Zminus_mod, E, Z.sub_diag. apply Z.mod_0_l. lia. }
  rewrite Z.mod_small in Hd by lia. lia.
Qed.

(** Walking [i] steps from [a] in a ring of [n]. *)
Lemma ring_walk n a i :
  0 < n -> 0 <= i < n ->
  (a + i) mod n = if a mod n + i <? n then a mod n + i else a mod n + i - n.
Proof.
  intros Hn Hi. pose proof (Z.mod_pos_bound a n Hn). destruct (Z.ltb_spec (a mod n + i) n).
  - rewrite Z.add_mod, (Z.mod_small i) by lia. apply Z.mod_small. lia.
  - rewrite Z.add_mod, (Z.mod_small i) by lia.
    symmetry. apply (Z.mod_unique _ _ 1); lia.
Qed.

(** Two block copies into a ring, up to its end and then from its start. *)
Lemma ring_write (buf : list Z) n a (data : list Z) len :
  zlen buf = n -> 0 <= a < n -> 0 <= len <= n -> len <= zlen data ->
  let l := Z.min len (n - a) in
  exists b, (b ← memcpy buf a data 0 l; memcpy b 0 data l (len - l)) = Some b /\ zlen b = n /\
    (forall i, 0 <= i < len ->
       b !!! Z.to_nat (if a + i <? n then a + i else a + i - n) = data !!! Z.to_nat i) /\
    (forall p, 0 <= p < n -> (forall i, 0 <= i < len -> (if a + i <? n then a + i else a + i - n) <> p) ->
       b !!! Z.to_nat p = buf !!! Z.to_nat p).
Proof.
  intros Hb Ha Hlen Hd l. rewrite memcpy_spec by lia. simpl.
  rewrite memcpy_spec by (rewrite ?setw_zlen; lia). eexists. split; [done|].
  rewrite !setw_zlen. split; [done|].
  assert (Hget : forall (x : list Z) p v, 0 <= p < zlen x -> aget x p = Some v -> x !!! Z.to_nat p = v).
  { intros x p v Hp Hv. rewrite aget_lookup_total in Hv by done. by simplify_eq. }
  split.
  - intros i Hi. apply Hget; [rewrite !setw_zlen; zcases|].
    rewrite !setw_aget by (rewrite ?setw_zlen; zcases).
    destruct (Z.ltb_spec (a + i) n).
    + zcases. do 3 f_equal. lia.
    + zcases. do 3 f_equal. lia.
  - intros p Hp Hno. apply Hget; [rewrite !setw_zlen; lia|].
    rewrite !setw_aget by (rewrite ?setw_zlen; lia). rewrite aget_lookup_total by lia.
    destruct (Z.leb_spec 0 p), (Z.ltb_spec p (0 + (len - l))); simpl; try lia.
    + specialize (Hno (p + l) ltac:(lia)). revert Hno. zcases.
    + destruct (Z.leb_spec a p), (Z.ltb_spec p (a + l)); simpl; try done.
      specialize (Hno (p - a) ltac:(lia)). revert Hno. zcases.
Qed.

Lemma kfifo_size_facts f :
  kfifo_wf f -> 0 < size f <= 2 ^ 31 /\
  (forall x, Z.land x (size f - 1) = x mod size f) /\ (forall x, u32 x mod size f = x mod size f).
Proof.
  intros ((k & Hk & Hs) & _). rewrite Hs. split_and!.
  - apply Z.pow_pos_nonneg; lia.
  - apply Z.pow_le_mono_r; lia.
  - intros. apply land_pow2_sub1. lia.
  - intros. apply mod_mod_pow2. lia.
Qed.

Lemma u32_add_mod x y : u32 (u32 x + y) = u32 (x + y).
Proof. unfold wrap. rewrite Z.add_mod_idemp_l by lia. done. Qed.

Lemma u32_sub_mod x y : u32 (x - u32 y) = u32 (x - y).
Proof. unfold wrap. by rewrite Zminus_mod_idemp_r. Qed.

(** Free space as the code computes it. *)
Lemma kfifo_free f : kfifo_wf f ->
  u32 (u32 (size f - in_ f) + out f) = size f - __kfifo_len f.
Proof.
  intros Hf. pose proof (kfifo_size_facts f Hf) as (Hs & _ & _). destruct Hf as (_ & _ & _ & _ & Hl).
  rewrite u32_add_mod. replace (size f - in_ f + out f) with (size f - (in_ f - out f)) by lia.
  rewrite <- u32_sub_mod. fold (__kfifo_len f). apply wrap_small.
  pose proof (wrap_range 32 (in_ f - out f) ltac:(lia)). unfold __kfifo_len, is_word in *. lia.
Qed.

(** Both sequences of bytes, compared index by index. *)
Lemma contents_eq f q :
  zlen q = __kfifo_len f ->
  (forall i, 0 <= i < __kfifo_len f ->
     buffer f !!! Z.to_nat ((out f + i) mod size f) = q !!! Z.to_nat i) ->
  0 <= __kfifo_len f -> contents f = q.
Proof.
  intros Hq Hi H0. apply list_eq. intros j. unfold zlen in Hq.
  destruct (decide (j < length q)%nat).
  - replace j with (Z.to_nat (Z.of_nat j)) by lia.
    rewrite contents_lookup, Hi, list_lookup_lookup_total_lt by lia. done.
  - rewrite !lookup_ge_None_2; [done|lia|]. unfold contents. rewrite length_fmap, length_seqZ. lia.
Qed.

Lemma contents_total f i :
  0 <= i < __kfifo_len f ->
  contents f !!! Z.to_nat i = buffer f !!! Z.to_nat ((out f + i) mod size f).
Proof. intros Hi. apply list_lookup_total_correct. by rewrite contents_lookup. Qed.

Lemma kfifo_len_range f : is_u32 (__kfifo_len f).
Proof. by apply wrap_range. Qed.

(** The write position follows the last queued byte. *)
Lemma in_position f j : kfifo_wf f ->
  (in_ f + j) mod size f = (out f + __kfifo_len f + j) mod size f.
Proof.
  intros Hf. pose proof (kfifo_size_facts f Hf) as (Hs & _ & Hm32).
  rewrite <- (Z.add_mod_idemp_l (out f + _)), <- (Hm32 (out f + __kfifo_len f)) by lia.
  rewrite <- (Z.add_mod_idemp_l (in_ f)), <- (Hm32 (in_ f)) by lia. do 3 f_equal.
  unfold __kfifo_len. rewrite Z.add_comm, u32_add_mod. f_equal. lia.
Qed.

(** [__kfifo_put] appends as many bytes as fit. *)
Lemma put_refines f data len :
  kfifo_wf f -> 0 <= len <= zlen data ->
  exists f' n, __kfifo_put f data len = Some (f', n) /\ kfifo_wf f' /\
    n = Z.min len (size f - zlen (contents f)) /\ size f' = size f /\
    contents f' = contents f ++ take (Z.to_nat n) data.
Proof.
  intros Hf Hlen. pose proof (kfifo_size_facts f Hf) as (Hs & Hland & Hm32).
  pose proof (kfifo_len_range f) as Hlr. unfold is_word in Hlr.
  rewrite contents_zlen by done. unfold __kfifo_put. rewrite kfifo_free, Hland by done.
  pose proof Hf as (Hp2 & Hbl & Hin & Hout & Hle).
  set (n := Z.min len (size f - __kfifo_len f)). set (a := in_ f mod size f).
  assert (Ha : 0 <= a < size f) by (apply Z.mod_pos_bound; lia).
  rewrite (wrap_small 32 (size f - a)) by word_lia.
  destruct (ring_write (buffer f) (size f) a data n) as (b & Hw & Hbz & Hnew & Hold); [done|lia|lia|lia|].
  eexists _, _. split.
  { destruct (memcpy (buffer f) a data 0 (Z.min n (size f - a))) as [b0|]; [|done].
    simpl in Hw |- *. rewrite Hw. done. }
  set (f' := Kfifo b (size f) (u32 (in_ f + n)) (out f)).
  assert (Hlen' : __kfifo_len f' = __kfifo_len f + n).
  { unfold __kfifo_len, f'; simpl. replace (u32 (in_ f + n) - out f) with (u32 (in_ f + n) + - out f) by lia.
    rewrite u32_add_mod. replace (in_ f + n + - out f) with ((in_ f - out f) + n) by lia.
    rewrite <- u32_add_mod. fold (__kfifo_len f). apply wrap_small. unfold is_word. lia. }
  split_and!; [|done|done|].
  { split_and!; [done|done|by apply wrap_range|done|rewrite Hlen'; simpl; lia]. }
  apply contents_eq; [|rewrite Hlen'|lia].
  { rewrite Hlen'. unfold zlen. rewrite length_app, length_take, Nat2Z.inj_add.
    fold (zlen (contents f)). rewrite contents_zlen by done. unfold zlen in Hlen. lia. }
  intros i Hi. simpl. pose proof (contents_zlen f Hf) as Hcz. unfold zlen in Hcz.
  destruct (Z.lt_ge_cases i (__kfifo_len f)).
  - rewrite lookup_total_app_l by lia. rewrite contents_total by lia. apply Hold.
    + apply Z.mod_pos_bound. lia.
    + intros j Hj. unfold a. rewrite <- ring_walk by lia.
      rewrite in_position by done. intros E. symmetry in E. revert E. apply mod_neq; lia.
  - rewrite lookup_total_app_r by lia.
    rewrite lookup_total_take_lt by lia.
    replace (Z.to_nat i - length (contents f))%nat with (Z.to_nat (i - __kfifo_len f)) by lia.
    rewrite <- Hnew by lia. unfold a. rewrite <- ring_walk, in_position by (done || lia).
    do 3 f_equal. lia.
Qed.

(** Two block copies out of a ring. *)
Lemma ring_read (buf : list Z) n a (ubuf : list Z) len :
  zlen buf = n -> 0 <= a < n -> 0 <= len <= n -> len <= zlen ubuf ->
  let l := Z.min len (n - a) in
  exists u, (u ← memcpy ubuf 0 buf a l; memcpy u l buf 0 (len - l)) = Some u /\ zlen u = zlen ubuf /\
    (forall i, 0 <= i < len ->
       u !!! Z.to_nat i = buf !!! Z.to_nat (if a + i <? n then a + i else a + i - n)) /\
    (forall i, len <= i < zlen ubuf -> u !!! Z.to_nat i = ubuf !!! Z.to_nat i).
Proof.
  intros Hb Ha Hlen Hd l. rewrite memcpy_spec by lia. simpl.
  rewrite memcpy_spec by (rewrite ?setw_zlen; lia). eexists. split; [done|].
  rewrite !setw_zlen. split; [done|].
  assert (Hget : forall (x : list Z) p v, 0 <= p < zlen x -> aget x p = Some v -> x !!! Z.to_nat p = v).
  { intros x p v Hp Hv. rewrite aget_lookup_total in Hv by done. by simplify_eq. }
  split; intros i Hi; (apply Hget; [rewrite !setw_zlen; lia|]);
    rewrite !setw_aget by (rewrite ?setw_zlen; lia).
  - destruct (Z.ltb_spec (a + i) n).
    + zcases. do 3 f_equal. lia.
    + zcases. do 3 f_equal. lia.
  - rewrite aget_lookup_total by lia. zcases.
Qed.

(** [__kfifo_get] removes as many of the oldest bytes as are asked for and
    there, and copies them to the caller's buffer. *)
Lemma get_refines f ubuf len :
  kfifo_wf f -> 0 <= len <= zlen ubuf ->
  exists f' u n, __kfifo_get f ubuf len = Some (f', u, n) /\ kfifo_wf f' /\
    n = Z.min len (zlen (contents f)) /\ size f' = size f /\
    take (Z.to_nat n) u = take (Z.to_nat n) (contents f) /\
    drop (Z.to_nat n) u = drop (Z.to_nat n) ubuf /\
    contents f' = drop (Z.to_nat n) (contents f).
Proof.
  intros Hf Hlen. pose proof (kfifo_size_facts f Hf) as (Hs & Hland & Hm32).
  pose proof (kfifo_len_range f) as Hlr. unfold is_word in Hlr.
  pose proof (contents_zlen f Hf) as Hcz. rewrite Hcz. unfold zlen in Hcz.
  unfold __kfifo_get. fold (__kfifo_len f). rewrite Hland.
  pose proof Hf as (Hp2 & Hbl & Hin & Hout & Hle).
  set (n := Z.min len (__kfifo_len f)). set (a := out f mod size f).
  assert (Ha : 0 <= a < size f) by (apply Z.mod_pos_bound; lia).
  rewrite (wrap_small 32 (size f - a)) by word_lia.
  destruct (ring_read (buffer f) (size f) a ubuf n) as (u & Hw & Huz & Hnew & Hold); [done|lia|lia|lia|].
  eexists _, _, _. split.
  { destruct (memcpy ubuf 0 (buffer f) a (Z.min n (size f - a))) as [b0|]; [|done].
    simpl in Hw |- *. rewrite Hw. done. }
  set (f' := Kfifo (buffer f) (size f) (in_ f) (u32 (out f + n))).
  assert (Hlen' : __kfifo_len f' = __kfifo_len f - n).
  { unfold __kfifo_len, f'; simpl. rewrite u32_sub_mod.
    replace (in_ f - (out f + n)) with ((in_ f - out f) + - n) by lia.
    rewrite <- u32_add_mod. fold (__kfifo_len f). apply wrap_small. unfold is_word. lia. }
  unfold zlen in Huz, Hlen. split_and!; [|done|done| | |].
  { split_and!; [done|done|done|by apply wrap_range|rewrite Hlen'; simpl; lia]. }
  - apply list_eq_same_length with (n := Z.to_nat n); [rewrite length_take; lia|rewrite length_take; lia|].
    intros i x y Hi Hx Hy. rewrite lookup_take_lt in Hx, Hy by lia.
    apply list_lookup_total_correct in Hx, Hy. subst.
    replace i with (Z.to_nat (Z.of_nat i)) by lia.
    rewrite contents_total, Hnew by lia. unfold a. by rewrite <- ring_walk by lia.
  - apply list_eq_same_length with (n := (length ubuf - Z.to_nat n)%nat);
      [rewrite length_drop; lia|rewrite length_drop; lia|].
    intros i x y Hi Hx Hy. rewrite lookup_drop in Hx, Hy.
    apply list_lookup_total_correct in Hx, Hy. subst.
    replace (Z.to_nat n + i)%nat with (Z.to_nat (n + Z.of_nat i)) by lia.
    apply Hold. unfold zlen. lia.
  - apply contents_eq; [|rewrite Hlen'|lia].
    { rewrite Hlen'. unfold zlen. rewrite length_drop. lia. }
    intros i Hi. simpl. rewrite lookup_total_drop.
    replace (Z.to_nat n + Z.to_nat i)%nat with (Z.to_nat (n + i)) by lia.
    rewrite contents_total by lia. do 2 f_equal.
    rewrite <- (Z.add_mod_idemp_l (u32 _)), Hm32, Z.add_mod_idemp_l by lia. f_equal. lia.
Qed.

(** * Allocation *)

Lemma land_pred_zero n : 0 < n -> Z.land n (n - 1) = 0 -> n = 2 ^ Z.log2 n.
Proof.
  intros Hn Hz. destruct (Z.eq_dec n (2 ^ Z.log2 n)) as [|Hne]; [done|exfalso].
  destruct (Z.log2_spec n Hn) as [H1 H2].
  pose proof (Z.log2_nonneg n). pose proof (Z.pow_pos_nonneg 2 (Z.log2 n) ltac:(lia) ltac:(lia)).
  assert (Hb : Z.testbit (Z.land n (n - 1)) (Z.log2 n) = true); [|by rewrite Hz, Z.bits_0 in Hb].
  rewrite Z.land_spec, Z.bit_log2 by done. simpl.
  replace (Z.log2 n) with (Z.log2 (n - 1)); [apply Z.bit_log2; lia|].
  apply Z.log2_unique; [lia|]. lia.
Qed.

Lemma is_power_of_2_spec n :
  is_u32 n -> is_power_of_2 n = true <-> exists k, 0 <= k <= 31 /\ n = 2 ^ k.
Proof.
  intros Hn. unfold is_power_of_2. rewrite andb_true_iff, negb_true_iff, Z.eqb_neq, Z.eqb_eq. split.
  - intros [Hnz Hz]. unfold is_word in Hn. exists (Z.log2 n). pose proof (Z.log2_nonneg n).
    split; [|apply land_pred_zero; [lia|done]].
    assert (Z.log2 n < 32) by (apply Z.log2_lt_pow2; lia). lia.
  - intros (k & Hk & ->). pose proof (Z.pow_pos_nonneg 2 k). split; [lia|].
    rewrite land_pow2_sub1 by lia. apply Z.mod_same. lia.
Qed.

Lemma roundup_spec n : 2 <= n <= 2 ^ 31 -> ~ (exists k, 0 <= k <= 31 /\ n = 2 ^ k) ->
  exists k, 0 <= k <= 31 /\ roundup_pow_of_two n = 2 ^ k /\ n <= 2 ^ k.
Proof.
  intros Hn Hp. unfold roundup_pow_of_two. unwrap. unfold fls_long.
  destruct (Z.eqb_spec (n - 1) 0); [lia|].
  rewrite (fls_highest (n - 1) (Z.log2 (n - 1))); [|unfold is_word; lia|apply highest_bit_exists; lia].
  pose proof (Z.log2_nonneg (n - 1)). destruct (Z.log2_spec (n - 1)) as [H1 H2]; [lia|].
  assert (Z.log2 (n - 1) < 31) by (apply Z.log2_lt_pow2; lia).
  exists (Z.log2 (n - 1) + 1). unfold shl64. rewrite Z.mod_small, Z.shiftl_1_l by lia.
  assert (2 ^ (Z.log2 (n - 1) + 1) <= 2 ^ 31) by (apply Z.pow_le_mono_r; lia).
  pose proof (Z.pow_pos_nonneg 2 (Z.log2 (n - 1) + 1)).
  split; [lia|]. split; [apply wrap_small; unfold is_word; lia|]. rewrite <- Z.add_1_r in H2. lia.
Qed.

(** A FIFO that [kfifo_alloc] returns is empty, well formed and at least as
    large as asked for. *)
Lemma alloc_correct sz kmalloc :
  1 <= sz <= 2 ^ 31 -> (forall n, 0 <= n -> match kmalloc n with Some b => zlen b = n | None => True end) ->
  forall mem, exists r, kfifo_alloc sz kmalloc mem = Some r /\
    match r with
    | inl e => e = - ENOMEM
    | inr f => kfifo_wf f /\ contents f = [] /\ sz <= size f
    end.
Proof.
  intros Hsz Hk mem. unfold kfifo_alloc.
  assert (Hs : exists n, (if negb (is_power_of_2 sz) then if 0x80000000 <? sz then None
      else Some (u32 (roundup_pow_of_two sz)) else Some sz) = Some n /\ sz <= n /\
      exists k, 0 <= k <= 31 /\ n = 2 ^ k).
  { assert (Hw : is_u32 sz) by (unfold is_word; lia).
    destruct (is_power_of_2 sz) eqn:E; simpl.
    - apply is_power_of_2_spec in E; [|done]. exists sz. split_and!; [done|lia|done].
    - destruct (Z.ltb_spec 0x80000000 sz); [lia|].
      assert (~ exists k, 0 <= k <= 31 /\ sz = 2 ^ k) as Hnp
        by (rewrite <- is_power_of_2_spec by done; congruence).
      destruct (roundup_spec sz) as (k & Hk1 & Hr & Hle); [|done|].
      { destruct (Z.eq_dec sz 1) as [->|]; [|lia]. destruct Hnp. by exists 0. }
      rewrite Hr. assert (2 ^ k <= 2 ^ 31) by (apply Z.pow_le_mono_r; lia).
      rewrite wrap_small by (unfold is_word; lia). eexists. split_and!; [done|done|]. eauto. }
  destruct Hs as (n & -> & Hle & k & Hk1 & Hn). simpl. specialize (Hk n ltac:(lia)).
  destruct (kmalloc n) as [b|]; [|by eexists]. unfold kfifo_init.
  assert (2 ^ k <= 2 ^ 31) by (apply Z.pow_le_mono_r; lia).
  assert (is_power_of_2 n = true) as -> by (apply is_power_of_2_spec; [unfold is_word; lia|eauto]).
  simpl. destruct mem; simpl; [|by eexists]. eexists. split; [done|]. simpl.
  split_and!; [|done|done]. split_and!; [by exists k|done|by vm_compute|by vm_compute|].
  unfold __kfifo_len. simpl. change (u32 (0 - 0)) with 0. lia.
Qed.

(** * One writer and one reader without a lock *)

(** Where each side is inside its call: [WCopy data i] has sampled the free
    space, will publish [data] and has stored [i] bytes of it; [RCopy n i acc]
    has sampled the fill level, will take [n] bytes and has [acc] of them. *)
Inductive writer : Type := WIdle | WCopy (data : list Z) (i : Z).
Inductive reader : Type := RIdle | RCopy (n i : Z) (acc : list Z).

(** The shared structure, the two sides, and what has been published and
    delivered so far. *)
Record spsc : Type := Spsc {
  sh : kfifo;
  wr : writer;
  rd : reader;
  written : list Z;
  got : list Z
}.

(** The position of byte [i] of an [n]-byte copy that starts at index [x]: the
    first [l] bytes go up to the end of the buffer, the rest to its start. *)
Definition ring_index (f : kfifo) (x n i : Z) : Z :=
  let l := Z.min n (u32 (size f - Z.land x (size f - 1))) in
  if i <? l then Z.land x (size f - 1) + i else i - l.

(** Each memory access of [__kfifo_put] and [__kfifo_get] is a step; the
    barriers make their order in each function the order in memory. *)
Inductive spsc_step : spsc -> spsc -> Prop :=
| w_start f r w g data len :
    0 <= len <= zlen data ->
    spsc_step (Spsc f WIdle r w g)
      (Spsc f (WCopy (take (Z.to_nat (Z.min len (u32 (u32 (size f - in_ f) + out f)))) data) 0) r w g)
| w_byte f r w g data i v b :
    i < zlen data -> aget data i = Some v ->
    aset (buffer f) (ring_index f (in_ f) (zlen data) i) v = Some b ->
    spsc_step (Spsc f (WCopy data i) r w g)
      (Spsc (Kfifo b (size f) (in_ f) (out f)) (WCopy data (i + 1)) r w g)
| w_end f r w g data :
    spsc_step (Spsc f (WCopy data (zlen data)) r w g)
      (Spsc (Kfifo (buffer f) (size f) (u32 (in_ f + zlen data)) (out f)) WIdle r (w ++ data) g)
| r_start f wt w g len :
    0 <= len ->
    spsc_step (Spsc f wt RIdle w g) (Spsc f wt (RCopy (Z.min len (u32 (in_ f - out f))) 0 []) w g)
| r_byte f wt w g n i acc v :
    i < n -> aget (buffer f) (ring_index f (out f) n i) = Some v ->
    spsc_step (Spsc f wt (RCopy n i acc) w g) (Spsc f wt (RCopy n (i + 1) (acc ++ [v])) w g)
| r_end f wt w g n acc :
    spsc_step (Spsc f wt (RCopy n n acc) w g)
      (Spsc (Kfifo (buffer f) (size f) (in_ f) (u32 (out f + n))) wt RIdle w (g ++ acc)).

Definition spsc_init (f : kfifo) : spsc := Spsc f WIdle RIdle [] [].

(** ** The invariant *)

Definition writer_ok (f : kfifo) (w g : list Z) (t : writer) : Prop :=
  match t with
  | WIdle => True
  | WCopy data i =>
      0 <= i <= zlen data /\ zlen w + zlen data <= zlen g + size f /\
      forall j, 0 <= j < i -> aget (buffer f) ((zlen w + j) mod size f) = aget data j
  end.

Definition reader_ok (w g : list Z) (t : reader) : Prop :=
  match t with
  | RIdle => True
  | RCopy n i acc =>
      0 <= i <= n /\ zlen g + n <= zlen w /\ acc = take (Z.to_nat i) (drop (length g) w)
  end.

Definition ring_ok (f : kfifo) (w g : list Z) : Prop :=
  (exists k, 0 <= k <= 31 /\ size f = 2 ^ k) /\ zlen (buffer f) = size f /\
  in_ f = u32 (zlen w) /\ out f = u32 (zlen g) /\
  g = take (length g) w /\ zlen w <= zlen g + size f /\
  (forall k, zlen g <= k < zlen w -> aget (buffer f) (k mod size f) = aget w k).

Definition spsc_inv (s : spsc) : Prop :=
  ring_ok (sh s) (written s) (got s) /\
  writer_ok (sh s) (written s) (got s) (wr s) /\ reader_ok (written s) (got s) (rd s).

Lemma ring_index_spec f x n i k :
  0 <= k <= 31 -> size f = 2 ^ k -> 0 <= i < n -> n <= size f ->
  ring_index f (u32 x) n i = (x + i) mod size f.
Proof.
  intros Hk Hs Hi Hn. assert (0 < size f <= 2 ^ 31)
    by (rewrite Hs; split; [apply Z.pow_pos_nonneg; lia|apply Z.pow_le_mono_r; lia]).
  unfold ring_index. assert (Hx : Z.land (u32 x) (size f - 1) = x mod size f).
  { rewrite Hs, land_pow2_sub1 by lia. apply mod_mod_pow2. lia. }
  rewrite Hx. pose proof (Z.mod_pos_bound x (size f) ltac:(lia)).
  rewrite (wrap_small 32 (size f - _)) by word_lia. rewrite ring_walk by lia. zcases.
Qed.

Lemma len_le_of_prefix (g w : list Z) : g = take (length g) w -> zlen g <= zlen w.
Proof. intros H. apply (f_equal length) in H. rewrite length_take in H. unfold zlen. lia. Qed.

(** Opens [ring_ok] and names what every step needs. *)
Ltac open_ring H :=
  destruct H as ((k & Hk & Hs) & Hb & Hin & Hout & Hg & Hle & Hq);
  pose proof (len_le_of_prefix _ _ Hg) as Hgw;
  match type of Hs with size ?f = _ =>
    assert (Hsz : 0 < size f <= 2 ^ 31)
      by (rewrite Hs; split; [apply Z.pow_pos_nonneg; lia|apply Z.pow_le_mono_r; lia]) end.

Lemma w_start_ok f w g data len :
  ring_ok f w g -> 0 <= len <= zlen data ->
  writer_ok f w g (WCopy (take (Z.to_nat (Z.min len (u32 (u32 (size f - in_ f) + out f)))) data) 0).
Proof.
  intros H Hlen. open_ring H. set (n := Z.min len _). simpl.
  assert (Hn : 0 <= n <= size f - (zlen w - zlen g) /\ n <= zlen data).
  { unfold n. rewrite Hin, Hout. replace (u32 (u32 (size f - u32 (zlen w)) + u32 (zlen g)))
      with (size f - zlen w + zlen g); [lia|].
    transitivity (u32 (size f - zlen w + zlen g)); [symmetry; apply wrap_small; word_lia|].
    unfold wrap. rewrite Zplus_mod_idemp_l, Zplus_mod_idemp_r.
    rewrite <- (Zplus_mod_idemp_l (size f - zlen w mod _)), Zminus_mod_idemp_r, Zplus_mod_idemp_l. done. }
  assert (Ht : zlen (take (Z.to_nat n) data) = n) by (unfold zlen in *; rewrite length_take; lia).
  rewrite Ht. split; [lia|]. split; [lia|]. intros; lia.
Qed.

Lemma w_byte_ok f w g data i v b :
  ring_ok f w g -> writer_ok f w g (WCopy data i) ->
  i < zlen data -> aget data i = Some v ->
  aset (buffer f) (ring_index f (in_ f) (zlen data) i) v = Some b ->
  let f' := Kfifo b (size f) (in_ f) (out f) in
  ring_ok f' w g /\ writer_ok f' w g (WCopy data (i + 1)).
Proof.
  intros H (Hi0 & Hfit & Hpart) Hi Hv Hset. open_ring H. pose proof (zlen_nonneg g).
  rewrite Hin, (ring_index_spec f _ _ _ k) in Hset by (done || lia).
  split; [|split_and!; simpl; try lia].
  - unfold ring_ok; simpl. rewrite (aset_len _ _ _ _ Hset). split_and!; try done; [by exists k|].
    intros j Hj. rewrite (aget_aset _ _ _ _ _ Hset).
    destruct (Z.eqb_spec ((zlen w + i) mod size f) (j mod size f)) as [E|]; [|by apply Hq].
    symmetry in E. exfalso. revert E. apply mod_neq; lia.
  - intros j Hj. rewrite (aget_aset _ _ _ _ _ Hset).
    destruct (Z.eqb_spec ((zlen w + i) mod size f) ((zlen w + j) mod size f)) as [E|E];
      (destruct (Z.eq_dec i j) as [->|]; [done|]).
    + symmetry in E. exfalso. revert E. apply mod_neq; lia.
    + apply Hpart. lia.
Qed.

Lemma w_end_ok f w g data :
  ring_ok f w g -> writer_ok f w g (WCopy data (zlen data)) ->
  ring_ok (Kfifo (buffer f) (size f) (u32 (in_ f + zlen data)) (out f)) (w ++ data) g.
Proof.
  intros H (Hi0 & Hfit & Hpart). open_ring H. unfold ring_ok; simpl. rewrite zlen_app.
  split_and!; try done; try lia; [by exists k|rewrite Hin; apply Zplus_mod_idemp_l| |].
  - rewrite take_app_le by (unfold zlen in *; lia). done.
  - intros j Hj. destruct (Z.lt_ge_cases j (zlen w)).
    + rewrite aget_app_l by done. apply Hq. lia.
    + rewrite aget_app_r, <- Hpart by lia. do 2 f_equal. lia.
Qed.

Lemma reader_frame w g data r : reader_ok w g r -> reader_ok (w ++ data) g r.
Proof.
  destruct r as [|n j acc]; simpl; [done|]. intros (Hj & Hn & ->).
  pose proof (zlen_nonneg data). rewrite zlen_app. split_and!; try lia.
  rewrite drop_app_le, take_app_le; [done| |unfold zlen in *; lia].
  rewrite length_drop. unfold zlen in *. lia.
Qed.

Lemma r_start_ok f w g len :
  ring_ok f w g -> 0 <= len -> reader_ok w g (RCopy (Z.min len (u32 (in_ f - out f))) 0 []).
Proof.
  intros H Hlen. open_ring H. simpl. rewrite Hin, Hout.
  replace (u32 (u32 (zlen w) - u32 (zlen g))) with (zlen w - zlen g); [split_and!; lia || done|].
  unfold wrap. rewrite <- Zminus_mod, Z.mod_small by lia. done.
Qed.

Lemma r_byte_ok f w g n i acc v :
  ring_ok f w g -> reader_ok w g (RCopy n i acc) ->
  i < n -> aget (buffer f) (ring_index f (out f) n i) = Some v ->
  reader_ok w g (RCopy n (i + 1) (acc ++ [v])).
Proof.
  intros H (Hi0 & Hfit & ->) Hi Hv. open_ring H. pose proof (zlen_nonneg g).
  rewrite Hout, (ring_index_spec f _ _ _ k), Hq in Hv by (done || lia).
  split_and!; try lia. replace (Z.to_nat (i + 1)) with (S (Z.to_nat i)) by lia.
  rewrite (take_S_r _ _ v); [done|]. rewrite lookup_drop. rewrite aget_lookup in Hv by lia.
  rewrite <- Hv. f_equal. unfold zlen. lia.
Qed.

Lemma r_end_ok f w g n acc :
  ring_ok f w g -> reader_ok w g (RCopy n n acc) ->
  zlen (g ++ acc) = zlen g + n /\
  ring_ok (Kfifo (buffer f) (size f) (in_ f) (u32 (out f + n))) w (g ++ acc).
Proof.
  intros H (Hn0 & Hfit & ->). open_ring H. unfold ring_ok; simpl.
  assert (Hlt : zlen (take (Z.to_nat n) (drop (length g) w)) = n)
    by (unfold zlen in *; rewrite length_take, length_drop; lia).
  rewrite zlen_app, Hlt.
  split_and!; try done; try lia; [by exists k|rewrite Hout; apply Zplus_mod_idemp_l| |].
  - rewrite length_app, length_take, length_drop. rewrite Hg at 1.
    replace (length g + Z.to_nat n `min` (length w - length g))%nat
      with (length g + Z.to_nat n)%nat by (unfold zlen in *; lia).
    by rewrite take_take_drop.
  - intros j Hj. apply Hq. lia.
Qed.

Lemma writer_frame f o w g acc n t :
  zlen (g ++ acc) = zlen g + n -> 0 <= n ->
  writer_ok f w g t -> writer_ok (Kfifo (buffer f) (size f) (in_ f) o) w (g ++ acc) t.
Proof.
  intros Hl Hn. destruct t as [|data i]; simpl; [done|]. intros (? & ? & ?).
  rewrite Hl. split_and!; try done; lia.
Qed.

Lemma spsc_inv_step s s' : spsc_inv s -> spsc_step s s' -> spsc_inv s'.
Proof.
  intros (Hring & Hw & Hr) Hstep. destruct Hstep; simpl in Hring, Hw, Hr; unfold spsc_inv; simpl.
  - split; [|split]; [done|by apply w_start_ok|done].
  - edestruct w_byte_ok; [done|done|done|done|done|]. done.
  - split; [|split]; [by apply w_end_ok|done|by apply reader_frame].
  - split; [|split]; [done|done|by apply r_start_ok].
  - split; [|split]; [done|done|by eapply r_byte_ok].
  - destruct (r_end_ok _ _ _ _ _ Hring Hr) as [Hl Hok]. destruct Hr as (? & _).
    split; [|split]; [done|apply writer_frame with (n := n); (done || lia)|done].
Qed.

(** Reachability. *)
Definition spsc_reach : spsc -> spsc -> Prop := rtc spsc_step.

Lemma spsc_init_inv f : kfifo_wf f -> in_ f = 0 -> out f = 0 -> spsc_inv (spsc_init f).
Proof.
  intros (Hp & Hb & _ & _ & _) Hi Ho. split; [|done]. unfold ring_ok; simpl.
  assert (0 < size f) by (destruct Hp as (k & ? & ->); apply Z.pow_pos_nonneg; lia).
  rewrite Hi, Ho. split_and!; try done; unfold zlen; simpl; intros; lia.
Qed.

Lemma spsc_reach_inv s s' : spsc_inv s -> spsc_reach s s' -> spsc_inv s'.
Proof. intros Hi Hr. induction Hr; [done|]. eauto using spsc_inv_step. Qed.

(** * The queue interface *)

(** What a byte queue promises its users: a bounded sequence of bytes, to
    which [bq_put] appends what fits and from which [bq_get] takes the oldest
    bytes into the front of the caller's buffer. *)
Class ByteQueue (Q : Type) : Type := {
  bq_wf : Q -> Prop;
  bq_bytes : Q -> list Z;
  bq_cap : Q -> Z;
  bq_put : Q -> list Z -> Z -> option (Q * Z);
  bq_get : Q -> list Z -> Z -> option (Q * list Z * Z);
  bq_put_law q data len :
    bq_wf q -> 0 <= len <= zlen data ->
    exists q' n, bq_put q data len = Some (q', n) /\ bq_wf q' /\
      n = Z.min len (bq_cap q - zlen (bq_bytes q)) /\ bq_cap q' = bq_cap q /\
      bq_bytes q' = bq_bytes q ++ take (Z.to_nat n) data;
  bq_get_law q ubuf len :
    bq_wf q -> 0 <= len <= zlen ubuf ->
    exists q' u n, bq_get q ubuf len = Some (q', u, n) /\ bq_wf q' /\
      n = Z.min len (zlen (bq_bytes q)) /\ bq_cap q' = bq_cap q /\
      take (Z.to_nat n) u = take (Z.to_nat n) (bq_bytes q) /\
      drop (Z.to_nat n) u = drop (Z.to_nat n) ubuf /\
      bq_bytes q' = drop (Z.to_nat n) (bq_bytes q)
}.

(** The lock-free operations implement it. *)
Program Definition kfifo_unlocked : ByteQueue kfifo := {|
  bq_wf := kfifo_wf; bq_bytes := contents; bq_cap := size;
  bq_put := __kfifo_put; bq_get := __kfifo_get
|}.
Next Obligation. apply put_refines. Qed.
Next Obligation. apply get_refines. Qed.

Lemma reset_empty f : kfifo_wf f -> kfifo_wf (__kfifo_reset f) /\ contents (__kfifo_reset f) = [].
Proof.
  intros (Hk & Hb & _ & _ & _). split; [|done].
  split_and!; try done. destruct Hk as (k & Hk & Hs). pose proof (Z.pow_pos_nonneg 2 k).
  simpl. unfold __kfifo_len; simpl. change (u32 (0 - 0)) with 0. lia.
Qed.

Lemma contents_nil f : in_ f = out f -> contents f = [].
Proof. intros E. unfold contents, __kfifo_len. by rewrite E, Z.sub_diag. Qed.

(** So do the locked ones, whose [kfifo_get] restarts the indices of an empty
    FIFO. *)
#[global] Program Instance kfifo_locked : ByteQueue kfifo := {|
  bq_wf := kfifo_wf; bq_bytes := contents; bq_cap := size;
  bq_put := __kfifo_put; bq_get := kfifo_get
|}.
Next Obligation. apply put_refines. Qed.
Next Obligation.
  intros f ubuf len Hf Hlen.
  destruct (get_refines f ubuf len Hf Hlen) as (f' & u & n & Hr & Hwf & Hn & Hs & Ht & Hd & Hc).
  unfold kfifo_get. rewrite Hr. simpl. destruct (Z.eqb_spec (in_ f') (out f')) as [E|].
  - eexists _, _, _. split; [done|]. destruct (reset_empty f' Hwf) as [Hw He].
    split_and!; try done. by rewrite <- Hc, (contents_nil f' E).
  - by eexists _, _, _.
Qed.

(** ** A user of the interface *)

Inductive queue_op : Type := OpPut (data : list Z) | OpGet (room : nat).

Section client.
Context {Q : Type} `{!ByteQueue Q}.

(** Runs a sequence of calls and collects the bytes accepted and delivered. *)
Fixpoint run_ops (ops : list queue_op) (q : Q) (acc del : list Z) : option (Q * list Z * list Z) :=
  match ops with
  | [] => Some (q, acc, del)
  | OpPut data :: ops =>
      '(q, n) ← bq_put q data (zlen data);
      run_ops ops q (acc ++ take (Z.to_nat n) data) del
  | OpGet room :: ops =>
      '(q, u, n) ← bq_get q (replicate room 0) (Z.of_nat room);
      run_ops ops q acc (del ++ take (Z.to_nat n) u)
  end.

Lemma run_ops_fifo ops q acc del :
  bq_wf q -> acc = del ++ bq_bytes q ->
  exists q' acc' del', run_ops ops q acc del = Some (q', acc', del') /\
    bq_wf q' /\ bq_cap q' = bq_cap q /\ acc' = del' ++ bq_bytes q'.
Proof.
  revert q acc del. induction ops as [|[data|room] ops IH]; intros q acc del Hq Heq; simpl.
  - by eexists _, _, _.
  - destruct (bq_put_law q data (zlen data)) as (q' & n & -> & Hw & Hn & Hc & Hb);
      [done|pose proof (zlen_nonneg data); lia|]. simpl.
    destruct (IH q' (acc ++ take (Z.to_nat n) data) del) as (q2 & a2 & d2 & Hr & Hw2 & Hc2 & Ha2); [done| |].
    { by rewrite Hb, Heq, app_assoc. }
    eexists _, _, _. split_and!; [done|done|congruence|done].
  - destruct (bq_get_law q (replicate room 0) (Z.of_nat room))
      as (q' & u & n & -> & Hw & Hn & Hc & Ht & _ & Hb);
      [done|unfold zlen; rewrite length_replicate; lia|]. simpl.
    destruct (IH q' acc (del ++ take (Z.to_nat n) u)) as (q2 & a2 & d2 & Hr & Hw2 & Hc2 & Ha2); [done| |].
    { by rewrite Hb, Ht, Heq, <- app_assoc, take_drop. }
    eexists _, _, _. split_and!; [done|done|congruence|done].
Qed.
End client.

Lemma kfifo_fill_bound f : kfifo_wf f -> zlen (contents f) <= size f.
Proof. intros Hf. rewrite contents_zlen by done. by destruct Hf as (_ & _ & _ & _ & ?). Qed.

(** * Properties *)

(** C26 [__kfifo_put] appends exactly the bytes that fit behind the queued ones
    and reports their number; [__kfifo_get] moves the oldest bytes to the front of
    the caller's buffer and leaves the rest of that buffer alone.  Both keep
    the structure well formed for every value of the wrapping indices.  Hence a
    FIFO obtained from [kfifo_alloc], whatever the sequence of locked puts
    and gets on it, delivers the bytes it accepted in the order it accepted them
    with none lost or duplicated, holds the rest, and never holds more than its
    size, which is at least the size asked for. *)
Theorem kfifo_refines_queue :
  (forall f data ubuf plen glen,
    kfifo_wf f -> 0 <= plen <= zlen data -> 0 <= glen <= zlen ubuf ->
    (exists f' n, __kfifo_put f data plen = Some (f', n) /\ kfifo_wf f' /\
       n = Z.min plen (size f - zlen (contents f)) /\ size f' = size f /\
       contents f' = contents f ++ take (Z.to_nat n) data) /\
    (exists f' u n, __kfifo_get f ubuf glen = Some (f', u, n) /\ kfifo_wf f' /\
       n = Z.min glen (zlen (contents f)) /\ size f' = size f /\
       take (Z.to_nat n) u = take (Z.to_nat n) (contents f) /\
       drop (Z.to_nat n) u = drop (Z.to_nat n) ubuf /\
       contents f' = drop (Z.to_nat n) (contents f))) /\
  (forall sz kmalloc mem f ops,
    1 <= sz <= 2 ^ 31 -> (forall n, 0 <= n -> match kmalloc n with Some b => zlen b = n | None => True end) ->
    kfifo_alloc sz kmalloc mem = Some (inr f) ->
    sz <= size f /\
    exists f' acc del, run_ops ops f [] [] = Some (f', acc, del) /\
      acc = del ++ contents f' /\ size f' = size f /\ zlen (contents f') <= size f).
Proof.
  split; [intros f data ubuf plen glen Hf Hp Hg; split; [by apply put_refines|by apply get_refines]|].
  intros sz kmalloc mem f ops Hsz Hk Hf. destruct (alloc_correct sz kmalloc Hsz Hk mem) as (r & Hr & Hok).
  rewrite Hf in Hr. simplify_eq. destruct Hok as (Hwf & He & Hle). split; [done|].
  destruct (run_ops_fifo ops f [] []) as (f' & acc & del & Hrun & Hw & Hc & Ha); [done|by simpl; rewrite He|].
  simpl in *. exists f', acc, del. split_and!; try done. rewrite <- Hc. by apply kfifo_fill_bound.
Qed.

(** A full FIFO of four bytes whose [in] index has just wrapped around. *)
Definition wrapped_fifo : kfifo := Kfifo [3; 4; 1; 2] 4 2 (2 ^ 32 - 2).

Lemma wrapped_fifo_wf : kfifo_wf wrapped_fifo.
Proof. split_and!; try (by vm_compute); try (by unfold is_word; simpl; lia). by exists 2. Qed.

Lemma kfifo_refines_queue_witness :
  __kfifo_get wrapped_fifo [0; 0; 0] 3 = Some (Kfifo [3; 4; 1; 2] 4 2 1, [1; 2; 3], 3) /\
  (exists f' n, __kfifo_put wrapped_fifo [9] 1 = Some (f', n) /\ n = 0) /\
  exists f' acc del,
    run_ops [OpPut [1; 2; 3; 4; 5]; OpGet 3; OpPut [6; 7]; OpGet 2] (Kfifo [0; 0; 0; 0] 4 0 0) [] []
      = Some (f', acc, del) /\
    acc = del ++ contents f' /\ del = [1; 2; 3; 4; 6] /\ contents f' = [7].
Proof.
  destruct kfifo_refines_queue as [Hops Halloc]. split; [by vm_compute|]. split.
  - destruct (Hops wrapped_fifo [9] [0; 0; 0] 1 3) as [(f' & n & Hp & _ & Hn & _) _];
      [apply wrapped_fifo_wf|by vm_compute|by vm_compute|].
    exists f', n. split; [done|]. rewrite Hn. by vm_compute.
  - destruct (Halloc 3 (fun n => Some (replicate (Z.to_nat n) 0)) true (Kfifo [0; 0; 0; 0] 4 0 0)
      [OpPut [1; 2; 3; 4; 5]; OpGet 3; OpPut [6; 7]; OpGet 2]) as (_ & f' & acc & del & Hr & Ha & _);
      [lia|intros n Hn; unfold zlen; rewrite length_replicate; lia|by vm_compute|].
    exists f', acc, del. split; [exact Hr|]. split; [exact Ha|]. clear Ha.
    vm_compute in Hr. injection Hr as <- <- <-. split; by vm_compute.
Defined.

(** No access of either side is out of bounds: each side can always take its
    next step. *)
Lemma spsc_writer_progress f t r w g :
  spsc_inv (Spsc f t r w g) -> exists f' t' w', spsc_step (Spsc f t r w g) (Spsc f' t' r w' g) /\ t' <> t.
Proof.
  intros (H & Hw & _). simpl in *. open_ring H. pose proof (zlen_nonneg g). destruct t as [|data i].
  - eexists _, _, _. split; [by apply (w_start f r w g [] 0)|done].
  - destruct Hw as (Hi & Hfit & _). destruct (Z.eq_dec i (zlen data)) as [->|Hne].
    { eexists _, _, _. split; [by apply w_end|done]. }
    destruct (proj2 (aget_is_Some data i)) as [v Hv]; [lia|].
    eassert (Hset : aset (buffer f) (ring_index f (in_ f) (zlen data) i) v = Some _).
    { apply aset_Some. rewrite Hin, (ring_index_spec f _ _ _ k), Hb by (done || lia).
      apply Z.mod_pos_bound. lia. }
    eexists _, _, _. split; [eapply w_byte; [lia|exact Hv|exact Hset]|]. intros [=]. lia.
Qed.

Lemma spsc_reader_progress f t r w g :
  spsc_inv (Spsc f t r w g) -> exists f' r' g', spsc_step (Spsc f t r w g) (Spsc f' t r' w g') /\ r' <> r.
Proof.
  intros (H & _ & Hr). simpl in *. open_ring H. pose proof (zlen_nonneg g). destruct r as [|n i acc].
  - eexists _, _, _. split; [by apply (r_start f t w g 0)|done].
  - destruct Hr as (Hi & Hfit & _). destruct (Z.eq_dec i n) as [->|Hne].
    { eexists _, _, _. split; [by apply r_end|done]. }
    destruct (proj2 (aget_is_Some (buffer f) (ring_index f (out f) n i))) as [v Hv].
    { rewrite Hout, (ring_index_spec f _ _ _ k) by (done || lia). rewrite Hb.
      apply Z.mod_pos_bound. lia. }
    eexists _, _, _. split; [eapply r_byte; [lia|exact Hv]|]. intros [=]. lia.
Qed.

(** ** The steps are those of the two functions *)

(** Run without interruption, the bytes of a block copy are steps. *)
Lemma for_all_steps {S T : Type} (R : relation T) (body : Z -> S -> option S) (F : Z -> S -> T) a b s s' :
  a <= b -> for_all a b body s = Some s' ->
  (forall k x x', a <= k < b -> body k x = Some x' -> R (F k x) (F (k + 1) x')) ->
  rtc R (F a s) (F b s').
Proof.
  intros Hab. unfold for_all, for_. remember (Z.to_nat (b - a)) as n eqn:En. revert a s Hab En.
  induction n as [|n IH]; intros a s Hab En Hrun Hstep; simpl in Hrun.
  - simplify_eq. replace b with a by lia. apply rtc_refl.
  - destruct (body a s) as [s1|] eqn:E; [|done]. simpl in Hrun.
    eapply rtc_l; [apply Hstep; [lia|exact E]|]. apply (IH (a + 1)); [lia|lia|exact Hrun|].
    intros k x x' Hk. apply Hstep. lia.
Qed.

Lemma aget_take {A : Type} (l : list A) n i : i < n -> aget (take (Z.to_nat n) l) i = aget l i.
Proof. intros Hi. unfold aget. destruct (Z.leb_spec 0 i); [|done]. apply lookup_take_lt. lia. Qed.

(** A call of [__kfifo_put] that nothing interrupts. *)
Lemma put_is_run f data len f' n r w g :
  0 <= len <= zlen data -> __kfifo_put f data len = Some (f', n) ->
  rtc spsc_step (Spsc f WIdle r w g) (Spsc f' WIdle r (w ++ take (Z.to_nat n) data) g).
Proof.
  intros Hlen Hput. unfold __kfifo_put in Hput. apply bind_Some in Hput as (b1 & H1 & Hput).
  apply bind_Some in Hput as (b2 & H2 & [= <- <-]).
  pose proof (wrap_range 32 (u32 (size f - in_ f) + out f) ltac:(lia)) as Hfree.
  pose proof (wrap_range 32 (size f - Z.land (in_ f) (size f - 1)) ltac:(lia)) as Hrest. unfold is_word in *.
  set (n := Z.min len (u32 (u32 (size f - in_ f) + out f))) in *.
  set (l := Z.min n _) in *. set (d := take (Z.to_nat n) data).
  assert (Hd : zlen d = n) by (unfold d, zlen in *; rewrite length_take; lia).
  eapply rtc_l; [by apply w_start|]. fold n d. unfold memcpy in H1, H2.
  eapply (for_all_steps spsc_step _ (fun k b => Spsc (Kfifo b (size f) (in_ f) (out f)) (WCopy d k) r w g))
    in H1; [|lia|].
  2: { intros k x x' Hk Hx. apply bind_Some in Hx as (v & Hv & Hx).
       eapply (w_byte (Kfifo x _ _ _)); [lia|unfold d; rewrite aget_take by lia; exact Hv|].
       unfold ring_index. rewrite Hd. cbn [size in_]. fold l. by rewrite (proj2 (Z.ltb_lt k l)) by lia. }
  eapply (for_all_steps spsc_step _ (fun k b => Spsc (Kfifo b (size f) (in_ f) (out f)) (WCopy d (l + k)) r w g))
    in H2; [|lia|].
  2: { intros k x x' Hk Hx. apply bind_Some in Hx as (v & Hv & Hx). rewrite Z.add_assoc.
       eapply (w_byte (Kfifo x _ _ _)); [lia|unfold d; rewrite aget_take by lia; exact Hv|].
       unfold ring_index. rewrite Hd. cbn [size in_]. fold l. rewrite (proj2 (Z.ltb_ge (l + k) l)) by lia.
       replace (l + k - l) with (0 + k) by lia. exact Hx. }
  destruct f as [fb fs fi fo]; cbn [size in_ out buffer] in *. etransitivity; [exact H1|].
  replace (l + 0) with l in H2 by lia. etransitivity; [exact H2|]. replace (l + (n - l)) with (zlen d) by lia.
  apply rtc_once. rewrite <- Hd. apply (w_end (Kfifo b2 fs fi fo)).
Qed.

Lemma take_aset (u u' : list Z) k v :
  0 <= k -> aset u k v = Some u' -> take (Z.to_nat (k + 1)) u' = take (Z.to_nat k) u ++ [v].
Proof.
  intros Hk [Hr ->]%aset_inv. replace (Z.to_nat (k + 1)) with (S (Z.to_nat k)) by lia.
  rewrite (take_S_r _ _ v); [by rewrite take_insert_ge|]. apply list_lookup_insert_eq. unfold zlen in Hr. lia.
Qed.

(** A call of [__kfifo_get] that nothing interrupts. *)
Lemma get_is_run f ubuf len f' u n wt w g :
  0 <= len -> __kfifo_get f ubuf len = Some (f', u, n) ->
  rtc spsc_step (Spsc f wt RIdle w g) (Spsc f' wt RIdle w (g ++ take (Z.to_nat n) u)).
Proof.
  intros Hlen Hget. unfold __kfifo_get in Hget. apply bind_Some in Hget as (u1 & H1 & Hget).
  apply bind_Some in Hget as (u2 & H2 & [= <- <- <-]).
  pose proof (wrap_range 32 (in_ f - out f) ltac:(lia)) as Hfill.
  pose proof (wrap_range 32 (size f - Z.land (out f) (size f - 1)) ltac:(lia)) as Hrest. unfold is_word in *.
  set (n := Z.min len (u32 (in_ f - out f))) in *. set (l := Z.min n _) in *.
  eapply rtc_l; [by apply (r_start _ _ _ _ len)|]. fold n. unfold memcpy in H1, H2.
  eapply (for_all_steps spsc_step _ (fun k x => Spsc f wt (RCopy n k (take (Z.to_nat k) x)) w g)) in H1; [|lia|].
  2: { intros k x x' Hk Hx. apply bind_Some in Hx as (v & Hv & Hx). rewrite (take_aset _ _ _ _ (proj1 Hk) Hx).
       apply r_byte; [lia|]. unfold ring_index. fold l. by rewrite (proj2 (Z.ltb_lt k l)) by lia. }
  eapply (for_all_steps spsc_step _ (fun k x => Spsc f wt (RCopy n (l + k) (take (Z.to_nat (l + k)) x)) w g))
    in H2; [|lia|].
  2: { intros k x x' Hk Hx. apply bind_Some in Hx as (v & Hv & Hx). rewrite Z.add_assoc.
       rewrite (take_aset x x' (l + k) v) by (done || lia). apply r_byte; [lia|].
       unfold ring_index. fold l. rewrite (proj2 (Z.ltb_ge (l + k) l)) by lia.
       replace (l + k - l) with (0 + k) by lia. exact Hv. }
  etransitivity; [exact H1|]. rewrite Z.add_0_r in H2. etransitivity; [exact H2|].
  replace (l + (n - l)) with n by lia. apply rtc_once, r_end.
Qed.

(** The shared structure is a well-formed FIFO at every moment. *)
Lemma ring_ok_wf f w g : ring_ok f w g -> kfifo_wf f.
Proof.
  intros H. open_ring H. split_and!; [by exists k|done|rewrite Hin; by apply wrap_range|
    rewrite Hout; by apply wrap_range|].
  unfold __kfifo_len. rewrite Hin, Hout. unfold wrap. rewrite <- Zminus_mod, Z.mod_small by lia. lia.
Qed.

(** C7 One writer and one reader that run [__kfifo_put] and [__kfifo_get] at
    the same time without a lock, interleaved at single memory accesses: at
    every moment the bytes delivered are a prefix of the bytes published, at
    most [size] published bytes are outstanding, and both sides can take their
    next step, so no access is outside the buffer and neither side waits for the
    other.  The steps are the accesses of the two functions: whenever a side is
    between calls, the steps of its next call, taken without interruption, lead to
    exactly the structure and the bytes that [__kfifo_put] and [__kfifo_get]
    return. *)
Theorem kfifo_one_reader_one_writer_safe f s :
  kfifo_wf f -> in_ f = 0 -> out f = 0 -> spsc_reach (spsc_init f) s ->
  got s `prefix_of` written s /\ zlen (written s) - zlen (got s) <= size (sh s) /\
  (exists s', spsc_step s s' /\ wr s' <> wr s /\ rd s' = rd s) /\
  (exists s', spsc_step s s' /\ rd s' <> rd s /\ wr s' = wr s) /\
  (forall data len, wr s = WIdle -> 0 <= len <= zlen data ->
     exists f' n, __kfifo_put (sh s) data len = Some (f', n) /\
       rtc spsc_step s (Spsc f' WIdle (rd s) (written s ++ take (Z.to_nat n) data) (got s))) /\
  (forall ubuf len, rd s = RIdle -> 0 <= len <= zlen ubuf ->
     exists f' u n, __kfifo_get (sh s) ubuf len = Some (f', u, n) /\
       rtc spsc_step s (Spsc f' (wr s) RIdle (written s) (got s ++ take (Z.to_nat n) u))).
Proof.
  intros Hf Hi Ho Hr. pose proof (spsc_reach_inv _ _ (spsc_init_inv _ Hf Hi Ho) Hr) as Hinv.
  pose proof Hinv as (Hring & _). pose proof (ring_ok_wf _ _ _ Hring) as Hwf.
  destruct Hring as (_ & _ & _ & _ & Hg & Hle & _).
  split; [rewrite Hg; exists (drop (length (got s)) (written s)); by rewrite take_drop|].
  split; [lia|]. destruct s as [sf t r w g]; simpl in *.
  destruct (spsc_writer_progress _ _ _ _ _ Hinv) as (? & ? & ? & H1 & ?).
  destruct (spsc_reader_progress _ _ _ _ _ Hinv) as (? & ? & ? & H2 & ?).
  split_and!; [eexists; by split; [exact H1|]|eexists; by split; [exact H2|]| |].
  - intros data len -> Hlen. destruct (put_refines sf data len Hwf Hlen) as (f' & n & Hp & _).
    exists f', n. split; [done|]. by eapply put_is_run.
  - intros ubuf len -> Hlen. destruct (get_refines sf ubuf len Hwf Hlen) as (f' & u & n & Hp & _).
    exists f', u, n. split; [done|]. eapply get_is_run; [|done]. lia.
Qed.

Lemma kfifo_one_reader_one_writer_safe_witness :
  exists s, spsc_reach (spsc_init (Kfifo [0; 0] 2 0 0)) s /\ got s `prefix_of` written s /\ written s = [7].
Proof.
  assert (Hr : spsc_reach (spsc_init (Kfifo [0; 0] 2 0 0)) (Spsc (Kfifo [7; 0] 2 1 0) WIdle RIdle [7] [])).
  { pose proof (w_start (Kfifo [0; 0] 2 0 0) RIdle [] [] [7] 1 ltac:(by vm_compute)) as H1.
    pose proof (w_byte (Kfifo [0; 0] 2 0 0) RIdle [] [] [7] 0 7 [7; 0]
      ltac:(by vm_compute) ltac:(by vm_compute) ltac:(by vm_compute)) as H2.
    pose proof (w_end (Kfifo [7; 0] 2 0 0) RIdle [] [] [7]) as H3.
    vm_compute in H1, H2, H3.
    eapply rtc_l; [exact H1|]. eapply rtc_l; [exact H2|]. eapply rtc_l; [exact H3|]. apply rtc_refl. }
  eexists. split; [exact Hr|].
  edestruct (kfifo_one_reader_one_writer_safe (Kfifo [0; 0] 2 0 0)) as (Hp & _);
    [split_and!; try (by vm_compute); by exists 1|done|done|exact Hr|]. done.
Defined.
