(* ===== verification/Lmb.v ===== *)
(** Logical memory blocks: lib/lmb.c, the allocator of physical memory that
    runs before any other.

    [lmb] holds two tables of ranges, the memory there is and the part of it
    that is reserved.  [lmb_add_region], [lmb_remove], [lmb_overlaps_region] and
    [__lmb_alloc_base] are translated statement by statement; the theorems read a
    table as the set of addresses it covers. *)
From Stdlib Require Import ZArith Lia Bool Sorting.Sorted.
From stdpp Require Import base numbers list gmap option sorting.
From S2P Require Import Prelude.

Local Open Scope Z_scope.

(** * Data *)

Definition MAX_LMB_REGIONS : Z := 128.
Definition LMB_ALLOC_ANYWHERE : Z := 0.

Record lmb_property : Type := LmbProperty { base : Z; size : Z }.

(** [size] of the C structure is [rgn_size] here. *)
Record lmb_region : Type := LmbRegion { cnt : Z; rgn_size : Z; region : list lmb_property }.

Record lmb : Type := Lmb { rmo_size : Z; memory : lmb_region; reserved : lmb_region }.

#[global] Instance lmb_property_eq_dec : EqDecision lmb_property.
Proof. solve_decision. Defined.

Definition set_region (rgn : lmb_region) (i : Z) (p : lmb_property) : option lmb_region :=
  r ← aset (region rgn) i p; Some (LmbRegion (cnt rgn) (rgn_size rgn) r).

(** * Operations *)

Definition lmb_addrs_overlap (base1 size1 base2 size2 : Z) : bool :=
  (base1 <? u64 (base2 + size2)) && (base2 <? u64 (base1 + size1)).

Definition lmb_addrs_adjacent (base1 size1 base2 size2 : Z) : Z :=
  if base2 =? u64 (base1 + size1) then 1
  else if base1 =? u64 (base2 + size2) then -1
  else 0.

Definition lmb_regions_adjacent (rgn : lmb_region) (r1 r2 : Z) : option Z :=
  p1 ← aget (region rgn) r1;
  p2 ← aget (region rgn) r2;
  Some (lmb_addrs_adjacent (base p1) (size p1) (base p2) (size p2)).

(** Fuel for a walk over a table: an index past the table is undefined. *)
Definition walk : nat := Z.to_nat (MAX_LMB_REGIONS + 3).

Definition lmb_remove_region (rgn : lmb_region) (r : Z) : option lmb_region :=
  rgn ← loop walk (fun '(i, rgn) =>
    if i <? u64 (cnt rgn - 1) then
      p ← aget (region rgn) (i + 1);
      rgn ← set_region rgn i p;
      Some (Next (i + 1, rgn))
    else Some (Done rgn)) (r, rgn);
  Some (LmbRegion (u64 (cnt rgn - 1)) (rgn_size rgn) (region rgn)).

Definition lmb_coalesce_regions (rgn : lmb_region) (r1 r2 : Z) : option lmb_region :=
  p1 ← aget (region rgn) r1;
  p2 ← aget (region rgn) r2;
  rgn ← set_region rgn r1 (LmbProperty (base p1) (u64 (size p1 + size p2)));
  lmb_remove_region rgn r2.

Definition lmb_init (l : lmb) : option lmb :=
  m ← set_region (memory l) 0 (LmbProperty 0 0);
  r ← set_region (reserved l) 0 (LmbProperty 0 0);
  Some (Lmb (rmo_size l) (LmbRegion 1 (rgn_size m) (region m)) (LmbRegion 1 (rgn_size r) (region r))).

Definition lmb_analyze (l : lmb) : option lmb :=
  s ← for_all 0 (cnt (memory l)) (fun i s =>
    p ← aget (region (memory l)) i; Some (u64 (s + size p))) 0;
  Some (Lmb (rmo_size l) (LmbRegion (cnt (memory l)) s (region (memory l))) (reserved l)).

(** The first loop of [lmb_add_region]: [None] inside when the region is in the
    table already, otherwise the index at which the loop stopped, the table and
    the count. *)
Definition add_coalesce (rgn : lmb_region) (base_ size_ : Z)
  : option (option (Z * lmb_region * Z)) :=
  x ← for_ 0 (cnt rgn) (fun i (_ : unit) =>
    p ← aget (region rgn) i;
    let rgnbase := base p in
    let rgnsize := size p in
    if (rgnbase =? base_) && (rgnsize =? size_) then Some (Done None)
    else
      let adjacent := lmb_addrs_adjacent base_ size_ rgnbase rgnsize in
      if 0 <? adjacent then
        rgn ← set_region rgn i (LmbProperty (u64 (base p - size_)) (u64 (size p + size_)));
        Some (Done (Some (i, rgn, 1)))
      else if adjacent <? 0 then
        rgn ← set_region rgn i (LmbProperty (base p) (u64 (size p + size_)));
        Some (Done (Some (i, rgn, 1)))
      else Some (Next tt)) tt;
  Some (match x with Done r => r | Next _ => Some (cnt rgn, rgn, 0) end).

(** The second loop: [i] runs down from [cnt - 1]. *)
Definition add_sorted (rgn : lmb_region) (base_ size_ : Z) : option lmb_region :=
  loop walk (fun '(i, rgn) =>
    if 0 <=? i then
      p ← aget (region rgn) i;
      if base_ <? base p then
        rgn ← set_region rgn (i + 1) p;
        Some (Next (i - 1, rgn))
      else
        rgn ← set_region rgn (i + 1) (LmbProperty base_ size_);
        Some (Done rgn)
    else Some (Done rgn)) (cnt rgn - 1, rgn).

(** What follows the check for the dummy region. *)
Definition add_to_table (rgn : lmb_region) (base_ size_ : Z) : option (lmb_region * Z) :=
  x ← add_coalesce rgn base_ size_;
  match x with
  | None => Some (rgn, 0)
  | Some (i, rgn, coalesced) =>
      '(rgn, coalesced) ←
        (adj ← (if i <? u64 (cnt rgn - 1) then lmb_regions_adjacent rgn i (i + 1) else Some 0);
         if negb (adj =? 0) then
           rgn ← lmb_coalesce_regions rgn i (i + 1); Some (rgn, coalesced + 1)
         else Some (rgn, coalesced));
      if negb (coalesced =? 0) then Some (rgn, coalesced)
      else if MAX_LMB_REGIONS <=? cnt rgn then Some (rgn, -1)
      else
        rgn ← add_sorted rgn base_ size_;
        p0 ← aget (region rgn) 0;
        rgn ← (if base_ <? base p0 then set_region rgn 0 (LmbProperty base_ size_) else Some rgn);
        Some (LmbRegion (u64 (cnt rgn + 1)) (rgn_size rgn) (region rgn), 0)
  end.

Definition lmb_add_region (rgn : lmb_region) (base_ size_ : Z) : option (lmb_region * Z) :=
  p0 ← aget (region rgn) 0;
  if (cnt rgn =? 1) && (size p0 =? 0) then
    rgn ← set_region rgn 0 (LmbProperty base_ size_);
    Some (rgn, 0)
  else add_to_table rgn base_ size_.



(** [BUG_ON(0 == size)]. *)
Definition lmb_reserve (l : lmb) (base_ size_ : Z) : option (lmb * Z) :=
  if size_ =? 0 then None
  else
    '(r, x) ← lmb_add_region (reserved l) base_ size_;
    Some (Lmb (rmo_size l) (memory l) r, x).

Definition lmb_overlaps_region (rgn : lmb_region) (base_ size_ : Z) : option Z :=
  x ← for_ 0 (cnt rgn) (fun i (_ : unit) =>
    p ← aget (region rgn) i;
    if lmb_addrs_overlap base_ size_ (base p) (size p) then Some (Done i) else Some (Next tt)) tt;
  Some (match x with Done i => i | Next _ => -1 end).

Definition lmb_align_down (addr size_ : Z) : Z := Z.land addr (not64 (u64 (size_ - 1))).

Definition lmb_align_up (addr size_ : Z) : Z :=
  Z.land (u64 (addr + u64 (size_ - 1))) (not64 (u64 (size_ - 1))).


Definition lmb_end_of_DRAM (l : lmb) : option Z :=
  p ← aget (region (memory l)) (cnt (memory l) - 1); Some (u64 (base p + size p)).

(** Searches downwards from [start] for a place in the gaps of the reserved
    table; [stop base] is the negated condition of the [while].  The result is
    [None] when there is none, and the place and the outcome of reserving it. *)
Definition lmb_alloc_down (l : lmb) (size_ align : Z) (stop : Z -> bool) (start : Z)
  : option (option (Z * lmb_region * Z)) :=
  loop walk (fun base_ =>
    if stop base_ then Some (Done None)
    else
      j ← lmb_overlaps_region (reserved l) base_ size_;
      if j <? 0 then
        '(r, x) ← lmb_add_region (reserved l) base_ size_;
        Some (Done (Some (base_, r, x)))
      else
        p ← aget (region (reserved l)) j;
        let res_base := base p in
        if res_base <? size_ then Some (Done None)
        else Some (Next (lmb_align_down (u64 (res_base - size_)) align))) start.

(** Each architecture defines [LMB_REAL_LIMIT]. *)
Section alloc.
Context (LMB_REAL_LIMIT : Z).

Definition __lmb_alloc_base (l : lmb) (size_ align max_addr : Z) : option (lmb * Z) :=
  if size_ =? 0 then None
  else
    let size_ := lmb_align_up size_ align in
    let max_addr := if max_addr =? LMB_ALLOC_ANYWHERE then LMB_REAL_LIMIT else max_addr in
    x ← for_ 0 (cnt (memory l)) (fun k (_ : unit) =>
      p ← aget (region (memory l)) (cnt (memory l) - 1 - k);
      let lmbbase := base p in
      let lmbsize := size p in
      if lmbsize <? size_ then Some (Next tt)
      else if negb (max_addr =? LMB_ALLOC_ANYWHERE) && negb (lmbbase <? max_addr) then Some (Next tt)
      else
        let base_ :=
          if max_addr =? LMB_ALLOC_ANYWHERE
          then lmb_align_down (u64 (u64 (lmbbase + lmbsize) - size_)) align
          else lmb_align_down (u64 (Z.min (u64 (lmbbase + lmbsize)) max_addr - size_)) align in
        r ← lmb_alloc_down l size_ align (fun b => (b =? 0) || negb (lmbbase <=? b)) base_;
        match r with
        | None => Some (Next tt)
        | Some (b, r, x) =>
            Some (Done (Lmb (rmo_size l) (memory l) r, if x <? 0 then 0 else b))
        end) tt;
    Some (match x with Done r => r | Next _ => (l, 0) end).

(** [None] when the kernel panics. *)
Definition lmb_alloc_base (l : lmb) (size_ align max_addr : Z) : option (lmb * Z) :=
  '(l, alloc) ← __lmb_alloc_base l size_ align max_addr;
  if alloc =? 0 then None else Some (l, alloc).

Definition lmb_alloc (l : lmb) (size_ align : Z) : option (lmb * Z) :=
  lmb_alloc_base l size_ align LMB_ALLOC_ANYWHERE.
End alloc.

Definition lmb_alloc_nid_unreserved (l : lmb) (start end_ size_ align : Z) : option (lmb * Z) :=
  r ← lmb_alloc_down l size_ align (fun b => negb (start <=? b))
        (lmb_align_down (u64 (end_ - size_)) align);
  Some (match r with
        | None => (l, ULONG_MAX)
        | Some (b, r, x) => (Lmb (rmo_size l) (memory l) r, if x <? 0 then ULONG_MAX else b)
        end).

(** [nid_range] is the caller's map from addresses to nodes: the end of the
    part of the range that belongs to one node, and that node.  [fuel] bounds the
    number of parts. *)
Definition lmb_alloc_nid_region (fuel : nat) (l : lmb) (mp : lmb_property)
    (nid_range : Z -> Z -> Z * Z) (size_ align nid : Z) : option (lmb * Z) :=
  let end_ := u64 (base mp + size mp) in
  loop fuel (fun '(start, l) =>
    if start <? end_ then
      let '(this_end, this_nid) := nid_range start end_ in
      if this_nid =? nid then
        '(l, ret) ← lmb_alloc_nid_unreserved l start this_end size_ align;
        if negb (ret =? ULONG_MAX) then Some (Done (l, ret)) else Some (Next (this_end, l))
      else Some (Next (this_end, l))
    else Some (Done (l, ULONG_MAX))) (lmb_align_up (base mp) align, l).

Definition lmb_alloc_nid (LMB_REAL_LIMIT : Z) (fuel : nat) (l : lmb) (size_ align nid : Z)
    (nid_range : Z -> Z -> Z * Z) : option (lmb * Z) :=
  if size_ =? 0 then None
  else
    let size_ := lmb_align_up size_ align in
    x ← for_ 0 (cnt (memory l)) (fun i l =>
      p ← aget (region (memory l)) i;
      '(l, ret) ← lmb_alloc_nid_region fuel l p nid_range size_ align nid;
      if negb (ret =? ULONG_MAX) then Some (Done (l, ret)) else Some (Next l)) l;
    match x with
    | Done r => Some r
    | Next l => lmb_alloc LMB_REAL_LIMIT l size_ align
    end.

Definition lmb_enforce_memory_limit (l : lmb) (memory_limit : Z) : option lmb :=
  if memory_limit =? 0 then Some l
  else
    x ← for_ 0 (cnt (memory l)) (fun i limit =>
      p ← aget (region (memory l)) i;
      if size p <? limit then Some (Next (u64 (limit - size p)))
      else
        m ← set_region (memory l) i (LmbProperty (base p) limit);
        Some (Done (LmbRegion (i + 1) (rgn_size m) (region m)))) memory_limit;
    let m := match x with Done m => m | Next _ => memory l end in
    p0 ← aget (region m) 0;
    let rmo := if size p0 <? rmo_size l then size p0 else rmo_size l in
    memory_limit ← lmb_end_of_DRAM (Lmb rmo m (reserved l));
    r ← loop walk (fun '(i, r) =>
      if i <? cnt r then
        p ← aget (region r) i;
        let p := if memory_limit <? base p then LmbProperty (base p) 0
                 else if memory_limit <? u64 (base p + size p)
                      then LmbProperty (base p) (u64 (memory_limit - base p))
                 else p in
        r ← set_region r i p;
        if size p =? 0 then
          r ← lmb_remove_region r i; Some (Next (i, r))
        else Some (Next (i + 1, r))
      else Some (Done r)) (0, reserved l);
    Some (Lmb rmo m r).

(** The adjusted request and 0, or -1. *)
Definition lmb_find (l : lmb) (res : lmb_property) : option (lmb_property * Z) :=
  let rstart := base res in
  let rend := u64 (rstart + size res - 1) in
  x ← for_ 0 (cnt (memory l)) (fun i (_ : unit) =>
    p ← aget (region (memory l)) i;
    let start := base p in
    let end_ := u64 (start + size p - 1) in
    if rend <? start then Some (Done (res, -1))
    else if (rstart <=? end_) && (start <? rend) then
      let rstart := if rstart <? start then start else rstart in
      let rend := if end_ <? rend then end_ else rend in
      Some (Done (LmbProperty rstart (u64 (rend - rstart + 1)), 0))
    else Some (Next tt)) tt;
  Some (match x with Done r => r | Next _ => (res, -1) end).

(** * Specification *)

(** The regions of a table. *)
Definition regions (t : lmb_region) : list lmb_property := take (Z.to_nat (cnt t)) (region t).

Definition region_ok (p : lmb_property) : Prop :=
  0 <= base p /\ 0 < size p /\ base p + size p < 2 ^ 64.

(** [p] lies below [q] with a gap between them. *)
Definition below (p q : lmb_property) : Prop := base p + size p < base q.

Definition separated (l : list lmb_property) : Prop := Forall region_ok l /\ StronglySorted below l.

(** A table in canonical form: sorted, disjoint and not adjacent. *)
Definition table_wf (t : lmb_region) : Prop :=
  zlen (region t) = MAX_LMB_REGIONS + 1 /\ 0 <= cnt t <= MAX_LMB_REGIONS /\ separated (regions t).

(** The table [lmb_init] leaves. *)
Definition table_dummy (t : lmb_region) : Prop :=
  zlen (region t) = MAX_LMB_REGIONS + 1 /\ cnt t = 1 /\ regions t = [LmbProperty 0 0].

Definition covers (l : list lmb_property) (a : Z) : Prop :=
  exists p, p ∈ l /\ base p <= a < base p + size p.

Definition disjoint_from (l : list lmb_property) (b s : Z) : Prop :=
  forall a, b <= a < b + s -> ~ covers l a.

(** ** Arrays around an element *)

Lemma table_split t :
  zlen (region t) = MAX_LMB_REGIONS + 1 -> 0 <= cnt t <= MAX_LMB_REGIONS ->
  exists j, region t = regions t ++ j /\ zlen (regions t) = cnt t /\
    zlen j = MAX_LMB_REGIONS + 1 - cnt t.
Proof.
  intros Hl Hc. exists (drop (Z.to_nat (cnt t)) (region t)). unfold regions, zlen in *.
  rewrite take_drop, length_take, length_drop. split_and!; (done || lia).
Qed.

Lemma regions_app c s l j : zlen l = c -> regions (LmbRegion c s (l ++ j)) = l.
Proof. intros <-. unfold regions, zlen; simpl. by rewrite Nat2Z.id, take_app_length. Qed.

(** A region fits below or above another when they do not overlap. *)
Lemma disjoint_side l b s p :
  0 < s -> p ∈ l -> region_ok p -> disjoint_from l b s ->
  base p + size p <= b \/ b + s <= base p.
Proof.
  intros Hs Hp (H0 & H1 & H2) Hd.
  destruct (Z.le_gt_cases (base p + size p) b); [by left|].
  destruct (Z.le_gt_cases (b + s) (base p)); [by right|].
  destruct (Hd (Z.max b (base p))); [lia|]. exists p. split; [done|lia].
Qed.

Lemma addrs_adjacent_spec b1 s1 b2 s2 :
  0 <= b1 -> 0 < s1 -> b1 + s1 < 2 ^ 64 -> 0 <= b2 -> 0 < s2 -> b2 + s2 < 2 ^ 64 ->
  lmb_addrs_adjacent b1 s1 b2 s2 = if b2 =? b1 + s1 then 1 else if b1 =? b2 + s2 then -1 else 0.
Proof. intros. unfold lmb_addrs_adjacent. by unwrap. Qed.

Lemma addrs_overlap_spec b1 s1 b2 s2 :
  0 <= b1 -> 0 < s1 -> b1 + s1 < 2 ^ 64 -> 0 <= b2 -> 0 <= s2 -> b2 + s2 < 2 ^ 64 ->
  lmb_addrs_overlap b1 s1 b2 s2 = (b1 <? b2 + s2) && (b2 <? b1 + s1).
Proof. intros. unfold lmb_addrs_overlap. by unwrap. Qed.

Lemma covers_app la lb a : covers (la ++ lb) a <-> covers la a \/ covers lb a.
Proof. unfold covers. set_solver. Qed.

Lemma covers_cons p l a : covers (p :: l) a <-> base p <= a < base p + size p \/ covers l a.
Proof. unfold covers. set_solver. Qed.

Lemma below_trans p q r : region_ok q -> below p q -> below q r -> below p r.
Proof. unfold below, region_ok. lia. Qed.

Lemma separated_app la lb :
  separated (la ++ lb) <->
  separated la /\ separated lb /\ forall p q, p ∈ la -> q ∈ lb -> below p q.
Proof. unfold separated. rewrite Forall_app, StronglySorted_app. naive_solver. Qed.

(** A region in the middle keeps the two sides apart. *)
Lemma separated_mid la p lb :
  separated (la ++ p :: lb) <->
  separated la /\ separated lb /\ region_ok p /\ Forall (fun q => below q p) la /\ Forall (below p) lb.
Proof.
  rewrite separated_app. unfold separated. rewrite Forall_cons, StronglySorted_cons, !Forall_forall.
  split; [set_solver|]. intros (Hla & Hlb & Hp & Hbl & Hbr). split_and!; try done; try naive_solver.
  intros q r Hq [->|Hr]%elem_of_cons; [by apply Hbl|].
  eapply below_trans; [exact Hp|by apply Hbl|by apply Hbr].
Qed.


(** ** Shifting the table *)

Lemma remove_region_spec c s la y lb j :
  zlen (la ++ y :: lb) = c -> c <= MAX_LMB_REGIONS + 1 ->
  exists j', lmb_remove_region (LmbRegion c s ((la ++ y :: lb) ++ j)) (zlen la) =
      Some (LmbRegion (c - 1) s ((la ++ lb) ++ j')) /\ zlen j' = zlen j + 1.
Proof.
  unfold MAX_LMB_REGIONS. intros Hc Hmax. rewrite zlen_app, zlen_cons in Hc.
  pose proof (zlen_nonneg la). pose proof (zlen_nonneg lb). unfold lmb_remove_region.
  match goal with |- exists j', (_ ← loop walk ?f _; _) = _ /\ _ =>
    destruct (loop_total f (fun '(i, t) => exists la' x lb', t = LmbRegion c s (la' ++ x :: lb' ++ j) /\
        la' ++ lb' = la ++ lb /\ zlen la' = i)
      (fun t => exists x, t = LmbRegion c s ((la ++ lb) ++ x :: j)) (fun '(i, _) => Z.to_nat (c - i)))
      with (fuel := walk) (s := (zlen la, LmbRegion c s ((la ++ y :: lb) ++ j))) as (t & Ht & x & ->) end.
  - intros [i t] (la' & x & lb' & -> & Heq & Hi). simpl.
    assert (Hl : zlen la' + zlen lb' = c - 1) by (rewrite <- zlen_app, Heq, zlen_app; lia).
    pose proof (zlen_nonneg la'). pose proof (zlen_nonneg lb'). unwrap.
    destruct (Z.ltb_spec i (c - 1)).
    + destruct lb' as [|z lb']; [unfold zlen in *; simpl in *; lia|].
      replace (la' ++ x :: (z :: lb') ++ j) with ((la' ++ [x]) ++ z :: lb' ++ j)
        by (by rewrite <- app_assoc).
      rewrite aget_mid by (rewrite zlen_app; unfold zlen; simpl; unfold zlen in *; lia). simpl.
      unfold set_region; simpl. rewrite <- app_assoc. simpl. rewrite aset_mid by done. simpl.
      eexists. split; [done|]. simpl. split; [|lia]. exists (la' ++ [z]), z, lb'.
      rewrite zlen_app, <- !app_assoc. split_and!; try done. unfold zlen in *. simpl. lia.
    + eexists. split; [done|]. simpl. assert (lb' = []) as -> by (apply zlen_nil_inv; lia).
      exists x. rewrite app_nil_r in Heq. by rewrite <- Heq.
  - exists la, y, lb. by rewrite <- app_assoc.
  - unfold walk, MAX_LMB_REGIONS. lia.
  - rewrite Ht. simpl. unwrap. exists (x :: j). split; [done|]. apply zlen_cons.
Qed.

Lemma separated_prefix_le la y lb b :
  separated (la ++ y :: lb) -> base y <= b -> Forall (fun p => base p <= b) (la ++ [y]).
Proof.
  rewrite separated_mid. intros ([Hok _] & _ & _ & Hbl & _) Hy.
  apply Forall_app. split; [|by constructor]. rewrite Forall_forall in *. intros q Hq.
  specialize (Hbl q Hq). specialize (Hok q Hq). unfold below, region_ok in *. lia.
Qed.

(** The insertion: the second loop and the check of the first entry. *)
Lemma add_sorted_spec c s l j0 j b sz :
  l <> [] -> zlen l = c -> c <= MAX_LMB_REGIONS ->
  separated l ->
  exists la lb, l = la ++ lb /\ Forall (fun p => base p <= b) la /\ Forall (fun p => b < base p) lb /\
    (rgn ← add_sorted (LmbRegion c s (l ++ j0 :: j)) b sz;
     p0 ← aget (region rgn) 0;
     rgn ← (if b <? base p0 then set_region rgn 0 (LmbProperty b sz) else Some rgn);
     Some (LmbRegion (u64 (cnt rgn + 1)) (rgn_size rgn) (region rgn), 0)) =
    Some (LmbRegion (c + 1) s ((la ++ LmbProperty b sz :: lb) ++ j), 0).
Proof.
  unfold MAX_LMB_REGIONS. intros Hne Hc Hmax Hsort. pose proof (zlen_nonneg l).
  unfold add_sorted. simpl cnt.
  match goal with |- context [loop walk ?f _] =>
    destruct (loop_total f
      (fun '(i, t) => exists la x lb, t = LmbRegion c s (la ++ x :: lb ++ j) /\ l = la ++ lb /\
         zlen la = i + 1 /\ Forall (fun p => b < base p) lb /\ (la = [] -> x ∈ lb))
      (fun t => exists la x lb, t = LmbRegion c s (la ++ x :: lb ++ j) /\ l = la ++ lb /\
         Forall (fun p => base p <= b) la /\ Forall (fun p => b < base p) lb /\
         (la = [] -> x ∈ lb) /\ (la <> [] -> x = LmbProperty b sz))
      (fun '(i, _) => Z.to_nat (i + 1)))
      with (fuel := walk) (s := (c - 1, LmbRegion c s (l ++ j0 :: j)))
      as (t & -> & la & x & lb & -> & -> & Hla & Hlb & Hx0 & Hx) end.
  - intros [i t] (la & x & lb & -> & -> & Hi & Hlb & Hx). simpl.
    destruct (Z.leb_spec 0 i).
    + destruct la as [|y la' _] using rev_ind; [unfold zlen in *; simpl in *; lia|].
      rewrite <- app_assoc. simpl. rewrite zlen_app in Hi. change (zlen [y]) with 1 in Hi.
      rewrite aget_mid by lia. simpl. unfold set_region; simpl.
      replace (la' ++ y :: x :: lb ++ j) with ((la' ++ [y]) ++ x :: lb ++ j) by (by rewrite <- app_assoc).
      rewrite !aset_mid by (rewrite zlen_app; change (zlen [y]) with 1; lia). simpl.
      destruct (Z.ltb_spec b (base y)); eexists; (split; [done|]); simpl.
      * split; [|lia]. exists la', y, (y :: lb). rewrite <- app_assoc. split_and!; try done.
        -- by rewrite <- app_assoc.
        -- lia.
        -- by constructor.
        -- intros _. set_solver.
      * exists (la' ++ [y]), (LmbProperty b sz), lb. split_and!; try done; [|by intros []%app_nil].
        rewrite <- app_assoc in Hsort. by eapply separated_prefix_le.
    + assert (la = []) as -> by (apply zlen_nil_inv; pose proof (zlen_nonneg la); lia).
      eexists. split; [done|]. exists [], x, lb. split_and!; try done.
  - exists l, j0, []. rewrite app_nil_r. split_and!; (done || lia).
  - unfold walk, MAX_LMB_REGIONS. lia.
  - simpl. exists la, lb. split_and!; [done..|]. rewrite zlen_app in *.
    destruct la as [|y la]; simpl.
    + destruct lb as [|z lb]; [done|]. specialize (Hx0 eq_refl).
      rewrite Forall_forall in Hlb. specialize (Hlb x Hx0).
      destruct (Z.ltb_spec b (base x)); [|lia]. simpl. by unwrap.
    + rewrite Hx by done. apply Forall_cons in Hla as [Hy _].
      destruct (Z.ltb_spec b (base y)); [lia|]. simpl. rewrite <- app_assoc. simpl. by unwrap.
Qed.

(** ** Adding a region *)

(** Neither adjacent to the range nor equal to it. *)
Definition apart (b s : Z) (q : lmb_property) : Prop :=
  base q <> b + s /\ base q + size q <> b /\ q <> LmbProperty b s.

(** [p] extended by the range that touches it. *)
Definition extends (b s : Z) (p p' : lmb_property) : Prop :=
  (base p = b + s /\ p' = LmbProperty b (size p + s)) \/
  (base p + size p = b /\ p' = LmbProperty (base p) (size p + s)).

Lemma add_coalesce_spec c s l j b sz :
  zlen l = c -> Forall region_ok l -> region_ok (LmbProperty b sz) ->
  exists x, add_coalesce (LmbRegion c s (l ++ j)) b sz = Some x /\
    match x with
    | None => LmbProperty b sz ∈ l
    | Some (i, t, n) =>
        (n = 0 /\ i = c /\ t = LmbRegion c s (l ++ j) /\ Forall (apart b sz) l) \/
        (n = 1 /\ exists la p lb p', l = la ++ p :: lb /\ i = zlen la /\ Forall (apart b sz) la /\
           extends b sz p p' /\ t = LmbRegion c s ((la ++ p' :: lb) ++ j))
    end.
Proof.
  intros <- Hok (Hb & Hs & He). simpl in Hb, Hs, He. unfold add_coalesce. simpl cnt. simpl region.
  scan_array l j (apart b sz) (fun x : option (Z * lmb_region * Z) =>
    match x with None => LmbProperty b sz ∈ l | Some (i, t, n) =>
      n = 1 /\ exists la p lb p', l = la ++ p :: lb /\ i = zlen la /\ Forall (apart b sz) la /\
        extends b sz p p' /\ t = LmbRegion (zlen l) s ((la ++ p' :: lb) ++ j) end) x Hx.
  - intros la p lb -> Hla.
    assert (Hpok : region_ok p) by (eapply Forall_forall; [exact Hok|set_solver]).
    pose proof Hpok as (Hp1 & Hp2 & Hp3). rewrite addrs_adjacent_spec by lia.
    unfold set_region; simpl. rewrite <- app_assoc. simpl. rewrite !aset_mid by lia.
    destruct ((base p =? b) && (size p =? sz)) eqn:E.
    { eexists. split; [done|]. simpl. destruct p; simpl in *. assert (base0 = b /\ size0 = sz) as [-> ->] by lia.
      set_solver. }
    destruct (Z.eqb_spec (base p) (b + sz)).
    { unwrap. replace (base p - sz) with b by lia. eexists. split; [simpl; done|]. simpl. split; [done|].
      exists la, p, lb, (LmbProperty b (size p + sz)). rewrite <- app_assoc. split_and!; try done. by left. }
    destruct (Z.eqb_spec b (base p + size p)).
    { unwrap. eexists. split; [simpl; done|]. simpl. split; [done|].
      exists la, p, lb, (LmbProperty (base p) (size p + sz)). rewrite <- app_assoc. split_and!; try done.
      by right. }
    eexists. split; [simpl; done|]. split_and!; try lia. intros ->. simpl in E. lia.
  - destruct x as [[]|[[[i t] n]|]]; simpl; eexists; (split; [done|]); simpl; [by left|by right|done].
Qed.

(** A table given by its regions and the rest of the array. *)
Definition mk_table (s : Z) (l j : list lmb_property) : lmb_region := LmbRegion (zlen l) s (l ++ j).

Lemma mk_table_wf s l j :
  zlen l + zlen j = MAX_LMB_REGIONS + 1 -> zlen l <= MAX_LMB_REGIONS -> separated l ->
  table_wf (mk_table s l j).
Proof.
  intros Hz Hl Hs. unfold table_wf, mk_table. rewrite regions_app by done. simpl.
  rewrite zlen_app. pose proof (zlen_nonneg l). split_and!; (done || lia).
Qed.

Lemma table_wf_mk t : table_wf t -> exists s j, t = mk_table s (regions t) j /\
  zlen (regions t) + zlen j = MAX_LMB_REGIONS + 1 /\ zlen (regions t) = cnt t.
Proof.
  intros (Hz & Hc & _). destruct (table_split t Hz Hc) as (j & Hj & Hlen & Hjl).
  exists (rgn_size t), j. destruct t as [c s r]; unfold mk_table; simpl in *.
  rewrite Hlen, <- Hj. split_and!; (done || lia).
Qed.

(** The end of [lmb_add_region] after a region was extended: merge it with the
    next one if they touch now. *)
Lemma coalesce_next_spec s la p lb j :
  zlen (la ++ p :: lb) <= MAX_LMB_REGIONS ->
  separated la -> region_ok p -> Forall (fun q => below q p) la ->
  separated lb -> Forall (fun q => base p + size p <= base q) lb ->
  let t := mk_table s (la ++ p :: lb) j in
  exists l' j' n,
    (adj ← (if zlen la <? u64 (cnt t - 1) then lmb_regions_adjacent t (zlen la) (zlen la + 1) else Some 0);
     if negb (adj =? 0) then
       rgn ← lmb_coalesce_regions t (zlen la) (zlen la + 1); Some (rgn, 1 + 1)
     else Some (t, 1)) = Some (mk_table s l' j', n) /\
    1 <= n /\ l' <> [] /\ separated l' /\ zlen l' <= zlen (la ++ p :: lb) /\
    zlen l' + zlen j' = zlen (la ++ p :: lb) + zlen j /\
    forall a, covers l' a <-> covers (la ++ p :: lb) a.
Proof.
  intros Hmax Hla Hp Hbl Hlb Hbr t. unfold t. simpl. rewrite zlen_app, zlen_cons in *.
  unfold MAX_LMB_REGIONS in *. pose proof (zlen_nonneg la). pose proof (zlen_nonneg lb). unwrap.
  assert (Hsame : Forall (below p) lb -> separated (la ++ p :: lb)) by (intros; apply separated_mid; done).
  destruct lb as [|q lb].
  { change (zlen []) with 0. destruct (Z.ltb_spec (zlen la) (zlen la + (0 + 1) - 1)); [lia|]. simpl.
    exists (la ++ [p]), j, 1. split; [done|]. rewrite zlen_app. split_and!; try done; try lia; [by destruct la|auto]. }
  rewrite zlen_cons in *. pose proof (zlen_nonneg lb).
  destruct (Z.ltb_spec (zlen la) (zlen la + (zlen lb + 1 + 1) - 1)); [|lia].
  apply Forall_cons in Hbr as [Hpq Hbr]. pose proof Hlb as [[Hq _]%Forall_cons _].
  pose proof Hp as (Hp0 & Hp1 & Hp2). pose proof Hq as (Hq0 & Hq1 & Hq2).
  unfold lmb_regions_adjacent, lmb_coalesce_regions, mk_table; simpl.
  replace ((la ++ p :: q :: lb) ++ j) with ((la ++ [p]) ++ q :: lb ++ j) by (by rewrite <- !app_assoc).
  rewrite !(aget_mid (la ++ [p])) by (rewrite zlen_app; done).
  replace ((la ++ [p]) ++ q :: lb ++ j) with (la ++ p :: q :: lb ++ j) by (by rewrite <- !app_assoc).
  rewrite !aget_mid by done. simpl. rewrite addrs_adjacent_spec by lia.
  destruct (Z.eqb_spec (base q) (base p + size p)) as [E|E].
  - simpl. unfold set_region; simpl. rewrite aset_mid by done. simpl. unwrap.
    set (p' := LmbProperty (base p) (size p + size q)).
    destruct (remove_region_spec (zlen (la ++ p :: q :: lb)) s (la ++ [p']) q lb j) as (j' & Hr & Hj').
    { rewrite !zlen_app, !zlen_cons. change (zlen []) with 0. lia. }
    { rewrite zlen_app, !zlen_cons. unfold MAX_LMB_REGIONS. lia. }
    replace (zlen (la ++ [p'])) with (zlen la + 1) in Hr by (by rewrite zlen_app).
    replace (la ++ p' :: q :: lb ++ j) with (((la ++ [p']) ++ q :: lb) ++ j) by (by rewrite <- !app_assoc).
    rewrite Hr. simpl. exists ((la ++ [p']) ++ lb), j', 2. unfold mk_table.
    assert (Hz : zlen ((la ++ [p']) ++ lb) = zlen la + zlen lb + 1).
    { rewrite !zlen_app. change (zlen [p']) with 1. lia. }
    split_and!; [|lia|by destruct la| |rewrite Hz; lia|rewrite Hz; lia|].
    + do 3 f_equal. rewrite Hz, zlen_app, !zlen_cons. lia.
    + rewrite <- app_assoc. simpl. apply (separated_mid [] q lb) in Hlb as (_ & Hlb & _ & _ & Hql).
      apply separated_mid. split_and!; try done.
      * unfold region_ok; simpl. lia.
      * eapply Forall_impl; [exact Hql|]. unfold below; simpl. intros; lia.
    + intros a. rewrite <- app_assoc. simpl. rewrite !covers_app, !covers_cons. simpl.
      split; intros; destruct_or?; try tauto; try lia.
      all: destruct (Z.lt_ge_cases a (base p + size p)); try tauto; naive_solver lia.
  - destruct (Z.eqb_spec (base p) (base q + size q)); [lia|]. simpl.
    exists (la ++ p :: q :: lb), j, 1. unfold mk_table. rewrite <- app_assoc. simpl.
    rewrite zlen_app, !zlen_cons. split_and!; try done; try lia; [by destruct la|].
    apply Hsame. apply (separated_mid [] q lb) in Hlb as (_ & Hlb & _ & _ & Hql).
    constructor; [unfold below; lia|]. eapply Forall_impl; [exact Hql|]. unfold below. intros; lia.
Qed.

(** The outcome of adding the range: refused because the table is full, or
    a canonical table that covers the range as well. *)
Definition add_outcome (t : lmb_region) (b sz : Z) (t' : lmb_region) (r : Z) : Prop :=
  (r = -1 /\ cnt t = MAX_LMB_REGIONS /\ t' = t /\ Forall (apart b sz) (regions t)) \/
  (0 <= r /\ table_wf t' /\ 1 <= cnt t' /\
   forall a, covers (regions t') a <-> covers (regions t) a \/ b <= a < b + sz).

(** Two regions of a canonical table, in the order they are stored. *)
Lemma below_in la p lb q :
  separated (la ++ p :: lb) -> q ∈ la ++ p :: lb -> q = p \/ (q ∈ la /\ below q p) \/ (q ∈ lb /\ below p q).
Proof. rewrite separated_mid, !Forall_forall. set_solver. Qed.

(** Extending a region by a range that touches it keeps the order, and the
    only neighbour that can touch it now is the next one. *)
Lemma extend_separated la p lb p' b sz :
  separated (la ++ p :: lb) -> region_ok (LmbProperty b sz) -> disjoint_from (la ++ p :: lb) b sz ->
  Forall (apart b sz) la -> extends b sz p p' ->
  region_ok p' /\ Forall (fun q => below q p') la /\
  Forall (fun q => base p' + size p' <= base q) lb /\
  forall a, base p' <= a < base p' + size p' <-> base p <= a < base p + size p \/ b <= a < b + sz.
Proof.
  intros Hsep (Hb & Hs & He) Hd Hap Hext. simpl in *.
  pose proof Hsep as (Hla & Hlb & Hp & Hbl & Hbr)%separated_mid.
  pose proof Hp as (Hp0 & Hp1 & Hp2).
  assert (Hside : forall q, q ∈ la ++ p :: lb -> base q + size q <= b \/ b + sz <= base q).
  { intros q Hq. eapply disjoint_side; [done|done| |done].
    destruct Hsep as [Hok _]. by eapply Forall_forall in Hok. }
  rewrite !Forall_forall in *. destruct Hext as [[E ->]|[E ->]]; simpl; split_and!.
  1, 5: unfold region_ok; simpl; lia.
  1, 4: intros q Hq; specialize (Hbl q Hq); specialize (Hap q Hq) as (? & ? & _);
    specialize (Hside q ltac:(set_solver)); destruct Hla as [Hla _];
    rewrite Forall_forall in Hla; specialize (Hla q Hq); unfold below, region_ok in *; simpl; lia.
  1, 3: intros q Hq; specialize (Hbr q Hq); specialize (Hside q ltac:(set_solver));
    destruct Hlb as [Hlb _]; rewrite Forall_forall in Hlb; specialize (Hlb q Hq);
    unfold below, region_ok in *; simpl; lia.
  all: intros a; lia.
Qed.

(** Inserting a range that touches no region. *)
Lemma insert_separated la lb b sz :
  separated (la ++ lb) -> region_ok (LmbProperty b sz) -> disjoint_from (la ++ lb) b sz ->
  Forall (apart b sz) (la ++ lb) -> Forall (fun p => base p <= b) la -> Forall (fun p => b < base p) lb ->
  separated (la ++ LmbProperty b sz :: lb).
Proof.
  intros Hsep Hr Hd Hap Hl Hg. pose proof Hsep as (Hla & Hlb & _)%separated_app.
  apply separated_mid. split_and!; try done; apply Forall_forall; intros q Hq;
    (assert (Hok : region_ok q) by (destruct Hsep as [Hok _]; eapply Forall_forall; [exact Hok|set_solver]));
    pose proof (disjoint_side (la ++ lb) b sz q ltac:(by apply Hr) ltac:(set_solver) Hok Hd);
    rewrite Forall_forall in Hap; destruct (Hap q ltac:(set_solver)) as (? & ? & _);
    rewrite Forall_forall in Hl, Hg; unfold below, region_ok in *; simpl in *.
  - specialize (Hl q Hq). lia.
  - specialize (Hg q Hq). lia.
Qed.

(** A canonical table does not look like the dummy. *)
Lemma add_region_canonical s l j b sz :
  l <> [] -> separated l -> lmb_add_region (mk_table s l j) b sz = add_to_table (mk_table s l j) b sz.
Proof.
  intros Hne [Hok _]. destruct l as [|p l]; [done|]. apply Forall_cons in Hok as [(_ & Hs & _) _].
  unfold lmb_add_region. change (aget (region (mk_table s (p :: l) j)) 0) with (Some p).
  cbv beta iota delta [mbind option_bind]. destruct (Z.eqb_spec (size p) 0); [lia|]. by rewrite andb_false_r.
Qed.

Lemma add_region_spec t b sz :
  table_wf t -> 1 <= cnt t -> region_ok (LmbProperty b sz) -> disjoint_from (regions t) b sz ->
  exists t' r, lmb_add_region t b sz = Some (t', r) /\ add_outcome t b sz t' r.
Proof.
  intros Hwf Hcnt Hr Hd. pose proof Hwf as (_ & Hmax & Hsep).
  destruct (table_wf_mk t Hwf) as (s & j & Ht & Hz & Hc). revert Hd Hsep Hz Hc Ht.
  generalize (regions t) as l. intros l Hd Hsep Hz Hc ->. simpl in Hcnt, Hmax. clear Hc Hwf.
  pose proof Hr as (Hb & Hs & He). simpl in Hb, Hs, He.
  rewrite add_region_canonical by (done || by intros ->). unfold add_to_table, mk_table.
  destruct (add_coalesce_spec (zlen l) s l j b sz) as (x & -> & Hx); [done|by destruct Hsep|done|]. simpl.
  destruct x as [[[i t] n]|]; [|exfalso].
  2: { apply (Hd b); [lia|]. exists (LmbProperty b sz). split; [done|]. simpl. lia. }
  destruct Hx as [(-> & -> & -> & Hap)|(-> & la & p & lb & p' & -> & -> & Hap & Hext & ->)].
  - simpl. unfold MAX_LMB_REGIONS in *. unwrap. destruct (Z.ltb_spec (zlen l) (zlen l - 1)); [lia|]. simpl.
    destruct (Z.leb_spec 128 (zlen l)).
    + eexists _, _. split; [done|]. left. unfold mk_table. rewrite regions_app by done. simpl.
      split_and!; try done. unfold MAX_LMB_REGIONS. lia.
    + destruct j as [|j0 j]; [change (zlen []) with 0 in Hz; lia|]. rewrite zlen_cons in Hz.
      destruct (add_sorted_spec (zlen l) s l j0 j b sz) as (la & lb & -> & Hla & Hlb & Heq);
        [by intros ->|done|unfold MAX_LMB_REGIONS; lia|done|].
      rewrite Heq. eexists _, _. split; [done|]. right.
      replace (zlen (la ++ lb) + 1) with (zlen (la ++ LmbProperty b sz :: lb))
        by (rewrite !zlen_app, zlen_cons; lia).
      assert (Hl' : zlen (la ++ LmbProperty b sz :: lb) = zlen (la ++ lb) + 1)
        by (rewrite !zlen_app, zlen_cons; lia).
      split; [lia|]. split.
      { apply mk_table_wf; [unfold MAX_LMB_REGIONS; lia|unfold MAX_LMB_REGIONS; lia|].
        by apply insert_separated. }
      split; [simpl; lia|]. intros a. unfold mk_table. rewrite !regions_app by done.
      rewrite !covers_app, covers_cons. simpl. tauto.
  - destruct (extend_separated la p lb p' b sz) as (Hp' & Hl' & Hr' & Hcov); [done..|].
    pose proof Hsep as (Hla & Hlb & _)%separated_mid.
    destruct (coalesce_next_spec s la p' lb j) as (l' & j' & n & Heq & Hn & Hne & Hs' & Hle & Hsum & Hcov');
      [by rewrite zlen_app, zlen_cons in *; lia|done..|].
    unfold mk_table in Heq at 1 2 3 4.
    assert (Hlen : zlen (la ++ p' :: lb) = zlen (la ++ p :: lb)) by (by rewrite !zlen_app, !zlen_cons).
    rewrite Hlen in *. rewrite Heq. simpl. destruct (Z.eqb_spec n 0); [lia|]. simpl.
    eexists _, _. split; [done|]. right. split; [lia|].
    split; [apply mk_table_wf; [lia|lia|done]|]. split.
    { simpl. destruct l'; [done|]. rewrite zlen_cons. pose proof (zlen_nonneg l'). lia. }
    intros a. unfold mk_table. rewrite !regions_app by done. rewrite Hcov'.
    rewrite !covers_app, !covers_cons, Hcov. tauto.
Qed.

(** The tables [lmb_add_region] is meant for. *)
Definition table_ok (t : lmb_region) : Prop := table_dummy t \/ (table_wf t /\ 1 <= cnt t).

Lemma region_ok_separated p : region_ok p -> separated [p].
Proof. intros. split; [by constructor|]. repeat constructor. Qed.

Lemma add_dummy_spec t b sz :
  table_dummy t -> region_ok (LmbProperty b sz) ->
  exists t', lmb_add_region t b sz = Some (t', 0) /\ table_wf t' /\ cnt t' = 1 /\
    forall a, covers (regions t') a <-> b <= a < b + sz.
Proof.
  intros (Hz & Hc & Hr) Hok. unfold lmb_add_region.
  destruct t as [c s [|p0 r]]; simpl in *; [unfold zlen, MAX_LMB_REGIONS in Hz; simpl in Hz; lia|].
  subst c. injection Hr as ->. change (aget (LmbProperty 0 0 :: r) 0) with (Some (LmbProperty 0 0)). simpl.
  eexists. split; [done|]. rewrite zlen_cons in Hz. split_and!; [|done|].
  - apply (mk_table_wf s [LmbProperty b sz] r); [change (zlen [_]) with 1; lia|by vm_compute|].
    by apply region_ok_separated.
  - intros a. change (regions _) with [LmbProperty b sz]. unfold covers. set_solver.
Qed.

Lemma add_ok_spec t b sz :
  table_ok t -> region_ok (LmbProperty b sz) -> disjoint_from (regions t) b sz ->
  exists t' r, lmb_add_region t b sz = Some (t', r) /\ add_outcome t b sz t' r.
Proof.
  intros [Hd|[Hw Hc]] Hr Hdis; [|by apply add_region_spec].
  destruct (add_dummy_spec t b sz) as (t' & -> & Hwf & Hc & Hcov); [done|done|].
  eexists _, _. split; [done|]. right. split_and!; [lia|done|lia|]. intros a. rewrite Hcov.
  destruct Hd as (_ & _ & ->). unfold covers. split; [tauto|]. intros [(p & Hp & Ha)|]; [|done].
  apply list_elem_of_singleton in Hp as ->. simpl in Ha. lia.
Qed.


(** ** Removing memory *)










(** ** Overlaps and alignment *)

Definition region_fits (p : lmb_property) : Prop :=
  0 <= base p /\ 0 <= size p /\ base p + size p < 2 ^ 64 /\ (size p = 0 -> base p = 0).

Lemma table_ok_mk t : table_ok t ->
  exists s j, t = mk_table s (regions t) j /\ zlen (regions t) = cnt t /\
    cnt t <= MAX_LMB_REGIONS /\ Forall region_fits (regions t).
Proof.
  intros [(Hz & Hc & Hr)|[Hwf _]].
  - destruct (table_split t Hz) as (j & Hj & Hl & _); [rewrite Hc; by vm_compute|].
    exists (rgn_size t), j. rewrite Hr in *. destruct t as [c s r]; simpl in *. subst c r. split_and!; try done.
    by constructor.
  - destruct (table_wf_mk t Hwf) as (s & j & Ht & _ & Hc). exists s, j. pose proof Hwf as (_ & ? & [Hok _]).
    split_and!; try done; [lia|]. eapply Forall_impl; [exact Hok|]. unfold region_ok, region_fits. intros; lia.
Qed.

Lemma overlaps_spec s l j b sz :
  Forall region_fits l -> region_ok (LmbProperty b sz) ->
  exists r, lmb_overlaps_region (mk_table s l j) b sz = Some r /\
    ((r = -1 /\ disjoint_from l b sz) \/
     exists la p lb, l = la ++ p :: lb /\ r = zlen la /\ base p < b + sz /\ b < base p + size p).
Proof.
  intros Hok (Hb & Hs & He). simpl in *. unfold lmb_overlaps_region, mk_table. simpl cnt. simpl region.
  scan_array l j (fun p => ~ (base p < b + sz /\ b < base p + size p))
    (fun r => exists la p lb, l = la ++ p :: lb /\ r = zlen la /\ base p < b + sz /\ b < base p + size p) x Hx.
  - intros la p lb -> _. assert (Hp : region_fits p) by (eapply Forall_forall; [exact Hok|set_solver]).
    destruct Hp as (? & ? & ? & _). rewrite addrs_overlap_spec by lia.
    destruct ((b <? base p + size p) && (base p <? b + sz)) eqn:E; eexists; (split; [done|]); simpl; [|lia].
    exists la, p, lb. split_and!; (done || lia).
  - simpl. destruct x as [[]|r]; eexists; (split; [done|]); [left|by right].
    split; [done|]. intros a Ha (p & Hp & Hin). rewrite Forall_forall in Hx. specialize (Hx p Hp). lia.
Qed.

Section align.
Context (k : Z) (Hk : 0 <= k < 64).

Lemma align_down_spec a : is_u64 a -> lmb_align_down a (2 ^ k) = a - a mod 2 ^ k.
Proof using Hk. by apply align_mask. Qed.

Lemma align_down_range a : is_u64 a ->
  let d := lmb_align_down a (2 ^ k) in 0 <= d <= a /\ d mod 2 ^ k = 0 /\ a < d + 2 ^ k.
Proof using Hk. by apply align_mask_range. Qed.

(** Any aligned address at or below [a] is at or below [lmb_align_down a]. *)
Lemma align_down_greatest a c : is_u64 a -> c mod 2 ^ k = 0 -> c <= a -> c <= lmb_align_down a (2 ^ k).
Proof using Hk.
  intros Ha Hc Hle. rewrite align_down_spec by done. pose proof (Z.pow_pos_nonneg 2 k).
  rewrite (Z.div_mod a (2 ^ k)) at 1 by lia. rewrite (Z.div_mod c (2 ^ k)), Hc by lia.
  pose proof (Z.div_le_mono c a (2 ^ k) ltac:(lia) Hle). nia.
Qed.

Lemma align_up_spec a : 0 <= a -> a + 2 ^ k <= 2 ^ 64 ->
  let u := lmb_align_up a (2 ^ k) in a <= u < a + 2 ^ k /\ u mod 2 ^ k = 0.
Proof using Hk. by apply mask_up. Qed.
End align.

(** ** Allocation *)

Section alloc_down.
Context (l : lmb) (k sz : Z) (Hk : 0 <= k < 64) (Hsz : 0 < sz).
Context (Hres : table_ok (reserved l)).
Context (stop : Z -> bool) (Hstop : forall b c, 0 <= c <= b -> stop b = true -> stop c = true).

(** An aligned place whose bytes are all unreserved. *)
Definition candidate (c : Z) : Prop :=
  0 <= c /\ c mod 2 ^ k = 0 /\ disjoint_from (regions (reserved l)) c sz.

(** The search returns the highest candidate at or below [start] at which it
    has not stopped, and reserves it. *)
Lemma alloc_down_spec start :
  0 <= start -> start + sz < 2 ^ 64 -> start mod 2 ^ k = 0 ->
  exists x, lmb_alloc_down l sz (2 ^ k) stop start = Some x /\
    match x with
    | None => forall c, candidate c -> c <= start -> stop c = true
    | Some (b, r, n) =>
        b <= start /\ stop b = false /\ candidate b /\
        (forall c, candidate c -> c <= start -> c <= b) /\
        add_outcome (reserved l) b sz r n
    end.
Proof using Hk Hsz Hres Hstop.
  intros Hst He Hal. destruct (table_ok_mk _ Hres) as (s & j & Ht & Hc & Hmax & Hfit).
  unfold lmb_alloc_down.
  apply (loop_total _ (fun b => 0 <= b <= start /\ b mod 2 ^ k = 0 /\
      forall c, candidate c -> c <= start -> c <= b) _
    (fun b => length (filter (fun p => base p < b + sz) (regions (reserved l))))).
  2: { split_and!; try done; lia. }
  2: { unfold walk. eapply Nat.le_lt_trans; [apply length_filter|].
       unfold zlen in Hc. unfold MAX_LMB_REGIONS in *. lia. }
  intros b (Hb & Hm & Hmaxl). destruct (stop b) eqn:Hsb.
  { eexists. split; [done|]. intros c Hcand Hle. apply (Hstop b); [|done]. split; [apply Hcand|auto]. }
  assert (Hrb : region_ok (LmbProperty b sz)) by (unfold region_ok; simpl; lia).
  destruct (overlaps_spec s (regions (reserved l)) j b sz) as (r & Hr & Hcase); [done|done|].
  rewrite <- Ht in Hr. rewrite Hr. simpl.
  destruct Hcase as [(-> & Hd)|(la & p & lb & Hl & -> & Hp1 & Hp2)].
  - simpl. destruct (add_ok_spec (reserved l) b sz) as (t' & n & -> & Hout); [done..|].
    eexists. split; [done|]. simpl. split_and!; try done; [lia|]. split_and!; (done || lia).
  - pose proof (zlen_nonneg la). destruct (Z.ltb_spec (zlen la) 0); [lia|].
    assert (Hget : aget (region (reserved l)) (zlen la) = Some p).
    { rewrite Ht, Hl. unfold mk_table; simpl. rewrite <- app_assoc. simpl. by apply aget_mid. }
    rewrite Hget. simpl.
    assert (Hp : region_fits p) by (eapply Forall_forall; [exact Hfit|rewrite Hl; set_solver]).
    destruct Hp as (Hp3 & Hp4 & Hp5 & Hp6).
    (* candidates at or below [b] end at or below the region in the way *)
    assert (Hbelow : forall c, candidate c -> c <= b -> c + sz <= base p).
    { intros c (Hc0 & _ & Hcd) Hcb. destruct (Z.le_gt_cases (c + sz) (base p)); [done|].
      destruct (Hcd (Z.max c (base p))); [lia|]. exists p. split; [rewrite Hl; set_solver|lia]. }
    destruct (Z.ltb_spec (base p) sz).
    { eexists. split; [done|]. simpl. intros c Hcand Hle. specialize (Hbelow c Hcand (Hmaxl c Hcand Hle)).
      destruct Hcand. lia. }
    eexists. split; [done|]. simpl. unwrap.
    destruct (align_down_range k Hk (base p - sz)) as (Hd1 & Hd2 & Hd3); [word_lia|].
    split_and!; try done; try lia.
    + intros c Hcand Hle. pose proof (Hbelow c Hcand (Hmaxl c Hcand Hle)).
      apply align_down_greatest; [done|word_lia|by destruct Hcand as (_ & ? & _)|lia].
    + apply filter_shrink with (p := p); [intros; lia|rewrite Hl; set_solver|lia|lia].
Qed.
End alloc_down.

Section alloc_base.
Context (l : lmb) (k size_ limit max_addr : Z) (Hk : 0 <= k < 64).
Context (Hsize : 0 < size_) (Hfit : size_ + 2 ^ k <= 2 ^ 64).
Context (Hmem : table_wf (memory l)) (Hres : table_ok (reserved l)).

Let sz : Z := lmb_align_up size_ (2 ^ k).
Let max : Z := if max_addr =? LMB_ALLOC_ANYWHERE then limit else max_addr.
Context (Hmax : max = 0 \/ sz <= max < 2 ^ 64).

(** [c] is an aligned address other than 0 such that [sz] bytes from it are
    unreserved, inside region [p] and below the limit. *)
Definition place_in (p : lmb_property) (c : Z) : Prop :=
  c <> 0 /\ candidate l k sz c /\ base p <= c /\ c + sz <= base p + size p /\ (max = 0 \/ c + sz <= max).

Definition place (c : Z) : Prop := exists p, p ∈ regions (memory l) /\ place_in p c.

Lemma sz_bounds : size_ <= sz < size_ + 2 ^ k.
Proof. clear Hmax. destruct (align_up_spec k Hk size_) as [? _]; [lia|done|]. done. Qed.

(** The search in one region. *)
Lemma alloc_in_region p :
  region_ok p -> sz <= size p -> (max = 0 \/ base p < max) ->
  exists x, lmb_alloc_down l sz (2 ^ k) (fun b => (b =? 0) || negb (base p <=? b))
      (if max =? LMB_ALLOC_ANYWHERE
       then lmb_align_down (u64 (u64 (base p + size p) - sz)) (2 ^ k)
       else lmb_align_down (u64 (Z.min (u64 (base p + size p)) max - sz)) (2 ^ k)) = Some x /\
    match x with
    | None => forall c, ~ place_in p c
    | Some (b, r, n) => place_in p b /\ (forall c, place_in p c -> c <= b) /\
        add_outcome (reserved l) b sz r n
    end.
Proof using All.
  intros (Hp0 & Hp1 & Hp2) Hle Hlow. pose proof sz_bounds as Hsz. pose proof (Z.pow_pos_nonneg 2 k).
  set (top := if max =? LMB_ALLOC_ANYWHERE then base p + size p else Z.min (base p + size p) max).
  assert (Htop : sz <= top <= base p + size p /\ (max = 0 \/ top <= max) /\
    (forall c, c + sz <= base p + size p -> (max = 0 \/ c + sz <= max) -> c + sz <= top)).
  { unfold top, LMB_ALLOC_ANYWHERE. destruct (Z.eqb_spec max 0); split_and!; try lia; intros; lia. }
  replace (if max =? LMB_ALLOC_ANYWHERE then _ else _) with (lmb_align_down (top - sz) (2 ^ k)).
  2: { unfold top. rewrite (wrap_small 64 (base p + size p)) by word_lia.
       destruct (max =? LMB_ALLOC_ANYWHERE); unwrap; done. }
  destruct Htop as (Htop1 & Htop2 & Htop3).
  destruct (align_down_range k Hk (top - sz)) as (Hd1 & Hd2 & Hd3); [word_lia|].
  destruct (alloc_down_spec l k sz Hk ltac:(lia) Hres (fun b => (b =? 0) || negb (base p <=? b)))
    with (start := lmb_align_down (top - sz) (2 ^ k)) as (x & Hx & Hpost); [intros; lia|lia|lia|done|].
  exists x. split; [done|].
  assert (Hstart : forall c, place_in p c -> candidate l k sz c /\ c <= lmb_align_down (top - sz) (2 ^ k)).
  { intros c (_ & Hc & _ & H1 & H2). split; [done|]. specialize (Htop3 c H1 H2).
    apply align_down_greatest; [done|word_lia|by destruct Hc as (_ & ? & _)|lia]. }
  destruct x as [[[b r] n]|].
  - destruct Hpost as (Hb & Hs & Hc & Hm & Hout). split; [|split; [intros c Hpc; destruct (Hstart c Hpc); by apply Hm|exact Hout]].
    assert (b <> 0 /\ base p <= b) as [? ?] by lia. split; [done|]. split; [exact Hc|]. split; [done|]. split; lia.
  - intros c Hc. destruct (Hstart c Hc) as [H1 H2]. specialize (Hpost c H1 H2).
    destruct Hc as (? & _ & ? & _). lia.
Qed.

(** The regions above [p] have no place: the best place in [p] is the highest of all. *)
Lemma place_highest la p lb b :
  regions (memory l) = la ++ p :: lb -> (forall q c, q ∈ lb -> ~ place_in q c) ->
  place_in p b -> (forall c, place_in p c -> c <= b) -> place b /\ forall c, place c -> c <= b.
Proof using All.
  intros Heq Hrest Hpl Hbest. pose proof Hmem as (_ & _ & Hsep). rewrite Heq in Hsep. split.
  - exists p. split; [rewrite Heq; set_solver|done].
  - intros c (q & Hq & Hqc). rewrite Heq in Hq.
    destruct (below_in la p lb q Hsep Hq) as [->|[[_ Hbel]|[Hq' _]]].
    + by apply Hbest.
    + destruct Hqc as (_ & _ & _ & ? & _), Hpl as (_ & _ & ? & _). pose proof sz_bounds.
      unfold below in Hbel. lia.
    + by destruct (Hrest q c Hq').
Qed.

(** No place in the last [i] regions. *)
Definition no_place_in_last (i : Z) : Prop :=
  forall la lb, regions (memory l) = la ++ lb -> zlen lb = i -> forall p c, p ∈ lb -> ~ place_in p c.

Lemma no_place_next la p lb :
  regions (memory l) = la ++ p :: lb -> (forall q c, q ∈ lb -> ~ place_in q c) ->
  (forall c, ~ place_in p c) -> no_place_in_last (zlen lb + 1).
Proof using Hk.
  intros Heq Hrest Hno la' lb' Heq' Hz' q c Hq. rewrite Heq in Heq'.
  apply app_inj_2 in Heq' as [_ <-]; [|unfold zlen in *; simpl; lia].
  apply elem_of_cons in Hq as [->|Hq]; [apply Hno|by apply Hrest].
Qed.

Lemma alloc_base_spec :
  exists l' b, __lmb_alloc_base limit l size_ (2 ^ k) max_addr = Some (l', b) /\
    memory l' = memory l /\ rmo_size l' = rmo_size l /\
    ((b = 0 /\ reserved l' = reserved l /\
      ((forall c, ~ place c) \/ cnt (reserved l) = MAX_LMB_REGIONS)) \/
     (place b /\ (forall c, place c -> c <= b) /\ table_wf (reserved l') /\
      forall a, covers (regions (reserved l')) a <-> covers (regions (reserved l)) a \/ b <= a < b + sz)).
Proof using All.
  destruct (table_wf_mk _ Hmem) as (s & j & Ht & _ & Hc). pose proof Hmem as (_ & Hcnt & Hsep).
  unfold __lmb_alloc_base. destruct (Z.eqb_spec size_ 0); [lia|]. fold sz. fold max.
  match goal with |- context [for_ 0 (cnt (memory l)) ?f tt] =>
    destruct (for_rule f (fun i _ => no_place_in_last i)
      (fun '(l', b) => memory l' = memory l /\ rmo_size l' = rmo_size l /\
        ((b = 0 /\ reserved l' = reserved l /\ cnt (reserved l) = MAX_LMB_REGIONS) \/
         ((place b /\ forall c, place c -> c <= b) /\ table_wf (reserved l') /\
          forall a, covers (regions (reserved l')) a <-> covers (regions (reserved l)) a \/ b <= a < b + sz)))
      0 (cnt (memory l)) tt) as (x & -> & Hx) end; [lia| | |].
  - intros la lb Heq Hz. apply zlen_nil_inv in Hz as ->. set_solver.
  - intros i [] Hi HI. destruct (proj2 (aget_is_Some (regions (memory l)) (cnt (memory l) - 1 - i)))
      as [p Hp]; [lia|].
    assert (Hget : aget (region (memory l)) (cnt (memory l) - 1 - i) = Some p).
    { rewrite Ht at 1. unfold mk_table; simpl. by rewrite aget_app_l by lia. }
    rewrite Hget. cbn [mbind option_bind]. apply aget_split in Hp as (la & lb & Heq & Hla).
    assert (zlen lb = i) as <- by (apply (f_equal zlen) in Heq; rewrite zlen_app, zlen_cons in Heq; lia).
    assert (Hrest : forall q c, q ∈ lb -> ~ place_in q c) by (apply (HI (la ++ [p])); [by rewrite <- app_assoc|done]).
    pose proof (no_place_next la p lb Heq Hrest) as Hnext.
    rewrite Heq in Hsep. pose proof Hsep as (_ & _ & Hpok & _)%separated_mid.
    destruct (Z.ltb_spec (size p) sz).
    { eexists. split; [done|]. cbv iota. apply Hnext. intros c (_ & _ & ? & ? & _). lia. }
    destruct (negb (max =? LMB_ALLOC_ANYWHERE) && negb (base p <? max)) eqn:E.
    { eexists. split; [done|]. cbv iota. apply Hnext. unfold LMB_ALLOC_ANYWHERE in E. pose proof sz_bounds.
      intros c (_ & _ & ? & ? & ?). lia. }
    destruct (alloc_in_region p) as (x & -> & Hx); [done|lia|unfold LMB_ALLOC_ANYWHERE in E; lia|].
    cbn [mbind option_bind]. destruct x as [[[b r] n']|]; [|eexists; split; [done|cbv iota; by apply Hnext]].
    eexists. split; [done|]. cbn. destruct Hx as (Hpl & Hbest & Hout). split; [done|]. split; [done|].
    destruct Hout as [(-> & Hfull & -> & _)|(Hn & Hw & _ & Hcov)]; [by left|].
    destruct (Z.ltb_spec n' 0); [lia|]. right. split; [by eapply place_highest|done].
  - cbn [mbind option_bind]. destruct x as [[]|[l' b]].
    + eexists _, _. split; [done|]. split; [done|]. split; [done|]. left. split; [done|]. split; [done|].
      left. intros c (q & Hq & Hqc). by apply (Hx [] (regions (memory l)) eq_refl Hc q c).
    + eexists _, _. split; [done|]. destruct Hx as (? & ? & [(? & ? & ?)|([? ?] & ? & ?)]); split; try done; (split; [done|]).
      * left. split; [done|]. split; [done|]. by right.
      * by right.
Qed.
End alloc_base.

(** ** Queries *)

Lemma init_spec l :
  zlen (region (memory l)) = MAX_LMB_REGIONS + 1 -> zlen (region (reserved l)) = MAX_LMB_REGIONS + 1 ->
  exists l', lmb_init l = Some l' /\ table_dummy (memory l') /\ table_dummy (reserved l').
Proof.
  intros H1 H2. unfold lmb_init, set_region.
  destruct (region (memory l)) as [|p0 r1] eqn:E1; [by unfold zlen in H1|].
  destruct (region (reserved l)) as [|q0 r2] eqn:E2; [by unfold zlen in H2|].
  rewrite !aset_Some by (unfold MAX_LMB_REGIONS in *; lia). simpl. eexists. split; [done|].
  unfold table_dummy, regions; simpl. split; split_and!; (exact H1 || exact H2 || done).
Qed.

(** Total size of the regions. *)
Definition total (l : list lmb_property) : Z := foldr (fun p n => size p + n) 0 l.

Lemma total_app l l' : total (l ++ l') = total l + total l'.
Proof. induction l as [|p l IH]; simpl; [done|]. unfold total in *. simpl. lia. Qed.

Lemma analyze_spec l :
  table_wf (memory l) ->
  lmb_analyze l = Some (Lmb (rmo_size l)
    (LmbRegion (cnt (memory l)) (u64 (total (regions (memory l)))) (region (memory l))) (reserved l)).
Proof.
  intros Hwf. destruct (table_wf_mk _ Hwf) as (s & j & Ht & _ & Hc). pose proof Hwf as (_ & Hcnt & _).
  unfold lmb_analyze.
  match goal with |- context [for_all 0 _ ?f 0] =>
    destruct (for_all_rule f (fun i n => forall la lb, regions (memory l) = la ++ lb -> zlen la = i ->
      n = u64 (total la)) 0 (cnt (memory l)) 0) as (n & -> & Hn) end; [lia| | |].
  - intros la lb _ Hz. by apply zlen_nil_inv in Hz as ->.
  - intros i n Hi HI. destruct (proj2 (aget_is_Some (regions (memory l)) i)) as [p Hp]; [lia|].
    assert (aget (region (memory l)) i = Some p) as ->.
    { rewrite Ht at 1. unfold mk_table; simpl. by rewrite aget_app_l by lia. }
    simpl. eexists. split; [done|]. intros la lb Heq Hz.
    apply aget_split in Hp as (la' & lb' & Heq' & Hz'). rewrite (HI la' (p :: lb')) by done.
    assert (la = la' ++ [p]) as ->.
    { rewrite Heq' in Heq. replace (la' ++ p :: lb') with ((la' ++ [p]) ++ lb') in Heq by (by rewrite <- app_assoc).
      apply app_inj_1 in Heq as [<- _]; [done|]. rewrite length_app. unfold zlen in *. simpl. lia. }
    rewrite total_app. unfold wrap. rewrite Zplus_mod_idemp_l. f_equal. unfold total; simpl. lia.
  - simpl. by rewrite (Hn (regions (memory l)) []) by (rewrite ?app_nil_r; done).
Qed.


(** * Properties *)

(** An array of [MAX_LMB_REGIONS + 1] entries that starts with [l]. *)
Definition table (l : list lmb_property) : lmb_region :=
  mk_table 0 l (replicate (129 - length l) (LmbProperty 0 0)).

Lemma table_table_wf l : (length l <= 128)%nat -> separated l -> table_wf (table l).
Proof.
  intros Hl Hs. apply mk_table_wf; [unfold zlen; rewrite length_replicate; unfold MAX_LMB_REGIONS; lia| |done].
  unfold zlen, MAX_LMB_REGIONS. lia.
Qed.

Ltac separated_tac := split; [repeat constructor; simpl; lia|repeat constructor; unfold below; simpl; lia].

(** C3 [__lmb_alloc_base], when the limit is at least the size asked for, returns
    the highest aligned address other than 0 such that the block lies inside one
    memory region, below the limit and outside every reserved range, and
    reserves exactly that block; it returns 0 without effect when there is no
    such address or the reserved table is full.  The search always ends. *)
Theorem lmb_alloc_base_highest l k size_ limit max_addr :
  0 <= k < 64 -> 0 < size_ -> size_ + 2 ^ k <= 2 ^ 64 ->
  table_wf (memory l) -> table_ok (reserved l) ->
  let sz := lmb_align_up size_ (2 ^ k) in
  let max := if max_addr =? LMB_ALLOC_ANYWHERE then limit else max_addr in
  (max = 0 \/ sz <= max < 2 ^ 64) ->
  exists l' b, __lmb_alloc_base limit l size_ (2 ^ k) max_addr = Some (l', b) /\
    memory l' = memory l /\ rmo_size l' = rmo_size l /\
    ((b = 0 /\ reserved l' = reserved l /\
      ((forall c, ~ place l k size_ limit max_addr c) \/ cnt (reserved l) = MAX_LMB_REGIONS)) \/
     (place l k size_ limit max_addr b /\ (forall c, place l k size_ limit max_addr c -> c <= b) /\
      table_wf (reserved l') /\
      forall a, covers (regions (reserved l')) a <-> covers (regions (reserved l)) a \/ b <= a < b + sz)).
Proof. intros. by apply alloc_base_spec. Qed.

Lemma lmb_alloc_base_highest_witness :
  exists l', __lmb_alloc_base 0 (Lmb 0 (table [LmbProperty 0 0x10000]) (table [LmbProperty 0xe000 0x1000]))
      0x1800 (2 ^ 12) 0 = Some (l', 0xc000) /\
    regions (reserved l') = [LmbProperty 0xc000 0x3000].
Proof.
  destruct (lmb_alloc_base_highest (Lmb 0 (table [LmbProperty 0 0x10000]) (table [LmbProperty 0xe000 0x1000]))
    12 0x1800 0 0) as (l' & b & Ha & _); [lia|lia|lia| | | |].
  - apply table_table_wf; [simpl; lia|separated_tac].
  - right. split; [apply table_table_wf; [simpl; lia|separated_tac]|by vm_compute].
  - by left.
  - exists l'. vm_compute in Ha. injection Ha as <- <-. split; by vm_compute.
Defined.



