(* ===== verification/Semaphore.v ===== *)
(** Counting semaphores: kernel/semaphore.c.

    Each stretch of code under [sem->lock] is one function on the semaphore; a
    task that sleeps in [__down_common] is between two of them.  [sem_step]
    interleaves the calls of any number of tasks, with signals and timeouts chosen
    freely.  The invariant accounts for every permit. *)
From Stdlib Require Import ZArith Lia Bool Sorting.Sorted.
From stdpp Require Import base numbers list gmap option relations sorting.
From S2P Require Import Prelude.

Local Open Scope Z_scope.

(** * Definitions *)

Abbreviation task := positive.

(** linux/sched.h. *)
Definition TASK_INTERRUPTIBLE : Z := 1.
Definition TASK_UNINTERRUPTIBLE : Z := 2.
Definition TASK_WAKEKILL : Z := 128.
Definition TASK_KILLABLE : Z := Z.lor TASK_WAKEKILL TASK_UNINTERRUPTIBLE.
Definition MAX_SCHEDULE_TIMEOUT : Z := 2 ^ 63 - 1.

(** What a task sees of its signals: one is pending, and a fatal one is. *)
Record signals : Type := Signals { signal_pending : bool; fatal_signal_pending : bool }.

Definition signal_pending_state (state : Z) (p : signals) : bool :=
  if Z.land state (Z.lor TASK_INTERRUPTIBLE TASK_WAKEKILL) =? 0 then false
  else if negb (signal_pending p) then false
  else negb (Z.land state TASK_INTERRUPTIBLE =? 0) || fatal_signal_pending p.

(** The semaphore; [waiter_up] holds the [up] field of the [semaphore_waiter]
    on the stack of each task inside [__down_common]. *)
Record semaphore : Type := Semaphore {
  count : Z;
  wait_list : list task;
  waiter_up : gmap task bool
}.

Definition sema_init (val : Z) : semaphore := Semaphore (u32 val) [] ∅.

(** Where a locked stretch of [__down_common] ends: asleep with the lock
    released, or returning. *)
Inductive outcome : Type := Sleeping (timeout : Z) | Returned (r : Z).

(** [list_del(&waiter.list)] and the end of the waiter's life. *)
Definition leave (sem : semaphore) (t : task) : semaphore :=
  Semaphore (count sem) (filter (fun x => x <> t) (wait_list sem)) (delete t (waiter_up sem)).

(** The top of the loop, up to [schedule_timeout]. *)
Definition down_loop (sem : semaphore) (t : task) (state timeout : Z) (p : signals)
  : semaphore * outcome :=
  if signal_pending_state state p then (leave sem t, Returned (- EINTR))
  else if timeout <=? 0 then (leave sem t, Returned (- ETIME))
  else (sem, Sleeping timeout).

Definition __down_common (sem : semaphore) (t : task) (state timeout : Z) (p : signals)
  : semaphore * outcome :=
  let sem := Semaphore (count sem) (wait_list sem ++ [t]) (<[t := false]> (waiter_up sem)) in
  down_loop sem t state timeout p.

(** After [schedule_timeout], with the lock taken again. *)
Definition down_resume (sem : semaphore) (t : task) (state timeout : Z) (p : signals)
  : option (semaphore * outcome) :=
  match waiter_up sem !! t with
  | None => None
  | Some true => Some (Semaphore (count sem) (wait_list sem) (delete t (waiter_up sem)), Returned 0)
  | Some false => Some (down_loop sem t state timeout p)
  end.

(** The four blocking calls and the arguments they pass to [__down_common]. *)
Inductive down_call : Type := Down | DownInterruptible | DownKillable | DownTimeout (jiffies : Z).

Definition call_state (c : down_call) : Z :=
  match c with
  | Down | DownTimeout _ => TASK_UNINTERRUPTIBLE
  | DownInterruptible => TASK_INTERRUPTIBLE
  | DownKillable => TASK_KILLABLE
  end.

Definition call_timeout (c : down_call) : Z :=
  match c with DownTimeout jiffies => jiffies | _ => MAX_SCHEDULE_TIMEOUT end.

(** [down], [down_interruptible], [down_killable], [down_timeout]. *)
Definition down (c : down_call) (sem : semaphore) (t : task) (p : signals) : semaphore * outcome :=
  if 0 <? count sem then (Semaphore (u32 (count sem - 1)) (wait_list sem) (waiter_up sem), Returned 0)
  else __down_common sem t (call_state c) (call_timeout c) p.

Definition down_trylock (sem : semaphore) : semaphore * Z :=
  let count_ := s32 (count sem - 1) in
  if 0 <=? count_ then (Semaphore (u32 count_) (wait_list sem) (waiter_up sem), 0)
  else (sem, 1).

Definition __up (sem : semaphore) : semaphore :=
  match wait_list sem with
  | [] => sem
  | waiter :: rest => Semaphore (count sem) rest (<[waiter := true]> (waiter_up sem))
  end.

Definition up (sem : semaphore) : semaphore :=
  match wait_list sem with
  | [] => Semaphore (u32 (count sem + 1)) (wait_list sem) (waiter_up sem)
  | _ => __up sem
  end.

(** * Interleavings *)

Inductive call : Type := Blocking (c : down_call) | Trylock.

(** The semaphore, the tasks asleep in a call with the time they have left, the
    number of blocking calls so far, when each task made its last one, the
    number of [up] calls so far and the results returned so far. *)
Record sys : Type := Sys {
  sem : semaphore;
  asleep : gmap task (down_call * Z);
  clock : Z;
  since : gmap task Z;
  ups : Z;
  results : list (task * call * Z)
}.

Definition record (s : sys) (sem' : semaphore) (t : task) (c : down_call) (o : outcome) : sys :=
  match o with
  | Sleeping timeout => Sys sem' (<[t := (c, timeout)]> (asleep s)) (clock s) (since s) (ups s) (results s)
  | Returned r => Sys sem' (delete t (asleep s)) (clock s) (since s) (ups s) ((t, Blocking c, r) :: results s)
  end.

(** Task [t] makes a blocking call. *)
Definition arrive (s : sys) (t : task) : sys :=
  Sys (sem s) (asleep s) (clock s + 1) (<[t := clock s]> (since s)) (ups s) (results s).

(** When a task made the call it is in. *)
Definition arrival (s : sys) (t : task) : Z := default 0 (since s !! t).

(** [schedule_timeout] returns at most what it was given, not less than zero, and
    [MAX_SCHEDULE_TIMEOUT] unchanged. *)
Inductive sem_step : sys -> sys -> Prop :=
| step_down s t c p sem' o :
    asleep s !! t = None -> down c (sem s) t p = (sem', o) -> sem_step s (record (arrive s t) sem' t c o)
| step_resume s t c timeout timeout' p sem' o :
    asleep s !! t = Some (c, timeout) -> 0 <= timeout' <= timeout ->
    (timeout = MAX_SCHEDULE_TIMEOUT -> timeout' = timeout) ->
    down_resume (sem s) t (call_state c) timeout' p = Some (sem', o) ->
    sem_step s (record s sem' t c o)
| step_trylock s t sem' r :
    down_trylock (sem s) = (sem', r) ->
    sem_step s (Sys sem' (asleep s) (clock s) (since s) (ups s) ((t, Trylock, r) :: results s))
| step_up s :
    sem_step s (Sys (up (sem s)) (asleep s) (clock s) (since s) (ups s + 1) (results s)).

Definition sys_init (val : Z) : sys := Sys (sema_init val) ∅ 0 ∅ 0 [].

(** The acquisitions: calls that returned 0. *)
Definition acquired (s : sys) : Z := zlen (filter (fun '(_, _, r) => r = 0) (results s)).

(** * The invariant *)

(** A result that the call is allowed to return. *)
Definition result_ok (c : call) (r : Z) : Prop :=
  match c with
  | Blocking Down => r = 0
  | Blocking (DownInterruptible | DownKillable) => r = 0 \/ r = - EINTR
  | Blocking (DownTimeout _) => r = 0 \/ r = - ETIME
  | Trylock => r = 0 \/ r = 1
  end.

(** A task waits behind those that called before it. *)
Definition earlier (s : sys) (x y : task) : Prop := arrival s x < arrival s y.

Record sem_inv (val : Z) (s : sys) (handed : gset task) : Prop := {
  inv_count : 0 <= count (sem s);
  inv_empty : wait_list (sem s) <> [] -> count (sem s) = 0;
  inv_nodup : NoDup (wait_list (sem s));
  inv_waiting t : t ∈ wait_list (sem s) <-> waiter_up (sem s) !! t = Some false;
  inv_handed t : t ∈ handed <-> waiter_up (sem s) !! t = Some true;
  inv_asleep t : is_Some (waiter_up (sem s) !! t) <-> is_Some (asleep s !! t);
  inv_permits : count (sem s) + acquired s + Z.of_nat (size handed) = val + ups s;
  inv_timeout t c timeout : asleep s !! t = Some (c, timeout) ->
    0 < timeout /\ match c with DownTimeout _ => True | _ => timeout = MAX_SCHEDULE_TIMEOUT end;
  inv_results : Forall (fun '(_, c, r) => result_ok c r) (results s);
  inv_order : StronglySorted (earlier s) (wait_list (sem s));
  inv_clock t : t ∈ wait_list (sem s) -> arrival s t < clock s
}.

Lemma acquired_cons t c r rs sm a k w u :
  acquired (Sys sm a k w u ((t, c, r) :: rs)) =
  (if decide (r = 0) then 1 else 0) + acquired (Sys sm a k w u rs).
Proof.
  unfold acquired. cbn [results]. rewrite filter_cons. simpl. destruct (decide (r = 0)); [|done].
  rewrite zlen_cons. lia.
Qed.

Lemma filter_ne_notin (t : task) (l : list task) : t ∉ l -> filter (fun x => x <> t) l = l.
Proof.
  induction l as [|x l IH]; [done|]. rewrite not_elem_of_cons, filter_cons. intros [Hne Hl].
  rewrite decide_True by done. by rewrite IH.
Qed.

Lemma ordered_snoc (R : relation task) l t :
  StronglySorted R l -> (forall x, x ∈ l -> R x t) -> StronglySorted R (l ++ [t]).
Proof.
  induction l as [|x l IH]; simpl; intros Hs Ht; [by repeat constructor|].
  apply StronglySorted_inv in Hs as [Hs Hx]. constructor; [apply IH; [done|]; intros y Hy; apply Ht; set_solver|].
  apply Forall_app. split; [done|]. constructor; [|done]. apply Ht. set_solver.
Qed.

Lemma ordered_filter (R : relation task) (P : task -> Prop) `{!forall x, Decision (P x)} l :
  StronglySorted R l -> StronglySorted R (filter P l).
Proof.
  induction 1 as [|x l Hs IH Hx]; [constructor|]. rewrite filter_cons. case_decide; [|done].
  constructor; [done|]. apply Forall_forall. intros y [_ Hy]%list_elem_of_filter. rewrite Forall_forall in Hx. auto.
Qed.

Lemma ordered_change (R R' : relation task) l :
  (forall x y, x ∈ l -> y ∈ l -> R x y -> R' x y) -> StronglySorted R l -> StronglySorted R' l.
Proof.
  intros Himp. induction 1 as [|x l Hs IH Hx]; [constructor|]. constructor; [apply IH; set_solver|].
  rewrite Forall_forall in Hx |- *. intros y Hy. apply Himp; [set_solver..|auto].
Qed.

(** Queueing a task and taking it out again changes nothing. *)
Lemma leave_enter sm t :
  t ∉ wait_list sm -> waiter_up sm !! t = None ->
  leave (Semaphore (count sm) (wait_list sm ++ [t]) (<[t := false]> (waiter_up sm))) t = sm.
Proof.
  intros Hl Hu. destruct sm as [c l u]; simpl in *. unfold leave; simpl. f_equal.
  - rewrite filter_app, filter_ne_notin by done. rewrite filter_cons, decide_False by naive_solver.
    by rewrite app_nil_r.
  - rewrite delete_insert_eq. by apply delete_id.
Qed.

Lemma signal_uninterruptible p : signal_pending_state TASK_UNINTERRUPTIBLE p = false.
Proof. done. Qed.

(** The two ways out of the loop respect the promise of the call. *)
Lemma interrupted_ok c p : signal_pending_state (call_state c) p = true -> result_ok (Blocking c) (- EINTR).
Proof. destruct c; simpl; (discriminate || by right). Qed.

Lemma timed_out_ok c timeout :
  timeout <= 0 -> match c with DownTimeout _ => True | _ => timeout = MAX_SCHEDULE_TIMEOUT end ->
  result_ok (Blocking c) (- ETIME).
Proof. intros H. destruct c; simpl; [| | |by right]; intros ->; by vm_compute in H. Qed.

Section steps.
Context (val : Z) (s : sys) (handed : gset task) (Hinv : sem_inv val s handed).

Lemma asleep_iff t : asleep s !! t = None <-> waiter_up (sem s) !! t = None.
Proof using Hinv. pose proof (inv_asleep _ _ _ Hinv t). rewrite !eq_None_not_Some. tauto. Qed.

(** The clock ticks for a task that is not in a call. *)
Lemma arrive_inv t : asleep s !! t = None -> sem_inv val (arrive s t) handed.
Proof using Hinv.
  intros Ht%asleep_iff. destruct Hinv as [H1 H2 H3 H4 H5 H6 H7 H8 H9 H10 H11].
  assert (Hn : forall x, x ∈ wait_list (sem s) -> arrival (arrive s t) x = arrival s x).
  { intros x Hx%H4. unfold arrival, arrive. simpl. rewrite lookup_insert_ne; congruence. }
  constructor; try done; simpl.
  - eapply ordered_change; [|exact H10]. unfold earlier. intros x y Hx Hy. by rewrite !Hn.
  - intros x Hx. rewrite Hn by done. specialize (H11 x Hx). lia.
Qed.

(** A call that returns an error leaves the semaphore alone. *)
Lemma return_error t c r :
  asleep s !! t = None -> r <> 0 -> result_ok (Blocking c) r -> sem_inv val (record s (sem s) t c (Returned r)) handed.
Proof using Hinv.
  intros Ht Hr Hok. destruct Hinv as [H1 H2 H3 H4 H5 H6 H7 H8 H9 H10 H11].
  constructor; simpl; try done.
  - intros x. by rewrite delete_id.
  - rewrite acquired_cons, decide_False by done. done.
  - intros x c' to. rewrite delete_id by done. apply H8.
  - by constructor.
Qed.

(** A call that falls asleep. *)
Lemma enter_asleep t c timeout :
  asleep s !! t = None -> count (sem s) = 0 -> 0 < timeout ->
  (forall x, x ∈ wait_list (sem s) -> earlier s x t) -> arrival s t < clock s ->
  match c with DownTimeout _ => True | _ => timeout = MAX_SCHEDULE_TIMEOUT end ->
  sem_inv val (record s
    (Semaphore (count (sem s)) (wait_list (sem s) ++ [t]) (<[t := false]> (waiter_up (sem s))))
    t c (Sleeping timeout)) handed.
Proof using Hinv.
  intros Ht Hc Hto Hlast Hnow Hcall. pose proof (proj1 (asleep_iff t) Ht) as Hu.
  destruct Hinv as [H1 H2 H3 H4 H5 H6 H7 H8 H9 H10 H11].
  assert (Hnot : t ∉ wait_list (sem s)) by (rewrite H4; congruence).
  constructor; simpl; try done.
  - apply NoDup_app. split_and!; [done| |apply NoDup_singleton]. intros x Hx ->%list_elem_of_singleton. done.
  - intros x. rewrite lookup_insert, elem_of_app, list_elem_of_singleton, H4. case_decide; naive_solver.
  - intros x. rewrite lookup_insert, H5. case_decide; naive_solver.
  - intros x. rewrite !lookup_insert. case_decide; [naive_solver|]. apply H6.
  - intros x c' to. rewrite lookup_insert. case_decide; [naive_solver|]. apply H8.
  - by apply ordered_snoc.
  - intros x [Hx| ->%list_elem_of_singleton]%elem_of_app; [by apply H11|done].
Qed.

(** A waiter that gives up. *)
Lemma leave_error t c r :
  waiter_up (sem s) !! t = Some false -> r <> 0 -> result_ok (Blocking c) r ->
  sem_inv val (record s (leave (sem s) t) t c (Returned r)) handed.
Proof using Hinv.
  intros Hu Hr Hok. destruct Hinv as [H1 H2 H3 H4 H5 H6 H7 H8 H9 H10 H11].
  constructor; simpl; try done.
  - intros Hne. apply H2. intros E. by rewrite E in Hne.
  - by apply NoDup_filter.
  - intros x. rewrite list_elem_of_filter, lookup_delete, H4. case_decide; naive_solver.
  - intros x. rewrite lookup_delete, H5. case_decide; naive_solver.
  - intros x. rewrite !lookup_delete. case_decide; [|apply H6]. split; intros [? [=]].
  - rewrite acquired_cons, decide_False by done. done.
  - intros x c' to. rewrite lookup_delete. case_decide; [done|]. apply H8.
  - by constructor.
  - by apply ordered_filter.
  - intros x [_ Hx]%list_elem_of_filter. by apply H11.
Qed.

(** A waiter that sleeps on. *)
Lemma sleep_on t c timeout :
  waiter_up (sem s) !! t = Some false -> 0 < timeout ->
  match c with DownTimeout _ => True | _ => timeout = MAX_SCHEDULE_TIMEOUT end ->
  sem_inv val (record s (sem s) t c (Sleeping timeout)) handed.
Proof using Hinv.
  intros Hu Hto Hcall. destruct Hinv as [H1 H2 H3 H4 H5 H6 H7 H8 H9 H10 H11].
  constructor; simpl; try done.
  - intros x. rewrite lookup_insert. case_decide; [naive_solver|apply H6].
  - intros x c' to. rewrite lookup_insert. case_decide; [naive_solver|]. apply H8.
Qed.

(** A waiter that was handed the permit. *)
Lemma return_handed t c :
  waiter_up (sem s) !! t = Some true -> result_ok (Blocking c) 0 ->
  sem_inv val (record s (Semaphore (count (sem s)) (wait_list (sem s)) (delete t (waiter_up (sem s))))
    t c (Returned 0)) (handed ∖ {[t]}).
Proof using Hinv.
  intros Hu Hok. destruct Hinv as [H1 H2 H3 H4 H5 H6 H7 H8 H9 H10 H11].
  assert (Hin : t ∈ handed) by (by rewrite H5).
  constructor; simpl; try done.
  - intros x. rewrite lookup_delete, H4. case_decide; naive_solver.
  - intros x. rewrite lookup_delete, elem_of_difference, elem_of_singleton, H5. case_decide; naive_solver.
  - intros x. rewrite !lookup_delete. case_decide; [|apply H6]. split; intros [? [=]].
  - rewrite acquired_cons, decide_True by done. rewrite size_difference, size_singleton by set_solver.
    assert (size handed <> 0%nat) by (rewrite size_non_empty_iff; set_solver).
    unfold acquired in *; simpl in *. lia.
  - intros x c' to. rewrite lookup_delete. case_decide; [done|]. apply H8.
  - by constructor.
Qed.

(** Taking a free permit. *)
Lemma take_permit t c n :
  0 < count (sem s) -> n = count (sem s) - 1 -> result_ok c 0 ->
  sem_inv val (Sys (Semaphore n (wait_list (sem s)) (waiter_up (sem s))) (asleep s) (clock s) (since s) (ups s)
    ((t, c, 0) :: results s)) handed.
Proof using Hinv.
  intros Hc -> Hok. destruct Hinv as [H1 H2 H3 H4 H5 H6 H7 H8 H9 H10 H11].
  constructor; simpl; try done.
  - lia.
  - intros Hne. specialize (H2 Hne). lia.
  - rewrite acquired_cons, decide_True by done. unfold acquired in *; simpl in *. lia.
  - by constructor.
Qed.

(** Releasing. *)
Lemma up_inv :
  count (sem s) + 1 < 2 ^ 31 ->
  exists handed', sem_inv val (Sys (up (sem s)) (asleep s) (clock s) (since s) (ups s + 1) (results s)) handed'.
Proof using Hinv.
  intros Hb. destruct Hinv as [H1 H2 H3 H4 H5 H6 H7 H8 H9 H10 H11]. unfold up, __up.
  destruct (wait_list (sem s)) as [|w rest] eqn:E.
  - exists handed. unwrap. constructor; simpl; try done; [lia|unfold acquired in *; simpl in *; lia].
  - assert (Hw : waiter_up (sem s) !! w = Some false) by (apply H4; set_solver).
    apply NoDup_cons in H3 as [Hwn Hnd].
    assert (w ∉ handed) by (rewrite H5; congruence).
    exists ({[w]} ∪ handed). constructor; simpl; try done.
    + intros Hne. apply H2. set_solver.
    + intros x. rewrite lookup_insert. case_decide; subst; [split; [done|naive_solver]|].
      rewrite <- H4. set_solver.
    + intros x. rewrite lookup_insert, elem_of_union, elem_of_singleton, H5. case_decide; naive_solver.
    + intros x. rewrite lookup_insert. case_decide; [subst; rewrite <- H6, Hw; naive_solver|]. apply H6.
    + rewrite size_union, size_singleton by set_solver. unfold acquired in *; simpl in *. lia.
    + by apply StronglySorted_inv in H10 as [? _].
    + intros x Hx. apply H11. set_solver.
Qed.
End steps.

(** A blocking call, up to its return or to its first sleep. *)
Lemma down_inv val s handed t c p sem' o :
  sem_inv val s handed -> asleep s !! t = None -> count (sem s) < 2 ^ 31 -> down c (sem s) t p = (sem', o) ->
  sem_inv val (record (arrive s t) sem' t c o) handed.
Proof.
  intros Hs Ht Hb Hd. pose proof (inv_count _ _ _ Hs) as Hc.
  pose proof (arrive_inv _ _ _ Hs t Ht) as Hinv. pose proof (proj1 (asleep_iff _ _ _ Hs t) Ht) as Hw.
  unfold down in Hd. destruct (Z.ltb_spec 0 (count (sem s))).
  { simplify_eq. unfold record. cbn [asleep arrive]. rewrite delete_id by done.
    eapply (take_permit _ _ _ Hinv); try done; [|by destruct c; simpl; auto]. apply wrap_small. simpl. word_lia. }
  assert (Hcz : count (sem s) = 0) by lia.
  assert (Hn : t ∉ wait_list (sem s)) by (rewrite (inv_waiting _ _ _ Hs); congruence).
  unfold __down_common, down_loop in Hd. rewrite leave_enter in Hd by done.
  destruct (signal_pending_state (call_state c) p) eqn:Es.
  { simplify_eq. eapply (return_error _ _ _ Hinv); [done|done|by eapply interrupted_ok]. }
  destruct (Z.leb_spec (call_timeout c) 0).
  { simplify_eq. eapply (return_error _ _ _ Hinv); [done|done|eapply timed_out_ok; [done|by destruct c]]. }
  simplify_eq. assert (Hnow : arrival (arrive s t) t = clock s)
    by (unfold arrival, arrive; simpl; by rewrite lookup_insert_eq).
  eapply (enter_asleep _ _ _ Hinv); try done; [|rewrite Hnow; simpl; lia|by destruct c].
  intros x Hx. pose proof (inv_clock _ _ _ Hs x Hx) as Hlt. unfold earlier. rewrite Hnow.
  unfold arrival, arrive in *. simpl. rewrite lookup_insert_ne; [done|]. intros ->. done.
Qed.

(** A task coming back from [schedule_timeout]. *)
Lemma woken_inv val s handed t c to to' p sem' o :
  sem_inv val s handed -> asleep s !! t = Some (c, to) ->
  (to = MAX_SCHEDULE_TIMEOUT -> to' = to) ->
  down_resume (sem s) t (call_state c) to' p = Some (sem', o) ->
  exists handed', sem_inv val (record s sem' t c o) handed'.
Proof.
  intros Hinv Ht Hmax Hr. destruct (inv_timeout _ _ _ Hinv t c to Ht) as [Hto0 Hcall].
  unfold down_resume in Hr. destruct (waiter_up (sem s) !! t) as [[|]|] eqn:Hu; [| |done].
  { simplify_eq. eexists. eapply return_handed; try done. destruct c; simpl; auto. }
  exists handed. unfold down_loop in Hr. injection Hr as Hr.
  assert (Hcall' : match c with DownTimeout _ => True | _ => to' = MAX_SCHEDULE_TIMEOUT end)
    by (destruct c; try done; rewrite Hmax; done).
  destruct (signal_pending_state (call_state c) p) eqn:Es.
  { simplify_eq. eapply leave_error; [done|done|done|by eapply interrupted_ok]. }
  destruct (Z.leb_spec to' 0).
  { simplify_eq. eapply leave_error; [done|done|done|by eapply timed_out_ok]. }
  simplify_eq. by eapply sleep_on.
Qed.

(** A trylock: a permit if there is one, and otherwise nothing. *)
Lemma down_trylock_eq sm :
  0 <= count sm < 2 ^ 31 ->
  down_trylock sm =
    if 0 <? count sm then (Semaphore (count sm - 1) (wait_list sm) (waiter_up sm), 0) else (sm, 1).
Proof.
  intros Hc. unfold down_trylock. rewrite s32_small by lia.
  destruct (Z.leb_spec 0 (count sm - 1)), (Z.ltb_spec 0 (count sm)); try lia; [by unwrap|done].
Qed.

Lemma trylock_inv val s handed t sem' r :
  sem_inv val s handed -> count (sem s) < 2 ^ 31 -> down_trylock (sem s) = (sem', r) ->
  sem_inv val (Sys sem' (asleep s) (clock s) (since s) (ups s) ((t, Trylock, r) :: results s)) handed.
Proof.
  intros Hinv Hb Hd. pose proof (inv_count _ _ _ Hinv) as Hc. rewrite down_trylock_eq in Hd by lia.
  destruct (Z.ltb_spec 0 (count (sem s))); simplify_eq; [eapply take_permit; try done; simpl; by left|].
  destruct Hinv as [H1 H2 H3 H4 H5 H6 H7 H8 H9 H10 H11]. constructor; try done.
  constructor; [simpl; by right|done].
Qed.

(** As long as the permits fit in the counter, every reachable state satisfies
    the invariant. *)
Lemma sem_step_inv val s s' handed :
  sem_inv val s handed -> sem_step s s' -> val + ups s' < 2 ^ 31 ->
  exists handed', sem_inv val s' handed'.
Proof.
  intros Hinv Hstep Hb. assert (0 <= acquired s) by apply zlen_nonneg.
  pose proof (inv_permits _ _ _ Hinv) as Hp.
  destruct Hstep as [s t c p sem' o Ht Hd|s t c to to' p sem' o Ht Hto Hmax Hr|s t sem' r Ht|s]; simpl in *.
  - exists handed. assert (ups (record (arrive s t) sem' t c o) = ups s) by (by destruct o).
    eapply down_inv; try done. lia.
  - by eapply woken_inv.
  - exists handed. eapply trylock_inv; try done. lia.
  - eapply up_inv; [done|lia].
Qed.

Lemma sys_init_inv val : 0 <= val < 2 ^ 31 -> sem_inv val (sys_init val) ∅.
Proof.
  intros Hv. constructor; simpl; try done; try (intros; set_solver).
  - unwrap. lia.
  - constructor.
  - intros t. rewrite !lookup_empty. split; intros [? [=]].
  - rewrite wrap_small by word_lia. change (acquired _) with 0. change (Z.of_nat _) with 0. lia.
  - constructor.
Qed.

Lemma ups_mono s s' : sem_step s s' -> ups s <= ups s'.
Proof. intros [? ? ? ? ? [] ? ?|? ? ? ? ? ? ? [] ? ? ? ?|? ? ? ? ?|?]; simpl; lia. Qed.

Lemma sem_reach_inv val s :
  0 <= val -> rtc sem_step (sys_init val) s -> val + ups s < 2 ^ 31 ->
  0 <= ups s /\ exists handed, sem_inv val s handed.
Proof.
  intros Hv Hr. revert s Hr. refine (rtc_ind_r _ _ _ _); [intros Hb|intros s1 s2 Hr Hstep IH Hb].
  - split; [done|]. exists ∅. apply sys_init_inv. simpl in Hb. lia.
  - pose proof (ups_mono _ _ Hstep). destruct IH as [Hu [handed Hinv]]; [lia|].
    split; [lia|]. by eapply sem_step_inv.
Qed.

(** What another task does leaves a task's waiter alone. *)
Lemma down_loop_other sm t t' state timeout p sm' o :
  t' <> t -> down_loop sm t' state timeout p = (sm', o) -> waiter_up sm' !! t = waiter_up sm !! t.
Proof.
  intros Hne. unfold down_loop. destruct (signal_pending_state state p); [|destruct (timeout <=? 0)];
    intros; simplify_eq; try done; unfold leave; simpl; by rewrite lookup_delete_ne.
Qed.

Lemma record_other s sm t t' c o :
  t' <> t -> asleep (record s sm t' c o) !! t = asleep s !! t /\ sem (record s sm t' c o) = sm.
Proof. intros Hne. destruct o; simpl; [by rewrite lookup_insert_ne|by rewrite lookup_delete_ne]. Qed.

Lemma handed_kept val s s' handed t c timeout :
  sem_inv val s handed -> waiter_up (sem s) !! t = Some true -> asleep s !! t = Some (c, timeout) ->
  sem_step s s' ->
  (waiter_up (sem s') !! t = Some true /\ asleep s' !! t = Some (c, timeout)) \/
  (asleep s' !! t = None /\ results s' = (t, Blocking c, 0) :: results s).
Proof.
  intros Hinv Hup Ht Hstep.
  destruct Hstep as [s t' c' p sem' o Ht' Hd|s t' c' to to' p sem' o Ht' Hto Hmax Hr|s t' sem' r Hd|s].
  - assert (Hne : t' <> t) by congruence. left.
    destruct (record_other (arrive s t') sem' t t' c' o Hne) as [-> ->]. split; [|done]. rewrite <- Hup.
    unfold down in Hd. destruct (0 <? count (sem s)); [by simplify_eq|].
    unfold __down_common in Hd. apply (down_loop_other _ t) in Hd; [|done]. rewrite Hd. simpl.
    by rewrite lookup_insert_ne.
  - destruct (decide (t' = t)) as [->|Hne].
    + right. unfold down_resume in Hr. rewrite Hup in Hr. simplify_eq. simpl. by rewrite lookup_delete_eq.
    + left. destruct (record_other s sem' t t' c' o Hne) as [-> ->]. split; [|done]. rewrite <- Hup.
      unfold down_resume in Hr. destruct (waiter_up (sem s) !! t') as [[|]|]; [| |done]; simplify_eq.
      * simpl. by rewrite lookup_delete_ne.
      * by apply (down_loop_other _ t) in Hr.
  - left. split; [|done]. unfold down_trylock in Hd. simpl. rewrite <- Hup. case_match; by simplify_eq.
  - left. simpl. split; [|done]. rewrite <- Hup. unfold up, __up.
    destruct (wait_list (sem s)) as [|w rest] eqn:E; [done|]. simpl. apply lookup_insert_ne. intros ->.
    assert (waiter_up (sem s) !! t = Some false) by (eapply inv_waiting; [done|rewrite E; set_solver]). congruence.
Qed.

(** The front of the queue is the task that has waited longest. *)
Lemma up_serves_longest val s handed :
  sem_inv val s handed -> wait_list (sem s) <> [] ->
  exists w, waiter_up (sem s) !! w = Some false /\
    (forall t, waiter_up (sem s) !! t = Some false -> t <> w -> arrival s w < arrival s t) /\
    count (up (sem s)) = count (sem s) /\
    waiter_up (up (sem s)) = <[w := true]> (waiter_up (sem s)) /\
    (forall t, t ∈ wait_list (up (sem s)) <-> t ∈ wait_list (sem s) /\ t <> w).
Proof.
  intros Hinv Hne. pose proof (inv_waiting _ _ _ Hinv) as Hw. pose proof (inv_nodup _ _ _ Hinv) as Hnd.
  pose proof (inv_order _ _ _ Hinv) as Ho. unfold up, __up.
  destruct (wait_list (sem s)) as [|w rest] eqn:E; [done|]. exists w.
  apply NoDup_cons in Hnd as [Hn _]. apply StronglySorted_inv in Ho as [_ Ho].
  rewrite Forall_forall in Ho. split_and!; [apply Hw; set_solver| |done|done|simpl; set_solver].
  intros t Ht Hne'. apply Ho. apply Hw in Ht. set_solver.
Qed.

(** A blocking call takes a free permit at once; without one, unless a signal or
    its timeout stops it, it sleeps. *)
Definition down_behaviour (sm : semaphore) (c : down_call) (t : task) (p : signals) : Prop :=
  (0 < count sm ->
     down c sm t p = (Semaphore (count sm - 1) (wait_list sm) (waiter_up sm), Returned 0)) /\
  (count sm = 0 -> waiter_up sm !! t = None -> t ∉ wait_list sm ->
     (signal_pending_state (call_state c) p = true -> down c sm t p = (sm, Returned (- EINTR))) /\
     (signal_pending_state (call_state c) p = false -> call_timeout c <= 0 ->
        down c sm t p = (sm, Returned (- ETIME))) /\
     (signal_pending_state (call_state c) p = false -> 0 < call_timeout c ->
        exists sm', down c sm t p = (sm', Sleeping (call_timeout c)) /\ count sm' = 0 /\
          waiter_up sm' = <[t := false]> (waiter_up sm) /\
          (forall x, x ∈ wait_list sm' <-> x ∈ wait_list sm \/ x = t))).

Lemma down_behaves sm c t p : 0 <= count sm < 2 ^ 31 -> down_behaviour sm c t p.
Proof.
  intros Hc. unfold down_behaviour, down. split.
  - intros Hp. destruct (Z.ltb_spec 0 (count sm)); [by unwrap|lia].
  - intros Hz Hw Hn. destruct (Z.ltb_spec 0 (count sm)); [lia|].
    unfold __down_common, down_loop. rewrite leave_enter by done. split_and!.
    + by intros ->.
    + intros -> Ht. by destruct (Z.leb_spec (call_timeout c) 0); [|lia].
    + intros -> Ht. destruct (Z.leb_spec (call_timeout c) 0); [lia|].
      eexists. split; [done|]. simpl. split_and!; [done|done|set_solver].
Qed.

(** A waiter that has not been handed the permit gives up for a signal or at the end
    of its time and otherwise sleeps on. *)
Definition resume_behaviour (sm : semaphore) (c : down_call) (t : task) (p : signals) (timeout : Z) : Prop :=
  waiter_up sm !! t = Some false ->
  (signal_pending_state (call_state c) p = true \/ timeout <= 0 ->
     exists sm', down_resume sm t (call_state c) timeout p =
         Some (sm', Returned (if signal_pending_state (call_state c) p then - EINTR else - ETIME)) /\
       count sm' = count sm /\ waiter_up sm' = delete t (waiter_up sm) /\
       (forall x, x ∈ wait_list sm' <-> x ∈ wait_list sm /\ x <> t)) /\
  (signal_pending_state (call_state c) p = false -> 0 < timeout ->
     down_resume sm t (call_state c) timeout p = Some (sm, Sleeping timeout)).

Lemma resume_behaves sm c t p timeout : resume_behaviour sm c t p timeout.
Proof.
  intros Hw. unfold down_resume. rewrite Hw. unfold down_loop. split.
  - intros Hor. exists (leave sm t). split.
    + destruct (signal_pending_state (call_state c) p); [done|]. destruct Hor as [|Ht]; [done|].
      by rewrite (proj2 (Z.leb_le timeout 0)).
    + split; [done|]. split; [done|]. intros x. simpl. rewrite list_elem_of_filter. tauto.
  - intros -> Ht. by rewrite (proj2 (Z.leb_gt timeout 0)).
Qed.

(** * Properties *)

(** C15 Permit accounting of kernel/semaphore.c under every interleaving of
    blocking, interruptible, killable, timed and non-blocking acquisitions and of
    releases, successful or not: free permits plus successful acquisitions plus
    permits handed to a task that has not run yet equal the initial value plus the
    releases; nobody waits while a permit is free; and [down] returns only with
    the semaphore, [down_interruptible] and [down_killable] fail only with
    [-EINTR], [down_timeout] only with [-ETIME].  A trylock takes a free permit
    and otherwise returns 1 and changes nothing; the blocking calls do what
    [down_behaviour] and [resume_behaviour] say.  A release that finds waiters hands the permit to the
    one whose call came first, by the time of the calls, and a permit that was
    handed over cannot be lost to a signal or a timeout: after every step the task
    still has it or its call has returned 0.  A sleeping task can always go on. *)
Theorem semaphore_correct val s :
  0 <= val -> rtc sem_step (sys_init val) s -> val + ups s < 2 ^ 31 ->
  (exists handed : gset task,
     (forall t, t ∈ handed <-> waiter_up (sem s) !! t = Some true) /\
     count (sem s) + acquired s + Z.of_nat (size handed) = val + ups s) /\
  0 <= acquired s <= val + ups s /\
  (wait_list (sem s) <> [] -> count (sem s) = 0) /\
  Forall (fun '(_, c, r) => result_ok c r) (results s) /\
  down_trylock (sem s) =
    (if 0 <? count (sem s)
     then (Semaphore (count (sem s) - 1) (wait_list (sem s)) (waiter_up (sem s)), 0) else (sem s, 1)) /\
  (forall c t p, down_behaviour (sem s) c t p) /\
  (forall c t p timeout, resume_behaviour (sem s) c t p timeout) /\
  (wait_list (sem s) <> [] -> exists w, waiter_up (sem s) !! w = Some false /\
     (forall t, waiter_up (sem s) !! t = Some false -> t <> w -> arrival s w < arrival s t) /\
     count (up (sem s)) = count (sem s) /\
     waiter_up (up (sem s)) = <[w := true]> (waiter_up (sem s)) /\
     (forall t, t ∈ wait_list (up (sem s)) <-> t ∈ wait_list (sem s) /\ t <> w)) /\
  (forall s' t c timeout,
     waiter_up (sem s) !! t = Some true -> asleep s !! t = Some (c, timeout) -> sem_step s s' ->
     (waiter_up (sem s') !! t = Some true /\ asleep s' !! t = Some (c, timeout)) \/
     (asleep s' !! t = None /\ results s' = (t, Blocking c, 0) :: results s)) /\
  (forall t c timeout timeout' p, asleep s !! t = Some (c, timeout) ->
     is_Some (down_resume (sem s) t (call_state c) timeout' p)).
Proof.
  intros Hv Hr Hb. destruct (sem_reach_inv val s Hv Hr Hb) as [Hu [handed Hinv]].
  pose proof (inv_permits _ _ _ Hinv). pose proof (inv_count _ _ _ Hinv).
  assert (0 <= acquired s) by apply zlen_nonneg.
  split; [exists handed; split; [apply Hinv|done]|]. split; [lia|]. split; [apply Hinv|]. split; [apply Hinv|].
  split; [apply down_trylock_eq; lia|]. split; [intros; apply down_behaves; lia|].
  split; [intros; apply resume_behaves|].
  split; [by eapply up_serves_longest|]. split; [intros s' t c to Hup Ht Hstep; by eapply handed_kept|].
  intros t c to to' p Ht. destruct (proj2 (inv_asleep _ _ _ Hinv t)) as [[|] E]; [by eexists| |];
    unfold down_resume; rewrite E; by eexists.
Qed.

(** A run: task 1 takes the only permit, tasks 2 and 3 wait, a trylock fails and
    the permit is released to task 2. *)
Definition run_waiting : sys :=
  Sys (Semaphore 0 [2%positive; 3%positive] {[ 2%positive := false; 3%positive := false ]})
    {[ 2%positive := (DownKillable, MAX_SCHEDULE_TIMEOUT); 3%positive := (DownTimeout 5, 5) ]} 3
    {[ 1%positive := 0; 2%positive := 1; 3%positive := 2 ]} 0
    [(4%positive, Trylock, 1); (1%positive, Blocking Down, 0)].

Definition run_contended : sys :=
  Sys (Semaphore 0 [3%positive] {[ 2%positive := true; 3%positive := false ]})
    {[ 2%positive := (DownKillable, MAX_SCHEDULE_TIMEOUT); 3%positive := (DownTimeout 5, 5) ]} 3
    {[ 1%positive := 0; 2%positive := 1; 3%positive := 2 ]} 1
    [(4%positive, Trylock, 1); (1%positive, Blocking Down, 0)].

Lemma run_waiting_reach : rtc sem_step (sys_init 1) run_waiting.
Proof.
  pose proof (step_down (sys_init 1) 1 Down (Signals false false) _ _ eq_refl eq_refl) as H1.
  match type of H1 with sem_step _ ?s => set (s1 := s) in H1 end.
  pose proof (step_down s1 2 DownKillable (Signals false false) _ _ eq_refl eq_refl) as H2.
  match type of H2 with sem_step _ ?s => set (s2 := s) in H2 end.
  pose proof (step_down s2 3 (DownTimeout 5) (Signals false false) _ _ eq_refl eq_refl) as H3.
  match type of H3 with sem_step _ ?s => set (s3 := s) in H3 end.
  pose proof (step_trylock s3 4 _ _ eq_refl) as H4.
  eapply rtc_l; [exact H1|]. eapply rtc_l; [exact H2|]. eapply rtc_l; [exact H3|]. eapply rtc_l; [exact H4|].
  match goal with |- rtc _ ?x _ => replace x with run_waiting by (vm_compute; reflexivity) end. apply rtc_refl.
Qed.

Lemma run_contended_reach : rtc sem_step (sys_init 1) run_contended.
Proof.
  eapply rtc_r; [apply run_waiting_reach|]. pose proof (step_up run_waiting) as H.
  match type of H with sem_step _ ?x => replace x with run_contended in H by (vm_compute; reflexivity) end. exact H.
Qed.

Lemma semaphore_correct_witness :
  0 <= acquired run_contended <= 1 + 1 /\
  (exists w, waiter_up (sem run_contended) !! w = Some false) /\
  exists s', sem_step run_contended s' /\ asleep s' !! 2%positive = None /\
    results s' = (2%positive, Blocking DownKillable, 0) :: results run_contended.
Proof.
  destruct (semaphore_correct 1 run_contended ltac:(lia) run_contended_reach ltac:(by vm_compute))
    as (_ & Hacq & _ & _ & _ & _ & _ & Hup & H & _).
  split; [exact Hacq|]. split; [destruct Hup as (w & Hw & _); [done|by exists w]|].
  pose proof (step_resume run_contended 2 DownKillable MAX_SCHEDULE_TIMEOUT MAX_SCHEDULE_TIMEOUT
    (Signals true true) _ _ eq_refl ltac:(by vm_compute) ltac:(done) eq_refl) as Hs.
  eexists. split; [exact Hs|].
  destruct (H _ 2%positive DownKillable MAX_SCHEDULE_TIMEOUT
    ltac:(by vm_compute) ltac:(by vm_compute) Hs) as [[Hu _]|Hd]; [|done].
  by vm_compute in Hu.
Defined.
