(* ===== verification/Rwsem.v ===== *)
(** Reader-writer semaphores: lib/rwsem-spinlock.c.

    Each stretch of code under [sem->wait_lock] is one function on the
    semaphore; [rw_step] interleaves the calls of the tasks of a finite system.
    The invariant ties [activity] to the tasks that hold the semaphore and shows
    that no two tasks write, that writers exclude readers and that [__up_read]
    always finds a writer at the front of the queue. *)
From Stdlib Require Import ZArith Lia Bool.
From stdpp Require Import base numbers list gmap option relations.
From S2P Require Import Prelude.

Local Open Scope Z_scope.

(** * Definitions *)

Abbreviation task := positive.

Inductive waiter_flag : Type := RWSEM_WAITING_FOR_READ | RWSEM_WAITING_FOR_WRITE.

#[global] Instance waiter_flag_eq_dec : EqDecision waiter_flag.
Proof. solve_decision. Defined.

(** [waiter_task] tells for each task in its wait loop whether the [task] field
    of the [rwsem_waiter] on its stack is still set. *)
Record rw_semaphore : Type := RwSemaphore {
  activity : Z;
  wait_list : list (task * waiter_flag);
  waiter_task : gmap task bool
}.

Definition __init_rwsem : rw_semaphore := RwSemaphore 0 [] ∅.

(** [waiter->task = NULL; wake_up_process(tsk)]. *)
Definition wake (t : task) (w : gmap task bool) : gmap task bool := <[t := false]> w.

(** The loop of [__rwsem_do_wake] that wakes the readers at the front; the
    remaining queue, the waiters and the tasks woken. *)
Fixpoint wake_readers (l : list (task * waiter_flag)) (w : gmap task bool) (woken : list task)
  : list (task * waiter_flag) * gmap task bool * list task :=
  match l with
  | (t, RWSEM_WAITING_FOR_READ) :: rest => wake_readers rest (wake t w) (woken ++ [t])
  | _ => (l, w, woken)
  end.

(** Also returns the tasks that were given the semaphore.  Undefined on an
    empty queue. *)
Definition __rwsem_do_wake (sem : rw_semaphore) (wakewrite : bool)
  : option (rw_semaphore * list task) :=
  match wait_list sem with
  | [] => None
  | (t, RWSEM_WAITING_FOR_WRITE) :: rest =>
      if wakewrite then Some (RwSemaphore (-1) rest (wake t (waiter_task sem)), [t])
      else Some (sem, [])
  | (_, RWSEM_WAITING_FOR_READ) :: _ =>
      let '(rest, w, woken) := wake_readers (wait_list sem) (waiter_task sem) [] in
      Some (RwSemaphore (s32 (activity sem + zlen woken)) rest w, woken)
  end.

Definition __rwsem_wake_one_writer (sem : rw_semaphore) : option (rw_semaphore * list task) :=
  match wait_list sem with
  | [] => None
  | (t, _) :: rest => Some (RwSemaphore (-1) rest (wake t (waiter_task sem)), [t])
  end.

Definition is_nil {A : Type} (l : list A) : bool := match l with [] => true | _ => false end.

(** The locked part of [__down_read]; [true] when the lock was granted at
    once, otherwise the task is in its wait loop. *)
Definition __down_read (sem : rw_semaphore) (t : task) : rw_semaphore * bool :=
  if (0 <=? activity sem) && is_nil (wait_list sem)
  then (RwSemaphore (s32 (activity sem + 1)) (wait_list sem) (waiter_task sem), true)
  else (RwSemaphore (activity sem) (wait_list sem ++ [(t, RWSEM_WAITING_FOR_READ)])
          (<[t := true]> (waiter_task sem)), false).

Definition __down_read_trylock (sem : rw_semaphore) : rw_semaphore * Z :=
  if (0 <=? activity sem) && is_nil (wait_list sem)
  then (RwSemaphore (s32 (activity sem + 1)) (wait_list sem) (waiter_task sem), 1)
  else (sem, 0).

Definition __down_write_nested (sem : rw_semaphore) (t : task) : rw_semaphore * bool :=
  if (activity sem =? 0) && is_nil (wait_list sem)
  then (RwSemaphore (-1) (wait_list sem) (waiter_task sem), true)
  else (RwSemaphore (activity sem) (wait_list sem ++ [(t, RWSEM_WAITING_FOR_WRITE)])
          (<[t := true]> (waiter_task sem)), false).

Definition __down_write_trylock (sem : rw_semaphore) : rw_semaphore * Z :=
  if (activity sem =? 0) && is_nil (wait_list sem)
  then (RwSemaphore (-1) (wait_list sem) (waiter_task sem), 1)
  else (sem, 0).

Definition __up_read (sem : rw_semaphore) : option (rw_semaphore * list task) :=
  let sem := RwSemaphore (s32 (activity sem - 1)) (wait_list sem) (waiter_task sem) in
  if (activity sem =? 0) && negb (is_nil (wait_list sem)) then __rwsem_wake_one_writer sem
  else Some (sem, []).

Definition __up_write (sem : rw_semaphore) : option (rw_semaphore * list task) :=
  let sem := RwSemaphore 0 (wait_list sem) (waiter_task sem) in
  if negb (is_nil (wait_list sem)) then __rwsem_do_wake sem true else Some (sem, []).

Definition __downgrade_write (sem : rw_semaphore) : option (rw_semaphore * list task) :=
  let sem := RwSemaphore 1 (wait_list sem) (waiter_task sem) in
  if negb (is_nil (wait_list sem)) then __rwsem_do_wake sem false else Some (sem, []).

Lemma is_nil_spec {A : Type} (l : list A) : reflect (l = []) (is_nil l).
Proof. destruct l; by constructor. Qed.

(** * Interleavings *)

(** The semaphore, the tasks that hold it for reading and the tasks that hold it
    for writing; nothing in the type keeps these sets apart or small. *)
Record sys : Type := Sys { sem : rw_semaphore; readers : gset task; writers : gset task }.

Definition sys_init : sys := Sys __init_rwsem ∅ ∅.

(** A task that is neither waiting nor holding. *)
Definition idle (s : sys) (t : task) : Prop :=
  waiter_task (sem s) !! t = None /\ (t ∉ readers s) /\ (t ∉ writers s).

(** What the tasks woken by a release were queued for decides how they hold the
    semaphore, beside the readers [rs] and the writers [ws] that hold it already. *)
Definition grant (s : sys) (sem' : rw_semaphore) (rs ws : gset task) (woken : list task) : sys :=
  Sys sem'
    (rs ∪ list_to_set (filter (fun t => (t, RWSEM_WAITING_FOR_READ) ∈ wait_list (sem s)) woken))
    (ws ∪ list_to_set (filter (fun t => (t, RWSEM_WAITING_FOR_WRITE) ∈ wait_list (sem s)) woken)).

Section steps.
(** The tasks of the system. *)
Context (tasks : gset task).

Inductive rw_step : sys -> sys -> Prop :=
| step_down_read s t sem' ok :
    t ∈ tasks -> idle s t -> __down_read (sem s) t = (sem', ok) ->
    rw_step s (Sys sem' (if ok : bool then readers s ∪ {[t]} else readers s) (writers s))
| step_down_read_trylock s t sem' r :
    t ∈ tasks -> idle s t -> __down_read_trylock (sem s) = (sem', r) ->
    rw_step s (Sys sem' (if r =? 0 then readers s else readers s ∪ {[t]}) (writers s))
| step_down_write s t sem' ok :
    t ∈ tasks -> idle s t -> __down_write_nested (sem s) t = (sem', ok) ->
    rw_step s (Sys sem' (readers s) (if ok : bool then writers s ∪ {[t]} else writers s))
| step_down_write_trylock s t sem' r :
    t ∈ tasks -> idle s t -> __down_write_trylock (sem s) = (sem', r) ->
    rw_step s (Sys sem' (readers s) (if r =? 0 then writers s else writers s ∪ {[t]}))
| step_resume s t :
    waiter_task (sem s) !! t = Some false ->
    rw_step s (Sys (RwSemaphore (activity (sem s)) (wait_list (sem s)) (delete t (waiter_task (sem s))))
      (readers s) (writers s))
| step_up_read s t sem' woken :
    t ∈ readers s -> waiter_task (sem s) !! t = None -> __up_read (sem s) = Some (sem', woken) ->
    rw_step s (grant s sem' (readers s ∖ {[t]}) (writers s) woken)
| step_up_write s t sem' woken :
    t ∈ writers s -> waiter_task (sem s) !! t = None -> __up_write (sem s) = Some (sem', woken) ->
    rw_step s (grant s sem' (readers s) (writers s ∖ {[t]}) woken)
| step_downgrade s t sem' woken :
    t ∈ writers s -> waiter_task (sem s) !! t = None -> __downgrade_write (sem s) = Some (sem', woken) ->
    rw_step s (grant s sem' (readers s ∪ {[t]}) (writers s ∖ {[t]}) woken).

(** ** The invariant *)

(** The value of [activity] that the holders call for. *)
Definition held_activity (rs ws : gset task) : Z :=
  if decide (ws = ∅) then Z.of_nat (size rs) else -1.

Record rw_inv (s : sys) : Prop := {
  inv_activity : activity (sem s) = held_activity (readers s) (writers s);
  inv_exclusive : writers s <> ∅ -> readers s = ∅;
  inv_one t u : t ∈ writers s -> u ∈ writers s -> t = u;
  inv_tasks t : t ∈ readers s \/ t ∈ writers s \/ is_Some (waiter_task (sem s) !! t) -> t ∈ tasks;
  inv_nodup : NoDup ((wait_list (sem s)).*1);
  inv_waiting t : t ∈ (wait_list (sem s)).*1 <-> waiter_task (sem s) !! t = Some true;
  inv_blocked t : waiter_task (sem s) !! t = Some true -> (t ∉ readers s) /\ (t ∉ writers s);
  inv_granted t : waiter_task (sem s) !! t = Some false -> t ∈ readers s \/ t ∈ writers s;
  inv_busy : wait_list (sem s) <> [] -> activity (sem s) <> 0;
  inv_front t l : wait_list (sem s) = (t, RWSEM_WAITING_FOR_READ) :: l -> writers s <> ∅
}.

Lemma rw_init_inv : rw_inv sys_init.
Proof.
  constructor; simpl; try done.
  - intros t [|[|[? H]]]; [set_solver|set_solver|]. by rewrite lookup_empty in H.
  - constructor.
  - intros t. rewrite lookup_empty. set_solver.
Qed.

(** ** Queueing *)

Lemma fmap_fst_snoc (l : list (task * waiter_flag)) t f : (l ++ [(t, f)]).*1 = l.*1 ++ [t].
Proof. by rewrite fmap_app. Qed.

Lemma enqueue_inv s t f :
  rw_inv s -> t ∈ tasks -> idle s t -> activity (sem s) <> 0 ->
  (f = RWSEM_WAITING_FOR_READ -> wait_list (sem s) <> [] \/ writers s <> ∅) ->
  rw_inv (Sys (RwSemaphore (activity (sem s)) (wait_list (sem s) ++ [(t, f)])
    (<[t := true]> (waiter_task (sem s)))) (readers s) (writers s)).
Proof.
  intros [H1 H2 H0 H3 H4 H5 H6 H7 H8 H9] Ht (Hi1 & Hi2 & Hi3) Hact Hf.
  assert (Hnot : t ∉ (wait_list (sem s)).*1) by (rewrite H5; congruence).
  constructor; simpl; try done.
  - intros x. rewrite lookup_insert. case_decide; [subst; done|]. apply H3.
  - rewrite fmap_fst_snoc. apply NoDup_app. split_and!; [done| |apply NoDup_singleton].
    intros x Hx ->%list_elem_of_singleton. done.
  - intros x. rewrite fmap_fst_snoc, elem_of_app, list_elem_of_singleton, H5, lookup_insert.
    case_decide; naive_solver.
  - intros x. rewrite lookup_insert. case_decide; [by subst|]. apply H6.
  - intros x. rewrite lookup_insert. case_decide; [done|]. apply H7.
  - intros x l E. destruct (wait_list (sem s)) as [|[y g] l']; simplify_eq/=; [naive_solver|].
    by eapply H9.
Qed.

(** ** Granting at once *)

Lemma grant_read_inv s t :
  Z.of_nat (size tasks) < 2 ^ 31 ->
  rw_inv s -> t ∈ tasks -> idle s t -> 0 <= activity (sem s) -> wait_list (sem s) = [] ->
  rw_inv (Sys (RwSemaphore (s32 (activity (sem s) + 1)) (wait_list (sem s)) (waiter_task (sem s)))
    (readers s ∪ {[t]}) (writers s)).
Proof.
  intros Hsz [H1 H2 H0 H3 H4 H5 H6 H7 H8 H9] Ht (Hi1 & Hi2 & Hi3) Hact Hnil.
  assert (Hsub : readers s ∪ {[t]} ⊆ tasks) by (intros x Hx; set_unfold; naive_solver).
  assert (Hsize : size (readers s ∪ {[t]}) = S (size (readers s)))
    by (rewrite size_union, size_singleton by set_solver; lia).
  pose proof (subseteq_size _ _ Hsub). rewrite Hnil in *.
  rewrite H1 in Hact |- *. unfold held_activity in Hact. case_decide as Ew; [|lia]. rewrite Ew in *.
  constructor; simpl; try done.
  - unfold held_activity. rewrite !decide_True, s32_small by (done || lia). lia.
  - intros x [Hx|[Hx|Hx]]; [by apply Hsub|set_solver|apply H3; auto].
  - intros x Hx. destruct (H6 x Hx). split; [|done]. assert (x <> t) by congruence. set_solver.
  - intros x Hx. specialize (H7 x Hx). set_solver.
Qed.

Lemma grant_write_inv s t :
  rw_inv s -> t ∈ tasks -> idle s t -> activity (sem s) = 0 -> wait_list (sem s) = [] ->
  rw_inv (Sys (RwSemaphore (-1) (wait_list (sem s)) (waiter_task (sem s))) (readers s) (writers s ∪ {[t]})).
Proof.
  intros [H1 H2 H0 H3 H4 H5 H6 H7 H8 H9] Ht (Hi1 & Hi2 & Hi3) Hact Hnil. rewrite Hnil in *.
  assert (Hr : readers s = ∅ /\ writers s = ∅).
  { rewrite Hact in H1. unfold held_activity in *; case_decide as Ew; [|lia]. split; [|done]. apply leibniz_equiv, size_empty_inv. lia. }
  destruct Hr as [Hr Hw]. rewrite Hr, Hw in *. constructor; simpl; try done.
  - unfold held_activity. by rewrite decide_False by set_solver.
  - intros x y. set_solver.
  - intros x [Hx|[Hx|Hx]]; [set_solver| |apply H3; auto]. assert (x = t) as -> by set_solver. done.
  - intros x Hx. split; [set_solver|]. assert (x <> t) by congruence. set_solver.
  - intros x Hx. specialize (H7 x Hx). set_solver.
Qed.

(** ** Waking *)

(** Splitting the readers off the front of the queue. *)
Lemma wake_readers_spec l w woken :
  exists rs rest, l = ((fun t => (t, RWSEM_WAITING_FOR_READ)) <$> rs) ++ rest /\
    wake_readers l w woken = (rest, foldl (fun w t => wake t w) w rs, woken ++ rs) /\
    (forall t l', rest <> (t, RWSEM_WAITING_FOR_READ) :: l').
Proof.
  revert w woken. induction l as [|[t [|]] l IH]; intros w woken; simpl.
  - exists [], []. rewrite (app_nil_r woken). split; [done|]. split; [done|]. by intros ? ? [=].
  - destruct (IH (wake t w) (woken ++ [t])) as (rs & rest & -> & -> & Hr).
    exists (t :: rs), rest. simpl. by rewrite <- app_assoc.
  - exists [], ((t, RWSEM_WAITING_FOR_WRITE) :: l). rewrite (app_nil_r woken).
    split; [done|]. split; [done|]. by intros ? ? [=].
Qed.

Lemma wake_readers_block rs rest w :
  (forall t l', rest <> (t, RWSEM_WAITING_FOR_READ) :: l') ->
  wake_readers (((fun t => (t, RWSEM_WAITING_FOR_READ)) <$> rs) ++ rest) w [] =
  (rest, foldl (fun w t => wake t w) w rs, rs).
Proof.
  intros Hrest. change rs with ([] ++ rs) at 3. generalize (@nil task) as acc. revert w.
  induction rs as [|r rs IH]; intros w acc; simpl.
  - rewrite app_nil_r. destruct rest as [|[x [|]] l]; try done. by destruct (Hrest x l).
  - rewrite IH, <- app_assoc. done.
Qed.

Lemma foldl_wake_lookup rs w t :
  foldl (fun w t => wake t w) w rs !! t = if decide (t ∈ rs) then Some false else w !! t.
Proof.
  revert w. induction rs as [|r rs IH]; intros w; cbn [foldl]; [case_decide; set_solver|].
  rewrite IH. unfold wake. rewrite lookup_insert.
  destruct (decide (t ∈ rs)), (decide (r = t)), (decide (t ∈ r :: rs)); set_solver.
Qed.

(** Handing the free semaphore to the writer at the front. *)
Lemma hand_write_inv s t f rest :
  rw_inv s -> wait_list (sem s) = (t, f) :: rest -> (forall x, waiter_task (sem s) !! x <> Some false) ->
  rw_inv (Sys (RwSemaphore (-1) rest (wake t (waiter_task (sem s)))) ∅ {[t]}).
Proof.
  intros [H1 H2 H0 H3 H4 H5 H6 H7 H8 H9] Hl Hno. rewrite Hl in *. simpl in H4. apply NoDup_cons in H4 as [Hn Hnd].
  assert (Ht : waiter_task (sem s) !! t = Some true) by (apply H5; set_solver).
  unfold wake. constructor; simpl; try done.
  - intros x y. set_solver.
  - intros x [?|[Hx|Hx]]; [set_solver|assert (x = t) as -> by set_solver; apply H3; eauto|]. rewrite lookup_insert in Hx.
    apply H3. right. right. case_decide; naive_solver.
  - intros x. rewrite lookup_insert. case_decide; subst; [split; [done|naive_solver]|].
    rewrite <- H5. simpl. set_solver.
  - intros x. rewrite lookup_insert. case_decide; [done|]. intros Hx. split; set_solver.
  - intros x. rewrite lookup_insert. case_decide; [set_solver|]. intros Hx. by destruct (Hno x).
Qed.

(** Handing it to the readers [rs] at the front, beside the readers [R] that
    hold it already. *)
Lemma hand_read_inv s R rs rest n :
  rw_inv s -> wait_list (sem s) = ((fun t => (t, RWSEM_WAITING_FOR_READ)) <$> rs) ++ rest ->
  (forall t l', rest <> (t, RWSEM_WAITING_FOR_READ) :: l') ->
  R ⊆ tasks -> (forall x, waiter_task (sem s) !! x = Some false -> x ∈ R) ->
  (forall x, x ∈ R -> waiter_task (sem s) !! x <> Some true) ->
  (rest <> [] -> R <> ∅ \/ rs <> []) -> n = Z.of_nat (size R) + zlen rs ->
  rw_inv (Sys (RwSemaphore n rest (foldl (fun w t => wake t w) (waiter_task (sem s)) rs))
    (R ∪ list_to_set rs) ∅).
Proof.
  intros [H1 H2 H0 H3 H4 H5 H6 H7 H8 H9] Hl Hfront HR Hfalse Htrue Hne ->.
  assert (Hfst : (wait_list (sem s)).*1 = rs ++ rest.*1).
  { rewrite Hl, fmap_app. f_equal. rewrite <- list_fmap_compose. apply list_fmap_id. }
  rewrite Hfst in *. apply NoDup_app in H4 as (Hnd1 & Hdis & Hnd2).
  assert (Hrs : forall x, x ∈ rs -> waiter_task (sem s) !! x = Some true) by (intros x Hx; apply H5; set_solver).
  assert (Hsize : size (R ∪ list_to_set rs) = (size R + length rs)%nat).
  { rewrite size_union, size_list_to_set; [done|done|]. intros x Hx Hx2%elem_of_list_to_set.
    by apply (Htrue x Hx), Hrs. }
  constructor; simpl; try done.
  - unfold held_activity. rewrite decide_True, Hsize by done. unfold zlen. lia.
  - intros x [Hx|[Hx|Hx]]; [|set_solver|].
    + apply elem_of_union in Hx as [Hx|Hx%elem_of_list_to_set]; [by apply HR|].
      apply H3. right. right. rewrite Hrs; eauto.
    + rewrite foldl_wake_lookup in Hx. apply H3. right. right. case_decide; [rewrite Hrs|]; eauto.
  - intros x. rewrite foldl_wake_lookup. specialize (H5 x). case_decide.
    + split; [intros Hx; by destruct (Hdis x)|done].
    + rewrite <- H5. set_solver.
  - intros x. rewrite foldl_wake_lookup. case_decide; [done|]. intros Hx. split; [|set_solver].
    rewrite elem_of_union, elem_of_list_to_set. intros [Hx2|?]; [by apply (Htrue x)|done].
  - intros x. rewrite foldl_wake_lookup. intros Hx. left. case_decide; set_solver.
  - intros Hr. destruct (Hne Hr) as [HR0|Hrs0].
    + assert (size R <> 0%nat) by (rewrite size_non_empty_iff; set_solver). pose proof (zlen_nonneg rs). lia.
    + destruct rs; [done|]. rewrite zlen_cons. pose proof (zlen_nonneg rs). lia.
  - intros t l' ->. by destruct (Hfront t l').
Qed.

(** ** Releasing *)

(** A task is queued once, so what it waits for is unambiguous. *)
Lemma queued_flag (l : list (task * waiter_flag)) t f g :
  NoDup l.*1 -> (t, f) ∈ l -> (t, g) ∈ l -> f = g.
Proof.
  intros Hnd [i Hi]%list_elem_of_lookup [j Hj]%list_elem_of_lookup.
  assert (i = j) as <-; [|congruence].
  eapply NoDup_lookup; [done|rewrite list_lookup_fmap, Hi; done|rewrite list_lookup_fmap, Hj; done].
Qed.

Lemma grant_readers s sem' R W rs rest :
  NoDup ((wait_list (sem s)).*1) ->
  wait_list (sem s) = ((fun t => (t, RWSEM_WAITING_FOR_READ)) <$> rs) ++ rest ->
  grant s sem' R W rs = Sys sem' (R ∪ list_to_set rs) W.
Proof.
  intros Hnd Hl. assert (Hin : forall t, t ∈ rs -> (t, RWSEM_WAITING_FOR_READ) ∈ wait_list (sem s)).
  { intros t Ht. rewrite Hl, elem_of_app. left. by apply (list_elem_of_fmap_2 (fun t => (t, _))). }
  unfold grant. f_equal; apply leibniz_equiv; intros x; rewrite elem_of_union, elem_of_list_to_set, list_elem_of_filter;
    [rewrite elem_of_union, elem_of_list_to_set; naive_solver|].
  split; [intros [|[Hw Hx]]; [done|]|by left].
  by pose proof (queued_flag _ _ _ _ Hnd Hw (Hin x Hx)).
Qed.

Lemma grant_writer s sem' R W t rest :
  NoDup ((wait_list (sem s)).*1) ->
  wait_list (sem s) = (t, RWSEM_WAITING_FOR_WRITE) :: rest -> grant s sem' R W [t] = Sys sem' R (W ∪ {[t]}).
Proof.
  intros Hnd E. assert (Hin : (t, RWSEM_WAITING_FOR_WRITE) ∈ wait_list (sem s)) by (rewrite E; set_solver).
  assert (Hr : (t, RWSEM_WAITING_FOR_READ) ∉ wait_list (sem s))
    by (intros Hr; by pose proof (queued_flag _ _ _ _ Hnd Hin Hr)).
  unfold grant. f_equal; apply leibniz_equiv; intros x;
    rewrite !elem_of_union, elem_of_list_to_set, list_elem_of_filter, list_elem_of_singleton; set_solver.
Qed.

(** [__rwsem_do_wake] after the holders are reduced to the readers [R]. *)
Lemma do_wake_inv s R b sem' woken :
  Z.of_nat (size tasks) < 2 ^ 31 ->
  rw_inv s -> R ⊆ tasks -> (R <> ∅ \/ b = true) -> (b = true -> R = ∅) ->
  (forall x, waiter_task (sem s) !! x <> Some false) ->
  (forall x, x ∈ R -> waiter_task (sem s) !! x <> Some true) ->
  __rwsem_do_wake (RwSemaphore (Z.of_nat (size R)) (wait_list (sem s)) (waiter_task (sem s))) b =
    Some (sem', woken) ->
  rw_inv (grant s sem' R ∅ woken).
Proof.
  intros Hsz Hinv HR Hb1 Hb2 Hno Htrue Hw. unfold __rwsem_do_wake in Hw. simpl in Hw.
  destruct (wait_list (sem s)) as [|[t f] rest] eqn:E; [done|].
  destruct f.
  - rewrite <- E in Hw. destruct (wake_readers_spec (wait_list (sem s)) (waiter_task (sem s)) [])
      as (rs & rest' & Hl & Hwr & Hf). rewrite Hwr in Hw. simplify_eq. simpl.
    rewrite (grant_readers _ _ _ _ rs rest') by (done || by apply Hinv).
    assert (Hne : rs <> []) by (intros ->; simpl in Hl; rewrite E in Hl; by eapply Hf).
    apply (hand_read_inv s); try done; [intros x Hx; by destruct (Hno x)|auto|].
    assert (Hsub : R ∪ list_to_set rs ⊆ tasks).
    { intros x [Hx|Hx%elem_of_list_to_set]%elem_of_union; [by apply HR|]. eapply inv_tasks; [done|].
      right. right. assert (waiter_task (sem s) !! x = Some true) as ->; [|eauto].
      eapply inv_waiting; [done|]. rewrite Hl, fmap_app, elem_of_app. left.
      rewrite <- list_fmap_compose. by apply list_elem_of_fmap_2 with (f := id) in Hx. }
    pose proof (subseteq_size _ _ Hsub) as Hle.
    assert (Hds : R ## list_to_set rs).
    { intros x Hx Hx2%elem_of_list_to_set. apply (Htrue x Hx). eapply inv_waiting; [done|].
      rewrite Hl, fmap_app, elem_of_app. left. rewrite <- list_fmap_compose.
      by apply list_elem_of_fmap_2 with (f := id) in Hx2. }
    rewrite size_union, size_list_to_set in Hle; [|pose proof (inv_nodup _ Hinv) as Hnd|done].
    + rewrite s32_small; unfold zlen; lia.
    + rewrite Hl, fmap_app, <- list_fmap_compose in Hnd. apply NoDup_app in Hnd as (Hnd & _).
      by rewrite list_fmap_id in Hnd.
  - destruct b.
    + simplify_eq. rewrite (grant_writer _ _ _ _ _ rest) by (done || by apply Hinv).
      rewrite Hb2, union_empty_l_L by done. eapply hand_write_inv; try done.
    + simplify_eq. destruct Hb1 as [HR0|]; [|done]. rewrite (grant_readers _ _ _ _ [] _ (inv_nodup _ Hinv) E).
      apply (hand_read_inv s R [] ((t, RWSEM_WAITING_FOR_WRITE) :: rest)); try done.
      * intros x Hx. by destruct (Hno x).
      * auto.
      * change (zlen []) with 0. lia.
Qed.

(** A reader among others leaves. *)
Lemma drop_reader_inv s t :
  rw_inv s -> writers s = ∅ -> t ∈ readers s -> activity (sem s) - 1 = Z.of_nat (size (readers s ∖ {[t]})) ->
  (forall x, waiter_task (sem s) !! x = Some false -> x ∈ readers s ∖ {[t]}) ->
  (wait_list (sem s) <> [] -> readers s ∖ {[t]} <> ∅) ->
  rw_inv (grant s (RwSemaphore (activity (sem s) - 1) (wait_list (sem s)) (waiter_task (sem s)))
    (readers s ∖ {[t]}) ∅ []).
Proof.
  intros Hinv Hwn Ht Hact Hheld Hne. rewrite (grant_readers _ _ _ _ [] _ (inv_nodup _ Hinv) eq_refl).
  apply (hand_read_inv s (readers s ∖ {[t]}) [] (wait_list (sem s))); try done.
  - intros x l El. by destruct (inv_front _ Hinv x l El).
  - intros x Hx. eapply inv_tasks; [done|]. left. set_solver.
  - intros x Hx Hx2. destruct (inv_blocked _ Hinv x Hx2). set_solver.
  - auto.
  - change (zlen []) with 0. lia.
Qed.

(** A granted task resumes. *)
Lemma resume_inv s t :
  rw_inv s -> waiter_task (sem s) !! t = Some false ->
  rw_inv (Sys (RwSemaphore (activity (sem s)) (wait_list (sem s)) (delete t (waiter_task (sem s))))
    (readers s) (writers s)).
Proof.
  intros [H1 H2 H0 H3 H4 H5 H6 H7 H8 H9] Hd. constructor; simpl; try done.
  - intros x Hx. apply H3. destruct Hx as [|[|Hx]]; auto. right. right.
    rewrite lookup_delete in Hx. case_decide; [by destruct Hx|done].
  - intros x. rewrite lookup_delete, H5. case_decide; naive_solver.
  - intros x. rewrite lookup_delete. case_decide; [done|]. apply H6.
  - intros x. rewrite lookup_delete. case_decide; [done|]. apply H7.
Qed.

Lemma readers_without s t :
  t ∈ readers s -> size (readers s) = S (size (readers s ∖ {[t]})).
Proof.
  intros Ht. rewrite size_difference, size_singleton by set_solver.
  assert (size (readers s) <> 0%nat) by (rewrite size_non_empty_iff; set_solver). lia.
Qed.

(** The last reader leaves and the front waiter, a writer, gets the semaphore. *)
Lemma last_reader_inv s sem' woken :
  rw_inv s -> writers s = ∅ -> (forall x, waiter_task (sem s) !! x <> Some false) ->
  __rwsem_wake_one_writer (RwSemaphore 0 (wait_list (sem s)) (waiter_task (sem s))) = Some (sem', woken) ->
  rw_inv (grant s sem' ∅ ∅ woken).
Proof.
  intros Hinv Hwn Hno Hu. unfold __rwsem_wake_one_writer in Hu; simpl in Hu.
  destruct (wait_list (sem s)) as [|[w f] rest] eqn:El; [done|]. simplify_eq.
  destruct f; [by destruct (inv_front _ Hinv w rest El)|].
  rewrite (grant_writer _ _ _ _ _ rest), union_empty_l_L by (done || by apply Hinv). by eapply hand_write_inv.
Qed.

Lemma up_read_inv s t sem' woken :
  Z.of_nat (size tasks) < 2 ^ 31 -> rw_inv s -> t ∈ readers s ->
  waiter_task (sem s) !! t = None -> __up_read (sem s) = Some (sem', woken) ->
  rw_inv (grant s sem' (readers s ∖ {[t]}) (writers s) woken).
Proof.
  intros Hsz Hinv Ht Hw Hu. assert (Hwn : writers s = ∅).
  { destruct (decide (writers s = ∅)) as [|Ew]; [done|]. rewrite (inv_exclusive _ Hinv Ew) in Ht. set_solver. }
  pose proof (inv_activity _ Hinv) as Hact. unfold held_activity in Hact; rewrite decide_True in Hact by done.
  assert (Hsub : readers s ⊆ tasks) by (intros x Hx; eapply inv_tasks; eauto).
  pose proof (subseteq_size _ _ Hsub). pose proof (readers_without s t Ht) as Hsize.
  assert (Hheld : forall x, waiter_task (sem s) !! x = Some false -> x ∈ readers s ∖ {[t]}).
  { intros x Hx. destruct (inv_granted _ Hinv x Hx) as [|]; [|set_solver].
    assert (x <> t) by congruence. set_solver. }
  unfold __up_read in Hu. simpl in Hu. rewrite s32_small in Hu by lia.
  destruct (Z.eqb_spec (activity (sem s) - 1) 0) as [Ha|Ha], (is_nil_spec (wait_list (sem s))) as [E|E];
    simpl in Hu; rewrite Hwn.
  2: { assert (Hemp : readers s ∖ {[t]} = ∅) by (apply leibniz_equiv, size_empty_inv; lia).
       rewrite Hemp in *. rewrite Ha in Hu. apply last_reader_inv; try done.
       intros x Hx. specialize (Hheld x Hx). set_solver. }
  all: simplify_eq; apply drop_reader_inv; try done; try lia; intros _ E'; rewrite E', size_empty in Hsize; lia.
Qed.

(** While a writer holds the semaphore nobody else does and no grant is pending
    but its own. *)
Lemma writer_alone s t :
  rw_inv s -> t ∈ writers s -> waiter_task (sem s) !! t = None ->
  readers s = ∅ /\ writers s ∖ {[t]} = ∅ /\ (forall x, waiter_task (sem s) !! x <> Some false) /\ t ∈ tasks.
Proof.
  intros Hinv Ht Hw. assert (Hr : readers s = ∅) by (eapply inv_exclusive; [done|set_solver]).
  split_and!; [done| | |eapply inv_tasks; eauto].
  - apply leibniz_equiv. intros x. rewrite elem_of_difference, elem_of_singleton.
    split; [intros [Hx Hn]; destruct Hn; by eapply inv_one|set_solver].
  - intros x Hx. destruct (inv_granted _ Hinv x Hx) as [|Hx2]; [set_solver|].
    rewrite (inv_one _ Hinv x t Hx2 Ht) in Hx. congruence.
Qed.

Lemma up_write_inv s t sem' woken :
  Z.of_nat (size tasks) < 2 ^ 31 -> rw_inv s -> t ∈ writers s ->
  waiter_task (sem s) !! t = None -> __up_write (sem s) = Some (sem', woken) ->
  rw_inv (grant s sem' (readers s) (writers s ∖ {[t]}) woken).
Proof.
  intros Hsz Hinv Ht Hw Hu. destruct (writer_alone s t Hinv Ht Hw) as (Hr & Hone & Hno & _).
  rewrite Hr, Hone. unfold __up_write in Hu. simpl in Hu.
  destruct (is_nil_spec (wait_list (sem s))) as [E|E]; simpl in Hu.
  - simplify_eq. rewrite E, (grant_readers _ _ _ _ [] _ (inv_nodup _ Hinv) eq_refl).
    apply (hand_read_inv s ∅ [] []); try done; set_solver.
  - eapply (do_wake_inv s ∅ true); try done; try set_solver; by right.
Qed.

Lemma downgrade_inv s t sem' woken :
  Z.of_nat (size tasks) < 2 ^ 31 -> rw_inv s -> t ∈ writers s ->
  waiter_task (sem s) !! t = None -> __downgrade_write (sem s) = Some (sem', woken) ->
  rw_inv (grant s sem' (readers s ∪ {[t]}) (writers s ∖ {[t]}) woken).
Proof.
  intros Hsz Hinv Ht Hw Hu. destruct (writer_alone s t Hinv Ht Hw) as (Hr & Hone & Hno & Hin).
  rewrite Hr, Hone, union_empty_l_L. unfold __downgrade_write in Hu. simpl in Hu.
  destruct (is_nil_spec (wait_list (sem s))) as [E|E]; simpl in Hu.
  - simplify_eq. rewrite E, (grant_readers _ _ _ _ [] _ (inv_nodup _ Hinv) eq_refl).
    apply (hand_read_inv s {[t]} [] []); try done; [set_solver|intros x Hx; by destruct (Hno x)|set_solver|].
    rewrite size_singleton. done.
  - eapply (do_wake_inv s {[t]} false); try done; try set_solver.
    rewrite size_singleton. exact Hu.
Qed.

Lemma rw_step_inv s s' :
  Z.of_nat (size tasks) < 2 ^ 31 -> rw_inv s -> rw_step s s' -> rw_inv s'.
Proof.
  intros Hsz Hinv Hstep.
  destruct Hstep as [s t sem' ok Ht Hi Hd|s t sem' r Ht Hi Hd|s t sem' ok Ht Hi Hd|s t sem' r Ht Hi Hd|s t Ht
    | | | ]; [| | | |by apply resume_inv|by eapply up_read_inv|by eapply up_write_inv|by eapply downgrade_inv].
  - unfold __down_read in Hd. pose proof (inv_activity _ Hinv) as Hact.
    destruct (Z.leb_spec 0 (activity (sem s))) as [Ha|Ha], (is_nil_spec (wait_list (sem s))) as [E|E];
      simpl in Hd; simplify_eq; [by apply grant_read_inv|apply enqueue_inv; try done..].
    + by eapply inv_busy.
    + by left.
    + lia.
    + right. rewrite Hact in Ha. unfold held_activity in Ha. case_decide; [lia|done].
    + lia.
    + by left.
  - unfold __down_read_trylock in Hd.
    destruct (Z.leb_spec 0 (activity (sem s))) as [Ha|Ha], (is_nil_spec (wait_list (sem s))) as [E|E];
      simpl in Hd; simplify_eq; [by apply grant_read_inv|by destruct s..].
  - unfold __down_write_nested in Hd.
    destruct (Z.eqb_spec (activity (sem s)) 0) as [Ha|Ha], (is_nil_spec (wait_list (sem s))) as [E|E];
      simpl in Hd; simplify_eq; [by apply grant_write_inv|apply enqueue_inv; try done..].
    by eapply inv_busy.
  - unfold __down_write_trylock in Hd.
    destruct (Z.eqb_spec (activity (sem s)) 0) as [Ha|Ha], (is_nil_spec (wait_list (sem s))) as [E|E];
      simpl in Hd; simplify_eq; [by apply grant_write_inv|by destruct s..].
Qed.
End steps.

Lemma size_at_most_one (X : gset task) :
  (forall t u, t ∈ X -> u ∈ X -> t = u) -> (size X <= 1)%nat.
Proof.
  intros H1. destruct (set_choose_or_empty X) as [[t Ht]|HX]; [|rewrite HX, size_empty; lia].
  rewrite <- (size_singleton (C := gset task) t). apply subseteq_size. intros u Hu.
  rewrite elem_of_singleton. by apply H1.
Qed.

Lemma rw_reach_inv (tasks : gset task) s :
  Z.of_nat (size tasks) < 2 ^ 31 -> rtc (rw_step tasks) sys_init s -> rw_inv tasks s.
Proof.
  intros Hsz Hr. revert s Hr. refine (rtc_ind_r _ _ _ _); [apply rw_init_inv|].
  intros s1 s2 _ Hstep Hinv. by eapply rw_step_inv.
Qed.

(** * Properties *)

(** The queue is served in order: while it is not empty nothing is granted to
    a newcomer, who goes to its end; a write release grants the semaphore to the
    writer at the front alone, or to all readers in front of the first writer; a
    downgrade grants it to those readers and never to a writer. *)
Definition served_in_order (sm : rw_semaphore) (t : task) : Prop :=
  (wait_list sm <> [] ->
     (exists sm', __down_read sm t = (sm', false) /\
        wait_list sm' = wait_list sm ++ [(t, RWSEM_WAITING_FOR_READ)]) /\
     (exists sm', __down_write_nested sm t = (sm', false) /\
        wait_list sm' = wait_list sm ++ [(t, RWSEM_WAITING_FOR_WRITE)]) /\
     __down_read_trylock sm = (sm, 0) /\ __down_write_trylock sm = (sm, 0)) /\
  (forall w rest, wait_list sm = (w, RWSEM_WAITING_FOR_WRITE) :: rest ->
     (exists sm', __up_write sm = Some (sm', [w]) /\ activity sm' = -1 /\ wait_list sm' = rest) /\
     (exists sm', __downgrade_write sm = Some (sm', []) /\ activity sm' = 1 /\ wait_list sm' = wait_list sm)) /\
  (forall rs rest, wait_list sm = ((fun t => (t, RWSEM_WAITING_FOR_READ)) <$> rs) ++ rest -> rs <> [] ->
     (forall x l, rest <> (x, RWSEM_WAITING_FOR_READ) :: l) -> zlen rs < 2 ^ 31 - 1 ->
     (exists sm', __up_write sm = Some (sm', rs) /\ activity sm' = zlen rs /\ wait_list sm' = rest) /\
     (exists sm', __downgrade_write sm = Some (sm', rs) /\ activity sm' = 1 + zlen rs /\ wait_list sm' = rest)).

Lemma queue_order sm t : served_in_order sm t.
Proof.
  unfold served_in_order. destruct sm as [a l w]; simpl. split; [|split].
  - intros Hl. unfold __down_read, __down_write_nested, __down_read_trylock, __down_write_trylock; simpl.
    destruct (is_nil_spec l) as [|_]; [done|]. rewrite !andb_false_r. split_and!; eauto.
  - intros x rest ->. unfold __up_write, __downgrade_write; simpl. split; eauto.
  - intros rs rest -> Hne Hrest Hlen. pose proof (zlen_nonneg rs).
    assert (Hwr : forall w, wake_readers (((fun t => (t, RWSEM_WAITING_FOR_READ)) <$> rs) ++ rest) w [] =
      (rest, foldl (fun w t => wake t w) w rs, rs)) by (intros; by apply wake_readers_block).
    destruct rs as [|r rs]; [done|]. unfold __up_write, __downgrade_write, __rwsem_do_wake. simpl wait_list.
    cbn [is_nil negb fmap list_fmap app] in *. rewrite !Hwr. simpl waiter_task.
    split; eexists; (split; [done|]); cbn [activity wait_list]; (split; [|done]); rewrite s32_small by lia; lia.
Qed.

(** With an empty queue a lock that can be had is granted at once and one that
    cannot be had is waited for, or refused to a trylock; a release is defined
    whatever the queue. *)
Definition granted_at_once (sm : rw_semaphore) (t : task) : Prop :=
  (wait_list sm = [] -> activity sm < 2 ^ 31 - 1 ->
     (0 <= activity sm ->
        let sm' := RwSemaphore (activity sm + 1) [] (waiter_task sm) in
        __down_read sm t = (sm', true) /\ __down_read_trylock sm = (sm', 1)) /\
     (activity sm < 0 ->
        __down_read sm t =
          (RwSemaphore (activity sm) [(t, RWSEM_WAITING_FOR_READ)] (<[t := true]> (waiter_task sm)), false) /\
        __down_read_trylock sm = (sm, 0)) /\
     (activity sm = 0 ->
        let sm' := RwSemaphore (-1) [] (waiter_task sm) in
        __down_write_nested sm t = (sm', true) /\ __down_write_trylock sm = (sm', 1)) /\
     (activity sm <> 0 ->
        __down_write_nested sm t =
          (RwSemaphore (activity sm) [(t, RWSEM_WAITING_FOR_WRITE)] (<[t := true]> (waiter_task sm)), false) /\
        __down_write_trylock sm = (sm, 0))) /\
  is_Some (__up_read sm) /\ is_Some (__up_write sm) /\ is_Some (__downgrade_write sm).

Lemma do_wake_defined sm b : wait_list sm <> [] -> is_Some (__rwsem_do_wake sm b).
Proof.
  unfold __rwsem_do_wake. destruct (wait_list sm) as [|[t [|]] l]; [done|intros _|intros _; destruct b; by eexists].
  destruct (wake_readers _ _ _) as [[rest w] woken]. by eexists.
Qed.

Lemma grants_at_once sm t : granted_at_once sm t.
Proof.
  destruct sm as [a l w]. unfold granted_at_once; cbn [activity wait_list waiter_task]. split.
  - intros -> Ha. unfold __down_read, __down_read_trylock, __down_write_nested, __down_write_trylock. simpl.
    split_and!; intros Hb; [rewrite (proj2 (Z.leb_le 0 a)), s32_small by lia|rewrite (proj2 (Z.leb_gt 0 a)) by lia|
      rewrite (proj2 (Z.eqb_eq a 0)) by done|rewrite (proj2 (Z.eqb_neq a 0)) by done]; done.
  - unfold __up_read, __up_write, __downgrade_write, __rwsem_wake_one_writer; simpl.
    destruct (is_nil_spec l) as [->|Hl]; simpl; [rewrite andb_false_r; by split_and!; eexists|].
    rewrite andb_true_r. split_and!; [|by apply do_wake_defined..].
    destruct (s32 (a - 1) =? 0); [|by eexists]. destruct l as [|[x f] l]; [done|by eexists].
Qed.

(** C12 Under every interleaving of read and write acquisitions, trylocks,
    releases and downgrades by a finite set of tasks: two tasks never hold the
    semaphore for writing, a writer excludes readers, [activity] is -1 with a
    writer and the number of readers otherwise, exactly the tasks still waiting
    are queued, each once, only while the semaphore is held and without holding
    it, a task that was woken holds it, and while readers hold it the first task
    in the queue waits for writing, which [__up_read] relies on when it wakes one
    writer.  The queue is served in order ([served_in_order]), and what can be had
    is granted at once ([granted_at_once]). *)
Theorem rwsem_correct (tasks : gset task) s :
  Z.of_nat (size tasks) < 2 ^ 31 -> rtc (rw_step tasks) sys_init s ->
  (size (writers s) <= 1)%nat /\
  (writers s <> ∅ -> readers s = ∅) /\
  activity (sem s) = (if decide (writers s = ∅) then Z.of_nat (size (readers s)) else -1) /\
  NoDup ((wait_list (sem s)).*1) /\
  (forall t, t ∈ (wait_list (sem s)).*1 <-> waiter_task (sem s) !! t = Some true) /\
  (forall t, t ∈ (wait_list (sem s)).*1 -> (t ∉ readers s) /\ (t ∉ writers s)) /\
  (forall t, waiter_task (sem s) !! t = Some false -> t ∈ readers s \/ t ∈ writers s) /\
  (wait_list (sem s) <> [] -> activity (sem s) <> 0) /\
  (forall t f l, writers s = ∅ -> wait_list (sem s) = (t, f) :: l -> f = RWSEM_WAITING_FOR_WRITE) /\
  (forall t, served_in_order (sem s) t /\ granted_at_once (sem s) t).
Proof.
  intros Hsz Hr. destruct (rw_reach_inv tasks s Hsz Hr) as [H1 H2 H0 H3 H4 H5 H6 H7 H8 H9].
  split_and!; try done; [by apply size_at_most_one|naive_solver| |split; [apply queue_order|apply grants_at_once]].
  intros t [|] l Hw E; [|done]. by destruct (H9 t l E).
Qed.

(** Task 1 reads, task 2 waits to write, task 3 waits to read. *)
Definition run_mixed : sys :=
  Sys (RwSemaphore 1 [(2%positive, RWSEM_WAITING_FOR_WRITE); (3%positive, RWSEM_WAITING_FOR_READ)]
    {[ 2%positive := true; 3%positive := true ]}) {[ 1%positive ]} ∅.

Definition three : gset task := {[ 1%positive; 2%positive; 3%positive ]}.

Lemma run_mixed_reach : rtc (rw_step three) sys_init run_mixed.
Proof.
  assert (Hidle : forall s t, (waiter_task (sem s) !! t, bool_decide (t ∈ readers s), bool_decide (t ∈ writers s)) =
    (None, false, false) -> idle s t).
  { intros s t [= Hw Hr%bool_decide_eq_false Hn%bool_decide_eq_false]. by split_and!. }
  pose proof (step_down_read three sys_init 1 _ _ ltac:(by vm_compute)
    ltac:(apply Hidle; vm_compute; reflexivity) eq_refl) as H1.
  set (s1 := Sys _ _ _) in H1.
  pose proof (step_down_write three s1 2 _ _ ltac:(by vm_compute)
    ltac:(apply Hidle; vm_compute; reflexivity) eq_refl) as H2.
  set (s2 := Sys _ _ _) in H2.
  pose proof (step_down_read three s2 3 _ _ ltac:(by vm_compute)
    ltac:(apply Hidle; vm_compute; reflexivity) eq_refl) as H3.
  eapply rtc_l; [exact H1|]. eapply rtc_l; [exact H2|]. eapply rtc_l; [exact H3|].
  match goal with |- rtc _ ?x _ => replace x with run_mixed by (vm_compute; reflexivity) end. apply rtc_refl.
Qed.

Lemma rwsem_correct_witness :
  rtc (rw_step three) sys_init run_mixed /\ activity (sem run_mixed) = 1 /\ writers run_mixed = ∅ /\
  __down_read_trylock (sem run_mixed) = (sem run_mixed, 0).
Proof.
  split; [apply run_mixed_reach|].
  destruct (rwsem_correct three run_mixed) as (_ & _ & Ha & _ & _ & _ & _ & _ & _ & Hq);
    [by vm_compute|apply run_mixed_reach|].
  split; [exact Ha|]. split; [done|]. apply (proj1 (Hq 4%positive)). done.
Defined.
