(* ===== verification/Buddy.v ===== *)
(** The buddy allocator of mm/page_alloc.c: the free lists of a zone under
    [zone->lock].

    Pages are named by their page frame numbers.  [__free_one_page] merges
    buddies upwards, [expand] splits downwards, [__rmqueue_smallest],
    [__rmqueue_fallback] and [__rmqueue] choose a block.  The theorems read the
    free lists as a set of aligned, disjoint blocks no two of which could be
    merged. *)
From Stdlib Require Import ZArith Lia Bool.
From stdpp Require Import base numbers list gmap option.
From S2P Require Import Prelude.

Local Open Scope Z_scope.

(** * Data *)

(** linux/mmzone.h. *)
Definition MAX_ORDER : Z := 11.
Definition MIGRATE_UNMOVABLE : Z := 0.
Definition MIGRATE_RECLAIMABLE : Z := 1.
Definition MIGRATE_MOVABLE : Z := 2.
Definition MIGRATE_RESERVE : Z := 3.
Definition MIGRATE_TYPES : Z := 5.

(** [buddy] holds [page_private] of the pages with [PG_buddy] set;
    [free_list] and [nr_free] are the members of [free_area[order]], the lists
    also indexed by migrate type; [pageblock] is the migrate type of each
    pageblock; [nr_free_pages] is the counter [NR_FREE_PAGES]. *)
Record zone : Type := Zone {
  buddy : gmap Z Z;
  free_list : gmap (Z * Z) (list Z);
  nr_free : gmap Z Z;
  pageblock : gmap Z Z;
  nr_free_pages : Z
}.

Definition flist (z : zone) (order mt : Z) : list Z := default [] (free_list z !! (order, mt)).
Definition nr (z : zone) (order : Z) : Z := default 0 (nr_free z !! order).

Definition set_page_order (z : zone) (page order : Z) : zone :=
  Zone (<[page := order]> (buddy z)) (free_list z) (nr_free z) (pageblock z) (nr_free_pages z).

Definition rmv_page_order (z : zone) (page : Z) : zone :=
  Zone (delete page (buddy z)) (free_list z) (nr_free z) (pageblock z) (nr_free_pages z).

(** [list_add(&page->lru, ...)] at the head of a list, and [list_del(&page->lru)]
    from whichever list the page is on. *)
Definition list_add (z : zone) (page order mt : Z) : zone :=
  Zone (buddy z) (<[(order, mt) := page :: flist z order mt]> (free_list z)) (nr_free z) (pageblock z)
    (nr_free_pages z).

Definition list_del (z : zone) (page : Z) : zone :=
  Zone (buddy z) (filter (fun x => x <> page) <$> free_list z) (nr_free z) (pageblock z) (nr_free_pages z).

(** [zone->free_area[order].nr_free += d]. *)
Definition add_nr (z : zone) (order d : Z) : zone :=
  Zone (buddy z) (free_list z) (<[order := u64 (nr z order + d)]> (nr_free z)) (pageblock z) (nr_free_pages z).

(** * Operations *)

Definition page_idx_of (pfn : Z) : Z := Z.land pfn (2 ^ MAX_ORDER - 1).

Definition __page_find_buddy (page page_idx order : Z) : Z :=
  let buddy_idx := Z.lxor page_idx (2 ^ order) in page + (buddy_idx - page_idx).

Definition __find_combined_index (page_idx order : Z) : Z := Z.land page_idx (not64 (2 ^ order)).

Section zone.
(** Whether a page frame exists and belongs to the zone: [pfn_valid_within]
    and the comparison of zone ids. *)
Context (present : Z -> bool).

Definition page_is_buddy (z : zone) (buddy_ order : Z) : bool :=
  if negb (present buddy_) then false
  else match buddy z !! buddy_ with Some o => o =? order | None => false end.

(** For a page that is not compound.  [VM_BUG_ON] of an index that is not
    aligned is undefined behaviour here. *)
Definition __free_one_page (z : zone) (page order mt : Z) : option zone :=
  let page_idx := page_idx_of page in
  if negb (Z.land page_idx (2 ^ order - 1) =? 0) then None
  else
    '(z, page, order) ← loop (Z.to_nat MAX_ORDER + 1) (fun '(z, page, page_idx, order) =>
      if order <? MAX_ORDER - 1 then
        let buddy_ := __page_find_buddy page page_idx order in
        if negb (page_is_buddy z buddy_ order) then Some (Done (z, page, order))
        else
          let z := list_del z buddy_ in
          let z := add_nr z order (-1) in
          let z := rmv_page_order z buddy_ in
          let combined_idx := __find_combined_index page_idx order in
          Some (Next (z, page + (combined_idx - page_idx), combined_idx, order + 1))
      else Some (Done (z, page, order))) (z, page, page_idx, order);
    let z := set_page_order z page order in
    let z := list_add z page order mt in
    Some (add_nr z order 1).

(** [__mod_zone_page_state] of [NR_FREE_PAGES]. *)
Definition mod_free_pages (z : zone) (d : Z) : zone :=
  Zone (buddy z) (free_list z) (nr_free z) (pageblock z) (nr_free_pages z + d).

Definition free_one_page (z : zone) (page order mt : Z) : option zone :=
  __free_one_page (mod_free_pages z (2 ^ order)) page order mt.

(** The loop of [expand] that puts the upper halves back. *)
Definition expand (z : zone) (page low high mt : Z) : option zone :=
  loop (Z.to_nat MAX_ORDER + 1) (fun '(z, high, size) =>
    if low <? high then
      let high := high - 1 in
      let size := Z.shiftr size 1 in
      let z := list_add z (page + size) high mt in
      let z := add_nr z high 1 in
      Some (Next (set_page_order z (page + size) high, high, size))
    else Some (Done z)) (z, high, 2 ^ high).

Definition __rmqueue_smallest (z : zone) (order mt : Z) : option (zone * option Z) :=
  x ← for_ order MAX_ORDER (fun current_order (_ : unit) =>
    match flist z current_order mt with
    | [] => Some (Next tt)
    | page :: _ =>
        let z := list_del z page in
        let z := rmv_page_order z page in
        let z := add_nr z current_order (-1) in
        z ← expand z page order current_order mt;
        Some (Done (z, Some page))
    end) tt;
  Some (match x with Done r => r | Next _ => (z, None) end).

(** Whether a page frame exists, the zone that its page belongs to, and
    [CONFIG_HOLES_IN_ZONE]. *)
Context (pfn_valid_within : Z -> bool) (page_zone : Z -> Z) (holes_in_zone : bool).

(** The zone's boundaries, the size of a pageblock and the switch
    [page_group_by_mobility_disabled]. *)
Context (zone_start_pfn spanned_pages pageblock_order : Z) (mobility_disabled : bool).

Definition pageblock_nr_pages : Z := 2 ^ pageblock_order.

(** The rows have [MIGRATE_TYPES - 1] entries, of which the last is not given and
    so is zero. *)
Definition fallbacks (mt : Z) : list Z :=
  if mt =? MIGRATE_UNMOVABLE then [MIGRATE_RECLAIMABLE; MIGRATE_MOVABLE; MIGRATE_RESERVE; 0]
  else if mt =? MIGRATE_RECLAIMABLE then [MIGRATE_UNMOVABLE; MIGRATE_MOVABLE; MIGRATE_RESERVE; 0]
  else if mt =? MIGRATE_MOVABLE then [MIGRATE_RECLAIMABLE; MIGRATE_UNMOVABLE; MIGRATE_RESERVE; 0]
  else if mt =? MIGRATE_RESERVE then [MIGRATE_RESERVE; MIGRATE_RESERVE; MIGRATE_RESERVE; 0]
  else [0; 0; 0; 0].

Definition set_pageblock_migratetype (z : zone) (page mt : Z) : zone :=
  let mt := if mobility_disabled then MIGRATE_UNMOVABLE else mt in
  Zone (buddy z) (free_list z) (nr_free z) (<[page / pageblock_nr_pages := mt]> (pageblock z)) (nr_free_pages z).

(** Each iteration advances by at least one page.  The [BUG_ON] is left out with
    [CONFIG_HOLES_IN_ZONE]; [VM_BUG_ON] is not compiled in. *)
Definition move_freepages (z : zone) (start_page end_page mt : Z) : option (zone * Z) :=
  if negb holes_in_zone && negb (page_zone start_page =? page_zone end_page) then None
  else loop (Z.to_nat (end_page - start_page + 2)) (fun '(z, page, moved) =>
    if page <=? end_page then
      if negb (pfn_valid_within page) then Some (Next (z, page + 1, moved))
      else match buddy z !! page with
        | None => Some (Next (z, page + 1, moved))
        | Some order =>
            let z := list_del z page in
            let z := list_add z page order mt in
            Some (Next (z, page + 2 ^ order, moved + 2 ^ order))
        end
    else Some (Done (z, moved))) (z, start_page, 0).

Definition move_freepages_block (z : zone) (page mt : Z) : option (zone * Z) :=
  let start_pfn := Z.land page (not64 (pageblock_nr_pages - 1)) in
  let end_pfn := start_pfn + pageblock_nr_pages - 1 in
  let start_page := if start_pfn <? zone_start_pfn then page else start_pfn in
  if zone_start_pfn + spanned_pages <=? end_pfn then Some (z, 0)
  else move_freepages z start_page end_pfn mt.

Definition change_pageblock_range (z : zone) (page start_order mt : Z) : zone :=
  snd (Nat.iter (Z.to_nat (2 ^ (start_order - pageblock_order)))
    (fun '(page, z) => (page + pageblock_nr_pages, set_pageblock_migratetype z page mt)) (page, z)).

(** Taking the block [page] of [current_order] from the list of another type. *)
Definition fallback_take (z : zone) (page order current_order migratetype start_mt : Z)
  : option (zone * option Z) :=
  let z := add_nr z current_order (-1) in
  '(z, migratetype) ←
    (if (Z.shiftr pageblock_order 1 <=? current_order) || (start_mt =? MIGRATE_RECLAIMABLE) || mobility_disabled
     then
       '(z, pages) ← move_freepages_block z page start_mt;
       let z := if (2 ^ (pageblock_order - 1) <=? pages) || mobility_disabled
                then set_pageblock_migratetype z page start_mt else z in
       Some (z, start_mt)
     else Some (z, migratetype));
  let z := list_del z page in
  let z := rmv_page_order z page in
  let z := if pageblock_order <=? current_order
           then change_pageblock_range z page current_order start_mt else z in
  z ← expand z page order current_order migratetype;
  Some (z, Some page).

(** The inner loop over the fallback types of one order. *)
Fixpoint fallback_types (z : zone) (order current_order start_mt : Z) (types : list Z)
  : option (ctl unit (zone * option Z)) :=
  match types with
  | [] => Some (Next tt)
  | migratetype :: types =>
      if migratetype =? MIGRATE_RESERVE then fallback_types z order current_order start_mt types
      else match flist z current_order migratetype with
        | [] => fallback_types z order current_order start_mt types
        | page :: _ => r ← fallback_take z page order current_order migratetype start_mt; Some (Done r)
        end
  end.

Definition __rmqueue_fallback (z : zone) (order start_mt : Z) : option (zone * option Z) :=
  x ← for_ 0 (MAX_ORDER - order) (fun k (_ : unit) =>
    fallback_types z order (MAX_ORDER - 1 - k) start_mt (fallbacks start_mt)) tt;
  Some (match x with Done r => r | Next _ => (z, None) end).

(** [goto retry_reserve] is taken at most once. *)
Definition __rmqueue (z : zone) (order mt : Z) : option (zone * option Z) :=
  '(z, page) ← __rmqueue_smallest z order mt;
  match page with
  | Some _ => Some (z, page)
  | None =>
      if mt =? MIGRATE_RESERVE then Some (z, None)
      else
        '(z, page) ← __rmqueue_fallback z order mt;
        match page with
        | Some _ => Some (z, page)
        | None => __rmqueue_smallest z order MIGRATE_RESERVE
        end
  end.

(** The pages taken, in the order they were taken.  The counter [i] and the
    amount [-(i << order)] are [int]; [count] is below [2 ^ 31], so that [i] does not
    wrap. *)
Definition rmqueue_bulk (z : zone) (order count mt : Z) : option (zone * list Z) :=
  x ← for_ 0 count (fun _ '(z, pages) =>
    '(z, page) ← __rmqueue z order mt;
    match page with
    | None => Some (Done (z, pages))
    | Some p => Some (Next (z, pages ++ [p]))
    end) (z, []);
  let '(z, pages) := match x with Next r => r | Done r => r end in
  Some (mod_free_pages z (s32 (- s32 (Z.shiftl (zlen pages) order))), pages).
End zone.

(** * Specification *)

(** Page [p] belongs to the block of [2^o] pages from [b] on. *)
Definition in_block (b o p : Z) : Prop := b <= p < b + 2 ^ o.

Definition free_page (z : zone) (p : Z) : Prop := exists b o, buddy z !! b = Some o /\ in_block b o p.

(** The number of free blocks of an order, and of free pages. *)
Definition blocks (m : gmap Z Z) (o : Z) : nat := size (filter (fun kv => kv.2 = o) m).
Definition total (m : gmap Z Z) : Z := map_fold (fun _ o n => 2 ^ o + n) 0 m.

Lemma blocks_insert m b o o' :
  m !! b = None -> blocks (<[b := o]> m) o' = ((if decide (o = o') then 1 else 0) + blocks m o')%nat.
Proof.
  intros Hb. unfold blocks. rewrite map_filter_insert. simpl. case_decide.
  - rewrite map_size_insert_None; [done|]. rewrite map_lookup_filter_None. by left.
  - rewrite delete_id by done. done.
Qed.

Lemma blocks_delete m b o o' :
  m !! b = Some o -> blocks m o' = ((if decide (o = o') then 1 else 0) + blocks (delete b m) o')%nat.
Proof. intros Hb. rewrite <- (blocks_insert (delete b m) b o) by apply lookup_delete_eq. by rewrite insert_delete_id. Qed.

Lemma total_insert m b o : m !! b = None -> total (<[b := o]> m) = 2 ^ o + total m.
Proof. intros Hb. unfold total. apply (map_fold_insert_L (fun _ o n => 2 ^ o + n) 0 b o m); [intros; lia|done]. Qed.

Lemma total_delete m b o : m !! b = Some o -> total m = 2 ^ o + total (delete b m).
Proof. intros Hb. rewrite <- (total_insert (delete b m) b o) by apply lookup_delete_eq. by rewrite insert_delete_id. Qed.

(** ** Buddies *)

Lemma lxor_pow2 x o : 0 <= o -> Z.lxor x (2 ^ o) = if Z.testbit x o then x - 2 ^ o else x + 2 ^ o.
Proof.
  intros Ho. assert (Hclear : forall y, Z.testbit y o = false -> y + 2 ^ o = Z.lxor y (2 ^ o)).
  { intros y Hy. apply Z.add_nocarry_lxor. bitwise i Hi. destruct (Z.eqb_spec o i); [subst; by rewrite Hy|].
    by rewrite andb_false_r. }
  destruct (Z.testbit x o) eqn:E; [|symmetry; by apply Hclear].
  assert (Hy : Z.testbit (Z.lxor x (2 ^ o)) o = false)
    by (rewrite Z.lxor_spec, E, pow2_bits, Z.eqb_refl by done; done).
  apply Hclear in Hy. rewrite Z.lxor_assoc, Z.lxor_nilpotent, Z.lxor_0_r in Hy. lia.
Qed.

Lemma ldiff_pow2 x o : 0 <= o -> Z.ldiff x (2 ^ o) = if Z.testbit x o then x - 2 ^ o else x.
Proof.
  intros Ho. destruct (Z.testbit x o) eqn:E.
  - transitivity (Z.lxor x (2 ^ o)); [|by rewrite lxor_pow2, E].
    bitwise i Hi. destruct (Z.eqb_spec o i); [subst; by rewrite E|]. by rewrite andb_true_r, xorb_false_r.
  - bitwise i Hi. destruct (Z.eqb_spec o i); [subst; by rewrite E|]. by rewrite andb_true_r.
Qed.

Lemma idx_mod pfn : page_idx_of pfn = pfn mod 2 ^ MAX_ORDER.
Proof. unfold page_idx_of. by rewrite land_pow2_sub1 by done. Qed.

Lemma idx_bit pfn o : 0 <= o < MAX_ORDER -> Z.testbit (page_idx_of pfn) o = Z.testbit pfn o.
Proof. intros Ho. rewrite idx_mod. apply Z.mod_pow2_bits_low. lia. Qed.

Lemma find_buddy_spec page o :
  0 <= o < MAX_ORDER -> __page_find_buddy page (page_idx_of page) o = Z.lxor page (2 ^ o).
Proof.
  intros Ho. unfold __page_find_buddy. rewrite !lxor_pow2, idx_bit by lia. destruct (Z.testbit page o); lia.
Qed.

Lemma combined_spec page o :
  0 <= o < MAX_ORDER ->
  let c := __find_combined_index (page_idx_of page) o in
  page + (c - page_idx_of page) = Z.ldiff page (2 ^ o) /\ c = page_idx_of (Z.ldiff page (2 ^ o)).
Proof.
  intros Ho. assert (Hr : 0 <= page_idx_of page < 2 ^ MAX_ORDER)
    by (rewrite idx_mod; by apply Z.mod_pos_bound).
  assert (Hc : __find_combined_index (page_idx_of page) o = Z.ldiff (page_idx_of page) (2 ^ o)).
  { unfold __find_combined_index. apply Z.bits_inj'. intros i Hi.
    rewrite Z.land_spec, Z.ldiff_spec, not64_bits by lia. destruct (Z.ltb_spec i 64); [done|].
    rewrite (word_bits_high MAX_ORDER (page_idx_of page) i); [done|done|unfold MAX_ORDER; lia]. }
  simpl. rewrite Hc. split.
  - rewrite !ldiff_pow2, idx_bit by lia. destruct (Z.testbit page o); lia.
  - unfold page_idx_of. bitwise i Hi. by destruct (Z.testbit page i), (o =? i), (Z.testbit _ i).
Qed.

(** The two halves of a block. *)
Lemma aligned_bit b o : 0 <= o -> b mod 2 ^ o = 0 ->
  (Z.ldiff b (2 ^ o)) mod 2 ^ (o + 1) = 0.
Proof.
  intros Ho Hb. apply Z.bits_inj'. intros i Hi. rewrite Z.bits_0.
  destruct (Z.lt_ge_cases i (o + 1)); [|apply Z.mod_pow2_bits_high; lia].
  rewrite Z.mod_pow2_bits_low, Z.ldiff_spec, pow2_bits by lia.
  destruct (Z.eqb_spec o i); [by rewrite andb_false_r|]. rewrite andb_true_r.
  rewrite <- (Z.mod_pow2_bits_low b o i), Hb by lia. apply Z.bits_0.
Qed.

Lemma merged_block b o p : 0 <= o -> b mod 2 ^ o = 0 ->
  in_block (Z.ldiff b (2 ^ o)) (o + 1) p <-> in_block b o p \/ in_block (Z.lxor b (2 ^ o)) o p.
Proof.
  intros Ho Hb. unfold in_block. rewrite lxor_pow2, ldiff_pow2, Z.pow_add_r by lia.
  destruct (Z.testbit b o); lia.
Qed.

Lemma buddy_aligned b o : 0 <= o -> b mod 2 ^ o = 0 -> (Z.lxor b (2 ^ o)) mod 2 ^ o = 0.
Proof.
  intros Ho Hb. pose proof (Z.pow_pos_nonneg 2 o). rewrite lxor_pow2 by lia. destruct (Z.testbit b o).
  - by rewrite <- (Z_mod_plus_full (b - _) 1), Z.mul_1_l, Z.sub_add.
  - replace (b + 2 ^ o) with (b + 1 * 2 ^ o) by lia. by rewrite Z_mod_plus_full.
Qed.

(** ** The invariant *)

Section invariant.
Context (present : Z -> bool).

Definition block_ok (b o : Z) : Prop :=
  0 <= o < MAX_ORDER /\ b mod 2 ^ o = 0 /\ forall p, in_block b o p -> present p = true.

(** The lists hold exactly the free blocks, each once; blocks are aligned,
    consist of present pages, are disjoint, and no two buddies are both free. *)
Record lists_ok (z : zone) : Prop := {
  ok_listed b o : buddy z !! b = Some o <-> exists mt, b ∈ flist z o mt;
  ok_once b o mt mt' : b ∈ flist z o mt -> b ∈ flist z o mt' -> mt = mt';
  ok_nodup o mt : NoDup (flist z o mt);
  ok_block b o : buddy z !! b = Some o -> block_ok b o;
  ok_disjoint b o b' o' p :
    buddy z !! b = Some o -> buddy z !! b' = Some o' -> in_block b o p -> in_block b' o' p -> b = b';
  ok_maximal b o : buddy z !! b = Some o -> o < MAX_ORDER - 1 -> buddy z !! (Z.lxor b (2 ^ o)) <> Some o
}.

Definition counts_ok (z : zone) : Prop := forall o, nr z o = u64 (Z.of_nat (blocks (buddy z) o)).

Definition zone_ok (z : zone) : Prop := lists_ok z /\ counts_ok z.

Lemma in_block_first b o : 0 <= o -> in_block b o b.
Proof. intros. unfold in_block. pose proof (Z.pow_pos_nonneg 2 o). lia. Qed.

Lemma flist_del z page o mt : flist (list_del z page) o mt = filter (fun x => x <> page) (flist z o mt).
Proof.
  unfold flist, list_del; simpl. rewrite lookup_fmap. by destruct (free_list z !! (o, mt)).
Qed.

Lemma flist_add z page o mt o' mt' :
  flist (list_add z page o mt) o' mt' =
  if decide (o = o' /\ mt = mt') then page :: flist z o mt else flist z o' mt'.
Proof.
  unfold flist at 1, list_add; simpl. rewrite lookup_insert. case_decide as E; case_decide as E'; simpl.
  - done.
  - destruct E'. by injection E.
  - destruct E' as [-> ->]. done.
  - done.
Qed.

(** Taking a free block out of the lists. *)
Definition take_block (z : zone) (b : Z) : zone := rmv_page_order (list_del z b) b.

Lemma take_block_lists z b o : lists_ok z -> buddy z !! b = Some o -> lists_ok (take_block z b).
Proof.
  intros [H1 H2 H3 H4 H5 H6] Hb.
  assert (Hfl : forall o' mt, flist (take_block z b) o' mt = filter (fun x => x <> b) (flist z o' mt))
    by (intros; apply flist_del).
  assert (Hsub : forall x o', buddy (take_block z b) !! x = Some o' -> buddy z !! x = Some o' /\ x <> b).
  { intros x o'. simpl. rewrite lookup_delete. case_decide; [done|]. split; [done|congruence]. }
  constructor.
  - intros x o'. simpl. rewrite lookup_delete. setoid_rewrite Hfl. setoid_rewrite list_elem_of_filter.
    case_decide; [subst; naive_solver|]. rewrite H1. naive_solver.
  - intros x o' mt mt'. rewrite !Hfl, !list_elem_of_filter. naive_solver.
  - intros o' mt. rewrite Hfl. by apply list.NoDup_filter.
  - intros x o' [Hx _]%Hsub. by apply H4.
  - intros x o1 y o2 p [Hx _]%Hsub [Hy _]%Hsub. by eapply H5.
  - intros x o' [Hx _]%Hsub Ho [Hy _]%Hsub. exact (H6 x o' Hx Ho Hy).
Qed.

Lemma take_block_free z b o p :
  lists_ok z -> buddy z !! b = Some o ->
  free_page (take_block z b) p <-> free_page z p /\ ~ in_block b o p.
Proof.
  intros Hz Hb. unfold free_page; simpl. setoid_rewrite lookup_delete_Some. split.
  - intros (x & o' & [Hne Hx] & Hp). split; [eauto|]. intros Hp'. apply Hne.
    eapply ok_disjoint; eauto.
  - intros [(x & o' & Hx & Hp) Hno]. exists x, o'. split; [|done]. split; [|done]. intros ->. congruence.
Qed.

(** Putting a block on a list. *)
Definition put_block (z : zone) (b o mt : Z) : zone := list_add (set_page_order z b o) b o mt.

Lemma put_block_lists z b o mt :
  lists_ok z -> block_ok b o -> (forall p, in_block b o p -> ~ free_page z p) ->
  (o < MAX_ORDER - 1 -> buddy z !! (Z.lxor b (2 ^ o)) <> Some o) ->
  lists_ok (put_block z b o mt).
Proof.
  intros [H1 H2 H3 H4 H5 H6] Hok Hdis Hmax. pose proof Hok as ([Ho0 Ho] & Hal & Hpres).
  assert (Hbn : buddy z !! b = None).
  { destruct (buddy z !! b) as [o'|] eqn:E; [|done]. destruct (Hdis b); [by apply in_block_first|].
    exists b, o'. split; [done|]. apply in_block_first. by apply H4 in E as ([? _] & _). }
  assert (Hnl : forall o' mt', b ∉ flist z o' mt') by (intros o' mt' Hin; assert (buddy z !! b = Some o') by (rewrite H1; eauto); congruence).
  assert (Hfl : forall o' mt', flist (put_block z b o mt) o' mt' =
    if decide (o = o' /\ mt = mt') then b :: flist z o mt else flist z o' mt') by (intros; unfold put_block; by rewrite flist_add).
  constructor.
  - intros x o'. simpl. rewrite lookup_insert. setoid_rewrite Hfl. case_decide as E.
    + subst x. split.
      * intros [= <-]. exists mt. rewrite decide_True by done. set_solver.
      * intros (mt' & Hin). case_decide as E'; [by destruct E' as [-> ->]|by destruct (Hnl o' mt')].
    + rewrite H1. split; intros (mt' & Hin); exists mt'; case_decide as E'; try done.
      * destruct E' as [-> ->]. set_solver.
      * destruct E' as [-> ->]. apply elem_of_cons in Hin as [->|]; [done|done].
  - intros x o' m1 m2. rewrite !Hfl. intros Hx1 Hx2.
    destruct (decide (x = b)) as [->|Hne].
    + repeat case_decide; try (by destruct (Hnl o' m1)); try (by destruct (Hnl o' m2)). naive_solver.
    + apply (H2 x o'); repeat case_decide; destruct_and?; subst; try done;
        repeat match goal with H : _ ∈ _ :: _ |- _ => apply elem_of_cons in H as [?|?] end; done.
  - intros o' mt'. rewrite Hfl. case_decide; [|done]. constructor; [apply Hnl|done].
  - intros x o'. simpl. rewrite lookup_insert. case_decide; [subst; by intros [= <-]|]. apply H4.
  - intros x o1 y o2 p. simpl. rewrite !lookup_insert. repeat case_decide; subst; try done.
    + intros [= <-] Hy Hp1 Hp2. destruct (Hdis p Hp1). by exists y, o2.
    + intros Hx [= <-] Hp1 Hp2. destruct (Hdis p Hp2). by exists x, o1.
    + apply H5.
  - intros x o'. simpl. rewrite !lookup_insert.
    destruct (decide (b = x)) as [->|Hne], (decide (_ = Z.lxor x (2 ^ o'))) as [E|E].
    + intros [= <-] _ _. pose proof (Z.pow_pos_nonneg 2 o). rewrite lxor_pow2 in E by lia.
      destruct (Z.testbit x o); lia.
    + intros [= <-] Hlt. by apply Hmax.
    + intros Hx Hlt [= <-]. apply (Hmax Hlt). by rewrite E, Z.lxor_assoc, Z.lxor_nilpotent, Z.lxor_0_r.
    + apply H6.
Qed.

Lemma put_block_free z b o mt p :
  buddy z !! b = None -> free_page (put_block z b o mt) p <-> free_page z p \/ in_block b o p.
Proof.
  intros Hb. unfold free_page; simpl. setoid_rewrite lookup_insert. split.
  - intros (x & o' & Hx & Hp). case_decide; [simplify_eq; by right|]. left. eauto.
  - intros [(x & o' & Hx & Hp)|Hp].
    + exists x, o'. rewrite decide_False by congruence. done.
    + exists b, o. by rewrite decide_True.
Qed.

(** ** Counters *)

Lemma nr_add z o d o' : nr (add_nr z o d) o' = if decide (o = o') then u64 (nr z o + d) else nr z o'.
Proof. unfold nr at 1, add_nr; simpl. rewrite lookup_insert. by case_decide. Qed.

Lemma counts_take z b o :
  counts_ok z -> buddy z !! b = Some o -> counts_ok (add_nr (take_block z b) o (-1)).
Proof.
  intros Hc Hb o'. rewrite nr_add. change (nr (take_block z b)) with (nr z). simpl. rewrite !Hc.
  rewrite (blocks_delete (buddy z) b o o') by done. case_decide as E.
  - subst o'. rewrite (blocks_delete (buddy z) b o o), decide_True by done.
    unfold wrap. rewrite Zplus_mod_idemp_l. f_equal. lia.
  - done.
Qed.

Lemma counts_put z b o mt :
  counts_ok z -> buddy z !! b = None -> counts_ok (add_nr (put_block z b o mt) o 1).
Proof.
  intros Hc Hb o'. rewrite nr_add. change (nr (put_block z b o mt)) with (nr z). simpl. rewrite !Hc.
  rewrite blocks_insert by done. case_decide as E; [|done].
  subst o'. unfold wrap. rewrite Zplus_mod_idemp_l. f_equal. lia.
Qed.

Lemma lists_add_nr z o d : lists_ok z -> lists_ok (add_nr z o d).
Proof. intros [H1 H2 H3 H4 H5 H6]. by constructor. Qed.

(** Removing and inserting a block, with its counter. *)
Lemma remove_ok z b o :
  zone_ok z -> buddy z !! b = Some o ->
  let z' := rmv_page_order (add_nr (list_del z b) o (-1)) b in
  zone_ok z' /\ (forall p, free_page z' p <-> free_page z p /\ ~ in_block b o p) /\
  total (buddy z') + 2 ^ o = total (buddy z) /\ nr_free_pages z' = nr_free_pages z.
Proof.
  intros [Hl Hc] Hb z'. assert (z' = add_nr (take_block z b) o (-1)) as -> by done. split_and!.
  - split; [by eapply lists_add_nr, take_block_lists|by apply counts_take].
  - intros p. by apply take_block_free.
  - simpl. rewrite (total_delete (buddy z) b o) by done. lia.
  - done.
Qed.

Lemma insert_ok z b o mt :
  zone_ok z -> block_ok b o -> (forall p, in_block b o p -> ~ free_page z p) ->
  (o < MAX_ORDER - 1 -> buddy z !! (Z.lxor b (2 ^ o)) <> Some o) ->
  let z' := add_nr (list_add (set_page_order z b o) b o mt) o 1 in
  zone_ok z' /\ (forall p, free_page z' p <-> free_page z p \/ in_block b o p) /\
  total (buddy z') = total (buddy z) + 2 ^ o /\ nr_free_pages z' = nr_free_pages z.
Proof.
  intros [Hl Hc] Hok Hdis Hmax z'.
  assert (Hbn : buddy z !! b = None).
  { destruct (buddy z !! b) as [o'|] eqn:E; [|done]. destruct (Hdis b); [apply in_block_first, Hok|].
    exists b, o'. split; [done|]. apply in_block_first. by eapply ok_block in E as ([? _] & _). }
  assert (z' = add_nr (put_block z b o mt) o 1) as -> by done. split_and!.
  - split; [by apply lists_add_nr, put_block_lists|by apply counts_put].
  - intros p. by apply put_block_free.
  - simpl. rewrite total_insert by done. lia.
  - done.
Qed.

(** ** Freeing *)

Lemma merge_ok b o :
  block_ok b o -> o < MAX_ORDER - 1 -> (forall p, in_block (Z.lxor b (2 ^ o)) o p -> present p = true) ->
  block_ok (Z.ldiff b (2 ^ o)) (o + 1).
Proof.
  intros ([Ho Hm] & Hal & Hp) Hlt Hp'. split; [lia|]. split; [by apply aligned_bit|].
  intros p. rewrite merged_block by lia. intros [?|?]; auto.
Qed.

(** While the block [page] of [order] is being freed to [z]: the part [pg] of order
    [o] is in hand and the free lists are those of [z']. *)
Definition merging (z : zone) (page order : Z) (z' : zone) (pg o : Z) : Prop :=
  zone_ok z' /\ block_ok pg o /\ (forall p, in_block pg o p -> ~ free_page z' p) /\
  (forall p, free_page z' p \/ in_block pg o p <-> free_page z p \/ in_block page order p) /\
  total (buddy z') + 2 ^ o = total (buddy z) + 2 ^ order /\ nr_free_pages z' = nr_free_pages z.

Lemma merging_step z page order z1 pg o :
  merging z page order z1 pg o -> o < MAX_ORDER - 1 -> buddy z1 !! Z.lxor pg (2 ^ o) = Some o ->
  let bd := Z.lxor pg (2 ^ o) in
  merging z page order (rmv_page_order (add_nr (list_del z1 bd) o (-1)) bd) (Z.ldiff pg (2 ^ o)) (o + 1).
Proof.
  intros (Hz1 & Hok1 & Hdis1 & Hset & Htot & Hnf) Hlt Eb bd. fold bd in Eb.
  pose proof Hok1 as ([Hoa Hob] & Hal1 & Hp1).
  assert (Hbok : block_ok bd o) by (destruct Hz1 as [Hl _]; by eapply ok_block).
  destruct (remove_ok z1 bd o Hz1 Eb) as (Hz2 & Hf2 & Ht2 & Hn2).
  assert (Hm : forall p, in_block (Z.ldiff pg (2 ^ o)) (o + 1) p <-> in_block pg o p \/ in_block bd o p)
    by (intros; by apply merged_block).
  split; [exact Hz2|]. split; [apply merge_ok; [done|done|apply Hbok]|]. split; [|split; [|split]].
  - intros p Hin Hf. apply Hf2 in Hf as [Hf Hnb]. apply Hm in Hin as [Hin|Hin]; [by apply (Hdis1 p)|done].
  - intros p. rewrite <- Hset, Hm. setoid_rewrite Hf2.
    assert (in_block bd o p -> free_page z1 p) by (intros; exists bd, o; done).
    assert (Hd : in_block bd o p \/ ~ in_block bd o p) by (unfold in_block; lia). tauto.
  - cbn in Ht2. cbn. rewrite Z.pow_add_r by lia. change (2 ^ 1) with 2. lia.
  - done.
Qed.

(** [page_is_buddy] recognises exactly the free blocks of the order. *)
Lemma page_is_buddy_spec z b o :
  zone_ok z -> page_is_buddy present z b o = true <-> buddy z !! b = Some o.
Proof.
  intros [Hl _]. unfold page_is_buddy. destruct (buddy z !! b) as [o'|] eqn:Eb.
  - assert (Hbok : block_ok b o') by (by eapply ok_block).
    assert (present b = true) as -> by (apply Hbok, in_block_first, Hbok). simpl.
    rewrite Z.eqb_eq. split; congruence.
  - by destruct (present b).
Qed.

Lemma free_one_page_ok z page order mt :
  zone_ok z -> block_ok page order -> (forall p, in_block page order p -> ~ free_page z p) ->
  exists z', __free_one_page present z page order mt = Some z' /\ zone_ok z' /\
    (forall p, free_page z' p <-> free_page z p \/ in_block page order p) /\
    total (buddy z') = total (buddy z) + 2 ^ order /\ nr_free_pages z' = nr_free_pages z.
Proof.
  intros Hz Hok Hdis. pose proof Hok as ([Ho0 Ho1] & Hal & _). unfold __free_one_page.
  cbv zeta. assert (Z.land (page_idx_of page) (2 ^ order - 1) = 0) as ->.
  { rewrite idx_mod, land_pow2_sub1, mod_mod_pow2 by lia. done. }
  simpl negb. cbv iota.
  match goal with |- context [loop _ ?f _] =>
    destruct (loop_total f
      (fun '(z', pg, idx, o) => idx = page_idx_of pg /\ merging z page order z' pg o)
      (fun '(z', pg, o) => merging z page order z' pg o /\
         (o < MAX_ORDER - 1 -> buddy z' !! (Z.lxor pg (2 ^ o)) <> Some o))
      (fun '(_, _, _, o) => Z.to_nat (MAX_ORDER - o)))
      with (fuel := (Z.to_nat MAX_ORDER + 1)%nat) (s := (z, page, page_idx_of page, order))
      as ([[z1 pg] o] & -> & (Hz1 & Hok1 & Hdis1 & Hset & Htot & Hnf) & Hmax1) end.
  - intros [[[z1 pg] idx] o] (-> & HM). pose proof HM as (Hz1 & ([Hoa Hob] & _) & _).
    destruct (Z.ltb_spec o (MAX_ORDER - 1)) as [Hlt|Hge].
    2: { eexists. split; [done|]. cbn. split; [done|lia]. }
    rewrite find_buddy_spec by lia. set (bd := Z.lxor pg (2 ^ o)).
    destruct (page_is_buddy present z1 bd o) eqn:Eb; simpl negb; cbv iota; (eexists; split; [done|]); cbn.
    + apply page_is_buddy_spec in Eb; [|done]. destruct (combined_spec pg o ltac:(lia)) as [-> ->].
      split; [|unfold MAX_ORDER in *; lia]. split; [done|]. by apply merging_step.
    + split; [done|]. intros _ E. fold bd in E. rewrite (proj2 (page_is_buddy_spec z1 bd o Hz1) E) in Eb. done.
  - split; [done|]. by split_and!.
  - unfold MAX_ORDER in *. lia.
  - cbn. destruct (insert_ok z1 pg o mt Hz1 Hok1 Hdis1 Hmax1) as (Hz2 & Hf2 & Ht2 & Hn2).
    eexists. split; [done|]. split; [exact Hz2|]. split; [|split].
    + intros p. rewrite <- Hset. apply Hf2.
    + cbn in Ht2. cbn. rewrite Ht2. done.
    + done.
Qed.

(** ** Allocating *)

(** The upper half of a block. *)
Lemma upper_half page h :
  block_ok page (h + 1) -> 0 <= h ->
  block_ok page h /\ block_ok (page + 2 ^ h) h /\ Z.lxor (page + 2 ^ h) (2 ^ h) = page /\
  (forall p, in_block page (h + 1) p <-> in_block page h p \/ in_block (page + 2 ^ h) h p).
Proof.
  intros ([Ho Hm] & Hal & Hp) Hh. pose proof (Z.pow_pos_nonneg 2 h).
  assert (Hal0 : page mod 2 ^ h = 0).
  { rewrite <- (mod_mod_pow2 page h (h + 1)), Hal by lia. apply Z.mod_0_l. lia. }
  assert (Hbit : Z.testbit page h = false).
  { rewrite <- (Z.mod_pow2_bits_low page (h + 1) h), Hal by lia. apply Z.bits_0. }
  assert (Hlx : page + 2 ^ h = Z.lxor page (2 ^ h)) by (by rewrite lxor_pow2, Hbit by lia).
  assert (Hb : forall p, in_block page (h + 1) p <-> in_block page h p \/ in_block (page + 2 ^ h) h p).
  { intros p. unfold in_block. rewrite Z.pow_add_r by lia. lia. }
  split_and!; try done.
  - split_and!; try lia. intros p Hin. apply Hp, Hb. by left.
  - split_and!; try lia; [rewrite Hlx; by apply buddy_aligned|]. intros p Hin. apply Hp, Hb. by right.
  - by rewrite Hlx, Z.lxor_assoc, Z.lxor_nilpotent, Z.lxor_0_r.
Qed.

Lemma expand_ok z page low high mt :
  zone_ok z -> block_ok page high -> 0 <= low <= high ->
  (forall p, in_block page high p -> ~ free_page z p) ->
  exists z', expand z page low high mt = Some z' /\ zone_ok z' /\ block_ok page low /\
    (forall p, free_page z' p <-> free_page z p \/ (in_block page high p /\ ~ in_block page low p)) /\
    total (buddy z') + 2 ^ low = total (buddy z) + 2 ^ high /\ nr_free_pages z' = nr_free_pages z.
Proof.
  intros Hz Hok Hlow Hdis. unfold expand.
  apply (loop_total _
    (fun '(z', h, size) => size = 2 ^ h /\ low <= h <= high /\ block_ok page h /\ zone_ok z' /\
      (forall p, free_page z' p <-> free_page z p \/ (in_block page high p /\ ~ in_block page h p)) /\
      total (buddy z') + 2 ^ h = total (buddy z) + 2 ^ high /\ nr_free_pages z' = nr_free_pages z) _
    (fun '(_, h, _) => Z.to_nat h)).
  2: { split_and!; try done; try lia. intros p. tauto. }
  2: { pose proof Hok as ([? ?] & _). lia. }
  intros [[z1 h] size] (-> & Hh & Hb & Hz1 & Hset & Htot & Hnf).
  destruct (Z.ltb_spec low h).
  2: { assert (h = low) as -> by lia. eexists. split; [done|]. cbn. split_and!; done. }
  rewrite Z.shiftr_div_pow2 by lia. replace (2 ^ h / 2 ^ 1) with (2 ^ (h - 1)).
  2: { replace h with (h - 1 + 1) at 2 by lia. rewrite Z.pow_add_r, Z.div_mul by lia. done. }
  eexists. split; [done|]. cbn.
  replace h with (h - 1 + 1) in Hb by lia. destruct (upper_half page (h - 1) Hb ltac:(lia)) as (Hb1 & Hb2 & Hx & Hs).
  replace (h - 1 + 1) with h in * by lia.
  assert (Hd : forall p, in_block page h p -> ~ free_page z1 p).
  { intros p Hin. rewrite Hset. intros [Hf|[_ Hn]]; [|done]. apply (Hdis p); [|done].
    unfold in_block in *. assert (2 ^ h <= 2 ^ high) by (apply Z.pow_le_mono_r; lia). lia. }
  destruct (insert_ok z1 (page + 2 ^ (h - 1)) (h - 1) mt Hz1 Hb2) as (Hz2 & Hf2 & Ht2 & Hn2).
  { intros p Hin. apply Hd, Hs. by right. }
  { intros _ Hbad. rewrite Hx in Hbad. apply (Hd page); [apply Hs; left; apply in_block_first; lia|].
    exists page, (h - 1). split; [done|]. apply in_block_first. lia. }
  split; [|lia]. split; [done|]. split; [lia|]. split; [done|]. split; [exact Hz2|].
  split; [|split].
  - intros p. etransitivity; [apply Hf2|]. rewrite Hset.
    assert (in_block page h p -> in_block page high p).
    { unfold in_block. assert (2 ^ h <= 2 ^ high) by (apply Z.pow_le_mono_r; lia). lia. }
    assert (in_block (page + 2 ^ (h - 1)) (h - 1) p -> ~ in_block page (h - 1) p) by (unfold in_block; lia).
    specialize (Hs p). assert (Hde : in_block page h p \/ ~ in_block page h p) by (unfold in_block; lia). tauto.
  - cbn in Ht2. rewrite Ht2.
    assert (2 ^ h = 2 * 2 ^ (h - 1)) by (replace h with (h - 1 + 1) at 1 by lia; rewrite Z.pow_add_r by lia; lia).
    lia.
  - done.
Qed.

(** What taking a block of [2^order] pages at [page] must do. *)
Definition allocated (z z' : zone) (page order : Z) : Prop :=
  zone_ok z' /\ block_ok page order /\ (forall p, in_block page order p -> free_page z p) /\
  (forall p, free_page z' p <-> free_page z p /\ ~ in_block page order p) /\
  total (buddy z') + 2 ^ order = total (buddy z) /\ nr_free_pages z' = nr_free_pages z.

(** Taking a block of a higher order and returning its upper halves. *)
Lemma split_block_ok z page o order mt z1 :
  zone_ok z -> buddy z !! page = Some o -> 0 <= order <= o ->
  zone_ok z1 -> (forall p, free_page z1 p <-> free_page z p /\ ~ in_block page o p) ->
  total (buddy z1) + 2 ^ o = total (buddy z) -> nr_free_pages z1 = nr_free_pages z ->
  exists z', expand z1 page order o mt = Some z' /\ allocated z z' page order.
Proof.
  intros Hz Hb Ho Hz1 Hf1 Ht1 Hn1.
  assert (Hok : block_ok page o) by (destruct Hz as [Hl _]; by eapply ok_block).
  destruct (expand_ok z1 page order o mt) as (z' & -> & Hz' & Hb' & Hf' & Ht' & Hn'); [done|done|done| |].
  { intros p Hin. rewrite Hf1. tauto. }
  assert (Hsub : forall p, in_block page order p -> in_block page o p).
  { intros p. unfold in_block. assert (2 ^ order <= 2 ^ o) by (apply Z.pow_le_mono_r; lia). lia. }
  assert (Hfree : forall p, in_block page o p -> free_page z p) by (intros p Hp; by exists page, o).
  eexists. split; [done|]. split_and!; try done; try lia; try congruence.
  - intros p Hp. by apply Hfree, Hsub.
  - intros p. rewrite Hf', Hf1. specialize (Hsub p). specialize (Hfree p).
    assert (Hde : in_block page o p \/ ~ in_block page o p) by (unfold in_block; lia).
    assert (Hde' : in_block page order p \/ ~ in_block page order p) by (unfold in_block; lia). tauto.
Qed.

Lemma rmqueue_smallest_ok z order mt :
  zone_ok z -> 0 <= order < MAX_ORDER ->
  exists z' r, __rmqueue_smallest z order mt = Some (z', r) /\
    match r with
    | None => z' = z /\ forall o, order <= o < MAX_ORDER -> flist z o mt = []
    | Some page => allocated z z' page order
    end.
Proof.
  intros Hz Ho. unfold __rmqueue_smallest.
  match goal with |- context [for_ _ _ ?f _] =>
    destruct (for_rule f (fun o _ => forall o', order <= o' < o -> flist z o' mt = [])
      (fun '(z', r) => match r with None => False | Some page => allocated z z' page order end)
      order MAX_ORDER tt) as (x & -> & Hx) end; [lia|intros; lia| |].
  - intros o [] Hoo HI. destruct (flist z o mt) as [|page rest] eqn:E.
    + eexists. split; [done|]. cbn. intros o' Ho'. destruct (Z.eq_dec o' o) as [->|]; [done|]. apply HI. lia.
    + assert (Hb : buddy z !! page = Some o).
      { destruct Hz as [Hl _]. apply (ok_listed _ Hl). exists mt. rewrite E. set_solver. }
      destruct (remove_ok z page o Hz Hb) as (Hz1 & Hf1 & Ht1 & Hn1).
      edestruct (split_block_ok z page o order mt) as (z' & He & Hal); [done|exact Hb|lia|exact Hz1|done|done|done|].
      match goal with |- context [expand ?a _ _ _ _] => change a with (rmv_page_order (add_nr (list_del z page) o (-1)) page) end.
      rewrite He. cbn. eexists. split; [done|]. cbn. done.
  - cbn. destruct x as [[]|[z' [page|]]]; eexists _, _; (split; [done|]); cbn; done.
Qed.

(** ** Falling back to other migrate types *)

Lemma lists_ext z z' : buddy z' = buddy z -> free_list z' = free_list z -> lists_ok z -> lists_ok z'.
Proof.
  destruct z, z'; simpl. intros -> -> [H1 H2 H3 H4 H5 H6]. by constructor.
Qed.

Lemma counts_ext z z' : buddy z' = buddy z -> nr_free z' = nr_free z -> counts_ok z -> counts_ok z'.
Proof. intros Hb Hn Hc o. unfold nr. rewrite Hn, Hb. apply Hc. Qed.

(** Moving a block to another list of its order. *)
Lemma relist_ok z page o mt :
  lists_ok z -> buddy z !! page = Some o -> lists_ok (list_add (list_del z page) page o mt).
Proof.
  intros Hl Hb. pose proof (ok_block _ Hl _ _ Hb) as Hok.
  apply (lists_ext (put_block (take_block z page) page o mt)); [simpl; by rewrite insert_delete_id|done|].
  apply put_block_lists; [by eapply take_block_lists|done| |].
  - intros p Hp. rewrite (take_block_free z page o) by done. tauto.
  - intros Hlt. simpl. rewrite lookup_delete_Some. intros [_ Hbad]. by apply (ok_maximal _ Hl _ _ Hb Hlt).
Qed.

(** Page frame numbers are unsigned longs. *)
Context (Hpresent : forall p, present p = true -> is_u64 p).
Context (pfn_valid_within : Z -> bool) (page_zone : Z -> Z) (holes_in_zone : bool).
Context (zone_start_pfn spanned_pages pageblock_order : Z) (mobility_disabled : bool).
Context (Hpb : 0 <= pageblock_order < 64).
(** The pages of the zone lie in its span, and without holes the span is all
    one zone. *)
Context (Hspan : forall p, present p = true -> zone_start_pfn <= p < zone_start_pfn + spanned_pages).
Context (Hzone : holes_in_zone = false -> forall p q, zone_start_pfn <= p < zone_start_pfn + spanned_pages ->
  zone_start_pfn <= q < zone_start_pfn + spanned_pages -> page_zone p = page_zone q).

(** Only the assignment of blocks to lists and pageblocks changes. *)
Definition regrouped (z z' : zone) : Prop :=
  lists_ok z' /\ buddy z' = buddy z /\ nr_free z' = nr_free z /\ nr_free_pages z' = nr_free_pages z.

Lemma move_freepages_ok z start_page end_page mt :
  lists_ok z -> start_page <= end_page + 1 -> (holes_in_zone = false -> page_zone start_page = page_zone end_page) ->
  exists z' n, move_freepages pfn_valid_within page_zone holes_in_zone z start_page end_page mt = Some (z', n) /\ regrouped z z'.
Proof using Hpresent Hzone.
  intros Hl Hle Hbug. unfold move_freepages.
  replace (_ && _) with false
    by (destruct holes_in_zone; [done|]; simpl; rewrite Hbug by done; by rewrite Z.eqb_refl).
  match goal with |- context [loop _ ?f _] =>
    destruct (loop_total f (fun '(z', page, _) => regrouped z z' /\ start_page <= page) (fun '(z', _) => regrouped z z')
      (fun '(_, page, _) => Z.to_nat (end_page + 1 - page)))
      with (fuel := Z.to_nat (end_page - start_page + 2)) (s := (z, start_page, 0)) as ([z' n] & -> & Hz') end.
  - intros [[z1 page] moved] [(Hl1 & Hb1 & Hn1 & Hf1) Hp]. destruct (Z.leb_spec page end_page).
    2: { eexists. split; [done|]. cbn. done. }
    destruct (negb (pfn_valid_within page)); [eexists; split; [done|]; cbn; split; [split; [done|lia]|lia]|].
    destruct (buddy z1 !! page) as [o|] eqn:Eb; [|eexists; split; [done|]; cbn; split; [split; [done|lia]|lia]].
    pose proof (ok_block _ Hl1 _ _ Eb) as ([Ho _] & _). pose proof (Z.pow_pos_nonneg 2 o ltac:(lia) Ho).
    eexists. split; [done|]. cbn. split; [|lia]. split; [|lia]. split; [by apply relist_ok|]. done.
  - split; [done|lia].
  - lia.
  - eexists _, _. split; done.
Qed.

Lemma block_start page :
  is_u64 page -> Z.land page (not64 (2 ^ pageblock_order - 1)) <= page <=
  Z.land page (not64 (2 ^ pageblock_order - 1)) + 2 ^ pageblock_order - 1.
Proof using Hpb.
  intros Hp. pose proof (Z.pow_pos_nonneg 2 pageblock_order).
  assert (E : Z.land page (not64 (2 ^ pageblock_order - 1)) = Z.ldiff page (Z.ones pageblock_order)).
  { rewrite Z.ones_equiv, <- Z.sub_1_r. apply Z.bits_inj'. intros i Hi.
    rewrite Z.land_spec, Z.ldiff_spec, not64_bits by lia. destruct (Z.ltb_spec i 64); [done|].
    rewrite (word_bits_high 64 page i) by (done || lia). done. }
  rewrite E, Z.ldiff_ones_r, Z.shiftl_mul_pow2, Z.shiftr_div_pow2 by lia.
  pose proof (Z.div_mod page (2 ^ pageblock_order) ltac:(lia)).
  pose proof (Z.mod_pos_bound page (2 ^ pageblock_order) ltac:(lia)). lia.
Qed.

Lemma move_freepages_block_ok z page mt :
  lists_ok z -> is_u64 page -> present page = true ->
  exists z' n, move_freepages_block pfn_valid_within page_zone holes_in_zone zone_start_pfn spanned_pages pageblock_order z page mt = Some (z', n) /\
    regrouped z z'.
Proof using Hpresent Hpb Hspan Hzone.
  intros Hl Hp Hpg%Hspan. unfold move_freepages_block, pageblock_nr_pages. pose proof (block_start page Hp).
  destruct (Z.leb_spec (zone_start_pfn + spanned_pages)
    (Z.land page (not64 (2 ^ pageblock_order - 1)) + 2 ^ pageblock_order - 1)); [by eexists _, _|].
  apply move_freepages_ok; [done| |]; [case_match; lia|]. intros Hh. apply Hzone; [done| |lia].
  destruct (Z.ltb_spec (Z.land page (not64 (2 ^ pageblock_order - 1))) zone_start_pfn); lia.
Qed.

Lemma change_pageblock_range_ok z page o mt :
  let z' := change_pageblock_range pageblock_order mobility_disabled z page o mt in
  buddy z' = buddy z /\ free_list z' = free_list z /\ nr_free z' = nr_free z /\ nr_free_pages z' = nr_free_pages z.
Proof.
  unfold change_pageblock_range. generalize (Z.to_nat (2 ^ (o - pageblock_order))) as n.
  induction n as [|n IH]; [done|]. simpl. destruct (Nat.iter _ _ _) as [pg z1]; simpl in *. done.
Qed.

Lemma fallback_take_ok z page order o mt start_mt :
  zone_ok z -> buddy z !! page = Some o -> 0 <= order <= o ->
  exists z', fallback_take pfn_valid_within page_zone holes_in_zone zone_start_pfn spanned_pages pageblock_order mobility_disabled
      z page order o mt start_mt = Some (z', Some page) /\ allocated z z' page order.
Proof using Hpresent Hpb Hspan Hzone.
  intros Hz Hb Ho. pose proof Hz as [Hl Hc].
  pose proof (ok_block _ Hl _ _ Hb) as Hok. pose proof Hok as ([Ho0 _] & _ & Hp).
  assert (Hpg : present page = true) by (apply Hp; by apply in_block_first).
  assert (Hu : is_u64 page) by (by apply Hpresent).
  unfold fallback_take. cbv zeta. set (z1 := add_nr z o (-1)).
  assert (Hmove : exists z2 m, (if (Z.shiftr pageblock_order 1 <=? o) || (start_mt =? MIGRATE_RECLAIMABLE) || mobility_disabled
     then
       '(z, pages) ← move_freepages_block pfn_valid_within page_zone holes_in_zone zone_start_pfn spanned_pages pageblock_order z1 page start_mt;
       Some (if (2 ^ (pageblock_order - 1) <=? pages) || mobility_disabled
             then set_pageblock_migratetype pageblock_order mobility_disabled z page start_mt else z, start_mt)
     else Some (z1, mt)) = Some (z2, m) /\ regrouped z1 z2).
  { assert (Hl1 : lists_ok z1) by (by apply lists_add_nr). case_match; [|by eexists _, _].
    destruct (move_freepages_block_ok z1 page start_mt Hl1 Hu Hpg) as (z2 & n & -> & Hr). cbn.
    eexists _, _. split; [done|]. case_match; [|done]. destruct Hr as (Hl2 & ? & ? & ?).
    split; [by apply (lists_ext z2)|]. done. }
  destruct Hmove as (z2 & m & -> & Hl2 & Hb2 & Hn2 & Hf2). cbn.
  set (z3 := rmv_page_order (list_del z2 page) page).
  assert (Hz4 : exists z4, (if pageblock_order <=? o
      then change_pageblock_range pageblock_order mobility_disabled z3 page o start_mt else z3) = z4 /\
    zone_ok z4 /\ buddy z4 = delete page (buddy z) /\ nr_free_pages z4 = nr_free_pages z).
  { eexists. split; [done|].
    assert (Hz3 : zone_ok z3 /\ buddy z3 = delete page (buddy z) /\ nr_free_pages z3 = nr_free_pages z).
    { split_and!; [split| |done].
      - apply (take_block_lists z2 page o); [done|]. by rewrite Hb2.
      - apply (counts_ext (add_nr (take_block z page) o (-1))); [simpl; by rewrite Hb2|done|by apply counts_take].
      - simpl. by rewrite Hb2. }
    destruct Hz3 as ([Hl3 Hc3] & Hb3 & Hn3). case_match; [|done].
    destruct (change_pageblock_range_ok z3 page o start_mt) as (E1 & E2 & E3 & E4).
    split_and!; [split|by rewrite E1|by rewrite E4].
    - by eapply lists_ext.
    - by eapply counts_ext. }
  destruct Hz4 as (z4 & -> & Hok4 & Hb4 & Hn4).
  destruct (split_block_ok z page o order m z4) as (z' & -> & Hal); try done; [| |by eexists].
  - intros p. unfold free_page. rewrite Hb4. apply (take_block_free z page o p Hl Hb).
  - rewrite Hb4, (total_delete (buddy z) page o) by done. lia.
Qed.

Lemma fallback_types_ok z order o start_mt types :
  zone_ok z -> 0 <= order <= o ->
  exists x, fallback_types pfn_valid_within page_zone holes_in_zone zone_start_pfn spanned_pages pageblock_order mobility_disabled
      z order o start_mt types = Some x /\
    match x with
    | Next _ => forall t, t ∈ types -> t <> MIGRATE_RESERVE -> flist z o t = []
    | Done (z', Some page) => allocated z z' page order
    | Done (_, None) => False
    end.
Proof using Hpresent Hpb Hspan Hzone.
  intros Hz Ho. induction types as [|t types IH]; cbn [fallback_types].
  - eexists. split; [done|]. cbn. intros t Ht. set_solver.
  - destruct (Z.eqb_spec t MIGRATE_RESERVE) as [->|Hne].
    { destruct IH as (x & -> & Hx). eexists. split; [done|]. destruct x as [[]|[z' [p|]]]; try done. set_solver. }
    destruct (flist z o t) as [|page rest] eqn:E.
    { destruct IH as (x & -> & Hx). eexists. split; [done|]. destruct x as [[]|[z' [p|]]]; try done.
      intros t' [->|Ht]%elem_of_cons; [done|by apply Hx]. }
    assert (Hb : buddy z !! page = Some o).
    { destruct Hz as [Hl _]. apply (ok_listed _ Hl). exists t. rewrite E. set_solver. }
    destruct (fallback_take_ok z page order o t start_mt Hz Hb Ho) as (z' & -> & Hal). cbn.
    eexists. split; [done|]. done.
Qed.

Lemma rmqueue_fallback_ok z order start_mt :
  zone_ok z -> 0 <= order < MAX_ORDER ->
  exists z' r, __rmqueue_fallback pfn_valid_within page_zone holes_in_zone zone_start_pfn spanned_pages pageblock_order mobility_disabled
      z order start_mt = Some (z', r) /\
    match r with
    | None => z' = z /\ forall o t, order <= o < MAX_ORDER -> t ∈ fallbacks start_mt -> t <> MIGRATE_RESERVE ->
        flist z o t = []
    | Some page => allocated z z' page order
    end.
Proof using Hpresent Hpb Hspan Hzone.
  intros Hz Ho. unfold __rmqueue_fallback.
  match goal with |- context [for_ _ _ ?f _] =>
    destruct (for_rule f (fun k _ => forall o t, MAX_ORDER - k <= o < MAX_ORDER -> t ∈ fallbacks start_mt ->
        t <> MIGRATE_RESERVE -> flist z o t = [])
      (fun '(z', r) => match r with None => False | Some page => allocated z z' page order end)
      0 (MAX_ORDER - order) tt) as (x & -> & Hx) end; [lia|intros; lia| |].
  - intros k [] Hk HI.
    destruct (fallback_types_ok z order (MAX_ORDER - 1 - k) start_mt (fallbacks start_mt)) as (x & -> & Hx); [done|lia|].
    eexists. split; [done|]. destruct x as [[]|[z' [p|]]]; try done.
    intros o t Hoo Ht Hr. destruct (Z.eq_dec o (MAX_ORDER - 1 - k)) as [->|]; [by apply Hx|]. apply HI; [lia|done|done].
  - cbn. destruct x as [[]|[z' [page|]]]; eexists _, _; (split; [done|]); cbn; try done.
    split; [done|]. intros o t Hoo. apply Hx. lia.
Qed.

Lemma rmqueue_ok z order mt :
  zone_ok z -> 0 <= order < MAX_ORDER -> 0 <= mt <= MIGRATE_RESERVE ->
  exists z' r, __rmqueue pfn_valid_within page_zone holes_in_zone zone_start_pfn spanned_pages pageblock_order mobility_disabled
      z order mt = Some (z', r) /\
    match r with
    | None => z' = z /\ forall o t, order <= o < MAX_ORDER -> 0 <= t <= MIGRATE_RESERVE ->
        mt <> MIGRATE_RESERVE \/ t = MIGRATE_RESERVE -> flist z o t = []
    | Some page => allocated z z' page order
    end.
Proof using Hpresent Hpb Hspan Hzone.
  intros Hz Ho Hmt. unfold __rmqueue.
  destruct (rmqueue_smallest_ok z order mt Hz Ho) as (z1 & [page|] & -> & Hr1); cbn; [by eexists _, _|].
  destruct Hr1 as [-> Hnone]. destruct (Z.eqb_spec mt MIGRATE_RESERVE) as [->|Hne].
  { eexists _, _. split; [done|]. cbn. split; [done|]. intros o t Hoo Ht [?| ->]; [done|by apply Hnone]. }
  destruct (rmqueue_fallback_ok z order mt Hz Ho) as (z2 & [page|] & -> & Hr2); cbn; [by eexists _, _|].
  destruct Hr2 as [-> Hfall].
  destruct (rmqueue_smallest_ok z order MIGRATE_RESERVE Hz Ho) as (z3 & [page|] & -> & Hr3); [by eexists _, _|].
  destruct Hr3 as [-> Hres]. eexists _, _. split; [done|]. cbn. split; [done|]. intros o t Hoo Ht _.
  destruct (Z.eq_dec t mt) as [->|Htm]; [by apply Hnone|].
  destruct (Z.eq_dec t MIGRATE_RESERVE) as [->|Htr]; [by apply Hres|]. apply Hfall; [done| |done].
  unfold fallbacks, MIGRATE_RESERVE, MIGRATE_UNMOVABLE, MIGRATE_RECLAIMABLE, MIGRATE_MOVABLE in *.
  repeat case_match; rewrite ?Z.eqb_eq, ?Z.eqb_neq in *; assert (t = 0 \/ t = 1 \/ t = 2) as [-> | [-> | ->]] by lia;
    try lia; set_solver.
Qed.

(** ** Bulk allocation *)

(** [pages] are disjoint blocks of [2^order] pages taken from [z]. *)
Definition taken (z z' : zone) (order : Z) (pages : list Z) : Prop :=
  zone_ok z' /\ (forall pg p, pg ∈ pages -> in_block pg order p -> free_page z p) /\
  (forall p, free_page z' p <-> free_page z p /\ forall pg, pg ∈ pages -> ~ in_block pg order p) /\
  (forall i j pg pg' p, pages !! i = Some pg -> pages !! j = Some pg' ->
     in_block pg order p -> in_block pg' order p -> i = j) /\
  total (buddy z') + zlen pages * 2 ^ order = total (buddy z).

Lemma taken_snoc z z1 z' order pages pg :
  taken z z1 order pages -> allocated z1 z' pg order -> taken z z' order (pages ++ [pg]).
Proof.
  intros (_ & Hin & Hf & Hd & Ht) (Hz' & _ & Hpf & Hf' & Ht' & _). split_and!; [done| | | |].
  - intros x p [Hx|Hx%list_elem_of_singleton]%elem_of_app Hp; [by eapply Hin|]. subst x.
    specialize (Hpf p Hp). by apply Hf in Hpf as [? _].
  - intros p. rewrite Hf', Hf. split.
    + intros [[Hz Hn] Hn2]. split; [done|]. intros x [Hx|Hx%list_elem_of_singleton]%elem_of_app; [by apply Hn|by subst].
    + intros [Hz Hn]. split_and!; [done| |]; [intros x Hx|]; apply Hn; set_solver.
  - assert (Hnew : forall i x p, pages !! i = Some x -> in_block x order p -> ~ in_block pg order p).
    { intros i x p Hi Hp1 Hp2. specialize (Hpf p Hp2). apply Hf in Hpf as [_ Hn].
      apply (Hn x); [by eapply list_elem_of_lookup_2|done]. }
    intros i j x y p Hi Hj Hp1 Hp2. apply lookup_snoc_Some in Hi as [[Hi1 Hi]|[-> <-]], Hj as [[Hj1 Hj]|[-> <-]].
    + by eapply Hd.
    + by destruct (Hnew i x p).
    + by destruct (Hnew j y p).
    + done.
  - rewrite zlen_app. change (zlen [pg]) with 1. lia.
Qed.

(** No list that may be used for [mt] has a block of [order] or above. *)
Definition exhausted (z : zone) (order mt : Z) : Prop :=
  forall o t, order <= o < MAX_ORDER -> 0 <= t <= MIGRATE_RESERVE ->
    mt <> MIGRATE_RESERVE \/ t = MIGRATE_RESERVE -> flist z o t = [].

Lemma rmqueue_bulk_ok z order count mt :
  zone_ok z -> 0 <= order < MAX_ORDER -> 0 <= mt <= MIGRATE_RESERVE -> 0 <= count ->
  exists z' pages, rmqueue_bulk pfn_valid_within page_zone holes_in_zone zone_start_pfn spanned_pages pageblock_order mobility_disabled
      z order count mt = Some (z', pages) /\
    taken z z' order pages /\ zlen pages <= count /\ (zlen pages = count \/ exhausted z' order mt) /\
    nr_free_pages z' = nr_free_pages z + s32 (- s32 (zlen pages * 2 ^ order)).
Proof using Hpresent Hpb Hspan Hzone.
  intros Hz Ho Hmt Hcount. unfold rmqueue_bulk.
  match goal with |- context [for_ _ _ ?f _] =>
    destruct (for_rule f (fun k '(z', pages) => taken z z' order pages /\ zlen pages = k /\
        nr_free_pages z' = nr_free_pages z)
      (fun '(z', pages) => taken z z' order pages /\ zlen pages <= count /\ exhausted z' order mt /\
        nr_free_pages z' = nr_free_pages z)
      0 count (z, [])) as (x & -> & Hx) end; [lia| | |].
  - split; [|done]. split_and!; try done; [set_solver| |change (zlen []) with 0; lia].
    intros p. split; [|tauto]. intros Hp. split; [done|]. set_solver.
  - intros k [z1 pages] Hk (Ht & Hlen & Hn). pose proof Ht as (Hz1 & _).
    destruct (rmqueue_ok z1 order mt Hz1 Ho Hmt) as (z2 & [pg|] & -> & Hr); cbn.
    + eexists. split; [done|]. cbn. split; [by eapply taken_snoc|]. rewrite zlen_app. change (zlen [pg]) with 1.
      split; [lia|]. destruct Hr as (_ & _ & _ & _ & _ & ->). done.
    + destruct Hr as [-> Hnone]. eexists. split; [done|]. cbn. split; [done|]. split; [lia|done].
  - assert (Hdone : forall z' pages, taken z z' order pages -> zlen pages <= count ->
      (zlen pages = count \/ exhausted z' order mt) -> nr_free_pages z' = nr_free_pages z ->
      let z'' := mod_free_pages z' (s32 (- s32 (Z.shiftl (zlen pages) order))) in
      taken z z'' order pages /\ zlen pages <= count /\ (zlen pages = count \/ exhausted z'' order mt) /\
      nr_free_pages z'' = nr_free_pages z + s32 (- s32 (zlen pages * 2 ^ order))).
    { intros z' pages ([Hl1 Hc1] & Ht) Hl He Hn. split_and!; [|done|done|cbn; rewrite Z.shiftl_mul_pow2 by lia; lia].
      split; [|exact Ht]. split; [by apply (lists_ext z')|by apply (counts_ext z')]. }
    cbn. destruct x as [[z' pages]|[z' pages]]; eexists _, _; (split; [done|]); cbn in Hx; apply Hdone; naive_solver lia.
Qed.
End invariant.

(** A zone of four pages, with nothing free and with all of them free in one
    block. *)
Definition four (p : Z) : bool := (0 <=? p) && (p <? 4).
Definition zone_none : zone := Zone ∅ ∅ ∅ ∅ 0.
Definition zone_four : zone := Zone {[ 0 := 2 ]} {[ (2, 2) := [0] ]} {[ 2 := 1 ]} ∅ 4.

Lemma four_u64 p : four p = true -> is_u64 p.
Proof. unfold four, is_word. lia. Qed.

Lemma four_block : block_ok four 0 2.
Proof. split_and!; [lia|by vm_compute|done|]. unfold in_block, four. intros p Hp. simpl in Hp. lia. Qed.

Lemma zone_none_free p : ~ free_page zone_none p.
Proof. intros (b & o & Hb & _). simpl in Hb. by rewrite lookup_empty in Hb. Qed.

Lemma zone_none_ok : zone_ok four zone_none.
Proof.
  assert (Hfl : forall o mt, flist zone_none o mt = []) by (intros; unfold flist; simpl; by rewrite lookup_empty).
  split; [|done]. constructor.
  - intros b o. simpl. rewrite lookup_empty. setoid_rewrite Hfl. split; [done|]. intros (mt & H). set_solver.
  - intros b o mt mt'. rewrite Hfl. set_solver.
  - intros o mt. rewrite Hfl. constructor.
  - intros b o. simpl. by rewrite lookup_empty.
  - intros b o b' o' p. simpl. by rewrite lookup_empty.
  - intros b o. simpl. by rewrite lookup_empty.
Qed.

Lemma zone_four_ok : zone_ok four zone_four.
Proof.
  destruct (free_one_page_ok four (mod_free_pages zone_none 4) 0 2 2) as (z' & Hz & Hok & _).
  - destruct zone_none_ok. split; [by apply (lists_ext four zone_none)|by apply (counts_ext zone_none)].
  - apply four_block.
  - intros p _. apply (zone_none_free p).
  - assert (E : __free_one_page four (mod_free_pages zone_none 4) 0 2 2 = Some zone_four) by (vm_compute; reflexivity).
    rewrite E in Hz. by injection Hz as <-.
Qed.

(** * Properties *)

(** C1 [free_one_page] of a block that is not free: the free lists stay a set of
    aligned, disjoint blocks with matching counters in which no two buddies are
    free together, the pages of the block are the only ones that became free, and
    [NR_FREE_PAGES] keeps pace with the number of free pages. *)
Theorem buddy_free_correct present z page order mt :
  zone_ok present z -> block_ok present page order ->
  (forall p, in_block page order p -> ~ free_page z p) ->
  exists z', free_one_page present z page order mt = Some z' /\ zone_ok present z' /\
    (forall p, free_page z' p <-> free_page z p \/ in_block page order p) /\
    total (buddy z') = total (buddy z) + 2 ^ order /\
    nr_free_pages z' = nr_free_pages z + 2 ^ order.
Proof.
  intros [Hl Hc] Hok Hdis. unfold free_one_page.
  destruct (free_one_page_ok present (mod_free_pages z (2 ^ order)) page order mt) as (z' & -> & Hz' & Hf & Ht & Hn);
    [|done|done|].
  - split; [by apply (lists_ext present z)|by apply (counts_ext z)].
  - exists z'. split_and!; try done.
Qed.

Lemma buddy_free_correct_witness :
  exists z', free_one_page four zone_none 0 2 MIGRATE_MOVABLE = Some z' /\ free_page z' 3 /\ nr_free_pages z' = 4.
Proof.
  destruct (buddy_free_correct four zone_none 0 2 MIGRATE_MOVABLE) as (z' & Hz & _ & Hf & _ & Hn);
    [apply zone_none_ok|apply four_block|intros p _; apply zone_none_free|].
  exists z'. split; [exact Hz|]. split; [|exact Hn]. apply Hf. right. unfold in_block. simpl. lia.
Defined.

(** C2 [__rmqueue] either takes an aligned block of [2^order] pages that were all
    free, leaving every other free page free, the lists and counters consistent
    and the blocks maximal, or finds that no list it may use has a block of that
    order or above and changes nothing.  This covers splitting, the search in the
    lists of other migrate types, the regrouping of a pageblock, and the
    reserve.  [rmqueue_bulk] takes [count] disjoint blocks, or fewer when
    no usable list has another one, and lowers
    [NR_FREE_PAGES] by the number of pages in them as a 32-bit [int]: as long as
    that number is below [2 ^ 31] the counter stays equal to the number of free
    pages if it was. *)
Theorem buddy_alloc_correct present pfn_valid_within page_zone holes_in_zone zone_start spanned
    pageblock_order mobility_disabled z order mt :
  (forall p, present p = true -> is_u64 p) -> 1 <= pageblock_order < 31 ->
  (forall p, present p = true -> zone_start <= p < zone_start + spanned) ->
  (holes_in_zone = false -> forall p q, zone_start <= p < zone_start + spanned ->
     zone_start <= q < zone_start + spanned -> page_zone p = page_zone q) ->
  zone_ok present z -> 0 <= order < MAX_ORDER -> 0 <= mt <= MIGRATE_RESERVE ->
  (exists z' r, __rmqueue pfn_valid_within page_zone holes_in_zone zone_start spanned pageblock_order
      mobility_disabled z order mt = Some (z', r) /\
    match r with
    | None => z' = z /\ forall o t, order <= o < MAX_ORDER -> 0 <= t <= MIGRATE_RESERVE ->
        mt <> MIGRATE_RESERVE \/ t = MIGRATE_RESERVE -> flist z o t = []
    | Some page => allocated present z z' page order
    end) /\
  (forall count, 0 <= count < 2 ^ 31 ->
   exists z' pages,
    rmqueue_bulk pfn_valid_within page_zone holes_in_zone zone_start spanned pageblock_order
      mobility_disabled z order count mt = Some (z', pages) /\
    taken present z z' order pages /\ zlen pages <= count /\
    (zlen pages = count \/ forall o t, order <= o < MAX_ORDER -> 0 <= t <= MIGRATE_RESERVE ->
       mt <> MIGRATE_RESERVE \/ t = MIGRATE_RESERVE -> flist z' o t = []) /\
    nr_free_pages z' = nr_free_pages z + s32 (- s32 (zlen pages * 2 ^ order)) /\
    (zlen pages * 2 ^ order < 2 ^ 31 -> nr_free_pages z = total (buddy z) ->
     nr_free_pages z' = total (buddy z'))).
Proof.
  intros Hp Hpb Hspan Hzone Hz Ho Hmt. split; [eapply rmqueue_ok; try done; lia|]. intros count Hc.
  edestruct (rmqueue_bulk_ok present Hp pfn_valid_within page_zone holes_in_zone zone_start spanned pageblock_order
    mobility_disabled ltac:(lia) Hspan Hzone z order count mt) as (z' & pages & -> & Ht & Hl & Hex & Hn'); [done..|lia|].
  eexists _, _. split_and!; try done. intros Hsmall Hn. destruct Ht as (_ & _ & _ & _ & Ht).
  pose proof (zlen_nonneg pages). pose proof (Z.pow_pos_nonneg 2 order ltac:(lia) ltac:(lia)).
  assert (0 <= zlen pages * 2 ^ order) by nia. rewrite !s32_small in Hn' by (rewrite ?s32_small; lia). lia.
Qed.

Lemma buddy_alloc_correct_witness :
  (exists z', __rmqueue (fun _ => true) (fun _ => 0) false 0 4 2 false zone_four 0 MIGRATE_UNMOVABLE = Some (z', Some 0) /\
    allocated four zone_four z' 0 0) /\
  exists z' pages, rmqueue_bulk (fun _ => true) (fun _ => 0) false 0 4 2 false zone_four 0 3 MIGRATE_UNMOVABLE =
      Some (z', pages) /\
    pages = [0; 1; 2] /\ nr_free_pages z' = total (buddy z').
Proof.
  destruct (buddy_alloc_correct four (fun _ => true) (fun _ => 0) false 0 4 2 false zone_four 0 MIGRATE_UNMOVABLE)
    as [(z' & r & Hz & Hr) Hbulk];
    [exact four_u64|lia|intros p; unfold four; lia|reflexivity|apply zone_four_ok|unfold MAX_ORDER; lia|by vm_compute|].
  split.
  - assert (E : option_map snd (__rmqueue (fun _ => true) (fun _ => 0) false 0 4 2 false zone_four 0 MIGRATE_UNMOVABLE) =
      Some (Some 0)) by (vm_compute; reflexivity).
    rewrite Hz in E. injection E as ->. exists z'. split; [exact Hz|exact Hr].
  - destruct (Hbulk 3) as (z2 & pages & Hz2 & _ & _ & _ & _ & Hn); [lia|].
    assert (E : option_map snd (rmqueue_bulk (fun _ => true) (fun _ => 0) false 0 4 2 false zone_four 0 3 MIGRATE_UNMOVABLE) =
      Some [0; 1; 2]) by (vm_compute; reflexivity).
    rewrite Hz2 in E. injection E as ->. exists z2, [0; 1; 2]. split; [exact Hz2|]. split; [reflexivity|].
    apply Hn; vm_compute; reflexivity.
Defined.
