(* ===== verification/Timer.v ===== *)
(** The timer wheel of kernel/timer.c: [internal_add_timer], [cascade] and
    [__run_timers].

    Timers hang in one of five arrays of lists by how far ahead they expire, and
    are moved to a finer array when time has come close enough.  The theorems show
    that this is exact: a timer runs in the tick it expires in, although it is
    only looked at a few times before. *)
From Stdlib Require Import ZArith Lia Bool.
From stdpp Require Import base numbers list gmap option.
From S2P Require Import Prelude.

Local Open Scope Z_scope.

(** * Definitions *)

(** [CONFIG_BASE_SMALL] is off. *)
Definition TVN_BITS : Z := 6.
Definition TVR_BITS : Z := 8.
Definition TVN_SIZE : Z := 2 ^ TVN_BITS.
Definition TVR_SIZE : Z := 2 ^ TVR_BITS.
Definition TVN_MASK : Z := TVN_SIZE - 1.
Definition TVR_MASK : Z := TVR_SIZE - 1.

(** A timer: its address, [expires], and the flag kept in the low bit of [base]. *)
Record timer_list : Type := Timer { timer_id : positive; expires : Z; deferrable : bool }.

#[export] Instance timer_list_eq_dec : EqDecision timer_list.
Proof. solve_decision. Defined.

(** [vec] holds the list at [tv1.vec + i] under [(1, i)] and so on up to
    [tv5]; the indices are masked, so that they are in range.  [work_list] is the
    local list of [__run_timers], empty while that does not run. *)
Record tvec_base : Type := TvecBase {
  running_timer : option positive;
  timer_jiffies : Z;
  next_timer : Z;
  vec : gmap (Z * Z) (list timer_list);
  work_list : list timer_list
}.

Definition set_running_timer (base : tvec_base) (r : option positive) : tvec_base :=
  TvecBase r (timer_jiffies base) (next_timer base) (vec base) (work_list base).
Definition set_timer_jiffies (base : tvec_base) (j : Z) : tvec_base :=
  TvecBase (running_timer base) j (next_timer base) (vec base) (work_list base).
Definition set_next_timer (base : tvec_base) (j : Z) : tvec_base :=
  TvecBase (running_timer base) (timer_jiffies base) j (vec base) (work_list base).
Definition set_vec (base : tvec_base) (v : gmap (Z * Z) (list timer_list)) : tvec_base :=
  TvecBase (running_timer base) (timer_jiffies base) (next_timer base) v (work_list base).
Definition set_work_list (base : tvec_base) (l : list timer_list) : tvec_base :=
  TvecBase (running_timer base) (timer_jiffies base) (next_timer base) (vec base) l.

Definition slot (base : tvec_base) (tv i : Z) : list timer_list := default [] (vec base !! (tv, i)).

(** The comparisons of jiffies.h. *)
Definition time_after_eq (a b : Z) : bool := 0 <=? s64 (u64 (a - b)).
Definition time_before (a b : Z) : bool := s64 (u64 (a - b)) <? 0.

(** The array and the index [internal_add_timer] chooses. *)
Definition timer_vec (timer_jiffies_ expires_ : Z) : Z * Z :=
  let idx := u64 (expires_ - timer_jiffies_) in
  if idx <? TVR_SIZE then (1, Z.land expires_ TVR_MASK)
  else if idx <? 2 ^ (TVR_BITS + TVN_BITS) then (2, Z.land (Z.shiftr expires_ TVR_BITS) TVN_MASK)
  else if idx <? 2 ^ (TVR_BITS + 2 * TVN_BITS) then
    (3, Z.land (Z.shiftr expires_ (TVR_BITS + TVN_BITS)) TVN_MASK)
  else if idx <? 2 ^ (TVR_BITS + 3 * TVN_BITS) then
    (4, Z.land (Z.shiftr expires_ (TVR_BITS + 2 * TVN_BITS)) TVN_MASK)
  else if s64 idx <? 0 then (1, Z.land timer_jiffies_ TVR_MASK)
  else
    let expires_ := if 0xffffffff <? idx then u64 (0xffffffff + timer_jiffies_) else expires_ in
    (5, Z.land (Z.shiftr expires_ (TVR_BITS + 3 * TVN_BITS)) TVN_MASK).

Definition internal_add_timer (base : tvec_base) (timer : timer_list) : tvec_base :=
  let '(tv, i) := timer_vec (timer_jiffies base) (expires timer) in
  set_vec base (<[(tv, i) := slot base tv i ++ [timer]]> (vec base)).

(** ** Arming and deleting timers *)

Definition not_timer (id : positive) (x : timer_list) : Prop := timer_id x <> id.
#[export] Instance not_timer_dec id x : Decision (not_timer id x).
Proof. unfold not_timer. apply _. Defined.

(** [detach_timer]: takes the timer out of the list it is in. *)
Definition detach_timer (base : tvec_base) (id : positive) : tvec_base :=
  set_work_list (set_vec base (filter (not_timer id) <$> vec base))
    (filter (not_timer id) (work_list base)).

(** The timer with this address that is in some list: [timer_pending], with the
    fields of the timer. *)
Definition timer_pending (base : tvec_base) (id : positive) : option timer_list :=
  list_find (fun x => timer_id x = id) (work_list base ++ concat (snd <$> map_to_list (vec base)))
    ≫= fun p => Some (snd p).

(** The part that [__mod_timer], [del_timer] and [try_to_del_timer_sync] share. *)
Definition detach_pending (base : tvec_base) (timer : timer_list) : tvec_base :=
  let base := detach_timer base (timer_id timer) in
  if (expires timer =? next_timer base) && negb (deferrable timer)
  then set_next_timer base (timer_jiffies base) else base.

Definition __mod_timer (base : tvec_base) (timer : timer_list) (expires_ : Z) (pending_only : bool)
  : tvec_base * Z :=
  let arm base :=
    let timer := Timer (timer_id timer) expires_ (deferrable timer) in
    let base :=
      if time_before expires_ (next_timer base) && negb (deferrable timer)
      then set_next_timer base expires_ else base in
    internal_add_timer base timer in
  match timer_pending base (timer_id timer) with
  | Some old => (arm (detach_pending base old), 1)
  | None => if pending_only then (base, 0) else (arm base, 0)
  end.

Definition mod_timer_pending (base : tvec_base) (timer : timer_list) (expires_ : Z) :=
  __mod_timer base timer expires_ true.

Definition mod_timer (base : tvec_base) (timer : timer_list) (expires_ : Z) : tvec_base * Z :=
  match timer_pending base (timer_id timer) with
  | Some old => if expires old =? expires_ then (base, 1) else __mod_timer base timer expires_ false
  | None => __mod_timer base timer expires_ false
  end.

(** [None] is the [BUG_ON]. *)
Definition add_timer (base : tvec_base) (timer : timer_list) : option tvec_base :=
  match timer_pending base (timer_id timer) with
  | Some _ => None
  | None => Some (fst (mod_timer base timer (expires timer)))
  end.

Definition del_timer (base : tvec_base) (id : positive) : tvec_base * Z :=
  match timer_pending base id with
  | Some old => (detach_pending base old, 1)
  | None => (base, 0)
  end.

Definition try_to_del_timer_sync (base : tvec_base) (id : positive) : tvec_base * Z :=
  if decide (running_timer base = Some id) then (base, -1) else del_timer base id.

(** ** Running timers *)

(** [list_replace_init]: the list, and the base with the list emptied. *)
Definition list_replace_init (base : tvec_base) (tv i : Z) : list timer_list * tvec_base :=
  (slot base tv i, set_vec base (<[(tv, i) := []]> (vec base))).

Definition cascade (base : tvec_base) (tv index : Z) : tvec_base * Z :=
  let '(tv_list, base) := list_replace_init base tv index in
  (foldl internal_add_timer base tv_list, index).

Definition INDEX (base : tvec_base) (n : Z) : Z :=
  Z.land (Z.shiftr (timer_jiffies base) (TVR_BITS + n * TVN_BITS)) TVN_MASK.

(** The condition with [&&] and the calls of [cascade] in it. *)
Definition cascade_all (base : tvec_base) : tvec_base :=
  let '(base, i2) := cascade base 2 (INDEX base 0) in
  if negb (i2 =? 0) then base
  else
    let '(base, i3) := cascade base 3 (INDEX base 1) in
    if negb (i3 =? 0) then base
    else
      let '(base, i4) := cascade base 4 (INDEX base 2) in
      if negb (i4 =? 0) then base else fst (cascade base 5 (INDEX base 3)).

(** What happens to the base while a timer function runs and the lock is free. *)
Inductive action : Type :=
| ModTimer (timer : timer_list) (expires_ : Z)
| ModTimerPending (timer : timer_list) (expires_ : Z)
| DelTimer (id : positive)
| TryToDelTimerSync (id : positive).

Definition action_timer (a : action) : positive :=
  match a with
  | ModTimer x _ | ModTimerPending x _ => timer_id x
  | DelTimer id | TryToDelTimerSync id => id
  end.

Definition act (base : tvec_base) (a : action) : tvec_base :=
  match a with
  | ModTimer x e => fst (mod_timer base x e)
  | ModTimerPending x e => fst (mod_timer_pending base x e)
  | DelTimer id => fst (del_timer base id)
  | TryToDelTimerSync id => fst (try_to_del_timer_sync base id)
  end.

Section run.
(** The calls on this base made while the function of a timer runs, by it or by
    interrupts; they may depend on what the base looks like. *)
Context (fn : tvec_base -> timer_list -> list action).

(** The inner loop: runs the timers of the work list; also returns them in order. *)
Definition run_work_list (fuel : nat) (base : tvec_base) : option (tvec_base * list timer_list) :=
  loop fuel (fun '(base, ran) =>
    match work_list base with
    | [] => Some (Done (base, ran))
    | timer :: _ =>
        let base := detach_timer (set_running_timer base (Some (timer_id timer))) (timer_id timer) in
        Some (Next (foldl act base (fn base timer), ran ++ [timer]))
    end) (base, []).

(** One iteration of the outer loop of [__run_timers]. *)
Definition run_tick (base : tvec_base) : option (tvec_base * list timer_list) :=
  let index := Z.land (timer_jiffies base) TVR_MASK in
  let base := if index =? 0 then cascade_all base else base in
  let base := set_timer_jiffies base (u64 (timer_jiffies base + 1)) in
  let '(work, base) := list_replace_init base 1 index in
  run_work_list (S (length work)) (set_work_list base work).

(** The log pairs each timer that ran with the tick it ran in. *)
Definition __run_timers (fuel : nat) (base : tvec_base) (jiffies : Z)
  : option (tvec_base * list (Z * timer_list)) :=
  loop fuel (fun '(base, log) =>
    if time_after_eq jiffies (timer_jiffies base) then
      '(base', ran) ← run_tick base;
      Some (Next (base', log ++ ((fun x => (timer_jiffies base, x)) <$> ran)))
    else Some (Done (set_running_timer base None, log))) (base, []).
End run.

(** * Where timers hang

    [t] is the tick the base will process next and [f] the tick a timer is due
    in, as unbounded integers of which the code has the lowest 64 bits. *)

Definition due_in (t f : Z) (x : timer_list) : Prop := t <= f < t + 2 ^ 63 /\ expires x = u64 f.

Definition overdue (t : Z) (x : timer_list) : Prop :=
  exists f, t - 2 ^ 63 <= f < t /\ expires x = u64 f.

(** The number of low bits array [n] ignores. *)
Definition shift (n : Z) : Z := TVR_BITS + (n - 2) * TVN_BITS.

(** The number of the next cascade of array [n] at or after tick [t]. *)
Definition next_cascade (n t : Z) : Z := (t - 1) / 2 ^ shift n + 1.

(** A timer due at [f] hangs in array [n] at index [i], and will be found there in
    time; for [n >= 2] it is taken out in cascade [V] of its array, which is not
    before [lo] and, below the last array, the last one before [f]. *)
Definition placed (t lo n i f : Z) : Prop :=
  (n = 1 /\ i = f mod TVR_SIZE /\ t <= f < t + TVR_SIZE) \/
  (2 <= n <= 5 /\ exists V, i = V mod TVN_SIZE /\ next_cascade n lo <= V <= next_cascade n t + 63 /\
     2 ^ shift n * V <= f /\ (n < 5 -> f < 2 ^ shift n * (V + 1))).

Definition normal (t lo n i : Z) (x : timer_list) : Prop := exists f, due_in t f x /\ placed t lo n i f.

Definition slot_ok (t lo n i : Z) (x : timer_list) : Prop :=
  normal t lo n i x \/ (n = 1 /\ i = t mod TVR_SIZE /\ overdue t x).

(** [lo n] says whether array [n] has still to be cascaded in tick [t]. *)
Definition slots_ok (t : Z) (lo : Z -> Z) (base : tvec_base) : Prop :=
  timer_jiffies base = u64 t /\ forall n i x, x ∈ slot base n i -> slot_ok t (lo n) n i x.

Definition pending (base : tvec_base) (x : timer_list) : Prop :=
  x ∈ work_list base \/ exists n i, x ∈ slot base n i.

(** No timer is in the wheel with two sets of fields. *)
Definition single (base : tvec_base) : Prop :=
  forall x y, pending base x -> pending base y -> timer_id x = timer_id y -> x = y.

(** The invariant of the wheel before tick [t] is processed. *)
Definition wheel_ok (t : Z) (base : tvec_base) : Prop :=
  slots_ok t (fun _ => t) base /\ single base.

(** * The arithmetic of the wheel *)

Lemma u64_sub x y : u64 (u64 x - u64 y) = u64 (x - y).
Proof. unfold wrap. by rewrite <- Zminus_mod. Qed.

(** Every word is the low part of a tick in the window around [t]. *)
Lemma window t e : is_u64 e -> exists f, t - 2 ^ 63 <= f < t + 2 ^ 63 /\ e = u64 f.
Proof.
  intros He. exists (t + s64 (u64 (e - t))).
  pose proof (wrap_range 64 (e - t) ltac:(lia)) as Hr. unfold is_word in *.
  assert (exists k, s64 (u64 (e - t)) = e - t + k * 2 ^ 64) as [k Hk].
  { unfold s64. pose proof (Z.div_mod (e - t) (2 ^ 64) ltac:(lia)) as Hd.
    change ((e - t) mod 2 ^ 64) with (u64 (e - t)) in Hd. zcases.
    - exists (- ((e - t) / 2 ^ 64)). lia.
    - exists (- ((e - t) / 2 ^ 64) - 1). lia. }
  split.
  - unfold s64. zcases.
  - rewrite Hk. replace (t + (e - t + k * 2 ^ 64)) with (e + k * 2 ^ 64) by lia.
    unfold wrap. by rewrite Z.mod_add, Z.mod_small by lia.
Qed.

(** Two ticks less than [2 ^ 64] apart with the same low part are the same. *)
Lemma u64_inj f g : - 2 ^ 64 < f - g < 2 ^ 64 -> u64 f = u64 g -> f = g.
Proof.
  intros Hd He. unfold wrap in He.
  pose proof (Z.div_mod f (2 ^ 64) ltac:(lia)). pose proof (Z.div_mod g (2 ^ 64) ltac:(lia)).
  rewrite He in *. assert (- 1 < f / 2 ^ 64 - g / 2 ^ 64 < 1) by nia. nia.
Qed.

(** The index [(e >> k) & mask] of a word in terms of the unbounded tick. *)
Lemma index_eq e f k w :
  e = u64 f -> 0 <= k -> 0 <= w -> k + w <= 64 ->
  Z.land (Z.shiftr e k) (2 ^ w - 1) = (f / 2 ^ k) mod 2 ^ w.
Proof.
  intros -> Hk Hw Hkw. rewrite land_pow2_sub1, <- Z.shiftr_div_pow2 by lia.
  apply Z.bits_inj'. intros i Hi. destruct (Z.lt_ge_cases i w).
  - rewrite !Z.mod_pow2_bits_low, !Z.shiftr_spec, wrap_bits by lia. zcases.
  - by rewrite !Z.mod_pow2_bits_high by lia.
Qed.

Lemma next_cascade_mono n t t' : 0 <= shift n -> t <= t' -> next_cascade n t <= next_cascade n t'.
Proof.
  intros Hs Ht. unfold next_cascade.
  assert (0 < 2 ^ shift n) by (apply Z.pow_pos_nonneg; lia).
  pose proof (Z.div_le_mono (t - 1) (t' - 1) (2 ^ shift n) ltac:(lia) ltac:(lia)). lia.
Qed.

(** A tick [g] at least [2 ^ shift n] and less than [2 ^ (shift n + 6)] ahead. *)
Lemma placed_far t n g f :
  2 <= n <= 5 -> 2 ^ shift n <= g - t < 2 ^ (shift n + 6) -> g <= f -> (n < 5 -> g = f) ->
  placed t (t + 1) n ((g / 2 ^ shift n) mod TVN_SIZE) f.
Proof.
  intros Hn Hg Hf Hgf. right. split; [done|].
  assert (Hs : 0 <= shift n) by (unfold shift, TVR_BITS, TVN_BITS; lia).
  assert (0 < 2 ^ shift n) by (apply Z.pow_pos_nonneg; lia).
  rewrite Z.pow_add_r in Hg by lia. unfold next_cascade.
  exists (g / 2 ^ shift n). split; [done|]. repeat split.
  - replace (t + 1 - 1) with t by lia. rewrite <- Z.div_add by lia. apply Z.div_le_mono; lia.
  - rewrite <- Z.add_assoc. change (1 + 63) with 64. rewrite <- Z.div_add by lia.
    apply Z.div_le_mono; lia.
  - pose proof (Z.mul_div_le g (2 ^ shift n) ltac:(lia)). lia.
  - intros H5. rewrite <- (Hgf H5). pose proof (Z.mul_succ_div_gt g (2 ^ shift n) ltac:(lia)). lia.
Qed.

Lemma tv1_index e f : e = u64 f -> Z.land e TVR_MASK = f mod TVR_SIZE.
Proof.
  intros He. rewrite <- (Z.shiftr_0_r e). unfold TVR_MASK, TVR_SIZE, TVR_BITS.
  rewrite (index_eq _ f) by (done || lia). by rewrite Z.div_1_r.
Qed.

Lemma tvn_index n e f :
  2 <= n <= 5 -> e = u64 f ->
  Z.land (Z.shiftr e (shift n)) TVN_MASK = (f / 2 ^ shift n) mod TVN_SIZE.
Proof. intros Hn He. apply index_eq; [done|unfold shift, TVR_BITS, TVN_BITS; lia..]. Qed.

(** [internal_add_timer] finds a place in which the timer will be found in time,
    whatever its [expires] is. *)
Lemma timer_vec_ok t x n i :
  is_u64 (expires x) -> timer_vec (u64 t) (expires x) = (n, i) -> slot_ok t (t + 1) n i x.
Proof.
  intros He. destruct (window t _ He) as (f & Hf & Hx).
  unfold timer_vec.
  assert (u64 (expires x - u64 t) = u64 (f - t)) as -> by by rewrite Hx, u64_sub.
  destruct (Z.lt_ge_cases f t).
  - assert (u64 (f - t) = f - t + 2 ^ 64) as ->.
    { unfold wrap. rewrite <- (Z.mod_add _ 1) by lia. rewrite Z.mod_small by lia. lia. }
    assert (s64 (f - t + 2 ^ 64) = f - t) as -> by (unfold s64; zcases).
    unfold TVR_SIZE, TVR_BITS, TVN_BITS. zcases.
    intros [= <- <-]. right. split; [done|]. split; [by apply tv1_index|]. exists f. split; [lia|done].
  - rewrite (wrap_small 64 (f - t)) by (unfold is_word; lia).
    intros Hv. left. exists f. split; [by split; [lia|]|]. revert Hv.
    change (TVR_BITS + TVN_BITS) with (shift 3). change (TVR_BITS + 2 * TVN_BITS) with (shift 4).
    change (TVR_BITS + 3 * TVN_BITS) with (shift 5). change TVR_BITS with (shift 2) at 1.
    unfold TVR_SIZE. change TVR_BITS with (shift 2).
    destruct (Z.ltb_spec (f - t) (2 ^ shift 2)).
    { intros [= <- <-]. left. split; [done|]. split; [by apply tv1_index|].
      change TVR_SIZE with (2 ^ shift 2). lia. }
    assert (Hfar : forall n', 2 <= n' <= 5 -> 2 ^ shift n' <= f - t < 2 ^ (shift n' + 6) ->
      placed t (t + 1) n' (Z.land (Z.shiftr (expires x) (shift n')) TVN_MASK) f).
    { intros n' Hn' Hft. rewrite (tvn_index n' _ f) by done. by apply placed_far. }
    destruct (Z.ltb_spec (f - t) (2 ^ shift 3)).
    { intros [= <- <-]. apply (Hfar 2); [lia|done]. }
    destruct (Z.ltb_spec (f - t) (2 ^ shift 4)).
    { intros [= <- <-]. apply (Hfar 3); [lia|done]. }
    destruct (Z.ltb_spec (f - t) (2 ^ shift 5)).
    { intros [= <- <-]. apply (Hfar 4); [lia|done]. }
    assert (s64 (f - t) = f - t) as -> by (unfold s64; zcases).
    destruct (Z.ltb_spec (f - t) 0); [lia|]. destruct (Z.ltb_spec 0xffffffff (f - t)).
    + intros [= <- <-]. rewrite (tvn_index 5 _ (0xffffffff + t)); [|lia|].
      * apply placed_far; [lia| |lia|lia]. replace (0xffffffff + t - t) with 0xffffffff by lia.
        vm_compute. done.
      * unfold wrap. by rewrite Z.add_mod_idemp_r by lia.
    + intros [= <- <-]. apply (Hfar 5); [lia|]. split; [done|].
      change (2 ^ (shift 5 + 6)) with (2 ^ 32). lia.
Qed.

(** * Adding and cascading *)

Lemma slot_insert base n i l n' i' :
  slot (set_vec base (<[(n, i) := l]> (vec base))) n' i' =
  if decide ((n, i) = (n', i')) then l else slot base n' i'.
Proof. unfold slot. simpl. rewrite lookup_insert. by case_decide. Qed.

(** Everything but the lists is left alone. *)
Definition same_rest (base base' : tvec_base) : Prop :=
  running_timer base' = running_timer base /\ timer_jiffies base' = timer_jiffies base /\
  work_list base' = work_list base.

Lemma add_slot base x n i y :
  y ∈ slot (internal_add_timer base x) n i <->
  y ∈ slot base n i \/ (y = x /\ timer_vec (timer_jiffies base) (expires x) = (n, i)).
Proof.
  unfold internal_add_timer. destruct (timer_vec _ _) as [tv j] eqn:Hv.
  rewrite slot_insert. case_decide as Heq; simplify_eq.
  - rewrite elem_of_app, list_elem_of_singleton. naive_solver.
  - naive_solver.
Qed.

Lemma add_same base x : same_rest base (internal_add_timer base x).
Proof. unfold internal_add_timer. by destruct (timer_vec _ _). Qed.

Lemma slot_ok_range t lo n i x : slot_ok t lo n i x -> is_u64 (expires x).
Proof.
  intros [(f & [_ ->] & _) | (_ & _ & f & _ & ->)]; by apply wrap_range.
Qed.

Lemma slot_ok_weaken t lo lo' n i x :
  lo' <= lo -> slot_ok t lo n i x -> slot_ok t lo' n i x.
Proof.
  intros Hlo [(f & Hd & Hp) | Ho]; [left|by right]. exists f. split; [done|].
  destruct Hp as [?|(Hn & V & Hi & HV & Hf)]; [by left|right]. split; [done|].
  exists V. split; [done|]. split; [|done].
  pose proof (next_cascade_mono n lo' lo ltac:(unfold shift, TVR_BITS, TVN_BITS; lia) Hlo). lia.
Qed.

Lemma add_slots_ok t lo base x :
  (forall n, lo n <= t + 1) -> is_u64 (expires x) -> slots_ok t lo base ->
  slots_ok t lo (internal_add_timer base x).
Proof.
  intros Hlo Hx [Hj Hs]. destruct (add_same base x) as (_ & Hj' & _).
  split; [congruence|]. intros n i y [Hy|[-> Hv]]%add_slot; [by apply Hs|].
  rewrite Hj in Hv. eapply slot_ok_weaken; [apply Hlo|]. by apply timer_vec_ok.
Qed.

(** Adding the timers of a list. *)
Lemma add_list_ok t lo l base :
  (forall n, lo n <= t + 1) -> Forall (fun x => is_u64 (expires x)) l -> slots_ok t lo base ->
  let base' := foldl internal_add_timer base l in
  slots_ok t lo base' /\ same_rest base base' /\
  (forall y, (exists n i, y ∈ slot base' n i) <-> y ∈ l \/ exists n i, y ∈ slot base n i).
Proof.
  intros Hlo. revert base. induction l as [|x l IH]; intros base Hl Hs; simpl.
  - split; [done|]. split; [by split|]. intros y. rewrite elem_of_nil. naive_solver.
  - apply Forall_cons_iff in Hl as [Hx Hl].
    destruct (IH (internal_add_timer base x)) as (Hs' & Hsame & Hiff);
      [done|by apply add_slots_ok|]. split; [done|].
    destruct (add_same base x) as (? & ? & ?). split.
    { destruct Hsame as (? & ? & ?). unfold same_rest. intuition congruence. }
    intros y. rewrite Hiff, elem_of_cons. setoid_rewrite add_slot.
    destruct (timer_vec (timer_jiffies base) (expires x)) as [n0 i0] eqn:Hv. naive_solver.
Qed.

(** Array [n] is cascaded in the multiples of [2 ^ shift n]. *)
Lemma next_cascade_between t k :
  0 < k -> t mod k <> 0 -> (t - 1) / k + 1 = t / k + 1.
Proof.
  intros Hk Ht. f_equal. pose proof (Z.div_mod t k ltac:(lia)).
  pose proof (Z.mod_pos_bound t k Hk).
  symmetry. apply (Z.div_unique _ _ _ (t mod k - 1)); [lia|lia].
Qed.

Lemma next_cascade_at t k : 0 < k -> t mod k = 0 -> (t - 1) / k + 1 = t / k.
Proof.
  intros Hk Ht. pose proof (Z.div_mod t k ltac:(lia)).
  enough ((t - 1) / k = t / k - 1) by lia.
  symmetry. apply (Z.div_unique _ _ _ (k - 1)); lia.
Qed.

Definition done_upto (t m n : Z) : Z := if n <=? m then t + 1 else t.

Lemma shift_pos n : 2 <= n <= 5 -> 0 < 2 ^ shift n.
Proof. intros. apply Z.pow_pos_nonneg; unfold shift, TVR_BITS, TVN_BITS; lia. Qed.

(** Only the number of the next cascade matters about [lo]. *)
Lemma slots_ok_lo t lo lo' base :
  (forall n, 2 <= n <= 5 -> next_cascade n (lo' n) <= next_cascade n (lo n)) ->
  slots_ok t lo base -> slots_ok t lo' base.
Proof.
  intros Hlo [Hj Hs]. split; [done|]. intros n i x Hx.
  destruct (Hs n i x Hx) as [(f & Hd & Hp) | Ho]; [left|by right]. exists f. split; [done|].
  destruct Hp as [?|(Hn & V & Hi & HV & Hf)]; [by left|right]. split; [done|].
  exists V. split; [done|]. split; [|done]. specialize (Hlo n Hn). lia.
Qed.

(** The arrays that are not cascaded in tick [t] need not be. *)
Lemma skip_ok t m base :
  (forall n, m < n <= 5 -> 2 <= n -> t mod 2 ^ shift n <> 0) ->
  slots_ok t (done_upto t m) base -> slots_ok t (fun _ => t + 1) base.
Proof.
  intros Hm. apply slots_ok_lo. intros n Hn. unfold done_upto.
  destruct (Z.leb_spec n m); [lia|]. unfold next_cascade.
  rewrite (next_cascade_between t) by (apply shift_pos || apply Hm; lia).
  by replace (t + 1 - 1) with t by lia.
Qed.

(** The timers left in array [n] after its list for tick [t] has been emptied. *)
Lemma drained_ok t n i x :
  2 <= n <= 5 -> t mod 2 ^ shift n = 0 -> i <> (t / 2 ^ shift n) mod TVN_SIZE ->
  slot_ok t t n i x -> slot_ok t (t + 1) n i x.
Proof.
  intros Hn Ht Hi [(f & Hd & Hp) | Ho]; [left|by right]. exists f. split; [done|].
  destruct Hp as [?|(_ & V & -> & HV & Hf)]; [by left|right]. split; [done|].
  exists V. split; [done|]. split; [|done]. unfold next_cascade in *.
  rewrite next_cascade_at in HV by (done || by apply shift_pos).
  rewrite (next_cascade_at t) by (done || by apply shift_pos).
  replace (t + 1 - 1) with t by lia.
  assert (V <> t / 2 ^ shift n) by congruence. lia.
Qed.

Lemma cascade_ok t n base :
  2 <= n <= 5 -> t mod 2 ^ shift n = 0 -> slots_ok t (done_upto t (n - 1)) base ->
  exists base', cascade base n (INDEX base (n - 2)) = (base', (t / 2 ^ shift n) mod TVN_SIZE) /\
    slots_ok t (done_upto t n) base' /\ same_rest base base' /\
    (forall y, (exists n i, y ∈ slot base' n i) <-> (exists n i, y ∈ slot base n i)).
Proof.
  intros Hn Ht [Hj Hs].
  assert (INDEX base (n - 2) = (t / 2 ^ shift n) mod TVN_SIZE) as ->
    by (unfold INDEX; by apply tvn_index).
  set (i := (t / 2 ^ shift n) mod TVN_SIZE). unfold cascade, list_replace_init.
  set (base0 := set_vec base (<[(n, i) := []]> (vec base))).
  assert (Hs0 : slots_ok t (done_upto t n) base0).
  { split; [done|]. intros n' i' x Hx. unfold base0 in Hx. rewrite slot_insert in Hx.
    case_decide as Hne; [by apply elem_of_nil in Hx|]. specialize (Hs _ _ _ Hx).
    unfold done_upto in *. destruct (Z.leb_spec n' (n - 1)), (Z.leb_spec n' n); try done; [lia|].
    assert (n' = n) as -> by lia. apply drained_ok; [done|done|intros ->; by apply Hne|done]. }
  destruct (add_list_ok t (done_upto t n) (slot base n i) base0) as (Hs' & Hsame & Hiff);
    [intros n'; unfold done_upto; zcases| |done|].
  { apply list.Forall_forall. intros x Hx. eapply slot_ok_range, Hs, Hx. }
  eexists. split; [done|]. split; [done|]. split; [done|]. intros y. rewrite Hiff.
  unfold base0. setoid_rewrite slot_insert. split.
  - intros [Hy|(n' & i' & Hy)]; [by eauto|]. case_decide; [by apply elem_of_nil in Hy|eauto].
  - intros (n' & i' & Hy). destruct (decide ((n, i) = (n', i'))); simplify_eq; [by left|].
    right. exists n', i'. by rewrite decide_False.
Qed.

(** [t] is a multiple of [2 ^ shift (n + 1)] when it is one of [2 ^ shift n] and the
    index of array [n] is 0. *)
Lemma shift_step t n :
  2 <= n <= 4 -> t mod 2 ^ shift n = 0 ->
  t mod 2 ^ shift (n + 1) = 0 <-> (t / 2 ^ shift n) mod TVN_SIZE = 0.
Proof.
  intros Hn Ht. pose proof (shift_pos n ltac:(lia)) as Hpos.
  replace (shift (n + 1)) with (shift n + TVN_BITS) by (unfold shift; lia).
  rewrite Z.pow_add_r by (unfold shift, TVR_BITS, TVN_BITS; lia). fold TVN_SIZE.
  rewrite Z.rem_mul_r, Ht by (unfold TVN_SIZE, TVN_BITS; lia). nia.
Qed.

(** A multiple of a coarser step is one of a finer step. *)
Lemma shift_mono t n m :
  2 <= n <= m -> m <= 5 -> t mod 2 ^ shift m = 0 -> t mod 2 ^ shift n = 0.
Proof.
  intros Hn Hm Ht. rewrite <- (mod_mod_pow2 t (shift n) (shift m))
    by (unfold shift, TVR_BITS, TVN_BITS; lia). by rewrite Ht, Z.mod_0_l by (pose proof (shift_pos n); lia).
Qed.

Definition same_timers (base base' : tvec_base) : Prop :=
  same_rest base base' /\
  (forall y, (exists n i, y ∈ slot base' n i) <-> (exists n i, y ∈ slot base n i)).

Lemma same_timers_trans b1 b2 b3 : same_timers b1 b2 -> same_timers b2 b3 -> same_timers b1 b3.
Proof.
  intros [(? & ? & ?) H12] [(? & ? & ?) H23]. split.
  - unfold same_rest. intuition congruence.
  - intros y. by rewrite H23, H12.
Qed.

(** Runs the call of [cascade] on array [n] in the goal; [m] is [n - 2]. *)
Tactic Notation "cascade_array" constr(t) constr(n) constr(m) constr(b) ident(b') ident(Hs') ident(Hsame) :=
  let Hc := fresh in let Hr := fresh in let Hl := fresh in
  destruct (cascade_ok t n b) as (b' & Hc & Hs' & Hr & Hl); [lia|eassumption|eassumption|];
  change (n - 2) with m in Hc; rewrite Hc; clear Hc;
  eassert (Hsame : same_timers _ b') by (eapply same_timers_trans; [eassumption|split; eassumption]);
  clear Hr Hl.

Lemma same_timers_refl base : same_timers base base.
Proof. by repeat split. Qed.

Lemma cascade_all_ok t base :
  t mod TVR_SIZE = 0 -> slots_ok t (fun _ => t) base ->
  slots_ok t (fun _ => t + 1) (cascade_all base) /\ same_timers base (cascade_all base).
Proof.
  intros Ht Hs. unfold cascade_all. change TVR_SIZE with (2 ^ shift 2) in Ht.
  assert (Hs1 : slots_ok t (done_upto t 1) base).
  { eapply slots_ok_lo, Hs. intros n Hn. unfold done_upto. zcases. }
  assert (Hend : forall n b, 2 <= n <= 4 -> t mod 2 ^ shift n = 0 ->
    (t / 2 ^ shift n) mod TVN_SIZE <> 0 -> slots_ok t (done_upto t n) b ->
    slots_ok t (fun _ => t + 1) b).
  { intros n b Hn Htn Hi Hb. eapply skip_ok, Hb. intros m Hm _ Hm0.
    apply Hi, shift_step, (shift_mono t (n + 1) m); (done || lia). }
  pose proof (same_timers_refl base).
  cascade_array t 2 0 base b2 Hs2 Hsame2.
  destruct (Z.eqb_spec ((t / 2 ^ shift 2) mod TVN_SIZE) 0) as [H2|H2];
    [|split; [apply (Hend 2); (assumption || lia)|assumption]]. apply (shift_step t 2) in H2; [cbv [negb]|lia|assumption].
  cascade_array t 3 1 b2 b3 Hs3 Hsame3.
  destruct (Z.eqb_spec ((t / 2 ^ shift 3) mod TVN_SIZE) 0) as [H3|H3];
    [|split; [apply (Hend 3); (assumption || lia)|assumption]]. apply (shift_step t 3) in H3; [cbv [negb]|lia|assumption].
  cascade_array t 4 2 b3 b4 Hs4 Hsame4.
  destruct (Z.eqb_spec ((t / 2 ^ shift 4) mod TVN_SIZE) 0) as [H4|H4];
    [|split; [apply (Hend 4); (assumption || lia)|assumption]]. apply (shift_step t 4) in H4; [cbv [negb]|lia|assumption].
  cascade_array t 5 3 b4 b5 Hs5 Hsame5.
  split; [|assumption]. eapply skip_ok, Hs5. lia.
Qed.

(** * One tick *)

(** The timers that must run in tick [t], and those that must not. *)
Definition due_now (t : Z) (x : timer_list) : Prop := expires x = u64 t \/ overdue t x.
Definition later (t : Z) (x : timer_list) : Prop :=
  exists f, t < f < t + 2 ^ 63 /\ expires x = u64 f.

Lemma now_not_later t x : due_now t x -> later t x -> False.
Proof.
  intros Hnow (f & Hf & Hx).
  assert (exists g, t - 2 ^ 63 <= g <= t /\ expires x = u64 g) as (g & Hg & Hx').
  { destruct Hnow as [?|(g & ? & ?)]; [exists t|exists g]; (split; [lia|done]). }
  rewrite Hx in Hx'. apply u64_inj in Hx'; lia.
Qed.

Lemma before_tick t base :
  slots_ok t (fun _ => t) base ->
  let b := if Z.land (timer_jiffies base) TVR_MASK =? 0 then cascade_all base else base in
  slots_ok t (fun _ => t + 1) b /\ same_timers base b.
Proof.
  intros Hs. rewrite (tv1_index _ t) by apply Hs.
  destruct (Z.eqb_spec (t mod TVR_SIZE) 0) as [Ht|Ht]; [by apply cascade_all_ok|].
  split; [|apply same_timers_refl]. apply (skip_ok t 1).
  - intros n Hn Hn2 Hn0. apply Ht. change TVR_SIZE with (2 ^ shift 2).
    by apply (shift_mono t 2 n); [lia|lia|].
  - eapply slots_ok_lo, Hs. intros n Hn. unfold done_upto. zcases.
Qed.

(** The list taken out in tick [t] holds exactly the timers to run. *)
Lemma slot_now t x : slot_ok t (t + 1) 1 (t mod TVR_SIZE) x -> due_now t x.
Proof.
  intros [(f & [Hf Hx] & Hp) | (_ & _ & Ho)]; [left|by right].
  destruct Hp as [(_ & Hi & Hr)|[? _]]; [|lia].
  enough (f = t) by congruence. unfold TVR_SIZE, TVR_BITS in *.
  pose proof (Z.div_mod t (2 ^ 8) ltac:(lia)). pose proof (Z.div_mod f (2 ^ 8) ltac:(lia)).
  assert (- 1 < f / 2 ^ 8 - t / 2 ^ 8 < 1) by nia. nia.
Qed.

Lemma slot_later t n i x :
  slot_ok t (t + 1) n i x -> (n, i) <> (1, t mod TVR_SIZE) ->
  later t x /\ normal (t + 1) (t + 1) n i x.
Proof.
  intros [(f & [Hf Hx] & Hp) | (-> & -> & _)] Hne; [|done].
  assert (Hlt : t < f).
  { destruct Hp as [(-> & -> & Hr) | (Hn & V & _ & HV & HVf)].
    - destruct (Z.eq_dec f t) as [->|]; [done|lia].
    - pose proof (shift_pos n Hn) as Hpos. unfold next_cascade in HV.
      replace (t + 1 - 1) with t in HV by lia.
      pose proof (Z.div_mod t (2 ^ shift n) ltac:(lia)).
      pose proof (Z.mod_pos_bound t (2 ^ shift n) Hpos). nia. }
  split; [exists f; split; [lia|done]|]. exists f. split; [split; [lia|done]|].
  destruct Hp as [(-> & -> & Hr) | (Hn & V & Hi & HV & HVf)]; [left; lia|right].
  split; [done|]. exists V. split; [done|]. split; [|done]. split; [lia|].
  pose proof (next_cascade_mono n t (t + 1) ltac:(unfold shift, TVR_BITS, TVN_BITS; lia)). lia.
Qed.

(** * Calls on the base *)

Lemma detach_slot base id n i y :
  y ∈ slot (detach_timer base id) n i <-> y ∈ slot base n i /\ timer_id y <> id.
Proof.
  unfold slot. simpl. rewrite lookup_fmap. destruct (vec base !! (n, i)) as [l|]; simpl.
  - rewrite list_elem_of_filter. unfold not_timer. naive_solver.
  - rewrite elem_of_nil. naive_solver.
Qed.

Lemma detach_pending_iff base id y :
  pending (detach_timer base id) y <-> pending base y /\ timer_id y <> id.
Proof.
  unfold pending. setoid_rewrite detach_slot. simpl. rewrite list_elem_of_filter.
  unfold not_timer. naive_solver.
Qed.

Lemma pending_concat base y :
  y ∈ work_list base ++ concat (snd <$> map_to_list (vec base)) <-> pending base y.
Proof.
  rewrite elem_of_app. unfold pending. apply or_iff_compat_l.
  rewrite list_elem_of_In, in_concat. setoid_rewrite <- list_elem_of_In. split.
  - intros (l & Hl & Hy). apply list_elem_of_fmap in Hl as ([[n i] l'] & -> & Hl).
    apply elem_of_map_to_list in Hl. exists n, i. unfold slot. by rewrite Hl.
  - intros (n & i & Hy). unfold slot in Hy. destruct (vec base !! (n, i)) as [l|] eqn:Hl;
      [|by apply elem_of_nil in Hy].
    exists l. split; [|done]. apply list_elem_of_fmap. exists ((n, i), l).
    split; [done|]. by apply elem_of_map_to_list.
Qed.

Lemma timer_pending_Some base id y :
  timer_pending base id = Some y -> pending base y /\ timer_id y = id.
Proof.
  unfold timer_pending. destruct (list_find _ _) as [[k z]|] eqn:Hf; simpl; [|done].
  intros [= <-]. apply list_find_Some in Hf as (Hk & Hid & _).
  split; [|done]. apply pending_concat. by eapply list_elem_of_lookup_2.
Qed.

Lemma timer_pending_None base id y :
  timer_pending base id = None -> pending base y -> timer_id y <> id.
Proof.
  unfold timer_pending. destruct (list_find _ _) as [[k z]|] eqn:Hf; simpl; [done|].
  intros _ Hy%pending_concat. apply list_find_None in Hf. rewrite list.Forall_forall in Hf. by apply Hf.
Qed.

(** What calls that name only timers in [ids] do to the base: they put nothing into
    the work list, and leave the other timers where they are looked for. *)
Record evolves (ids : positive -> Prop) (base base' : tvec_base) : Prop := {
  ev_work : work_list base' `sublist_of` work_list base;
  ev_keep_work : forall x, ~ ids (timer_id x) -> x ∈ work_list base -> x ∈ work_list base';
  ev_keep : forall x, ~ ids (timer_id x) -> (exists n i, x ∈ slot base n i) ->
    exists n i, x ∈ slot base' n i
}.

Lemma evolves_refl ids base : evolves ids base base.
Proof. by split. Qed.

Lemma evolves_trans ids b1 b2 b3 : evolves ids b1 b2 -> evolves ids b2 b3 -> evolves ids b1 b3.
Proof. intros [H1 H2 H3] [H4 H5 H6]. split; [by etrans|eauto|eauto]. Qed.

Lemma evolves_mono (ids ids' : positive -> Prop) b b' :
  (forall i, ids i -> ids' i) -> evolves ids b b' -> evolves ids' b b'.
Proof. intros Hi [H1 H2 H3]. split; [done|eauto|eauto]. Qed.

(** [next_timer] does not matter to the wheel. *)
Lemma wheel_ok_next t base j : wheel_ok t base -> wheel_ok t (set_next_timer base j).
Proof. done. Qed.

Lemma evolves_next_l ids base base' j : evolves ids (set_next_timer base j) base' -> evolves ids base base'.
Proof. intros [H1 H2 H3]. split; [exact H1|exact H2|exact H3]. Qed.

Lemma evolves_next_r ids base base' j : evolves ids base base' -> evolves ids base (set_next_timer base' j).
Proof. intros [H1 H2 H3]. split; [exact H1|exact H2|exact H3]. Qed.

Lemma detach_ok t base id :
  wheel_ok t base ->
  wheel_ok t (detach_timer base id) /\ evolves (fun i => i = id) base (detach_timer base id).
Proof.
  intros [[Hj Hs] Hu]. split; [split; [split|]|split].
  - done.
  - intros n i x [Hx _]%detach_slot. by apply Hs.
  - intros x y [Hx _]%detach_pending_iff [Hy _]%detach_pending_iff. by apply Hu.
  - apply sublist_filter.
  - intros x Hx. simpl. rewrite list_elem_of_filter. naive_solver.
  - intros x Hx. setoid_rewrite detach_slot. naive_solver.
Qed.

Lemma detach_pending_ok t base x :
  wheel_ok t base ->
  wheel_ok t (detach_pending base x) /\ evolves (fun i => i = timer_id x) base (detach_pending base x) /\
  (forall y, pending (detach_pending base x) y -> timer_id y <> timer_id x).
Proof.
  intros Hw. destruct (detach_ok t base (timer_id x) Hw) as [Hw' He].
  assert (Hn : forall y, pending (detach_timer base (timer_id x)) y -> timer_id y <> timer_id x)
    by (intros y; by rewrite detach_pending_iff; intros []).
  unfold detach_pending. destruct (_ && _); [|by split_and!].
  split_and!; [by apply wheel_ok_next|by apply evolves_next_r|exact Hn].
Qed.

(** Adding a timer that is in no list. *)
Lemma add_ok t base x :
  is_u64 (expires x) -> wheel_ok t base -> (forall y, pending base y -> timer_id y <> timer_id x) ->
  wheel_ok t (internal_add_timer base x) /\
  evolves (fun i => i = timer_id x) base (internal_add_timer base x).
Proof.
  intros Hx [Hs Hu] Hn. destruct (add_same base x) as (_ & _ & Hwork). split; [split|split].
  - apply add_slots_ok; [intros; lia|done|done].
  - assert (Hp : forall y, pending (internal_add_timer base x) y -> pending base y \/ y = x).
    { unfold pending. rewrite Hwork. setoid_rewrite add_slot. naive_solver. }
    intros y z [Hy| ->]%Hp [Hz| ->]%Hp Hid; [by apply Hu|by apply Hn in Hy|by apply Hn in Hz|done].
  - by rewrite Hwork.
  - intros y _. by rewrite Hwork.
  - intros y _. setoid_rewrite add_slot. naive_solver.
Qed.

(** The last step of [__mod_timer], with the update of [next_timer]. *)
Lemma arm_ok t base x (c : bool) e :
  is_u64 (expires x) -> wheel_ok t base -> (forall y, pending base y -> timer_id y <> timer_id x) ->
  let base' := internal_add_timer (if c then set_next_timer base e else base) x in
  wheel_ok t base' /\ evolves (fun i => i = timer_id x) base base'.
Proof.
  intros Hx Hw Hn. destruct c; [|by apply add_ok].
  destruct (add_ok t (set_next_timer base e) x) as [? He]; [done|done|done|].
  split; [done|]. by eapply evolves_next_l.
Qed.

Lemma __mod_timer_ok t base x e b :
  is_u64 e -> wheel_ok t base ->
  let base' := fst (__mod_timer base x e b) in
  wheel_ok t base' /\ evolves (fun i => i = timer_id x) base base'.
Proof.
  intros He Hw. unfold __mod_timer. destruct (timer_pending base (timer_id x)) as [old|] eqn:Hp.
  - apply timer_pending_Some in Hp as [_ Hid].
    destruct (detach_pending_ok t base old Hw) as (Hw' & Hev & Hn). rewrite Hid in *.
    edestruct (arm_ok t (detach_pending base old) (Timer (timer_id x) e (deferrable x)))
      as [Hw2 Hev2]; [done|done|done|].
    split; [exact Hw2|]. eapply evolves_trans; [exact Hev|exact Hev2].
  - destruct b; [split; [done|apply evolves_refl]|].
    apply (arm_ok t base (Timer (timer_id x) e (deferrable x))); [done|done|].
    intros y. by apply timer_pending_None.
Qed.

Lemma del_timer_ok t base id :
  wheel_ok t base ->
  let base' := fst (del_timer base id) in wheel_ok t base' /\ evolves (fun i => i = id) base base'.
Proof.
  intros Hw. unfold del_timer. destruct (timer_pending base id) as [old|] eqn:Hp.
  - apply timer_pending_Some in Hp as [_ <-]. by destruct (detach_pending_ok t base old Hw) as (? & ? & _).
  - split; [done|apply evolves_refl].
Qed.

(** The new [expires] of a call is an [unsigned long]. *)
Definition action_ok (a : action) : Prop :=
  match a with ModTimer _ e | ModTimerPending _ e => is_u64 e | _ => True end.

Lemma act_ok t base a :
  action_ok a -> wheel_ok t base ->
  wheel_ok t (act base a) /\ evolves (fun i => i = action_timer a) base (act base a).
Proof.
  intros Ha Hw. destruct a as [x e|x e|id|id]; simpl in *.
  - unfold mod_timer. destruct (timer_pending _ _) as [old|]; [destruct (_ =? _)|].
    + split; [done|apply evolves_refl].
    + by apply __mod_timer_ok.
    + by apply __mod_timer_ok.
  - by apply __mod_timer_ok.
  - by apply del_timer_ok.
  - unfold try_to_del_timer_sync. case_decide; [split; [done|apply evolves_refl]|by apply del_timer_ok].
Qed.

Definition named (l : list action) (id : positive) : Prop := id ∈ action_timer <$> l.

Lemma acts_ok t l base :
  Forall action_ok l -> wheel_ok t base ->
  wheel_ok t (foldl act base l) /\ evolves (named l) base (foldl act base l).
Proof.
  revert base. induction l as [|a l IH]; intros base Hl Hw; simpl; [split; [done|apply evolves_refl]|].
  apply Forall_cons_iff in Hl as [Ha Hl]. destruct (act_ok t base a Ha Hw) as [Hw1 He1].
  destruct (IH (act base a) Hl Hw1) as [Hw2 He2]. split; [done|].
  eapply evolves_trans; (eapply evolves_mono; [|eassumption]); unfold named; simpl.
  - intros i ->. constructor.
  - intros i ?. by constructor.
Qed.

Section run_ok.
Context (fn : tvec_base -> timer_list -> list action).
Context (fn_ok : forall base x, Forall action_ok (fn base x)).

(** Some call made while one of the timers [ran] was running names this timer. *)
Definition touched (ran : list timer_list) (id : positive) : Prop :=
  exists base y, y ∈ ran /\ named (fn base y) id.

Lemma touched_mono ran ran' id : (forall y, y ∈ ran -> y ∈ ran') -> touched ran id -> touched ran' id.
Proof. intros Hsub (b & y & Hy & Hn). exists b, y. eauto. Qed.

(** One timer of the work list. *)
Lemma run_one t base y rest :
  wheel_ok t base -> work_list base = y :: rest ->
  let b := detach_timer (set_running_timer base (Some (timer_id y))) (timer_id y) in
  let base' := foldl act b (fn b y) in
  wheel_ok t base' /\ (length (work_list base') < length (work_list base))%nat /\
  (forall x, x ∈ work_list base' -> x ∈ work_list base) /\
  (forall x, x ∈ work_list base -> x = y \/ touched [y] (timer_id x) \/ x ∈ work_list base') /\
  (forall x, (exists n i, x ∈ slot base n i) ->
     x = y \/ touched [y] (timer_id x) \/ exists n i, x ∈ slot base' n i).
Proof.
  intros Hw Hy b base'.
  destruct (detach_ok t (set_running_timer base (Some (timer_id y))) (timer_id y)) as [Hw1 He1];
    [done|]. fold b in Hw1, He1.
  destruct (acts_ok t (fn b y) b (fn_ok b y) Hw1) as [Hw2 He2]. fold base' in Hw2, He2.
  assert (Hsame : forall x, pending base x -> timer_id x = timer_id y -> x = y).
  { intros x Hx. apply Hw; [done|]. left. rewrite Hy. constructor. }
  assert (Ht : forall x, named (fn b y) (timer_id x) -> touched [y] (timer_id x))
    by (intros x Hn; exists b, y; split; [constructor|done]).
  split; [done|]. split_and!.
  - pose proof (sublist_length _ _ (ev_work _ _ _ He2)) as Hl2. eapply Nat.le_lt_trans; [exact Hl2|].
    unfold b. simpl. rewrite Hy, filter_cons_False by (unfold not_timer; auto). simpl.
    pose proof (length_filter (not_timer (timer_id y)) rest). lia.
  - intros x Hx. eapply (elem_of_sublist _ _ _) in Hx; [|apply (ev_work _ _ _ He2)].
    by eapply elem_of_sublist in Hx; [|apply (ev_work _ _ _ He1)].
  - intros x Hx. destruct (decide (timer_id x = timer_id y)); [left; apply Hsame; [by left|done]|right].
    destruct (decide (timer_id x ∈ action_timer <$> fn b y)); [left; by apply Ht|right].
    apply He2, He1; done.
  - intros x Hx. destruct (decide (timer_id x = timer_id y)); [left; apply Hsame; [by right|done]|right].
    destruct (decide (timer_id x ∈ action_timer <$> fn b y)); [left; by apply Ht|right].
    apply He2, He1; done.
Qed.

(** The whole work list runs, except for timers that are taken out of it before
    their turn. *)
Lemma run_work_list_ok t base fuel :
  wheel_ok t base -> (length (work_list base) < fuel)%nat ->
  exists base' ran, run_work_list fn fuel base = Some (base', ran) /\ wheel_ok t base' /\
    work_list base' = [] /\ (forall x, x ∈ ran -> x ∈ work_list base) /\
    (forall x, x ∈ work_list base -> x ∈ ran \/ touched ran (timer_id x)) /\
    (forall x, (exists n i, x ∈ slot base n i) ->
       x ∈ ran \/ touched ran (timer_id x) \/ exists n i, x ∈ slot base' n i).
Proof.
  intros Hw Hf. unfold run_work_list.
  match goal with |- context [loop fuel ?step _] =>
    destruct (loop_total step
      (fun '(b, ran) => wheel_ok t b /\ (forall x, x ∈ work_list b -> x ∈ work_list base) /\
         (forall x, x ∈ ran -> x ∈ work_list base) /\
         (forall x, x ∈ work_list base -> x ∈ ran \/ touched ran (timer_id x) \/ x ∈ work_list b) /\
         (forall x, (exists n i, x ∈ slot base n i) ->
            x ∈ ran \/ touched ran (timer_id x) \/ exists n i, x ∈ slot b n i))
      (fun '(base', ran) => wheel_ok t base' /\
         work_list base' = [] /\ (forall x, x ∈ ran -> x ∈ work_list base) /\
         (forall x, x ∈ work_list base -> x ∈ ran \/ touched ran (timer_id x)) /\
         (forall x, (exists n i, x ∈ slot base n i) ->
            x ∈ ran \/ touched ran (timer_id x) \/ exists n i, x ∈ slot base' n i))
      (fun '(b, _) => length (work_list b))) with (fuel := fuel) (s := (base, @nil timer_list))
      as ([base' ran] & -> & Hpost) end; [| |exact Hf|by eauto].
  - intros [b ran] (Hwb & Hsub & Hran & Hwork & Hslots).
    destruct (work_list b) as [|y rest] eqn:Hy.
    + eexists. split; [done|]. split_and!; [done|done|done| |done].
      intros x Hx. destruct (Hwork x Hx) as [?|[?|Hn]]; [by left|by right|by apply elem_of_nil in Hn].
    + eexists. split; [done|]. destruct (run_one t b y rest Hwb Hy) as (H1 & H2 & H3 & H4 & H5).
      rewrite Hy in *.
      assert (Hl : forall x, x ∈ ran -> x ∈ ran ++ [y]) by (intros; apply elem_of_app; by left).
      assert (Hr : forall x, x ∈ [y] -> x ∈ ran ++ [y]) by (intros; apply elem_of_app; by right).
      split; [|exact H2]. split_and!; [done|by intros x Hx%H3; apply Hsub| | |].
      * intros x [?|Hx]%elem_of_app; [by apply Hran|].
        apply list_elem_of_singleton in Hx as ->. apply Hsub. constructor.
      * intros x Hx. destruct (Hwork x Hx) as [?|[?|Hx']]; [auto|eauto using touched_mono|].
        destruct (H4 x Hx') as [->|[?|?]]; [left; apply Hr; constructor|eauto using touched_mono|auto].
      * intros x Hx. destruct (Hslots x Hx) as [?|[?|Hx']]; [auto|eauto using touched_mono|].
        destruct (H5 x Hx') as [->|[?|?]]; [left; apply Hr; constructor|eauto using touched_mono|auto].
  - split_and!; auto. intros x Hx. by apply elem_of_nil in Hx.
Qed.

Lemma same_pending base base' : same_timers base base' -> forall x, pending base' x <-> pending base x.
Proof. intros [(_ & _ & Hw) Hl] x. unfold pending. by rewrite Hw, Hl. Qed.

(** Between the cascades and the first timer function. *)
Lemma tick_start t base b :
  slots_ok t (fun _ => t + 1) b -> same_timers base b -> single base -> work_list base = [] ->
  let index := t mod TVR_SIZE in
  let b' := set_work_list (snd (list_replace_init (set_timer_jiffies b (u64 (t + 1))) 1 index))
    (slot b 1 index) in
  wheel_ok (t + 1) b' /\ (forall x, pending b' x <-> pending base x) /\
  (forall x, x ∈ work_list b' -> due_now t x) /\
  (forall x, (exists n i, x ∈ slot b' n i) -> later t x).
Proof.
  intros Hs Hsame Hu Hwork index b'.
  assert (Hslot : forall n i x, x ∈ slot b' n i <-> x ∈ slot b n i /\ (n, i) <> (1, index)).
  { intros n i x. change (slot b' n i) with (slot (set_vec b (<[(1, index) := []]> (vec b))) n i).
    rewrite slot_insert. case_decide; [|naive_solver]. rewrite elem_of_nil. naive_solver. }
  assert (Hlater : forall n i x, x ∈ slot b' n i -> later t x /\ normal (t + 1) (t + 1) n i x).
  { intros n i x [Hx Hne]%Hslot. apply slot_later; [by apply Hs|done]. }
  assert (Hp : forall x, pending b' x <-> pending base x).
  { intros x. rewrite <- (same_pending _ _ Hsame). destruct Hsame as [(_ & _ & Hw) _].
    unfold pending. rewrite Hw, Hwork, elem_of_nil. setoid_rewrite Hslot. simpl. split.
    - intros [?|(n & i & ? & _)]; right; eauto.
    - intros [[]|(n & i & Hx)]. destruct (decide ((n, i) = (1, index))); simplify_eq; [by left|right].
      eauto. }
  split; [split; [split|]|split_and!].
  - done.
  - intros n i x Hx. left. by apply (Hlater n i x).
  - intros x y. rewrite !Hp. apply Hu.
  - done.
  - intros x Hx. apply slot_now, Hs, Hx.
  - intros x (n & i & Hx). by apply (Hlater n i x).
Qed.

Lemma run_tick_ok t base :
  wheel_ok t base -> work_list base = [] ->
  exists base' ran, run_tick fn base = Some (base', ran) /\ wheel_ok (t + 1) base' /\
    work_list base' = [] /\ (forall x, x ∈ ran -> pending base x /\ due_now t x) /\
    (forall x, pending base x -> due_now t x -> x ∈ ran \/ touched ran (timer_id x)) /\
    (forall x, pending base x -> later t x -> pending base' x \/ touched ran (timer_id x)).
Proof.
  intros [Hs Hu] Hwork. unfold run_tick.
  destruct (before_tick t base Hs) as [Hs' Hsame]. rewrite (tv1_index _ t) in * by apply Hs.
  set (b := if _ =? 0 then _ else _) in *.
  assert (u64 (timer_jiffies b + 1) = u64 (t + 1)) as ->.
  { destruct Hsame as [(_ & -> & _) _]. rewrite (proj1 Hs). unfold wrap.
    by rewrite Z.add_mod_idemp_l by lia. }
  destruct (tick_start t base b Hs' Hsame Hu Hwork) as (Hw & Hp & Hnow & Hlater).
  simpl in Hw, Hp, Hnow, Hlater |- *. set (b' := set_work_list _ _) in *.
  destruct (run_work_list_ok (t + 1) b' (S (length (slot b 1 (t mod TVR_SIZE)))) Hw)
    as (base' & ran & Hrun & Hw' & Hemp & Hran & Hall & Hkeep); [simpl; lia|].
  exists base', ran. split; [exact Hrun|]. split_and!; [done|done| | |].
  - intros x Hx%Hran. split; [apply Hp; by left|by apply Hnow].
  - intros x [Hx|Hx]%Hp Hdue; [by apply Hall|].
    exfalso. by eapply now_not_later; [|apply Hlater].
  - intros x [Hx|Hx]%Hp Hlat; [exfalso; by eapply now_not_later; [apply Hnow|]|].
    destruct (Hkeep x Hx) as [Hx'|[?|?]]; [|by right|left; by right].
    exfalso. by eapply now_not_later; [apply Hnow, Hran|].
Qed.

(** The tick a timer runs in, seen from tick [t]. *)
Definition runs_in (t f : Z) (x : timer_list) : Prop :=
  (t <= f < t + 2 ^ 63 /\ expires x = u64 f) \/ (f = t /\ overdue t x).

(** The state of [__run_timers] before tick [k], when it started at tick [t] with
    [base]. *)
Definition progress (t : Z) (base : tvec_base) (k : Z) (s : tvec_base * list (Z * timer_list)) : Prop :=
  let '(b, log) := s in
  wheel_ok k b /\ work_list b = [] /\
  (forall tick x, (tick, x) ∈ log -> exists k', t <= k' < k /\ tick = u64 k' /\ due_now k' x) /\
  (forall x f, pending base x -> runs_in t f x ->
     touched (snd <$> log) (timer_id x) \/ if f <? k then (u64 f, x) ∈ log else pending b x).

Lemma progress_step t base k b log :
  t <= k -> progress t base k (b, log) ->
  exists b' ran, run_tick fn b = Some (b', ran) /\ timer_jiffies b = u64 k /\
    progress t base (k + 1) (b', log ++ ((fun x => (timer_jiffies b, x)) <$> ran)).
Proof.
  intros Hk (Hw & Hwork & Hlog & Hall).
  destruct (run_tick_ok k b Hw Hwork) as (b' & ran & Hrun & Hw' & Hwork' & Hran & Hnow & Hlat).
  exists b', ran. pose proof (proj1 (proj1 Hw)) as Hj. rewrite Hj. split; [done|]. split; [done|]. do 2 (split; [done|]). split.
  - intros tick x [Hx|Hx]%elem_of_app.
    + destruct (Hlog _ _ Hx) as (k' & ? & ? & ?). exists k'. split; [lia|done].
    + apply list_elem_of_fmap in Hx as (y & [= -> ->] & Hy). exists k. split; [lia|].
      split; [done|]. by apply Hran.
  - intros x f Hx Hf. rewrite fmap_app, <- list_fmap_compose. unfold compose. simpl. rewrite list_fmap_id.
    assert (Hl : touched ran (timer_id x) -> touched ((snd <$> log) ++ ran) (timer_id x))
      by (apply touched_mono; intros; apply elem_of_app; by right).
    destruct (Hall x f Hx Hf) as [Ht|Hin].
    { left. eapply touched_mono, Ht. intros. apply elem_of_app. by left. }
    destruct (Z.ltb_spec f k); [right; zcases; apply elem_of_app; by left|].
    destruct (Z.ltb_spec f (k + 1)).
    + assert (f = k) as -> by lia. destruct (Hnow x Hin) as [?|?]; [|right|left; auto].
      * destruct Hf as [[_ ?]|[-> ?]]; [by left|by right].
      * apply elem_of_app. right. apply list_elem_of_fmap. eauto.
    + destruct (Hlat x Hin) as [?|?]; [|by right|left; auto].
      destruct Hf as [[? ?]|[-> ?]]; [|lia]. exists f. split; [lia|done].
Qed.
End run_ok.

(** C4 The timer wheel is exact. Let the wheel be in order before tick [t] and let
    [jiffies] be up to [2 ^ 63] ticks further. Whatever calls the timer functions
    make, [__run_timers] ends with the wheel in order for the tick after [jiffies].
    Every timer it runs is due in the tick it runs in, or was armed with a time in
    the past. Every timer that hung in the wheel and is due in a tick up to
    [jiffies] runs in precisely that tick, an overdue one in the first, and one due
    later is still there, unless a timer function that ran named it in a call. *)
Theorem timer_wheel_exact fn t J base fuel :
  (forall b x, Forall action_ok (fn b x)) ->
  wheel_ok t base -> work_list base = [] -> t - 1 <= J < t + 2 ^ 63 ->
  (Z.to_nat (J - t + 1) < fuel)%nat ->
  exists base' log, __run_timers fn fuel base (u64 J) = Some (base', log) /\
    wheel_ok (J + 1) base' /\ work_list base' = [] /\ running_timer base' = None /\
    (forall tick x, (tick, x) ∈ log -> exists k, t <= k <= J /\ tick = u64 k /\ due_now k x) /\
    (forall x f, pending base x -> t <= f <= J -> expires x = u64 f ->
       (u64 f, x) ∈ log \/ touched fn (snd <$> log) (timer_id x)) /\
    (forall x, pending base x -> overdue t x -> t <= J ->
       (u64 t, x) ∈ log \/ touched fn (snd <$> log) (timer_id x)) /\
    (forall x f, pending base x -> J < f < t + 2 ^ 63 -> expires x = u64 f ->
       pending base' x \/ touched fn (snd <$> log) (timer_id x)).
Proof.
  intros Hfn Hw Hwork HJ Hfuel. unfold __run_timers.
  match goal with |- context [loop fuel ?step _] =>
    destruct (loop_total step
      (fun s => exists k, t <= k <= J + 1 /\ progress fn t base k s)
      (fun s => running_timer s.1 = None /\ progress fn t base (J + 1) s)
      (fun s => Z.to_nat (u64 (J + 1 - timer_jiffies s.1)))) with (fuel := fuel)
      (s := (base, @nil (Z * timer_list))) as ([base' log] & -> & Hrun & Hpost) end.
  - intros [b log] (k & Hk & Hp). pose proof (proj1 (proj1 (proj1 Hp))) as Hj. unfold time_after_eq.
    rewrite Hj, u64_sub, s64_u64 by lia. destruct (Z.leb_spec 0 (J - k)).
    + destruct (progress_step fn Hfn t base k b log) as (b' & ran & Hr & _ & Hp'); [lia|done|].
      rewrite Hr. simpl. rewrite Hj in Hp'. eexists. split; [done|]. split; [exists (k + 1); split; [lia|done]|].
      pose proof (proj1 (proj1 (proj1 Hp'))) as Hj'. simpl. rewrite Hj, Hj'. unfold wrap.
      rewrite !Zminus_mod_idemp_r. rewrite !Z.mod_small by lia. lia.
    + assert (k = J + 1) as -> by lia. eexists. split; [done|]. split; [done|exact Hp].
  - exists t. split; [lia|]. do 2 (split; [done|]). split.
    + intros tick x Hx. by apply elem_of_nil in Hx.
    + intros x f Hx Hf. right. destruct Hf as [[? _]|[-> _]]; zcases.
  - pose proof (proj1 (proj1 Hw)) as Hj. simpl. rewrite Hj. unfold wrap.
    rewrite Zminus_mod_idemp_r, Z.mod_small by lia. lia.
  - destruct Hpost as (Hw' & Hwork' & Hlog & Hall). exists base', log. split_and!; try done.
    + intros tick x (k & ? & ? & ?)%Hlog. exists k. split; [lia|done].
    + intros x f Hx Hf Hex. destruct (Hall x f Hx) as [?|Hin]; [left; split; [lia|done]|by right|left].
      destruct (Z.ltb_spec f (J + 1)); [done|lia].
    + intros x Hx Ho Ht. destruct (Hall x t Hx) as [?|Hin]; [by right|by right|left].
      destruct (Z.ltb_spec t (J + 1)); [done|lia].
    + intros x f Hx Hf Hex. destruct (Hall x f Hx) as [?|Hin]; [left; split; [lia|done]|by right|left].
      destruct (Z.ltb_spec f (J + 1)); [lia|done].
Qed.

(** * The calls *)

Lemma next_pending base j y : pending (set_next_timer base j) y <-> pending base y.
Proof. done. Qed.

Lemma detached_pending base x y :
  pending (detach_pending base x) y <-> pending base y /\ timer_id y <> timer_id x.
Proof.
  unfold detach_pending. destruct (_ && _); [rewrite next_pending|]; apply detach_pending_iff.
Qed.

Lemma added_pending base x y : pending (internal_add_timer base x) y <-> y = x \/ pending base y.
Proof.
  unfold pending. destruct (add_same base x) as (_ & _ & ->). setoid_rewrite add_slot.
  destruct (timer_vec (timer_jiffies base) (expires x)) as [n i] eqn:Hv. naive_solver.
Qed.

(** The timers pending after [__mod_timer] has armed the timer. *)
Lemma __mod_timer_pending base x e b r y :
  __mod_timer base x e b = r -> b = false \/ is_Some (timer_pending base (timer_id x)) ->
  pending r.1 y <->
  y = Timer (timer_id x) e (deferrable x) \/ (pending base y /\ timer_id y <> timer_id x).
Proof.
  intros <- Hb. unfold __mod_timer. destruct (timer_pending base (timer_id x)) as [old|] eqn:Hp.
  - apply timer_pending_Some in Hp as [_ Hid]. simpl. rewrite added_pending.
    destruct (_ && _); rewrite ?next_pending, detached_pending, Hid; done.
  - destruct Hb as [->|[? [=]]]. simpl. rewrite added_pending.
    assert (pending base y <-> pending base y /\ timer_id y <> timer_id x)
      by (split; [intros; split; [done|by eapply timer_pending_None]|by intros []]).
    destruct (_ && _); rewrite ?next_pending; tauto.
Qed.

(** The set of pending timers after [x] has been armed for [e]. *)
Definition armed (base : tvec_base) (x : timer_list) (e : Z) (base' : tvec_base) : Prop :=
  forall y, pending base' y <->
    y = Timer (timer_id x) e (deferrable x) \/ (pending base y /\ timer_id y <> timer_id x).

Lemma mod_timer_armed base x e :
  single base -> (forall y, pending base y -> timer_id y = timer_id x -> deferrable y = deferrable x) ->
  armed base x e (mod_timer base x e).1.
Proof.
  intros Hu Hd y. unfold mod_timer. destruct (timer_pending base (timer_id x)) as [old|] eqn:Hp;
    [|eapply __mod_timer_pending; [done|by left]].
  destruct (Z.eqb_spec (expires old) e); [|eapply __mod_timer_pending; [done|by left]].
  apply timer_pending_Some in Hp as [Hold Hid]. simpl.
  assert (Timer (timer_id x) e (deferrable x) = old) as ->.
  { destruct old as [oid oe od]. simpl in *. subst. f_equal. symmetry. by apply (Hd _ Hold). }
  split.
  - intros Hy. destruct (decide (timer_id y = timer_id x)); [left|by right].
    apply Hu; [done|done|congruence].
  - by intros [->|[? _]].
Qed.

Lemma del_timer_pending base id y :
  pending (del_timer base id).1 y <-> pending base y /\ timer_id y <> id.
Proof.
  unfold del_timer. destruct (timer_pending base id) as [old|] eqn:Hp; simpl.
  - apply timer_pending_Some in Hp as [_ <-]. apply detached_pending.
  - split; [intros Hy; split; [done|by eapply timer_pending_None]|by intros []].
Qed.

(** C5 The calls on timers keep the wheel in order and do what they promise.
    [mod_timer] leaves the timer pending with the new time and nothing else
    changed, as deleting it and adding it again does; its value, like that of
    [del_timer], is 1 exactly when the timer was pending. [mod_timer_pending]
    does the same and returns 1 for a pending timer, and leaves one that is not
    pending alone and returns 0. [add_timer] stops at a pending timer
    and arms any other. [try_to_del_timer_sync] leaves a running timer alone. *)
Theorem timer_calls_correct t base x e :
  wheel_ok t base -> is_u64 e -> is_u64 (expires x) ->
  (forall y, pending base y -> timer_id y = timer_id x -> deferrable y = deferrable x) ->
  let is_pending := exists y, pending base y /\ timer_id y = timer_id x in
  let del := del_timer base (timer_id x) in
  (wheel_ok t (mod_timer base x e).1 /\ armed base x e (mod_timer base x e).1 /\
   ((mod_timer base x e).2 = 1 <-> is_pending) /\ ((mod_timer base x e).2 = 0 <-> ~ is_pending)) /\
  (wheel_ok t del.1 /\ (forall y, pending del.1 y <-> pending base y /\ timer_id y <> timer_id x) /\
   (del.2 = 1 <-> is_pending) /\ (del.2 = 0 <-> ~ is_pending)) /\
  (exists base', add_timer del.1 (Timer (timer_id x) e (deferrable x)) = Some base' /\
   wheel_ok t base' /\ armed base x e base') /\
  (is_pending -> add_timer base x = None /\ wheel_ok t (mod_timer_pending base x e).1 /\
     armed base x e (mod_timer_pending base x e).1 /\ (mod_timer_pending base x e).2 = 1) /\
  (~ is_pending -> mod_timer_pending base x e = (base, 0)) /\
  (running_timer base = Some (timer_id x) -> try_to_del_timer_sync base (timer_id x) = (base, -1)) /\
  (running_timer base <> Some (timer_id x) -> try_to_del_timer_sync base (timer_id x) = del).
Proof.
  intros Hw He Hex Hd is_pending del.
  assert (Hip : is_pending <-> is_Some (timer_pending base (timer_id x))).
  { split.
    - intros (y & Hy & Hid). destruct (timer_pending base (timer_id x)) eqn:Hp; [done|].
      by destruct (timer_pending_None _ _ _ Hp Hy).
    - intros [y Hp]. apply timer_pending_Some in Hp as []. by exists y. }
  rewrite !Hip, <- !eq_None_not_Some.
  split_and!.
  - by apply (act_ok t base (ModTimer x e)).
  - apply mod_timer_armed; [apply Hw|done].
  - unfold mod_timer, __mod_timer. destruct (timer_pending base (timer_id x)); simpl;
      [destruct (_ =? _); simpl; by split|split; [done|by intros []]].
  - unfold mod_timer, __mod_timer. destruct (timer_pending base (timer_id x)); simpl;
      [destruct (_ =? _); simpl; by split|by split].
  - by apply del_timer_ok.
  - intros y. apply del_timer_pending.
  - unfold del, del_timer. destruct (timer_pending base (timer_id x)); simpl;
      [by split|split; [done|by intros []]].
  - unfold del, del_timer. by destruct (timer_pending base (timer_id x)).
  - unfold add_timer. simpl. destruct (timer_pending del.1 (timer_id x)) eqn:Hp.
    { apply timer_pending_Some in Hp as [[_ Hne]%del_timer_pending ?]. done. }
    eexists. split; [done|].
    assert (Hwd : wheel_ok t del.1) by by apply del_timer_ok. split.
    + by apply (act_ok t _ (ModTimer (Timer (timer_id x) e (deferrable x)) e)).
    + intros y. etrans; [apply (mod_timer_armed del.1 (Timer (timer_id x) e (deferrable x)) e)|].
      * apply Hwd.
      * by intros z [_ Hz]%del_timer_pending.
      * simpl. unfold del. rewrite del_timer_pending. tauto.
  - intros [old Hp]. split; [unfold add_timer; by rewrite Hp|].
    split; [by apply (act_ok t base (ModTimerPending x e))|].
    split; [|unfold mod_timer_pending, __mod_timer; by rewrite Hp].
    intros y. eapply __mod_timer_pending; [done|]. right. by exists old.
  - intros Hp. unfold mod_timer_pending, __mod_timer. by rewrite Hp.
  - intros Hr. unfold try_to_del_timer_sync. by rewrite decide_True.
  - intros Hr. unfold try_to_del_timer_sync. by rewrite decide_False.
Qed.

(** * A concrete wheel *)

(** Tick 250: timers 1 due at 253, 2 due at 600, 3 due at 20000. *)
Definition demo_wheel : tvec_base :=
  foldl (fun base x => (mod_timer base x (expires x)).1) (TvecBase None 250 250 ∅ [])
    [Timer 1 253 false; Timer 2 600 false; Timer 3 20000 true].

(** Timer 1 arms timer 4 for the tick that is running; timer 2 deletes timer 3. *)
Definition demo_fn (base : tvec_base) (x : timer_list) : list action :=
  if decide (timer_id x = 1%positive) then [ModTimer (Timer 4 0 false) 253]
  else if decide (timer_id x = 2%positive) then [DelTimer 3] else [].

Lemma demo_fn_ok base x : Forall action_ok (demo_fn base x).
Proof. unfold demo_fn. repeat case_decide; by repeat constructor. Qed.

Lemma empty_wheel_ok : wheel_ok 250 (TvecBase None 250 250 ∅ []).
Proof.
  split; [split|].
  - done.
  - intros n i x Hx. unfold slot in Hx. simpl in Hx. rewrite lookup_empty in Hx. by apply elem_of_nil in Hx.
  - intros x y [Hx|(n & i & Hx)]; [by apply elem_of_nil in Hx|].
    unfold slot in Hx. simpl in Hx. rewrite lookup_empty in Hx. by apply elem_of_nil in Hx.
Qed.

Lemma demo_wheel_ok : wheel_ok 250 demo_wheel.
Proof.
  unfold demo_wheel. simpl foldl. do 3 (apply __mod_timer_ok || apply (act_ok 250 _ (ModTimer _ _)); [done|]).
  apply empty_wheel_ok.
Qed.

(** Timer 2 runs in tick 600 although it was put into the second array. *)
Lemma timer_wheel_exact_witness :
  exists base' log, __run_timers demo_fn 360 demo_wheel 600 = Some (base', log) /\
    log = [(253, Timer 1 253 false); (254, Timer 4 253 false); (600, Timer 2 600 false)] /\
    wheel_ok 601 base'.
Proof.
  destruct (timer_wheel_exact demo_fn 250 600 demo_wheel 360 demo_fn_ok demo_wheel_ok)
    as (base' & log & Hrun & Hw & _); [reflexivity|lia|vm_compute; lia|].
  exists base', log. split; [exact Hrun|]. split; [|exact Hw].
  assert (option_map snd (__run_timers demo_fn 360 demo_wheel (u64 600)) = Some log) as Hl
    by (rewrite Hrun; reflexivity).
  vm_compute in Hl. congruence.
Defined.

Lemma timer_calls_correct_witness :
  let base := (mod_timer demo_wheel (Timer 2 600 false) 260).1 in
  wheel_ok 250 base /\ (del_timer base 2).2 = 1 /\ add_timer base (Timer 2 260 false) = None /\
  (mod_timer_pending demo_wheel (Timer 2 600 false) 260).2 = 1.
Proof.
  assert (Hd : forall y, pending demo_wheel y -> timer_id y = 2%positive -> deferrable y = false).
  { intros y Hy Hid.
    assert (y = Timer 2 600 false) as ->; [|reflexivity].
    apply (proj2 demo_wheel_ok); [exact Hy| |exact Hid].
    right. exists 2, 2. vm_compute. constructor. }
  destruct (timer_calls_correct 250 demo_wheel (Timer 2 600 false) 260 demo_wheel_ok
    ltac:(split; lia) ltac:(split; vm_compute; congruence) Hd) as ((Hw & _) & _ & _ & Hp & _).
  split; [exact Hw|]. split; [vm_compute; reflexivity|]. split; [vm_compute; reflexivity|].
  apply Hp. exists (Timer 2 600 false). split; [|reflexivity]. right. exists 2, 2. vm_compute. constructor.
Defined.
