(* ===== verification/CString.v ===== *)
(** The strings of lib/string.c and the character classes of lib/ctype.c.

    Memory is one array of bytes and a pointer is an index into it, so that the
    areas two pointers refer to may overlap.  Reading and writing outside the
    array is undefined.  The theorems describe the functions by the string a
    pointer refers to. *)
From Stdlib Require Import ZArith Lia Bool.
From stdpp Require Import base numbers list option.
From S2P Require Import Prelude.

Local Open Scope Z_scope.

(** * Characters *)

Definition _U : Z := 0x01.
Definition _L : Z := 0x02.
Definition _D : Z := 0x04.
Definition _C : Z := 0x08.
Definition _P : Z := 0x10.
Definition _S : Z := 0x20.
Definition _X : Z := 0x40.
Definition _SP : Z := 0x80.

Definition _ctype : list Z :=
  Eval vm_compute in
  let r n x := repeat x (Z.to_nat n) in
  r 8 _C ++                                                                      (* 0-7 *)
  r 1 _C ++ r 5 (Z.lor _C _S) ++ r 2 _C ++                                       (* 8-15 *)
  r 8 _C ++ r 8 _C ++                                                            (* 16-31 *)
  r 1 (Z.lor _S _SP) ++ r 7 _P ++ r 8 _P ++                                      (* 32-47 *)
  r 8 _D ++ r 2 _D ++ r 6 _P ++                                                  (* 48-63 *)
  r 1 _P ++ r 6 (Z.lor _U _X) ++ r 1 _U ++ r 8 _U ++ r 8 _U ++ r 3 _U ++ r 5 _P ++ (* 64-95 *)
  r 1 _P ++ r 6 (Z.lor _L _X) ++ r 1 _L ++ r 8 _L ++ r 8 _L ++ r 3 _L ++ r 4 _P ++ r 1 _C ++
                                                                                 (* 96-127 *)
  r 16 0 ++ r 16 0 ++                                                            (* 128-159 *)
  r 1 (Z.lor _S _SP) ++ r 15 _P ++ r 16 _P ++                                    (* 160-191 *)
  r 16 _U ++ r 7 _U ++ r 1 _P ++ r 7 _U ++ r 1 _L ++                             (* 192-223 *)
  r 16 _L ++ r 7 _L ++ r 1 _P ++ r 8 _L.                                         (* 224-255 *)

(** The index is converted to [unsigned char], so that it is in range. *)
Definition __ismask (x : Z) : Z := _ctype !!! Z.to_nat (wrap 8 x).

Definition isdigit (c : Z) : bool := negb (Z.land (__ismask c) _D =? 0).
Definition islower (c : Z) : bool := negb (Z.land (__ismask c) _L =? 0).
Definition isspace (c : Z) : bool := negb (Z.land (__ismask c) _S =? 0).
Definition isupper (c : Z) : bool := negb (Z.land (__ismask c) _U =? 0).
Definition isxdigit (c : Z) : bool := negb (Z.land (__ismask c) (Z.lor _D _X) =? 0).

(** ['A'-'a'] is -32. *)
Definition tolower (c : Z) : Z := if isupper c then wrap 8 (c + 32) else wrap 8 c.
Definition toupper (c : Z) : Z := if islower c then wrap 8 (c - 32) else wrap 8 c.

(** * Definitions

    [*p] is [aget m p].  A loop goes on to the next byte in each iteration, so
    that there are at most as many iterations as there are bytes. *)

Definition fuel (m : list Z) : nat := S (length m).

Definition strnicmp (m : list Z) (s1 s2 len : Z) : option Z :=
  if len =? 0 then Some (0 - 0)
  else
    loop (fuel m) (fun '(s1, s2, len) =>
      c1 ← aget m s1;
      c2 ← aget m s2;
      let s1 := s1 + 1 in
      let s2 := s2 + 1 in
      if c1 =? 0 then Some (Done (c1 - c2))
      else if c2 =? 0 then Some (Done (c1 - c2))
      else
        let '(c1, c2) := if c1 =? c2 then (c1, c2) else (tolower c1, tolower c2) in
        if negb (c1 =? c2) then Some (Done (c1 - c2))
        else
          let len := u64 (len - 1) in
          if negb (len =? 0) then Some (Next (s1, s2, len)) else Some (Done (c1 - c2)))
      (s1, s2, len).

Definition strcasecmp (m : list Z) (s1 s2 : Z) : option Z :=
  loop (fuel m) (fun '(s1, s2) =>
    c1 ← aget m s1;
    c2 ← aget m s2;
    let c1 := tolower c1 in
    let c2 := tolower c2 in
    if (c1 =? c2) && negb (c1 =? 0) then Some (Next (s1 + 1, s2 + 1)) else Some (Done (c1 - c2)))
    (s1, s2).

Definition strncasecmp (m : list Z) (s1 s2 n : Z) : option Z :=
  loop (fuel m) (fun '(s1, s2, n) =>
    c1 ← aget m s1;
    c2 ← aget m s2;
    let c1 := tolower c1 in
    let c2 := tolower c2 in
    let n := u64 (n - 1) in
    if (0 <? n) && (c1 =? c2) && negb (c1 =? 0) then Some (Next (s1 + 1, s2 + 1, n))
    else Some (Done (c1 - c2))) (s1, s2, n).

(** The loop [while] copying [*src++] to [*dest++] up to the 0. *)
Definition copy_loop (m : list Z) (dest src : Z) : option (list Z) :=
  loop (fuel m) (fun '(m, dest, src) =>
    c ← aget m src;
    m ← aset m dest c;
    if negb (c =? 0) then Some (Next (m, dest + 1, src + 1)) else Some (Done m)) (m, dest, src).

Definition strcpy (m : list Z) (dest src : Z) : option (list Z * Z) :=
  m ← copy_loop m dest src; Some (m, dest).

Definition strncpy (m : list Z) (dest src count : Z) : option (list Z * Z) :=
  '(m, _, _) ← for_all 0 count (fun _ '(m, tmp, src) =>
    c ← aget m src;
    m ← aset m tmp c;
    Some (m, tmp + 1, if negb (c =? 0) then src + 1 else src)) (m, dest, src);
  Some (m, dest).

(** [for (sc = s; *sc != '\0'; ++sc);] *)
Definition end_of (m : list Z) (s : Z) : option Z :=
  loop (fuel m) (fun sc =>
    c ← aget m sc; if negb (c =? 0) then Some (Next (sc + 1)) else Some (Done sc)) s.

Definition strlen (m : list Z) (s : Z) : option Z := sc ← end_of m s; Some (sc - s).

(** [memcpy] and [memset]; the values returned are [dest] and [s]. *)
Definition memcpy (m : list Z) (dest src count : Z) : option (list Z) :=
  for_all 0 count (fun i m => c ← aget m (src + i); aset m (dest + i) c) m.

Definition memset (m : list Z) (s c count : Z) : option (list Z) :=
  for_all 0 count (fun i m => aset m (s + i) (wrap 8 c)) m.

Definition memmove (m : list Z) (dest src count : Z) : option (list Z) :=
  if dest <=? src then memcpy m dest src count
  else
    for_all 0 count (fun i m =>
      c ← aget m (src + count - 1 - i); aset m (dest + count - 1 - i) c) m.

Definition strlcpy (m : list Z) (dest src size : Z) : option (list Z * Z) :=
  ret ← strlen m src;
  if negb (size =? 0) then
    let len := if size <=? ret then size - 1 else ret in
    m ← memcpy m dest src len;
    m ← aset m (dest + len) 0;
    Some (m, ret)
  else Some (m, ret).

Definition strcat (m : list Z) (dest src : Z) : option (list Z * Z) :=
  e ← end_of m dest; m ← copy_loop m e src; Some (m, dest).

Definition strncat (m : list Z) (dest src count : Z) : option (list Z * Z) :=
  if negb (count =? 0) then
    e ← end_of m dest;
    m ← loop (fuel m) (fun '(m, dest, src, count) =>
      c ← aget m src;
      m ← aset m dest c;
      if negb (c =? 0) then
        let count := count - 1 in
        if count =? 0 then m ← aset m (dest + 1) 0; Some (Done m)
        else Some (Next (m, dest + 1, src + 1, count))
      else Some (Done m)) (m, e, src, count);
    Some (m, dest)
  else Some (m, dest).

(** [None] for the [BUG_ON]. *)
Definition strlcat (m : list Z) (dest src count : Z) : option (list Z * Z) :=
  dsize ← strlen m dest;
  len ← strlen m src;
  let res := dsize + len in
  if count <=? dsize then None
  else
    let dest := dest + dsize in
    let count := count - dsize in
    let len := if count <=? len then count - 1 else len in
    m ← memcpy m dest src len;
    m ← aset m (dest + len) 0;
    Some (m, res).

Definition strcmp (m : list Z) (cs ct : Z) : option Z :=
  loop (fuel m) (fun '(cs, ct) =>
    c1 ← aget m cs;
    c2 ← aget m ct;
    if negb (c1 =? c2) then Some (Done (if c1 <? c2 then -1 else 1))
    else if c1 =? 0 then Some (Done 0) else Some (Next (cs + 1, ct + 1))) (cs, ct).

Definition strncmp (m : list Z) (cs ct count : Z) : option Z :=
  loop (fuel m) (fun '(cs, ct, count) =>
    if count =? 0 then Some (Done 0)
    else
      c1 ← aget m cs;
      c2 ← aget m ct;
      if negb (c1 =? c2) then Some (Done (if c1 <? c2 then -1 else 1))
      else if c1 =? 0 then Some (Done 0) else Some (Next (cs + 1, ct + 1, count - 1))) (cs, ct, count).

(** A result that is a pointer is [None] for [NULL]. *)

Definition strchr (m : list Z) (s c : Z) : option (option Z) :=
  loop (fuel m) (fun s =>
    x ← aget m s;
    if negb (x =? wrap 8 c) then
      if x =? 0 then Some (Done None) else Some (Next (s + 1))
    else Some (Done (Some s))) s.

Definition strrchr (m : list Z) (s c : Z) : option (option Z) :=
  len ← strlen m s;
  loop (fuel m) (fun p =>
    x ← aget m p;
    if x =? wrap 8 c then Some (Done (Some p))
    else if s <=? p - 1 then Some (Next (p - 1)) else Some (Done None)) (s + len).

Definition strnchr (m : list Z) (s count c : Z) : option (option Z) :=
  loop (fuel m) (fun '(s, count) =>
    if count =? 0 then Some (Done None)
    else
      x ← aget m s;
      if x =? 0 then Some (Done None)
      else if x =? wrap 8 c then Some (Done (Some s)) else Some (Next (s + 1, count - 1))) (s, count).

Definition strstrip (m : list Z) (s : Z) : option (list Z * Z) :=
  size ← strlen m s;
  if size =? 0 then Some (m, s)
  else
    e ← loop (fuel m) (fun e =>
      if s <=? e then
        x ← aget m e;
        if isspace x then Some (Next (e - 1)) else Some (Done e)
      else Some (Done e)) (s + size - 1);
    m ← aset m (e + 1) 0;
    s ← loop (fuel m) (fun s =>
      x ← aget m s;
      if negb (x =? 0) && isspace x then Some (Next (s + 1)) else Some (Done s)) s;
    Some (m, s).

Definition strnlen (m : list Z) (s count : Z) : option Z :=
  sc ← loop (fuel m) (fun '(sc, count) =>
    if count =? 0 then Some (Done sc)
    else
      x ← aget m sc;
      if negb (x =? 0) then Some (Next (sc + 1, count - 1)) else Some (Done sc)) (s, count);
  Some (sc - s).

(** The inner loops of the next three: where [c] is in the string at [a], or where
    that string ends. *)
Definition find_in (m : list Z) (c a : Z) : option Z :=
  loop (fuel m) (fun a =>
    x ← aget m a;
    if negb (x =? 0) then if c =? x then Some (Done a) else Some (Next (a + 1)) else Some (Done a)) a.

Definition strspn (m : list Z) (s accept : Z) : option Z :=
  loop (fuel m) (fun '(p, count) =>
    c ← aget m p;
    if negb (c =? 0) then
      a ← find_in m c accept;
      x ← aget m a;
      if x =? 0 then Some (Done count) else Some (Next (p + 1, count + 1))
    else Some (Done count)) (s, 0).

Definition strcspn (m : list Z) (s reject : Z) : option Z :=
  loop (fuel m) (fun '(p, count) =>
    c ← aget m p;
    if negb (c =? 0) then
      r ← find_in m c reject;
      x ← aget m r;
      if negb (x =? 0) then Some (Done count) else Some (Next (p + 1, count + 1))
    else Some (Done count)) (s, 0).

Definition strpbrk (m : list Z) (cs ct : Z) : option (option Z) :=
  loop (fuel m) (fun sc1 =>
    c ← aget m sc1;
    if negb (c =? 0) then
      sc2 ← find_in m c ct;
      x ← aget m sc2;
      if negb (x =? 0) then Some (Done (Some sc1)) else Some (Next (sc1 + 1))
    else Some (Done None)) cs.

(** Returns the memory, the token and the new value of [*s]. *)
Definition strsep (m : list Z) (s : option Z) (ct : Z) : option (list Z * option Z * option Z) :=
  match s with
  | None => Some (m, None, None)
  | Some sbegin =>
      e ← strpbrk m sbegin ct;
      match e with
      | Some e => m ← aset m e 0; Some (m, Some sbegin, Some (e + 1))
      | None => Some (m, Some sbegin, None)
      end
  end.

Definition newline : Z := 10.

Definition sysfs_streq (m : list Z) (s1 s2 : Z) : option bool :=
  '(s1, s2) ← loop (fuel m) (fun '(s1, s2) =>
    x ← aget m s1;
    if x =? 0 then Some (Done (s1, s2))
    else
      y ← aget m s2;
      if x =? y then Some (Next (s1 + 1, s2 + 1)) else Some (Done (s1, s2))) (s1, s2);
  x ← aget m s1;
  y ← aget m s2;
  if x =? y then Some true
  else
    a ← (if (x =? 0) && (y =? newline) then z ← aget m (s2 + 1); Some (z =? 0) else Some false);
    if (a : bool) then Some true
    else if x =? newline then
      z ← aget m (s1 + 1); Some ((z =? 0) && (y =? 0))
    else Some false.

Definition memcmp (m : list Z) (cs ct count : Z) : option Z :=
  x ← for_ 0 count (fun i res =>
    a ← aget m (cs + i);
    b ← aget m (ct + i);
    let res := a - b in
    if negb (res =? 0) then Some (Done res) else Some (Next res)) 0;
  match x with Next res => Some res | Done res => Some res end.

Definition memscan (m : list Z) (addr c size : Z) : option Z :=
  x ← for_ 0 size (fun i _ =>
    a ← aget m (addr + i); if a =? c then Some (Done (addr + i)) else Some (Next tt)) tt;
  match x with Next _ => Some (addr + size) | Done p => Some p end.

Definition strstr (m : list Z) (s1 s2 : Z) : option (option Z) :=
  l2 ← strlen m s2;
  let l2 := s32 l2 in
  if l2 =? 0 then Some (Some s1)
  else
    l1 ← strlen m s1;
    let l1 := s32 l1 in
    loop (fuel m) (fun '(s1, l1) =>
      if l2 <=? l1 then
        r ← memcmp m s1 s2 l2;
        if r =? 0 then Some (Done (Some s1)) else Some (Next (s1 + 1, l1 - 1))
      else Some (Done None)) (s1, l1).

Definition memchr (m : list Z) (s c n : Z) : option (option Z) :=
  x ← for_ 0 n (fun i _ =>
    a ← aget m (s + i); if wrap 8 c =? a then Some (Done (s + i)) else Some (Next tt)) tt;
  match x with Next _ => Some None | Done p => Some (Some p) end.

(** * Strings in memory *)

(** [s] is the string at [p]: its bytes, none of them 0, and a 0 after them. *)
Fixpoint cstr (m : list Z) (p : Z) (s : list Z) : Prop :=
  match s with
  | [] => aget m p = Some 0
  | c :: s' => aget m p = Some c /\ c <> 0 /\ cstr m (p + 1) s'
  end.

(** [l] are the bytes from [p] on. *)
Fixpoint bytes (m : list Z) (p : Z) (l : list Z) : Prop :=
  match l with
  | [] => True
  | c :: l' => aget m p = Some c /\ bytes m (p + 1) l'
  end.

(** The memory with the bytes from [p] on replaced by [l]. *)
Definition write (m : list Z) (p : Z) (l : list Z) : list Z :=
  setw m p (p + zlen l) (fun k => l !!! Z.to_nat (k - p)).

(** ** Lemmas on memory *)

Definition is_byte (c : Z) : Prop := 0 <= c < 256.
Definition mem_ok (m : list Z) : Prop := Forall is_byte m.

Lemma aget_byte m p c : mem_ok m -> aget m p = Some c -> is_byte c.
Proof.
  intros Hm Hp. rewrite aget_lookup in Hp by (apply aget_range in Hp; lia).
  unfold mem_ok in Hm. rewrite list.Forall_forall in Hm. apply Hm. by eapply list_elem_of_lookup_2.
Qed.

Lemma cstr_range m p s : cstr m p s -> 0 <= p /\ p + zlen s < zlen m.
Proof.
  revert p. induction s as [|c s IH]; intros p; simpl.
  - intros H%aget_range. change (zlen (@nil Z)) with 0. lia.
  - intros (H%aget_range & _ & Hs%IH). rewrite zlen_cons. lia.
Qed.

Lemma cstr_fuel m p s : cstr m p s -> (length s < fuel m)%nat.
Proof. intros H%cstr_range. unfold fuel, zlen in *. lia. Qed.

(** The string at [p] with its 0. *)
Lemma cstr_bytes m p s : cstr m p s -> bytes m p (s ++ [0]).
Proof.
  revert p. induction s as [|c s IH]; intros p; simpl; [done|]. intros (? & _ & ?). auto.
Qed.

Lemma cstr_nonzero m p s : cstr m p s -> Forall (fun c => c <> 0) s.
Proof. revert p. induction s as [|c s IH]; intros p; simpl; [done|]. intros (? & ? & ?). constructor; eauto. Qed.

Lemma cstr_byte m p s : mem_ok m -> cstr m p s -> Forall (fun c => 0 < c < 256) s.
Proof.
  intros Hm. revert p. induction s as [|c s IH]; intros p; simpl; [done|].
  intros (Hc & ? & ?). constructor; [|eauto]. apply aget_byte in Hc; [|done]. unfold is_byte in Hc. lia.
Qed.

Lemma bytes_app m p a b : bytes m p (a ++ b) <-> bytes m p a /\ bytes m (p + zlen a) b.
Proof.
  revert p. induction a as [|c a IH]; intros p; simpl.
  - change (zlen (@nil Z)) with 0. rewrite Z.add_0_r. tauto.
  - rewrite IH, zlen_cons. replace (p + 1 + zlen a) with (p + (zlen a + 1)) by lia. tauto.
Qed.

Lemma bytes_aget m p l i : bytes m p l -> 0 <= i < zlen l -> aget m (p + i) = aget l i.
Proof.
  revert p i. induction l as [|c l IH]; intros p i; simpl; [change (zlen (@nil Z)) with 0; lia|].
  rewrite zlen_cons. intros [Hc Hl] Hi. destruct (Z.eq_dec i 0) as [->|].
  - by rewrite Z.add_0_r.
  - replace (p + i) with (p + 1 + (i - 1)) by lia. rewrite IH by (done || lia).
    rewrite !aget_lookup by lia. by replace (Z.to_nat i) with (S (Z.to_nat (i - 1))) by lia.
Qed.

Lemma bytes_intro m p l : (forall i, 0 <= i < zlen l -> aget m (p + i) = aget l i) -> bytes m p l.
Proof.
  revert p. induction l as [|c l IH]; intros p H; simpl; [done|]. rewrite zlen_cons in H.
  pose proof (zlen_nonneg l). split.
  - specialize (H 0 ltac:(lia)). by rewrite Z.add_0_r in H.
  - apply IH. intros i Hi. specialize (H (i + 1) ltac:(lia)).
    replace (p + 1 + i) with (p + (i + 1)) by lia. rewrite H, !aget_lookup by lia.
    by replace (Z.to_nat (i + 1)) with (S (Z.to_nat i)) by lia.
Qed.

Lemma cstr_iff m p s : cstr m p s <-> bytes m p (s ++ [0]) /\ Forall (fun c => c <> 0) s.
Proof.
  split; [eauto using cstr_bytes, cstr_nonzero|]. revert p.
  induction s as [|c s IH]; intros p; simpl; [tauto|].
  intros [[? ?] Hs]. apply Forall_cons_iff in Hs as [? ?]. split_and!; auto.
Qed.

Lemma write_zlen m p l : zlen (write m p l) = zlen m.
Proof. apply setw_zlen. Qed.

Lemma write_aget m p l i :
  0 <= p -> p + zlen l <= zlen m ->
  aget (write m p l) i = if (p <=? i) && (i <? p + zlen l) then aget l (i - p) else aget m i.
Proof.
  intros Hp Hl. destruct (Z.le_gt_cases 0 i); [destruct (Z.lt_ge_cases i (zlen m))|].
  - unfold write. rewrite setw_aget by lia. destruct ((p <=? i) && (i <? p + zlen l)) eqn:Hb; [|done].
    rewrite (aget_lookup_total l) by lia. done.
  - destruct (Z.ltb_spec i (p + zlen l)); [lia|]. rewrite andb_false_r.
    rewrite !aget_lookup by lia. rewrite !lookup_ge_None_2; [done| |].
    + unfold zlen in *. lia.
    + pose proof (write_zlen m p l). unfold zlen in *. lia.
  - destruct (Z.leb_spec p i); [lia|]. unfold aget. by destruct (Z.leb_spec 0 i); [lia|].
Qed.

Lemma write_bytes m p l : 0 <= p -> p + zlen l <= zlen m -> bytes (write m p l) p l.
Proof.
  intros Hp Hl. apply bytes_intro. intros i Hi. rewrite write_aget by lia.
  replace (p + i - p) with i by lia. zcases.
Qed.

(** Bytes outside the area written are left alone. *)
Lemma write_frame m p l q k :
  0 <= p -> p + zlen l <= zlen m -> q + zlen k <= p \/ p + zlen l <= q ->
  bytes m q k -> bytes (write m p l) q k.
Proof.
  intros Hp Hl Hd Hk. apply bytes_intro. intros i Hi. rewrite write_aget by lia.
  rewrite <- (bytes_aget m q k i) by done. zcases.
Qed.

Lemma write_nil m p : write m p [] = m.
Proof. apply setw_empty. change (zlen (@nil Z)) with 0. lia. Qed.

(** Two memories of the same size are equal when they agree everywhere. *)
Lemma mem_ext (m m' : list Z) : zlen m = zlen m' -> (forall i, aget m i = aget m' i) -> m = m'.
Proof. intros Hz H. apply aget_ext; [done|]. intros i _. apply H. Qed.

Lemma aget_cons_S {A : Type} (x : A) l i : 0 < i -> aget (x :: l) i = aget l (i - 1).
Proof.
  intros Hi. rewrite !aget_lookup by lia. by replace (Z.to_nat i) with (S (Z.to_nat (i - 1))) by lia.
Qed.

(** Writing the first byte and then the rest. *)
Lemma write_cons m p c l :
  0 <= p -> p + zlen l < zlen m ->
  exists m1, aset m p c = Some m1 /\ zlen m1 = zlen m /\ write m1 (p + 1) l = write m p (c :: l) /\
    forall i, aget m1 i = if p =? i then Some c else aget m i.
Proof.
  intros Hp Hl. pose proof (zlen_nonneg l).
  assert (Hs : aset m p c = Some (<[Z.to_nat p := c]> m)) by (apply aset_Some; lia).
  eexists. split; [exact Hs|]. split; [by eapply aset_len|]. split; [|intros i; by apply (aget_aset _ _ _ _ _ Hs)].
  pose proof (aset_len _ _ _ _ Hs) as Hz.
  apply mem_ext; [by rewrite !write_zlen|].
  intros i. rewrite !write_aget by (rewrite ?zlen_cons; lia). rewrite (aget_aset _ _ _ i _ Hs), zlen_cons.
  destruct (Z.eqb_spec p i) as [->|].
  - rewrite Z.sub_diag. destruct (Z.leb_spec (i + 1) i); [lia|]. simpl. zcases.
  - destruct (Z.leb_spec (p + 1) i), (Z.leb_spec p i); try lia; simpl; [|done].
    replace (p + (zlen l + 1)) with (p + 1 + zlen l) by lia. destruct (Z.ltb_spec i (p + 1 + zlen l)); [|done].
    rewrite aget_cons_S by lia. f_equal. lia.
Qed.

#[local] Arguments Z.eqb : simpl never.
#[local] Arguments wrap : simpl never.
#[local] Arguments bool_decide : simpl never.

(** ** Searching *)

(** The first position whose byte satisfies [P]. *)
Fixpoint index (P : Z -> bool) (l : list Z) : option Z :=
  match l with
  | [] => None
  | c :: l' => if P c then Some 0 else i ← index P l'; Some (i + 1)
  end.

(** [index] finds the first such position. *)
Lemma index_spec P l :
  match index P l with
  | Some i => (exists c, aget l i = Some c /\ P c = true) /\
      forall j c, 0 <= j < i -> aget l j = Some c -> P c = false
  | None => Forall (fun c => P c = false) l
  end.
Proof.
  induction l as [|c l IH]; simpl; [done|].
  destruct (P c) eqn:Hc; [split; [by exists c|lia]|].
  destruct (index P l) as [i|]; simpl; [|by constructor].
  destruct IH as [(d & Hd & HP) Hj]. pose proof (aget_range _ _ _ Hd). split.
  - exists d. split; [|done]. rewrite aget_cons_S by lia. by replace (i + 1 - 1) with i by lia.
  - intros j e Hr He. destruct (Z.eq_dec j 0) as [->|]; [by injection He as <-|].
    rewrite aget_cons_S in He by lia. apply (Hj (j - 1)); [lia|done].
Qed.

(** Runs one iteration of the loop in the goal; the fuel is [n]. *)
Ltac iterate n := destruct n as [|n]; [exfalso; simpl in *; lia|]; rewrite loop_S.

Lemma end_of_spec m s p : cstr m p s -> end_of m p = Some (p + zlen s).
Proof.
  intros Hs. pose proof (cstr_fuel _ _ _ Hs) as Hf. unfold end_of. generalize dependent (fuel m).
  revert p Hs. induction s as [|c s IH]; intros p Hs n Hn; simpl in *.
  - iterate n. rewrite Hs. simpl. do 2 f_equal. change (zlen (@nil Z)) with 0. lia.
  - destruct Hs as (Hc & Hnz & Hs). iterate n. rewrite Hc. simpl.
    destruct (Z.eqb_spec c 0); [done|]. simpl. rewrite IH by (done || lia). rewrite zlen_cons. f_equal. lia.
Qed.

Lemma strlen_spec m s p : cstr m p s -> strlen m p = Some (zlen s).
Proof. intros Hs. unfold strlen. rewrite (end_of_spec _ _ _ Hs). simpl. f_equal. lia. Qed.

Lemma strnlen_spec m s p count :
  cstr m p s -> 0 <= count -> strnlen m p count = Some (Z.min count (zlen s)).
Proof.
  intros Hs Hc. unfold strnlen. pose proof (cstr_fuel _ _ _ Hs) as Hf. generalize dependent (fuel m).
  intros n Hn.
  match goal with |- context [loop n ?step _] =>
    enough (loop n step (p, count) = Some (p + Z.min count (zlen s))) as -> end;
    [simpl; f_equal; lia|].
  revert p count Hs Hc n Hn. induction s as [|c s IH]; intros p count Hs Hc n Hn; simpl in *; iterate n.
  - change (zlen (@nil Z)) with 0. destruct (Z.eqb_spec count 0); [f_equal; lia|].
    rewrite Hs. simpl. f_equal. lia.
  - destruct Hs as (Hx & Hnz & Hs). pose proof (zlen_nonneg s). rewrite zlen_cons.
    destruct (Z.eqb_spec count 0); [f_equal; lia|]. rewrite Hx. simpl. destruct (Z.eqb_spec c 0); [done|].
    simpl. rewrite IH by (done || lia). f_equal. lia.
Qed.

Lemma strchr_spec m s p c :
  cstr m p s -> strchr m p c = Some (Z.add p <$> index (Z.eqb (wrap 8 c)) (s ++ [0])).
Proof.
  intros Hs. unfold strchr. pose proof (cstr_fuel _ _ _ Hs) as Hf. generalize dependent (fuel m).
  revert p Hs. induction s as [|x s IH]; intros p Hs n Hn; simpl in *; iterate n.
  - rewrite Hs. simpl. rewrite Z.eqb_sym. destruct (Z.eqb_spec (wrap 8 c) 0); simpl; [do 2 f_equal; lia|done].
  - destruct Hs as (Hx & Hnz & Hs). rewrite Hx. simpl. rewrite Z.eqb_sym.
    destruct (Z.eqb_spec (wrap 8 c) x); simpl; [do 2 f_equal; lia|]. destruct (Z.eqb_spec x 0); [done|].
    rewrite IH by (done || lia). f_equal. destruct (index _ _); simpl; [f_equal; lia|done].
Qed.

Lemma strnchr_spec m s p count c :
  cstr m p s -> 0 <= count ->
  strnchr m p count c = Some (Z.add p <$> index (Z.eqb (wrap 8 c)) (take (Z.to_nat count) s)).
Proof.
  intros Hs Hc. unfold strnchr. pose proof (cstr_fuel _ _ _ Hs) as Hf. generalize dependent (fuel m).
  revert p count Hs Hc. induction s as [|x s IH]; intros p count Hs Hc n Hn; simpl in *; iterate n.
  - rewrite take_nil. destruct (Z.eqb_spec count 0); [done|]. by rewrite Hs.
  - destruct Hs as (Hx & Hnz & Hs). destruct (Z.eqb_spec count 0) as [->|]; [done|].
    rewrite Hx. simpl. destruct (Z.eqb_spec x 0); [done|].
    replace (Z.to_nat count) with (S (Z.to_nat (count - 1))) by lia. simpl. rewrite (Z.eqb_sym x).
    destruct (Z.eqb_spec (wrap 8 c) x); simpl; [do 2 f_equal; lia|].
    rewrite IH by (done || lia). f_equal. destruct (index _ _); simpl; [f_equal; lia|done].
Qed.

(** The byte a search in a set stops at is 0 exactly when it found nothing. *)
Lemma find_in_spec m c s p :
  cstr m p s -> c <> 0 -> exists a x, find_in m c p = Some a /\ aget m a = Some x /\
    (x =? 0) = negb (bool_decide (c ∈ s)).
Proof.
  intros Hs Hc. unfold find_in. pose proof (cstr_fuel _ _ _ Hs) as Hf. generalize dependent (fuel m).
  revert p Hs. induction s as [|x s IH]; intros p Hs n Hn; simpl in *; iterate n.
  - rewrite Hs. simpl. exists p, 0. by split_and!.
  - destruct Hs as (Hx & Hnz & Hs). rewrite Hx. simpl. destruct (Z.eqb_spec x 0); [done|]. simpl.
    destruct (Z.eqb_spec c x) as [->|Hne].
    + exists p, x. rewrite bool_decide_eq_true_2 by constructor. split_and!; [done|done|].
      by destruct (Z.eqb_spec x 0).
    + destruct (IH (p + 1) Hs n ltac:(lia)) as (a & y & Ha & Hy & Hb). exists a, y.
      split_and!; [done|done|]. rewrite Hb. f_equal. apply bool_decide_ext. rewrite elem_of_cons. naive_solver.
Qed.

(** Membership in the set of bytes [t]. *)
Definition among (t : list Z) (c : Z) : bool := bool_decide (c ∈ t).

Lemma strspn_spec m s p t q :
  cstr m p s -> cstr m q t ->
  strspn m p q = Some (default (zlen s) (index (fun c => negb (among t c)) s)).
Proof.
  intros Hs Ht. unfold strspn. pose proof (cstr_fuel _ _ _ Hs) as Hf.
  match goal with |- context [loop _ ?step _] =>
    enough (forall n k, (length s < n)%nat -> loop n step (p, k) =
      Some (k + default (zlen s) (index (fun c => negb (among t c)) s))) as H end;
    [rewrite H by done; f_equal|]. clear Hf.
  revert p Hs. induction s as [|x s IH]; intros p Hs n k Hn; simpl in *; iterate n.
  - rewrite Hs. simpl. change (zlen (@nil Z)) with 0. f_equal. lia.
  - destruct Hs as (Hx & Hnz & Hs). rewrite Hx. simpl. destruct (Z.eqb_spec x 0); [done|]. simpl.
    destruct (find_in_spec m x t q Ht Hnz) as (a & y & -> & Hy & Hb). simpl. rewrite Hy. simpl. rewrite Hb.
    unfold among at 1. destruct (bool_decide (x ∈ t)); simpl; [|f_equal; lia].
    rewrite IH by (done || lia). rewrite zlen_cons. f_equal. destruct (index _ s); simpl; lia.
Qed.

Lemma strcspn_spec m s p t q :
  cstr m p s -> cstr m q t -> strcspn m p q = Some (default (zlen s) (index (among t) s)).
Proof.
  intros Hs Ht. unfold strcspn. pose proof (cstr_fuel _ _ _ Hs) as Hf.
  match goal with |- context [loop _ ?step _] =>
    enough (forall n k, (length s < n)%nat -> loop n step (p, k) =
      Some (k + default (zlen s) (index (among t) s))) as H end;
    [rewrite H by done; f_equal|]. clear Hf.
  revert p Hs. induction s as [|x s IH]; intros p Hs n k Hn; simpl in *; iterate n.
  - rewrite Hs. simpl. change (zlen (@nil Z)) with 0. f_equal. lia.
  - destruct Hs as (Hx & Hnz & Hs). rewrite Hx. simpl. destruct (Z.eqb_spec x 0); [done|]. simpl.
    destruct (find_in_spec m x t q Ht Hnz) as (a & y & -> & Hy & Hb). simpl. rewrite Hy. simpl. rewrite Hb.
    unfold among at 1. destruct (bool_decide (x ∈ t)); simpl; [f_equal; lia|].
    rewrite IH by (done || lia). rewrite zlen_cons. f_equal. destruct (index _ s); simpl; lia.
Qed.

Lemma strpbrk_spec m s p t q :
  cstr m p s -> cstr m q t -> strpbrk m p q = Some (Z.add p <$> index (among t) s).
Proof.
  intros Hs Ht. unfold strpbrk. pose proof (cstr_fuel _ _ _ Hs) as Hf. 
  generalize (fuel m) at 1, Hf. clear Hf.
  revert p Hs. induction s as [|x s IH]; intros p Hs n Hn; simpl in *; iterate n.
  - by rewrite Hs.
  - destruct Hs as (Hx & Hnz & Hs). rewrite Hx. simpl. destruct (Z.eqb_spec x 0); [done|]. simpl.
    destruct (find_in_spec m x t q Ht Hnz) as (a & y & -> & Hy & Hb). simpl. rewrite Hy. simpl. rewrite Hb.
    unfold among at 1. destruct (bool_decide (x ∈ t)); simpl; [do 2 f_equal; lia|].
    rewrite IH by (done || lia). f_equal. destruct (index _ _); simpl; [f_equal; lia|done].
Qed.

(** The last occurrence, searched from the 0 backwards. *)
Lemma strrchr_spec m s p c :
  cstr m p s ->
  strrchr m p c =
  Some ((fun i => p + zlen s - i) <$> index (Z.eqb (wrap 8 c)) (reverse (s ++ [0]))).
Proof.
  intros Hs. unfold strrchr. rewrite (strlen_spec _ _ _ Hs). simpl.
  pose proof (cstr_range _ _ _ Hs) as Hr. pose proof (cstr_fuel _ _ _ Hs) as Hf.
  apply cstr_bytes in Hs. generalize dependent (fuel m). intros n Hn.
  match goal with |- context [loop n ?step _] =>
    enough (forall l, l <> [] -> bytes m p l -> forall n, (length l <= n)%nat ->
      loop n step (p + zlen l - 1) =
      Some ((fun i => p + zlen l - 1 - i) <$> index (Z.eqb (wrap 8 c)) (reverse l))) as H end.
  { specialize (H (s ++ [0])).
    rewrite zlen_app in H. change (zlen [0]) with 1 in H.
    replace (p + (zlen s + 1) - 1) with (p + zlen s) in H by lia.
    apply H; [by destruct s|done|]. rewrite length_app. simpl. lia. }
  clear s Hs Hr n Hn. intros l. induction l as [|x l IH] using rev_ind; [done|]. intros _ Hl n Hn.
  apply bytes_app in Hl as [Hl [Hx _]]. rewrite length_app in Hn. simpl in Hn. pose proof (zlen_nonneg l).
  rewrite zlen_app, reverse_app. change (zlen [x]) with 1. simpl.
  replace (p + (zlen l + 1) - 1) with (p + zlen l) by lia. iterate n. rewrite Hx. simpl.
  rewrite Z.eqb_sym. destruct (Z.eqb_spec (wrap 8 c) x); simpl; [do 2 f_equal; lia|].
  destruct (Z.leb_spec p (p + zlen l - 1)).
  - rewrite IH; [|intros ->; change (zlen (@nil Z)) with 0 in *; lia|done|lia]. f_equal.
    destruct (index _ (reverse l)); simpl; [f_equal; lia|done].
  - assert (zlen l = 0) as ->%zlen_nil_inv by lia. done.
Qed.

(** A search through an area of memory. *)
Lemma scan_area m p l (P : Z -> bool) (f : Z -> Z) (v : Z) :
  bytes m p l ->
  for_ 0 (zlen l) (fun i (_ : unit) =>
    a ← aget m (p + i); if P a then Some (Done (f i)) else Some (Next tt)) tt =
  Some (match index P l with Some i => Done (f i) | None => Next tt end).
Proof.
  intros Hl. destruct (for_rule (fun i (_ : unit) =>
      a ← aget m (p + i); if P a then Some (Done (f i)) else Some (Next tt))
    (fun k _ => forall j c, 0 <= j < k -> aget l j = Some c -> P c = false)
    (fun r => exists i, index P l = Some i /\ r = f i) 0 (zlen l) tt) as (x & -> & Hx);
    [apply zlen_nonneg|lia| |].
  - intros k [] Hk Hj. rewrite (bytes_aget m p l k) by done. rewrite aget_lookup_total by lia. simpl.
    destruct (P _) eqn:HP; eexists; (split; [done|]); simpl.
    + exists k. split; [|done]. pose proof (index_spec P l) as Hi. destruct (index P l) as [i|].
      * destruct Hi as [(c & Hc & HPc) Hmin]. f_equal.
        destruct (Z.lt_trichotomy i k) as [Hlt|[->|Hlt]]; [|done|].
        -- apply aget_range in Hc as Hri. rewrite (Hj i c) in HPc; [done|lia|done].
        -- rewrite (Hmin k _ ltac:(lia) (aget_lookup_total l k Hk)) in HP. done.
      * rewrite list.Forall_forall in Hi. rewrite Hi in HP; [done|].
        apply list_elem_of_lookup_2 with (Z.to_nat k). rewrite <- aget_lookup by lia.
        by apply aget_lookup_total.
    + intros j c Hr Hc. destruct (Z.eq_dec j k) as [->|]; [|apply (Hj j); [lia|done]].
      rewrite aget_lookup_total in Hc by lia. by injection Hc as <-.
  - f_equal. pose proof (index_spec P l) as Hi. destruct x as [[]|r].
    + destruct (index P l) as [i|]; [|done]. destruct Hi as [(c & Hc & HPc) _].
      apply aget_range in Hc as Hri. rewrite (Hx i c) in HPc; [done|lia|done].
    + destruct Hx as (i & -> & ->). done.
Qed.

Lemma memchr_spec m p l c :
  bytes m p l -> memchr m p c (zlen l) = Some (Z.add p <$> index (Z.eqb (wrap 8 c)) l).
Proof.
  intros Hl. unfold memchr. rewrite (scan_area m p l (Z.eqb (wrap 8 c)) (Z.add p) 0 Hl). simpl.
  by destruct (index _ l).
Qed.

Lemma memscan_spec m p l c :
  bytes m p l -> memscan m p c (zlen l) = Some (p + default (zlen l) (index (fun a => a =? c) l)).
Proof.
  intros Hl. unfold memscan. rewrite (scan_area m p l (fun a => a =? c) (Z.add p) 0 Hl). simpl.
  by destruct (index _ l).
Qed.

(** ** Comparing *)

(** The order of strings: -1, 0 or 1. *)
Fixpoint lexcmp (s t : list Z) : Z :=
  match s, t with
  | [], [] => 0
  | [], _ :: _ => -1
  | _ :: _, [] => 1
  | a :: s', b :: t' => if a =? b then lexcmp s' t' else if a <? b then -1 else 1
  end.

Lemma lexcmp_eq s t : lexcmp s t = 0 <-> s = t.
Proof.
  revert t. induction s as [|a s IH]; intros [|b t]; simpl; try done.
  destruct (Z.eqb_spec a b) as [->|]; [rewrite IH; naive_solver|].
  split; [destruct (a <? b); done|congruence].
Qed.

Lemma lexcmp_antisym s t : lexcmp t s = - lexcmp s t.
Proof.
  revert t. induction s as [|a s IH]; intros [|b t]; simpl; try done.
  rewrite Z.eqb_sym. destruct (Z.eqb_spec a b); [done|].
  destruct (Z.ltb_spec a b), (Z.ltb_spec b a); (done || lia).
Qed.

Lemma strcmp_spec m s t p q :
  mem_ok m -> cstr m p s -> cstr m q t -> strcmp m p q = Some (lexcmp s t).
Proof.
  intros Hm Hs Ht. unfold strcmp. pose proof (cstr_fuel _ _ _ Hs) as Hf. generalize dependent (fuel m).
  revert t p q Hs Ht. induction s as [|a s IH]; intros t p q Hs Ht n Hn; simpl in *; iterate n.
  - rewrite Hs. simpl. destruct t as [|b t]; simpl in Ht.
    + rewrite Ht. done.
    + destruct Ht as (Hb & Hnz & _). rewrite Hb. simpl. pose proof (aget_byte _ _ _ Hm Hb) as Hbb.
      unfold is_byte in Hbb. destruct (Z.eqb_spec 0 b); [done|]. simpl. by destruct (Z.ltb_spec 0 b); [|lia].
  - destruct Hs as (Ha & Hnz & Hs). rewrite Ha. simpl. pose proof (aget_byte _ _ _ Hm Ha) as Hba.
    unfold is_byte in Hba. destruct t as [|b t]; simpl in Ht.
    + rewrite Ht. simpl. destruct (Z.eqb_spec a 0); [done|]. simpl. by destruct (Z.ltb_spec a 0); [lia|].
    + destruct Ht as (Hb & Hnzb & Ht). rewrite Hb. simpl.
      destruct (Z.eqb_spec a b) as [->|]; simpl; [|done]. destruct (Z.eqb_spec b 0); [done|].
      apply IH; (done || lia).
Qed.

(** A string cut after [count] bytes. *)
Abbreviation upto count s := (take (Z.to_nat count) s).

Lemma upto_cons count (c : Z) s : 0 < count -> upto count (c :: s) = c :: upto (count - 1) s.
Proof. intros. by replace (Z.to_nat count) with (S (Z.to_nat (count - 1))) by lia. Qed.

Lemma upto_nil count : upto count (@nil Z) = [].
Proof. apply take_nil. Qed.

Lemma strncmp_spec m s t p q count :
  mem_ok m -> cstr m p s -> cstr m q t -> 0 <= count ->
  strncmp m p q count = Some (lexcmp (upto count s) (upto count t)).
Proof.
  intros Hm Hs Ht Hc. unfold strncmp. pose proof (cstr_fuel _ _ _ Hs) as Hf. generalize dependent (fuel m).
  revert t p q count Hs Ht Hc.
  induction s as [|a s IH]; intros t p q count Hs Ht Hc n Hn; simpl in Hs, Hn; iterate n;
    (destruct (Z.eqb_spec count 0) as [->|]; [done|]).
  - rewrite Hs. simpl. rewrite upto_nil. destruct t as [|b t]; simpl in Ht.
    + by rewrite Ht, upto_nil.
    + destruct Ht as (Hb & Hnz & _). rewrite Hb, upto_cons by lia. simpl.
      pose proof (aget_byte _ _ _ Hm Hb) as Hbb.
      unfold is_byte in Hbb. destruct (Z.eqb_spec 0 b); [done|]. simpl. by destruct (Z.ltb_spec 0 b); [|lia].
  - destruct Hs as (Ha & Hnz & Hs). rewrite Ha. simpl. pose proof (aget_byte _ _ _ Hm Ha) as Hba.
    unfold is_byte in Hba. rewrite upto_cons by lia. destruct t as [|b t]; simpl in Ht.
    + rewrite Ht, upto_nil. simpl. destruct (Z.eqb_spec a 0); [done|]. simpl.
      by destruct (Z.ltb_spec a 0); [lia|].
    + destruct Ht as (Hb & Hnzb & Ht). rewrite Hb, upto_cons by lia. simpl.
      destruct (Z.eqb_spec a b) as [->|]; simpl; [|done]. destruct (Z.eqb_spec b 0); [done|].
      apply IH; (done || lia).
Qed.

Lemma memcmp_spec m a b p q :
  zlen a = zlen b -> bytes m p a -> bytes m q b ->
  exists r, memcmp m p q (zlen a) = Some r /\ Z.sgn r = lexcmp a b.
Proof.
  intros Hz Ha Hb. unfold memcmp, for_. unfold zlen at 1. rewrite Z.sub_0_r, Nat2Z.id.
  match goal with |- context [for_n _ 0 ?f 0] =>
    enough (forall a b k, length a = length b -> bytes m (p + k) a -> bytes m (q + k) b ->
      exists x, for_n (length a) k f 0 = Some x /\
        Z.sgn (match x with Next r => r | Done r => r end) = lexcmp a b) as H end.
  { destruct (H a b 0) as (x & -> & Hx); [unfold zlen in Hz; lia|by rewrite Z.add_0_r..|].
    simpl. destruct x; eauto. }
  clear a b Hz Ha Hb. induction a as [|x a IH]; intros [|y b] k Hl Ha Hb; simplify_eq; simpl.
  - by eexists.
  - destruct Ha as [Hx Ha], Hb as [Hy Hb]. rewrite Hx, Hy. simpl.
    destruct (Z.eqb_spec (x - y) 0) as [H0|H0]; simpl.
    + rewrite H0. destruct (Z.eqb_spec x y); [|lia]. apply IH; [done|by rewrite Z.add_assoc..].
    + eexists. split; [done|]. destruct (Z.eqb_spec x y); [lia|]. destruct (Z.ltb_spec x y); lia.
Qed.

(** Facts on all bytes by computation. *)
Lemma all_bytes (P : Z -> bool) :
  forallb P (seqZ 0 256) = true -> forall c, is_byte c -> P c = true.
Proof.
  intros H c Hc. rewrite forallb_forall in H. apply H, list_elem_of_In, elem_of_seqZ.
  unfold is_byte in Hc. lia.
Qed.

Lemma tolower_byte c : is_byte c -> is_byte (tolower c).
Proof.
  intros Hc. enough ((0 <=? tolower c) && (tolower c <? 256) = true) by (unfold is_byte; lia).
  revert c Hc. apply all_bytes. vm_compute. reflexivity.
Qed.

Lemma tolower_zero c : is_byte c -> tolower c = 0 <-> c = 0.
Proof.
  intros Hc. enough (Bool.eqb (tolower c =? 0) (c =? 0) = true) as H.
  { apply eqb_prop in H. rewrite <- !Z.eqb_eq. by rewrite H. }
  revert c Hc. apply all_bytes. vm_compute. reflexivity.
Qed.

#[local] Opaque tolower.
#[local] Arguments tolower : simpl never.

(** One step of a comparison that has not come to the end of a string. *)
Lemma lower_first m p c : mem_ok m -> aget m p = Some c -> c <> 0 -> 0 < tolower c.
Proof.
  intros Hm Hc Hnz. pose proof (aget_byte _ _ _ Hm Hc) as Hb.
  pose proof (tolower_byte _ Hb) as Hl. pose proof (tolower_zero _ Hb). unfold is_byte in Hl. lia.
Qed.

Lemma tolower_0 : tolower 0 = 0.
Proof. by apply tolower_zero. Qed.

Lemma sgn_lex a b l r :
  a <> b -> Z.sgn (a - b) = if a =? b then lexcmp l r else if a <? b then -1 else 1.
Proof. intros. destruct (Z.eqb_spec a b); [done|]. destruct (Z.ltb_spec a b); lia. Qed.

Lemma strcasecmp_spec m s t p q :
  mem_ok m -> cstr m p s -> cstr m q t ->
  exists r, strcasecmp m p q = Some r /\ Z.sgn r = lexcmp (tolower <$> s) (tolower <$> t).
Proof.
  intros Hm Hs Ht. unfold strcasecmp. pose proof (cstr_fuel _ _ _ Hs) as Hf. generalize dependent (fuel m).
  revert t p q Hs Ht. induction s as [|a s IH]; intros t p q Hs Ht n Hn; simpl in *; iterate n.
  - rewrite Hs. simpl. rewrite tolower_0. destruct t as [|b t]; simpl in Ht.
    + rewrite Ht. simpl. rewrite tolower_0. by eexists.
    + destruct Ht as (Hb & Hnz & _). pose proof (lower_first _ _ _ Hm Hb Hnz). rewrite Hb. simpl.
      rewrite andb_false_r. eexists. split; [done|]. lia.
  - destruct Hs as (Ha & Hnz & Hs). pose proof (lower_first _ _ _ Hm Ha Hnz). rewrite Ha. simpl.
    destruct t as [|b t]; simpl in Ht.
    + rewrite Ht. simpl. rewrite tolower_0. destruct (Z.eqb_spec (tolower a) 0); [lia|]. simpl.
      eexists. split; [done|]. lia.
    + destruct Ht as (Hb & Hnzb & Ht). rewrite Hb. simpl.
      destruct (Z.eqb_spec (tolower a) (tolower b)) as [He|He]; simpl.
      * destruct (Z.eqb_spec (tolower a) 0); [lia|]. apply IH; (done || lia).
      * eexists. split; [done|]. destruct (Z.ltb_spec (tolower a) (tolower b)); lia.
Qed.

(** The limit is decremented before it is looked at, so that 0 stands for [2 ^ 64]. *)
Lemma strncasecmp_spec m s t p q n :
  mem_ok m -> cstr m p s -> cstr m q t -> 0 <= n < 2 ^ 64 ->
  let k := if n =? 0 then 2 ^ 64 else n in
  exists r, strncasecmp m p q n = Some r /\
    Z.sgn r = lexcmp (tolower <$> upto k s) (tolower <$> upto k t).
Proof.
  intros Hm Hs Ht Hn k. unfold strncasecmp.
  pose proof (cstr_fuel _ _ _ Hs) as Hf. generalize dependent (fuel m). intros f Hf.
  match goal with |- context [loop f ?step _] => set (st := step) end.
  assert (loop f st (p, q, n) = loop f st (p, q, k)) as ->.
  { destruct f as [|f]; [done|]. rewrite !loop_S. unfold k. by destruct (Z.eqb_spec n 0) as [->|]. }
  assert (Hk : 1 <= k <= 2 ^ 64) by (unfold k; destruct (Z.eqb_spec n 0); lia).
  clear Hn. clearbody k. clear n. revert t p q f k Hs Ht Hf Hk.
  induction s as [|a s IH]; intros t p q f k Hs Ht Hf Hk; simpl in Hs, Hf; iterate f; unfold st at 1;
    rewrite (wrap_small 64 (k - 1)) by (unfold is_word; lia).
  - rewrite Hs. simpl. rewrite tolower_0, upto_nil. destruct t as [|b t]; simpl in Ht.
    + rewrite Ht, upto_nil. simpl. rewrite tolower_0, andb_false_r. by eexists.
    + destruct Ht as (Hb & Hnz & _). pose proof (lower_first _ _ _ Hm Hb Hnz). rewrite Hb, upto_cons by lia.
      simpl. rewrite andb_false_r. eexists. split; [done|]. lia.
  - destruct Hs as (Ha & Hnz & Hs). pose proof (lower_first _ _ _ Hm Ha Hnz).
    rewrite Ha, upto_cons by lia. simpl. destruct t as [|b t]; simpl in Ht.
    + rewrite Ht, upto_nil. simpl. rewrite tolower_0. destruct (Z.eqb_spec (tolower a) 0); [lia|].
      rewrite !andb_false_r. simpl. eexists. split; [done|]. lia.
    + destruct Ht as (Hb & Hnzb & Ht). rewrite Hb, upto_cons by lia. simpl.
      destruct (Z.eqb_spec (tolower a) (tolower b)) as [He|He].
      * destruct (Z.eqb_spec (tolower a) 0); [lia|]. destruct (Z.ltb_spec 0 (k - 1)); simpl.
        -- apply IH; (done || lia).
        -- replace (k - 1) with 0 by lia. eexists. split; [done|]. simpl. lia.
      * rewrite andb_false_r. simpl. eexists. split; [done|].
        destruct (Z.ltb_spec (tolower a) (tolower b)); lia.
Qed.

Lemma strnicmp_spec m s t p q n :
  mem_ok m -> cstr m p s -> cstr m q t -> 0 <= n < 2 ^ 64 ->
  exists r, strnicmp m p q n = Some r /\
    Z.sgn r = lexcmp (tolower <$> upto n s) (tolower <$> upto n t).
Proof.
  intros Hm Hs Ht Hn. unfold strnicmp. destruct (Z.eqb_spec n 0) as [->|Hn0]; [by eexists|].
  assert (Hk : 1 <= n < 2 ^ 64) by lia. clear Hn Hn0.
  pose proof (cstr_fuel _ _ _ Hs) as Hf. generalize dependent (fuel m). intros f Hf.
  match goal with |- context [loop f ?step _] => set (st := step) end.
  revert t p q f n Hs Ht Hf Hk.
  induction s as [|a s IH]; intros t p q f n Hs Ht Hf Hk; simpl in Hs, Hf; iterate f; unfold st at 1;
    rewrite (wrap_small 64 (n - 1)) by (unfold is_word; lia).
  - rewrite Hs. simpl. rewrite upto_nil. destruct t as [|b t]; simpl in Ht.
    + rewrite Ht, upto_nil. by eexists.
    + destruct Ht as (Hb & Hnz & _). pose proof (aget_byte _ _ _ Hm Hb) as Hbb. unfold is_byte in Hbb.
      rewrite Hb, upto_cons by lia. simpl. eexists. split; [done|]. lia.
  - destruct Hs as (Ha & Hnz & Hs). pose proof (aget_byte _ _ _ Hm Ha) as Hba. unfold is_byte in Hba.
    rewrite Ha, upto_cons by lia. simpl. destruct (Z.eqb_spec a 0); [done|].
    destruct t as [|b t]; simpl in Ht.
    + rewrite Ht, upto_nil. simpl. eexists. split; [done|]. lia.
    + destruct Ht as (Hb & Hnzb & Ht). rewrite Hb, upto_cons by lia. simpl.
      destruct (Z.eqb_spec b 0); [done|].
      assert (Hend : forall c, exists r,
        match (if negb (n - 1 =? 0) then Some (Next (p + 1, q + 1, n - 1)) else Some (Done (c - c))) with
        | Some (Next s') => loop f st s'
        | Some (Done r) => Some r
        | None => None
        end = Some r /\ Z.sgn r = lexcmp (tolower <$> upto (n - 1) s) (tolower <$> upto (n - 1) t)).
      { intros c. destruct (Z.eqb_spec (n - 1) 0) as [->|]; simpl; [|apply IH; (done || lia)].
        eexists. split; [done|]. simpl. lia. }
      destruct (Z.eqb_spec a b) as [->|Hab].
      * rewrite !Z.eqb_refl. simpl. apply Hend.
      * destruct (Z.eqb_spec (tolower a) (tolower b)) as [He|He]; simpl; [rewrite He; apply Hend|].
        eexists. split; [done|]. destruct (Z.ltb_spec (tolower a) (tolower b)); lia.
Qed.

Lemma cstr_head m p s : cstr m p s -> exists c, aget m p = Some c /\ (c = 0 <-> s = []).
Proof. destruct s as [|c s]; simpl; [by eexists|]. intros (? & ? & _). exists c. by split. Qed.

Lemma sysfs_streq_spec m s t p q :
  cstr m p s -> cstr m q t ->
  sysfs_streq m p q = Some (bool_decide (s = t \/ s ++ [newline] = t \/ s = t ++ [newline])).
Proof.
  intros Hs Ht. unfold sysfs_streq. pose proof (cstr_fuel _ _ _ Hs) as Hf.
  generalize dependent (fuel m). revert t p q Hs Ht.
  induction s as [|a s IH]; intros t p q Hs Ht f Hf; simpl in Hs, Hf; iterate f.
  - rewrite Hs. simpl. rewrite Hs. destruct t as [|b t]; simpl in Ht.
    + rewrite Ht. by rewrite bool_decide_eq_true_2 by (by left).
    + destruct Ht as (Hb & Hnz & Ht). rewrite Hb. simpl. destruct (Z.eqb_spec 0 b); [done|]. simpl.
      destruct (Z.eqb_spec b newline) as [->|]; simpl.
      * destruct (cstr_head _ _ _ Ht) as (z & -> & Hz). simpl. destruct (Z.eqb_spec z 0) as [H0|H0]; simpl.
        -- f_equal. symmetry. apply bool_decide_eq_true_2. right. left. by rewrite (proj1 Hz H0).
        -- destruct (Z.eqb_spec 0 newline); [done|]. f_equal. symmetry. apply bool_decide_eq_false_2.
           intros [?|[[=]|?]]; [done|naive_solver|by destruct t].
      * destruct (Z.eqb_spec 0 newline); [done|]. f_equal. symmetry. apply bool_decide_eq_false_2.
        intros [?|[[=]|?]]; [done|done|by destruct t].
  - destruct Hs as (Ha & Hnz & Hs). rewrite Ha. simpl. destruct (Z.eqb_spec a 0); [done|].
    destruct (cstr_head _ _ _ Ht) as (b & Hb & Hb0). rewrite Hb. simpl.
    destruct (Z.eqb_spec a b) as [->|Hab].
    + destruct t as [|b' t]; simpl in Ht; [by apply proj2 in Hb0; rewrite Hb0 in *|].
      destruct Ht as (Hb' & Hnzb & Ht). rewrite Hb in Hb'. injection Hb' as <-.
      rewrite (IH t) by (done || lia). f_equal. apply bool_decide_ext. naive_solver.
    + simpl. rewrite Ha. simpl. rewrite Hb. simpl. destruct (Z.eqb_spec a b); [done|].
      destruct (Z.eqb_spec a 0); [done|]. simpl. destruct (cstr_head _ _ _ Hs) as (z & Hz & Hz0).
      destruct (Z.eqb_spec a newline) as [->|Hnl].
      * rewrite Hz. simpl. f_equal. destruct (Z.eqb_spec z 0) as [H0|H0], (Z.eqb_spec b 0) as [H1|H1]; simpl; symmetry.
        -- apply bool_decide_eq_true_2. right. right. by rewrite (proj1 Hz0 H0), (proj1 Hb0 H1).
        -- apply bool_decide_eq_false_2. destruct t as [|b' t]; [naive_solver|].
           simpl in Ht. destruct Ht as (Hb' & _). rewrite Hb in Hb'. injection Hb' as <-. naive_solver.
        -- apply bool_decide_eq_false_2. rewrite (proj1 Hb0 H1). naive_solver.
        -- apply bool_decide_eq_false_2. destruct t as [|b' t]; [naive_solver|].
           simpl in Ht. destruct Ht as (Hb' & _). rewrite Hb in Hb'. injection Hb' as <-. naive_solver.
      * f_equal. symmetry. apply bool_decide_eq_false_2. destruct t as [|b' t]; [naive_solver|].
        simpl in Ht. destruct Ht as (Hb' & _). rewrite Hb in Hb'. injection Hb' as <-. naive_solver.
Qed.

(** ** Substrings, tokens and white space *)

(** The first position at which [t] occurs in [s]. *)
Fixpoint sub_index (t s : list Z) : option Z :=
  if decide (t `prefix_of` s) then Some 0
  else match s with [] => None | _ :: s' => i ← sub_index t s'; Some (i + 1) end.

Lemma sub_index_spec t s :
  match sub_index t s with
  | Some i => 0 <= i /\ t `prefix_of` drop (Z.to_nat i) s /\
      forall j, 0 <= j < i -> ~ t `prefix_of` drop (Z.to_nat j) s
  | None => forall j, ~ t `prefix_of` drop j s
  end.
Proof.
  induction s as [|c s IH]; simpl.
  - case_decide as Hd; [split; [done|]; split; [done|lia]|]. intros j. by rewrite drop_nil.
  - case_decide as Hd; [split; [done|]; split; [done|lia]|].
    destruct (sub_index t s) as [i|]; simpl.
    + destruct IH as (Hi & Hp & Hmin). split; [lia|].
      replace (Z.to_nat (i + 1)) with (S (Z.to_nat i)) by lia. split; [done|].
      intros j Hj. destruct (Z.eq_dec j 0) as [->|]; [done|].
      replace (Z.to_nat j) with (S (Z.to_nat (j - 1))) by lia. apply Hmin. lia.
    + intros [|j]; [done|apply IH].
Qed.

Lemma sub_index_short t s : zlen s < zlen t -> sub_index t s = None.
Proof.
  intros Hz. pose proof (sub_index_spec t s) as H. destruct (sub_index t s) as [i|]; [|done].
  destruct H as (_ & Hp%prefix_length & _). rewrite length_drop in Hp. unfold zlen in Hz. lia.
Qed.

Lemma strstr_spec m s t p q :
  cstr m p s -> cstr m q t -> zlen s < 2 ^ 31 -> zlen t < 2 ^ 31 ->
  strstr m p q = Some (Z.add p <$> sub_index t s).
Proof.
  intros Hs Ht Hzs Hzt. unfold strstr. rewrite (strlen_spec _ _ _ Ht), (strlen_spec _ _ _ Hs). simpl.
  pose proof (zlen_nonneg s). pose proof (zlen_nonneg t). rewrite !s32_small by lia.
  destruct (Z.eqb_spec (zlen t) 0) as [Ht0|Ht0].
  { apply zlen_nil_inv in Ht0 as ->. destruct s; simpl; do 2 f_equal; lia. }
  apply cstr_bytes in Ht. apply bytes_app in Ht as [Ht _].
  pose proof (cstr_fuel _ _ _ Hs) as Hf. generalize dependent (fuel m). intros f Hf.
  clear Hzs. revert p f Hs Hf. induction s as [|c s IH]; intros p f Hs Hf; simpl in Hf; iterate f.
  - change (zlen (@nil Z)) with 0. destruct (Z.leb_spec (zlen t) 0); [lia|].
    by rewrite sub_index_short by (change (zlen (@nil Z)) with 0; lia).
  - destruct (Z.leb_spec (zlen t) (zlen (c :: s))); [|by rewrite sub_index_short by lia].
    pose proof (cstr_bytes _ _ _ Hs) as Hb.
    assert (Hbt : bytes m p (take (length t) (c :: s))).
    { rewrite <- (take_drop (length t) (c :: s)), <- app_assoc in Hb. by apply bytes_app in Hb as []. }
    assert (Hlt : zlen t = zlen (take (length t) (c :: s)))
      by (unfold zlen in *; rewrite length_take; lia).
    destruct (memcmp_spec m _ t p q (eq_sym Hlt) Hbt Ht) as (r & Hr & Hsg).
    rewrite <- Hlt in Hr. rewrite Hr. simpl.
    assert (Hiff : t `prefix_of` c :: s <-> r = 0).
    { rewrite <- Z.sgn_null_iff, Hsg, lexcmp_eq. split.
      - intros [k ->]. by rewrite take_app_length.
      - intros Heq. exists (drop (length t) (c :: s)). rewrite <- Heq at 1. symmetry. apply take_drop. }
    destruct (Z.eqb_spec r 0) as [Hr0|Hr0].
    + rewrite decide_True by tauto. simpl. do 2 f_equal. lia.
    + rewrite decide_False by tauto. destruct Hs as (_ & _ & Hs).
      replace (zlen (c :: s) - 1) with (zlen s) by (rewrite zlen_cons; lia).
      rewrite IH; [|apply zlen_nonneg|done|lia].
      destruct (sub_index t s); simpl; [do 2 f_equal; lia|done].
Qed.

(** The pieces of [s] between bytes of the set [t]. *)
Fixpoint fields (t s : list Z) : list (list Z) :=
  match s with
  | [] => [[]]
  | c :: s' =>
      if among t c then [] :: fields t s'
      else match fields t s' with [] => [[c]] | f :: fs => (c :: f) :: fs end
  end.

(** The loop [while ((tok = strsep(&s, ct)) != NULL)] of the callers, with the
    tokens it gets. *)
Definition strsep_all (n : nat) (m : list Z) (s : option Z) (ct : Z) : option (list Z * list Z) :=
  loop n (fun '(m, s, toks) =>
    '(m, tok, s) ← strsep m s ct;
    match tok with
    | None => Some (Done (m, toks))
    | Some tok => Some (Next (m, s, toks ++ [tok]))
    end) (m, s, []).

Lemma fields_first t s :
  match index (among t) s with
  | Some i => exists f c rest, s = f ++ c :: rest /\ zlen f = i /\ fields t s = f :: fields t rest
  | None => fields t s = [s]
  end.
Proof.
  induction s as [|c s IH]; simpl; [done|]. destruct (among t c); [by exists [], c, s|].
  destruct (index (among t) s) as [i|]; simpl.
  - destruct IH as (f & d & rest & -> & Hi & ->). exists (c :: f), d, rest.
    rewrite zlen_cons. split; [done|]. split; [lia|done].
  - by rewrite IH.
Qed.

Lemma cstr_app m p f c s :
  cstr m p (f ++ c :: s) <->
  bytes m p f /\ Forall (fun c => c <> 0) f /\ aget m (p + zlen f) = Some c /\ c <> 0 /\
  cstr m (p + zlen f + 1) s.
Proof.
  rewrite !cstr_iff, <- app_assoc, bytes_app, Forall_app, Forall_cons_iff. simpl. tauto.
Qed.

(** One call of [strsep]. *)
Lemma strsep_spec m s p t q :
  cstr m p s -> cstr m q t -> q + zlen t < p \/ p + zlen s < q ->
  (strsep m (Some p) q = Some (m, Some p, None) /\ fields t s = [s]) \/
  (exists f c rest m', s = f ++ c :: rest /\ fields t s = f :: fields t rest /\
     strsep m (Some p) q = Some (m', Some p, Some (p + zlen f + 1)) /\
     zlen m' = zlen m /\ (forall i, i <> p + zlen f -> aget m' i = aget m i) /\
     cstr m' p f /\ cstr m' (p + zlen f + 1) rest).
Proof.
  intros Hs Ht Hd. pose proof (fields_first t s) as Hf. unfold strsep.
  rewrite (strpbrk_spec m s p t q Hs Ht). destruct (index (among t) s) as [i|]; simpl; [right|by left].
  destruct Hf as (f & c & rest & -> & <- & Hf). pose proof (cstr_range _ _ _ Hs) as Hr.
  apply cstr_app in Hs as (Hbf & Hnz & Hc & _ & Hrest). apply aget_range in Hc as Hcr.
  assert (Hset : aset m (p + zlen f) 0 = Some (<[Z.to_nat (p + zlen f) := 0]> m)) by by apply aset_Some.
  exists f, c, rest, (<[Z.to_nat (p + zlen f) := 0]> m). rewrite Hset. simpl.
  assert (Hget : forall i, aget (<[Z.to_nat (p + zlen f) := 0]> m) i =
    if p + zlen f =? i then Some 0 else aget m i) by (intros i; by apply aget_aset).
  split_and!; [done|done|done|by eapply aset_len| | |].
  - intros i Hi. rewrite Hget. by destruct (Z.eqb_spec (p + zlen f) i); [lia|].
  - apply cstr_iff. split; [|done]. apply bytes_app. split.
    + apply bytes_intro. intros i Hi. rewrite Hget. destruct (Z.eqb_spec (p + zlen f) (p + i)); [lia|].
      by apply bytes_aget.
    + simpl. split; [|done]. rewrite Hget. by rewrite Z.eqb_refl.
  - apply cstr_iff. apply cstr_iff in Hrest as [Hrest Hnzr]. split; [|done].
    apply bytes_intro. intros i Hi. rewrite Hget. destruct (Z.eqb_spec (p + zlen f) (p + zlen f + 1 + i)); [lia|].
    by apply bytes_aget.
Qed.

(** A string whose bytes are not changed. *)
Lemma cstr_frame m m' p s :
  (forall i, p <= i <= p + zlen s -> aget m' i = aget m i) -> cstr m p s -> cstr m' p s.
Proof.
  intros Hf. rewrite !cstr_iff. intros [Hb Hn]. split; [|done]. apply bytes_intro. intros i Hi.
  rewrite zlen_app in Hi. change (zlen [0]) with 1 in Hi. rewrite Hf by lia. apply bytes_aget; [done|].
  rewrite zlen_app. by change (zlen [0]) with 1.
Qed.

(** All calls: the tokens are the fields, and only the string is written to. *)
Lemma strsep_all_spec m s p t q n :
  cstr m p s -> cstr m q t -> q + zlen t < p \/ p + zlen s < q -> (length s + 1 < n)%nat ->
  exists m' toks, strsep_all n m (Some p) q = Some (m', toks) /\
    Forall2 (fun tok f => cstr m' tok f) toks (fields t s) /\
    (forall i, i < p \/ p + zlen s <= i -> aget m' i = aget m i) /\ zlen m' = zlen m.
Proof.
  intros Hs Ht Hd Hn. unfold strsep_all.
  match goal with |- context [loop n ?step _] => set (st := step) end.
  enough (forall acc, exists m' toks, loop n st (m, Some p, acc) = Some (m', acc ++ toks) /\
    Forall2 (fun tok f => cstr m' tok f) toks (fields t s) /\
    (forall i, i < p \/ p + zlen s <= i -> aget m' i = aget m i) /\ zlen m' = zlen m) as H
    by apply (H []).
  remember (length s) as len eqn:Hlen.
  revert m s p n Hlen Hs Ht Hd Hn. induction len as [len IH] using lt_wf_ind.
  intros m s p n Hlen Hs Ht Hd Hn acc. iterate n. unfold st at 1.
  destruct (strsep_spec m s p t q Hs Ht Hd)
    as [[-> ->]|(f & c & rest & m1 & -> & -> & -> & Hz1 & Hfr1 & Hf & Hrest)]; simpl.
  - iterate n. simpl. exists m, [p]. split; [done|]. split; [by repeat constructor|done].
  - rewrite zlen_app, zlen_cons in *. rewrite length_app in Hlen. simpl in Hlen.
    pose proof (zlen_nonneg f). pose proof (zlen_nonneg rest).
    destruct (IH (length rest) ltac:(lia) m1 rest (p + zlen f + 1) n eq_refl Hrest) with (acc := acc ++ [p])
      as (m' & toks & Hl & Htoks & Hfr & Hz).
    + eapply cstr_frame, Ht. intros i Hi. apply Hfr1. lia.
    + lia.
    + lia.
    + exists m', (p :: toks). rewrite Hl, <- app_assoc. split; [done|]. split; [|split; [|lia]].
      * constructor; [|done]. eapply cstr_frame, Hf. intros i Hi. apply Hfr. lia.
      * intros i Hi. rewrite Hfr, Hfr1 by lia. done.
Qed.

(** [l] without the bytes in front that satisfy [P]. *)
Fixpoint drop_while (P : Z -> bool) (l : list Z) : list Z :=
  match l with
  | [] => []
  | c :: l' => if P c then drop_while P l' else l
  end.

Definition strip_end (s : list Z) : list Z := reverse (drop_while isspace (reverse s)).

Lemma strip_end_snoc s c : strip_end (s ++ [c]) = if isspace c then strip_end s else s ++ [c].
Proof.
  unfold strip_end. rewrite reverse_app. simpl. destruct (isspace c); [done|].
  by rewrite reverse_cons, reverse_involutive.
Qed.

Lemma strip_end_prefix s : strip_end s `prefix_of` s.
Proof.
  induction s as [|c s IH] using rev_ind; [done|]. rewrite strip_end_snoc.
  destruct (isspace c); [|done]. by apply prefix_app_r.
Qed.

#[local] Opaque isspace.

Lemma strip_loop m p l n :
  bytes m p l -> (length l < n)%nat ->
  loop n (fun e =>
      if p <=? e then
        x ← aget m e;
        if isspace x then Some (Next (e - 1)) else Some (Done e)
      else Some (Done e)) (p + zlen l - 1) = Some (p + zlen (strip_end l) - 1).
Proof.
  revert n. induction l as [|c l IH] using rev_ind; intros n Hl Hn; iterate n.
  - change (zlen (@nil Z)) with 0. destruct (Z.leb_spec p (p + 0 - 1)); [lia|done].
  - rewrite length_app in Hn. simpl in Hn. apply bytes_app in Hl as [Hl [Hc _]].
    rewrite strip_end_snoc, zlen_app. change (zlen [c]) with 1. pose proof (zlen_nonneg l).
    replace (p + (zlen l + 1) - 1) with (p + zlen l) by lia.
    destruct (Z.leb_spec p (p + zlen l)); [|lia]. rewrite Hc. simpl.
    destruct (isspace c); [apply IH; (done || lia)|]. rewrite zlen_app. change (zlen [c]) with 1. f_equal. lia.
Qed.

Lemma skip_loop m p s n :
  cstr m p s -> (length s < n)%nat ->
  exists p', loop n (fun s =>
      x ← aget m s;
      if negb (x =? 0) && isspace x then Some (Next (s + 1)) else Some (Done s)) p = Some p' /\
    cstr m p' (drop_while isspace s) /\ p <= p'.
Proof.
  revert p n. induction s as [|c s IH]; intros p n Hs Hn; simpl in Hs, Hn; iterate n.
  - rewrite Hs. simpl. exists p. split; [done|]. split; [done|lia].
  - destruct Hs as (Hc & Hnz & Hs). rewrite Hc. simpl. destruct (Z.eqb_spec c 0); [done|]. simpl.
    destruct (isspace c).
    + destruct (IH (p + 1) n Hs ltac:(lia)) as (p' & -> & ? & ?). exists p'. split; [done|]. split; [done|lia].
    + exists p. split; [done|]. split; [done|lia].
Qed.

Lemma strstrip_spec m s p :
  cstr m p s ->
  exists m' p', strstrip m p = Some (m', p') /\ cstr m' p' (drop_while isspace (strip_end s)) /\
    p <= p' /\ zlen m' = zlen m /\ (forall i, i < p \/ p + zlen s <= i -> aget m' i = aget m i).
Proof.
  intros Hs. unfold strstrip. rewrite (strlen_spec _ _ _ Hs). simpl.
  destruct (Z.eqb_spec (zlen s) 0) as [Hz|Hz].
  { apply zlen_nil_inv in Hz as ->. exists m, p. split; [done|]. split; [done|]. split; [lia|done]. }
  pose proof (cstr_range _ _ _ Hs) as Hr. pose proof (cstr_nonzero _ _ _ Hs) as Hnz.
  pose proof (cstr_fuel _ _ _ Hs) as Hf. apply cstr_bytes in Hs as Hb.
  apply bytes_app in Hb as [Hb Hb0]. rewrite strip_loop by done. simpl.
  destruct (strip_end_prefix s) as [tl Htl].
  set (r := strip_end s) in *. pose proof (zlen_nonneg r).
  assert (Hzr : zlen s = zlen r + zlen tl) by (rewrite Htl; apply zlen_app).
  pose proof (zlen_nonneg tl). replace (p + zlen r - 1 + 1) with (p + zlen r) by lia.
  assert (Hset : aset m (p + zlen r) 0 = Some (<[Z.to_nat (p + zlen r) := 0]> m)) by (apply aset_Some; lia).
  rewrite Hset. simpl. set (m' := <[_ := 0]> m).
  assert (Hget : forall i, aget m' i = if p + zlen r =? i then Some 0 else aget m i)
    by (intros i; by apply aget_aset).
  assert (Hs' : cstr m' p r).
  { apply cstr_iff. rewrite Htl in Hb, Hnz. apply bytes_app in Hb as [Hb _]. apply Forall_app in Hnz as [Hnz _].
    split; [|done]. apply bytes_app. split.
    - apply bytes_intro. intros i Hi. rewrite Hget. destruct (Z.eqb_spec (p + zlen r) (p + i)); [lia|].
      by apply bytes_aget.
    - simpl. split; [|done]. by rewrite Hget, Z.eqb_refl. }
  destruct (skip_loop m' p r (fuel m') Hs' (cstr_fuel _ _ _ Hs')) as (p' & -> & Hp' & Hle).
  exists m', p'. split_and!; [done|done|done|by eapply aset_len|].
  intros i Hi. rewrite Hget. destruct (Z.eqb_spec (p + zlen r) i) as [<-|]; [|done].
  assert (zlen tl = 0) as Htl0 by lia. apply zlen_nil_inv in Htl0 as ->. rewrite app_nil_r in Htl.
  rewrite <- Htl. destruct Hb0 as [-> _]. done.
Qed.

(** ** Copying *)

(** The bytes of [l], by the address they are copied to. *)
Definition src_byte (l : list Z) (p k : Z) : Z := l !!! Z.to_nat (k - p).

Lemma src_byte_at l p k : src_byte l p (p + k) = l !!! Z.to_nat k.
Proof. unfold src_byte. do 2 f_equal. lia. Qed.

Lemma write_setw m p l : write m p l = setw m p (p + zlen l) (src_byte l p).
Proof. done. Qed.

Lemma setw_frame (m : list Z) a b F i : i < a \/ b <= i -> aget (setw m a b F) i = aget m i.
Proof.
  intros Hi. destruct (Z.le_gt_cases 0 i); [destruct (Z.lt_ge_cases i (zlen m))|].
  - rewrite setw_aget by lia. zcases.
  - rewrite !aget_lookup by lia. rewrite !lookup_ge_None_2; [done| |].
    + unfold zlen in *. lia.
    + pose proof (setw_zlen m a b F). unfold zlen in *. lia.
  - unfold aget. by destruct (Z.leb_spec 0 i); [lia|].
Qed.

Lemma str_memcpy_spec m dest src l :
  bytes m src l -> 0 <= dest -> dest + zlen l <= zlen m -> dest <= src \/ src + zlen l <= dest ->
  memcpy m dest src (zlen l) = Some (write m dest l).
Proof.
  intros Hl Hd Hdl Hov. unfold memcpy. rewrite write_setw.
  match goal with |- for_all 0 _ ?body _ = _ =>
    destruct (for_all_rule body (fun k m' => m' = setw m dest (dest + k) (src_byte l dest)) 0 (zlen l) m)
      as (m' & -> & ->) end; [apply zlen_nonneg|by rewrite setw_empty by lia| |done].
  intros k m' Hk ->. rewrite setw_frame by lia. rewrite (bytes_aget m src l) by done.
  rewrite aget_lookup_total by lia. simpl.
  rewrite <- (src_byte_at l dest).
  rewrite setw_up by lia. eexists. split; [done|]. by rewrite Z.add_assoc.
Qed.

Lemma memmove_spec m dest src l :
  bytes m src l -> 0 <= dest -> dest + zlen l <= zlen m ->
  memmove m dest src (zlen l) = Some (write m dest l).
Proof.
  intros Hl Hd Hdl. unfold memmove. destruct (Z.leb_spec dest src); [apply str_memcpy_spec; (done || lia)|].
  rewrite write_setw. set (n := zlen l) in *.
  match goal with |- for_all 0 _ ?body _ = _ =>
    destruct (for_all_rule body
      (fun k m' => m' = setw m (dest + n - k) (dest + n) (src_byte l dest)) 0 n m)
      as (m' & -> & ->) end; [apply zlen_nonneg|by rewrite setw_empty by lia| |f_equal; f_equal; lia].
  intros k m' Hk ->.
  rewrite setw_frame by lia.
  replace (src + n - 1 - k) with (src + (n - 1 - k)) by lia. rewrite (bytes_aget m src l) by (done || lia).
  rewrite aget_lookup_total by lia. simpl.
  rewrite <- (src_byte_at l dest). replace (dest + (n - 1 - k)) with (dest + n - 1 - k) by lia.
  replace (dest + n - k) with (dest + n - 1 - k + 1) by lia. rewrite setw_down by lia.
  eexists. split; [done|]. f_equal. lia.
Qed.

Lemma zlen_repeat (x : Z) n : 0 <= n -> zlen (repeat x (Z.to_nat n)) = n.
Proof. intros. unfold zlen. rewrite repeat_length. lia. Qed.

Lemma memset_spec m s c n :
  0 <= n -> 0 <= s -> s + n <= zlen m ->
  memset m s c n = Some (write m s (repeat (wrap 8 c) (Z.to_nat n))).
Proof.
  intros Hn Hs Hsl. unfold memset. rewrite write_setw. rewrite zlen_repeat by done.
  set (l := repeat (wrap 8 c) (Z.to_nat n)).
  match goal with |- for_all 0 _ ?body _ = _ =>
    destruct (for_all_rule body (fun k m' => m' = setw m s (s + k) (src_byte l s)) 0 n m)
      as (m' & -> & ->) end; [done|by rewrite setw_empty by lia| |done].
  intros k m' Hk ->. replace (wrap 8 c) with (src_byte l s (s + k)).
  - rewrite setw_up by lia. eexists. split; [done|]. by rewrite Z.add_assoc.
  - rewrite src_byte_at. apply (repeat_spec (Z.to_nat n)). fold l. apply list_elem_of_In, list_elem_of_lookup_total_2.
    unfold l. rewrite repeat_length. lia.
Qed.

(** Writing one more byte. *)
Lemma write_snoc m p l c :
  0 <= p -> p + zlen l < zlen m -> aset (write m p l) (p + zlen l) c = Some (write m p (l ++ [c])).
Proof.
  intros Hp Hl. pose proof (zlen_nonneg l).
  assert (Hs : aset (write m p l) (p + zlen l) c = Some (<[Z.to_nat (p + zlen l) := c]> (write m p l)))
    by (apply aset_Some; rewrite write_zlen; lia).
  rewrite Hs. f_equal. apply mem_ext; [by rewrite (aset_len _ _ _ _ Hs), !write_zlen|].
  intros i. rewrite (aget_aset _ _ _ i _ Hs), !write_aget by (rewrite ?zlen_app; change (zlen [c]) with 1; lia).
  rewrite zlen_app. change (zlen [c]) with 1. destruct (Z.eqb_spec (p + zlen l) i) as [<-|].
  - replace (p + zlen l - p) with (zlen l) by lia. rewrite aget_mid by done. zcases.
  - destruct (Z.leb_spec p i); [|done]. destruct (Z.ltb_spec i (p + zlen l)); simpl.
    + rewrite aget_app_l by lia. zcases.
    + zcases.
Qed.

(** [copy_loop] between areas that do not overlap. *)
Lemma copy_loop_spec m dest src s :
  cstr m src s -> 0 <= dest -> dest + zlen s < zlen m -> dest + zlen s < src \/ src + zlen s < dest ->
  copy_loop m dest src = Some (write m dest (s ++ [0])).
Proof.
  intros Hs Hd Hdl Hov. unfold copy_loop. pose proof (cstr_fuel _ _ _ Hs) as Hf.
  generalize dependent (fuel m). intros n Hn.
  revert m dest src n Hs Hd Hdl Hov Hn. induction s as [|c s IH]; intros m dest src n Hs Hd Hdl Hov Hn;
    simpl in Hs, Hn; iterate n.
  - change (zlen (@nil Z)) with 0 in *. rewrite Hs. simpl.
    destruct (write_cons m dest 0 []) as (m1 & -> & _ & Hw & _); [done|by change (zlen (@nil Z)) with 0|].
    simpl. by rewrite <- Hw, write_nil.
  - destruct Hs as (Hc & Hnz & Hs). rewrite zlen_cons in *. rewrite Hc. simpl. pose proof (zlen_nonneg s).
    destruct (write_cons m dest c (s ++ [0])) as (m1 & -> & Hz & Hw & Hget);
      [done|rewrite zlen_app; change (zlen [0]) with 1; lia|].
    simpl. destruct (Z.eqb_spec c 0); [done|]. simpl. rewrite <- Hw.
    apply IH; [|lia..]. eapply cstr_frame, Hs. intros i Hi. rewrite Hget. zcases.
Qed.

Definition padded (n : Z) (s : list Z) : list Z := upto n s ++ repeat 0 (Z.to_nat (n - zlen s)).

Lemma zlen_padded n s : 0 <= n -> zlen (padded n s) = n.
Proof. intros Hn. unfold padded, zlen. rewrite length_app, length_take, repeat_length. lia. Qed.

Lemma padded_lookup n s k :
  0 <= k < n -> padded n s !!! Z.to_nat k = if k <? zlen s then s !!! Z.to_nat k else 0.
Proof.
  intros Hk. unfold padded. destruct (Z.ltb_spec k (zlen s)).
  - rewrite lookup_total_app_l by (rewrite length_take; unfold zlen in *; lia).
    by rewrite lookup_total_take, decide_True by lia.
  - rewrite lookup_total_app_r by (rewrite length_take; unfold zlen in *; lia).
    apply (repeat_spec (Z.to_nat (n - zlen s))), list_elem_of_In, list_elem_of_lookup_total_2.
    rewrite repeat_length, length_take. unfold zlen in *. lia.
Qed.

Lemma strncpy_spec m dest src s n :
  cstr m src s -> 0 <= n -> 0 <= dest -> dest + n <= zlen m ->
  dest + n <= src \/ src + zlen s < dest ->
  strncpy m dest src n = Some (write m dest (padded n s), dest).
Proof.
  intros Hs Hn Hd Hdl Hov. unfold strncpy. rewrite write_setw, zlen_padded by done.
  set (l := padded n s). pose proof (zlen_nonneg s).
  match goal with |- context [for_all 0 _ ?body _] =>
    destruct (for_all_rule body (fun k '(m', tmp, src') =>
      m' = setw m dest (dest + k) (src_byte l dest) /\ tmp = dest + k /\ src' = src + Z.min k (zlen s))
      0 n (m, dest, src)) as ([[m' tmp] src'] & -> & -> & -> & ->) end;
    [done|split_and!; [by rewrite setw_empty by lia|lia|lia]| |done].
  intros k [[m' tmp] src'] Hk (-> & -> & ->). rewrite setw_frame by lia.
  assert (aget m (src + Z.min k (zlen s)) = Some (src_byte l dest (dest + k))) as ->.
  { rewrite (bytes_aget m src (s ++ [0]));
      [|by apply cstr_bytes|rewrite zlen_app; change (zlen [0]) with 1; lia].
    rewrite src_byte_at. unfold l. rewrite padded_lookup by done.
    destruct (Z.ltb_spec k (zlen s)).
    - rewrite Z.min_l, aget_app_l by lia. apply aget_lookup_total. lia.
    - by rewrite Z.min_r, aget_mid by lia. }
  simpl. rewrite setw_up by lia. simpl. eexists. split; [done|]. split_and!; [by rewrite Z.add_assoc|lia|].
  rewrite src_byte_at. unfold l. rewrite padded_lookup by done. destruct (Z.ltb_spec k (zlen s)); [|simpl; lia].
  assert (s !!! Z.to_nat k <> 0).
  { apply cstr_nonzero in Hs. rewrite list.Forall_forall in Hs.
    apply Hs, list_elem_of_lookup_total_2. unfold zlen in *. lia. }
  destruct (Z.eqb_spec (s !!! Z.to_nat k) 0); [done|]. simpl. lia.
Qed.

(** The prefix of a string in memory. *)
Lemma upto_bytes m p s n : cstr m p s -> bytes m p (upto n s).
Proof.
  intros Hs%cstr_bytes. rewrite <- (take_drop (Z.to_nat n) s), <- app_assoc in Hs.
  by apply bytes_app in Hs as [].
Qed.

Lemma zlen_upto n (s : list Z) : 0 <= n -> zlen (upto n s) = Z.min n (zlen s).
Proof. intros. unfold zlen. rewrite length_take. lia. Qed.

(** Copying [n] bytes of a string, all of it when it is shorter, and a 0. *)
Lemma copy_upto m dest src s n :
  cstr m src s -> 0 <= n -> 0 <= dest ->
  let len := Z.min n (zlen s) in
  dest + len < zlen m -> dest <= src \/ src + len <= dest ->
  (m ← memcpy m dest src len; aset m (dest + len) 0) = Some (write m dest (upto n s ++ [0])).
Proof.
  intros Hs Hn Hd len Hl Hov. unfold len in *. clear len. rewrite <- (zlen_upto n s) in * by done.
  rewrite str_memcpy_spec by (by eapply upto_bytes || lia). simpl. by apply write_snoc.
Qed.

Lemma strlcpy_spec m dest src s size :
  cstr m src s -> 0 <= size -> 0 <= dest -> dest + Z.min size (zlen s + 1) <= zlen m ->
  dest <= src \/ src + zlen s < dest ->
  strlcpy m dest src size =
  Some (if size =? 0 then m else write m dest (upto (size - 1) s ++ [0]), zlen s).
Proof.
  intros Hs Hsz Hd Hl Hov. unfold strlcpy. rewrite (strlen_spec _ _ _ Hs). simpl.
  destruct (Z.eqb_spec size 0) as [->|]; [done|]. simpl.
  assert ((if size <=? zlen s then size - 1 else zlen s) = Z.min (size - 1) (zlen s)) as -> by zcases.
  pose proof (copy_upto m dest src s (size - 1) Hs ltac:(lia) Hd ltac:(lia) ltac:(lia)) as Hc.
  destruct (memcpy _ _ _ _) as [m1|]; [|done]. simpl in *. by rewrite Hc.
Qed.

Lemma strlcat_spec m dest d src s count :
  cstr m dest d -> cstr m src s -> 0 <= count ->
  dest + Z.min count (zlen d + zlen s + 1) <= zlen m ->
  dest + zlen d <= src \/ src + zlen s < dest ->
  strlcat m dest src count =
  if count <=? zlen d then None
  else Some (write m (dest + zlen d) (upto (count - zlen d - 1) s ++ [0]), zlen d + zlen s).
Proof.
  intros Hdst Hs Hc Hl Hov. unfold strlcat. rewrite (strlen_spec _ _ _ Hdst), (strlen_spec _ _ _ Hs). simpl.
  pose proof (cstr_range _ _ _ Hdst). pose proof (zlen_nonneg d).
  destruct (Z.leb_spec count (zlen d)); [done|].
  assert ((if count - zlen d <=? zlen s then count - zlen d - 1 else zlen s) =
    Z.min (count - zlen d - 1) (zlen s)) as -> by zcases.
  pose proof (copy_upto m (dest + zlen d) src s (count - zlen d - 1) Hs ltac:(lia) ltac:(lia) ltac:(lia)
    ltac:(lia)) as Hcp.
  destruct (memcpy _ _ _ _) as [m1|]; [|done]. simpl in *. by rewrite Hcp.
Qed.

Lemma strcpy_spec m dest src s :
  cstr m src s -> 0 <= dest -> dest + zlen s < zlen m -> dest + zlen s < src \/ src + zlen s < dest ->
  strcpy m dest src = Some (write m dest (s ++ [0]), dest).
Proof. intros. unfold strcpy. by erewrite copy_loop_spec. Qed.

Lemma strcat_spec m dest d src s :
  cstr m dest d -> cstr m src s -> dest + zlen d + zlen s < zlen m ->
  dest + zlen d + zlen s < src \/ src + zlen s < dest ->
  strcat m dest src = Some (write m (dest + zlen d) (s ++ [0]), dest).
Proof.
  intros Hd Hs Hl Hov. pose proof (cstr_range _ _ _ Hd). pose proof (zlen_nonneg d).
  unfold strcat. rewrite (end_of_spec _ _ _ Hd). simpl. by erewrite copy_loop_spec by (done || lia).
Qed.

Lemma strncat_spec m dest d src s count :
  cstr m dest d -> cstr m src s -> 0 <= count ->
  dest + zlen d + Z.min count (zlen s) < zlen m ->
  dest + zlen d + Z.min count (zlen s) < src \/ src + zlen s < dest ->
  strncat m dest src count =
  Some (if count =? 0 then m else write m (dest + zlen d) (upto count s ++ [0]), dest).
Proof.
  intros Hdst Hs Hc Hl Hov. pose proof (cstr_range _ _ _ Hdst) as [Hd0 _]. pose proof (zlen_nonneg d).
  unfold strncat. destruct (Z.eqb_spec count 0); [done|]. simpl. rewrite (end_of_spec _ _ _ Hdst). simpl.
  match goal with |- context [loop _ ?step _] => set (st := step) end.
  enough (loop (fuel m) st (m, dest + zlen d, src, count) =
    Some (write m (dest + zlen d) (upto count s ++ [0]))) as -> by done.
  pose proof (cstr_fuel _ _ _ Hs) as Hf. generalize dependent (fuel m). intros f Hf.
  assert (Hov' : dest + zlen d + Z.min count (zlen s) < src \/ src + zlen s < dest + zlen d) by lia.
  assert (He : 0 <= dest + zlen d) by lia. assert (Hc1 : 1 <= count) by lia.
  clear Hdst Hov Hd0 Hc n H. generalize dependent (dest + zlen d). intros e Hl Hov He.
  revert m e src count f Hs Hl Hov He Hc1 Hf.
  induction s as [|c s IH]; intros m e src count f Hs Hl Hov He Hc1 Hf; simpl in Hs, Hf; iterate f;
    unfold st at 1.
  - change (zlen (@nil Z)) with 0 in *. rewrite Hs, upto_nil. simpl.
    destruct (write_cons m e 0 []) as (m1 & -> & _ & Hw & _); [done|change (zlen (@nil Z)) with 0; lia|].
    simpl. by rewrite <- Hw, write_nil.
  - destruct Hs as (Hc & Hnz & Hs). rewrite zlen_cons in *. rewrite Hc, upto_cons by lia. simpl.
    pose proof (zlen_nonneg s).
    destruct (write_cons m e c (upto (count - 1) s ++ [0])) as (m1 & -> & Hz & Hw & Hget);
      [done|rewrite zlen_app, zlen_upto by lia; change (zlen [0]) with 1; lia|].
    simpl. destruct (Z.eqb_spec c 0); [done|]. simpl. rewrite <- Hw.
    destruct (Z.eqb_spec (count - 1) 0) as [H0|H0].
    + rewrite H0. simpl.
      destruct (write_cons m1 (e + 1) 0 []) as (m2 & -> & _ & Hw2 & _);
        [lia|change (zlen (@nil Z)) with 0; lia|]. simpl. by rewrite <- Hw2, write_nil.
    + apply IH; [|lia..]. eapply cstr_frame, Hs. intros i Hi. rewrite Hget. zcases.
Qed.

(** What was written is the new string at the destination. *)
Lemma write_string m p d s :
  cstr m p d -> Forall (fun c => c <> 0) s -> p + zlen d + zlen s < zlen m ->
  cstr (write m (p + zlen d) (s ++ [0])) p (d ++ s).
Proof.
  intros Hd Hs Hl. pose proof (cstr_range _ _ _ Hd). pose proof (zlen_nonneg d). pose proof (zlen_nonneg s).
  apply cstr_iff in Hd as [Hb Hn]. apply bytes_app in Hb as [Hb _]. apply cstr_iff.
  split; [|by apply Forall_app]. rewrite <- app_assoc. apply bytes_app.
  assert (zlen (s ++ [0]) = zlen s + 1) by (rewrite zlen_app; done).
  split; [apply write_frame; (done || lia)|apply write_bytes; lia].
Qed.

(** * Theorems *)

(** C32 The functions that search a string or an area of memory give the first
    position with the property, the last for [strrchr], or say that there is none:
    [strlen], [strnlen], [strchr], [strrchr], [strnchr], [strspn], [strcspn],
    [strpbrk], [strstr], and on areas of any bytes, 0 included, and any length
    [memchr] and [memscan]. They read nothing beyond the string or the area.  Calling [strsep] until it returns [NULL] splits the string at every byte of
    the set: the pointers it gave are, in order, the pieces between those bytes,
    empty ones included, and only bytes of the string were overwritten.
    [strstrip] leaves the string without white space at either end at the pointer
    it returns.

    The comparisons give the order of the strings byte by byte, up to the limit
    and up to case where they say so: [strcmp], [strncmp], [memcmp] on areas of
    any bytes, [strcasecmp],
    [strnicmp], and [strncasecmp] except that for it a limit of 0 means [2 ^ 64].
    The order is antisymmetric and gives 0 for equal strings only.
    [sysfs_streq] holds exactly when the strings are equal or differ in one
    trailing newline. *)
Theorem string_queries_correct m p s q t c n :
  mem_ok m -> cstr m p s -> cstr m q t -> 0 <= n < 2 ^ 64 -> zlen s < 2 ^ 31 -> zlen t < 2 ^ 31 ->
  let lower l := tolower <$> l in
  strlen m p = Some (zlen s) /\
  strnlen m p n = Some (Z.min n (zlen s)) /\
  strchr m p c = Some (Z.add p <$> index (Z.eqb (wrap 8 c)) (s ++ [0])) /\
  strrchr m p c =
    Some ((fun i => p + zlen s - i) <$> index (Z.eqb (wrap 8 c)) (reverse (s ++ [0]))) /\
  strnchr m p n c = Some (Z.add p <$> index (Z.eqb (wrap 8 c)) (upto n s)) /\
  strspn m p q = Some (default (zlen s) (index (fun c => negb (among t c)) s)) /\
  strcspn m p q = Some (default (zlen s) (index (among t) s)) /\
  strpbrk m p q = Some (Z.add p <$> index (among t) s) /\
  (exists r, strstr m p q = Some r /\
     match r with
     | Some x => exists i, x = p + Z.of_nat i /\ t `prefix_of` drop i s /\
         forall j, (j < i)%nat -> ~ t `prefix_of` drop j s
     | None => forall j, ~ t `prefix_of` drop j s
     end) /\
  (forall a l, bytes m a l ->
     memchr m a c (zlen l) = Some (Z.add a <$> index (Z.eqb (wrap 8 c)) l) /\
     memscan m a c (zlen l) = Some (a + default (zlen l) (index (fun x => x =? c) l))) /\
  (forall P l, match index P l with
     | Some i => (exists x, aget l i = Some x /\ P x = true) /\
         forall j x, 0 <= j < i -> aget l j = Some x -> P x = false
     | None => Forall (fun x => P x = false) l
     end) /\
  (forall fuel, q + zlen t < p \/ p + zlen s < q -> (length s + 1 < fuel)%nat ->
   exists m' toks, strsep_all fuel m (Some p) q = Some (m', toks) /\
     Forall2 (fun tok f => cstr m' tok f) toks (fields t s) /\
     (forall i, i < p \/ p + zlen s <= i -> aget m' i = aget m i) /\ zlen m' = zlen m) /\
  (exists m' p', strstrip m p = Some (m', p') /\ p <= p' /\
     cstr m' p' (drop_while isspace (reverse (drop_while isspace (reverse s)))) /\
     zlen m' = zlen m /\ (forall i, i < p \/ p + zlen s <= i -> aget m' i = aget m i)) /\
  strcmp m p q = Some (lexcmp s t) /\
  strncmp m p q n = Some (lexcmp (upto n s) (upto n t)) /\
  (forall a l b l', bytes m a l -> bytes m b l' -> zlen l = zlen l' ->
     exists r, memcmp m a b (zlen l) = Some r /\ Z.sgn r = lexcmp l l') /\
  (exists r, strcasecmp m p q = Some r /\ Z.sgn r = lexcmp (lower s) (lower t)) /\
  (exists r, strnicmp m p q n = Some r /\ Z.sgn r = lexcmp (lower (upto n s)) (lower (upto n t))) /\
  (exists r, strncasecmp m p q n = Some r /\
     let k := if n =? 0 then 2 ^ 64 else n in
     Z.sgn r = lexcmp (lower (upto k s)) (lower (upto k t))) /\
  (sysfs_streq m p q = Some true <-> s = t \/ s ++ [newline] = t \/ s = t ++ [newline]) /\
  is_Some (sysfs_streq m p q) /\
  (lexcmp s t = 0 <-> s = t) /\ lexcmp t s = - lexcmp s t.
Proof.
  intros Hm Hs Ht Hn Hzs Hzt lower. pose proof (cstr_bytes _ _ _ Hs) as Hb. apply bytes_app in Hb as [Hb _].
  pose proof (cstr_bytes _ _ _ Ht) as Hb'. apply bytes_app in Hb' as [Hb' _].
  rewrite (sysfs_streq_spec m s t p q Hs Ht).
  split_and!; try (by eauto using strlen_spec, strnlen_spec, strchr_spec, strrchr_spec, strnchr_spec,
    strspn_spec, strcspn_spec, strpbrk_spec, memchr_spec, memscan_spec, strcmp_spec, strcasecmp_spec,
    strnicmp_spec, strncasecmp_spec, lexcmp_eq, lexcmp_antisym).
  - apply strnlen_spec; (done || lia).
  - apply strnchr_spec; (done || lia).
  - eexists. split; [by apply strstr_spec|]. pose proof (sub_index_spec t s) as H.
    destruct (sub_index t s) as [i|]; simpl; [|done]. destruct H as (Hi & Hp & Hmin).
    exists (Z.to_nat i). split; [lia|]. split; [done|]. intros j Hj.
    specialize (Hmin (Z.of_nat j) ltac:(lia)). by rewrite Nat2Z.id in Hmin.
  - apply index_spec.
  - intros fuel Hd Hfuel. by apply strsep_all_spec.
  - destruct (strstrip_spec m s p Hs) as (m' & p' & ? & ? & ? & ? & ?). by exists m', p'.
  - apply strncmp_spec; (done || lia).
  - intros a l b l' Ha Hb2 Hz. by apply memcmp_spec.
  - split; [intros [= He]; by apply bool_decide_eq_true_1 in He|intros He; by rewrite bool_decide_eq_true_2].
Qed.

(** C31 The copying functions write exactly the bytes they should and nothing else,
    between areas that do not overlap: [strcpy] the string with its 0, [strncpy]
    [n] bytes padded with 0, [strlcpy], [strncat] and [strlcat] the part of the
    source that the limit leaves room for and a 0, [strcat] the string behind the
    one that is there. What [strlcpy] and [strlcat] return is the length they would
    have liked to write. [memmove] copies between any two areas, [memset] fills. *)
Theorem string_copies_correct m dest d src s n c :
  cstr m dest d -> cstr m src s -> 0 <= n -> dest + zlen d + zlen s < zlen m -> dest + n <= zlen m ->
  dest + Z.max n (zlen d + zlen s + 1) <= src \/ src + zlen s < dest ->
  strcpy m dest src = Some (write m dest (s ++ [0]), dest) /\
  strncpy m dest src n = Some (write m dest (padded n s), dest) /\
  strlcpy m dest src n =
    Some (if n =? 0 then m else write m dest (upto (n - 1) s ++ [0]), zlen s) /\
  strcat m dest src = Some (write m (dest + zlen d) (s ++ [0]), dest) /\
  strncat m dest src n =
    Some (if n =? 0 then m else write m (dest + zlen d) (upto n s ++ [0]), dest) /\
  strlcat m dest src n =
    (if n <=? zlen d then None
     else Some (write m (dest + zlen d) (upto (n - zlen d - 1) s ++ [0]), zlen d + zlen s)) /\
  (forall k, cstr (write m (dest + zlen d) (upto k s ++ [0])) dest (d ++ upto k s)) /\
  memset m dest c n = Some (write m dest (repeat (wrap 8 c) (Z.to_nat n))) /\
  (forall a b l, bytes m a l -> 0 <= b -> b + zlen l <= zlen m ->
     memmove m b a (zlen l) = Some (write m b l) /\ bytes (write m b l) b l /\
     (a + zlen l <= b \/ b <= a -> memcpy m b a (zlen l) = Some (write m b l))) /\
  (forall p l i, 0 <= p -> p + zlen l <= zlen m ->
     aget (write m p l) i = if (p <=? i) && (i <? p + zlen l) then aget l (i - p) else aget m i).
Proof.
  intros Hd Hs Hn Hl Hln Hov. pose proof (cstr_range _ _ _ Hd). pose proof (zlen_nonneg d).
  pose proof (zlen_nonneg s). split_and!.
  - apply strcpy_spec; (done || lia).
  - apply strncpy_spec; (done || lia).
  - apply strlcpy_spec; (done || lia).
  - apply strcat_spec; (done || lia).
  - apply strncat_spec; (done || lia).
  - apply strlcat_spec; (done || lia).
  - intros k. apply write_string; [done| |].
    + apply cstr_nonzero in Hs. by apply Forall_take.
    + unfold zlen in *. rewrite length_take. lia.
  - apply memset_spec; (done || lia).
  - intros a b l Hb Hb0 Hbl. split_and!; [by apply memmove_spec|by apply write_bytes|].
    intros Hor. apply str_memcpy_spec; (done || lia).
  - intros p l i. apply write_aget.
Qed.

(** * Concrete strings *)

(** ["ab,c "] at 0 and [",;"] at 6, then room. *)
Definition demo_mem : list Z := [97; 98; 44; 99; 32; 0; 44; 59; 0; 0; 0; 0; 0; 0; 0; 0; 0; 0].

Lemma demo_cstr : cstr demo_mem 0 [97; 98; 44; 99; 32] /\ cstr demo_mem 6 [44; 59].
Proof. simpl. repeat split; lia. Qed.

Lemma demo_mem_ok : mem_ok demo_mem.
Proof. repeat (constructor; [vm_compute; split; congruence|]). constructor. Qed.

Lemma string_queries_correct_witness :
  strlen demo_mem 0 = Some 5 /\ strpbrk demo_mem 0 6 = Some (Some 2) /\ strcmp demo_mem 0 6 = Some 1 /\
  exists m', strsep_all 8 demo_mem (Some 0) 6 = Some (m', [0; 3]) /\ cstr m' 0 [97; 98] /\ cstr m' 3 [99; 32].
Proof.
  destruct (string_queries_correct demo_mem 0 _ 6 _ 44 3 demo_mem_ok (proj1 demo_cstr) (proj2 demo_cstr))
    as (H1 & _ & _ & _ & _ & _ & _ & H8 & _ & _ & _ & Hsep & _ & Hcmp & _);
    [lia|vm_compute; reflexivity|vm_compute; reflexivity|].
  split; [exact H1|]. split; [rewrite H8; vm_compute; reflexivity|].
  split; [rewrite Hcmp; vm_compute; reflexivity|].
  destruct (Hsep 8%nat) as (m' & toks & Heq & _); [right; vm_compute; reflexivity|simpl; lia|].
  vm_compute in Heq. injection Heq as <- <-. eexists. split; [vm_compute; reflexivity|].
  split; vm_compute; repeat split; congruence.
Defined.

(** A limit of 0 does not stop [strncasecmp]. *)
Lemma strncasecmp_limit_0 : strncasecmp demo_mem 0 6 0 = Some 53.
Proof. vm_compute. reflexivity. Qed.

Lemma string_copies_correct_witness :
  exists m', strcat demo_mem 6 0 = Some (m', 6) /\ cstr m' 6 [44; 59; 97; 98; 44; 99; 32].
Proof.
  destruct (string_copies_correct demo_mem 6 _ 0 _ 9 0 (proj2 demo_cstr) (proj1 demo_cstr))
    as (_ & _ & _ & H4 & _ & _ & H7 & _); [lia|vm_compute; reflexivity|vm_compute; discriminate|vm_compute; right; reflexivity|].
  eexists. split; [exact H4|]. exact (H7 5).
Defined.
