(* ===== verification/Vsprintf.v ===== *)
(** Numbers in strings: the parsing functions and [number] of lib/vsprintf.c.

    Memory is the byte array of CString.v.  The theorems give the value and the end
    the parsers find for every string, the layout [number] prints for every
    combination of flags, and that parsing what was printed gives the number
    back. *)
From Stdlib Require Import ZArith Lia Bool.
From stdpp Require Import base numbers list option.
From S2P Require Import Prelude CString.

Local Open Scope Z_scope.

(** * Definitions *)

Definition TOLOWER (x : Z) : Z := Z.lor x 0x20.

Definition chr_0 : Z := 48.
Definition chr_a : Z := 97.
Definition chr_x : Z := 120.
Definition chr_X : Z := 88.
Definition chr_minus : Z := 45.
Definition chr_plus : Z := 43.
Definition chr_space : Z := 32.

Definition simple_guess_base (m : list Z) (cp : Z) : option Z :=
  c0 ← aget m cp;
  if c0 =? chr_0 then
    c1 ← aget m (cp + 1);
    if TOLOWER c1 =? chr_x then
      c2 ← aget m (cp + 2); if isxdigit c2 then Some 16 else Some 8
    else Some 8
  else Some 10.

(** Returns the value and the end of the number.  [unsigned int] does not overflow
    in [value]: the byte is a hexadecimal digit. *)
Definition simple_strtoul (m : list Z) (cp base : Z) : option (Z * Z) :=
  base ← (if base =? 0 then simple_guess_base m cp else Some base);
  cp ← (if base =? 16 then
          c0 ← aget m cp;
          if c0 =? chr_0 then
            c1 ← aget m (cp + 1); if TOLOWER c1 =? chr_x then Some (cp + 2) else Some cp
          else Some cp
        else Some cp);
  loop (fuel m) (fun '(result, cp) =>
    c ← aget m cp;
    if isxdigit c then
      let value := if isdigit c then c - chr_0 else TOLOWER c - chr_a + 10 in
      if base <=? value then Some (Done (result, cp))
      else Some (Next (u64 (result * base + value), cp + 1))
    else Some (Done (result, cp))) (0, cp).

Definition simple_strtol (m : list Z) (cp base : Z) : option (Z * Z) :=
  c ← aget m cp;
  if c =? chr_minus then
    '(r, e) ← simple_strtoul m (cp + 1) base; Some (s64 (u64 (- r)), e)
  else '(r, e) ← simple_strtoul m cp base; Some (s64 r, e).

(** The same with [unsigned long long], which has the same 64 bits. *)
Definition simple_strtoull (m : list Z) (cp base : Z) : option (Z * Z) := simple_strtoul m cp base.
Definition simple_strtoll (m : list Z) (cp base : Z) : option (Z * Z) :=
  c ← aget m cp;
  if c =? chr_minus then
    '(r, e) ← simple_strtoull m (cp + 1) base; Some (s64 (u64 (- r)), e)
  else '(r, e) ← simple_strtoull m cp base; Some (s64 r, e).

(** Returns the value returned and [*res]. *)
Definition strict_strtoul (m : list Z) (cp base : Z) : option (Z * Z) :=
  len ← strlen m cp;
  if len =? 0 then Some (- EINVAL, 0)
  else
    '(val, tail) ← simple_strtoul m cp base;
    if tail =? cp then Some (- EINVAL, 0)
    else
      c ← aget m tail;
      if (c =? 0) || ((len =? tail - cp + 1) && (c =? newline)) then Some (0, val)
      else Some (- EINVAL, 0).

Definition strict_strtol (m : list Z) (cp base : Z) : option (Z * Z) :=
  c ← aget m cp;
  if c =? chr_minus then
    '(ret, res) ← strict_strtoul m (cp + 1) base;
    if ret =? 0 then Some (ret, s64 (u64 (- res))) else Some (ret, s64 res)
  else '(ret, res) ← strict_strtoul m cp base; Some (ret, s64 res).

Definition strict_strtoull (m : list Z) (cp base : Z) : option (Z * Z) :=
  len ← strlen m cp;
  if len =? 0 then Some (- EINVAL, 0)
  else
    '(val, tail) ← simple_strtoull m cp base;
    if tail =? cp then Some (- EINVAL, 0)
    else
      c ← aget m tail;
      if (c =? 0) || ((len =? tail - cp + 1) && (c =? newline)) then Some (0, val)
      else Some (- EINVAL, 0).

Definition strict_strtoll (m : list Z) (cp base : Z) : option (Z * Z) :=
  c ← aget m cp;
  if c =? chr_minus then
    '(ret, res) ← strict_strtoull m (cp + 1) base;
    if ret =? 0 then Some (ret, s64 (u64 (- res))) else Some (ret, s64 res)
  else '(ret, res) ← strict_strtoull m cp base; Some (ret, s64 res).

(** The functions with [buf++] return the bytes they append. *)
Definition put_dec_trunc (q : Z) : list Z :=
  let d1 := Z.land (Z.shiftr q 4) 0xf in
  let d2 := Z.land (Z.shiftr q 8) 0xf in
  let d3 := Z.shiftr q 12 in
  let d0 := u32 (6 * (d3 + d2 + d1) + Z.land q 0xf) in
  let q := Z.shiftr (u32 (d0 * 0xcd)) 11 in
  let d0 := u32 (d0 - 10 * q) in
  let d1 := u32 (q + 9 * d3 + 5 * d2 + d1) in
  (d0 + chr_0) ::
  if d1 =? 0 then []
  else
    let q := Z.shiftr (u32 (d1 * 0xcd)) 11 in
    let d1 := u32 (d1 - 10 * q) in
    let d2 := u32 (q + 2 * d2) in
    (d1 + chr_0) ::
    if (d2 =? 0) && (d3 =? 0) then []
    else
      let q := Z.shiftr (u32 (d2 * 0xd)) 7 in
      let d2 := u32 (d2 - 10 * q) in
      let d3 := u32 (q + 4 * d3) in
      (d2 + chr_0) ::
      if d3 =? 0 then []
      else
        let q := Z.shiftr (u32 (d3 * 0xcd)) 11 in
        let d3 := u32 (d3 - 10 * q) in
        (d3 + chr_0) :: if q =? 0 then [] else [q + chr_0].

Definition put_dec_full (q : Z) : list Z :=
  let d1 := Z.land (Z.shiftr q 4) 0xf in
  let d2 := Z.land (Z.shiftr q 8) 0xf in
  let d3 := Z.shiftr q 12 in
  let d0 := u32 (6 * (d3 + d2 + d1) + Z.land q 0xf) in
  let q := Z.shiftr (u32 (d0 * 0xcd)) 11 in
  let d0 := u32 (d0 - 10 * q) in
  let d1 := u32 (q + 9 * d3 + 5 * d2 + d1) in
  let q1 := Z.shiftr (u32 (d1 * 0xcd)) 11 in
  let d1 := u32 (d1 - 10 * q1) in
  let d2 := u32 (q1 + 2 * d2) in
  let q2 := Z.shiftr (u32 (d2 * 0xd)) 7 in
  let d2 := u32 (d2 - 10 * q2) in
  let d3 := u32 (q2 + 4 * d3) in
  let q3 := Z.shiftr (u32 (d3 * 0xcd)) 11 in
  let d3 := u32 (d3 - 10 * q3) in
  [d0 + chr_0; d1 + chr_0; d2 + chr_0; d3 + chr_0; q3 + chr_0].

(** [num] loses five digits in each iteration. *)
Definition put_dec (num : Z) : option (list Z) :=
  loop 5 (fun '(buf, num) =>
    if num <? 100000 then Some (Done (buf ++ put_dec_trunc num))
    else Some (Next (buf ++ put_dec_full (num mod 100000), num / 100000))) ([], num).

Definition ZEROPAD : Z := 1.
Definition SIGN : Z := 2.
Definition PLUS : Z := 4.
Definition SPACE : Z := 8.
Definition LEFT : Z := 16.
Definition SMALL : Z := 32.
Definition SPECIAL : Z := 64.

(** The fields [number] uses.  They are of type [int]. *)
Record printf_spec : Type := PrintfSpec { flags : Z; field_width : Z; base : Z; precision : Z }.

Definition flag (f bit : Z) : bool := negb (Z.land f bit =? 0).

Definition digits : list Z := [48; 49; 50; 51; 52; 53; 54; 55; 56; 57; 65; 66; 67; 68; 69; 70].

(** [if (buf < end) *buf = c; ++buf;] *)
Definition put (m : list Z) (buf end_ c : Z) : option (list Z) :=
  if buf <? end_ then aset m buf c else Some m.

(** [while (--n >= 0)] with this body, for an [int] that can wrap around. *)
Definition pad (end_ c : Z) (st : list Z * Z * Z) : option (list Z * Z * Z) :=
  loop (S (Z.to_nat (s32 (st.2 - 1) + 1))) (fun '(m, buf, n) =>
    let n := s32 (n - 1) in
    if 0 <=? n then m ← put m buf end_ c; Some (Next (m, buf + 1, n))
    else Some (Done (m, buf, n))) st.

(** The digits in base 8 or 16, the last one first. *)
Definition put_pow2 (num mask shift locase : Z) : option (list Z) :=
  loop 22 (fun '(tmp, num) =>
    d ← aget digits (Z.land (wrap 8 num) mask);
    let tmp := tmp ++ [Z.lor d locase] in
    let num := Z.shiftr num shift in
    if negb (num =? 0) then Some (Next (tmp, num)) else Some (Done tmp)) ([], num).

(** Writing outside [tmp] is undefined. *)
Definition TMP_SIZE : Z := 66.

(** The loop [while (i <= --spec.precision)] is [pad] of [precision - i], which is not
    negative there. *)
Definition number (m : list Z) (buf end_ num : Z) (spec : printf_spec) : option (list Z * Z) :=
  let need_pfx := flag (flags spec) SPECIAL && negb (base spec =? 10) in
  let locase := Z.land (flags spec) SMALL in
  let flags_ := if flag (flags spec) LEFT then Z.ldiff (flags spec) ZEROPAD else flags spec in
  let '(sign, num, field_width_) :=
    if flag flags_ SIGN then
      if s64 num <? 0 then (chr_minus, u64 (- s64 num), s32 (field_width spec - 1))
      else if flag flags_ PLUS then (chr_plus, num, s32 (field_width spec - 1))
      else if flag flags_ SPACE then (chr_space, num, s32 (field_width spec - 1))
      else (0, num, field_width spec)
    else (0, num, field_width spec) in
  let field_width_ :=
    if need_pfx then if base spec =? 16 then s32 (s32 (field_width_ - 1) - 1) else s32 (field_width_ - 1)
    else field_width_ in
  tmp ← (if num =? 0 then Some [chr_0]
         else if negb (base spec =? 10) then
           put_pow2 num (base spec - 1) (if base spec =? 16 then 4 else 3) locase
         else put_dec num);
  if TMP_SIZE <? zlen tmp then None
  else
    let i := zlen tmp in
    let precision_ := if precision spec <? i then i else precision spec in
    let field_width_ := s32 (field_width_ - precision_) in
    '(m, buf, field_width_) ←
      (if negb (flag flags_ (ZEROPAD + LEFT)) then pad end_ chr_space (m, buf, field_width_)
       else Some (m, buf, field_width_));
    '(m, buf) ← (if negb (sign =? 0) then m ← put m buf end_ sign; Some (m, buf + 1) else Some (m, buf));
    '(m, buf) ←
      (if need_pfx then
         m ← put m buf end_ chr_0;
         if base spec =? 16 then m ← put m (buf + 1) end_ (Z.lor chr_X locase); Some (m, buf + 1 + 1)
         else Some (m, buf + 1)
       else Some (m, buf));
    '(m, buf, field_width_) ←
      (if negb (flag flags_ LEFT) then
         pad end_ (if flag flags_ ZEROPAD then chr_0 else chr_space) (m, buf, field_width_)
       else Some (m, buf, field_width_));
    '(m, buf, _) ← pad end_ chr_0 (m, buf, precision_ - i);
    '(m, buf) ← for_all 0 i (fun k '(m, buf) =>
      c ← aget tmp (i - 1 - k); m ← put m buf end_ c; Some (m, buf + 1)) (m, buf);
    '(m, buf, _) ← pad end_ chr_space (m, buf, field_width_);
    Some (m, buf).

(** * Parsing *)

Definition digit_val (c : Z) : Z := if isdigit c then c - chr_0 else TOLOWER c - chr_a + 10.

(** The values of the digits in base [b] that [s] starts with. *)
Fixpoint digit_prefix (b : Z) (s : list Z) : list Z :=
  match s with
  | [] => []
  | c :: s' => if isxdigit c && (digit_val c <? b) then digit_val c :: digit_prefix b s' else []
  end.

(** The number a list of digits stands for, the first being the highest. *)
Definition number_of (b : Z) (ds : list Z) : Z := foldl (fun r d => r * b + d) 0 ds.

Definition guess_base (s : list Z) : Z :=
  match s with
  | c0 :: c1 :: c2 :: _ =>
      if c0 =? chr_0 then if (TOLOWER c1 =? chr_x) && isxdigit c2 then 16 else 8 else 10
  | c0 :: _ => if c0 =? chr_0 then 8 else 10
  | [] => 10
  end.

(** The length of the prefix ["0x"] that is skipped. *)
Definition prefix_len (b : Z) (s : list Z) : Z :=
  match s with
  | c0 :: c1 :: _ => if (b =? 16) && (c0 =? chr_0) && (TOLOWER c1 =? chr_x) then 2 else 0
  | _ => 0
  end.

(** The number at the start of [s] and how many bytes of [s] it takes. *)
Definition parsed (b : Z) (s : list Z) : Z * Z :=
  let b := if b =? 0 then guess_base s else b in
  let k := prefix_len b s in
  let ds := digit_prefix b (drop (Z.to_nat k) s) in
  (number_of b ds, k + zlen ds).

#[local] Arguments Z.eqb : simpl never.
#[local] Arguments Z.lor : simpl never.
#[local] Opaque isxdigit isdigit.

Lemma isxdigit_0 : isxdigit 0 = false.
Proof. vm_compute. reflexivity. Qed.

Lemma simple_guess_base_spec m p s : cstr m p s -> simple_guess_base m p = Some (guess_base s).
Proof.
  unfold simple_guess_base. destruct s as [|c0 s]; simpl.
  - intros ->. done.
  - intros (-> & _ & Hs). simpl. destruct s as [|c1 s]; simpl in Hs |- *.
    + rewrite Hs. simpl. by destruct (c0 =? chr_0).
    + destruct Hs as (-> & _ & Hs). simpl. destruct (c0 =? chr_0); [|by destruct s].
      destruct s as [|c2 s]; simpl in Hs |- *.
      * replace (p + 1 + 1) with (p + 2) in Hs by lia. rewrite Hs. simpl. rewrite isxdigit_0.
        by destruct (_ =? chr_x).
      * replace (p + 1 + 1) with (p + 2) in Hs by lia. destruct Hs as (-> & _ & _). simpl.
        by destruct (_ =? chr_x), (isxdigit c2).
Qed.

Lemma skip_prefix m p s b :
  cstr m p s ->
  (if b =? 16 then
     c0 ← aget m p;
     if c0 =? chr_0 then
       c1 ← aget m (p + 1); if TOLOWER c1 =? chr_x then Some (p + 2) else Some p
     else Some p
   else Some p) = Some (p + prefix_len b s).
Proof.
  intros Hs. assert (Hp : Some p = Some (p + 0)) by (f_equal; lia).
  unfold prefix_len. destruct (b =? 16); simpl; [|destruct s as [|? [|? ?]]; done].
  destruct s as [|c0 s]; simpl in Hs; [by rewrite Hs|].
  destruct Hs as (-> & _ & Hs). simpl. destruct s as [|c1 s]; simpl in Hs.
  - rewrite Hs. simpl. by destruct (c0 =? chr_0).
  - destruct Hs as (-> & _ & _). simpl. by destruct (c0 =? chr_0), (_ =? chr_x).
Qed.

(** The rest of a string is a string. *)
Lemma cstr_drop m p s k :
  cstr m p s -> 0 <= k <= zlen s -> cstr m (p + k) (drop (Z.to_nat k) s).
Proof.
  revert p k. induction s as [|c s IH]; intros p k Hs Hk.
  - change (zlen (@nil Z)) with 0 in Hk. replace k with 0 by lia. by rewrite Z.add_0_r.
  - rewrite zlen_cons in Hk. destruct (Z.eq_dec k 0) as [->|]; [by rewrite Z.add_0_r|].
    destruct Hs as (_ & _ & Hs). replace (Z.to_nat k) with (S (Z.to_nat (k - 1))) by lia. simpl.
    replace (p + k) with (p + 1 + (k - 1)) by lia. apply IH; [done|lia].
Qed.

Lemma prefix_len_range b s : 0 <= prefix_len b s <= zlen s.
Proof.
  unfold prefix_len, zlen. destruct s as [|? [|? s]]; simpl; [lia..|].
  destruct ((b =? 16) && _ && _); lia.
Qed.

Lemma u64_step r b d : u64 (u64 r * b + d) = u64 (r * b + d).
Proof. unfold wrap. by rewrite <- Zplus_mod_idemp_l, Zmult_mod_idemp_l, Zplus_mod_idemp_l. Qed.

Lemma strto_loop m p s b n r :
  cstr m p s -> (length s < n)%nat ->
  loop n (fun '(result, cp) =>
    c ← aget m cp;
    if isxdigit c then
      let value := if isdigit c then c - chr_0 else TOLOWER c - chr_a + 10 in
      if b <=? value then Some (Done (result, cp))
      else Some (Next (u64 (result * b + value), cp + 1))
    else Some (Done (result, cp))) (u64 r, p) =
  Some (u64 (foldl (fun r d => r * b + d) r (digit_prefix b s)), p + zlen (digit_prefix b s)).
Proof.
  revert p n r. induction s as [|c s IH]; intros p n r Hs Hn; simpl in Hs, Hn; iterate n.
  - rewrite Hs. simpl. rewrite isxdigit_0. change (zlen (@nil Z)) with 0. by rewrite Z.add_0_r.
  - destruct Hs as (Hc & _ & Hs). rewrite Hc. simpl. fold (digit_val c).
    assert (Hp : Some (u64 r, p) = Some (u64 r, p + zlen (@nil Z)))
      by (change (zlen (@nil Z)) with 0; by rewrite Z.add_0_r).
    destruct (isxdigit c); simpl; [|done].
    destruct (Z.leb_spec b (digit_val c)), (Z.ltb_spec (digit_val c) b); try lia; simpl; [done|].
    rewrite u64_step, IH by (done || lia). rewrite zlen_cons. do 2 f_equal. lia.
Qed.

Lemma digit_prefix_length b s : (length (digit_prefix b s) <= length s)%nat.
Proof. induction s as [|c s IH]; simpl; [done|]. destruct (_ && _); simpl; lia. Qed.

Lemma simple_strtoul_spec m p s b :
  cstr m p s -> simple_strtoul m p b = Some (u64 (parsed b s).1, p + (parsed b s).2).
Proof.
  intros Hs. unfold simple_strtoul, parsed.
  assert ((if b =? 0 then simple_guess_base m p else Some b) =
    Some (if b =? 0 then guess_base s else b)) as ->
    by (destruct (b =? 0); [by apply simple_guess_base_spec|done]).
  simpl. set (b' := if b =? 0 then _ else _). rewrite (skip_prefix m p s b' Hs). simpl.
  pose proof (prefix_len_range b' s) as Hk. pose proof (cstr_drop _ _ _ _ Hs Hk) as Hd.
  pose proof (strto_loop m _ _ b' (fuel m) 0 Hd (cstr_fuel _ _ _ Hd)) as Hl.
  etransitivity; [exact Hl|].
  unfold number_of. do 2 f_equal. lia.
Qed.

Lemma parsed_range b s : 0 <= (parsed b s).2 <= zlen s.
Proof.
  unfold parsed. simpl. set (b' := if b =? 0 then guess_base s else b). pose proof (prefix_len_range b' s) as Hk.
  pose proof (digit_prefix_length b' (drop (Z.to_nat (prefix_len b' s)) s)) as Hl.
  rewrite length_drop in Hl. unfold zlen in *. lia.
Qed.

#[local] Opaque parsed.

Definition strict_ok (b : Z) (s : list Z) : bool :=
  (0 <? (parsed b s).2) &&
  bool_decide (drop (Z.to_nat (parsed b s).2) s = [] \/ drop (Z.to_nat (parsed b s).2) s = [newline]).

Lemma strict_strtoul_spec m p s b :
  cstr m p s ->
  strict_strtoul m p b = Some (if strict_ok b s then (0, u64 (parsed b s).1) else (- EINVAL, 0)).
Proof.
  intros Hs. unfold strict_strtoul, strict_ok. rewrite (strlen_spec _ _ _ Hs). simpl.
  pose proof (parsed_range b s) as Hr. rewrite (simple_strtoul_spec m p s b Hs). simpl.
  set (k := (parsed b s).2) in *. set (v := u64 (parsed b s).1).
  destruct (Z.eqb_spec (zlen s) 0) as [H0|H0]; [destruct (Z.ltb_spec 0 k); [lia|done]|].
  destruct (Z.eqb_spec (p + k) p), (Z.ltb_spec 0 k); try lia; [done|]. simpl.
  pose proof (cstr_drop _ _ _ _ Hs Hr) as Hd.
  assert (Hz : zlen s = k + zlen (drop (Z.to_nat k) s)).
  { rewrite <- (take_drop (Z.to_nat k) s) at 1. rewrite zlen_app. f_equal.
    unfold zlen in *. rewrite length_take. lia. }
  destruct (drop (Z.to_nat k) s) as [|c rest]; simpl in Hd.
  - by rewrite Hd.
  - destruct Hd as (Hc & Hnz & Hrest). rewrite Hc. simpl. destruct (Z.eqb_spec c 0); [done|]. simpl.
    rewrite zlen_cons in Hz. pose proof (zlen_nonneg rest).
    destruct (Z.eqb_spec (zlen s) (p + k - p + 1)) as [He|He]; simpl.
    + assert (zlen rest = 0) as Hr0 by lia. apply zlen_nil_inv in Hr0 as ->.
      destruct (Z.eqb_spec c newline) as [->|].
      * by rewrite bool_decide_eq_true_2 by (by right).
      * rewrite bool_decide_eq_false_2; [done|]. naive_solver.
    + rewrite bool_decide_eq_false_2; [done|]. intros [?|[= _ ->]]; [done|].
      change (zlen (@nil Z)) with 0 in *. lia.
Qed.

(** The signed parsers, behind a minus sign and without one. *)
Lemma strtol_minus m p t b :
  cstr m p (chr_minus :: t) ->
  simple_strtol m p b = Some (s64 (u64 (- (parsed b t).1)), p + 1 + (parsed b t).2) /\
  simple_strtoll m p b = simple_strtol m p b /\
  strict_strtol m p b = Some (if strict_ok b t then (0, s64 (u64 (- (parsed b t).1))) else (- EINVAL, 0)).
Proof.
  assert (Hneg : forall x, u64 (- u64 x) = u64 (- x)).
  { intros x. unfold wrap. rewrite <- !(Z.sub_0_l). by rewrite Zminus_mod_idemp_r. }
  intros (Hc & _ & Ht). unfold simple_strtoll, simple_strtoull, simple_strtol, strict_strtol. rewrite Hc.
  simpl. rewrite (simple_strtoul_spec m (p + 1) t b Ht), (strict_strtoul_spec m (p + 1) t b Ht). simpl.
  rewrite !Hneg. split; [done|]. split; [done|]. by destruct (strict_ok b t); simpl; rewrite ?Hneg.
Qed.

Lemma strtol_plain m p s b :
  cstr m p s -> head s <> Some chr_minus ->
  simple_strtol m p b = Some (s64 (u64 (parsed b s).1), p + (parsed b s).2) /\
  simple_strtoll m p b = simple_strtol m p b /\
  strict_strtol m p b = Some (if strict_ok b s then (0, s64 (u64 (parsed b s).1)) else (- EINVAL, 0)).
Proof.
  intros Hs Hh. destruct (cstr_head _ _ _ Hs) as (c & Hc & _).
  assert (c <> chr_minus).
  { intros ->. destruct s as [|c' s]; simpl in Hs; [by rewrite Hc in Hs|].
    destruct Hs as (Hc' & _). rewrite Hc in Hc'. by injection Hc' as <-. }
  unfold simple_strtoll, simple_strtoull, simple_strtol, strict_strtol. rewrite Hc. simpl.
  destruct (Z.eqb_spec c chr_minus); [done|].
  rewrite (simple_strtoul_spec m p s b Hs), (strict_strtoul_spec m p s b Hs). simpl.
  split; [done|]. split; [done|]. by destruct (strict_ok b s).
Qed.

(** C23 The parsers of numbers. In a string [s] the number is the longest run of
    digits of the base, after ["0x"] for base 16, with base 0 guessed from the
    prefix; [simple_strtoul] gives its value modulo [2 ^ 64] and the end of it, and
    [simple_strtol] does so for the number behind a minus sign. [strict_strtoul]
    accepts exactly the strings in which the number takes at least one byte and is
    followed by nothing or by a newline, and returns [-EINVAL] with 0 for all
    others. The [long long] versions agree with them. *)
Theorem strto_correct m p s b :
  cstr m p s ->
  simple_strtoul m p b = Some (u64 (parsed b s).1, p + (parsed b s).2) /\
  simple_strtoull m p b = simple_strtoul m p b /\
  strict_strtoul m p b = Some (if strict_ok b s then (0, u64 (parsed b s).1) else (- EINVAL, 0)) /\
  strict_strtoull m p b = strict_strtoul m p b /\
  (forall t, s = chr_minus :: t ->
     simple_strtol m p b = Some (s64 (u64 (- (parsed b t).1)), p + 1 + (parsed b t).2) /\
     simple_strtoll m p b = simple_strtol m p b /\
     strict_strtol m p b =
       Some (if strict_ok b t then (0, s64 (u64 (- (parsed b t).1))) else (- EINVAL, 0))) /\
  strict_strtoll m p b = strict_strtol m p b /\
  (head s <> Some chr_minus ->
     simple_strtol m p b = Some (s64 (u64 (parsed b s).1), p + (parsed b s).2) /\
     simple_strtoll m p b = simple_strtol m p b /\
     strict_strtol m p b =
       Some (if strict_ok b s then (0, s64 (u64 (parsed b s).1)) else (- EINVAL, 0))).
Proof.
  intros Hs. split; [by apply simple_strtoul_spec|]. split; [done|]. split; [by apply strict_strtoul_spec|].
  split; [done|]. split; [intros t ->; by apply strtol_minus|]. split; [done|by apply strtol_plain].
Qed.

(** * Printing *)

(** The number a list of digits stands for, the first being the lowest. *)
Definition lvalue (b : Z) (ds : list Z) : Z := foldr (fun d r => d + b * r) 0 ds.

(** [ds] are the digits of [n], the lowest first, without zeros in front. *)
Definition digits_of (b n : Z) (ds : list Z) : Prop :=
  Forall (fun d => 0 <= d < b) ds /\ lvalue b ds = n /\ ds <> [] /\
  (forall ds', ds = ds' ++ [0] -> ds' = []).

(** Division by 10 as the code does it. *)
Lemma div10_cd d : 0 <= d < 1029 -> Z.shiftr (u32 (d * 0xcd)) 11 = d / 10.
Proof.
  intros Hd. rewrite wrap_small by (unfold is_word; lia). rewrite Z.shiftr_div_pow2 by lia.
  change (2 ^ 11) with 2048. symmetry. apply (Z.div_unique _ _ _ (d * 205 - 2048 * (d / 10)));
    [left; Z.to_euclidean_division_equations; lia|lia].
Qed.

Lemma div10_d d : 0 <= d < 69 -> Z.shiftr (u32 (d * 0xd)) 7 = d / 10.
Proof.
  intros Hd. rewrite wrap_small by (unfold is_word; lia). rewrite Z.shiftr_div_pow2 by lia.
  change (2 ^ 7) with 128. symmetry. apply (Z.div_unique _ _ _ (d * 13 - 128 * (d / 10)));
    [left; Z.to_euclidean_division_equations; lia|lia].
Qed.

(** The four parts of [q]. *)
Lemma nibbles q :
  0 <= q < 100000 ->
  let d1 := Z.land (Z.shiftr q 4) 0xf in
  let d2 := Z.land (Z.shiftr q 8) 0xf in
  let d3 := Z.shiftr q 12 in
  let d0 := Z.land q 0xf in
  q = 4096 * d3 + 256 * d2 + 16 * d1 + d0 /\
  0 <= d0 < 16 /\ 0 <= d1 < 16 /\ 0 <= d2 < 16 /\ 0 <= d3 <= 24.
Proof.
  intros Hq d1 d2 d3 d0. unfold d0, d1, d2, d3. change 15 with (Z.ones 4).
  rewrite !Z.land_ones, !Z.shiftr_div_pow2 by lia.
  change (2 ^ 4) with 16. change (2 ^ 8) with 256. change (2 ^ 12) with 4096.
  Z.to_euclidean_division_equations; lia.
Qed.

(** The carries of both conversions: the decimal digits from the parts. *)
Lemma carries q d0 d1 d2 d3 :
  q = 4096 * d3 + 256 * d2 + 16 * d1 + d0 -> 0 <= q < 100000 ->
  0 <= d0 < 16 -> 0 <= d1 < 16 -> 0 <= d2 < 16 -> 0 <= d3 <= 24 ->
  let e0 := 6 * (d3 + d2 + d1) + d0 in
  let e1 := e0 / 10 + 9 * d3 + 5 * d2 + d1 in
  let e2 := e1 / 10 + 2 * d2 in
  let e3 := e2 / 10 + 4 * d3 in
  0 <= e0 < 1000 /\ 0 <= e1 < 1000 /\ 0 <= e2 < 69 /\ 0 <= e3 < 100 /\
  q = e0 mod 10 + 10 * (e1 mod 10 + 10 * (e2 mod 10 + 10 * (e3 mod 10 + 10 * (e3 / 10)))).
Proof.
  intros Hq Hr H0 H1 H2 H3 e0 e1 e2 e3.
  assert (0 <= e0 < 340) by (unfold e0; lia).
  assert (Hdiv : forall x k, 0 <= x < 10 * k -> 0 <= x / 10 < k)
    by (intros x k ?; split; [apply Z.div_pos; lia|apply Z.div_lt_upper_bound; lia]).
  assert (0 <= e1 < 340) by (pose proof (Hdiv e0 34 ltac:(lia)); unfold e1; lia).
  assert (0 <= e2 < 69) by (pose proof (Hdiv e1 34 ltac:(lia)); unfold e2; lia).
  pose proof (Z.div_mod e0 10 ltac:(lia)). pose proof (Z.div_mod e1 10 ltac:(lia)).
  pose proof (Z.div_mod e2 10 ltac:(lia)). pose proof (Z.div_mod e3 10 ltac:(lia)).
  pose proof (Z.mod_pos_bound e0 10 ltac:(lia)). pose proof (Z.mod_pos_bound e1 10 ltac:(lia)).
  pose proof (Z.mod_pos_bound e2 10 ltac:(lia)). pose proof (Z.mod_pos_bound e3 10 ltac:(lia)).
  assert (q = e0 mod 10 + 10 * (e1 mod 10 + 10 * (e2 mod 10 + 10 * (e3 mod 10 + 10 * (e3 / 10))))).
  { assert (e1 = e0 / 10 + 9 * d3 + 5 * d2 + d1) by done. assert (e2 = e1 / 10 + 2 * d2) by done.
    assert (e3 = e2 / 10 + 4 * d3) by done. assert (e0 = 6 * (d3 + d2 + d1) + d0) by done. lia. }
  split_and!; try lia.
Qed.

Definition put_digit (d : Z) : Z := d + chr_0.

Lemma mod10 d : 0 <= d < 1000 -> u32 (d - 10 * (d / 10)) = d mod 10.
Proof.
  intros Hd. rewrite wrap_small by (unfold is_word; Z.to_euclidean_division_equations; lia).
  Z.to_euclidean_division_equations; lia.
Qed.

(** Both conversions in terms of the decimal digits [a0] to [a4] of [q]. *)
Lemma put_dec_digits q :
  0 <= q < 100000 ->
  exists a0 a1 a2 a3 a4, Forall (fun d => 0 <= d < 10) [a0; a1; a2; a3; a4] /\
    lvalue 10 [a0; a1; a2; a3; a4] = q /\
    put_dec_full q = put_digit <$> [a0; a1; a2; a3; a4] /\
    put_dec_trunc q = put_digit <$>
      (if lvalue 10 [a1; a2; a3; a4] =? 0 then [a0]
       else if lvalue 10 [a2; a3; a4] =? 0 then [a0; a1]
       else if lvalue 10 [a3; a4] =? 0 then [a0; a1; a2]
       else if a4 =? 0 then [a0; a1; a2; a3] else [a0; a1; a2; a3; a4]).
Proof.
  intros Hq. unfold put_dec_full, put_dec_trunc. destruct (nibbles q Hq) as (Hn & H0 & H1 & H2 & H3).
  set (d0 := Z.land q 0xf) in *. set (d1 := Z.land (Z.shiftr q 4) 0xf) in *.
  set (d2 := Z.land (Z.shiftr q 8) 0xf) in *. set (d3 := Z.shiftr q 12) in *.
  destruct (carries q d0 d1 d2 d3 Hn Hq H0 H1 H2 H3) as (He0 & He1 & He2 & He3 & Hval).
  cbv zeta.
  assert (Hw : forall x, 0 <= x < 1000 -> u32 x = x) by (intros; apply wrap_small; unfold is_word; lia).
  rewrite (Hw (6 * (d3 + d2 + d1) + d0)) by lia. set (e0 := 6 * (d3 + d2 + d1) + d0) in *.
  rewrite (div10_cd e0) by lia. rewrite (Hw (e0 / 10 + 9 * d3 + 5 * d2 + d1)) by lia.
  set (e1 := e0 / 10 + 9 * d3 + 5 * d2 + d1) in *.
  rewrite (div10_cd e1) by lia. rewrite (Hw (e1 / 10 + 2 * d2)) by lia. set (e2 := e1 / 10 + 2 * d2) in *.
  rewrite (div10_d e2) by lia. rewrite (Hw (e2 / 10 + 4 * d3)) by lia. set (e3 := e2 / 10 + 4 * d3) in *.
  rewrite (div10_cd e3) by lia. rewrite !mod10 by lia.
  pose proof (Z.div_mod e1 10 ltac:(lia)) as Hd1. pose proof (Z.mod_pos_bound e1 10 ltac:(lia)).
  pose proof (Z.div_mod e2 10 ltac:(lia)) as Hd2. pose proof (Z.mod_pos_bound e2 10 ltac:(lia)).
  pose proof (Z.div_mod e3 10 ltac:(lia)) as Hd3. pose proof (Z.mod_pos_bound e3 10 ltac:(lia)).
  pose proof (Z.mod_pos_bound e0 10 ltac:(lia)).
  assert (E2 : e2 = e1 / 10 + 2 * d2) by done. assert (E3 : e3 = e2 / 10 + 4 * d3) by done.
  exists (e0 mod 10), (e1 mod 10), (e2 mod 10), (e3 mod 10), (e3 / 10).
  split; [repeat constructor; lia|]. split; [cbn [lvalue foldr]; lia|]. split; [done|].
  cbn [lvalue foldr].
  destruct (Z.eqb_spec e1 0), (Z.eqb_spec (e1 mod 10 + 10 * (e2 mod 10 + 10 * (e3 mod 10 + 10 * (e3 / 10 + 10 * 0)))) 0);
    try lia; [done|].
  assert (((e2 =? 0) && (d3 =? 0)) = (e2 mod 10 + 10 * (e3 mod 10 + 10 * (e3 / 10 + 10 * 0)) =? 0)) as ->.
  { apply Bool.eq_iff_eq_true. rewrite andb_true_iff, !Z.eqb_eq. lia. }
  destruct (Z.eqb_spec (e2 mod 10 + 10 * (e3 mod 10 + 10 * (e3 / 10 + 10 * 0))) 0); [done|].
  destruct (Z.eqb_spec e3 0), (Z.eqb_spec (e3 mod 10 + 10 * (e3 / 10 + 10 * 0)) 0); try lia; [done|].
  by destruct (Z.eqb_spec (e3 / 10) 0).
Qed.

Lemma put_dec_trunc_spec q :
  0 <= q < 100000 -> exists ds, put_dec_trunc q = put_digit <$> ds /\ digits_of 10 q ds.
Proof.
  intros Hq. destruct (put_dec_digits q Hq) as (a0 & a1 & a2 & a3 & a4 & Hr & Hv & _ & ->).
  eexists. split; [done|]. repeat (apply Forall_cons_iff in Hr as [? Hr]). clear Hr. cbn [lvalue foldr] in *.
  assert (Hend : forall a x ds', a ++ [x] = ds' ++ [0] -> x <> 0 -> ds' = [])
    by (intros a x ds' [_ [= ->]]%app_inj_2; done).
  destruct (Z.eqb_spec (a1 + 10 * (a2 + 10 * (a3 + 10 * (a4 + 10 * 0)))) 0);
    [|destruct (Z.eqb_spec (a2 + 10 * (a3 + 10 * (a4 + 10 * 0))) 0);
      [|destruct (Z.eqb_spec (a3 + 10 * (a4 + 10 * 0)) 0); [|destruct (Z.eqb_spec a4 0)]]];
    (split; [repeat (apply List.Forall_cons; [lia|]); apply List.Forall_nil
      |split; [cbn [lvalue foldr]; lia|split; [done|]]]); intros ds' He.
  - destruct ds' as [|? [|]]; done.
  - apply (Hend [a0] a1 ds' He). lia.
  - apply (Hend [a0; a1] a2 ds' He). lia.
  - apply (Hend [a0; a1; a2] a3 ds' He). lia.
  - apply (Hend [a0; a1; a2; a3] a4 ds' He). lia.
Qed.

Lemma lvalue_app b x y : 0 < b -> lvalue b (x ++ y) = lvalue b x + b ^ zlen x * lvalue b y.
Proof.
  intros Hb. induction x as [|d x IH].
  - change (zlen (@nil Z)) with 0. rewrite Z.pow_0_r, Z.mul_1_l. done.
  - cbn [app lvalue foldr]. fold (lvalue b (x ++ y)) (lvalue b x). rewrite IH, zlen_cons.
    rewrite Z.pow_add_r, Z.pow_1_r by (try lia; apply zlen_nonneg). lia.
Qed.

(** Low digits below the digits of the rest. *)
Lemma digits_of_app b n x y :
  1 < b -> Forall (fun d => 0 <= d < b) x -> digits_of b n y -> 0 < n ->
  digits_of b (lvalue b x + b ^ zlen x * n) (x ++ y).
Proof.
  intros Hb Hx (Hy & Hv & Hne & Hl) Hn. split_and!.
  - by apply Forall_app.
  - rewrite lvalue_app by lia. by rewrite Hv.
  - by destruct x.
  - intros ds' He. destruct (exists_last Hne) as (y' & z & ->).
    rewrite app_assoc in He. apply app_inj_2 in He as [<- [= ->]]; [|done].
    assert (y' = []) as -> by by apply Hl. simpl in Hv. lia.
Qed.

Lemma put_dec_spec num :
  0 <= num < 2 ^ 64 -> exists ds, put_dec num = Some (put_digit <$> ds) /\ digits_of 10 num ds.
Proof.
  intros Hn. unfold put_dec.
  match goal with |- context [loop 5 ?step _] => set (st := step) end.
  enough (forall k num acc, 0 <= num < 100000 ^ Z.of_nat (S k) -> exists ds,
    loop (S k) st (acc, num) = Some (acc ++ (put_digit <$> ds)) /\ digits_of 10 num ds) as H
    by (apply (H 4%nat num []); simpl Z.of_nat; lia).
  clear num Hn. induction k as [|k IH]; intros num acc Hn; rewrite loop_S.
  { unfold st at 1. change (100000 ^ Z.of_nat 1) with 100000 in Hn. destruct (Z.ltb_spec num 100000); [|lia].
    destruct (put_dec_trunc_spec num Hn) as (ds & -> & Hds). by exists ds. }
  unfold st at 1. destruct (Z.ltb_spec num 100000).
  - destruct (put_dec_trunc_spec num ltac:(lia)) as (ds & -> & Hds). by exists ds.
  - pose proof (Z.mod_pos_bound num 100000 ltac:(lia)) as Hm.
    destruct (put_dec_digits _ Hm) as (a0 & a1 & a2 & a3 & a4 & Hr & Hv & -> & _).
    pose proof (Z.div_mod num 100000 ltac:(lia)) as Hdm.
    destruct (IH (num / 100000) (acc ++ (put_digit <$> [a0; a1; a2; a3; a4]))) as (ds & -> & Hds).
    { rewrite (Nat2Z.inj_succ (S k)), Z.pow_succ_r in Hn by lia. split; [apply Z.div_pos; lia|].
      apply Z.div_lt_upper_bound; lia. }
    exists ([a0; a1; a2; a3; a4] ++ ds). rewrite fmap_app, <- app_assoc. split; [done|].
    rewrite Hdm at 1. replace (100000 * (num / 100000) + num mod 100000) with
      (lvalue 10 [a0; a1; a2; a3; a4] + 10 ^ zlen [a0; a1; a2; a3; a4] * (num / 100000)).
    + apply digits_of_app; [lia|done|done|]. apply Z.div_str_pos. lia.
    + rewrite Hv. change (10 ^ zlen [a0; a1; a2; a3; a4]) with 100000. lia.
Qed.

(** The byte of a digit. *)
Definition digit_chr (locase d : Z) : Z := Z.lor (digits !!! Z.to_nat d) locase.

Lemma put_pow2_spec num sh locase :
  sh = 3 \/ sh = 4 -> 0 < num < 2 ^ 64 ->
  exists ds, put_pow2 num (2 ^ sh - 1) sh locase = Some (digit_chr locase <$> ds) /\
    digits_of (2 ^ sh) num ds.
Proof.
  intros Hsh Hn. unfold put_pow2.
  match goal with |- context [loop 22 ?step _] => set (st := step) end.
  enough (forall k num acc, 0 < num < 2 ^ (sh * Z.of_nat (S k)) -> exists ds,
    loop (S k) st (acc, num) = Some (acc ++ (digit_chr locase <$> ds)) /\ digits_of (2 ^ sh) num ds) as H.
  { apply (H 21%nat num []). split; [lia|]. destruct Hsh as [-> | ->]; (eapply Z.lt_le_trans; [apply Hn|]);
      apply Z.pow_le_mono_r; lia. }
  clear num Hn. assert (Hb : 1 < 2 ^ sh <= 16) by (destruct Hsh as [-> | ->]; lia).
  induction k as [|k IH]; intros num acc Hn; rewrite loop_S; unfold st at 1;
    pose proof (Z.mod_pos_bound num (2 ^ sh) ltac:(lia)) as Hm;
    (assert (Z.land (wrap 8 num) (2 ^ sh - 1) = num mod 2 ^ sh) as ->
      by (rewrite land_pow2_sub1 by lia; apply mod_mod_pow2; lia));
    (assert (aget digits (num mod 2 ^ sh) = Some (digits !!! Z.to_nat (num mod 2 ^ sh))) as ->
      by (apply aget_lookup_total; change (zlen digits) with 16; lia)); simpl;
    rewrite Z.shiftr_div_pow2 by lia; fold (digit_chr locase (num mod 2 ^ sh));
    pose proof (Z.div_mod num (2 ^ sh) ltac:(lia)) as Hdm.
  - change (Z.of_nat 1) with 1 in Hn. rewrite Z.mul_1_r in Hn.
    rewrite Z.div_small, Z.mod_small by lia. simpl. exists [num]. split; [done|].
    split_and!; [repeat constructor; lia|unfold lvalue; simpl; lia|done|intros [|? [|]]; done].
  - destruct (Z.eqb_spec (num / 2 ^ sh) 0) as [H0|H0]; simpl.
    + exists [num mod 2 ^ sh]. split; [done|]. rewrite H0 in Hdm.
      split_and!; [repeat constructor; lia|unfold lvalue; simpl; lia|done|intros [|? [|]]; done].
    + destruct (IH (num / 2 ^ sh) (acc ++ [digit_chr locase (num mod 2 ^ sh)])) as (ds & -> & Hds).
      { pose proof (Z.div_pos num (2 ^ sh) ltac:(lia) ltac:(lia)). split; [lia|].
        apply Z.div_lt_upper_bound; [lia|]. rewrite <- Z.pow_add_r by lia.
        replace (sh + sh * Z.of_nat (S k)) with (sh * Z.of_nat (S (S k))) by lia. apply Hn. }
      exists (num mod 2 ^ sh :: ds). rewrite <- app_assoc. split; [done|].
      replace num with (lvalue (2 ^ sh) [num mod 2 ^ sh] + (2 ^ sh) ^ zlen [num mod 2 ^ sh] * (num / 2 ^ sh)) at 1.
      * apply (digits_of_app _ _ [num mod 2 ^ sh] ds); [lia|repeat constructor; lia|done|].
        pose proof (Z.div_pos num (2 ^ sh) ltac:(lia) ltac:(lia)). lia.
      * change (zlen [num mod 2 ^ sh]) with 1. unfold lvalue. simpl. lia.
Qed.

(** Appending bytes to the output. *)
Fixpoint emit (m : list Z) (buf end_ : Z) (l : list Z) : option (list Z * Z) :=
  match l with
  | [] => Some (m, buf)
  | c :: l' => m ← put m buf end_ c; emit m (buf + 1) end_ l'
  end.

Lemma emit_app m buf end_ l l' :
  emit m buf end_ (l ++ l') = '(m, buf) ← emit m buf end_ l; emit m buf end_ l'.
Proof.
  revert m buf. induction l as [|c l IH]; intros m buf; simpl; [done|].
  destruct (put m buf end_ c); simpl; [apply IH|done].
Qed.

(** What lies before [end_] is written; the pointer goes on regardless. *)
Lemma emit_spec m buf end_ l :
  0 <= buf -> end_ <= zlen m ->
  emit m buf end_ l = Some (write m buf (upto (end_ - buf) l), buf + zlen l).
Proof.
  revert m buf. induction l as [|c l IH]; intros m buf Hb He; simpl.
  - rewrite upto_nil, write_nil. change (zlen (@nil Z)) with 0. by rewrite Z.add_0_r.
  - unfold put. rewrite zlen_cons. destruct (Z.ltb_spec buf end_).
    + rewrite upto_cons by lia.
      destruct (write_cons m buf c (upto (end_ - buf - 1) l)) as (m1 & -> & Hz & Hw & _); [done| |].
      { rewrite zlen_upto by lia. lia. }
      simpl. rewrite IH by lia. replace (end_ - (buf + 1)) with (end_ - buf - 1) by lia. rewrite Hw.
      do 2 f_equal. lia.
    + simpl. rewrite IH by lia. replace (Z.to_nat (end_ - buf)) with 0%nat by lia.
      replace (Z.to_nat (end_ - (buf + 1))) with 0%nat by lia. simpl. rewrite !write_nil. do 2 f_equal. lia.
Qed.

Abbreviation reps c n := (repeat c (Z.to_nat n)).

Lemma pad_down end_ c m buf n :
  0 <= n < 2 ^ 31 ->
  loop (S (Z.to_nat n)) (fun '(m, buf, n) =>
    let n := s32 (n - 1) in
    if 0 <=? n then m ← put m buf end_ c; Some (Next (m, buf + 1, n))
    else Some (Done (m, buf, n))) (m, buf, n) =
  '(m, buf) ← emit m buf end_ (reps c n); Some (m, buf, -1).
Proof.
  intros Hn. remember (Z.to_nat n) as k eqn:Hk. assert (n = Z.of_nat k) as -> by lia. clear Hk.
  revert m buf Hn. induction k as [|k IH]; intros m buf Hn; rewrite loop_S; cbv zeta; rewrite s32_small by lia.
  - simpl. done.
  - rewrite (proj2 (Z.leb_le 0 (Z.of_nat (S k) - 1))) by lia. simpl repeat. cbn [emit].
    destruct (put m buf end_ c) as [m1|]; simpl; [|done].
    replace (Z.of_nat (S k) - 1) with (Z.of_nat k) by lia. rewrite IH by lia. done.
Qed.

Lemma s32_range x : - 2 ^ 31 <= s32 x < 2 ^ 31.
Proof. unfold s32. pose proof (Z.mod_pos_bound (x + 2 ^ 31) (2 ^ 32)). lia. Qed.

(** What a padding loop writes, wrap-around included. *)
Lemma pad_exact end_ c m buf n :
  pad end_ c (m, buf, n) =
  '(m, buf) ← emit m buf end_ (reps c (s32 (n - 1) + 1)); Some (m, buf, Z.min (s32 (n - 1)) (-1)).
Proof.
  unfold pad. cbn [snd]. rewrite loop_S. cbv zeta. pose proof (s32_range (n - 1)).
  destruct (Z.leb_spec 0 (s32 (n - 1))) as [Hv|Hv].
  - replace (Z.to_nat (s32 (n - 1) + 1)) with (S (Z.to_nat (s32 (n - 1)))) by lia. cbn [repeat emit].
    destruct (put m buf end_ c) as [m1|]; simpl; [|done].
    rewrite pad_down by lia. by rewrite Z.min_r by lia.
  - replace (Z.to_nat (s32 (n - 1) + 1)) with 0%nat by lia. simpl. by rewrite Z.min_l by lia.
Qed.

Lemma pad_spec end_ c m buf n :
  - 2 ^ 31 < n < 2 ^ 31 ->
  pad end_ c (m, buf, n) = '(m, buf) ← emit m buf end_ (reps c n); Some (m, buf, Z.min n 0 - 1).
Proof.
  intros Hn. rewrite pad_exact, s32_small by lia. replace (n - 1 + 1) with n by lia.
  by replace (Z.min (n - 1) (-1)) with (Z.min n 0 - 1) by lia.
Qed.

Lemma flag_bit f k : 0 <= k -> flag f (2 ^ k) = Z.testbit f k.
Proof.
  intros Hk. unfold flag. destruct (Z.testbit f k) eqn:Ht.
  - destruct (Z.eqb_spec (Z.land f (2 ^ k)) 0) as [H0|]; [|done].
    assert (Hb : Z.testbit (Z.land f (2 ^ k)) k = false) by (rewrite H0; apply Z.bits_0).
    rewrite Z.land_spec, Ht, Z.pow2_bits_true in Hb by done. done.
  - assert (Z.land f (2 ^ k) = 0) as ->; [|done]. apply Z.bits_inj'. intros i Hi.
    rewrite Z.land_spec, Z.bits_0, Z.pow2_bits_eqb by done. destruct (Z.eqb_spec k i) as [<-|]; [by rewrite Ht|].
    by rewrite andb_false_r.
Qed.

Lemma flag_or f : flag f (ZEROPAD + LEFT) = flag f ZEROPAD || flag f LEFT.
Proof.
  unfold flag. change (ZEROPAD + LEFT) with (Z.lor ZEROPAD LEFT). rewrite Z.land_lor_distr_r.
  rewrite <- negb_andb. f_equal. apply Bool.eq_iff_eq_true. rewrite andb_true_iff, !Z.eqb_eq.
  apply Z.lor_eq_0_iff.
Qed.

(** Dropping [ZEROPAD] leaves the other flags alone. *)
Lemma flag_ldiff f k : 0 <= k -> flag (Z.ldiff f ZEROPAD) (2 ^ k) = flag f (2 ^ k) && negb (k =? 0).
Proof.
  intros Hk. rewrite !flag_bit by done. rewrite Z.ldiff_spec. change ZEROPAD with (2 ^ 0).
  rewrite Z.pow2_bits_eqb by lia. by rewrite (Z.eqb_sym 0).
Qed.

Definition sign_chars (f num : Z) : list Z :=
  if flag f SIGN then
    if s64 num <? 0 then [chr_minus]
    else if flag f PLUS then [chr_plus] else if flag f SPACE then [chr_space] else []
  else [].

(** The number without its sign. *)
Definition magnitude (f num : Z) : Z := if flag f SIGN && (s64 num <? 0) then - s64 num else num.

Definition prefix_chars (spec : printf_spec) : list Z :=
  if flag (flags spec) SPECIAL && negb (base spec =? 10) then
    if base spec =? 16 then [chr_0; Z.lor chr_X (Z.land (flags spec) SMALL)] else [chr_0]
  else [].

(** The field: sign, prefix and digits, with zeros up to the precision, and filled
    up to the width with spaces behind, zeros inside or spaces in front. *)
Definition layout (spec : printf_spec) (sign digits_ : list Z) : list Z :=
  let body := reps chr_0 (precision spec - zlen digits_) ++ digits_ in
  let front := sign ++ prefix_chars spec in
  let fill := field_width spec - zlen front - zlen body in
  if flag (flags spec) LEFT then front ++ body ++ reps chr_space fill
  else if flag (flags spec) ZEROPAD then front ++ reps chr_0 fill ++ body
  else reps chr_space fill ++ front ++ body.

(** Output that goes on behind [pre]. *)
Lemma emit_next m0 buf0 end_ pre m buf l :
  0 <= buf0 -> end_ <= zlen m0 -> emit m0 buf0 end_ pre = Some (m, buf) ->
  0 <= buf /\ end_ <= zlen m /\
  exists m' buf', emit m buf end_ l = Some (m', buf') /\ emit m0 buf0 end_ (pre ++ l) = Some (m', buf').
Proof.
  intros Hb He Hp. pose proof (zlen_nonneg pre).
  split; [rewrite emit_spec in Hp by done; injection Hp as <- <-; lia|].
  split; [rewrite emit_spec in Hp by done; injection Hp as <- <-; by rewrite write_zlen|].
  destruct (emit m buf end_ l) as [[m' buf']|] eqn:Hl.
  - exists m', buf'. split; [done|]. by rewrite emit_app, Hp.
  - pose proof (emit_app m0 buf0 end_ pre l) as Ha. rewrite Hp in Ha. simpl in Ha. rewrite Hl in Ha.
    by rewrite emit_spec in Ha.
Qed.

Lemma emit_digits m buf end_ tmp :
  0 <= buf -> end_ <= zlen m ->
  for_all 0 (zlen tmp) (fun k '(m, buf) =>
    c ← aget tmp (zlen tmp - 1 - k); m ← put m buf end_ c; Some (m, buf + 1)) (m, buf) =
  emit m buf end_ (reverse tmp).
Proof.
  intros Hb He.
  match goal with |- for_all 0 _ ?body _ = _ =>
    destruct (for_all_rule body (fun k st => emit m buf end_ (upto k (reverse tmp)) = Some st)
      0 (zlen tmp) (m, buf)) as (st & -> & Hst) end; [apply zlen_nonneg|done| |].
  - intros k [m1 b1] Hk Hst. rewrite aget_lookup_total by lia. simpl.
    destruct (emit_next m buf end_ _ m1 b1 [tmp !!! Z.to_nat (zlen tmp - 1 - k)] Hb He Hst)
      as (_ & _ & m2 & b2 & H2 & Hacc). simpl in H2. rewrite H2. eexists. split; [done|]. rewrite <- Hacc. f_equal.
    replace (Z.to_nat (k + 1)) with (S (Z.to_nat k)) by lia.
    rewrite (take_S_r _ _ (tmp !!! Z.to_nat (zlen tmp - 1 - k))); [done|].
    unfold zlen in *. rewrite reverse_lookup by lia.
    replace (length tmp - S (Z.to_nat k))%nat with (Z.to_nat (Z.of_nat (length tmp) - 1 - k)) by lia.
    apply list_lookup_lookup_total_lt. lia.
  - rewrite <- Hst. f_equal. apply take_ge. rewrite length_reverse. unfold zlen. lia.
Qed.

(** The first part of [number]: sign, absolute value and the width that is left. *)
Lemma number_sign f num w :
  0 <= num < 2 ^ 64 -> - 2 ^ 31 < w < 2 ^ 31 ->
  (if flag f SIGN then
     if s64 num <? 0 then (chr_minus, u64 (- s64 num), s32 (w - 1))
     else if flag f PLUS then (chr_plus, num, s32 (w - 1))
     else if flag f SPACE then (chr_space, num, s32 (w - 1))
     else (0, num, w)
   else (0, num, w)) =
  (default 0 (head (sign_chars f num)), magnitude f num, w - zlen (sign_chars f num)).
Proof.
  intros Hn Hw. rewrite s32_small by lia. unfold sign_chars, magnitude. assert (Hz : w - zlen (@nil Z) = w) by apply Z.sub_0_r.
  assert (Hm : s64 num < 0 -> u64 (- s64 num) = - s64 num)
    by (intros ?; apply wrap_small; revert H; unfold is_word, s64; destruct (Z.ltb_spec num (2 ^ 63)); lia).
  destruct (flag f SIGN); simpl; [|by rewrite Hz].
  destruct (Z.ltb_spec (s64 num) 0); [by rewrite Hm|].
  destruct (flag f PLUS); [done|]. destruct (flag f SPACE); [done|]. simpl. by rewrite Hz.
Qed.

Lemma digits_of_length b n ds k :
  2 <= b -> digits_of b n ds -> 0 < k -> n < b ^ k -> zlen ds <= k.
Proof.
  intros Hb (Hd & Hv & Hne & Hl) Hk Hn. destruct (exists_last Hne) as (ds' & d & ->).
  rewrite zlen_app. change (zlen [d]) with 1.
  destruct (Z.eq_dec d 0) as [->|Hd0]; [rewrite (Hl ds' eq_refl); simpl; change (zlen (@nil Z)) with 0; lia|].
  apply Forall_app in Hd as [Hds Hd]. apply Forall_cons_iff in Hd as [Hd _].
  rewrite lvalue_app in Hv by lia. unfold lvalue at 2 in Hv. simpl in Hv.
  assert (0 <= lvalue b ds').
  { clear -Hds Hb. induction ds' as [|x l IH]; [done|]. apply Forall_cons_iff in Hds as [? ?].
    specialize (IH ltac:(done)). unfold lvalue in *. cbn [foldr]. nia. }
  assert (b ^ zlen ds' <= n) by (pose proof (Z.pow_pos_nonneg b (zlen ds') ltac:(lia) (zlen_nonneg ds')); nia).
  assert (zlen ds' < k) by (apply (Z.pow_lt_mono_r_iff b); lia). lia.
Qed.

(** The digits [number] generates. *)
Lemma number_digits spec n :
  base spec = 8 \/ base spec = 10 \/ base spec = 16 -> 0 <= n < 2 ^ 64 ->
  let locase := Z.land (flags spec) SMALL in
  exists ds, (if n =? 0 then Some [chr_0]
     else if negb (base spec =? 10) then
       put_pow2 n (base spec - 1) (if base spec =? 16 then 4 else 3) locase
     else put_dec n) = Some (digit_chr locase <$> ds) /\ digits_of (base spec) n ds /\ zlen ds <= 22.
Proof.
  intros Hb Hn locase.
  assert (Hlo : forall d, 0 <= d < 10 -> digit_chr locase d = put_digit d).
  { intros d Hd.
    assert (locase = 0 \/ locase = 32) as Hc.
    { unfold locase, SMALL. change 32 with (2 ^ 5).
      destruct (Z.testbit (flags spec) 5) eqn:Ht; [right|left]; apply Z.bits_inj'; intros i Hi;
        rewrite Z.land_spec, Z.pow2_bits_eqb by lia; destruct (Z.eqb_spec 5 i) as [<-|];
        rewrite ?Z.bits_0, ?Ht, ?andb_false_r; try done. }
    unfold digit_chr, put_digit. assert (d ∈ seqZ 0 10) as Hin by (apply elem_of_seqZ; lia).
    destruct Hc as [-> | ->]; repeat (apply elem_of_cons in Hin as [-> | Hin]; [done|]);
      by apply elem_of_nil in Hin. }
  enough (exists ds, (if n =? 0 then Some [chr_0]
     else if negb (base spec =? 10) then
       put_pow2 n (base spec - 1) (if base spec =? 16 then 4 else 3) locase
     else put_dec n) = Some (digit_chr locase <$> ds) /\ digits_of (base spec) n ds) as (ds & Hds & Hok).
  { exists ds. split; [done|]. split; [done|]. eapply (digits_of_length (base spec) n); [lia|done|lia|].
    apply Z.lt_le_trans with (8 ^ 22); [lia|]. apply Z.pow_le_mono_l. lia. }
  destruct (Z.eqb_spec n 0) as [->|Hn0].
  { exists [0]. split; [simpl; by rewrite Hlo|].
    split_and!; [repeat constructor; lia|unfold lvalue; simpl; lia|done|intros [|? [|]]; done]. }
  destruct (Z.eqb_spec (base spec) 10) as [H10|H10]; simpl.
  - destruct (put_dec_spec n Hn) as (ds & -> & Hds). exists ds. rewrite H10. split; [|done]. f_equal.
    apply list_fmap_ext. intros i d Hd. symmetry. apply Hlo. destruct Hds as [Hf _].
    rewrite list.Forall_forall in Hf. apply Hf. by eapply list_elem_of_lookup_2.
  - destruct Hb as [-> |[?| ->]]; [|done|].
    + apply (put_pow2_spec n 3 locase); [by left|lia].
    + apply (put_pow2_spec n 4 locase); [by right|lia].
Qed.

Lemma clear_zeropad f :
  let f' := if flag f LEFT then Z.ldiff f ZEROPAD else f in
  flag f' SIGN = flag f SIGN /\ flag f' PLUS = flag f PLUS /\ flag f' SPACE = flag f SPACE /\
  flag f' LEFT = flag f LEFT /\ flag f' ZEROPAD = flag f ZEROPAD && negb (flag f LEFT).
Proof.
  intros f'. unfold f'. destruct (flag f LEFT) eqn:Hl; [|rewrite Hl; by rewrite andb_true_r].
  change SIGN with (2 ^ 1). change PLUS with (2 ^ 2). change SPACE with (2 ^ 3).
  change LEFT with (2 ^ 4) in *. change (flag ?x ZEROPAD) with (flag x (2 ^ 0)).
  rewrite !flag_ldiff by lia. rewrite Hl. by rewrite !andb_true_r.
Qed.

Lemma sign_chars_head f num : sign_chars f num = [] \/ exists c, sign_chars f num = [c] /\ c <> 0.
Proof.
  unfold sign_chars. destruct (flag f SIGN), (s64 num <? 0), (flag f PLUS), (flag f SPACE);
    first [by left|by right; eexists].
Qed.

Lemma emit_sign f num m buf end_ :
  (if negb (default 0 (list.head (sign_chars f num)) =? 0) then
     m ← put m buf end_ (default 0 (list.head (sign_chars f num))); Some (m, buf + 1)
   else Some (m, buf)) = emit m buf end_ (sign_chars f num).
Proof.
  destruct (sign_chars_head f num) as [->|(c & -> & Hc)]; simpl; [done|].
  by destruct (Z.eqb_spec c 0).
Qed.

Lemma emit_prefix spec m buf end_ :
  (if flag (flags spec) SPECIAL && negb (base spec =? 10) then
     m ← put m buf end_ chr_0;
     if base spec =? 16 then
       m ← put m (buf + 1) end_ (Z.lor chr_X (Z.land (flags spec) SMALL)); Some (m, buf + 1 + 1)
     else Some (m, buf + 1)
   else Some (m, buf)) = emit m buf end_ (prefix_chars spec).
Proof.
  unfold prefix_chars. destruct (flag (flags spec) SPECIAL && negb (base spec =? 10)); [|done].
  by destruct (base spec =? 16).
Qed.

(** A loop of padding that may be left out. *)
Lemma emit_pad (b : bool) end_ c m buf n :
  - 2 ^ 31 < n < 2 ^ 31 ->
  (if b then pad end_ c (m, buf, n) else Some (m, buf, n)) =
  '(m, buf) ← emit m buf end_ (if b then reps c n else []);
  Some (m, buf, if b then Z.min n 0 - 1 else n).
Proof. intros Hn. destruct b; [by apply pad_spec|done]. Qed.

Lemma magnitude_range f num : 0 <= num < 2 ^ 64 -> 0 <= magnitude f num < 2 ^ 64.
Proof.
  intros Hn. unfold magnitude, s64. destruct (flag f SIGN); simpl; [|done].
  destruct (Z.ltb_spec num (2 ^ 63)); [destruct (Z.ltb_spec num 0); lia|].
  destruct (Z.ltb_spec (num - 2 ^ 64) 0); lia.
Qed.

(** The digits, zeros up to the precision before them. *)
Lemma body_length spec tmp :
  zlen (reps chr_0 (precision spec - zlen tmp) ++ reverse tmp) =
  if precision spec <? zlen tmp then zlen tmp else precision spec.
Proof.
  assert (Hrt : zlen (reverse tmp) = zlen tmp) by (unfold zlen; by rewrite length_reverse).
  rewrite zlen_app, Hrt. destruct (Z.ltb_spec (precision spec) (zlen tmp)).
  - replace (Z.to_nat (precision spec - zlen tmp)) with 0%nat by lia. done.
  - rewrite zlen_repeat by lia. lia.
Qed.

Lemma prefix_width spec (sg : list Z) :
  - 2 ^ 31 + 2 <= field_width spec - zlen sg < 2 ^ 31 ->
  (if flag (flags spec) SPECIAL && negb (base spec =? 10) then
     if base spec =? 16 then s32 (s32 (field_width spec - zlen sg - 1) - 1) else s32 (field_width spec - zlen sg - 1)
   else field_width spec - zlen sg) = field_width spec - zlen (sg ++ prefix_chars spec).
Proof.
  intros Hw. rewrite zlen_app. rewrite (s32_small (field_width spec - zlen sg - 1)), s32_small by lia. unfold prefix_chars.
  destruct (flag (flags spec) SPECIAL && negb (base spec =? 10)); [destruct (base spec =? 16)|];
    rewrite ?zlen_cons; change (zlen (@nil Z)) with 0; lia.
Qed.

(** Width and precision are [int]s for which no step of [number] overflows: it
    lowers the width by up to three for sign and prefix, by the precision or the number
    of digits, and by three more at the ends of its loops. *)
Definition widths_ok (spec : printf_spec) : Prop :=
  field_width spec < 2 ^ 31 /\ - 2 ^ 31 <= precision spec < 2 ^ 31 /\
  - 2 ^ 31 + 6 <= field_width spec - Z.max (precision spec) 22.

Lemma sign_zlen f num : 0 <= zlen (sign_chars f num) <= 1.
Proof. destruct (sign_chars_head f num) as [->|(c & -> & _)]; split; done. Qed.

Lemma prefix_zlen spec : 0 <= zlen (prefix_chars spec) <= 2.
Proof.
  unfold prefix_chars. destruct (flag (flags spec) SPECIAL && negb (base spec =? 10)); [destruct (base spec =? 16)|];
    split; done.
Qed.

(** The space left to fill stays clear of the ends of [int]. *)
Lemma fill_range spec num (tmp : list Z) :
  widths_ok spec -> zlen tmp <= 22 ->
  let body := if precision spec <? zlen tmp then zlen tmp else precision spec in
  - 2 ^ 31 + 3 <= field_width spec - zlen (sign_chars (flags spec) num ++ prefix_chars spec) - body < 2 ^ 31 /\
  0 <= body - zlen tmp < 2 ^ 31.
Proof.
  intros (Hwd & Hpr & Hnw) Ht. pose proof (sign_zlen (flags spec) num). pose proof (prefix_zlen spec).
  pose proof (zlen_nonneg tmp). rewrite zlen_app. destruct (Z.ltb_spec (precision spec) (zlen tmp)); simpl; lia.
Qed.

Lemma number_spec m buf end_ num spec :
  base spec = 8 \/ base spec = 10 \/ base spec = 16 -> 0 <= num < 2 ^ 64 ->
  0 <= buf -> end_ <= zlen m -> widths_ok spec ->
  exists ds, digits_of (base spec) (magnitude (flags spec) num) ds /\
    number m buf end_ num spec =
    emit m buf end_ (layout spec (sign_chars (flags spec) num)
      (reverse (digit_chr (Z.land (flags spec) SMALL) <$> ds))).
Proof.
  intros Hb Hn Hbuf He Hok. pose proof Hok as (Hwd & Hpr & Hnw). unfold number.
  destruct (clear_zeropad (flags spec)) as (-> & -> & -> & HL & HZ).
  set (f' := if flag (flags spec) LEFT then _ else _) in *.
  pose proof (sign_zlen (flags spec) num) as Hsg.
  rewrite number_sign by (done || lia).
  destruct (number_digits spec _ Hb (magnitude_range (flags spec) num Hn)) as (ds & -> & Hds & Hlen). exists ds. split; [done|]. simpl.
  set (tmp := digit_chr (Z.land (flags spec) SMALL) <$> ds).
  assert (Hzt : zlen tmp = zlen ds) by (unfold tmp, zlen; by rewrite length_fmap).
  destruct (Z.ltb_spec TMP_SIZE (zlen tmp)); [unfold TMP_SIZE in *; lia|].
  set (sg := sign_chars (flags spec) num). set (px := prefix_chars spec).
  set (body := reps chr_0 (precision spec - zlen tmp) ++ reverse tmp).
  assert (Hrt : zlen (reverse tmp) = zlen tmp) by (unfold zlen; by rewrite length_reverse).
  pose proof (body_length spec tmp) as Hzb. fold body in Hzb.
  rewrite prefix_width by (unfold sg; lia). fold px. rewrite <- Hzb.
  set (fill := field_width spec - zlen (sg ++ px) - zlen body).
  destruct (fill_range spec num tmp Hok ltac:(lia)) as [Hfill Hbody]. rewrite <- Hzb in Hfill, Hbody.
  fold sg px fill in Hfill. rewrite (s32_small fill) by lia.
  rewrite emit_pad by lia. set (l1 := if negb (flag f' (ZEROPAD + LEFT)) then _ else []).
  set (w1 := if negb (flag f' (ZEROPAD + LEFT)) then _ else _).
  assert (Hw1 : - 2 ^ 31 + 2 <= w1 < 2 ^ 31) by (unfold w1; destruct (negb (flag f' (ZEROPAD + LEFT))); lia).
  destruct (emit_next m buf end_ [] m buf l1 Hbuf He eq_refl) as (_ & _ & m1 & b1 & -> & H1). simpl.
  unfold sg. rewrite emit_sign. fold sg.
  destruct (emit_next m buf end_ _ m1 b1 sg Hbuf He H1) as (_ & _ & m2 & b2 & -> & H2). simpl.
  rewrite emit_prefix. fold px.
  destruct (emit_next m buf end_ _ m2 b2 px Hbuf He H2) as (_ & _ & m3 & b3 & -> & H3). simpl.
  rewrite emit_pad by lia. set (l4 := if negb (flag f' LEFT) then _ else []).
  set (w4 := if negb (flag f' LEFT) then _ else _).
  assert (Hw4 : - 2 ^ 31 < w4 < 2 ^ 31) by (unfold w4; destruct (negb (flag f' LEFT)); lia).
  destruct (emit_next m buf end_ _ m3 b3 l4 Hbuf He H3) as (_ & _ & m4 & b4 & -> & H4). simpl.
  rewrite pad_spec by lia. set (l5 := reps chr_0 (zlen body - zlen tmp)).
  destruct (emit_next m buf end_ _ m4 b4 l5 Hbuf He H4) as (_ & _ & m5 & b5 & -> & H5). simpl.
  destruct (emit_next m buf end_ _ m5 b5 (reverse tmp) Hbuf He H5) as (Hb5 & He5 & m6 & b6 & E6 & H6).
  rewrite (emit_digits m5 b5 end_ tmp Hb5 He5), E6. simpl. rewrite pad_spec by done.
  destruct (emit_next m buf end_ _ m6 b6 (reps chr_space w4) Hbuf He H6) as (_ & _ & m7 & b7 & -> & H7). simpl.
  rewrite <- H7. f_equal. unfold layout. fold tmp px sg. rewrite Hrt. fold body. fold fill.
  assert (Hl5 : l5 ++ reverse tmp = body).
  { unfold l5. rewrite Hzb. unfold body. do 2 f_equal.
    destruct (Z.ltb_spec (precision spec) (zlen tmp)); lia. }
  assert (Hno : forall c n : Z, reps c (Z.min n 0 - 1) = [])
    by (intros c n; by replace (Z.to_nat (Z.min n 0 - 1)) with 0%nat by lia).
  simpl. rewrite <- !app_assoc, <- Hl5, <- !app_assoc. unfold l1, l4, w4, w1. rewrite flag_or, HZ, HL.
  destruct (flag (flags spec) LEFT), (flag (flags spec) ZEROPAD); simpl; rewrite ?Hno, ?app_nil_r; done.
Qed.

(** The default width and the largest precision: the width reaches the least
    [int], its decrement wraps around, and [2 ^ 31] spaces come before the field. *)
Lemma number_wraps m buf end_ p :
  p = 2 ^ 31 - 1 -> 0 <= buf -> end_ <= zlen m ->
  number m buf end_ 0 (PrintfSpec 0 (-1) 10 p) = emit m buf end_ (reps chr_space (p + 1) ++ reps chr_0 p).
Proof.
  intros Hp Hb He. unfold number. change (flag (flags _) _) with false.
  cbn [mbind option_bind andb negb field_width base precision flags]. change (flag 0 _) with false.
  rewrite !Z.eqb_refl. cbn [mbind option_bind negb]. change (zlen [chr_0]) with 1.
  change (TMP_SIZE <? 1) with false. rewrite (proj2 (Z.ltb_ge p 1)) by lia. rewrite pad_exact.
  assert (s32 (s32 (-1 - p) - 1) = p) as -> by (subst p; reflexivity).
  destruct (emit_next m buf end_ [] m buf (reps chr_space (p + 1)) Hb He eq_refl) as (_ & _ & m1 & b1 & -> & H1).
  cbn [mbind option_bind app] in *. rewrite Z.min_r by lia.
  rewrite (pad_spec end_ chr_space m1 b1 (-1)) by lia. cbn [mbind option_bind].
  change (reps chr_space (-1)) with (@nil Z). cbn [emit mbind option_bind]. rewrite pad_spec by lia.
  destruct (emit_next m buf end_ _ m1 b1 (reps chr_0 (p - 1)) Hb He H1) as (_ & _ & m2 & b2 & -> & H2).
  cbn [mbind option_bind].
  destruct (emit_next m buf end_ _ m2 b2 (reverse [chr_0]) Hb He H2) as (Hb2 & He2 & m3 & b3 & E3 & H3).
  pose proof (emit_digits m2 b2 end_ [chr_0] Hb2 He2) as Hd. change (zlen [chr_0]) with 1 in Hd.
  rewrite Hd, E3. cbn [mbind option_bind]. rewrite pad_spec by lia. change (Z.min (-1) 0 - 1) with (-2).
  change (reps chr_space (-2)) with (@nil Z). cbn [emit mbind option_bind]. rewrite <- H3. f_equal.
  rewrite <- app_assoc. f_equal. replace (Z.to_nat p) with (Z.to_nat (p - 1) + 1)%nat by lia.
  by rewrite repeat_app.
Qed.

(** C22 [number] prints the field the format asks for. The digits are those of the
    number in base 8, 10 or 16, or of its absolute value for a signed format,
    without superfluous zeros; sign, prefix, precision, width and the flags to fill
    are laid out as in [layout]. Bytes at or beyond [end_] are not written, and the
    pointer returned is behind the whole field whether or not it fitted. The
    local buffer is never exceeded.  This holds as long as the arithmetic on the
    width does not overflow ([widths_ok]); with the default width -1 and precision
    [2 ^ 31 - 1] it does, and [2 ^ 31] spaces are printed in front. *)
Theorem number_prints_field m buf end_ num spec :
  base spec = 8 \/ base spec = 10 \/ base spec = 16 -> 0 <= num < 2 ^ 64 ->
  0 <= buf -> end_ <= zlen m -> widths_ok spec ->
  (exists ds, digits_of (base spec) (magnitude (flags spec) num) ds /\
    let out := layout spec (sign_chars (flags spec) num)
      (reverse (digit_chr (Z.land (flags spec) SMALL) <$> ds)) in
    number m buf end_ num spec = Some (write m buf (upto (end_ - buf) out), buf + zlen out) /\
    zlen out = Z.max (field_width spec)
      (zlen (sign_chars (flags spec) num) + zlen (prefix_chars spec) + Z.max (precision spec) (zlen ds))) /\
  (forall p, p = 2 ^ 31 - 1 ->
    number m buf end_ 0 (PrintfSpec 0 (-1) 10 p) =
    Some (write m buf (upto (end_ - buf) (reps chr_space (p + 1) ++ reps chr_0 p)), buf + (2 * p + 1))).
Proof.
  intros Hb Hn Hbuf He Hok.
  assert (Hr : forall (c : Z) n, zlen (reps c n) = Z.max n 0) by (intros; unfold zlen; rewrite repeat_length; lia).
  split; [|intros p Hp; rewrite number_wraps, emit_spec, zlen_app, !Hr by done; do 2 f_equal; lia].
  destruct (number_spec m buf end_ num spec Hb Hn Hbuf He Hok) as (ds & Hds & Hnum).
  exists ds. split; [done|]. rewrite Hnum, emit_spec by done. split; [done|].
  set (tmp := reverse _). assert (Hz : zlen tmp = zlen ds)
    by (unfold tmp, zlen; by rewrite length_reverse, length_fmap).
  unfold layout. rewrite Hz. pose proof (zlen_nonneg ds).
  destruct (flag (flags spec) LEFT), (flag (flags spec) ZEROPAD); rewrite !zlen_app, !Hr, Hz; lia.
Qed.

(** ** Reading back what was printed *)

Lemma digit_chr_ok locase d :
  locase = 0 \/ locase = 32 -> 0 <= d < 16 ->
  let c := digit_chr locase d in
  isxdigit c = true /\ digit_val c = d /\ c <> 0 /\ TOLOWER c <> chr_x /\ c <> chr_minus /\
  (c = chr_0 <-> d = 0).
Proof.
  intros Hc Hd. assert (d ∈ seqZ 0 16) as Hin by (apply elem_of_seqZ; lia).
  destruct Hc as [-> | ->]; repeat (apply elem_of_cons in Hin as [-> | Hin];
    [vm_compute; repeat split; (reflexivity || discriminate)|]); by apply elem_of_nil in Hin.
Qed.

Lemma locase_cases f : Z.land f SMALL = 0 \/ Z.land f SMALL = 32.
Proof.
  unfold SMALL. change 32 with (2 ^ 5).
  destruct (Z.testbit f 5) eqn:Ht; [right|left]; apply Z.bits_inj'; intros i Hi;
    rewrite Z.land_spec, Z.pow2_bits_eqb by lia; destruct (Z.eqb_spec 5 i) as [<-|];
    rewrite ?Z.bits_0, ?Ht, ?andb_false_r; done.
Qed.

Lemma number_of_snoc b l d : number_of b (l ++ [d]) = number_of b l * b + d.
Proof. unfold number_of. by rewrite foldl_app. Qed.

Lemma number_of_reverse b ds : number_of b (reverse ds) = lvalue b ds.
Proof.
  induction ds as [|d ds IH]; [done|]. rewrite reverse_cons, number_of_snoc, IH. unfold lvalue. simpl. lia.
Qed.

(** The digits of a list of digit characters. *)
Lemma digit_prefix_chars b locase l :
  locase = 0 \/ locase = 32 -> b <= 16 -> Forall (fun d => 0 <= d < b) l ->
  digit_prefix b (digit_chr locase <$> l) = l.
Proof.
  intros Hc Hb. induction l as [|d l IH]; intros Hl; [done|]. apply Forall_cons_iff in Hl as [Hd Hl].
  destruct (digit_chr_ok locase d Hc ltac:(lia)) as (Hx & Hv & _). simpl. rewrite Hx, Hv.
  destruct (Z.ltb_spec d b); [|lia]. simpl. f_equal. by apply IH.
Qed.

#[local] Transparent parsed.

(** The characters of digits given the lowest first. *)
Definition digit_chars (locase : Z) (ds : list Z) : list Z := digit_chr locase <$> reverse ds.

Section read_back.
Context (b num locase : Z) (ds : list Z).
Context (Hb : b = 8 \/ b = 10 \/ b = 16) (Hc : locase = 0 \/ locase = 32) (Hds : digits_of b num ds).

Local Abbreviation chars := (digit_chars locase ds).

Lemma chars_digits : digit_prefix b chars = reverse ds.
Proof. apply digit_prefix_chars; [done|lia|]. apply Forall_reverse, Hds. Qed.

Lemma chars_prefix : prefix_len b chars = 0.
Proof.
  unfold digit_chars. destruct Hds as (Hf & _). apply Forall_reverse in Hf. unfold prefix_len.
  destruct (reverse ds) as [|c0 [|c1 l]]; [done|done|]. simpl.
  apply Forall_cons_iff in Hf as [_ Hf]. apply Forall_cons_iff in Hf as [Hf _].
  destruct (digit_chr_ok locase c1 Hc ltac:(lia)) as (_ & _ & _ & Hx & _).
  destruct (Z.eqb_spec (TOLOWER (digit_chr locase c1)) chr_x); [done|]. by rewrite andb_false_r.
Qed.

Lemma zlen_chars : zlen chars = zlen ds.
Proof. unfold digit_chars, zlen. by rewrite length_fmap, length_reverse. Qed.

Lemma chars_parsed : parsed b chars = (num, zlen chars).
Proof.
  unfold parsed. destruct (Z.eqb_spec b 0); [lia|]. rewrite chars_prefix. cbv zeta.
  change (drop (Z.to_nat 0) chars) with chars. rewrite chars_digits.
  rewrite number_of_reverse. destruct Hds as (_ & -> & _). f_equal. rewrite zlen_chars.
  unfold zlen. by rewrite length_reverse.
Qed.

(** Zero is the only number that starts with a zero. *)
Lemma chars_head : exists d l, chars = digit_chr locase d :: l /\ 0 <= d < b /\ (d = 0 -> chars = [chr_0] /\ num = 0).
Proof.
  destruct Hds as (Hf & Hv & Hne & Hl). destruct (exists_last Hne) as (ds' & d & Heq).
  exists d, (digit_chr locase <$> reverse ds'). unfold digit_chars. rewrite Heq, reverse_app. simpl. split; [done|].
  rewrite Heq in Hf. apply Forall_app in Hf as [_ Hf]. apply Forall_cons_iff in Hf as [Hd _]. split; [done|].
  intros ->. assert (ds' = []) as -> by by apply Hl. rewrite <- Hv, Heq. split; [|unfold lvalue; simpl; lia].
  simpl. destruct (digit_chr_ok locase 0 Hc ltac:(lia)) as (_ & _ & _ & _ & _ & H0). by rewrite (proj2 H0 eq_refl).
Qed.

(** With the prefix ["0x"] or ["0"]. *)
Lemma chars_parsed_16 x : b = 16 -> TOLOWER x = chr_x -> 
  parsed 16 (chr_0 :: x :: chars) = (num, 2 + zlen chars) /\
  parsed 0 (chr_0 :: x :: chars) = (num, 2 + zlen chars).
Proof.
  intros H16 Hx. destruct chars_head as (d & l & Hch & Hd & _).
  destruct (digit_chr_ok locase d Hc ltac:(lia)) as (Hxd & _).
  assert (Hg : guess_base (chr_0 :: x :: chars) = 16).
  { rewrite Hch. unfold guess_base. rewrite Hx, Hxd. done. }
  assert (Hp : parsed 16 (chr_0 :: x :: chars) = (num, 2 + zlen chars)).
  { unfold parsed, prefix_len. simpl. rewrite Hx, Z.eqb_refl. simpl. rewrite <- H16, drop_0, chars_digits, number_of_reverse.
    destruct Hds as (_ & -> & _). f_equal. rewrite zlen_chars. unfold zlen. by rewrite length_reverse. }
  split; [done|]. rewrite <- Hp. unfold parsed. by rewrite Hg.
Qed.

Lemma chars_parsed_8 : b = 8 ->
  parsed 8 (chr_0 :: chars) = (num, 1 + zlen chars) /\ parsed 0 (chr_0 :: chars) = (num, 1 + zlen chars).
Proof.
  intros H8. destruct chars_head as (d & l & Hch & Hd & _).
  destruct (digit_chr_ok locase d Hc ltac:(lia)) as (_ & _ & _ & Hx & _).
  assert (Hg : guess_base (chr_0 :: chars) = 8).
  { rewrite Hch. unfold guess_base. destruct (Z.eqb_spec (TOLOWER (digit_chr locase d)) chr_x); [done|].
    by destruct l. }
  assert (Hp : parsed 8 (chr_0 :: chars) = (num, 1 + zlen chars)).
  { unfold parsed. change (8 =? 0) with false. cbv iota zeta.
    replace (prefix_len 8 (chr_0 :: chars)) with 0 by (rewrite Hch; done).
    change (drop (Z.to_nat 0) (chr_0 :: chars)) with (chr_0 :: chars).
    assert (digit_prefix 8 (chr_0 :: chars) = 0 :: reverse ds) as ->.
    { pose proof chars_digits as Hcd. rewrite H8 in Hcd.
      change chr_0 with (digit_chr 0 0) at 1. simpl. rewrite Hcd.
      destruct (digit_chr_ok 0 0) as (Hx0 & Hv0 & _); [by left|lia|]. by rewrite Hx0, Hv0. }
    assert (number_of 8 (0 :: reverse ds) = num) as ->.
    { change (number_of 8 (0 :: reverse ds)) with (number_of 8 (reverse ds)). rewrite number_of_reverse.
      rewrite <- H8. apply Hds. }
    rewrite zlen_cons, zlen_chars. f_equal. unfold zlen. rewrite length_reverse. lia. }
  split; [done|]. rewrite <- Hp. unfold parsed. by rewrite Hg.
Qed.

Lemma chars_parsed_10 : b = 10 -> parsed 0 chars = (num, zlen chars).
Proof.
  intros H10. destruct chars_head as (d & l & Hch & Hd & Hz).
  destruct (Z.eq_dec d 0) as [Hd0|Hd0].
  - destruct (Hz Hd0) as [-> ->]. done.
  - destruct (digit_chr_ok locase d Hc ltac:(lia)) as (_ & _ & _ & _ & _ & H0).
    assert (Hg : guess_base chars = 10).
    { rewrite Hch. unfold guess_base. destruct (Z.eqb_spec (digit_chr locase d) chr_0) as [E|E]; [tauto|].
      by destruct l as [|? [|? ?]]. }
    rewrite <- chars_parsed. unfold parsed. rewrite Hg, H10. done.
Qed.

Lemma chars_nonzero : Forall (fun c => c <> 0) chars.
Proof.
  unfold digit_chars. apply Forall_fmap.
  assert (Hf : Forall (fun d => 0 <= d < b) (reverse ds)) by apply Forall_reverse, Hds.
  rewrite list.Forall_forall in Hf |- *. intros d Hd%Hf. by apply (digit_chr_ok locase d Hc ltac:(lia)).
Qed.

Lemma chars_no_minus : list.head chars <> Some chr_minus.
Proof.
  destruct chars_head as (d & l & -> & Hd & _). intros [= Hm].
  by apply (digit_chr_ok locase d Hc ltac:(lia)) in Hm.
Qed.
End read_back.

(** A field without padding. *)
Lemma layout_plain spec sign ds :
  field_width spec <= 0 -> precision spec <= 0 ->
  layout spec sign ds = sign ++ prefix_chars spec ++ ds.
Proof.
  intros Hw Hp. unfold layout. pose proof (zlen_nonneg ds).
  replace (Z.to_nat (precision spec - zlen ds)) with 0%nat by lia. cbn [repeat app].
  pose proof (zlen_nonneg (sign ++ prefix_chars spec)).
  replace (Z.to_nat (field_width spec - zlen (sign ++ prefix_chars spec) - zlen ds)) with 0%nat by lia.
  cbn [repeat app]. rewrite app_nil_r, <- app_assoc. by destruct (flag (flags spec) LEFT), (flag (flags spec) ZEROPAD).
Qed.

(** Prefix and digits parse to the number, in its base and, with a prefix that shows
    the base, in base 0. *)
Lemma prefixed_parsed spec num ds :
  base spec = 8 \/ base spec = 10 \/ base spec = 16 -> digits_of (base spec) num ds ->
  let out := prefix_chars spec ++ digit_chars (Z.land (flags spec) SMALL) ds in
  parsed (base spec) out = (num, zlen out) /\
  (flag (flags spec) SPECIAL = true \/ base spec = 10 -> parsed 0 out = (num, zlen out)).
Proof.
  intros Hb Hds out. pose proof (locase_cases (flags spec)) as Hc. unfold out, prefix_chars.
  set (lo := Z.land (flags spec) SMALL) in *.
  destruct (Z.eqb_spec (base spec) 10) as [H10|H10].
  { rewrite andb_false_r. cbn [app]. split; [by apply chars_parsed|]. intros _. by eapply chars_parsed_10. }
  rewrite andb_true_r. destruct (flag (flags spec) SPECIAL); cbn [app].
  - destruct (Z.eqb_spec (base spec) 16) as [H16|H16].
    + destruct (chars_parsed_16 (base spec) num lo ds Hb Hc Hds (Z.lor chr_X lo) H16) as [H1 H2].
      { by destruct Hc as [-> | ->]. }
      rewrite H16. cbn [app].
      rewrite H1, H2, !zlen_cons. split; [|intros _]; f_equal; lia.
    + assert (H8 : base spec = 8) by lia.
      destruct (chars_parsed_8 (base spec) num lo ds Hb Hc Hds H8) as [H1 H2].
      rewrite H8. cbn [app]. rewrite H1, H2, zlen_cons. split; [|intros _]; f_equal; lia.
  - split; [by apply chars_parsed|]. intros [?|?]; done.
Qed.

Lemma prefix_nonzero spec : Forall (fun c => c <> 0) (prefix_chars spec).
Proof.
  unfold prefix_chars. destruct (flag (flags spec) SPECIAL && negb (base spec =? 10));
    [destruct (base spec =? 16)|]; repeat constructor;
    try done. by destruct (locase_cases (flags spec)) as [-> | ->].
Qed.

Lemma strict_whole b s num : parsed b s = (num, zlen s) -> s <> [] -> strict_ok b s = true.
Proof.
  intros Hp Hne. unfold strict_ok. rewrite Hp. cbn [snd].
  assert (0 < zlen s) by (destruct s; [done|rewrite zlen_cons; pose proof (zlen_nonneg s); lia]).
  destruct (Z.ltb_spec 0 (zlen s)); [|lia]. cbn [andb]. apply bool_decide_eq_true_2. left.
  apply drop_ge. unfold zlen. lia.
Qed.

(** The string in memory once the output is terminated. *)
Lemma terminated m buf end_ out :
  0 <= buf -> end_ <= zlen m -> buf + zlen out < end_ -> Forall (fun c => c <> 0) out ->
  exists m2, aset (write m buf (upto (end_ - buf) out)) (buf + zlen out) 0 = Some m2 /\ cstr m2 buf out.
Proof.
  intros Hb He Hlt Hnz. pose proof (zlen_nonneg out).
  rewrite (take_ge out) by (unfold zlen in *; lia). rewrite write_snoc by lia. eexists. split; [done|].
  apply cstr_iff. split; [|done]. apply write_bytes; [done|]. rewrite zlen_app. change (zlen [0]) with 1. lia.
Qed.

(** C21 What [number] prints can be read back. Printed without padding (width and
    precision at most 0), without the flags for a plus sign or a space, and terminated by a 0, every unsigned 64-bit number is given back by
    [simple_strtoul] in the base it was printed in and accepted by
    [strict_strtoul]; with the prefix of the base, or in base 10, also when the
    base is left to be guessed. A number printed as signed in base 10 is given back
    by [simple_strtol] and [strict_strtol]. *)
Theorem number_read_back m buf end_ num spec :
  base spec = 8 \/ base spec = 10 \/ base spec = 16 -> 0 <= num < 2 ^ 64 ->
  0 <= buf -> end_ <= zlen m ->
  - 2 ^ 31 + 28 <= field_width spec <= 0 -> - 2 ^ 31 <= precision spec <= 0 ->
  flag (flags spec) PLUS = false -> flag (flags spec) SPACE = false ->
  exists m1 e, number m buf end_ num spec = Some (m1, e) /\
  (e < end_ -> exists m2, aset m1 e 0 = Some m2 /\
    (flag (flags spec) SIGN = false ->
       simple_strtoul m2 buf (base spec) = Some (num, e) /\
       strict_strtoul m2 buf (base spec) = Some (0, num) /\
       (flag (flags spec) SPECIAL = true \/ base spec = 10 ->
          simple_strtoul m2 buf 0 = Some (num, e))) /\
    (flag (flags spec) SIGN = true -> base spec = 10 ->
       simple_strtol m2 buf 10 = Some (s64 num, e) /\ strict_strtol m2 buf 10 = Some (0, s64 num))).
Proof.
  intros Hb Hn Hbuf He Hw Hp HP HS.
  destruct (number_spec m buf end_ num spec Hb Hn Hbuf He) as (ds & Hds & Hnum); [unfold widths_ok; lia|].
  rewrite layout_plain, <- fmap_reverse in Hnum by lia.
  change (digit_chr ?l <$> reverse ds) with (digit_chars l ds) in Hnum.
  set (chars := digit_chars (Z.land (flags spec) SMALL) ds) in *.
  set (sg := sign_chars (flags spec) num) in *.
  pose proof (locase_cases (flags spec)) as Hc.
  destruct (prefixed_parsed spec _ ds Hb Hds) as [Hpar Hpar0]. fold chars in Hpar, Hpar0.
  rewrite Hnum, emit_spec by done. eexists _, _. split; [done|]. intros Hlt.
  assert (Hnz : Forall (fun c => c <> 0) (sg ++ prefix_chars spec ++ chars)).
  { rewrite !Forall_app. split_and!; [|apply prefix_nonzero|by eapply chars_nonzero].
    destruct (sign_chars_head (flags spec) num) as [E|(c & E & Hc0)]; unfold sg; rewrite E; by repeat constructor. }
  destruct (terminated m buf end_ _ Hbuf He Hlt Hnz) as (m2 & Hset & Hstr).
  exists m2. split; [done|].
  assert (Hne : chars <> []).
  { destruct (chars_head (base spec) _ _ ds Hc Hds) as (d & l & E & _). unfold chars. by rewrite E. }
  split.
  - intros Hsg. unfold magnitude in *. rewrite Hsg in *. cbn [andb] in *.
    assert (sg = []) as Hsg0 by (unfold sg, sign_chars; by rewrite Hsg).
    rewrite Hsg0 in *. cbn [app] in *.
    rewrite (simple_strtoul_spec m2 buf _ _ Hstr), (strict_strtoul_spec m2 buf _ _ Hstr), Hpar. cbn [fst snd].
    rewrite (strict_whole _ _ _ Hpar) by (by destruct (prefix_chars spec)).
    rewrite wrap_small by exact Hn. split; [done|]. split; [done|]. intros H0. specialize (Hpar0 H0).
    rewrite (simple_strtoul_spec m2 buf _ 0 Hstr), Hpar0. cbn [fst snd]. by rewrite wrap_small by exact Hn.
  - intros Hsg H10. rewrite H10 in *.
    assert (Hpx : prefix_chars spec = []) by (unfold prefix_chars; by rewrite H10, andb_false_r).
    rewrite Hpx in *. cbn [app] in *.
    assert (Hs64 : s64 (u64 (s64 num)) = s64 num).
    { apply s64_u64. unfold s64. destruct (Z.ltb_spec num (2 ^ 63)); lia. }
    unfold sg, sign_chars, magnitude in *. rewrite Hsg, HP, HS in *. cbn [andb] in *.
    destruct (Z.ltb_spec (s64 num) 0).
    + destruct (strtol_minus m2 buf chars 10 Hstr) as (-> & _ & ->). rewrite Hpar. cbn [fst snd].
      rewrite (strict_whole _ _ _ Hpar Hne), Z.opp_involutive, Hs64. split; [|done].
      cbn [app]. rewrite zlen_cons. do 2 f_equal. lia.
    + cbn [app] in *. destruct (strtol_plain m2 buf chars 10 Hstr) as (-> & _ & ->); [by eapply chars_no_minus|]. rewrite Hpar. cbn [fst snd].
      rewrite (strict_whole _ _ _ Hpar Hne), (wrap_small 64 num) by exact Hn. done.
Qed.

(** * Concrete numbers *)

(** ["0x1F;"] at 0, ["0x"] at 6. *)
Definition demo_nums : list Z := [48; 120; 49; 70; 59; 0; 48; 120; 0].

Lemma strto_correct_witness :
  simple_strtoul demo_nums 0 0 = Some (31, 4) /\ strict_strtoul demo_nums 0 0 = Some (- EINVAL, 0).
Proof.
  destruct (strto_correct demo_nums 0 [48; 120; 49; 70; 59] 0) as (H1 & _ & H2 & _);
    [vm_compute; repeat split; discriminate|].
  rewrite H1, H2. split; vm_compute; reflexivity.
Defined.

(** [strict_strtoul] accepts a prefix without digits, and a number that does not
    fit into 64 bits. *)
Lemma strict_strtoul_0x : strict_strtoul demo_nums 6 16 = Some (0, 0).
Proof. vm_compute. reflexivity. Qed.

Lemma strict_strtoul_overflow :
  strict_strtoul (repeat 49 21 ++ [0]) 0 10 = Some (0, u64 111111111111111111111).
Proof. vm_compute. reflexivity. Qed.

Definition demo_spec : printf_spec := PrintfSpec (SPECIAL + SMALL) 0 16 (-1).

Lemma number_prints_field_witness :
  number (repeat 0 12) 0 12 255 demo_spec = Some ([48; 120; 102; 102] ++ repeat 0 8, 4).
Proof.
  destruct (number_prints_field (repeat 0 12) 0 12 255 demo_spec) as [(ds & Hds & Hnum & _) _];
    [right; right; reflexivity|lia|lia|vm_compute; discriminate|unfold widths_ok; simpl; lia|].
  vm_compute in Hnum |- *. reflexivity.
Defined.

Lemma number_read_back_witness :
  exists m1 m2, number (repeat 0 12) 0 12 255 demo_spec = Some (m1, 4) /\ aset m1 4 0 = Some m2 /\
    simple_strtoul m2 0 16 = Some (255, 4).
Proof.
  destruct (number_read_back (repeat 0 12) 0 12 255 demo_spec) as (m1 & e & Hnum & Hread);
    [right; right; reflexivity|lia|lia|vm_compute; discriminate|simpl; lia|simpl; lia|reflexivity|reflexivity|].
  assert (e = 4) as -> by (vm_compute in Hnum; congruence).
  destruct (Hread ltac:(lia)) as (m2 & Hset & Hu & _). destruct (Hu eq_refl) as (Hs & _).
  exists m1, m2. split; [exact Hnum|]. split; [exact Hset|exact Hs].
Defined.
