(* ===== verification/Resource.v ===== *)
(** The tree of I/O and memory resources of kernel/resource.c.

    A resource is a range of addresses; its children are disjoint ranges inside it,
    in ascending order.  The theorems show that requesting, releasing, inserting
    and adjusting keep it so, which requests are refused, that allocation takes the
    first place that fits, and that releasing a region undoes requesting it. *)
From Stdlib Require Import ZArith Lia Bool.
From stdpp Require Import base numbers list option sets.
From S2P Require Import Prelude.

Local Open Scope Z_scope.

(** * Definitions *)

Definition IORESOURCE_BUSY : Z := 0x80000000.
Definition IORESOURCE_SIZEALIGN : Z := 0x00020000.
Definition IORESOURCE_STARTALIGN : Z := 0x00040000.

(** A resource with its address.  [child] and [sibling] are the list of children,
    and [parent] is the node the list belongs to. *)
Inductive resource : Type :=
| Resource (address : positive) (start end_ flags : Z) (child : list resource).

Definition address (r : resource) : positive := let 'Resource a _ _ _ _ := r in a.
Definition start (r : resource) : Z := let 'Resource _ s _ _ _ := r in s.
Definition end_ (r : resource) : Z := let 'Resource _ _ e _ _ := r in e.
Definition flags (r : resource) : Z := let 'Resource _ _ _ f _ := r in f.
Definition child (r : resource) : list resource := let 'Resource _ _ _ _ l := r in l.

Definition set_child (r : resource) (l : list resource) : resource :=
  let 'Resource a s e f _ := r in Resource a s e f l.
Definition set_range (r : resource) (s e : Z) : resource :=
  let 'Resource a _ _ f l := r in Resource a s e f l.

(** Equality of pointers. *)
Definition same (r r' : resource) : bool := bool_decide (address r = address r').

(** The loop of [__request_resource]: the list with [new] in its place, or the
    child in the way. *)
Fixpoint request_among (new : resource) (l : list resource) : list resource + resource :=
  match l with
  | [] => inl [new]
  | tmp :: rest =>
      if end_ new <? start tmp then inl (new :: tmp :: rest)
      else if end_ tmp <? start new then
        match request_among new rest with
        | inl rest' => inl (tmp :: rest')
        | inr c => inr c
        end
      else inr tmp
  end.

(** Returns the tree and the resource in conflict. *)
Definition __request_resource (root new : resource) : resource * option resource :=
  if end_ new <? start new then (root, Some root)
  else if start new <? start root then (root, Some root)
  else if end_ root <? end_ new then (root, Some root)
  else match request_among new (child root) with
       | inl l => (set_child root l, None)
       | inr c => (root, Some c)
       end.

Fixpoint release_among (old : positive) (l : list resource) : option (list resource) :=
  match l with
  | [] => None
  | tmp :: rest =>
      if bool_decide (address tmp = old) then Some rest
      else rest' ← release_among old rest; Some (tmp :: rest')
  end.

(** [parent] is [old->parent]. *)
Definition __release_resource (parent : resource) (old : positive) : resource * Z :=
  match release_among old (child parent) with
  | Some l => (set_child parent l, 0)
  | None => (parent, - EINVAL)
  end.

Definition request_resource (root new : resource) : resource * Z :=
  let '(root, conflict) := __request_resource root new in
  (root, match conflict with Some _ => - EBUSY | None => 0 end).

Definition release_resource (parent : resource) (old : positive) : resource * Z :=
  __release_resource parent old.

(** [ALIGN] of [resource_size_t]. *)
Definition ALIGN (x a : Z) : Z := Z.land (u64 (x + u64 (a - 1))) (not64 (u64 (a - 1))).

(** The loop of [find_resource] from [this] on, with [new->start].  [alignf] changes
    the range of [new], given the size and the alignment. *)
Fixpoint find_among (root : resource) (size min max align : Z)
    (alignf : option (Z * Z -> Z -> Z -> Z * Z)) (new_start : Z) (this : list resource)
  : option (Z * Z) :=
  let new_end := match this with t :: _ => u64 (start t - 1) | [] => end_ root end in
  let new_start := if new_start <? min then min else new_start in
  let new_end := if max <? new_end then max else new_end in
  let new_start := ALIGN new_start align in
  let '(new_start, new_end) :=
    match alignf with Some f => f (new_start, new_end) size align | None => (new_start, new_end) end in
  if (new_start <? new_end) && (u64 (size - 1) <=? u64 (new_end - new_start))
  then Some (new_start, u64 (u64 (new_start + size) - 1))
  else match this with
       | [] => None
       | t :: sibling => find_among root size min max align alignf (u64 (end_ t + 1)) sibling
       end.

(** [None] for [-EBUSY], otherwise the range found. *)
Definition find_resource (root : resource) (size min max align : Z)
    (alignf : option (Z * Z -> Z -> Z -> Z * Z)) : option (Z * Z) :=
  match child root with
  | this :: sibling =>
      if start this =? 0 then find_among root size min max align alignf (u64 (end_ this + 1)) sibling
      else find_among root size min max align alignf (start root) (child root)
  | [] => find_among root size min max align alignf (start root) (child root)
  end.

Definition allocate_resource (root new : resource) (size min max align : Z)
    (alignf : option (Z * Z -> Z -> Z -> Z * Z)) : resource * Z :=
  match find_resource root size min max align alignf with
  | None => (root, - EBUSY)
  | Some (s, e) =>
      match __request_resource root (set_range new s e) with
      | (_, Some _) => (root, - EBUSY)
      | (root, None) => (root, 0)
      end
  end.

(** The children up to [first], and [first] with those behind it. *)
Fixpoint split_at (first : resource) (l : list resource) : list resource * list resource :=
  match l with
  | [] => ([], [])
  | c :: rest =>
      if same c first then ([], l)
      else let '(before, from) := split_at first rest in (c :: before, from)
  end.

(** The second loop of [__insert_resource]: the children that become children of
    [new] and those left, or the one in the way. *)
Fixpoint take_covered (new : resource) (l : list resource)
  : (list resource * list resource) + resource :=
  match l with
  | [] => inl ([], [])
  | next :: rest =>
      if (start next <? start new) || (end_ new <? end_ next) then inr next
      else
        match rest with
        | [] => inl ([next], [])
        | sibling :: _ =>
            if end_ new <? start sibling then inl ([next], rest)
            else
              match take_covered new rest with
              | inl (run, others) => inl (next :: run, others)
              | inr c => inr c
              end
        end
  end.

(** The same child with another subtree. *)
Definition replace_child (parent c : resource) : resource :=
  set_child parent ((fun x => if same x c then c else x) <$> child parent).

(** The first loop goes down the tree; [fuel] bounds its height. *)
Fixpoint __insert_resource (fuel : nat) (parent new : resource) : option (resource * option resource) :=
  match fuel with
  | O => None
  | S fuel =>
      match __request_resource parent new with
      | (parent', None) => Some (parent', None)
      | (_, Some first) =>
          if same first parent then Some (parent, Some first)
          else if (start new <? start first) || (end_ first <? end_ new) ||
                  ((start first =? start new) && (end_ first =? end_ new)) then
            let '(before, from) := split_at first (child parent) in
            match take_covered new from with
            | inr next => Some (parent, Some next)
            | inl (run, others) => Some (set_child parent (before ++ set_child new run :: others), None)
            end
          else
            '(first, conflict) ← __insert_resource fuel first new;
            Some (replace_child parent first, conflict)
      end
  end.

Definition insert_resource (fuel : nat) (parent new : resource) : option (resource * Z) :=
  '(parent, conflict) ← __insert_resource fuel parent new;
  Some (parent, match conflict with Some _ => - EBUSY | None => 0 end).

(** [attached] says whether [new->parent] is set; [height] bounds the height of the
    tree.  Also returns the range the resource ended up with. *)
Definition insert_resource_expand_to_fit (fuel height : nat) (root new : resource) (attached : bool)
  : option (resource * resource) :=
  if attached then Some (root, new) else
  loop fuel (fun '(root, new) =>
    '(root, conflict) ← __insert_resource height root new;
    match conflict with
    | None => Some (Done (root, new))
    | Some c =>
        if same c root then Some (Done (root, new))
        else
          let s := if start c <? start new then start c else start new in
          let e := if end_ new <? end_ c then end_ c else end_ new in
          Some (Next (root, set_range new s e))
    end) (root, new).

(** [before] is the last child in front of [res], if any, and [sibling] the one
    behind it; [None] when [res] is not a child of [parent]. *)
Fixpoint neighbours (res : positive) (before : option resource) (l : list resource)
  : option (option resource * resource * option resource) :=
  match l with
  | [] => None
  | c :: rest =>
      if bool_decide (address c = res) then Some (before, c, head rest)
      else neighbours res (Some c) rest
  end.

Definition adjust_resource (parent : resource) (res : positive) (start_ size : Z) : option (resource * Z) :=
  let e := u64 (u64 (start_ + size) - 1) in
  '(before, r, sibling) ← neighbours res None (child parent);
  if (start_ <? start parent) || (end_ parent <? e) then Some (parent, - EBUSY)
  else if existsb (fun tmp => (start tmp <? start_) || (e <? end_ tmp)) (child r) then Some (parent, - EBUSY)
  else if match sibling with Some s => start s <=? e | None => false end then Some (parent, - EBUSY)
  else if match before with Some b => start_ <=? end_ b | None => false end then Some (parent, - EBUSY)
  else Some (replace_child parent (set_range r start_ e), 0).

(** Goes down into resources that are not busy.  [res] is the new resource, its
    memory given. *)
Fixpoint request_region_in (fuel : nat) (parent res : resource) : option (resource * bool) :=
  match fuel with
  | O => None
  | S fuel =>
      match __request_resource parent res with
      | (parent', None) => Some (parent', true)
      | (_, Some conflict) =>
          if negb (same conflict parent) && (Z.land (flags conflict) IORESOURCE_BUSY =? 0) then
            '(conflict, ok) ← request_region_in fuel conflict res;
            Some (replace_child parent conflict, ok)
          else Some (parent, false)
      end
  end.

(** [alloc] is the result of [kzalloc]; the value says whether there is a region. *)
Definition __request_region (fuel : nat) (parent : resource) (alloc : option positive)
    (start_ n flags_ : Z) : option (resource * bool) :=
  match alloc with
  | None => Some (parent, false)
  | Some a =>
      request_region_in fuel parent
        (Resource a start_ (u64 (u64 (start_ + n) - 1)) (Z.lor IORESOURCE_BUSY flags_) [])
  end.

(** Walks the children, going down into one that covers the range and is not busy.
    The value says whether the region was found. *)
Fixpoint release_region_in (fuel : nat) (s e : Z) (l : list resource) : option (list resource * bool) :=
  match fuel with
  | O => None
  | S fuel =>
      match l with
      | [] => Some ([], false)
      | res :: sibling =>
          if (start res <=? s) && (e <=? end_ res) then
            if Z.land (flags res) IORESOURCE_BUSY =? 0 then
              '(l', ok) ← release_region_in fuel s e (child res);
              Some (set_child res l' :: sibling, ok)
            else if negb (start res =? s) || negb (end_ res =? e) then Some (l, false)
            else Some (sibling, true)
          else
            '(l', ok) ← release_region_in fuel s e sibling; Some (res :: l', ok)
      end
  end.

Definition __release_region (fuel : nat) (parent : resource) (start_ n : Z) : option (resource * bool) :=
  '(l, ok) ← release_region_in fuel start_ (u64 (u64 (start_ + n) - 1)) (child parent);
  Some (set_child parent l, ok).

(** [release_resource] of a resource anywhere below [r]. *)
Fixpoint release_below (old : positive) (r : resource) : resource :=
  match r with
  | Resource a s e f l =>
      Resource a s e f (flat_map (fun c => if bool_decide (address c = old) then [] else [release_below old c]) l)
  end.

(** The tree afterwards, and 0 when the region is free. *)
Definition __check_region (fuel : nat) (parent : resource) (alloc : option positive) (start_ n : Z)
  : option (resource * Z) :=
  '(parent, res) ← __request_region fuel parent alloc start_ n 0;
  Some (match res, alloc with
        | true, Some a => (release_below a parent, 0)
        | _, _ => (parent, - EBUSY)
        end).

(** [names] are the addresses [kzalloc] gives, one per call. *)
Fixpoint __reserve_region_with_split (fuel : nat) (names : Z -> Z -> option positive) (root : resource)
    (start_ e : Z) : option resource :=
  match fuel with
  | O => None
  | S fuel =>
      match names start_ e with
      | None => Some root
      | Some a =>
          match __request_resource root (Resource a start_ e IORESOURCE_BUSY []) with
          | (root', None) => Some root'
          | (_, Some conflict) =>
              if (start conflict <=? start_) && (e <=? end_ conflict) then Some root
              else
                root ← (if start_ <? start conflict
                        then __reserve_region_with_split fuel names root start_ (u64 (start conflict - 1))
                        else Some root);
                if end_ conflict <? e
                then __reserve_region_with_split fuel names root (u64 (end_ conflict + 1)) e
                else Some root
          end
      end
  end.

Definition resource_size (r : resource) : Z := u64 (u64 (end_ r - start r) + 1).

Definition resource_alignment (r : resource) : Z :=
  let f := Z.land (flags r) (Z.lor IORESOURCE_SIZEALIGN IORESOURCE_STARTALIGN) in
  if f =? IORESOURCE_SIZEALIGN then resource_size r
  else if f =? IORESOURCE_STARTALIGN then start r
  else 0.

(** * Well-formed trees *)

(** The ranges of [l] are in ascending order, disjoint and within [lo] and [hi]. *)
Fixpoint tiled (lo hi : Z) (l : list resource) : Prop :=
  match l with
  | [] => True
  | c :: rest => lo <= start c /\ end_ c <= hi /\ tiled (end_ c + 1) hi rest
  end.

Fixpoint wf (r : resource) : Prop :=
  match r with
  | Resource a s e _ l =>
      0 <= s <= e /\ e < 2 ^ 64 /\ tiled s e l /\
      NoDup (address <$> l) /\ (a ∉ (address <$> l)) /\ foldr (fun c P => wf c /\ P) True l
  end.

(** What the tree holds: address, range and flags of every node. *)
Definition node (r : resource) : positive * Z * Z * Z := (address r, start r, end_ r, flags r).
Fixpoint nodes (r : resource) : list (positive * Z * Z * Z) :=
  match r with Resource a s e f l => (a, s, e, f) :: flat_map nodes l end.

Definition addresses (r : resource) : list positive := (fun x => x.1.1.1) <$> nodes r.

Fixpoint height (r : resource) : nat :=
  match r with Resource _ _ _ _ l => S (foldr (fun c n => Nat.max (height c) n) O l) end.

Lemma all_Forall (P : resource -> Prop) l : foldr (fun c Q => P c /\ Q) True l <-> Forall P l.
Proof.
  induction l as [|c l IH]; simpl; [by split; intros; [constructor|]|].
  rewrite IH, Forall_cons_iff. done.
Qed.

Lemma wf_iff r :
  wf r <-> 0 <= start r <= end_ r /\ end_ r < 2 ^ 64 /\ tiled (start r) (end_ r) (child r) /\
    NoDup (address <$> child r) /\ (address r ∉ (address <$> child r)) /\ Forall wf (child r).
Proof. destruct r as [a s e f l]. cbn [wf start end_ child address]. by rewrite all_Forall. Qed.

Lemma wf_range r : wf r -> 0 <= start r <= end_ r /\ end_ r < 2 ^ 64.
Proof. intros (? & ? & _)%wf_iff. done. Qed.

Lemma nodes_eq r : nodes r = node r :: flat_map nodes (child r).
Proof. by destruct r. Qed.

Lemma set_child_eq r l : start (set_child r l) = start r /\ end_ (set_child r l) = end_ r /\
  flags (set_child r l) = flags r /\ address (set_child r l) = address r /\ child (set_child r l) = l.
Proof. by destruct r. Qed.

Lemma set_child_id r : set_child r (child r) = r.
Proof. by destruct r. Qed.

Lemma node_set_child r l : node (set_child r l) = node r.
Proof. by destruct r. Qed.

(** A node with other children. *)
Lemma wf_set_child r l :
  wf r -> tiled (start r) (end_ r) l -> NoDup (address <$> l) -> address r ∉ (address <$> l) ->
  Forall wf l -> wf (set_child r l).
Proof.
  intros (? & ? & _)%wf_iff Ht Hd Ha Hf. apply wf_iff.
  destruct (set_child_eq r l) as (-> & -> & _ & -> & ->). tauto.
Qed.

Lemma tiled_range lo hi l c : Forall wf l -> tiled lo hi l -> c ∈ l -> lo <= start c /\ end_ c <= hi.
Proof.
  revert lo. induction l as [|d l IH]; intros lo Hf Ht Hc; [by apply elem_of_nil in Hc|].
  apply Forall_cons_iff in Hf as [Hd Hf]. destruct Ht as (? & ? & Ht). apply wf_range in Hd.
  apply elem_of_cons in Hc as [->|Hc]; [done|]. destruct (IH _ Hf Ht Hc). lia.
Qed.

Lemma tiled_weaken lo lo' hi l : lo' <= lo -> tiled lo hi l -> tiled lo' hi l.
Proof. destruct l; simpl; [done|]. intros ? (? & ? & ?). split_and!; [lia|done|done]. Qed.

(** Two ranges have an address in common. *)
Definition overlap (r r' : resource) : Prop := start r <= end_ r' /\ start r' <= end_ r.

(** ** Requesting *)

Lemma request_among_spec new lo hi l :
  start new <= end_ new -> lo <= start new -> end_ new <= hi -> Forall wf l -> tiled lo hi l ->
  match request_among new l with
  | inl l' => exists la lb, l = la ++ lb /\ l' = la ++ new :: lb /\ tiled lo hi l' /\
      Forall (fun c => ~ overlap c new) l
  | inr c => overlap c new /\ exists la lb, l = la ++ c :: lb /\ Forall (fun x => end_ x < start new) la
  end.
Proof.
  intros Hse. revert lo. induction l as [|tmp l IH]; intros lo Hlo Hhi Hf Ht; simpl.
  - exists [], []. simpl. split_and!; try done; constructor.
  - apply Forall_cons_iff in Hf as [Hw Hf]. destruct Ht as (Ht1 & Ht2 & Ht). apply wf_range in Hw as Hr.
    destruct (Z.ltb_spec (end_ new) (start tmp)).
    + exists [], (tmp :: l). simpl. split_and!; try done; [lia|].
      constructor; [unfold overlap; lia|]. apply list.Forall_forall. intros c Hc.
      destruct (tiled_range _ _ _ _ Hf Ht Hc). unfold overlap. lia.
    + destruct (Z.ltb_spec (end_ tmp) (start new)).
      * specialize (IH (end_ tmp + 1) ltac:(lia) Hhi Hf Ht).
        destruct (request_among new l) as [l'|c].
        -- destruct IH as (la & lb & -> & -> & Htl & Hno). exists (tmp :: la), lb. simpl.
           split_and!; try done. constructor; [unfold overlap; lia|done].
        -- destruct IH as (Ho & la & lb & -> & Hla). split; [done|]. exists (tmp :: la), lb.
           split; [done|]. by constructor.
      * split; [unfold overlap; lia|]. by exists [], l.
Qed.

(** A range inside another. *)
Definition inside (new r : resource) : Prop := start r <= start new /\ end_ new <= end_ r.

Definition free_in (new root : resource) : Prop :=
  start new <= end_ new /\ inside new root /\ Forall (fun c => ~ overlap c new) (child root).

Lemma request_spec root new :
  wf root ->
  match __request_resource root new with
  | (root', None) => free_in new root /\ exists la lb, child root = la ++ lb /\
      root' = set_child root (la ++ new :: lb) /\ tiled (start root) (end_ root) (la ++ new :: lb)
  | (root', Some c) => root' = root /\
      (c = root /\ ~ (start new <= end_ new /\ inside new root) \/
       overlap c new /\ start new <= end_ new /\ inside new root /\
       exists la lb, child root = la ++ c :: lb /\ Forall (fun x => end_ x < start new) la)
  end.
Proof.
  intros Hw. unfold __request_resource, inside.
  destruct (Z.ltb_spec (end_ new) (start new)); [split; [done|left; split; [done|lia]]|].
  destruct (Z.ltb_spec (start new) (start root)); [split; [done|left; split; [done|lia]]|].
  destruct (Z.ltb_spec (end_ root) (end_ new)); [split; [done|left; split; [done|lia]]|].
  apply wf_iff in Hw as (_ & _ & Ht & _ & _ & Hf).
  pose proof (request_among_spec new (start root) (end_ root) (child root) ltac:(lia) ltac:(lia) ltac:(lia) Hf Ht)
    as Hr.
  destruct (request_among new (child root)) as [l'|c].
  - destruct Hr as (la & lb & Hl & -> & Htl & Hno). split; [|by exists la, lb].
    split; [done|]. split; [done|]. exact Hno.
  - split; [done|]. right. destruct Hr as (Ho & Hl). by split_and!.
Qed.

(** ** Lists of children *)

(** Where the next child may start. *)
Fixpoint after (lo : Z) (l : list resource) : Z :=
  match l with [] => lo | c :: rest => after (end_ c + 1) rest end.

Lemma tiled_app lo hi la lb : tiled lo hi (la ++ lb) <-> tiled lo hi la /\ tiled (after lo la) hi lb.
Proof. revert lo. induction la as [|c la IH]; intros lo; simpl; [tauto|]. rewrite IH. tauto. Qed.

Lemma after_le lo x la : lo <= x -> Forall (fun c => end_ c < x) la -> after lo la <= x.
Proof.
  revert lo. induction la as [|c la IH]; intros lo Hlo Hla; simpl; [done|].
  apply Forall_cons_iff in Hla as [? ?]. apply IH; [lia|done].
Qed.

(** Exchanging a child for one with the same range. *)
Lemma tiled_exchange lo hi la c c' lb :
  start c' = start c -> end_ c' = end_ c -> tiled lo hi (la ++ c :: lb) -> tiled lo hi (la ++ c' :: lb).
Proof. rewrite !tiled_app. simpl. intros -> ->. done. Qed.

Lemma replace_child_spec parent la c c' lb :
  child parent = la ++ c :: lb -> NoDup (address <$> child parent) -> address c' = address c ->
  replace_child parent c' = set_child parent (la ++ c' :: lb).
Proof.
  intros Hl Hd Ha. unfold replace_child. f_equal. rewrite Hl in Hd |- *. rewrite fmap_app in Hd. rewrite fmap_app. simpl in Hd |- *.
  apply list.NoDup_app in Hd as (_ & Hla & Hd). apply list.NoDup_cons in Hd as [Hlb _].
  assert (Hid : forall l : list resource, address c ∉ (address <$> l) ->
    (fun x => if same x c' then c' else x) <$> l = l).
  { intros l Hn. induction l as [|x l IH]; [done|]. simpl in *. apply not_elem_of_cons in Hn as [Hx Hn].
    unfold same at 1. rewrite bool_decide_eq_false_2 by congruence. f_equal. by apply IH. }
  f_equal; [|f_equal].
  - apply Hid. intros Hin. apply (Hla _ Hin). constructor.
  - unfold same. by rewrite bool_decide_eq_true_2.
  - by apply Hid.
Qed.

Lemma split_at_spec la c lb :
  NoDup (address <$> (la ++ c :: lb)) -> split_at c (la ++ c :: lb) = (la, c :: lb).
Proof.
  induction la as [|x la IH]; simpl; intros Hd.
  - unfold same. by rewrite bool_decide_eq_true_2.
  - apply list.NoDup_cons in Hd as [Hx Hd]. unfold same at 1. rewrite bool_decide_eq_false_2; [by rewrite IH|].
    intros Heq. apply Hx. rewrite Heq, fmap_app. apply elem_of_app. right. constructor.
Qed.

(** The run of children that [new] covers. *)
Lemma take_covered_spec new lo hi next rest :
  overlap next new -> Forall wf (next :: rest) -> tiled lo hi (next :: rest) -> end_ new <= hi ->
  match take_covered new (next :: rest) with
  | inl (run, others) => next :: rest = run ++ others /\ run <> [] /\
      tiled (start new) (end_ new) run /\ tiled (end_ new + 1) hi others
  | inr c => c ∈ next :: rest /\ overlap c new /\ ~ inside c new /\ (c = next \/ start new < start c)
  end.
Proof.
  revert lo next. induction rest as [|sib rest IH]; intros lo next Ho Hf Ht Hhi.
  - simpl. destruct (Z.ltb_spec (start next) (start new)); simpl;
      [split; [constructor|]; unfold inside; split; [done|]; split; [lia|by left]|].
    destruct (Z.ltb_spec (end_ new) (end_ next));
      [split; [constructor|]; unfold inside; split; [done|]; split; [lia|by left]|].
    split; [done|]. split; [done|]. split; [|done]. simpl. lia.
  - change (take_covered new (next :: sib :: rest)) with
      (if (start next <? start new) || (end_ new <? end_ next) then inr next
       else if end_ new <? start sib then inl ([next], sib :: rest)
       else match take_covered new (sib :: rest) with
            | inl (run, others) => inl (next :: run, others)
            | inr c => inr c
            end).
    apply Forall_cons_iff in Hf as [Hw Hf]. destruct Ht as (Hn1 & Hn2 & Ht). apply wf_range in Hw as Hr.
    destruct (Z.ltb_spec (start next) (start new)); cbn [orb];
      [split; [constructor|]; unfold inside; split; [done|]; split; [lia|by left]|].
    destruct (Z.ltb_spec (end_ new) (end_ next));
      [split; [constructor|]; unfold inside; split; [done|]; split; [lia|by left]|].
    destruct (Z.ltb_spec (end_ new) (start sib)).
    + split; [done|]. split; [done|]. split; [simpl; lia|]. destruct Ht as (? & ? & ?). simpl.
      split; [lia|]. done.
    + apply Forall_cons_iff in Hf as Hws. destruct Hws as [Hws%wf_range _]. pose proof Ht as (Hs1 & Hs2 & _).
      assert (Hos : overlap sib new) by (unfold overlap in *; lia).
      specialize (IH (end_ next + 1) sib Hos Hf Ht Hhi).
      destruct (take_covered new (sib :: rest)) as [[run others]|c].
      * destruct IH as (Heq & Hne & Hrun & Hoth). cbv iota. split; [simpl; by rewrite <- Heq|]. split; [done|]. split; [|done].
        simpl. split; [lia|]. split; [lia|]. destruct run as [|x run]; [done|]. simpl in *.
        injection Heq as <- _. destruct Hrun as (? & ? & ?). split_and!; [lia|lia|done].
      * destruct IH as (Hc & Hoc & Hni & Hor). split; [by constructor|]. split; [done|]. split; [done|].
        right. destruct Hor as [->|?]; unfold overlap in *; lia.
Qed.

(** ** Inserting *)

Lemma child_nodes r c : c ∈ child r -> forall x, x ∈ nodes c -> x ∈ nodes r.
Proof.
  intros Hc x Hx. rewrite nodes_eq. apply elem_of_cons. right. rewrite list_elem_of_In, in_flat_map.
  exists c. split; by apply list_elem_of_In.
Qed.

Lemma child_addresses r c a : c ∈ child r -> a ∈ addresses c -> a ∈ addresses r.
Proof.
  intros Hc. unfold addresses. rewrite !list_elem_of_fmap. intros (x & -> & Hx). exists x.
  split; [done|]. by eapply child_nodes.
Qed.

Lemma own_address r : address r ∈ addresses r.
Proof. unfold addresses. rewrite nodes_eq. constructor. Qed.

Lemma child_address r c : c ∈ child r -> address c ∈ addresses r.
Proof. intros Hc. eapply child_addresses; [done|]. apply own_address. Qed.

Lemma fresh_children r a : a ∉ addresses r -> (a ∉ (address <$> child r)) /\ address r <> a.
Proof.
  intros Ha. split.
  - intros (c & -> & Hc)%list_elem_of_fmap. apply Ha. by apply child_address.
  - intros <-. apply Ha, own_address.
Qed.

Lemma height_child r c : c ∈ child r -> (height c < height r)%nat.
Proof.
  destruct r as [a s e f l]. cbn [child height]. induction l as [|x l IH]; [by intros ?%elem_of_nil|].
  intros [->|Hc]%elem_of_cons; cbn [foldr]; [lia|]. specialize (IH Hc). lia.
Qed.

(** A list of children with one more. *)
Lemma insert_child_wf r new la run others :
  wf r -> child r = la ++ run ++ others -> address new ∉ addresses r -> wf (set_child new run) ->
  tiled (start r) (end_ r) (la ++ set_child new run :: others) ->
  wf (set_child r (la ++ set_child new run :: others)) /\
  nodes (set_child r (la ++ set_child new run :: others)) ≡ₚ node new :: nodes r.
Proof.
  intros Hw Hl Ha Hn Ht. pose proof Hw as (_ & _ & _ & Hd & Hr & Hf)%wf_iff.
  apply fresh_children in Ha as [Ha Hra]. rewrite Hl in *. rewrite !fmap_app in *.
  assert (Hna : address (set_child new run) = address new) by apply set_child_eq.
  split.
  - apply wf_set_child; [done|done| | |].
    + rewrite fmap_app, fmap_cons, Hna. apply list.NoDup_app in Hd as (Hd1 & Hd2 & Hd3).
      apply list.NoDup_app in Hd3 as (_ & _ & Hd4). apply list.NoDup_app. split; [done|].
      rewrite list.NoDup_cons. split; [|split; [|done]].
      * intros x Hx [->|Hx']%elem_of_cons; [apply Ha; apply elem_of_app; by left|].
        apply (Hd2 _ Hx). apply elem_of_app. by right.
      * intros Hx. apply Ha. do 2 (apply elem_of_app; right). done.
    + rewrite fmap_app, fmap_cons, Hna. intros [Hx|[Hx|Hx]%elem_of_cons]%elem_of_app.
      * apply Hr, elem_of_app. by left.
      * done.
      * apply Hr. do 2 (apply elem_of_app; right). done.
    + apply Forall_app in Hf as [Hf1 Hf2]. apply Forall_app in Hf2 as [_ Hf3].
      apply Forall_app. split; [done|]. by constructor.
  - rewrite !nodes_eq, node_set_child, Hl.
    destruct (set_child_eq r (la ++ set_child new run :: others)) as (_ & _ & _ & _ & ->).
    rewrite !flat_map_app. cbn [flat_map]. rewrite (nodes_eq (set_child new run)), node_set_child.
    destruct (set_child_eq new run) as (_ & _ & _ & _ & ->). cbn [app]. solve_Permutation.
Qed.

(** A resource that is in no tree yet. *)
Definition fresh (new root : resource) : Prop :=
  0 <= start new <= end_ new /\ end_ new < 2 ^ 64 /\ child new = [] /\ address new ∉ addresses root.

Definition partial (c new : resource) : Prop := overlap c new /\ ~ inside c new /\ ~ inside new c.

Lemma fresh_run new root run :
  fresh new root -> tiled (start new) (end_ new) run -> NoDup (address <$> run) ->
  address new ∉ (address <$> run) -> Forall wf run -> wf (set_child new run).
Proof.
  intros (? & ? & Hc & _) Ht Hd Ha Hf. apply wf_set_child; [|done..]. apply wf_iff. rewrite Hc.
  split_and!; try done; try lia; simpl.
  - apply list.NoDup_nil. done.
  - apply not_elem_of_nil.
Qed.

(** A new child in a gap. *)
Lemma request_wf root new root' :
  wf root -> fresh new root -> __request_resource root new = (root', None) ->
  wf root' /\ node root' = node root /\ nodes root' ≡ₚ node new :: nodes root.
Proof.
  intros Hw Hn Hr. pose proof (request_spec root new Hw) as Hs. rewrite Hr in Hs.
  destruct Hs as (_ & la & lb & Hl & -> & Ht). pose proof Hn as (H1 & H2 & Hc & Ha).
  assert (Hid : set_child new [] = new) by (destruct new; simpl in *; by subst).
  assert (Hwn : wf (set_child new [])).
  { eapply fresh_run; [exact Hn|done|by apply list.NoDup_nil|apply not_elem_of_nil|apply List.Forall_nil]. }
  pose proof (insert_child_wf root new la [] lb Hw Hl Ha Hwn) as Hi. rewrite Hid in Hi.
  destruct (Hi Ht) as [? ?]. split; [done|]. split; [apply node_set_child|done].
Qed.

(** The position in which a resource with that run of children is put. *)
Lemma insert_here parent new la first lb run others :
  wf parent -> fresh new parent -> inside new parent ->
  child parent = la ++ first :: lb -> Forall (fun x => end_ x < start new) la ->
  first :: lb = run ++ others -> run <> [] ->
  tiled (start new) (end_ new) run -> tiled (end_ new + 1) (end_ parent) others ->
  let parent' := set_child parent (la ++ set_child new run :: others) in
  wf parent' /\ nodes parent' ≡ₚ node new :: nodes parent.
Proof.
  intros Hw Hn [Hi1 Hi2] Hl Hla Heq Hne Hrun Hoth parent'. rewrite Heq in Hl.
  pose proof Hw as (_ & _ & Ht & Hd & _ & Hf)%wf_iff. rewrite Hl in Ht, Hd, Hf.
  pose proof Hn as (_ & _ & _ & Ha). pose proof (fresh_children _ _ Ha) as [Hac _].
  rewrite Hl in Hac. rewrite !fmap_app in Hac, Hd.
  destruct (set_child_eq new run) as (Hs & He & _).
  apply insert_child_wf; [done|done|done| |].
  - eapply fresh_run; [done|done| | |].
    + apply list.NoDup_app in Hd as (_ & _ & Hd). by apply list.NoDup_app in Hd as (? & _).
    + intros Hx. apply Hac, elem_of_app. right. apply elem_of_app. by left.
    + apply Forall_app in Hf as [_ Hf]. by apply Forall_app in Hf as [? _].
  - apply tiled_app in Ht as [Ht _]. apply tiled_app. split; [done|]. simpl. rewrite Hs, He.
    split; [by apply after_le|]. by split.
Qed.

(** A child exchanged for one that holds one node more. *)
Lemma exchange_child_wf parent la c c' lb new :
  wf parent -> child parent = la ++ c :: lb -> node c' = node c -> wf c' -> nodes c' ≡ₚ new :: nodes c ->
  wf (set_child parent (la ++ c' :: lb)) /\ nodes (set_child parent (la ++ c' :: lb)) ≡ₚ new :: nodes parent.
Proof.
  intros Hw Hl Hnode Hc' Hp. unfold node in Hnode. injection Hnode as Ea Es Ee Ef.
  pose proof Hw as (_ & _ & Ht & Hd & Hpa & Hf)%wf_iff. rewrite Hl in Hd, Hf, Ht, Hpa.
  rewrite fmap_app, fmap_cons, <- Ea in Hd, Hpa. split.
  - apply wf_set_child; [done|by eapply tiled_exchange|by rewrite fmap_app|by rewrite fmap_app|].
    apply Forall_app in Hf as [Hf1 Hf2]. apply Forall_cons_iff in Hf2 as [_ Hf2].
    apply Forall_app. split; [done|]. by constructor.
  - rewrite !nodes_eq, node_set_child, Hl.
    destruct (set_child_eq parent (la ++ c' :: lb)) as (_ & _ & _ & _ & ->).
    rewrite !flat_map_app. cbn [flat_map]. rewrite Hp. solve_Permutation.
Qed.

Lemma insert_spec fuel parent new :
  wf parent -> fresh new parent -> (height parent <= fuel)%nat ->
  exists parent' r, __insert_resource fuel parent new = Some (parent', r) /\ node parent' = node parent /\
  match r with
  | None => wf parent' /\ inside new parent /\ nodes parent' ≡ₚ node new :: nodes parent
  | Some c => parent' = parent /\
      (c = parent /\ ~ inside new parent \/ partial c new /\ node c ∈ nodes parent /\ inside new parent)
  end.
Proof.
  revert parent. induction fuel as [|fuel IH]; intros parent Hw Hn Hh; [destruct parent; simpl in Hh; lia|].
  cbn [__insert_resource]. pose proof (request_spec parent new Hw) as Hs.
  destruct (__request_resource parent new) as [parent' [first|]] eqn:Hr.
  2: { destruct (request_wf _ _ _ Hw Hn Hr) as (? & ? & ?). exists parent', None. split; [done|].
       split; [done|]. split; [done|]. split; [by destruct Hs as [(_ & ? & _) _]|done]. }
  destruct Hs as [-> [[-> Hni]|(Ho & _ & Hi & la & lb & Hl & Hla)]].
  { unfold same. rewrite bool_decide_eq_true_2 by done. exists parent, (Some parent).
    split; [done|]. split; [done|]. split; [done|]. left. split; [done|].
    intros ?. apply Hni. split; [apply Hn|done]. }
  pose proof Hw as (_ & _ & Ht & Hd & Hpa & Hf)%wf_iff.
  assert (Hin : first ∈ child parent) by (rewrite Hl; apply elem_of_app; right; constructor).
  assert (Hsame : same first parent = false).
  { unfold same. apply bool_decide_eq_false_2. intros He. apply Hpa. rewrite <- He.
    apply list_elem_of_fmap. by exists first. }
  rewrite Hsame. destruct ((start new <? start first) || (end_ first <? end_ new) ||
    ((start first =? start new) && (end_ first =? end_ new))) eqn:Hbr.
  - rewrite Hl, split_at_spec by by rewrite <- Hl.
    rewrite Hl in Hf, Ht. apply Forall_app in Hf as [_ Hf]. apply tiled_app in Ht as [_ Ht].
    pose proof (take_covered_spec new _ _ first lb Ho Hf Ht (proj2 Hi)) as Htc.
    destruct (take_covered new (first :: lb)) as [[run others]|c].
    + destruct Htc as (Heq & Hne & Hrun & Hoth).
      destruct (insert_here parent new la first lb run others) as [? ?]; try done.
      eexists _, None. split; [done|]. split; [apply node_set_child|]. done.
    + destruct Htc as (Hc & Hoc & Hnin & Hor). exists parent, (Some c). split; [done|]. split; [done|].
      split; [done|]. right. split; [|split; [|done]].
      * split; [done|]. split; [done|]. unfold inside, overlap in *. destruct Hor as [->|?]; lia.
      * eapply (child_nodes parent c); [rewrite Hl; apply elem_of_app; by right|]. rewrite nodes_eq. constructor.
  - assert (Hwf : wf first) by (rewrite list.Forall_forall in Hf; by apply Hf).
    assert (Hnf : fresh new first).
    { destruct Hn as (? & ? & ? & Ha). split_and!; try done; try lia. intros Hx. apply Ha. by eapply child_addresses. }
    pose proof (height_child _ _ Hin).
    destruct (IH first Hwf Hnf ltac:(lia)) as (first' & r & -> & Hnode & Hres). simpl.
    rewrite (replace_child_spec parent la first first' lb) by (done || (unfold node in Hnode; by injection Hnode)).
    exists (set_child parent (la ++ first' :: lb)), r. split; [done|]. split; [apply node_set_child|].
    destruct r as [c|].
    + destruct Hres as [-> Hres]. rewrite <- Hl, set_child_id. split; [done|].
      destruct Hres as [[-> Hno]|(Hp & Hcn & _)].
      * exfalso. apply Hno. unfold inside. lia.
      * right. split; [done|]. split; [|done]. by eapply child_nodes.
    + destruct Hres as (Hwf' & _ & Hnodes).
      destruct (exchange_child_wf parent la first first' lb (node new)) as [? ?]; done.
Qed.

(** ** Releasing *)

Lemma tiled_delete lo hi la c lb : wf c -> tiled lo hi (la ++ c :: lb) -> tiled lo hi (la ++ lb).
Proof.
  rewrite !tiled_app. simpl. intros Hc%wf_range (? & ? & ? & ?). split; [done|].
  eapply tiled_weaken; [|done]. lia.
Qed.

Lemma delete_child_wf r la c lb :
  wf r -> child r = la ++ c :: lb -> wf (set_child r (la ++ lb)) /\
  nodes r ≡ₚ nodes c ++ nodes (set_child r (la ++ lb)).
Proof.
  intros Hw Hl. pose proof Hw as (_ & _ & Ht & Hd & Ha & Hf)%wf_iff. rewrite Hl in Ht, Hd, Ha, Hf.
  apply Forall_app in Hf as [Hf1 Hf2]. apply Forall_cons_iff in Hf2 as [Hc Hf2].
  assert (Hsub : (address <$> la ++ lb) `sublist_of` (address <$> la ++ c :: lb)).
  { rewrite !fmap_app. apply sublist_app; [done|]. simpl. by apply sublist_cons. }
  split.
  - apply wf_set_child; [done|by eapply tiled_delete| | |by apply Forall_app].
    + by eapply sublist_NoDup.
    + intros Hx. apply Ha. eapply elem_of_submseteq; [done|]. by apply sublist_submseteq.
  - rewrite !nodes_eq, node_set_child, Hl.
    destruct (set_child_eq r (la ++ lb)) as (_ & _ & _ & _ & ->).
    rewrite !flat_map_app. cbn [flat_map]. rewrite (nodes_eq c). solve_Permutation.
Qed.

Lemma release_among_spec a l :
  match release_among a l with
  | Some l' => exists la c lb, l = la ++ c :: lb /\ l' = la ++ lb /\ address c = a /\ a ∉ (address <$> la)
  | None => a ∉ (address <$> l)
  end.
Proof.
  induction l as [|x l IH]; simpl; [apply not_elem_of_nil|]. case_bool_decide as Hx.
  - exists [], x, l. split_and!; try done. apply not_elem_of_nil.
  - destruct (release_among a l) as [l'|]; simpl.
    + destruct IH as (la & c & lb & -> & -> & ? & ?). exists (x :: la), c, lb. split_and!; try done.
      rewrite fmap_cons. by apply not_elem_of_cons.
    + by apply not_elem_of_cons.
Qed.

Lemma release_among_mid a la c lb :
  address c = a -> a ∉ (address <$> la) -> release_among a (la ++ c :: lb) = Some (la ++ lb).
Proof.
  intros Hc. induction la as [|x la IH]; simpl; intros Hn; [by rewrite bool_decide_eq_true_2|].
  apply not_elem_of_cons in Hn as [? ?]. rewrite bool_decide_eq_false_2 by done. by rewrite IH.
Qed.

Lemma release_spec parent a :
  wf parent ->
  match __release_resource parent a with
  | (parent', r) =>
      (r = 0 /\ exists la c lb, child parent = la ++ c :: lb /\ address c = a /\
        parent' = set_child parent (la ++ lb) /\ wf parent' /\ nodes parent ≡ₚ nodes c ++ nodes parent') \/
      (r = - EINVAL /\ parent' = parent /\ a ∉ (address <$> child parent))
  end.
Proof.
  intros Hw. unfold __release_resource. pose proof (release_among_spec a (child parent)) as Hs.
  destruct (release_among a (child parent)) as [l|]; [left|by right].
  destruct Hs as (la & c & lb & Hl & -> & Hc & _). split; [done|]. exists la, c, lb. split_and!; try done.
  - by eapply delete_child_wf.
  - by eapply delete_child_wf.
Qed.

Lemma request_release root new root' :
  wf root -> fresh new root -> __request_resource root new = (root', None) ->
  __release_resource root' (address new) = (root, 0).
Proof.
  intros Hw Hn Hr. pose proof (request_spec root new Hw) as Hs. rewrite Hr in Hs.
  destruct Hs as (_ & la & lb & Hl & -> & _). destruct Hn as (_ & _ & _ & [Ha _]%fresh_children).
  unfold __release_resource. destruct (set_child_eq root (la ++ new :: lb)) as (_ & _ & _ & _ & ->).
  rewrite release_among_mid; [|done|].
  - destruct root; simpl in *. by subst.
  - rewrite Hl, fmap_app in Ha. intros Hx. apply Ha, elem_of_app. by left.
Qed.

(** ** Adjusting *)

Lemma neighbours_spec la c lb b :
  address c ∉ (address <$> la) ->
  neighbours (address c) b (la ++ c :: lb) =
    Some (match list.last la with Some x => Some x | None => b end, c, head lb).
Proof.
  revert b. induction la as [|x la IH]; intros b Hn; simpl; [by rewrite bool_decide_eq_true_2|].
  rewrite fmap_cons in Hn. apply not_elem_of_cons in Hn as [? ?].
  rewrite bool_decide_eq_false_2, IH, last_cons by done. by destruct (list.last la).
Qed.

Lemma after_last lo la : after lo la = match list.last la with Some x => end_ x + 1 | None => lo end.
Proof.
  revert lo. induction la as [|x la IH]; intros lo; [done|]. simpl after. rewrite IH, last_cons.
  by destruct (list.last la).
Qed.

Lemma before_after lo hi la s :
  Forall wf la -> tiled lo hi la -> lo <= s -> after lo la <= s <-> Forall (fun x => end_ x < s) la.
Proof.
  intros Hf Ht Hlo. split; [|by apply after_le]. revert lo Ht Hlo. induction la as [|x la IH]; intros lo Ht Hlo Ha;
    [constructor|]. apply Forall_cons_iff in Hf as [Hx Hf]. simpl in Ht, Ha. destruct Ht as (? & ? & Ht).
  assert (end_ x + 1 <= s).
  { clear IH Hlo. revert Ht Ha. generalize (end_ x + 1). induction la as [|y la IH]; intros m Ht Ha; [done|].
    apply Forall_cons_iff in Hf as [Hy%wf_range Hf]. simpl in Ht, Ha. destruct Ht as (? & ? & Ht).
    specialize (IH Hf _ Ht Ha). lia. }
  constructor; [lia|]. eapply IH; [done|done|lia|done].
Qed.

Lemma tiled_narrow lo hi s e l :
  Forall wf l -> tiled lo hi l -> Forall (fun c => s <= start c /\ end_ c <= e) l -> tiled s e l.
Proof.
  revert lo s. induction l as [|c l IH]; intros lo s Hf Ht Hi; [done|]. simpl in *.
  apply Forall_cons_iff in Hf as [Hc%wf_range Hf]. apply Forall_cons_iff in Hi as [[? ?] Hi].
  destruct Ht as (? & ? & Ht). split_and!; [done|done|]. eapply IH; [done|done|].
  apply list.Forall_forall. intros x Hx. destruct (tiled_range _ _ _ _ Hf Ht Hx).
  rewrite list.Forall_forall in Hi. specialize (Hi x Hx). lia.
Qed.

Lemma tiled_head lo hi l m :
  tiled lo hi l -> match head l with Some c => m <= start c | None => True end <-> tiled m hi l.
Proof. destruct l as [|c l]; simpl; [done|]. intros (? & ? & ?). tauto. Qed.

Lemma tiled_above lo hi l m :
  Forall wf l -> tiled lo hi l -> tiled m hi l <-> Forall (fun c => m <= start c) l.
Proof.
  intros Hf Ht. split.
  - intros Hm. apply list.Forall_forall. intros c Hc. by destruct (tiled_range _ _ _ _ Hf Hm Hc).
  - destruct l as [|c l]; [done|]. intros [? _]%Forall_cons_iff. destruct Ht as (? & ? & ?). by split.
Qed.

(** The new range keeps the children of the resource inside and the resource
    between its neighbours. *)
Definition adjustable (parent r : resource) (la lb : list resource) (s e : Z) : Prop :=
  start parent <= s /\ e <= end_ parent /\ Forall (fun c => s <= start c /\ end_ c <= e) (child r) /\
  Forall (fun c => end_ c < s) la /\ Forall (fun c => e < start c) lb.

Lemma set_range_eq r s e : start (set_range r s e) = s /\ end_ (set_range r s e) = e /\
  flags (set_range r s e) = flags r /\ address (set_range r s e) = address r /\ child (set_range r s e) = child r.
Proof. by destruct r. Qed.

Lemma adjust_wf parent r la lb s e :
  wf parent -> child parent = la ++ r :: lb -> s <= e -> adjustable parent r la lb s e ->
  wf (set_child parent (la ++ set_range r s e :: lb)).
Proof.
  intros Hw Hl Hse (H1 & H2 & H3 & H4 & H5). pose proof Hw as (Hr & Hr2 & Ht & Hd & Ha & Hf)%wf_iff.
  rewrite Hl in Ht, Hd, Ha, Hf. apply Forall_app in Hf as [Hf1 Hf2]. apply Forall_cons_iff in Hf2 as [Hc Hf2].
  apply tiled_app in Ht as [Ht1 Ht2]. destruct Ht2 as (Ht2 & Ht3 & Ht4).
  destruct (set_range_eq r s e) as (Es & Ee & _ & Ea & Ec). rewrite fmap_app, fmap_cons, <- Ea in Hd, Ha.
  apply wf_set_child; [done| |by rewrite fmap_app|by rewrite fmap_app|].
  - apply tiled_app. split; [done|]. simpl. rewrite Es, Ee. split; [|split; [done|]].
    + by apply after_le.
    + apply (tiled_above (end_ r + 1)); [done|done|]. eapply list.Forall_impl; [exact H5|]. simpl. lia.
  - apply Forall_app. split; [done|]. constructor; [|done]. apply wf_iff in Hc as (? & ? & Hct & Hcd & Hca & Hcf).
    apply wf_iff. rewrite Es, Ee, Ea, Ec. split_and!; try done; [lia|lia|by eapply tiled_narrow].
Qed.

Lemma children_within s e l :
  existsb (fun tmp => (start tmp <? s) || (e <? end_ tmp)) l = false <->
  Forall (fun c => s <= start c /\ end_ c <= e) l.
Proof.
  induction l as [|c l IH]; simpl; [done|]. rewrite orb_false_iff, IH, Forall_cons_iff.
  rewrite orb_false_iff, !Z.ltb_ge. tauto.
Qed.

Lemma adjust_spec parent r la lb s size :
  wf parent -> child parent = la ++ r :: lb -> 0 <= s -> 1 <= size -> s + size <= 2 ^ 64 ->
  exists parent' ret, adjust_resource parent (address r) s size = Some (parent', ret) /\
  (adjustable parent r la lb s (s + size - 1) /\ ret = 0 /\ wf parent' /\
     parent' = set_child parent (la ++ set_range r s (s + size - 1) :: lb) \/
   ~ adjustable parent r la lb s (s + size - 1) /\ ret = - EBUSY /\ parent' = parent).
Proof.
  intros Hw Hl Hs Hsz Hov. unfold adjust_resource.
  assert (He : u64 (u64 (s + size) - 1) = s + size - 1).
  { unfold wrap. rewrite Zminus_mod_idemp_l. apply Z.mod_small. lia. }
  rewrite He. set (e := s + size - 1). pose proof Hw as (_ & _ & Ht & Hd & _ & Hf)%wf_iff.
  rewrite Hl in Ht, Hd, Hf |- *. apply Forall_app in Hf as [Hf1 Hf2]. apply Forall_cons_iff in Hf2 as [Hc Hf2].
  apply tiled_app in Ht as [Ht1 Ht2]. destruct Ht2 as (Ht2 & Ht3 & Ht4).
  assert (Hnin : address r ∉ (address <$> la)).
  { rewrite fmap_app in Hd. apply list.NoDup_app in Hd as (_ & Hd & _). intros Hx. apply (Hd _ Hx). constructor. }
  rewrite neighbours_spec by done. simpl.
  pose proof (before_after _ _ la s Hf1 Ht1) as Hba. rewrite after_last in Hba.
  pose proof (tiled_head _ _ lb (e + 1) Ht4) as Hh. rewrite (tiled_above _ _ _ (e + 1) Hf2 Ht4) in Hh.
  assert (Hno : forall P : Prop, (adjustable parent r la lb s e -> P) -> ~ P ->
    exists parent' ret, Some (parent, - EBUSY) = Some (parent', ret) /\
    (adjustable parent r la lb s e /\ ret = 0 /\ wf parent' /\
       parent' = set_child parent (la ++ set_range r s e :: lb) \/
     ~ adjustable parent r la lb s e /\ ret = - EBUSY /\ parent' = parent)).
  { intros P HP HnP. eexists _, _. split; [done|]. right. tauto. }
  destruct (Z.ltb_spec s (start parent)); cbn [orb]; [apply (Hno _ (fun H => proj1 H)); lia|].
  destruct (Z.ltb_spec (end_ parent) e); [apply (Hno _ (fun H => proj1 (proj2 H))); lia|].
  pose proof (children_within s e (child r)) as Hch. destruct (existsb _ (child r)).
  { apply (Hno _ (fun H => proj1 (proj2 (proj2 H)))). by intros ?%Hch. }
  destruct (match head lb with Some x => start x <=? e | None => false end) eqn:Hhd.
  { apply (Hno _ (fun H => proj2 (proj2 (proj2 (proj2 H))))). destruct lb as [|x lb]; [done|]. simpl in Hhd.
    intros [? _]%Forall_cons_iff. lia. }
  assert (Hlb : Forall (fun c => e < start c) lb).
  { eapply list.Forall_impl; [apply Hh|simpl; intros; lia]. destruct (head lb); [lia|done]. }
  destruct (match match list.last la with Some x => Some x | None => None end with
            | Some b => s <=? end_ b | None => false end) eqn:Hla.
  { apply (Hno _ (fun H => proj1 (proj2 (proj2 (proj2 H))))). intros Hall. apply Hba in Hall; [|lia].
    destruct (list.last la); [lia|done]. }
  assert (Hadj : adjustable parent r la lb s e).
  { split_and!; try done; [by apply Hch|]. apply Hba; [lia|]. destruct (list.last la); lia. }
  eexists _, _. split; [done|]. left. split; [done|]. split; [done|].
  rewrite (replace_child_spec parent la r _ lb); [|done|by rewrite Hl|apply set_range_eq].
  split; [|done]. apply adjust_wf; try done. lia.
Qed.

(** ** Nesting *)

Section induction.
Context (P : resource -> Prop) (HP : forall r, Forall P (child r) -> P r).

Fixpoint resource_nested_ind (r : resource) : P r :=
  match r with
  | Resource a s e f l =>
      HP (Resource a s e f l)
        ((fix all (l : list resource) : Forall P l :=
            match l with
            | [] => List.Forall_nil P
            | c :: l => @List.Forall_cons _ P c l (resource_nested_ind c) (all l)
            end) l)
  end.
End induction.

(** Ranges of nodes: inside one another, and overlapping without nesting. *)
Definition covers (y x : positive * Z * Z * Z) : Prop := y.1.1.2 <= x.1.1.2 /\ x.1.2 <= y.1.2.
Definition apart (x y : positive * Z * Z * Z) : Prop := x.1.2 < y.1.1.2 \/ y.1.2 < x.1.1.2.
Definition crosses (x y : positive * Z * Z * Z) : Prop := ~ apart x y /\ ~ covers x y /\ ~ covers y x.

#[local] Instance covers_dec y x : Decision (covers y x).
Proof. unfold covers. apply _. Defined.

Lemma partial_crosses c new : partial c new <-> crosses (node c) (node new).
Proof. unfold partial, overlap, inside, crosses, apart, covers, node. simpl. lia. Qed.

Lemma nodes_child_inv r x : x ∈ nodes r -> x = node r \/ exists c, c ∈ child r /\ x ∈ nodes c.
Proof.
  rewrite nodes_eq. intros [->|Hx]%elem_of_cons; [by left|right].
  apply list_elem_of_In, in_flat_map in Hx as (c & Hc & Hx). exists c. split; by apply list_elem_of_In.
Qed.

Lemma nodes_covered r x : wf r -> x ∈ nodes r -> covers (node r) x /\ x.1.1.2 <= x.1.2.
Proof.
  revert x. induction r as [r IH] using resource_nested_ind. intros x Hw Hx.
  pose proof (wf_range _ Hw). pose proof Hw as (_ & _ & Ht & _ & _ & Hf)%wf_iff.
  apply nodes_child_inv in Hx as [->|(c & Hc & Hx)]; [unfold covers, node; simpl; lia|].
  pose proof (tiled_range _ _ _ _ Hf Ht Hc). rewrite list.Forall_forall in IH, Hf.
  destruct (IH c Hc x (Hf c Hc) Hx) as [Hcov ?]. unfold covers, node in *. simpl in *. lia.
Qed.

Lemma tiled_apart lo hi l c d :
  Forall wf l -> tiled lo hi l -> c ∈ l -> d ∈ l -> c = d \/ end_ c < start d \/ end_ d < start c.
Proof.
  revert lo. induction l as [|x l IH]; intros lo Hf Ht Hc Hd; [by apply elem_of_nil in Hc|].
  apply Forall_cons_iff in Hf as [Hx Hf]. destruct Ht as (_ & _ & Ht).
  apply elem_of_cons in Hc as [->|Hc], Hd as [->|Hd].
  - by left.
  - destruct (tiled_range _ _ _ _ Hf Ht Hd). lia.
  - destruct (tiled_range _ _ _ _ Hf Ht Hc). lia.
  - by eapply IH.
Qed.

(** Two nodes of a tree are nested or disjoint. *)
Lemma nodes_laminar r x y : wf r -> x ∈ nodes r -> y ∈ nodes r -> ~ crosses x y.
Proof.
  revert x y. induction r as [r IH] using resource_nested_ind. intros x y Hw Hx Hy (Hap & H1 & H2).
  pose proof (nodes_covered _ _ Hw Hx) as [Hcx _]. pose proof (nodes_covered _ _ Hw Hy) as [Hcy _].
  apply nodes_child_inv in Hx as [->|(c & Hc & Hx)]; [done|].
  apply nodes_child_inv in Hy as [->|(d & Hd & Hy)]; [done|].
  pose proof Hw as (_ & _ & Ht & _ & _ & Hf)%wf_iff.
  pose proof (tiled_apart _ _ _ _ _ Hf Ht Hc Hd) as Hcd. rewrite list.Forall_forall in IH, Hf.
  destruct Hcd as [->|Hcd]; [by apply (IH d Hd x y (Hf d Hd) Hx Hy)|].
  pose proof (nodes_covered _ _ (Hf c Hc) Hx) as [Hx1 ?]. pose proof (nodes_covered _ _ (Hf d Hd) Hy) as [Hy1 ?].
  apply Hap. unfold apart, covers, node in *. simpl in *. lia.
Qed.

(** An insertion is refused exactly when the range crosses a node of the tree. *)
Lemma insert_iff fuel parent new :
  wf parent -> fresh new parent -> (height parent <= fuel)%nat ->
  exists parent' r, __insert_resource fuel parent new = Some (parent', r) /\
  match r with
  | None => wf parent' /\ nodes parent' ≡ₚ node new :: nodes parent /\ inside new parent /\
      Forall (fun x => ~ crosses x (node new)) (nodes parent)
  | Some c => parent' = parent /\
      (c = parent /\ ~ inside new parent \/
       inside new parent /\ node c ∈ nodes parent /\ crosses (node c) (node new))
  end.
Proof.
  intros Hw Hn Hh. destruct (insert_spec fuel parent new Hw Hn Hh) as (parent' & r & -> & _ & Hr).
  exists parent', r. split; [done|]. destruct r as [c|].
  - destruct Hr as [-> [?|(Hp & ? & ?)]]; (split; [done|]); [by left|right]. by rewrite <- partial_crosses.
  - destruct Hr as (Hw' & Hi & Hperm). split_and!; try done. apply list.Forall_forall. intros x Hx.
    apply (nodes_laminar parent'); [done| |]; rewrite Hperm; [by right|by left].
Qed.

(** ** Expanding *)

(** The smallest range around [new] that crosses no node. *)
Definition smallest_around (root new new' : resource) : Prop :=
  new' = set_range new (start new') (end_ new') /\ inside new new' /\
  forall s e, s <= start new -> end_ new <= e ->
    Forall (fun x => ~ crosses x (address new, s, e, flags new)) (nodes root) ->
    s <= start new' /\ end_ new' <= e.

Definition enclose (c new : resource) : resource :=
  set_range new (if start c <? start new then start c else start new)
    (if end_ new <? end_ c then end_ c else end_ new).

Lemma enclose_spec c new :
  let r := enclose c new in
  start r = Z.min (start c) (start new) /\ end_ r = Z.max (end_ c) (end_ new) /\
  address r = address new /\ child r = child new.
Proof.
  unfold enclose. destruct new as [a s e f l]. cbn [set_range start end_ address child].
  split_and!; try done; [destruct (Z.ltb_spec (start c) s)|destruct (Z.ltb_spec e (end_ c))]; lia.
Qed.

Lemma node_in_range r c : wf r -> node c ∈ nodes r -> start r <= start c /\ start c <= end_ c /\ end_ c <= end_ r.
Proof. intros Hw Hc. destruct (nodes_covered _ _ Hw Hc) as [[? ?] ?]. simpl in *. lia. Qed.

Lemma enclose_step root new0 new c :
  wf root -> fresh new root -> smallest_around root new0 new -> inside new root ->
  node c ∈ nodes root -> crosses (node c) (node new) ->
  fresh (enclose c new) root /\ smallest_around root new0 (enclose c new) /\ inside (enclose c new) root /\
  (length (filter (fun x => ~ covers (node (enclose c new)) x) (nodes root)) <
   length (filter (fun x => ~ covers (node new) x) (nodes root)))%nat.
Proof.
  intros Hw (Hr & Hr2 & Hch & Ha) (Hset & Hi0 & Hmin) Hi Hc Hx. pose proof (node_in_range _ _ Hw Hc).
  pose proof (wf_range _ Hw). destruct (enclose_spec c new) as (Hs & He & Had & Hchi).
  unfold inside in *. split; [|split; [|split; [lia|]]].
  - unfold fresh. rewrite Hs, He, Had, Hchi. split_and!; (done || lia).
  - unfold smallest_around, inside. rewrite Hs, He. split; [|split; [lia|]].
    + rewrite Hset. unfold enclose. rewrite <- Hset. destruct new0. simpl in *. rewrite Hset. simpl.
      f_equal; repeat case_match; lia.
    + intros s e H1 H2 Hall. destruct (Hmin s e H1 H2 Hall). rewrite list.Forall_forall in Hall.
      specialize (Hall _ Hc). unfold crosses, apart, covers, node in *. simpl in *. lia.
  - apply filter_shrink with (p := node c); [|done| |].
    + intros q. unfold covers, node. cbn [fst snd]. rewrite Hs, He. lia.
    + by destruct Hx as (_ & _ & ?).
    + unfold covers, node. cbn [fst snd]. rewrite Hs, He. lia.
Qed.

(** A well-formed tree whose nodes have distinct addresses. *)
Definition tree (r : resource) : Prop := wf r /\ NoDup (addresses r).

Lemma tree_add r r' new : tree r -> fresh new r -> wf r' -> nodes r' ≡ₚ node new :: nodes r -> tree r'.
Proof.
  intros [Hw Hd] (_ & _ & _ & Ha) Hw' Hp. split; [done|]. unfold addresses in *. rewrite Hp. simpl.
  by apply list.NoDup_cons.
Qed.

Lemma tree_sub r r' l : tree r -> wf r' -> nodes r ≡ₚ l ++ nodes r' -> tree r'.
Proof.
  intros [Hw Hd] Hw' Hp. split; [done|]. unfold addresses in *. rewrite Hp, fmap_app in Hd.
  by apply list.NoDup_app in Hd as (_ & _ & ?).
Qed.

Lemma expand_spec root new :
  tree root -> fresh new root -> inside new root ->
  exists root' new', insert_resource_expand_to_fit (S (length (nodes root))) (height root) root new false =
    Some (root', new') /\
  wf root' /\ nodes root' ≡ₚ node new' :: nodes root /\ inside new' root /\ smallest_around root new new'.
Proof.
  intros [Hw Hd] Hn Hi. unfold insert_resource_expand_to_fit.
  set (h := height root). destruct (loop_total (fun '(root, new) =>
    '(root, conflict) ← __insert_resource h root new;
    match conflict with
    | None => Some (Done (root, new))
    | Some c => if same c root then Some (Done (root, new)) else Some (Next (root, enclose c new))
    end)
    (fun '(t, n) => t = root /\ fresh n root /\ inside n root /\ smallest_around root new n)
    (fun '(t, n) => wf t /\ nodes t ≡ₚ node n :: nodes root /\ inside n root /\ smallest_around root new n)
    (fun '(_, n) => length (filter (fun x => ~ covers (node n) x) (nodes root))) )
    with (fuel := S (length (nodes root))) (s := (root, new)) as ([root' new'] & Hl & Hres).
  - intros [t n] (-> & Hf & Hin & Hs). destruct (insert_iff h root n Hw Hf) as (t' & r & -> & Hr); [done|].
    simpl. destruct r as [c|].
    + destruct Hr as (-> & [[_ ?]|(_ & Hc & Hx)]); [done|].
      assert (Hne : same c root = false).
      { unfold same. apply bool_decide_eq_false_2. intros Heq.
        assert (node c = node root) as Hcr.
        { eapply (NoDup_key (fun x => x.1.1.1)); [exact Hd|done|rewrite nodes_eq; by left|done]. }
        rewrite Hcr in Hx. destruct Hx as (_ & Hx & _). by apply Hx. }
      rewrite Hne. eexists. split; [done|]. cbv beta iota.
      destruct (enclose_step root new n c) as (? & ? & ? & ?); done.
    + destruct Hr as (? & ? & ? & ?). eexists. split; [done|]. done.
  - split_and!; try done. split; [by destruct new|]. split; [by split|]. intros. lia.
  - pose proof (length_filter (fun x => ~ covers (node new) x) (nodes root)). lia.
  - exists root', new'. by split.
Qed.

(** ** Allocation *)

Section first_fit.
Context (k size min max : Z) (Hk : 0 <= k < 64) (Hsize : 1 <= size < 2 ^ 64).
Context (Hmin : 0 <= min /\ min + 2 ^ k <= 2 ^ 64) (Hmax : 0 <= max < 2 ^ 64).

(** The code never takes a gap of a single byte. *)
Let m := Z.max size 2.

(** [n] bytes at [s] are between [lo] and [hi] and among the children [l] free. *)
Definition fits (lo hi : Z) (l : list resource) (n s : Z) : Prop :=
  s mod 2 ^ k = 0 /\ lo <= s /\ s + n - 1 <= hi /\ min <= s /\ s + n - 1 <= max /\
  Forall (fun c => s + n - 1 < start c \/ end_ c < s) l.

(** The first fit of [find_resource], as the specification has it. *)
Definition first_fit (lo hi : Z) (l : list resource) (r : option (Z * Z)) : Prop :=
  match r with
  | Some (s, e) => e = s + size - 1 /\ fits lo hi l m s /\ forall s', fits lo hi l m s' -> s <= s'
  | None => forall s', ~ fits lo hi l m s'
  end.

Lemma fits_cons lo hi t l s :
  0 <= start t <= end_ t -> lo <= start t -> tiled (end_ t + 1) hi l -> Forall wf l ->
  ~ (fits lo (Z.min (start t - 1) hi) [] m s) -> fits lo hi (t :: l) m s <-> fits (end_ t + 1) hi l m s.
Proof using Hk Hsize Hmin Hmax.
  intros Ht Hlo Htl Hf Hn. unfold fits in *. rewrite Forall_cons_iff. split.
  - intros (? & ? & ? & ? & ? & [?|?] & ?); [exfalso; apply Hn; split_and!; (done || lia)|split_and!; (done || lia)].
  - intros (? & ? & ? & ? & ? & ?). split_and!; (done || lia).
Qed.

Lemma first_fit_iff lo hi l lo' hi' l' r :
  (forall s, fits lo hi l m s <-> fits lo' hi' l' m s) -> first_fit lo' hi' l' r -> first_fit lo hi l r.
Proof using Hk Hsize Hmin Hmax.
  intros Hiff. destruct r as [[s e]|]; cbn [first_fit].
  - intros (-> & ? & Hl). split; [done|]. split; [by apply Hiff|]. intros s' ?%Hiff. by apply Hl.
  - intros Hno s' ?%Hiff. by apply (Hno s').
Qed.

(** One gap. *)
Lemma gap_spec lo hi :
  0 <= lo -> lo + 2 ^ k <= 2 ^ 64 -> 0 <= hi < 2 ^ 64 ->
  let s := ALIGN (if lo <? min then min else lo) (2 ^ k) in
  let e := if max <? hi then max else hi in
  0 <= s < 2 ^ 64 /\
  ((s <? e) && (u64 (size - 1) <=? u64 (e - s)) = true /\ fits lo hi [] m s /\ (forall s', fits lo hi [] m s' -> s <= s') \/
   (s <? e) && (u64 (size - 1) <=? u64 (e - s)) = false /\ forall s', ~ fits lo hi [] m s').
Proof using Hk Hsize Hmin Hmax.
  intros Hlo Hlo2 Hhi s e.
  assert (Ha : exists a, (if lo <? min then min else lo) = a /\ a = Z.max lo min) by (eexists; split; [done|]; destruct (Z.ltb_spec lo min); lia).
  destruct Ha as (a & Ha & Ham). subst s. rewrite Ha.
  pose proof (mask_up k Hk a ltac:(lia) ltac:(lia)) as [Hu Hu0]. fold (ALIGN a (2 ^ k)) in Hu, Hu0.
  set (s := ALIGN a (2 ^ k)) in *. pose proof (Z.pow_pos_nonneg 2 k).
  assert (He : e = Z.min hi max) by (subst e; destruct (Z.ltb_spec max hi); lia).
  split; [lia|]. rewrite (wrap_small 64 (size - 1)) by word_lia. unfold fits.
  destruct (Z.ltb_spec s e); cbn [andb].
  2: { right. split; [done|]. intros s' (Hm & ? & ? & ? & ? & _).
       pose proof (mask_up_least k Hk a s s' Hu Hu0 ltac:(lia) Hm). lia. }
  rewrite (wrap_small 64 (e - s)) by word_lia.
  destruct (Z.leb_spec (size - 1) (e - s)); [left|right]; (split; [done|]).
  - split; [split_and!; (done || lia)|]. intros s' (Hm & ? & ? & ? & ? & _).
    apply (mask_up_least k Hk a s s'); (done || lia).
  - intros s' (Hm & ? & ? & ? & ? & _). pose proof (mask_up_least k Hk a s s' Hu Hu0 ltac:(lia) Hm). lia.
Qed.

Lemma find_among_spec root lo l :
  0 <= lo -> lo + 2 ^ k <= 2 ^ 64 -> 0 <= end_ root < 2 ^ 64 -> Forall wf l -> tiled lo (end_ root) l ->
  Forall (fun c => end_ c + 2 ^ k < 2 ^ 64) l -> match l with t :: _ => 0 < start t | [] => True end ->
  first_fit lo (end_ root) l (find_among root size min max (2 ^ k) None lo l).
Proof using Hk Hsize Hmin Hmax.
  intros Hlo Hlo2 Hr. revert lo Hlo Hlo2. induction l as [|t l IH]; intros lo Hlo Hlo2 Hf Ht Hend Hst;
    cbn [find_among].
  - pose proof (gap_spec lo (end_ root) Hlo Hlo2 Hr) as [Hs [(-> & Hfit & Hleast)|(-> & Hno)]]; [|done].
    cbn [first_fit]. split; [|done]. destruct Hfit as (_ & ? & ? & _). unfold m in *. unfold wrap.
    rewrite Zminus_mod_idemp_l. apply Z.mod_small. lia.
  - apply Forall_cons_iff in Hf as [Hw Hf]. apply Forall_cons_iff in Hend as [Hte Hend]. apply wf_range in Hw.
    destruct Ht as (Ht1 & Ht2 & Ht3). rewrite (wrap_small 64 (start t - 1)) by word_lia.
    pose proof (fits_cons lo (end_ root) t l) as Hcons.
    rewrite Z.min_l in Hcons by lia.
    pose proof (gap_spec lo (start t - 1) Hlo Hlo2 ltac:(lia)) as [Hs [(-> & Hfit & Hleast)|(-> & Hno)]].
    + cbn [first_fit]. set (s := ALIGN _ _) in *. split; [|split].
      * destruct Hfit as (_ & ? & ? & _). unfold m in *. unfold wrap. rewrite Zminus_mod_idemp_l. apply Z.mod_small. lia.
      * destruct Hfit as (? & ? & ? & ? & ? & _). split_and!; try (done || lia). constructor; [lia|].
        apply list.Forall_forall. intros c Hc. destruct (tiled_range _ _ _ _ Hf Ht3 Hc). lia.
      * intros s' (? & ? & ? & ? & ? & [[?|?] _]%Forall_cons_iff).
        -- apply Hleast. split_and!; (done || lia).
        -- destruct Hfit as (_ & _ & ? & _). unfold m in *. lia.
    + rewrite (wrap_small 64 (end_ t + 1)) by word_lia.
      eapply first_fit_iff; [|apply IH; (done || lia || idtac)].
      * intros s. apply Hcons; (done || lia || apply Hno).
      * destruct l as [|t' l]; [done|]. destruct Ht3. lia.
Qed.

Lemma find_resource_spec root :
  wf root -> start root + 2 ^ k <= 2 ^ 64 -> Forall (fun c => end_ c + 2 ^ k < 2 ^ 64) (child root) ->
  first_fit (start root) (end_ root) (child root) (find_resource root size min max (2 ^ k) None).
Proof using Hk Hsize Hmin Hmax.
  intros Hw Hst Hend. pose proof (wf_range _ Hw) as [Hr Hr2]. pose proof Hw as (_ & _ & Ht & _ & _ & Hf)%wf_iff.
  unfold find_resource. destruct (child root) as [|t l] eqn:Hl; [by apply find_among_spec; (done || lia)|].
  pose proof Ht as (Ht1 & Ht2 & Ht3). destruct (Z.eqb_spec (start t) 0) as [H0|H0].
  - apply Forall_cons_iff in Hf as [Hw' Hf]. apply Forall_cons_iff in Hend as [Hte Hend]. apply wf_range in Hw'.
    pose proof (Z.pow_pos_nonneg 2 k). rewrite (wrap_small 64 (end_ t + 1)) by word_lia.
    eapply first_fit_iff; [intros s; apply fits_cons|apply find_among_spec]; try (done || lia).
    + intros (_ & ? & ? & _). unfold m in *. lia.
    + destruct l as [|t' l]; [done|]. destruct Ht3. lia.
  - apply find_among_spec; (done || lia).
Qed.

Lemma allocate_spec root new :
  wf root -> start root + 2 ^ k <= 2 ^ 64 -> Forall (fun c => end_ c + 2 ^ k < 2 ^ 64) (child root) ->
  child new = [] -> address new ∉ addresses root ->
  let '(root', r) := allocate_resource root new size min max (2 ^ k) None in
  (exists s, r = 0 /\ fits (start root) (end_ root) (child root) m s /\
     (forall s', fits (start root) (end_ root) (child root) m s' -> s <= s') /\
     fresh (set_range new s (s + size - 1)) root /\ wf root' /\
     nodes root' ≡ₚ node (set_range new s (s + size - 1)) :: nodes root) \/
  (r = - EBUSY /\ root' = root /\ forall s', ~ fits (start root) (end_ root) (child root) m s').
Proof using Hk Hsize Hmin Hmax.
  intros Hw Hst Hend Hc Ha. pose proof (find_resource_spec root Hw Hst Hend) as Hfit.
  unfold allocate_resource. destruct (find_resource _ _ _ _ _ _) as [[s e]|]; [|right; done].
  destruct Hfit as (-> & Hfit & Hleast). pose proof (wf_range _ Hw). pose proof Hfit as (_ & ? & ? & _ & _ & Hfree).
  destruct (set_range_eq new s (s + size - 1)) as (Es & Ee & _ & Ea & Ec).
  assert (Hn : fresh (set_range new s (s + size - 1)) root).
  { unfold fresh. rewrite Es, Ee, Ea, Ec. unfold m in *. split_and!; (done || lia). }
  pose proof (request_spec root (set_range new s (s + size - 1)) Hw) as Hs.
  destruct (__request_resource _ _) as [root' [c|]] eqn:Hr.
  - exfalso. unfold inside in Hs. rewrite Es, Ee in Hs. unfold m in *.
    destruct Hs as (_ & [[_ Hs]|(Ho & _ & _ & la & lb & Hl & _)]); [lia|].
    rewrite Hl in Hfree. apply Forall_app in Hfree as [_ Hfree]. apply Forall_cons_iff in Hfree as [Hcs _].
    unfold overlap in Ho. rewrite Es, Ee in Ho. lia.
  - left. exists s. destruct (request_wf _ _ _ Hw Hn Hr) as (? & ? & ?). done.
Qed.
End first_fit.

(** ** Regions *)

(** The region is inside [parent], and every node below that it meets surrounds it
    and is not busy. *)
Definition passable (x y : positive * Z * Z * Z) : Prop :=
  apart x y \/ Z.land x.2 IORESOURCE_BUSY = 0 /\ covers x y.
Definition clear (res parent : resource) : Prop :=
  inside res parent /\ Forall (fun x => passable x (node res)) (flat_map nodes (child parent)).

Lemma below_forall (P : positive * Z * Z * Z -> Prop) (l : list resource) :
  Forall P (flat_map nodes l) <-> Forall (fun c => Forall P (nodes c)) l.
Proof. induction l as [|c l IH]; simpl; [done|]. by rewrite Forall_app, Forall_cons_iff, IH. Qed.

Lemma subtree_apart c res :
  wf c -> ~ overlap c res -> Forall (fun x => passable x (node res)) (nodes c).
Proof.
  intros Hw Ho. apply list.Forall_forall. intros x Hx. left.
  pose proof (nodes_covered _ _ Hw Hx) as [Hc ?]. unfold overlap, apart, covers, node in *. simpl in *. lia.
Qed.

(** Siblings of a child that surrounds the region. *)
Lemma clear_child parent la c lb res :
  wf parent -> child parent = la ++ c :: lb -> inside res parent -> overlap c res ->
  Z.land (flags c) IORESOURCE_BUSY = 0 -> clear res parent <-> clear res c.
Proof.
  intros Hw Hl Hi Ho Hb. unfold clear. rewrite Hl, below_forall, Forall_app, Forall_cons_iff.
  rewrite (nodes_eq c), Forall_cons_iff. pose proof Hw as (_ & _ & Ht & Hd & _ & Hf)%wf_iff. rewrite Hl in Ht, Hd, Hf.
  assert (Hsib : forall d, d ∈ la ++ lb -> end_ c < start d \/ end_ d < start c).
  { intros d Hdin. destruct (tiled_apart _ _ _ c d Hf Ht) as [<-|?]; [set_solver|set_solver| |done].
    exfalso. rewrite fmap_app, fmap_cons in Hd. apply list.NoDup_app in Hd as (_ & Hd1 & Hd2).
    apply list.NoDup_cons in Hd2 as [Hd2 _]. apply elem_of_app in Hdin as [Hdin|Hdin].
    - eapply Hd1; [by apply list_elem_of_fmap_2|by left].
    - by apply Hd2, list_elem_of_fmap_2. }
  assert (Hall : inside res c -> forall d, d ∈ la ++ lb -> Forall (fun x => passable x (node res)) (nodes d)).
  { intros Hin d Hdin. apply subtree_apart.
    - rewrite list.Forall_forall in Hf. apply Hf. set_solver.
    - specialize (Hsib d Hdin). unfold inside, overlap in *. lia. }
  split.
  - intros (_ & _ & [Hc Hbel] & _). split; [|done]. destruct Hc as [Hc|[_ Hc]]; [|done].
    unfold apart, overlap, node in *. simpl in *. lia.
  - intros [Hin Hbel]. specialize (Hall Hin). split; [done|]. split; [|split; [split; [by right|done]|]];
      apply list.Forall_forall; intros d Hdin; apply Hall; set_solver.
Qed.

Lemma clear_free parent res : wf parent -> free_in res parent -> clear res parent.
Proof.
  intros Hw (_ & Hi & Hfree). split; [done|]. apply below_forall, list.Forall_forall. intros c Hc.
  apply wf_iff in Hw as (_ & _ & _ & _ & _ & Hf). rewrite list.Forall_forall in Hf, Hfree.
  apply subtree_apart; [by apply Hf|by apply Hfree].
Qed.

(** The address occurs once, so that releasing finds it. *)
Lemma release_below_fresh a r : a ∉ addresses r -> release_below a r = r.
Proof.
  induction r as [r IH] using resource_nested_ind. intros Ha.
  assert (Hl : flat_map (fun c => if bool_decide (address c = a) then [] else [release_below a c]) (child r) = child r).
  { pose proof (fun c Hc => child_addresses r c a Hc) as Hin. revert IH Hin. generalize (child r).
    intros l IH Hin. induction l as [|c l IHl]; [done|]. apply Forall_cons_iff in IH as [Hc IH]. simpl.
    rewrite bool_decide_eq_false_2.
    - simpl. f_equal; [apply Hc; intros ?; apply Ha; eapply (Hin c); [by left|done]|].
      apply IHl; [done|]. intros d Hd. apply Hin. by right.
    - intros <-. apply Ha. eapply (Hin c); [by left|]. apply own_address. }
  destruct r. simpl in *. by rewrite Hl.
Qed.

Lemma release_below_mid a r la c lb :
  child r = la ++ c :: lb -> a ∉ (address <$> la) -> a ∉ (address <$> lb) ->
  (forall d, d ∈ la ++ lb -> release_below a d = d) ->
  release_below a r = set_child r (la ++ (if bool_decide (address c = a) then [] else [release_below a c]) ++ lb).
Proof.
  destruct r as [b s e f l]. cbn [child release_below set_child]. intros -> Hla Hlb Hd. f_equal.
  assert (Hid : forall l : list resource, a ∉ (address <$> l) -> (forall d, d ∈ l -> release_below a d = d) ->
    flat_map (fun c => if bool_decide (address c = a) then [] else [release_below a c]) l = l).
  { intros l' Hn Hl'. induction l' as [|x l' IH]; [done|]. rewrite fmap_cons in Hn. apply not_elem_of_cons in Hn as [? ?].
    simpl. rewrite bool_decide_eq_false_2 by done. simpl. rewrite Hl' by by left. f_equal. apply IH; [done|].
    intros. apply Hl'. by right. }
  rewrite flat_map_app. cbn [flat_map]. rewrite (Hid la), (Hid lb); try done; intros; apply Hd; set_solver.
Qed.

(** *** Releasing a region *)

Lemma release_walk s e n (la l : list resource) :
  Forall (fun c => ~ (start c <= s /\ e <= end_ c)) la ->
  release_region_in (length la + n) s e (la ++ l) =
    '(l', ok) ← release_region_in n s e l; Some (la ++ l', ok).
Proof.
  induction la as [|c la IH]; intros Hla.
  - simpl. by destruct (release_region_in n s e l) as [[? ?]|].
  - apply Forall_cons_iff in Hla as [Hc Hla]. cbn [length Nat.add app release_region_in].
    destruct (Z.leb_spec (start c) s), (Z.leb_spec e (end_ c)); cbn [andb]; try (exfalso; lia);
      rewrite IH by done; by destruct (release_region_in n s e l) as [[? ?]|].
Qed.

Lemma release_mono s e n n' l r :
  release_region_in n s e l = Some r -> (n <= n')%nat -> release_region_in n' s e l = Some r.
Proof.
  revert n' l r. induction n as [|n IH]; intros n' l r Hr Hn; [done|]. destruct n' as [|n']; [lia|].
  destruct l as [|c l]; [done|]. cbn [release_region_in] in *. destruct ((start c <=? s) && (e <=? end_ c)).
  - destruct (Z.land (flags c) IORESOURCE_BUSY =? 0); [|done].
    destruct (release_region_in n s e (child c)) eqn:Hc; [|done]. by rewrite (IH n' _ _ Hc) by lia.
  - destruct (release_region_in n s e l) eqn:Hc; [|done]. by rewrite (IH n' _ _ Hc) by lia.
Qed.

(** One unit of fuel per node is enough. *)
Lemma release_total s e n l :
  (length (flat_map nodes l) < n)%nat -> is_Some (release_region_in n s e l).
Proof.
  revert l. induction n as [|n IH]; intros l Hn; [lia|]. destruct l as [|c l]; [done|].
  cbn [flat_map] in Hn. rewrite length_app, nodes_eq in Hn. cbn [length] in Hn.
  cbn [release_region_in]. destruct ((start c <=? s) && (e <=? end_ c)).
  - destruct (Z.land (flags c) IORESOURCE_BUSY =? 0); [|by destruct (_ || _)].
    destruct (IH (child c)) as [[? ?] ->]; [lia|done].
  - destruct (IH l) as [[? ?] ->]; [lia|done].
Qed.

(** The region taken out: a busy node with exactly that range. *)
Definition region_of (s e : Z) (r : resource) : Prop :=
  start r = s /\ end_ r = e /\ Z.land (flags r) IORESOURCE_BUSY <> 0.

(** What releasing does to a list of children: the list unchanged, or one subtree
    gone from it. *)
Definition released (s e lo hi : Z) (l l' : list resource) (ok : bool) : Prop :=
  if ok then
    tiled lo hi l' /\ Forall wf l' /\ (address <$> l') `sublist_of` (address <$> l) /\
    exists r, region_of s e r /\ flat_map nodes l ≡ₚ nodes r ++ flat_map nodes l'
  else l' = l.

Lemma release_region_spec s e n lo hi l l' ok :
  Forall wf l -> tiled lo hi l -> release_region_in n s e l = Some (l', ok) -> released s e lo hi l l' ok.
Proof.
  revert lo hi l l' ok. induction n as [|n IH]; intros lo hi l l' ok Hf Ht Hr; [done|].
  destruct l as [|c l]; [by injection Hr as <- <-|]. cbn [release_region_in] in Hr.
  apply Forall_cons_iff in Hf as [Hc Hf]. destruct Ht as (Ht1 & Ht2 & Ht3).
  destruct ((start c <=? s) && (e <=? end_ c)).
  - destruct (Z.eqb_spec (Z.land (flags c) IORESOURCE_BUSY) 0).
    + destruct (release_region_in n s e (child c)) as [[lc okc]|] eqn:Hrc; [|done]. injection Hr as <- <-.
      pose proof Hc as (_ & _ & Htc & Hdc & Hac & Hfc)%wf_iff. pose proof (IH _ _ _ _ _ Hfc Htc Hrc) as Hrel.
      destruct okc; [|simpl in *; by rewrite Hrel, set_child_id]. destruct Hrel as (H1 & H2 & H3 & r & H4 & H5).
      destruct (set_child_eq c lc) as (Es & Ee & _ & Ea & Ec).
      assert (Hwc : wf (set_child c lc)).
      { apply wf_set_child; try done; [by eapply sublist_NoDup|]. intros Hx. apply Hac.
        eapply elem_of_submseteq; [done|]. by apply sublist_submseteq. }
      unfold released. cbn [tiled]. rewrite Es, Ee, !fmap_cons, Ea. split_and!; try done; [by constructor|].
      exists r. split; [done|]. cbn [flat_map]. rewrite (nodes_eq c), (nodes_eq (set_child c lc)), node_set_child, Ec, H5.
      solve_Permutation.
    + destruct (Z.eqb_spec (start c) s), (Z.eqb_spec (end_ c) e); cbn [negb orb] in Hr; injection Hr as <- <-; try done.
      apply wf_range in Hc. unfold released. split_and!; [|done|by apply sublist_cons|by exists c].
      eapply tiled_weaken; [|done]. lia.
  - destruct (release_region_in n s e l) as [[lr okr]|] eqn:Hrr; [|done]. injection Hr as <- <-.
    pose proof (IH _ _ _ _ _ Hf Ht3 Hrr) as Hrel. destruct okr; [|simpl in *; by rewrite Hrel].
    destruct Hrel as (H1 & H2 & H3 & r & H4 & H5). unfold released. rewrite !fmap_cons.
    split_and!; [done|by constructor|by apply sublist_skip|].
    exists r. split; [done|]. cbn [flat_map]. rewrite H5. solve_Permutation.
Qed.

(** *** Requesting a region *)

(** Both ways to take the region out again restore [parent]. *)
Definition undone (res parent parent' : resource) : Prop :=
  release_below (address res) parent' = parent /\
  exists n, release_region_in n (start res) (end_ res) (child parent') = Some (child parent, true).

Lemma undone_here parent res la lb :
  wf parent -> fresh res parent -> Z.land (flags res) IORESOURCE_BUSY <> 0 -> free_in res parent ->
  child parent = la ++ lb -> undone res parent (set_child parent (la ++ res :: lb)).
Proof.
  intros Hw (_ & _ & _ & Ha) Hb (Hne & _ & Hfree) Hl. pose proof (fresh_children _ _ Ha) as [Hac _].
  destruct (set_child_eq parent (la ++ res :: lb)) as (_ & _ & _ & _ & Ec). rewrite Hl, fmap_app in Hac.
  apply not_elem_of_app in Hac as [Hla Hlb]. split.
  - rewrite (release_below_mid (address res) _ la res lb); try done.
    + rewrite bool_decide_eq_true_2 by done. destruct parent. simpl in *. by rewrite Hl.
    + intros d Hd. apply release_below_fresh. intros Hx. apply Ha. eapply child_addresses; [|exact Hx]. by rewrite Hl.
  - exists (length la + 1)%nat. rewrite Ec, release_walk.
    + simpl. rewrite !Z.leb_refl. cbn [andb]. destruct (Z.eqb_spec (Z.land (flags res) IORESOURCE_BUSY) 0); [done|].
      rewrite !Z.eqb_refl. simpl. by rewrite Hl.
    + rewrite Hl in Hfree. apply Forall_app in Hfree as [Hfree _]. eapply list.Forall_impl; [exact Hfree|].
      intros c. unfold overlap. lia.
Qed.

Lemma undone_below parent res la c c' lb :
  wf parent -> fresh res parent -> child parent = la ++ c :: lb -> node c' = node c ->
  Z.land (flags c) IORESOURCE_BUSY = 0 -> inside res c -> undone res c c' ->
  undone res parent (set_child parent (la ++ c' :: lb)).
Proof.
  intros Hw (Hr & _ & _ & Ha) Hl Hnode Hb [Hi1 Hi2] [Hu1 (n & Hu2)]. pose proof (fresh_children _ _ Ha) as [Hac _].
  unfold node in Hnode. injection Hnode as Ea Es Ee Ef.
  destruct (set_child_eq parent (la ++ c' :: lb)) as (_ & _ & _ & _ & Ec). rewrite Hl, fmap_app, fmap_cons in Hac.
  apply not_elem_of_app in Hac as [Hla Hlb]. apply not_elem_of_cons in Hlb as [Hc Hlb].
  pose proof Hw as (_ & _ & Ht & _ & _ & Hf)%wf_iff. split.
  - rewrite (release_below_mid (address res) _ la c' lb); try done.
    + rewrite bool_decide_eq_false_2, Hu1 by congruence. destruct parent. simpl in *. by rewrite Hl.
    + intros d Hd. apply release_below_fresh. intros Hx. apply Ha. eapply child_addresses; [|exact Hx].
      rewrite Hl. set_solver.
  - exists (length la + S n)%nat. rewrite Ec, release_walk.
    + cbn [release_region_in]. rewrite Es, Ee, Ef.
      destruct (Z.leb_spec (start c) (start res)), (Z.leb_spec (end_ res) (end_ c)); try lia. cbn [andb].
      rewrite Hb, Z.eqb_refl, Hu2. simpl. rewrite Hl. destruct c, c'. simpl in *. by subst.
    + rewrite Hl in Ht, Hf. apply list.Forall_forall. intros d Hd. apply list_elem_of_split in Hd as (l1 & l2 & ->).
      rewrite <- app_assoc in Ht, Hf. simpl in Ht, Hf. apply tiled_app in Ht as [_ (_ & _ & Ht)].
      apply Forall_app in Hf as [_ Hf]. apply Forall_cons_iff in Hf as [_ Hf].
      destruct (tiled_range _ _ _ c Hf Ht); [set_solver|]. lia.
Qed.

Lemma request_region_spec fuel parent res :
  wf parent -> fresh res parent -> Z.land (flags res) IORESOURCE_BUSY <> 0 -> (height parent <= fuel)%nat ->
  exists parent' ok, request_region_in fuel parent res = Some (parent', ok) /\ node parent' = node parent /\
  if (ok : bool) then clear res parent /\ wf parent' /\ nodes parent' ≡ₚ node res :: nodes parent /\
                      undone res parent parent'
  else parent' = parent /\ ~ clear res parent.
Proof.
  revert parent. induction fuel as [|fuel IH]; intros parent Hw Hn Hb Hh; [destruct parent; simpl in Hh; lia|].
  cbn [request_region_in]. pose proof (request_spec parent res Hw) as Hs.
  destruct (__request_resource parent res) as [parent' [c|]] eqn:Hr.
  2: { destruct (request_wf _ _ _ Hw Hn Hr) as (? & ? & ?). destruct Hs as (Hfree & la & lb & Hl & -> & _).
       eexists _, true. split; [done|]. split; [done|]. split; [by apply clear_free|]. split_and!; try done.
       by apply undone_here. }
  destruct Hs as [-> [[-> Hni]|(Ho & _ & Hi & la & lb & Hl & Hla)]].
  { unfold same. rewrite bool_decide_eq_true_2 by done. exists parent, false. split_and!; try done.
    intros [? _]. apply Hni. split; [apply Hn|done]. }
  pose proof Hw as (_ & _ & Ht & Hd & Hpa & Hf)%wf_iff.
  assert (Hin : c ∈ child parent) by (rewrite Hl; set_solver).
  assert (Hsame : same c parent = false).
  { unfold same. apply bool_decide_eq_false_2. intros He. apply Hpa. rewrite <- He. by apply list_elem_of_fmap_2. }
  rewrite Hsame. cbn [negb andb]. destruct (Z.eqb_spec (Z.land (flags c) IORESOURCE_BUSY) 0) as [Hcb|Hcb].
  2: { exists parent, false. split_and!; try done. intros [_ Hall]. rewrite below_forall, Hl, Forall_app, Forall_cons_iff in Hall.
       destruct Hall as (_ & Hall & _). rewrite nodes_eq in Hall. apply Forall_cons_iff in Hall as [[Hx|[Hx _]] _]; [|done].
       unfold apart, overlap, node in *. simpl in *. lia. }
  assert (Hwc : wf c) by (rewrite list.Forall_forall in Hf; by apply Hf).
  assert (Hnc : fresh res c).
  { destruct Hn as (? & ? & ? & Ha). split_and!; try done; try lia. intros Hx. apply Ha. by eapply child_addresses. }
  pose proof (height_child _ _ Hin).
  destruct (IH c Hwc Hnc Hb ltac:(lia)) as (c' & ok & -> & Hnode & Hres). simpl.
  rewrite (replace_child_spec parent la c c' lb) by (done || (unfold node in Hnode; by injection Hnode)).
  exists (set_child parent (la ++ c' :: lb)), ok. split; [done|]. split; [apply node_set_child|].
  pose proof (clear_child parent la c lb res Hw Hl Hi Ho Hcb) as Hiff. destruct ok.
  - destruct Hres as (Hcl & Hwf' & Hp & Hu). split; [by apply Hiff|].
    destruct (exchange_child_wf parent la c c' lb (node res)) as [? ?]; try done. split_and!; try done.
    eapply undone_below; try done. apply Hcl.
  - destruct Hres as [-> Hres]. rewrite <- Hl, set_child_id, Hiff. done.
Qed.

(** ** Reserving with splits *)

Section reserving.
(** Memory is there for every call, at an address of its own. *)
Context (name : Z -> Z -> positive) (Hinj : forall s e s' e', name s e = name s' e' -> s = s').

#[local] Notation "'reserve' fuel" := (__reserve_region_with_split fuel (fun s e => Some (name s e)))
  (at level 10, fuel at level 9).

(** What reserving [s]..[e] makes of the tree: busy nodes within the range added,
    the children kept, and every address of the range in a child. *)
Record reserved_range (root root' : resource) (s e : Z) (added : list (positive * Z * Z * Z)) : Prop := {
  rr_wf : wf root';
  rr_node : node root' = node root;
  rr_nodes : nodes root' ≡ₚ added ++ nodes root;
  rr_added : Forall (fun x => x.2 = IORESOURCE_BUSY /\ s <= x.1.1.2 /\ x.1.2 <= e /\
                              exists s' e', s <= s' <= e /\ x.1.1.1 = name s' e') added;
  rr_child : forall d, d ∈ child root -> d ∈ child root';
  rr_all : forall x, s <= x <= e -> Exists (fun c => start c <= x <= end_ c) (child root')
}.

(** A range in which there is nothing yet. *)
Lemma reserve_free fuel root s e :
  wf root -> 0 <= s <= e -> e < 2 ^ 64 -> name s e ∉ addresses root ->
  free_in (Resource (name s e) s e IORESOURCE_BUSY []) root ->
  exists root', reserve (S fuel) root s e = Some root' /\
    reserved_range root root' s e [(name s e, s, e, IORESOURCE_BUSY)] /\
    forall (P : resource -> Prop) (HP : forall x, Decision (P x)), ~ P (Resource (name s e) s e IORESOURCE_BUSY []) ->
      length (filter P (child root')) = length (filter P (child root)).
Proof using Hinj.
  intros Hw Hse He Ha Hfree. set (res := Resource _ _ _ _ _) in *.
  assert (Hn : fresh res root) by (split_and!; simpl; (done || lia)).
  cbn [__reserve_region_with_split]. fold res. pose proof (request_spec root res Hw) as Hs.
  destruct (__request_resource root res) as [root' [c|]] eqn:Hr.
  - exfalso. destruct Hfree as (H1 & H2 & H3). destruct Hs as [_ [[_ Hs]|(Ho & _ & _ & la & lb & Hl & _)]]; [tauto|].
    rewrite Hl in H3. apply Forall_app in H3 as [_ H3]. by apply Forall_cons_iff in H3 as [? _].
  - destruct (request_wf _ _ _ Hw Hn Hr) as (? & ? & ?). destruct Hs as (_ & la & lb & Hl & -> & _).
    destruct (set_child_eq root (la ++ res :: lb)) as (_ & _ & _ & _ & Ec).
    eexists. split; [done|]. split.
    + split; try done.
      * constructor; [|constructor]. simpl. split_and!; try (done || lia). exists s, e. split; [lia|done].
      * intros d Hd. rewrite Ec. rewrite Hl in Hd. set_solver.
      * intros x Hx. rewrite Ec. apply list.Exists_exists. exists res. split; [set_solver|]. simpl. lia.
    + intros P ? HnP. rewrite Ec, Hl, !list.filter_app, filter_cons, decide_False by done. done.
Qed.

(** The part in front of the first child in the way. *)
Lemma reserve_left fuel root s e la c lb :
  wf root -> 0 <= s <= e -> inside (Resource (name s e) s e IORESOURCE_BUSY []) root ->
  (forall s' e', s <= s' -> name s' e' ∉ addresses root) -> child root = la ++ c :: lb ->
  s <= end_ c -> start c <= e -> Forall (fun x => end_ x < s) la ->
  exists root1 added,
    (if s <? start c then reserve (S fuel) root s (u64 (start c - 1)) else Some root) = Some root1 /\
    reserved_range root root1 s (start c - 1) added /\
    (forall s' e', end_ c < s' -> name s' e' ∉ addresses root1) /\
    length (filter (fun d => end_ c + 1 <= end_ d) (child root1)) =
      length (filter (fun d => end_ c + 1 <= end_ d) (child root)).
Proof using Hinj.
  intros Hw Hse [Hi1 Hi2] Ha Hl Hov Hov2 Hla. simpl in Hi1, Hi2. pose proof (wf_range _ Hw).
  pose proof Hw as (_ & _ & Ht & _ & _ & Hf)%wf_iff. rewrite Hl in Ht, Hf.
  assert (Hwc : wf c) by (rewrite list.Forall_forall in Hf; apply Hf; set_solver). apply wf_range in Hwc.
  destruct (Z.ltb_spec s (start c)).
  - rewrite wrap_small by word_lia.
    destruct (reserve_free fuel root s (start c - 1)) as (root1 & -> & Hrr & Hflt); try done; try lia.
    + by apply Ha.
    + split; [simpl; lia|]. split; [unfold inside; simpl; lia|]. rewrite Hl. apply Forall_app.
      apply Forall_app in Hf as [_ Hf]. apply tiled_app in Ht as [_ (_ & _ & Ht)]. apply Forall_cons_iff in Hf as [_ Hf].
      split; [eapply list.Forall_impl; [exact Hla|]; unfold overlap; simpl; lia|].
      constructor; [unfold overlap; simpl; lia|]. apply list.Forall_forall. intros d Hd.
      destruct (tiled_range _ _ _ _ Hf Ht Hd). unfold overlap. simpl. lia.
    + eexists _, _. split; [done|]. split; [exact Hrr|]. split.
      * intros s' e' Hs'. unfold addresses. rewrite (rr_nodes _ _ _ _ _ Hrr). simpl. apply not_elem_of_cons.
        split; [|apply Ha; lia]. intros ?%Hinj. lia.
      * apply Hflt. simpl. lia.
  - exists root, []. split; [done|]. split; [|split; [|done]].
    + split; try done. intros x Hx. lia.
    + intros. apply Ha. lia.
Qed.

(** The part in front of [c], [c] itself and the part behind it. *)
Lemma reserved_join root root1 root2 s e c added1 added2 :
  reserved_range root root1 s (start c - 1) added1 -> reserved_range root1 root2 (end_ c + 1) e added2 ->
  c ∈ child root -> s <= end_ c -> start c <= e -> start c <= end_ c ->
  reserved_range root root2 s e (added2 ++ added1).
Proof using Type.
  intros [? ? N1 A1 C1 X1] [? ? N2 A2 C2 X2] Hc Hs He Hr. split; try done; try congruence.
  - rewrite N2, N1. by rewrite app_assoc.
  - apply Forall_app. split; (eapply list.Forall_impl; [eassumption|]); intros x (? & ? & ? & s' & e' & ? & ?);
      (split_and!; [done|lia|lia|]); exists s', e'; (split; [lia|done]).
  - auto.
  - intros x Hx. destruct (Z_le_gt_dec x (end_ c)); [|apply X2; lia].
    destruct (Z_le_gt_dec (start c) x); [apply list.Exists_exists; exists c; auto with lia|].
    assert (Hex := X1 x ltac:(lia)). apply list.Exists_exists in Hex as (d & Hd & ?).
    apply list.Exists_exists. exists d. auto.
Qed.

Lemma reserved_none root s e : wf root -> e < s -> reserved_range root root s e [].
Proof using Type. intros. split; try done. intros. lia. Qed.

Lemma reserved_narrow root root' s e e' added :
  reserved_range root root' s e added -> e <= e' -> (forall x, e < x <= e' -> Exists (fun c => start c <= x <= end_ c) (child root')) ->
  reserved_range root root' s e' added.
Proof using Type.
  intros [] He Hx. split; try done.
  - eapply list.Forall_impl; [eassumption|]. intros x (? & ? & ? & s' & e0 & ? & ?). split_and!; try (done || lia).
    exists s', e0. split; [lia|done].
  - intros x Hin. destruct (Z_le_gt_dec x e); [|apply Hx; lia]. apply rr_all0. lia.
Qed.

Lemma reserve_spec fuel root s e :
  wf root -> 0 <= s <= e -> e < 2 ^ 64 -> inside (Resource (name s e) s e IORESOURCE_BUSY []) root ->
  (forall s' e', s <= s' -> name s' e' ∉ addresses root) ->
  (length (filter (fun d => (s <= end_ d)%Z) (child root)) < fuel)%nat ->
  exists root' added, reserve fuel root s e = Some root' /\ reserved_range root root' s e added.
Proof using Hinj.
  revert root s. induction fuel as [|fuel IH]; intros root s Hw Hse He Hi Ha Hfuel; [lia|].
  pose proof (request_spec root (Resource (name s e) s e IORESOURCE_BUSY []) Hw) as Hs.
  destruct (__request_resource root (Resource (name s e) s e IORESOURCE_BUSY [])) as [root' [c|]] eqn:Hr.
  2: { destruct Hs as [Hfree _]. destruct (reserve_free fuel root s e Hw Hse He) as (root1 & -> & ? & _); try done;
         [by apply Ha|]. eauto. }
  cbn [__reserve_region_with_split]. rewrite Hr.
  destruct Hs as [_ [[_ Hni]|([Ho1 Ho2] & _ & _ & la & lb & Hl & Hla)]]; [exfalso; apply Hni; simpl; split; [lia|done]|].
  simpl in Ho1, Ho2. pose proof (wf_range _ Hw). pose proof Hw as (_ & _ & Ht & _ & _ & Hf)%wf_iff.
  assert (Hc : c ∈ child root) by (rewrite Hl; set_solver).
  destruct (tiled_range _ _ _ _ Hf Ht Hc). rewrite list.Forall_forall in Hf. pose proof (wf_range _ (Hf c Hc)).
  destruct ((start c <=? s) && (e <=? end_ c)) eqn:Hcov.
  { exists root, []. split; [done|]. split; try done. intros x Hx. apply list.Exists_exists. exists c. split; [done|lia]. }
  assert (Hlt : (length (filter (fun d => (end_ c + 1 <= end_ d)%Z) (child root)) <
                 length (filter (fun d => (s <= end_ d)%Z) (child root)))%nat).
  { apply filter_shrink with (p := c); [|done|lia|lia]. simpl. lia. }
  destruct fuel as [|fuel]; [lia|].
  destruct (reserve_left fuel root s e la c lb Hw Hse Hi Ha Hl) as (root1 & added1 & -> & Hrr & Ha1 & Hflt); try done.
  simpl. destruct (Z.ltb_spec (end_ c) e).
  - pose proof (rr_node _ _ _ _ _ Hrr) as Hn1. unfold node in Hn1. injection Hn1 as _ Hn1 Hn2 _.
    rewrite wrap_small by word_lia.
    destruct (IH root1 (end_ c + 1)) as (root2 & added2 & Heq & Hrr2); try lia.
    + apply Hrr.
    + destruct Hi as [Hi1 Hi2]. unfold inside in *. simpl in *. lia.
    + intros. apply Ha1. lia.
    + exists root2, (added2 ++ added1). split; [exact Heq|]. eapply reserved_join; [done|done|done|lia..].
  - exists root1, added1. split; [done|]. eapply reserved_narrow; [done|lia|]. intros x Hx.
    apply list.Exists_exists. exists c. split; [by apply (rr_child _ _ _ _ _ Hrr)|lia].
Qed.

(** A range that is not inside the root is split at the root for ever. *)
Lemma reserve_outside fuel root s e :
  0 <= start root <= end_ root -> end_ root < 2 ^ 64 -> 0 <= s <= e -> e < 2 ^ 64 -> s < start root \/ end_ root < e ->
  reserve fuel root s e = None.
Proof using Type.
  intros Hr Hr2. revert s e. induction fuel as [|fuel IH]; intros s e Hse He Hout; [done|].
  cbn [__reserve_region_with_split]. unfold __request_resource. cbn [start end_].
  destruct (Z.ltb_spec e s); [lia|].
  destruct (Z.ltb_spec s (start root)).
  - destruct (Z.leb_spec (start root) s); [lia|]. cbn [andb].
    rewrite (wrap_small 64 (start root - 1)) by word_lia. rewrite IH by lia. by rewrite (proj2 (Z.ltb_lt s (start root))) by lia.
  - destruct (Z.ltb_spec (end_ root) e); [|lia]. destruct (Z.leb_spec e (end_ root)); [lia|]. rewrite andb_false_r.
    rewrite (proj2 (Z.ltb_ge s (start root))) by lia. simpl. rewrite (proj2 (Z.ltb_lt (end_ root) e)) by lia. apply IH; rewrite ?wrap_small; word_lia.
Qed.
End reserving.

(** ** Sizes *)

(** The number of bytes; a resource of the whole address space has size 0. *)
Lemma resource_size_spec r : wf r -> resource_size r = (end_ r - start r + 1) mod 2 ^ 64.
Proof. intros _. unfold resource_size, wrap. by rewrite Zplus_mod_idemp_l. Qed.

(** ** The claims on the tree *)

Lemma request_ok root new :
  tree root -> fresh new root ->
  let '(root', r) := request_resource root new in
  r = 0 /\ free_in new root /\ tree root' /\ nodes root' ≡ₚ node new :: nodes root /\
    release_resource root' (address new) = (root, 0) \/
  r = - EBUSY /\ ~ free_in new root /\ root' = root.
Proof.
  intros Ht Hn. pose proof Ht as [Hw _]. unfold request_resource. pose proof (request_spec root new Hw) as Hs.
  destruct (__request_resource root new) as [root' [c|]] eqn:Hr.
  - right. destruct Hs as [-> Hs]. split_and!; [done| |done]. intros (H1 & H2 & H3).
    destruct Hs as [[_ Hs]|(Ho & _ & _ & la & lb & Hl & _)]; [tauto|].
    rewrite Hl in H3. apply Forall_app in H3 as [_ H3]. by apply Forall_cons_iff in H3 as [? _].
  - left. destruct (request_wf _ _ _ Hw Hn Hr) as (? & ? & ?). split; [done|]. split; [by destruct Hs|].
    split; [by eapply tree_add|]. split; [done|]. by apply request_release.
Qed.

Lemma release_ok root a :
  tree root ->
  let '(root', r) := release_resource root a in
  r = 0 /\ tree root' /\ (exists la c lb, child root = la ++ c :: lb /\ address c = a /\
    root' = set_child root (la ++ lb) /\ nodes root ≡ₚ nodes c ++ nodes root') \/
  r = - EINVAL /\ root' = root /\ a ∉ (address <$> child root).
Proof.
  intros Ht. pose proof Ht as [Hw Hd]. pose proof (release_spec root a Hw) as Hs. unfold release_resource.
  destruct (__release_resource root a) as [root' r].
  destruct Hs as [(-> & la & c & lb & ? & ? & ? & ? & ?)|?]; [left|by right].
  split; [done|]. split; [by eapply tree_sub|]. by exists la, c, lb.
Qed.

Lemma adjust_addresses parent r la lb s e :
  child parent = la ++ r :: lb -> addresses (set_child parent (la ++ set_range r s e :: lb)) = addresses parent.
Proof.
  intros Hl. unfold addresses. rewrite !nodes_eq, node_set_child, Hl.
  destruct (set_child_eq parent (la ++ set_range r s e :: lb)) as (_ & _ & _ & _ & ->).
  rewrite !flat_map_app. cbn [flat_map]. rewrite !fmap_cons, !fmap_app. do 2 f_equal. by destruct r.
Qed.

Lemma adjust_ok root la r lb s size :
  tree root -> child root = la ++ r :: lb -> 0 <= s -> 1 <= size -> s + size <= 2 ^ 64 ->
  exists root' ret, adjust_resource root (address r) s size = Some (root', ret) /\
  (adjustable root r la lb s (s + size - 1) /\ ret = 0 /\ tree root' /\
     root' = set_child root (la ++ set_range r s (s + size - 1) :: lb) \/
   ~ adjustable root r la lb s (s + size - 1) /\ ret = - EBUSY /\ root' = root).
Proof.
  intros [Hw Hd] Hl ? ? ?. destruct (adjust_spec root r la lb s size) as (root' & ret & Heq & Hr); try done.
  exists root', ret. split; [done|]. destruct Hr as [(? & ? & ? & Hroot)|?]; [left|by right].
  split; [done|]. split; [done|]. split; [|done]. split; [done|]. by rewrite Hroot, adjust_addresses.
Qed.

(** C10 (invariant): requesting, releasing and adjusting resources keeps the tree of
    resources well formed (children inside their parent, disjoint and ascending).
    A request succeeds exactly when the range is not empty, lies inside the root and
    overlaps none of its children; it adds just the new node, and releasing that
    node gives back the very tree; a refused request returns [-EBUSY] and changes
    nothing.  Releasing takes one child out with its subtree, or returns [-EINVAL].
    Adjusting changes the range of one child, and succeeds exactly when the new
    range stays inside the parent and between the neighbours and keeps the
    resource's own children inside. *)
Theorem resource_tree_correct root :
  tree root ->
  (forall new, fresh new root ->
    let '(root', r) := request_resource root new in
    r = 0 /\ free_in new root /\ tree root' /\ nodes root' ≡ₚ node new :: nodes root /\
      release_resource root' (address new) = (root, 0) \/
    r = - EBUSY /\ ~ free_in new root /\ root' = root) /\
  (forall a, let '(root', r) := release_resource root a in
    r = 0 /\ tree root' /\ (exists la c lb, child root = la ++ c :: lb /\ address c = a /\
      root' = set_child root (la ++ lb) /\ nodes root ≡ₚ nodes c ++ nodes root') \/
    r = - EINVAL /\ root' = root /\ a ∉ (address <$> child root)) /\
  (forall la r lb s size, child root = la ++ r :: lb -> 0 <= s -> 1 <= size -> s + size <= 2 ^ 64 ->
    exists root' ret, adjust_resource root (address r) s size = Some (root', ret) /\
    (adjustable root r la lb s (s + size - 1) /\ ret = 0 /\ tree root' /\
       root' = set_child root (la ++ set_range r s (s + size - 1) :: lb) \/
     ~ adjustable root r la lb s (s + size - 1) /\ ret = - EBUSY /\ root' = root)).
Proof.
  intros Ht. split; [|split].
  - intros new Hn. by apply request_ok.
  - intros a. by apply release_ok.
  - intros. by apply adjust_ok.
Qed.

(** C11 (functional): inserting a resource that may enclose others terminates, and
    succeeds exactly when the range lies inside the root and crosses no node of the
    tree (every node is inside it, around it or apart from it): the tree then holds
    the new node besides the old ones and is well formed, whatever nodes became
    children of the new one.  Otherwise [-EBUSY] and the tree as it was.  With
    expansion the loop ends after at most one round per node, and inserts the
    smallest range around the one asked for that crosses no node. *)
Theorem resource_insert_correct root new :
  tree root -> fresh new root ->
  (exists root' r, insert_resource (height root) root new = Some (root', r) /\
    (r = 0 /\ tree root' /\ nodes root' ≡ₚ node new :: nodes root /\ inside new root /\
       Forall (fun x => ~ crosses x (node new)) (nodes root) \/
     r = - EBUSY /\ root' = root /\
       (~ inside new root \/ Exists (fun x => crosses x (node new)) (nodes root)))) /\
  (inside new root ->
   exists root' new',
    insert_resource_expand_to_fit (S (length (nodes root))) (height root) root new false = Some (root', new') /\
    tree root' /\ nodes root' ≡ₚ node new' :: nodes root /\ inside new' root /\ smallest_around root new new').
Proof.
  intros Ht Hn. pose proof Ht as [Hw _]. split.
  - unfold insert_resource. destruct (insert_iff (height root) root new Hw Hn) as (root' & r & -> & Hr); [done|].
    simpl. exists root'. destruct r as [c|]; eexists; (split; [done|]); [right|left].
    + destruct Hr as (-> & [[_ ?]|(_ & Hc & Hx)]); (split; [done|]; split; [done|]); [by left|right].
      apply list.Exists_exists. by exists (node c).
    + destruct Hr as (? & ? & ? & ?). split; [done|]. split; [by eapply tree_add|]. done.
  - intros Hi. destruct (expand_spec root new Ht Hn Hi) as (root' & new' & Heq & Hw' & Hp & Hi' & Hs).
    exists root', new'. split; [done|]. split; [|done]. destruct Ht as [_ Hd]. split; [done|].
    unfold addresses in *. rewrite Hp. simpl. apply list.NoDup_cons. split; [|done].
    destruct Hn as (_ & _ & _ & Ha), Hs as (-> & _). by destruct new.
Qed.

(** C13 (functional): allocation is first fit.  For a power of two alignment, limits
    and children that stay clear of the top of the address space, the allocated
    range has the size asked for, is aligned, lies within the limits and inside the
    root, overlaps no child, and is the lowest such place; [-EBUSY] comes back, and
    the tree unchanged, only when there is no such place.  A place counts only if it
    leaves room for two bytes, since the code wants the gap's start strictly below
    its end: requests of one byte pass over gaps of one byte.  Near the top of the
    address space the aligned start of a gap can wrap around, and the allocation then
    succeeds with a range below the minimum asked for; and [adjust_resource] accepts a
    size of 0, which leaves a child that ends before it starts. *)
Theorem resource_allocate_first_fit root new k size min max :
  tree root -> child new = [] -> address new ∉ addresses root ->
  0 <= k < 64 -> 1 <= size < 2 ^ 64 -> 0 <= min /\ min + 2 ^ k <= 2 ^ 64 -> 0 <= max < 2 ^ 64 ->
  start root + 2 ^ k <= 2 ^ 64 -> Forall (fun c => end_ c + 2 ^ k < 2 ^ 64) (child root) ->
  let place := fits k min max (start root) (end_ root) (child root) (Z.max size 2) in
  (let '(root', r) := allocate_resource root new size min max (2 ^ k) None in
   (exists s, r = 0 /\ place s /\ (forall s', place s' -> s <= s') /\ tree root' /\
      nodes root' ≡ₚ node (set_range new s (s + size - 1)) :: nodes root) \/
   (r = - EBUSY /\ root' = root /\ forall s, ~ place s)) /\
  allocate_resource (Resource 1 0 (2 ^ 64 - 1) 0 [Resource 2 (2 ^ 64 - 0x4000) (2 ^ 64 - 0x801) 0 []])
    (Resource 3 0 0 0 []) 0x100 (2 ^ 64 - 0x2000) (2 ^ 64 - 1) 0x1000 None =
  (Resource 1 0 (2 ^ 64 - 1) 0
    [Resource 3 0 0xff 0 []; Resource 2 (2 ^ 64 - 0x4000) (2 ^ 64 - 0x801) 0 []], 0) /\
  adjust_resource (Resource 1 0 0xfff 0 [Resource 4 0x400 0x4ff 0 []]) 4 0x400 0 =
  Some (Resource 1 0 0xfff 0 [Resource 4 0x400 0x3ff 0 []], 0).
Proof.
  intros Ht Hc Ha Hk Hsize Hmin Hmax Hst Hend place. split; [|split; reflexivity]. pose proof Ht as [Hw _].
  pose proof (allocate_spec k size min max Hk Hsize Hmin Hmax root new Hw Hst Hend Hc Ha) as Hs.
  destruct (allocate_resource root new size min max (2 ^ k) None) as [root' r].
  destruct Hs as [(s & ? & ? & ? & ? & ? & ?)|?]; [left|by right]. exists s. split_and!; try done.
  by eapply tree_add.
Qed.

(** ** The claim on regions *)

Lemma busy_flag f : Z.land (Z.lor IORESOURCE_BUSY f) IORESOURCE_BUSY <> 0.
Proof.
  replace (Z.land _ _) with IORESOURCE_BUSY; [done|]. apply Z.bits_inj'. intros i Hi.
  rewrite Z.land_spec, Z.lor_spec. by destruct (Z.testbit IORESOURCE_BUSY i), (Z.testbit f i).
Qed.

Lemma last_byte s n : 0 <= s -> 1 <= n -> s + n <= 2 ^ 64 -> u64 (u64 (s + n) - 1) = s + n - 1.
Proof. intros. unfold wrap. rewrite Zminus_mod_idemp_l. apply Z.mod_small. lia. Qed.

Lemma release_region_ok parent s n :
  tree parent -> 0 <= s -> 1 <= n -> s + n <= 2 ^ 64 ->
  exists parent' ok, __release_region (length (nodes parent)) parent s n = Some (parent', ok) /\
  if (ok : bool) then tree parent' /\ exists r, region_of s (s + n - 1) r /\ nodes parent ≡ₚ nodes r ++ nodes parent'
  else parent' = parent.
Proof.
  intros Ht Hs Hn Hov. pose proof Ht as [Hw _]. unfold __release_region. rewrite last_byte by done.
  destruct (release_total s (s + n - 1) (length (nodes parent)) (child parent)) as [[l ok] Hr];
    [rewrite nodes_eq; simpl; lia|].
  rewrite Hr. simpl. exists (set_child parent l), ok. split; [done|].
  pose proof Hw as (_ & _ & Htl & Hd & Ha & Hf)%wf_iff.
  pose proof (release_region_spec _ _ _ _ _ _ _ _ Hf Htl Hr) as Hrel. destruct ok; simpl in Hrel.
  - destruct Hrel as (H1 & H2 & H3 & r & H4 & H5).
    assert (Hp : nodes parent ≡ₚ nodes r ++ nodes (set_child parent l)).
    { rewrite (nodes_eq parent), (nodes_eq (set_child parent l)), node_set_child, H5.
      destruct (set_child_eq parent l) as (_ & _ & _ & _ & ->). solve_Permutation. }
    split; [|by exists r]. eapply tree_sub; [done| |exact Hp]. apply wf_set_child; try done.
    + by eapply sublist_NoDup.
    + intros Hx. apply Ha. eapply elem_of_submseteq; [done|]. by apply sublist_submseteq.
  - by rewrite Hrel, set_child_id.
Qed.

Lemma request_region_ok parent a s n f :
  tree parent -> a ∉ addresses parent -> 0 <= s -> 1 <= n -> s + n <= 2 ^ 64 ->
  let res := Resource a s (s + n - 1) (Z.lor IORESOURCE_BUSY f) [] in
  exists parent' ok, __request_region (height parent) parent (Some a) s n f = Some (parent', ok) /\
  if (ok : bool) then clear res parent /\ tree parent' /\ nodes parent' ≡ₚ node res :: nodes parent /\
    release_below a parent' = parent /\ __release_region (length (nodes parent')) parent' s n = Some (parent, true)
  else parent' = parent /\ ~ clear res parent.
Proof.
  intros Ht Ha Hs Hn Hov res. pose proof Ht as [Hw _]. unfold __request_region. rewrite last_byte by done. fold res.
  assert (Hfr : fresh res parent) by (split_and!; simpl; (done || lia)).
  destruct (request_region_spec (height parent) parent res Hw Hfr) as (parent' & ok & -> & Hnode & Hres);
    [apply busy_flag|done|].
  exists parent', ok. split; [done|]. destruct ok; [|done]. destruct Hres as (Hcl & Hw' & Hp & Hu1 & m & Hu2).
  split_and!; try done; try (by eapply tree_add). unfold __release_region. rewrite last_byte by done.
  destruct (release_total s (s + n - 1) (length (nodes parent')) (child parent')) as [r Hr]; [rewrite nodes_eq; simpl; lia|].
  cbn [start end_ res] in Hu2. destruct (Nat.le_ge_cases m (length (nodes parent'))) as [Hm|Hm].
  - rewrite (release_mono _ _ _ _ _ _ Hu2 Hm). simpl. f_equal. f_equal. destruct parent, parent'. simpl in *.
    unfold node in Hnode. simpl in Hnode. by injection Hnode as -> -> -> ->.
  - rewrite (release_mono _ _ _ _ _ _ Hr Hm) in Hu2. injection Hu2 as ->. rewrite Hr. simpl. f_equal. f_equal.
    destruct parent, parent'. simpl in *. unfold node in Hnode. simpl in Hnode. by injection Hnode as -> -> -> ->.
Qed.

(** C14 (roundtrip): requesting a region terminates, and succeeds exactly when the
    region lies inside the parent and every resource below that it meets surrounds it
    and is not busy; the tree gains the busy node, releasing the same range gives back
    the very tree, and a refused request changes nothing.  Checking a region gives 0
    in just those cases and leaves the tree as it was.  Releasing any range
    terminates, and either changes nothing or takes out one busy node of exactly that
    range (with what is below it); without memory a request is refused. *)
Theorem resource_regions_round_trip parent a s n f :
  tree parent -> a ∉ addresses parent -> 0 <= s -> 1 <= n -> s + n <= 2 ^ 64 ->
  let res := Resource a s (s + n - 1) (Z.lor IORESOURCE_BUSY f) [] in
  (exists parent' ok, __request_region (height parent) parent (Some a) s n f = Some (parent', ok) /\
    if (ok : bool) then clear res parent /\ tree parent' /\ nodes parent' ≡ₚ node res :: nodes parent /\
      __release_region (length (nodes parent')) parent' s n = Some (parent, true)
    else parent' = parent /\ ~ clear res parent) /\
  (exists r, __check_region (height parent) parent (Some a) s n = Some (parent, r) /\
    (r = 0 /\ clear res parent \/ r = - EBUSY /\ ~ clear res parent)) /\
  (exists parent' ok, __release_region (length (nodes parent)) parent s n = Some (parent', ok) /\
    if (ok : bool) then tree parent' /\ exists r, region_of s (s + n - 1) r /\ nodes parent ≡ₚ nodes r ++ nodes parent'
    else parent' = parent) /\
  __request_region (height parent) parent None s n f = Some (parent, false).
Proof.
  intros Ht Ha Hs Hn Hov res. split; [|split; [|split; [|done]]].
  - destruct (request_region_ok parent a s n f) as (parent' & ok & Heq & Hres); try done.
    exists parent', ok. split; [done|]. destruct ok; [|done]. by destruct Hres as (? & ? & ? & _ & ?).
  - unfold __check_region. destruct (request_region_ok parent a s n 0) as (parent' & ok & -> & Hres); try done.
    simpl. destruct ok.
    + destruct Hres as (? & _ & _ & -> & _). exists 0. split; [done|]. by left.
    + destruct Hres as [-> ?]. exists (- EBUSY). split; [done|]. by right.
  - by apply release_region_ok.
Qed.

(** C16 (termination): reserving a range that lies inside the root ends within one
    level of recursion per child; it adds busy nodes inside the range only, keeps
    all that was there and the tree well formed, and afterwards every address of the
    range belongs to a child.  On a range that is not inside the root it never ends:
    the conflict is the root itself, and the part outside is tried again unchanged. *)
Theorem resource_reserve_terminates name root s e :
  (forall s e s' e', name s e = name s' e' -> s = s') -> wf root ->
  (forall s' e', name s' e' ∉ addresses root) -> 0 <= s <= e -> e < 2 ^ 64 ->
  (start root <= s /\ e <= end_ root ->
   exists root' added,
     __reserve_region_with_split (S (length (child root))) (fun s e => Some (name s e)) root s e = Some root' /\
     wf root' /\ nodes root' ≡ₚ added ++ nodes root /\
     Forall (fun x => x.2 = IORESOURCE_BUSY /\ s <= x.1.1.2 /\ x.1.2 <= e) added /\
     (forall d, d ∈ child root -> d ∈ child root') /\
     forall x, s <= x <= e -> Exists (fun c => start c <= x <= end_ c) (child root')) /\
  (s < start root \/ end_ root < e ->
   forall fuel, __reserve_region_with_split fuel (fun s e => Some (name s e)) root s e = None).
Proof.
  intros Hinj Hw Ha Hse He. split.
  - intros Hi. destruct (reserve_spec name Hinj (S (length (child root))) root s e) as (root' & added & Heq & Hrr);
      try done; [|exists root', added; split; [exact Heq|]].
    + pose proof (length_filter (fun d => s <= end_ d) (child root)). lia.
    + destruct Hrr. split_and!; try done. eapply list.Forall_impl; [eassumption|]. naive_solver.
  - intros Hout fuel. apply reserve_outside; try done; by apply wf_range.
Qed.

(** * Witnesses *)

(** A root with a bus that has a busy device on it, and a second bus. *)
Definition example_bus : resource :=
  Resource 2 0x100 0x1ff 0 [Resource 3 0x120 0x13f IORESOURCE_BUSY []].
Definition example_root : resource :=
  Resource 1 0 0xffff 0 [example_bus; Resource 4 0x400 0x4ff 0 []].

Lemma example_tree : tree example_root.
Proof.
  split; [|by apply (bool_decide_unpack _); vm_compute].
  cbn [wf example_root example_bus tiled start end_ foldr fmap list_fmap address].
  split_and!; try lia; try done; by apply (bool_decide_unpack _); vm_compute.
Qed.

Lemma example_addresses a : (5 <= a)%positive -> a ∉ addresses example_root.
Proof.
  intros Ha. change (addresses example_root) with [1; 2; 3; 4]%positive.
  rewrite !not_elem_of_cons. split_and!; [lia..|apply not_elem_of_nil].
Qed.

Lemma example_fresh a s e f :
  0 <= s <= e -> e < 2 ^ 64 -> (5 <= a)%positive -> fresh (Resource a s e f []) example_root.
Proof. intros. split_and!; simpl; try (done || lia). by apply example_addresses. Qed.

(** A range around the first bus goes around it; one that cuts it is refused by
    the request, and expanded. *)
Lemma resource_tree_correct_witness :
  request_resource example_root (Resource 5 0x200 0x2ff 0 []) =
    (Resource 1 0 0xffff 0 [example_bus; Resource 5 0x200 0x2ff 0 []; Resource 4 0x400 0x4ff 0 []], 0) /\
  (let '(root', r) := request_resource example_root (Resource 5 0x180 0x2ff 0 []) in
   r = 0 /\ free_in (Resource 5 0x180 0x2ff 0 []) example_root /\ tree root' /\
     nodes root' ≡ₚ node (Resource 5 0x180 0x2ff 0 []) :: nodes example_root /\
     release_resource root' 5 = (example_root, 0) \/
   r = - EBUSY /\ ~ free_in (Resource 5 0x180 0x2ff 0 []) example_root /\ root' = example_root) /\
  exists root' ret, adjust_resource example_root 2 0x110 0x40 = Some (root', ret).
Proof.
  pose proof (resource_tree_correct example_root example_tree) as (Hreq & _ & Hadj).
  split; [reflexivity|]. split.
  - apply (Hreq (Resource 5 0x180 0x2ff 0 [])). apply example_fresh; lia.
  - destruct (Hadj [] example_bus [Resource 4 0x400 0x4ff 0 []] 0x110 0x40) as (root' & ret & Heq & _);
      [reflexivity|lia..|]. exists root', ret. exact Heq.
Defined.

Lemma resource_insert_correct_witness :
  (exists root' r, insert_resource (height example_root) example_root (Resource 5 0x80 0x4ff 0 []) = Some (root', r)) /\
  insert_resource 3 example_root (Resource 5 0x80 0x4ff 0 []) =
    Some (Resource 1 0 0xffff 0 [Resource 5 0x80 0x4ff 0 (child example_root)], 0) /\
  insert_resource_expand_to_fit 5 3 example_root (Resource 5 0x180 0x43f 0 []) false =
    Some (Resource 1 0 0xffff 0 [Resource 5 0x100 0x4ff 0 (child example_root)], Resource 5 0x100 0x4ff 0 []).
Proof.
  split; [|split; reflexivity].
  destruct (resource_insert_correct example_root (Resource 5 0x80 0x4ff 0 []) example_tree) as [(root' & r & Heq & _) _];
    [apply example_fresh; lia|]. exists root', r. exact Heq.
Defined.

Lemma resource_allocate_first_fit_witness :
  (let '(root', r) := allocate_resource example_root (Resource 5 0 0 0 []) 0x200 0x180 0xffff (2 ^ 8) None in
   (exists s, r = 0 /\ tree root' /\
     nodes root' ≡ₚ node (set_range (Resource 5 0 0 0 []) s (s + 0x200 - 1)) :: nodes example_root) \/
   (r = - EBUSY /\ root' = example_root)) /\
  allocate_resource example_root (Resource 5 0 0 0 []) 0x200 0x180 0xffff (2 ^ 8) None =
    (Resource 1 0 0xffff 0 [example_bus; Resource 5 0x200 0x3ff 0 []; Resource 4 0x400 0x4ff 0 []], 0).
Proof.
  split; [|reflexivity].
  pose proof (resource_allocate_first_fit example_root (Resource 5 0 0 0 []) 8 0x200 0x180 0xffff example_tree eq_refl
    (example_addresses 5 ltac:(lia)) ltac:(lia) ltac:(lia) ltac:(lia) ltac:(lia) ltac:(simpl; lia)
    ltac:(repeat constructor; simpl; lia)) as Hal.
  cbv zeta in Hal. destruct Hal as [Hal _]. destruct (allocate_resource _ _ _ _ _ _ _) as [root' r].
  destruct Hal as [(s & ? & _ & _ & ? & ?)|(? & ? & _)]; [left; exists s; done|right; done].
Defined.

Lemma resource_regions_round_trip_witness :
  __request_region 3 example_root (Some 5%positive) 0x160 0x10 0 =
    Some (Resource 1 0 0xffff 0
      [Resource 2 0x100 0x1ff 0 [Resource 3 0x120 0x13f IORESOURCE_BUSY []; Resource 5 0x160 0x16f IORESOURCE_BUSY []];
       Resource 4 0x400 0x4ff 0 []], true) /\
  (exists r, __check_region (height example_root) example_root (Some 5%positive) 0x130 0x10 = Some (example_root, r)) /\
  __check_region 3 example_root (Some 5%positive) 0x130 0x10 = Some (example_root, - EBUSY).
Proof.
  split; [reflexivity|]. split; [|reflexivity].
  destruct (resource_regions_round_trip example_root 5 0x130 0x10 0 example_tree (example_addresses 5 ltac:(lia)))
    as (_ & (r & Heq & _) & _); [lia..|]. exists r. exact Heq.
Defined.

(** An allocator that never gives the same address for two starts. *)
Definition example_name (s e : Z) : positive := Z.to_pos (if 0 <=? s then 2 * s + 6 else - 2 * s + 5).

Lemma resource_reserve_terminates_witness :
  (exists root', __reserve_region_with_split 3 (fun s e => Some (example_name s e)) example_root 0x80 0x17f = Some root') /\
  (child <$> __reserve_region_with_split 3 (fun s e => Some (example_name s e)) example_root 0x80 0x27f) =
    Some [Resource 262 0x80 0xff IORESOURCE_BUSY []; example_bus; Resource 1030 0x200 0x27f IORESOURCE_BUSY [];
          Resource 4 0x400 0x4ff 0 []] /\
  (forall fuel, __reserve_region_with_split fuel (fun s e => Some (example_name s e)) example_root 0xff00 0x100ff = None).
Proof.
  assert (Hinj : forall s e s' e', example_name s e = example_name s' e' -> s = s').
  { unfold example_name. intros s e s' e' Heq. destruct (Z.leb_spec 0 s), (Z.leb_spec 0 s'); lia. }
  assert (Hfr : forall s e, example_name s e ∉ addresses example_root).
  { intros. apply example_addresses. unfold example_name. destruct (Z.leb_spec 0 s); lia. }
  split; [|split; [reflexivity|]].
  - destruct (resource_reserve_terminates example_name example_root 0x80 0x17f Hinj (proj1 example_tree) Hfr)
      as [Hin _]; [lia|lia|]. destruct Hin as (root' & added & Heq & _); [simpl; lia|]. exists root'. exact Heq.
  - intros fuel.
    apply (resource_reserve_terminates example_name example_root 0xff00 0x100ff Hinj (proj1 example_tree) Hfr);
      simpl; lia.
Defined.
