(* ===== verification/Sort.v ===== *)
(** The heap sort of lib/sort.c.

    The array is a list of bytes and an element the bytes at a multiple of its size;
    comparison is a function of two elements.  The loops on byte offsets are shown
    to be those on elements, and these to sort. *)
From Stdlib Require Import ZArith Lia Bool.
From stdpp Require Import base numbers list option.
From S2P Require Import Prelude.

Local Open Scope Z_scope.

(** * Definitions *)

(** [n] bytes at an offset. *)
Definition load_bytes (base : list Z) (off n : Z) : option (list Z) :=
  if (0 <=? off) && (0 <=? n) && (off + n <=? zlen base)
  then Some (take (Z.to_nat n) (drop (Z.to_nat off) base)) else None.

Definition store_bytes (base : list Z) (off : Z) (v : list Z) : option (list Z) :=
  if (0 <=? off) && (off + zlen v <=? zlen base)
  then Some (take (Z.to_nat off) base ++ v ++ drop (Z.to_nat (off + zlen v)) base) else None.

(** A [u32] is read and written as its four bytes. *)
Definition u32_swap (base : list Z) (a b size : Z) : option (list Z) :=
  t ← load_bytes base a 4;
  v ← load_bytes base b 4;
  base ← store_bytes base a v;
  store_bytes base b t.

(** The loop runs once for [size] 0. *)
Definition generic_swap (base : list Z) (a b size : Z) : option (list Z) :=
  loop (S (Z.to_nat size)) (fun '(base, a, b, size) =>
    t ← aget base a;
    v ← aget base b;
    base ← aset base a v;
    base ← aset base b t;
    let size := s32 (size - 1) in
    Some (if 0 <? size then Next (base, a + 1, b + 1, size) else Done base)) (base, a, b, size).

(** [cmp_func] reads the elements its arguments point to. *)
Definition cmp_at (cmp_func : list Z -> list Z -> Z) (size : Z) (base : list Z) (a b : Z) : option Z :=
  x ← load_bytes base a size;
  y ← load_bytes base b size;
  Some (cmp_func x y).

(** The inner loops, from [r] with the limit [n].  [int]s are converted to
    [size_t] where they meet [size]. *)
Definition sift (cmp_func : list Z -> list Z -> Z) (swap_func : list Z -> Z -> Z -> Z -> option (list Z))
    (fuel : nat) (size n : Z) (base : list Z) (r : Z) : option (list Z) :=
  loop fuel (fun '(base, r) =>
    if u64 (s32 (r * 2) + size) <? u64 n then
      let c := s32 (u64 (s32 (r * 2) + size)) in
      c ← (if u64 c <? u64 (u64 n - size) then
             v ← cmp_at cmp_func size base c (c + size);
             Some (if v <? 0 then s32 (u64 (c + size)) else c)
           else Some c);
      v ← cmp_at cmp_func size base r c;
      if 0 <=? v then Some (Done base)
      else base ← swap_func base r c (s32 size); Some (Next (base, c))
    else Some (Done base)) (base, r).

Definition sort (fuel : nat) (base : list Z) (num size : Z) (cmp_func : list Z -> list Z -> Z)
    (swap_func : option (list Z -> Z -> Z -> Z -> option (list Z))) : option (list Z) :=
  let i := s32 (u64 (u64 (num / 2 - 1) * size)) in
  let n := s32 (u64 (num * size)) in
  let swap_func := match swap_func with
                   | Some f => f
                   | None => if size =? 4 then u32_swap else generic_swap
                   end in
  base ← loop fuel (fun '(base, i) =>
    if 0 <=? i then
      base ← sift cmp_func swap_func fuel size n base i;
      Some (Next (base, s32 (u64 (i - size))))
    else Some (Done base)) (base, i);
  loop fuel (fun '(base, i) =>
    if 0 <? i then
      base ← swap_func base 0 i (s32 size);
      base ← sift cmp_func swap_func fuel size i base 0;
      Some (Next (base, s32 (u64 (i - size))))
    else Some (Done base)) (base, s32 (u64 (n - size))).

(** * Sorting elements *)

Section elements.
Context (cmp : list Z -> list Z -> Z).

(** The elements at two places exchanged. *)
Definition exchange (l : list (list Z)) (i j : nat) : list (list Z) := <[i := l !!! j]> (<[j := l !!! i]> l).

Definition larger_child (l : list (list Z)) (m k : nat) : nat :=
  let c := (2 * k + 1)%nat in
  if (c <? m - 1)%nat && (cmp (l !!! c) (l !!! S c) <? 0) then S c else c.

(** The inner loop on elements: [m] elements, from [k]. *)
Fixpoint sift_elements (fuel : nat) (m : nat) (l : list (list Z)) (k : nat) : list (list Z) :=
  match fuel with
  | O => l
  | S fuel =>
      if (2 * k + 1 <? m)%nat then
        let c := larger_child l m k in
        if 0 <=? cmp (l !!! k) (l !!! c) then l
        else sift_elements fuel m (exchange l k c) c
      else l
  end.

Lemma exchange_length l i j : length (exchange l i j) = length l.
Proof. unfold exchange. by rewrite !length_insert. Qed.

Lemma exchange_lookup l i j x :
  (i < length l)%nat -> (j < length l)%nat ->
  exchange l i j !!! x = if decide (x = i) then l !!! j else if decide (x = j) then l !!! i else l !!! x.
Proof.
  intros Hi Hj. unfold exchange. case_decide as H1; [subst; by rewrite list_lookup_total_insert_eq by by rewrite length_insert|].
  rewrite list_lookup_total_insert_ne by done. case_decide as H2; [subst; by rewrite list_lookup_total_insert_eq|].
  by rewrite list_lookup_total_insert_ne.
Qed.

Lemma exchange_perm l i j : (i < length l)%nat -> (j < length l)%nat -> exchange l i j ≡ₚ l.
Proof.
  intros Hi Hj. apply lookup_lt_is_Some in Hi as [x Hx], Hj as [y Hy]. unfold exchange.
  rewrite (list_lookup_total_correct _ _ _ Hx), (list_lookup_total_correct _ _ _ Hy).
  by apply Permutation_insert_swap.
Qed.

Lemma larger_child_range l m k :
  (2 * k + 1 < m)%nat -> let c := larger_child l m k in (c = 2 * k + 1 \/ c = 2 * k + 2)%nat /\ (c < m)%nat.
Proof. intros Hk. unfold larger_child. destruct (Nat.ltb_spec (2 * k + 1) (m - 1)), (_ <? 0); simpl; lia. Qed.

(** Whatever the comparison answers, the loop permutes the first [m] elements from
    [k] on. *)
Lemma sift_shuffles fuel m l k :
  (m <= length l)%nat ->
  let l' := sift_elements fuel m l k in
  l' ≡ₚ l /\ (forall x, (x < k \/ m <= x)%nat -> l' !!! x = l !!! x) /\
  (forall P : list Z -> Prop, (forall x, (x < m)%nat -> P (l !!! x)) -> forall x, (x < m)%nat -> P (l' !!! x)).
Proof.
  revert l k. induction fuel as [|fuel IH]; intros l k Hm; cbn [sift_elements]; [done|].
  destruct (Nat.ltb_spec (2 * k + 1) m) as [Hk|]; [|done]. destruct (larger_child_range l m k Hk) as [Hc Hcm].
  destruct (0 <=? _); [done|]. set (c := larger_child l m k) in *.
  destruct (IH (exchange l k c) c) as (Hp & Hout & Hin); [by rewrite exchange_length|]. split_and!.
  - rewrite Hp. apply exchange_perm; lia.
  - intros x Hx. rewrite Hout, exchange_lookup by lia. repeat case_decide; (done || lia).
  - intros P HP. apply Hin. intros x Hx. rewrite exchange_lookup by lia. repeat case_decide; apply HP; lia.
Qed.

(** The two outer loops on elements. *)
Fixpoint build_heap (fuel m : nat) (l : list (list Z)) (k : nat) : list (list Z) :=
  match k with
  | O => l
  | S k => build_heap fuel m (sift_elements fuel m l k) k
  end.

Fixpoint take_largest (fuel : nat) (l : list (list Z)) (i : nat) : list (list Z) :=
  match i with
  | O => l
  | S i' => take_largest fuel (sift_elements fuel i (exchange l 0 i) 0) i'
  end.

Lemma sift_length fuel m l k : (m <= length l)%nat -> length (sift_elements fuel m l k) = length l.
Proof. intros Hm. by destruct (sift_shuffles fuel m l k Hm) as [->%Permutation_length _]. Qed.

Lemma build_heap_perm fuel m l k : (m <= length l)%nat -> build_heap fuel m l k ≡ₚ l.
Proof.
  revert l. induction k as [|k IH]; intros l Hm; cbn [build_heap]; [done|].
  rewrite IH by by rewrite sift_length. by apply sift_shuffles.
Qed.

Lemma take_largest_perm fuel l i : (i < length l)%nat -> take_largest fuel l i ≡ₚ l.
Proof.
  revert l. induction i as [|i IH]; intros l Hi; cbn [take_largest]; [done|].
  rewrite IH by (rewrite sift_length; rewrite exchange_length; lia).
  destruct (sift_shuffles fuel (S i) (exchange l 0 (S i)) 0) as [-> _]; [rewrite exchange_length; lia|].
  apply exchange_perm; lia.
Qed.

Context (Hsym : forall x y, 0 <= cmp x y -> cmp y x <= 0).
Context (Htrans : forall x y z, cmp x y <= 0 -> cmp y z <= 0 -> cmp x z <= 0).

Definition child_of (p c : nat) : Prop := (c = 2 * p + 1 \/ c = 2 * p + 2)%nat.

(** Every node from [a] on is at least its children, except perhaps [k], whose
    children are at most its parent. *)
Definition heap_except (a m : nat) (l : list (list Z)) (k : nat) : Prop :=
  (forall p c, (a <= p)%nat -> p <> k -> child_of p c -> (c < m)%nat -> cmp (l !!! c) (l !!! p) <= 0) /\
  (forall p c, (a <= p)%nat -> child_of p k -> child_of k c -> (c < m)%nat -> cmp (l !!! c) (l !!! p) <= 0).

Definition heap (a m : nat) (l : list (list Z)) : Prop :=
  forall p c, (a <= p)%nat -> child_of p c -> (c < m)%nat -> cmp (l !!! c) (l !!! p) <= 0.

(** The larger child is at least the other one. *)
Lemma larger_child_max l m k c :
  (2 * k + 1 < m)%nat -> child_of k c -> (c < m)%nat -> c <> larger_child l m k ->
  cmp (l !!! c) (l !!! larger_child l m k) <= 0.
Proof using Hsym.
  intros Hk Hc Hcm Hne. unfold larger_child in *. destruct (Nat.ltb_spec (2 * k + 1) (m - 1)); simpl in *.
  - destruct (Z.ltb_spec (cmp (l !!! (k + (k + 0) + 1)%nat) (l !!! S (k + (k + 0) + 1))) 0) as [Hv|Hv]; simpl in *.
    + assert (c = k + (k + 0) + 1)%nat as -> by (unfold child_of in Hc; lia). lia.
    + assert (c = S (k + (k + 0) + 1))%nat as -> by (unfold child_of in Hc; lia). by apply Hsym.
  - unfold child_of in Hc. lia.
Qed.

Lemma sift_heap fuel a m l k :
  (m <= length l)%nat -> (a <= k)%nat -> (m <= fuel + k)%nat -> heap_except a m l k ->
  heap a m (sift_elements fuel m l k).
Proof using Hsym Htrans.
  revert l k. induction fuel as [|fuel IH]; intros l k Hm Ha Hf [He Hg]; cbn [sift_elements].
  { intros p c Hp Hc Hcm. apply He; try done. unfold child_of in Hc. lia. }
  destruct (Nat.ltb_spec (2 * k + 1) m) as [Hk|Hk].
  2: { intros p c Hp Hc Hcm. apply He; try done. unfold child_of in Hc. lia. }
  destruct (larger_child_range l m k Hk) as [Hc Hcm]. pose proof (larger_child_max l m k) as Hmax.
  set (c := larger_child l m k) in *. destruct (Z.leb_spec 0 (cmp (l !!! k) (l !!! c))) as [Hv|Hv].
  - intros p d Hp Hd Hdm. destruct (decide (p = k)) as [->|]; [|by apply He].
    destruct (decide (d = c)) as [->|]; [by apply Hsym|]. eapply Htrans; [by apply Hmax|by apply Hsym].
  - apply IH; [by rewrite exchange_length|lia|lia|]. unfold heap_except, child_of in *. split.
    + intros p d Hp Hpc Hd Hdm. rewrite !exchange_lookup by lia.
      destruct (decide (p = k)) as [->|Hpk].
      * rewrite (decide_False (P := d = k)) by lia. destruct (decide (d = c)) as [->|]; [lia|]. by apply Hmax.
      * rewrite (decide_False (P := p = c)) by done. destruct (decide (d = k)) as [->|]; [apply Hg; (done || lia)|].
        rewrite decide_False by lia. by apply He.
    + intros p d Hp Hpc Hd Hdm. rewrite !exchange_lookup by lia. rewrite (decide_False (P := d = k)), (decide_False (P := d = c)) by lia.
      assert (p = k) as -> by lia. rewrite decide_True by done. apply He; (done || lia).
Qed.

(** The root is the largest element. *)
Lemma heap_root m l x : (0 < m)%nat -> heap 0 m l -> (x < m)%nat -> x <> 0%nat -> cmp (l !!! x) (l !!! 0%nat) <= 0.
Proof using Htrans.
  intros Hm Hh. induction (lt_wf x) as [x _ IH]. intros Hx Hne.
  set (p := ((x - 1) / 2)%nat). assert (Hp : child_of p x) by (unfold child_of; subst p; pose proof (Nat.div_mod_eq (x - 1) 2); pose proof (Nat.mod_upper_bound (x - 1) 2 ltac:(lia)); lia).
  assert (Hle : cmp (l !!! x) (l !!! p) <= 0) by (apply Hh; (done || lia)).
  destruct (decide (p = 0)%nat) as [Hp0|Hp0]; [by rewrite Hp0 in Hle|].
  eapply Htrans; [done|]. apply IH; unfold child_of in *; lia.
Qed.

Lemma build_heap_spec fuel m l k :
  (m <= length l)%nat -> (m <= fuel)%nat -> heap k m l -> heap 0 m (build_heap fuel m l k).
Proof using Hsym Htrans.
  revert l. induction k as [|k IH]; intros l Hm Hf Hh; cbn [build_heap]; [done|].
  apply IH; [by rewrite sift_length|done|]. apply sift_heap; [done|lia|lia|]. unfold heap, heap_except, child_of in *. split.
  - intros p c Hp Hpk Hc Hcm. apply Hh; (done || lia).
  - intros p c Hp Hpk Hc Hcm. lia.
Qed.

(** The elements above [i] are in their final places. *)
Definition placed (l : list (list Z)) (i : nat) : Prop :=
  forall x y, (x < y)%nat -> (i < y < length l)%nat -> cmp (l !!! x) (l !!! y) <= 0.

Lemma take_largest_step fuel l i :
  (S i < length l)%nat -> (S i <= fuel)%nat -> heap 0 (S (S i)) l -> placed l (S i) ->
  let l' := sift_elements fuel (S i) (exchange l 0 (S i)) 0 in heap 0 (S i) l' /\ placed l' i.
Proof using Hsym Htrans.
  intros Hi Hf Hh Hp l'. set (l1 := exchange l 0 (S i)) in *.
  assert (Hl1 : length l1 = length l) by apply exchange_length.
  assert (Hx1 : forall x, l1 !!! x = if decide (x = 0%nat) then l !!! S i else if decide (x = S i) then l !!! 0%nat else l !!! x)
    by (intros; apply exchange_lookup; lia).
  destruct (sift_shuffles fuel (S i) l1 0) as (_ & Hout & Hin); [lia|]. fold l' in Hout, Hin. split.
  - apply sift_heap; [lia|lia|lia|]. unfold heap, heap_except, child_of in *. split; [|lia].
    intros p c H1 H2 H3 H4. rewrite !Hx1, !decide_False by lia. apply Hh; lia.
  - intros x y Hxy Hy. assert (length l' = length l) by (subst l'; rewrite sift_length; lia).
    destruct (decide (y = S i)) as [->|Hne].
    + rewrite (Hout (S i)), (Hx1 (S i)), decide_False, decide_True by lia.
      apply (Hin (fun e => cmp e (l !!! 0%nat) <= 0)); [|lia]. intros z Hz. rewrite Hx1.
      destruct (decide (z = 0%nat)); [|rewrite decide_False by lia]; (apply (heap_root (S (S i))); (done || lia)).
    + rewrite (Hout y), (Hx1 y), !decide_False by lia. destruct (Nat.lt_ge_cases x (S i)) as [Hlt|Hge].
      * apply (Hin (fun e => cmp e (l !!! y) <= 0)); [|lia]. intros z Hz. rewrite Hx1.
        destruct (decide (z = 0%nat)); [|rewrite decide_False by lia]; apply Hp; lia.
      * rewrite (Hout x), Hx1, decide_False by lia. case_decide; apply Hp; lia.
Qed.

Lemma take_largest_sorted fuel l i :
  (i < length l)%nat -> (i <= fuel)%nat -> heap 0 (S i) l -> placed l i -> placed (take_largest fuel l i) 0.
Proof using Hsym Htrans.
  revert l. induction i as [|i IH]; intros l Hi Hf Hh Hp; cbn [take_largest]; [done|].
  destruct (take_largest_step fuel l i Hi Hf Hh Hp). apply IH; try done; [|lia].
  rewrite sift_length; rewrite exchange_length; lia.
Qed.

End elements.

(** * From bytes to elements *)

Lemma s32_u64 x : - 2 ^ 31 <= x < 2 ^ 31 -> s32 (u64 x) = x.
Proof.
  intros Hx. unfold s32, wrap. rewrite <- (Z.add_mod_idemp_l (x mod 2 ^ 64)) by lia.
  rewrite (mod_mod_pow2 x 32 64) by lia. rewrite Z.add_mod_idemp_l by lia. rewrite Z.mod_small by lia. lia.
Qed.

(** ** Reading and writing in the middle *)

Lemma load_mid (xs ys zs : list Z) off n :
  off = zlen xs -> n = zlen ys -> load_bytes (xs ++ ys ++ zs) off n = Some ys.
Proof.
  intros -> ->. unfold load_bytes. pose proof (zlen_nonneg xs). pose proof (zlen_nonneg ys). pose proof (zlen_nonneg zs).
  rewrite !zlen_app. destruct (Z.leb_spec 0 (zlen xs)), (Z.leb_spec 0 (zlen ys)),
    (Z.leb_spec (zlen xs + zlen ys) (zlen xs + (zlen ys + zlen zs))); try lia. simpl. f_equal.
  unfold zlen. by rewrite !Nat2Z.id, drop_app_length, take_app_length.
Qed.

Lemma store_mid (xs ys zs v : list Z) off :
  off = zlen xs -> zlen v = zlen ys -> store_bytes (xs ++ ys ++ zs) off v = Some (xs ++ v ++ zs).
Proof.
  intros -> Hv. unfold store_bytes. pose proof (zlen_nonneg xs). pose proof (zlen_nonneg ys). pose proof (zlen_nonneg zs).
  rewrite !zlen_app, Hv. destruct (Z.leb_spec 0 (zlen xs)), (Z.leb_spec (zlen xs + zlen ys) (zlen xs + (zlen ys + zlen zs)));
    try lia. simpl. f_equal. unfold zlen. rewrite Nat2Z.id, take_app_length. do 2 f_equal.
  replace (Z.to_nat _) with (length (xs ++ ys)) by (rewrite length_app; lia). by rewrite app_assoc, drop_app_length.
Qed.

(** What a swap function does: it exchanges two areas of [size] bytes. *)
Definition swaps (f : list Z -> Z -> Z -> Z -> option (list Z)) (size : Z) : Prop :=
  forall A X B Y C : list Z, zlen X = size -> zlen Y = size ->
  f (A ++ X ++ B ++ Y ++ C) (zlen A) (zlen A + size + zlen B) (s32 size) = Some (A ++ Y ++ B ++ X ++ C).

Lemma u32_swap_spec : swaps u32_swap 4.
Proof.
  intros A X B Y C HX HY. unfold u32_swap. rewrite (load_mid A X _ (zlen A)) by lia. simpl.
  assert (Hre : forall V W, A ++ V ++ B ++ W ++ C = (A ++ V ++ B) ++ W ++ C) by (intros; by rewrite <- !app_assoc).
  rewrite (Hre X Y), (load_mid (A ++ X ++ B) Y C) by (rewrite ?zlen_app; lia). rewrite <- (Hre X Y). simpl.
  rewrite (store_mid A X _ Y) by lia. simpl.
  rewrite (Hre Y Y), (store_mid (A ++ Y ++ B) Y C X) by (rewrite ?zlen_app; lia). by rewrite <- (Hre Y X).
Qed.

(** The bytes are exchanged one by one. *)
Definition swap_byte : list Z * Z * Z * Z -> option (ctl (list Z * Z * Z * Z) (list Z)) :=
  fun '(base, a, b, size) =>
    t ← aget base a;
    v ← aget base b;
    base ← aset base a v;
    base ← aset base b t;
    let size := s32 (size - 1) in
    Some (if 0 <? size then Next (base, a + 1, b + 1, size) else Done base).

Lemma swap_byte_spec (A X B Y C : list Z) x y size :
  swap_byte (A ++ (x :: X) ++ B ++ (y :: Y) ++ C, zlen A, zlen A + zlen (x :: X) + zlen B, size) =
  Some (let base := (A ++ [y]) ++ X ++ (B ++ [x]) ++ Y ++ C in
        if 0 <? s32 (size - 1)
        then Next (base, zlen A + 1, zlen A + zlen (x :: X) + zlen B + 1, s32 (size - 1)) else Done base).
Proof.
  assert (Hre : forall v w, A ++ (v :: X) ++ B ++ (w :: Y) ++ C = (A ++ (v :: X) ++ B) ++ w :: (Y ++ C))
    by (intros; by list_simplifier).
  assert (H1 : aget (A ++ (x :: X) ++ B ++ (y :: Y) ++ C) (zlen A) = Some x) by by apply aget_mid.
  assert (H2 : aget (A ++ (x :: X) ++ B ++ (y :: Y) ++ C) (zlen A + zlen (x :: X) + zlen B) = Some y).
  { rewrite Hre. apply aget_mid. rewrite !zlen_app. lia. }
  assert (H3 : aset (A ++ (x :: X) ++ B ++ (y :: Y) ++ C) (zlen A) y = Some (A ++ (y :: X) ++ B ++ (y :: Y) ++ C)).
  { by apply aset_mid. }
  assert (H4 : aset (A ++ (y :: X) ++ B ++ (y :: Y) ++ C) (zlen A + zlen (x :: X) + zlen B) x =
    Some (A ++ (y :: X) ++ B ++ (x :: Y) ++ C)).
  { rewrite (Hre y y), (Hre y x). apply aset_mid. rewrite !zlen_app, !zlen_cons. lia. }
  unfold swap_byte. rewrite H1. cbn [mbind option_bind]. rewrite H2. cbn [mbind option_bind]. rewrite H3.
  cbn [mbind option_bind]. rewrite H4. cbn [mbind option_bind].
  replace ((A ++ [y]) ++ X ++ (B ++ [x]) ++ Y ++ C) with (A ++ (y :: X) ++ B ++ (x :: Y) ++ C)
    by by list_simplifier. done.
Qed.

Lemma generic_swap_loop fuel (A X B Y C : list Z) :
  X <> [] -> zlen Y = zlen X -> zlen X < 2 ^ 31 -> (length X <= fuel)%nat ->
  loop fuel swap_byte (A ++ X ++ B ++ Y ++ C, zlen A, zlen A + zlen X + zlen B, zlen X) = Some (A ++ Y ++ B ++ X ++ C).
Proof.
  revert A X B Y. induction fuel as [|fuel IH]; intros A X B Y Hne HY Hlt Hf; [by destruct X; simpl in *; [|lia]|].
  destruct X as [|x X]; [done|]. destruct Y as [|y Y]; [by apply symmetry, zlen_nil_inv in HY|].
  rewrite loop_S, swap_byte_spec. cbv zeta. rewrite !zlen_cons in *. pose proof (zlen_nonneg X).
  rewrite s32_small by lia. replace (zlen X + 1 - 1) with (zlen X) by lia. destruct (Z.ltb_spec 0 (zlen X)).
  - replace (zlen A + 1) with (zlen (A ++ [y])) by (by rewrite zlen_app).
    replace (zlen A + (zlen X + 1) + zlen B + 1) with (zlen (A ++ [y]) + zlen X + zlen (B ++ [x]))
      by (rewrite !zlen_app; unfold zlen; simpl; lia).
    rewrite IH; [by rewrite <- !app_assoc| |lia|lia|simpl in Hf; lia]. by destruct X.
  - assert (HX : X = []) by (apply zlen_nil_inv; lia). assert (HY0 : Y = []) by (apply zlen_nil_inv; lia). subst.
    by rewrite <- !app_assoc.
Qed.

Lemma generic_swap_spec size : 1 <= size < 2 ^ 31 -> swaps generic_swap size.
Proof.
  intros Hs A X B Y C HX HY. unfold generic_swap. rewrite s32_small by lia. fold swap_byte. rewrite <- HX.
  apply generic_swap_loop; [|lia|lia|unfold zlen; lia]. intros ->. unfold zlen in HX. simpl in HX. lia.
Qed.

(** ** Arrays of elements *)

Section bytes.
Context (size : Z) (Hsize : 1 <= size).

Definition sized (l : list (list Z)) : Prop := Forall (fun e => zlen e = size) l.

Lemma concat_zlen l : sized l -> zlen (concat l) = size * zlen l.
Proof using Type.
  induction l as [|e l IH]; intros Hl; [simpl; unfold zlen; simpl; lia|].
  apply Forall_cons_iff in Hl as [He Hl]. simpl. rewrite zlen_app, zlen_cons, IH by done. lia.
Qed.

Lemma elements_split (l : list (list Z)) i j :
  (i < j < length l)%nat ->
  exists la lb lc, l = la ++ (l !!! i) :: lb ++ (l !!! j) :: lc /\ length la = i /\ (length lb = j - i - 1)%nat.
Proof using Type.
  intros Hij. assert (Hi : l !! i = Some (l !!! i)) by (apply list_lookup_lookup_total_lt; lia).
  assert (Hj : l !! j = Some (l !!! j)) by (apply list_lookup_lookup_total_lt; lia).
  exists (take i l), (take (j - i - 1) (drop (S i) l)), (drop (S j) l).
  split_and!; [|rewrite length_take; lia|rewrite length_take, length_drop; lia].
  rewrite <- (take_drop i l) at 1. f_equal. rewrite (drop_S _ _ _ Hi). f_equal.
  rewrite <- (take_drop (j - i - 1) (drop (S i) l)) at 1. f_equal.
  rewrite drop_drop. replace (S i + (j - i - 1))%nat with j by lia. by apply drop_S.
Qed.

Lemma load_element (l : list (list Z)) i : sized l -> (i < length l)%nat -> load_bytes (concat l) (size * Z.of_nat i) size = Some (l !!! i).
Proof using Type.
  intros Hl Hi. assert (Hx : l !! i = Some (l !!! i)) by (by apply list_lookup_lookup_total_lt).
  pose proof (take_drop_middle _ _ _ Hx) as Heq. rewrite <- Heq at 1. rewrite concat_app. simpl.
  apply load_mid.
  - rewrite concat_zlen by (by apply list.Forall_take). unfold zlen. rewrite length_take. f_equal. lia.
  - symmetry. unfold sized in Hl. rewrite list.Forall_lookup in Hl. by eapply Hl.
Qed.

Lemma swap_elements f l i j :
  swaps f size -> sized l -> (i < j < length l)%nat ->
  f (concat l) (size * Z.of_nat i) (size * Z.of_nat j) (s32 size) = Some (concat (exchange l i j)).
Proof using Type.
  intros Hf Hl Hij. destruct (elements_split l i j Hij) as (la & lb & lc & Heq & Hla & Hlb).
  assert (Hx : exchange l i j = la ++ (l !!! j) :: lb ++ (l !!! i) :: lc).
  { unfold exchange. generalize dependent (l !!! i). intros x. generalize (l !!! j). intros y ->.
    replace j with (length (la ++ x :: lb) + 0)%nat by (rewrite length_app; simpl; lia).
    rewrite app_comm_cons, app_assoc, insert_app_r. simpl. rewrite <- app_assoc. simpl.
    by replace i with (length la + 0)%nat by lia; rewrite insert_app_r. }
  assert (Hsz := Hl). rewrite Heq in Hsz. unfold sized in Hsz. rewrite Forall_app, Forall_cons_iff, Forall_app, Forall_cons_iff in Hsz.
  destruct Hsz as (Hsa & Hsi & Hsb & Hsj & _). rewrite Hx, Heq at 1. rewrite !concat_app. cbn [concat].
  rewrite !concat_app. cbn [concat]. rewrite <- (Hf (concat la) (l !!! i) (concat lb) (l !!! j) (concat lc)) by done.
  f_equal; rewrite !concat_zlen by done; unfold zlen; rewrite ?Hla, ?Hlb; [done|].
  replace (Z.of_nat (j - i - 1)) with (Z.of_nat j - Z.of_nat i - 1) by lia. lia.
Qed.

Lemma exchange_sized l i j : (i < length l)%nat -> (j < length l)%nat -> sized l -> sized (exchange l i j).
Proof using Type. intros Hi Hj Hl. unfold sized. by rewrite (exchange_perm l i j). Qed.

Context (cmp : list Z -> list Z -> Z) (f : list Z -> Z -> Z -> Z -> option (list Z)) (Hf : swaps f size).

Lemma cmp_elements l i j :
  sized l -> (i < length l)%nat -> (j < length l)%nat ->
  cmp_at cmp size (concat l) (size * Z.of_nat i) (size * Z.of_nat j) = Some (cmp (l !!! i) (l !!! j)).
Proof using Type. intros. unfold cmp_at. by rewrite !load_element by done. Qed.

(** The loop test on offsets, although [r * 2] may not fit an [int]. *)
Lemma sift_test k m :
  0 <= k < m -> size * m < 2 ^ 31 ->
  (u64 (s32 (size * k * 2) + size) <? u64 (size * m)) = (2 * k + 1 <? m).
Proof using Hsize.
  intros Hk Hm. rewrite (wrap_small 64 (size * m)) by (unfold is_word; nia).
  assert (size * k + size <= size * m) by nia. assert (0 <= size * k) by nia.
  destruct (Z.lt_ge_cases (size * k * 2) (2 ^ 31)) as [Hr|Hr].
  - rewrite s32_small by lia. rewrite wrap_small by (unfold is_word; lia).
    destruct (Z.ltb_spec (size * k * 2 + size) (size * m)), (Z.ltb_spec (2 * k + 1) m); try done; nia.
  - assert (Hs : s32 (size * k * 2) = size * k * 2 - 2 ^ 32).
    { unfold s32. replace (size * k * 2 + 2 ^ 31) with (size * k * 2 - 2 ^ 31 + 1 * 2 ^ 32) by lia.
      rewrite Z.mod_add by lia. rewrite Z.mod_small by lia. lia. }
    rewrite Hs. assert (Hu : u64 (size * k * 2 - 2 ^ 32 + size) = size * k * 2 - 2 ^ 32 + size + 2 ^ 64).
    { unfold wrap. rewrite <- (Z.mod_add _ 1) by lia. rewrite Z.mod_small by lia. lia. }
    rewrite Hu. destruct (Z.ltb_spec (size * k * 2 - 2 ^ 32 + size + 2 ^ 64) (size * m)), (Z.ltb_spec (2 * k + 1) m);
      try done; nia.
Qed.

Lemma child_offset k m :
  0 <= k -> 2 * k + 1 < m -> size * m < 2 ^ 31 ->
  s32 (u64 (s32 (size * k * 2) + size)) = size * (2 * k + 1).
Proof using Hsize.
  intros Hk Hm Hs. assert (size * (2 * k + 1) + size <= size * m) by nia. assert (0 <= size * k) by nia.
  rewrite (s32_small (size * k * 2)) by lia. rewrite s32_u64 by lia. lia.
Qed.

Lemma sibling_test k m :
  0 <= k -> 2 * k + 1 < m -> size * m < 2 ^ 31 ->
  (u64 (size * (2 * k + 1)) <? u64 (u64 (size * m) - size)) = (2 * k + 1 <? m - 1).
Proof using Hsize.
  intros Hk Hm Hs. assert (size * (2 * k + 1) + size <= size * m) by nia. assert (0 <= size * k) by nia.
  rewrite (wrap_small 64 (size * m)) by (unfold is_word; lia). rewrite !wrap_small by (unfold is_word; lia).
  destruct (Z.ltb_spec (size * (2 * k + 1)) (size * m - size)), (Z.ltb_spec (2 * k + 1) (m - 1)); try done; nia.
Qed.

Lemma sift_refines fuel e (m k : nat) l :
  sized l -> (m <= length l)%nat -> (k < m)%nat -> size * Z.of_nat m < 2 ^ 31 -> (m <= e + k)%nat -> (e < fuel)%nat ->
  sift cmp f fuel size (size * Z.of_nat m) (concat l) (size * Z.of_nat k) = Some (concat (sift_elements cmp e m l k)).
Proof using Hsize Hf.
  revert fuel k l. induction e as [|e IH]; intros fuel k l Hl Hm Hk Hs He Hfu; [lia|].
  destruct fuel as [|fuel]; [lia|]. unfold sift. rewrite loop_S. cbv beta iota.
  rewrite (sift_test (Z.of_nat k) (Z.of_nat m)) by lia. cbn [sift_elements].
  destruct (Z.ltb_spec (2 * Z.of_nat k + 1) (Z.of_nat m)) as [Hc|Hc], (Nat.ltb_spec (2 * k + 1) m) as [Hc'|Hc'];
    try lia; [|done].
  cbv zeta. rewrite (child_offset (Z.of_nat k) (Z.of_nat m)), (sibling_test (Z.of_nat k) (Z.of_nat m)) by lia.
  assert (Hch : (if 2 * Z.of_nat k + 1 <? Z.of_nat m - 1
     then v ← cmp_at cmp size (concat l) (size * (2 * Z.of_nat k + 1)) (size * (2 * Z.of_nat k + 1) + size);
          Some (if v <? 0 then s32 (u64 (size * (2 * Z.of_nat k + 1) + size)) else size * (2 * Z.of_nat k + 1))
     else Some (size * (2 * Z.of_nat k + 1))) = Some (size * Z.of_nat (larger_child cmp l m k))).
  { unfold larger_child. replace (2 * Z.of_nat k + 1) with (Z.of_nat (2 * k + 1)) by lia.
    destruct (Z.ltb_spec (Z.of_nat (2 * k + 1)) (Z.of_nat m - 1)), (Nat.ltb_spec (2 * k + 1) (m - 1)); try lia; cbn [andb]; [|done].
    replace (size * Z.of_nat (2 * k + 1) + size) with (size * Z.of_nat (S (2 * k + 1))) by lia.
    rewrite cmp_elements by (done || lia). cbn [mbind option_bind]. destruct (_ <? 0); [|done].
    rewrite s32_u64; [done|]. nia. }
  rewrite Hch. cbn [mbind option_bind]. destruct (larger_child_range cmp l m k Hc') as [Hcr Hcm].
  rewrite cmp_elements by (done || lia). cbn [mbind option_bind]. destruct (0 <=? _); [done|].
  rewrite (swap_elements f) by (done || lia). cbn [mbind option_bind].
  apply (IH fuel); try lia; [apply exchange_sized; (done || lia)|by rewrite exchange_length].
Qed.

Lemma perm_sized l l' : l' ≡ₚ l -> sized l -> sized l'.
Proof using Type. unfold sized. by intros ->. Qed.

Lemma build_refines fuel fuel2 (m k : nat) l :
  sized l -> (m <= length l)%nat -> (k < m \/ k = 0)%nat -> size <= 2 ^ 31 -> size * Z.of_nat m < 2 ^ 31 ->
  (m < fuel2)%nat -> (k < fuel)%nat ->
  loop fuel (fun '(base, i) =>
    if 0 <=? i then
      base ← sift cmp f fuel2 size (size * Z.of_nat m) base i;
      Some (Next (base, s32 (u64 (i - size))))
    else Some (Done base)) (concat l, size * Z.of_nat k - size) = Some (concat (build_heap cmp m m l k)).
Proof using Hsize Hf.
  revert fuel l. induction k as [|k IH]; intros fuel l Hl Hm Hk Hsz Hs Hf2 Hfu; (destruct fuel as [|fuel]; [lia|]);
    rewrite loop_S; cbv beta iota.
  - destruct (Z.leb_spec 0 (size * Z.of_nat 0 - size)); [lia|]. done.
  - replace (size * Z.of_nat (S k) - size) with (size * Z.of_nat k) by lia.
    destruct (Z.leb_spec 0 (size * Z.of_nat k)); [|nia].
    rewrite (sift_refines fuel2 m) by (done || lia). cbn [mbind option_bind build_heap].
    rewrite s32_u64 by nia. destruct (sift_shuffles cmp m m l k Hm) as (Hp & _).
    apply IH; try lia; [by eapply perm_sized|by rewrite sift_length].
Qed.

Lemma take_refines fuel fuel2 (i : nat) l :
  sized l -> (i < length l)%nat -> size * zlen l < 2 ^ 31 -> (length l < fuel2)%nat -> (i < fuel)%nat ->
  loop fuel (fun '(base, i) =>
    if 0 <? i then
      base ← f base 0 i (s32 size);
      base ← sift cmp f fuel2 size i base 0;
      Some (Next (base, s32 (u64 (i - size))))
    else Some (Done base)) (concat l, size * Z.of_nat i) = Some (concat (take_largest cmp (length l) l i)).
Proof using Hsize Hf.
  revert fuel l. induction i as [|i IH]; intros fuel l Hl Hi Hs Hf2 Hfu; (destruct fuel as [|fuel]; [lia|]);
    rewrite loop_S; cbv beta iota.
  - destruct (Z.ltb_spec 0 (size * Z.of_nat 0)); [lia|]. done.
  - destruct (Z.ltb_spec 0 (size * Z.of_nat (S i))); [|nia].
    pose proof (swap_elements f l 0 (S i) Hf Hl ltac:(lia)) as Hsw. change (Z.of_nat 0) with 0 in Hsw.
    rewrite Z.mul_0_r in Hsw. rewrite Hsw. cbn [mbind option_bind].
    unfold zlen in Hs. assert (size * Z.of_nat (S i) <= size * Z.of_nat (length l)) by nia.
    set (l1 := exchange l 0 (S i)). assert (Hl1 : length l1 = length l) by apply exchange_length.
    assert (sized l1) by (apply exchange_sized; (done || lia)).
    pose proof (sift_refines fuel2 (length l) (S i) 0 l1) as Hsi. change (Z.of_nat 0) with 0 in Hsi.
    rewrite Z.mul_0_r in Hsi. rewrite Hsi by (done || lia). cbn [mbind option_bind take_largest].
    rewrite s32_u64 by nia. fold l1.
    replace (size * Z.of_nat (S i) - size) with (size * Z.of_nat i) by lia.
    set (l2 := sift_elements cmp (length l) (S i) l1 0).
    destruct (sift_shuffles cmp (length l) (S i) l1 0) as (Hp & _); [lia|]. fold l2 in Hp.
    assert (Hl2 : length l2 = length l) by (by rewrite <- Hl1; apply Permutation_length).
    rewrite <- Hl2. apply IH; try (unfold zlen; lia). by eapply perm_sized.
Qed.
End bytes.

(** * The claim *)

Lemma swap_choice size (swap_func : option (list Z -> Z -> Z -> Z -> option (list Z))) :
  1 <= size < 2 ^ 31 -> match swap_func with Some f => swaps f size | None => True end ->
  swaps (match swap_func with Some f => f | None => if size =? 4 then u32_swap else generic_swap end) size.
Proof.
  intros Hs Hf. destruct swap_func; [done|]. destruct (Z.eqb_spec size 4) as [->|]; [apply u32_swap_spec|].
  by apply generic_swap_spec.
Qed.

Lemma sort_elements size cmp swap_func l :
  1 <= size < 2 ^ 31 -> size * zlen l < 2 ^ 31 -> sized size l ->
  match swap_func with Some f => swaps f size | None => True end ->
  sort (S (length l)) (concat l) (zlen l) size cmp swap_func =
  Some (concat (take_largest cmp (length l) (build_heap cmp (length l) (length l) l (length l / 2)) (length l - 1))).
Proof.
  intros Hs Hn Hl Hf. pose proof (swap_choice size swap_func Hs Hf) as Hswap. unfold sort.
  set (f := match swap_func with Some f => f | None => _ end) in *. unfold zlen in *.
  assert (Hdiv : Z.of_nat (length l) / 2 = Z.of_nat (length l / 2)) by (by rewrite Nat2Z.inj_div).
  assert (Hhalf : (length l / 2 < length l \/ length l / 2 = 0)%nat).
  { destruct (length l) as [|n]; [by right|left]. apply Nat.div_lt; lia. }
  assert (size * Z.of_nat (length l / 2) <= size * Z.of_nat (length l)) by nia.
  assert (Hi : s32 (u64 (u64 (Z.of_nat (length l) / 2 - 1) * size)) = size * Z.of_nat (length l / 2) - size).
  { assert (Hu : forall a, u64 (u64 a * size) = u64 (a * size)) by (intros; apply Zmult_mod_idemp_l).
    rewrite Hu, Hdiv, s32_u64; lia. }
  assert (Hnn : s32 (u64 (Z.of_nat (length l) * size)) = size * Z.of_nat (length l)) by (rewrite s32_u64; lia).
  rewrite Hi, Hnn. rewrite (build_refines size ltac:(lia) cmp f Hswap) by (done || lia). cbn [mbind option_bind].
  pose proof (build_heap_perm cmp (length l) (length l) l (length l / 2) ltac:(lia)) as Hp.
  set (l1 := build_heap cmp _ _ l _) in *. pose proof (Permutation_length Hp) as Hlen.
  rewrite s32_u64 by lia. destruct l as [|x l].
  { rewrite loop_S. cbv beta iota. by destruct (Z.ltb_spec 0 (size * Z.of_nat (length (@nil (list Z))) - size));
      [simpl in *; lia|]. }
  replace (size * Z.of_nat (length (x :: l)) - size) with (size * Z.of_nat (length (x :: l) - 1)) by (simpl length; lia).
  rewrite <- Hlen. apply (take_refines size ltac:(lia) cmp f Hswap); try (unfold zlen; rewrite Hlen; simpl length in *; lia).
  by eapply perm_sized.
Qed.

(** C17 (functional): sorting an array of elements of any size of at least one byte,
    of less than 2^31 bytes in all, ends and permutes the elements, whatever the
    comparison answers; both built-in swap functions do what a supplied one has
    to do.  If the comparison is that of an order (what compares at least as
    large compares at most as small the other way round, and the relation is
    transitive), the result is sorted. *)
Theorem sort_correct size cmp swap_func l :
  1 <= size -> size * zlen l < 2 ^ 31 -> size < 2 ^ 31 -> Forall (fun e => zlen e = size) l ->
  match swap_func with Some f => swaps f size | None => True end ->
  exists l', sort (S (length l)) (concat l) (zlen l) size cmp swap_func = Some (concat l') /\ l' ≡ₚ l /\
    ((forall x y, 0 <= cmp x y -> cmp y x <= 0) ->
     (forall x y z, cmp x y <= 0 -> cmp y z <= 0 -> cmp x z <= 0) ->
     forall i j, (i < j < length l')%nat -> cmp (l' !!! i) (l' !!! j) <= 0).
Proof.
  intros Hs Hn Hs2 Hl Hf. eexists. split; [by apply sort_elements|].
  pose proof (build_heap_perm cmp (length l) (length l) l (length l / 2) ltac:(lia)) as Hp.
  set (l1 := build_heap cmp _ _ l _) in *. pose proof (Permutation_length Hp) as Hlen.
  destruct (decide (length l = 0)%nat) as [H0|H0].
  { apply nil_length_inv in H0. subst l. simpl in *. split; [done|]. intros. simpl in *. lia. }
  split; [rewrite take_largest_perm by lia; done|]. intros Hsym Htrans i j Hij.
  apply (take_largest_sorted cmp Hsym Htrans (length l) l1 (length l - 1)); try lia.
  - replace (S (length l - 1)) with (length l) by lia. apply build_heap_spec; try done.
    intros p c Hp' Hc Hcm. unfold child_of in Hc. pose proof (Nat.div_mod_eq (length l) 2).
    pose proof (Nat.mod_upper_bound (length l) 2 ltac:(lia)). lia.
  - intros x y Hxy Hy. lia.
Qed.

Lemma sort_correct_witness :
  (exists l', sort 6 (concat [[3; 0]; [1; 7]; [2; 0]; [1; 2]; [9; 9]]) 5 2
      (fun x y => default 0 (head x) - default 0 (head y)) None = Some (concat l') /\
    forall i j, (i < j < length l')%nat -> default 0 (head (l' !!! i)) - default 0 (head (l' !!! j)) <= 0) /\
  sort 6 [3; 0; 1; 7; 2; 0; 1; 2; 9; 9] 5 2 (fun x y => default 0 (head x) - default 0 (head y)) None =
    Some [1; 7; 1; 2; 2; 0; 3; 0; 9; 9] /\
  swaps generic_swap 2.
Proof.
  split; [|split; [vm_compute; reflexivity|by apply generic_swap_spec]].
  destruct (sort_correct 2 (fun x y => default 0 (head x) - default 0 (head y)) None
    [[3; 0]; [1; 7]; [2; 0]; [1; 2]; [9; 9]]) as (l' & Heq & _ & Hsorted);
    [lia|vm_compute; reflexivity|lia|repeat constructor|done|].
  exists l'. split; [exact Heq|]. apply Hsorted; intros; lia.
Defined.
