(* ===== verification/Arith.v ===== *)
(** Integer arithmetic of lib/: [gcd] and [lcm], [int_sqrt], the 64-bit division that
    32-bit machines use (lib/div64.c with asm-generic/div64.h and linux/math64.h) and
    division by multiplication with a reciprocal (lib/reciprocal_div.c).

    Each routine is compared with the operation of mathematics it stands for:
    exactly, within a bound, or under a condition. *)
From Stdlib Require Import ZArith Lia Bool.
From stdpp Require Import base numbers list option.
From S2P Require Import Prelude.

Local Open Scope Z_scope.

(** * Definitions *)

(** ** gcd.c, lcm.c *)

(** [a % b], a trap for [b = 0]. *)
Definition umod (a b : Z) : option Z := if b =? 0 then None else Some (a mod b).
Definition udiv (a b : Z) : option Z := if b =? 0 then None else Some (a / b).

Definition gcd (a b : Z) : option Z :=
  let '(a, b) := if a <? b then (b, a) else (a, b) in
  loop 130 (fun '(a, b) =>
    r ← umod a b;
    Some (if negb (r =? 0) then Next (b, r) else Done b)) (a, b).

Definition lcm (a b : Z) : option Z :=
  if negb (a =? 0) && negb (b =? 0) then g ← gcd a b; udiv (u64 (a * b)) g
  else if negb (b =? 0) then Some b
  else Some a.

(** ** int_sqrt.c *)

Definition int_sqrt (x : Z) : option Z :=
  one ← loop 40 (fun one => Some (if x <? one then Next (Z.shiftr one 2) else Done one)) (shl64 1 62);
  loop 40 (fun '(op, res, one) =>
    Some (if negb (one =? 0) then
            let '(op, res) := if u64 (res + one) <=? op
                              then (u64 (op - u64 (res + one)), u64 (res + u64 (2 * one)))
                              else (op, res) in
            Next (op, res / 2, one / 4)
          else Done res)) (x, 0, one).

(** ** 64-bit division on a 32-bit machine *)

(** The quotient, stored at [n], and the remainder. *)
Definition __div64_32 (n base : Z) : option (Z * Z) :=
  let rem := n in
  let high := u32 (Z.shiftr rem 32) in
  '(res, rem) ←
    (if base <=? high then
       high ← udiv high base;
       Some (u64 (Z.shiftl high 32), u64 (rem - u64 (Z.shiftl (u32 (high * base)) 32)))
     else Some (0, rem));
  '(b, d) ← loop 70 (fun '(b, d) =>
    Some (if (0 <? s64 b) && (b <? rem) then Next (u64 (b + b), u64 (d + d)) else Done (b, d))) (base, 1);
  '(rem, res) ← loop 70 (fun '(rem, res, b, d) =>
    let '(rem, res) := if b <=? rem then (u64 (rem - b), u64 (res + d)) else (rem, res) in
    let b := Z.shiftr b 1 in
    let d := Z.shiftr d 1 in
    Some (if negb (d =? 0) then Next (rem, res, b, d) else Done (rem, res))) (rem, res, b, d);
  Some (res, u32 rem).

Definition do_div (n base : Z) : option (Z * Z) :=
  if Z.shiftr n 32 =? 0 then
    r ← umod (u32 n) base;
    q ← udiv (u32 n) base;
    Some (q, r)
  else __div64_32 n base.

Definition div_u64_rem (dividend divisor : Z) : option (Z * Z) := do_div dividend divisor.

Definition div_u64 (dividend divisor : Z) : option Z :=
  '(q, _) ← div_u64_rem dividend divisor; Some q.

(** [abs] of a 32-bit [long], converted to [u32]. *)
Definition abs32 (x : Z) : Z := u32 (if x <? 0 then s32 (- x) else x).

(** Quotient and remainder. *)
Definition div_s64_rem (dividend divisor : Z) : option (Z * Z) :=
  if dividend <? 0 then
    '(quotient, remainder) ← div_u64_rem (u64 (- dividend)) (abs32 divisor);
    Some (s64 (if 0 <? divisor then u64 (- quotient) else quotient), s32 (- s32 remainder))
  else
    '(quotient, remainder) ← div_u64_rem dividend (abs32 divisor);
    Some (s64 (if divisor <? 0 then u64 (- quotient) else quotient), s32 remainder).

(** One test of [fls]: the upper [k] bits of [x] are zero. *)
Definition fls_narrow (mask k : Z) (xr : Z * Z) : Z * Z :=
  let '(x, r) := xr in if Z.land x mask =? 0 then (u32 (Z.shiftl x k), r - k) else (x, r).

Definition fls (x : Z) : Z :=
  let x := u32 x in
  if x =? 0 then 0 else
  snd (fls_narrow 0x80000000 1 (fls_narrow 0xc0000000 2 (fls_narrow 0xf0000000 4
    (fls_narrow 0xff000000 8 (fls_narrow 0xffff0000 16 (x, 32)))))).

Definition div64_u64 (dividend divisor : Z) : option Z :=
  let high := u32 (Z.shiftr divisor 32) in
  if negb (high =? 0) then
    let shift := fls high in
    div_u64 (Z.shiftr dividend shift) (u32 (Z.shiftr divisor shift))
  else div_u64 dividend (u32 divisor).

(** Returns the quotient and the remainder. *)
Definition __iter_div_u64_rem (fuel : nat) (dividend divisor : Z) : option (Z * Z) :=
  loop fuel (fun '(dividend, ret) =>
    Some (if divisor <=? dividend then Next (u64 (dividend - divisor), u32 (ret + 1))
          else Done (ret, dividend))) (dividend, 0).

Definition iter_div_u64_rem (fuel : nat) (dividend divisor : Z) : option (Z * Z) :=
  __iter_div_u64_rem fuel dividend divisor.

(** ** reciprocal_div.c *)

Definition reciprocal_value (k : Z) : option Z :=
  '(val, _) ← do_div (u64 (Z.shiftl 1 32 + u32 (k - 1))) k;
  Some (u32 val).

Definition reciprocal_divide (A R : Z) : Z := u32 (Z.shiftr (u64 (A * R)) 32).

(** * Greatest common divisors *)

Definition gcd_step : Z * Z -> option (ctl (Z * Z) Z) :=
  fun '(a, b) => r ← umod a b; Some (if negb (r =? 0) then Next (b, r) else Done b).

Lemma gcd_step_eq a b : 0 < b ->
  gcd_step (a, b) = Some (if a mod b =? 0 then Done b else Next (b, a mod b)).
Proof.
  intros Hb. unfold gcd_step, umod. destruct (Z.eqb_spec b 0); [lia|]. simpl. by destruct (a mod b =? 0).
Qed.

(** Two rounds halve the smaller number. *)
Lemma gcd_loop n fuel a b :
  0 <= a -> 0 < b < 2 ^ Z.of_nat n -> (2 * n <= fuel)%nat -> loop fuel gcd_step (a, b) = Some (Z.gcd a b).
Proof.
  revert fuel a b. induction n as [|n IH]; intros fuel a b Ha Hb Hf; [simpl in Hb; lia|].
  destruct fuel as [|[|fuel]]; [lia|lia|]. rewrite Nat2Z.inj_succ, Z.pow_succ_r in Hb by lia.
  rewrite loop_S, gcd_step_eq by lia. pose proof (Z.mod_pos_bound a b ltac:(lia)).
  assert (Hg : Z.gcd a b = Z.gcd b (a mod b)) by (rewrite (Z.gcd_comm b (a mod b)), Z.gcd_mod by lia; apply Z.gcd_comm).
  destruct (Z.eqb_spec (a mod b) 0) as [H0|H0]; [rewrite Hg, H0, Z.gcd_0_r_nonneg by lia; done|].
  destruct (Z.lt_ge_cases (a mod b) (2 ^ Z.of_nat n)); [rewrite Hg; apply IH; lia|].
  set (r := a mod b) in *. rewrite loop_S, gcd_step_eq by lia.
  assert (Hg2 : Z.gcd b r = Z.gcd r (b mod r)) by (rewrite (Z.gcd_comm r (b mod r)), Z.gcd_mod by lia; apply Z.gcd_comm).
  assert (Hbr : b mod r = b - r) by (rewrite <- (Z.mod_add b (-1)) by lia; rewrite Z.mod_small; lia).
  rewrite Hg, Hg2. destruct (Z.eqb_spec (b mod r) 0) as [Hz|Hz]; [rewrite Hz, Z.gcd_0_r_nonneg by lia; done|].
  apply IH; lia.
Qed.

Lemma gcd_spec a b : is_u64 a -> is_u64 b -> 0 < a -> 0 < b -> gcd a b = Some (Z.gcd a b).
Proof.
  intros Ha Hb Hpa Hpb. unfold gcd. fold gcd_step. unfold is_word in *.
  destruct (Z.ltb_spec a b); [rewrite Z.gcd_comm|]; apply (gcd_loop 64); lia.
Qed.

(** A zero operand ends in a division by zero. *)
Lemma gcd_zero a : 0 <= a -> gcd a 0 = None /\ gcd 0 a = None.
Proof.
  intros Ha. unfold gcd. fold gcd_step. destruct (Z.ltb_spec a 0); [lia|]. split; [done|].
  by destruct (Z.ltb_spec 0 a); [|replace a with 0 by lia].
Qed.

Lemma lcm_spec a b : is_u64 a -> is_u64 b -> a * b < 2 ^ 64 ->
  lcm a b = Some (if (a =? 0) || (b =? 0) then Z.max a b else Z.lcm a b).
Proof.
  intros Ha Hb Hab. unfold lcm. destruct (Z.eqb_spec a 0) as [->|Ha0], (Z.eqb_spec b 0) as [->|Hb0]; simpl.
  - done.
  - f_equal. unfold is_word in *. lia.
  - f_equal. unfold is_word in *. lia.
  - unfold is_word in *. rewrite gcd_spec by (unfold is_word; lia). simpl. unfold udiv.
    assert (0 < Z.gcd a b) by (pose proof (Z.gcd_nonneg a b); pose proof (Z.gcd_eq_0_l a b); lia).
    destruct (Z.eqb_spec (Z.gcd a b) 0); [lia|]. rewrite wrap_small by (unfold is_word; nia). f_equal.
    unfold Z.lcm. rewrite Z.abs_eq.
    + by rewrite Z.divide_div_mul_exact by (try lia; apply Z.gcd_divide_r).
    + apply Z.mul_nonneg_nonneg; [lia|]. apply Z.div_pos; lia.
Qed.

(** * Square roots *)

Lemma pow4 k : 0 <= k -> 2 ^ (2 * k) = 2 ^ k * 2 ^ k.
Proof. intros. by rewrite <- Z.pow_add_r, Z.add_diag by lia. Qed.

Definition sqrt_step : Z * Z * Z -> option (ctl (Z * Z * Z) Z) :=
  fun '(op, res, one) =>
    Some (if negb (one =? 0) then
            let '(op, res) := if u64 (res + one) <=? op
                              then (u64 (op - u64 (res + one)), u64 (res + u64 (2 * one)))
                              else (op, res) in
            Next (op, res / 2, one / 4)
          else Done res).

(** One bit: [r] is the root so far and [t] the bit under trial. *)
Lemma sqrt_step_spec x r t :
  0 < t -> 0 <= r -> r * r <= x < 2 ^ 64 -> r + 2 * t <= 2 ^ 32 ->
  let r' := if (r + t) * (r + t) <=? x then r + t else r in
  sqrt_step (x - r * r, r * (2 * t), t * t) = Some (Next (x - r' * r', r' * t, t * t / 4)).
Proof.
  intros Ht Hr Hx Hle r'. unfold sqrt_step. destruct (Z.eqb_spec (t * t) 0); [nia|]. cbn [negb].
  assert (r * (2 * t) + 2 * (t * t) < 2 ^ 64) by nia.
  rewrite (wrap_small 64 (r * (2 * t) + t * t)) by (unfold is_word; nia).
  rewrite (wrap_small 64 (2 * (t * t))) by (unfold is_word; nia).
  rewrite (wrap_small 64 (r * (2 * t) + 2 * (t * t))) by (unfold is_word; nia). subst r'.
  destruct (Z.leb_spec (r * (2 * t) + t * t) (x - r * r)), (Z.leb_spec ((r + t) * (r + t)) x); try nia.
  - rewrite wrap_small by (unfold is_word; nia). do 2 f_equal. f_equal. f_equal; [nia|].
    replace (r * (2 * t) + 2 * (t * t)) with ((r + t) * t * 2) by lia. by apply Z.div_mul.
  - do 2 f_equal. f_equal. f_equal. replace (r * (2 * t)) with (r * t * 2) by lia. by apply Z.div_mul.
Qed.

(** [r] is the root found so far; its bits below [2^k] are still to come. *)
Lemma sqrt_loop (k : nat) fuel x r :
  0 <= r -> r * r <= x < 2 ^ 64 -> x < (r + 2 ^ Z.of_nat k) * (r + 2 ^ Z.of_nat k) ->
  r + 2 ^ Z.of_nat k <= 2 ^ 32 -> (k < fuel)%nat ->
  loop fuel sqrt_step (x - r * r, r * 2 ^ Z.of_nat k, 2 ^ (2 * Z.of_nat k) / 4) = Some (Z.sqrt x).
Proof.
  revert fuel r. induction k as [|k IH]; intros fuel r Hr Hx Hlt Hle Hf; (destruct fuel as [|fuel]; [lia|]); rewrite loop_S.
  - simpl. rewrite Z.mul_1_r. f_equal. symmetry. apply Z.sqrt_unique. simpl in Hlt. lia.
  - rewrite pow4, Nat2Z.inj_succ in * by lia. rewrite !Z.pow_succ_r in * by lia.
    set (t := 2 ^ Z.of_nat k) in *. assert (0 < t) by (apply Z.pow_pos_nonneg; lia).
    replace (2 * t * (2 * t) / 4) with (t * t) by (replace (2 * t * (2 * t)) with (t * t * 4) by lia; by rewrite Z.div_mul).
    rewrite sqrt_step_spec by lia.
    destruct (Z.leb_spec ((r + t) * (r + t)) x); apply IH; subst t; try lia; nia.
Qed.

(** The first loop: the highest power of 4 that is at most [x], or 0. *)
Lemma sqrt_start (k : nat) fuel x :
  0 <= x < 2 ^ (2 * Z.of_nat k) -> (k < fuel)%nat ->
  exists j : nat, (j <= k)%nat /\ x < 2 ^ (2 * Z.of_nat j) /\
    loop fuel (fun one => Some (if x <? one then Next (Z.shiftr one 2) else Done one)) (2 ^ (2 * Z.of_nat k) / 4) =
    Some (2 ^ (2 * Z.of_nat j) / 4).
Proof.
  revert fuel. induction k as [|k IH]; intros fuel Hx Hf; (destruct fuel as [|fuel]; [lia|]); rewrite loop_S.
  - exists 0%nat. change (2 ^ (2 * Z.of_nat 0) / 4) with 0. destruct (Z.ltb_spec x 0); [lia|]. split_and!; (done || lia).
  - destruct (Z.ltb_spec x (2 ^ (2 * Z.of_nat (S k)) / 4)) as [Hlt|Hge].
    + assert (H4 : 2 ^ (2 * Z.of_nat (S k)) / 4 = 2 ^ (2 * Z.of_nat k)).
      { replace (2 * Z.of_nat (S k)) with (2 * Z.of_nat k + 2) by lia. rewrite Z.pow_add_r by lia. by apply Z.div_mul. }
      rewrite H4 in *. rewrite Z.shiftr_div_pow2 by lia. destruct (IH fuel) as (j & ? & ? & ?); [lia|lia|].
      exists j. split_and!; (done || lia).
    + exists (S k). split_and!; (done || lia).
Qed.

Lemma int_sqrt_spec x : is_u64 x -> int_sqrt x = Some (Z.sqrt x).
Proof.
  intros Hx. unfold int_sqrt. change (shl64 1 62) with (2 ^ (2 * Z.of_nat 32) / 4). unfold is_word in Hx.
  destruct (sqrt_start 32 40 x) as (j & Hj & Hlt & ->); [simpl; lia|lia|]. cbn [mbind option_bind]. fold sqrt_step.
  assert (2 ^ Z.of_nat j <= 2 ^ 32) by (apply Z.pow_le_mono_r; lia).
  pose proof (sqrt_loop j 40 x 0) as Hl. rewrite !Z.mul_0_l, Z.sub_0_r, !Z.add_0_l in Hl. apply Hl; try lia.
  by rewrite <- pow4 by lia.
Qed.

(** * Division *)

Lemma u64_id x : 0 <= x < 2 ^ 64 -> u64 x = x.
Proof. intros. by apply wrap_small. Qed.
Lemma u32_id x : 0 <= x < 2 ^ 32 -> u32 x = x.
Proof. intros. by apply wrap_small. Qed.

Section division.
Context (base : Z) (Hbase : 1 <= base < 2 ^ 32).

(** Doubling: a power of two times the divisor that is more than half of [rem]. *)
Lemma scale_up rem :
  0 <= rem < 2 ^ 64 ->
  exists k : nat, (k < 64)%nat /\ base * 2 ^ Z.of_nat k < 2 ^ 64 /\ rem < 2 * (base * 2 ^ Z.of_nat k) /\
  loop 70 (fun '(b, d) =>
    Some (if (0 <? s64 b) && (b <? rem) then Next (u64 (b + b), u64 (d + d)) else Done (b, d))) (base, 1) =
  Some (base * 2 ^ Z.of_nat k, 2 ^ Z.of_nat k).
Proof using Hbase.
  intros Hr.
  assert (Hgen : forall j fuel : nat, base * 2 ^ Z.of_nat j < 2 ^ 64 -> (64 <= j + fuel)%nat -> (j < 64)%nat ->
    exists k : nat, (k < 64)%nat /\ base * 2 ^ Z.of_nat k < 2 ^ 64 /\ rem < 2 * (base * 2 ^ Z.of_nat k) /\
    loop fuel (fun '(b, d) =>
      Some (if (0 <? s64 b) && (b <? rem) then Next (u64 (b + b), u64 (d + d)) else Done (b, d)))
      (base * 2 ^ Z.of_nat j, 2 ^ Z.of_nat j) = Some (base * 2 ^ Z.of_nat k, 2 ^ Z.of_nat k)).
  { intros j fuel. revert j. induction fuel as [|fuel IH]; intros j Hb Hf Hj; [lia|]. rewrite loop_S. cbv beta iota.
    assert (0 < 2 ^ Z.of_nat j) by (apply Z.pow_pos_nonneg; lia).
    assert (0 < base * 2 ^ Z.of_nat j) by nia. assert (2 ^ Z.of_nat j <= base * 2 ^ Z.of_nat j) by nia.
    unfold s64. destruct (Z.ltb_spec (base * 2 ^ Z.of_nat j) (2 ^ 63)).
    - destruct (Z.ltb_spec 0 (base * 2 ^ Z.of_nat j)); [|lia]. cbn [andb].
      destruct (Z.ltb_spec (base * 2 ^ Z.of_nat j) rem); [|exists j; split_and!; (done || lia)].
      rewrite !u64_id by lia.
      assert (Hs : 2 ^ Z.of_nat (S j) = 2 ^ Z.of_nat j + 2 ^ Z.of_nat j) by (rewrite Nat2Z.inj_succ, Z.pow_succ_r by lia; lia).
      replace (base * 2 ^ Z.of_nat j + base * 2 ^ Z.of_nat j) with (base * 2 ^ Z.of_nat (S j)) by (rewrite Hs; lia).
      rewrite <- Hs. apply IH; [rewrite Hs; lia|lia|].
      destruct (Nat.lt_ge_cases (S j) 64); [done|]. replace j with 63%nat in * by lia. exfalso. change (Z.of_nat 63) with 63 in *. nia.
    - destruct (Z.ltb_spec 0 (base * 2 ^ Z.of_nat j - 2 ^ 64)); [lia|]. cbn [andb]. exists j. split_and!; (done || lia). }
  destruct (Hgen 0%nat 70%nat) as (k & ? & ? & ? & Hl); [simpl; lia|lia|lia|]. exists k. split_and!; try done.
  change (Z.of_nat 0) with 0 in Hl. by rewrite Z.pow_0_r, Z.mul_1_r in Hl.
Qed.

(** Subtracting from the top. *)
Definition down_step : Z * Z * Z * Z -> option (ctl (Z * Z * Z * Z) (Z * Z)) :=
  fun '(rem, res, b, d) =>
    let '(rem, res) := if b <=? rem then (u64 (rem - b), u64 (res + d)) else (rem, res) in
    let b := Z.shiftr b 1 in
    let d := Z.shiftr d 1 in
    Some (if negb (d =? 0) then Next (rem, res, b, d) else Done (rem, res)).

Lemma scale_down (k : nat) fuel rem res :
  0 <= rem < 2 * (base * 2 ^ Z.of_nat k) -> 0 <= res -> res * base + rem < 2 ^ 64 -> base * 2 ^ Z.of_nat k < 2 ^ 64 ->
  (k < fuel)%nat ->
  loop fuel down_step (rem, res, base * 2 ^ Z.of_nat k, 2 ^ Z.of_nat k) =
  Some ((res * base + rem) mod base, (res * base + rem) / base).
Proof using Hbase.
  revert fuel rem res. induction k as [|k IH]; intros fuel rem res Hr Hs Hn Hb Hf; (destruct fuel as [|fuel]; [lia|]);
    rewrite loop_S; unfold down_step at 1.
  - rewrite Z.pow_0_r, Z.mul_1_r in *.
    assert (Hfin : forall q r, 0 <= r < base -> q * base + r = res * base + rem ->
      Some (r, q) = Some ((res * base + rem) mod base, (res * base + rem) / base)).
    { intros q r Hr' <-. rewrite Z.add_comm, Z.mod_add, Z.div_add, Z.mod_small, Z.div_small by lia. done. }
    destruct (Z.leb_spec base rem); simpl; [|apply Hfin; lia].
    rewrite !u64_id by nia. apply Hfin; lia.
  - assert (H2 : 2 ^ Z.of_nat (S k) = 2 ^ Z.of_nat k * 2) by (rewrite Nat2Z.inj_succ, Z.pow_succ_r by lia; lia).
    assert (0 < 2 ^ Z.of_nat k) by (apply Z.pow_pos_nonneg; lia). rewrite H2 in *. set (t := 2 ^ Z.of_nat k) in *.
    rewrite !Z.shiftr_div_pow2 by lia. change (2 ^ 1) with 2. replace (base * (t * 2)) with (base * t * 2) in * by lia.
    rewrite !Z.div_mul by lia. destruct (Z.eqb_spec t 0); [lia|]. cbn [negb].
    destruct (Z.leb_spec (base * t * 2) rem).
    + rewrite !u64_id by nia.
      rewrite IH; [f_equal; f_equal; f_equal; lia|lia|nia|nia|lia|lia].
    + rewrite IH; [done|lia|lia|lia|nia|lia].
Qed.

Lemma div64_32_spec n : 0 <= n < 2 ^ 64 -> __div64_32 n base = Some (n / base, n mod base).
Proof using Hbase.
  intros Hn. unfold __div64_32. rewrite Z.shiftr_div_pow2 by lia.
  assert (Hh : 0 <= n / 2 ^ 32 < 2 ^ 32) by (split; [apply Z.div_pos; lia|apply Z.div_lt_upper_bound; lia]).
  rewrite (u32_id (n / 2 ^ 32)) by done. pose proof (Z.div_mod n (2 ^ 32) ltac:(lia)).
  pose proof (Z.mod_pos_bound n (2 ^ 32) ltac:(lia)). set (high := n / 2 ^ 32) in *.
  assert (Hred : exists res rem,
    (if base <=? high then
       high ← udiv high base;
       Some (u64 (Z.shiftl high 32), u64 (n - u64 (Z.shiftl (u32 (high * base)) 32)))
     else Some (0, n)) = Some (res, rem) /\ 0 <= res /\ 0 <= rem /\ res * base + rem = n).
  { destruct (Z.leb_spec base high); [|exists 0, n; split_and!; (done || lia)].
    unfold udiv. destruct (Z.eqb_spec base 0); [lia|]. simpl. pose proof (Z.div_mod high base ltac:(lia)).
    pose proof (Z.mod_pos_bound high base ltac:(lia)). set (q := high / base) in *.
    assert (0 <= q) by (apply Z.div_pos; lia). assert (q <= q * base) by nia.
    rewrite !Z.shiftl_mul_pow2 by lia. rewrite (u32_id (q * base)), !u64_id by (rewrite ?u64_id; lia).
    eexists _, _. split; [done|]. split_and!; lia. }
  destruct Hred as (res & rem & -> & Hres & Hrem & Heq). cbn [mbind option_bind].
  destruct (scale_up rem) as (k & Hk & Hb & Hlt & ->); [nia|]. cbn [mbind option_bind].
  fold down_step. rewrite scale_down by (lia || nia). cbn [mbind option_bind]. rewrite Heq.
  pose proof (Z.mod_pos_bound n base ltac:(lia)). by rewrite u32_id by lia.
Qed.

Lemma do_div_spec n : 0 <= n < 2 ^ 64 -> do_div n base = Some (n / base, n mod base).
Proof using Hbase.
  intros Hn. unfold do_div. rewrite Z.shiftr_div_pow2 by lia. destruct (Z.eqb_spec (n / 2 ^ 32) 0) as [H0|H0].
  - assert (n < 2 ^ 32) by (apply Z.div_small_iff in H0; lia). rewrite u32_id by lia. unfold umod, udiv.
    destruct (Z.eqb_spec base 0); [lia|]. done.
  - by apply div64_32_spec.
Qed.
End division.

(** ** Signed division *)

Lemma abs32_spec x : - 2 ^ 31 <= x < 2 ^ 31 -> abs32 x = Z.abs x.
Proof.
  intros Hx. unfold abs32. destruct (Z.ltb_spec x 0); [|rewrite u32_id; lia].
  destruct (Z.eq_dec x (- 2 ^ 31)) as [->|]; [done|]. rewrite s32_small, u32_id; lia.
Qed.

(** Quotient and remainder of the absolute values. *)
Lemma quot_rem_abs a b : b <> 0 ->
  Z.quot a b = Z.sgn a * Z.sgn b * (Z.abs a / Z.abs b) /\ Z.rem a b = Z.sgn a * (Z.abs a mod Z.abs b).
Proof. intros Hb. split; [by apply Z.quot_div|by apply Z.rem_mod]. Qed.

Lemma div_s64_rem_spec a b :
  - 2 ^ 63 <= a < 2 ^ 63 -> - 2 ^ 31 <= b < 2 ^ 31 -> b <> 0 ->
  div_s64_rem a b = Some (s64 (u64 (Z.quot a b)), Z.rem a b).
Proof.
  intros Ha Hb Hb0. unfold div_s64_rem, div_u64_rem. rewrite abs32_spec by done.
  destruct (quot_rem_abs a b Hb0) as [-> ->].
  assert (Hab : 1 <= Z.abs b < 2 ^ 32) by lia. pose proof (Z.mod_pos_bound (Z.abs a) (Z.abs b) ltac:(lia)).
  pose proof (Z.div_pos (Z.abs a) (Z.abs b) ltac:(lia) ltac:(lia)).
  assert (Z.abs a / Z.abs b <= Z.abs a) by (apply Z.div_le_upper_bound; nia).
  destruct (Z.ltb_spec a 0) as [Hneg|Hpos].
  - rewrite (u64_id (- a)) by lia. rewrite do_div_spec by lia. replace (- a) with (Z.abs a) by lia. simpl.
    rewrite (Z.sgn_neg a) by lia. rewrite (s32_small (Z.abs a mod Z.abs b)), s32_small by lia.
    destruct (Z.ltb_spec 0 b); [rewrite (Z.sgn_pos b) by lia|rewrite (Z.sgn_neg b) by lia]; do 2 f_equal; try lia;
      first [f_equal; rewrite u64_id; lia|do 2 f_equal; lia].
  - rewrite do_div_spec by lia. replace a with (Z.abs a) at 1 2 by lia. simpl. rewrite s32_small by lia.
    destruct (Z.eq_dec a 0) as [->|]; [|rewrite (Z.sgn_pos a) by lia];
      (destruct (Z.ltb_spec b 0); [rewrite ?(Z.sgn_neg b) by lia|rewrite ?(Z.sgn_pos b) by lia]); do 2 f_equal; try lia; try done;
      first [f_equal; rewrite u64_id; lia|do 2 f_equal; lia].
Qed.

(** ** Division by a 64-bit number *)

Lemma land_high_mask x j : 0 <= j <= 32 -> 0 <= x < 2 ^ 32 -> Z.land x (2 ^ 32 - 2 ^ j) = x / 2 ^ j * 2 ^ j.
Proof.
  intros Hj Hx. replace (2 ^ 32 - 2 ^ j) with (Z.shiftl (Z.ones (32 - j)) j).
  2: { rewrite Z.shiftl_mul_pow2, Z.ones_equiv by lia. replace (2 ^ 32) with (2 ^ (32 - j) * 2 ^ j); [lia|].
       rewrite <- Z.pow_add_r by lia. f_equal. lia. }
  rewrite <- Z.shiftl_mul_pow2, <- Z.shiftr_div_pow2 by lia. apply Z.bits_inj'. intros i Hi.
  rewrite Z.land_spec, !Z.shiftl_spec by lia. destruct (Z.lt_ge_cases i j).
  - by rewrite !(Z.testbit_neg_r _ (i - j)), andb_false_r by lia.
  - rewrite ones_bits, Z.shiftr_spec by lia. replace (i - j + j) with i by lia.
    destruct (Z.ltb_spec (i - j) (32 - j)); [by rewrite andb_true_r|].
    rewrite (word_bits_high 32 x i) by (unfold is_word; lia). done.
Qed.

(** [x] is [x0] shifted up by [32 - r]. *)
Definition shifted (x0 : Z) (lo : Z) (xr : Z * Z) : Prop :=
  2 ^ lo <= xr.1 < 2 ^ 32 /\ xr.1 = x0 * 2 ^ (32 - xr.2) /\ xr.2 <= 32.

Lemma fls_narrow_spec k x0 xr :
  0 < k <= 16 -> 0 < x0 -> shifted x0 (32 - 2 * k) xr -> shifted x0 (32 - k) (fls_narrow (2 ^ 32 - 2 ^ (32 - k)) k xr).
Proof.
  intros Hk Hx0. destruct xr as [x r]. intros (Hx & Heq & Hr). unfold fls_narrow. cbn [fst snd] in *.
  assert (0 < 2 ^ (32 - 2 * k)) by (apply Z.pow_pos_nonneg; lia). assert (0 < 2 ^ (32 - k)) by (apply Z.pow_pos_nonneg; lia).
  assert (0 < 2 ^ k) by (apply Z.pow_pos_nonneg; lia).
  assert (H32 : 2 ^ 32 = 2 ^ (32 - k) * 2 ^ k) by (rewrite <- Z.pow_add_r by lia; f_equal; lia).
  assert (H32' : 2 ^ (32 - k) = 2 ^ (32 - 2 * k) * 2 ^ k) by (rewrite <- Z.pow_add_r by lia; f_equal; lia).
  rewrite land_high_mask by lia. destruct (Z.eqb_spec (x / 2 ^ (32 - k) * 2 ^ (32 - k)) 0) as [Hz|Hz].
  - assert (Hlt : x < 2 ^ (32 - k)).
    { assert (x / 2 ^ (32 - k) = 0) as Hd by nia. apply Z.div_small_iff in Hd; lia. }
    rewrite Z.shiftl_mul_pow2 by lia. rewrite u32_id by nia. unfold shifted. cbn [fst snd]. split_and!; [nia|nia| |lia].
    rewrite Heq. replace (32 - (r - k)) with (32 - r + k) by lia. rewrite Z.pow_add_r by lia. lia.
  - unfold shifted. cbn [fst snd]. split_and!; try done; try lia.
    destruct (Z.lt_ge_cases x (2 ^ (32 - k))); [|done]. rewrite Z.div_small in Hz; lia.
Qed.

Lemma fls_log2 x : 0 < x < 2 ^ 32 -> fls x = Z.log2 x + 1.
Proof.
  intros Hx. unfold fls. rewrite u32_id by lia. destruct (Z.eqb_spec x 0); [lia|].
  assert (H0 : shifted x (32 - 2 * 16) (x, 32)) by (unfold shifted; simpl; lia).
  apply (fls_narrow_spec 16) in H0; [|lia|lia]. apply (fls_narrow_spec 8) in H0; [|lia|lia].
  apply (fls_narrow_spec 4) in H0; [|lia|lia]. apply (fls_narrow_spec 2) in H0; [|lia|lia].
  apply (fls_narrow_spec 1) in H0; [|lia|lia].
  change (fls_narrow (2 ^ 32 - 2 ^ (32 - 1)) 1) with (fls_narrow 0x80000000 1) in H0.
  change (fls_narrow (2 ^ 32 - 2 ^ (32 - 2)) 2) with (fls_narrow 0xc0000000 2) in H0.
  change (fls_narrow (2 ^ 32 - 2 ^ (32 - 4)) 4) with (fls_narrow 0xf0000000 4) in H0.
  change (fls_narrow (2 ^ 32 - 2 ^ (32 - 8)) 8) with (fls_narrow 0xff000000 8) in H0.
  change (fls_narrow (2 ^ 32 - 2 ^ (32 - 16)) 16) with (fls_narrow 0xffff0000 16) in H0.
  destruct (fls_narrow _ _ _) as [x' r]. destruct H0 as (Hb & Heq & Hr). cbn [fst snd] in *.
  assert (Hlog : Z.log2 x' = 31) by (apply Z.log2_unique; simpl in *; lia).
  rewrite Heq, Z.log2_mul_pow2 in Hlog by lia. lia.
Qed.

Lemma div_u64_spec n d : 0 <= n < 2 ^ 64 -> 1 <= d < 2 ^ 32 -> div_u64 n d = Some (n / d).
Proof. intros. unfold div_u64, div_u64_rem. by rewrite do_div_spec. Qed.

(** Dividing by a divisor rounded down to [c]. *)
Lemma div_rounded D c d w :
  0 <= D -> 0 < c <= d -> d <= c + w -> D / c * w <= 2 * c -> D / d <= D / c <= D / d + 2.
Proof.
  intros HD Hc Hd Hw. split; [by apply Z.div_le_compat_l|].
  pose proof (Z.mul_div_le D c ltac:(lia)). pose proof (Z.div_pos D c ltac:(lia) ltac:(lia)).
  destruct (Z.le_gt_cases (D / c) 2); [pose proof (Z.div_pos D d ltac:(lia) ltac:(lia)); lia|].
  assert (D / c - 2 <= D / d); [|lia]. apply Z.div_le_lower_bound; [lia|]. nia.
Qed.

Lemma div64_u64_spec D d :
  0 <= D < 2 ^ 64 -> 1 <= d < 2 ^ 64 ->
  exists q, div64_u64 D d = Some q /\ D / d <= q <= D / d + 2 /\ (d < 2 ^ 32 -> q = D / d).
Proof.
  intros HD Hd. unfold div64_u64. rewrite !Z.shiftr_div_pow2 by lia.
  assert (Hh : 0 <= d / 2 ^ 32 < 2 ^ 32) by (split; [apply Z.div_pos; lia|apply Z.div_lt_upper_bound; lia]).
  rewrite (u32_id (d / 2 ^ 32)) by done. destruct (Z.eqb_spec (d / 2 ^ 32) 0) as [H0|H0]; cbn [negb].
  - apply Z.div_small_iff in H0; [|lia]. rewrite u32_id, div_u64_spec by lia. eexists. split; [done|]. lia.
  - assert (2 ^ 32 <= d).
    { destruct (Z.lt_ge_cases d (2 ^ 32)); [|done]. rewrite Z.div_small in H0; lia. }
    rewrite fls_log2 by lia. rewrite <- Z.shiftr_div_pow2, Z.log2_shiftr by lia.
    assert (Hlog : 32 <= Z.log2 d < 64) by (split; [apply Z.log2_le_pow2; lia|apply Z.log2_lt_pow2; lia]).
    rewrite Z.max_r by lia. set (s := Z.log2 d - 32 + 1). rewrite !Z.shiftr_div_pow2 by lia.
    pose proof (Z.log2_spec d ltac:(lia)) as [Hl1 Hl2].
    assert (Hs : 0 < 2 ^ s) by (apply Z.pow_pos_nonneg; lia).
    assert (Hd1 : 2 ^ 31 <= d / 2 ^ s).
    { apply Z.div_le_lower_bound; [lia|]. rewrite <- Z.pow_add_r by lia. by replace (s + 31) with (Z.log2 d) by lia. }
    assert (Hd2 : d / 2 ^ s < 2 ^ 32).
    { apply Z.div_lt_upper_bound; [lia|]. rewrite <- Z.pow_add_r by lia. by replace (s + 32) with (Z.succ (Z.log2 d)) by lia. }
    assert (HD' : 0 <= D / 2 ^ s <= D) by (split; [apply Z.div_pos; lia|apply Z.div_le_upper_bound; nia]).
    rewrite u32_id, div_u64_spec by lia. eexists. split; [done|]. split; [|lia].
    rewrite Z.div_div by lia. pose proof (Z.mul_div_le d (2 ^ s) ltac:(lia)).
    pose proof (Z.mul_succ_div_gt d (2 ^ s) ltac:(lia)).
    assert (Hs2 : 2 <= 2 ^ s) by (change 2 with (2 ^ 1) at 1; apply Z.pow_le_mono_r; lia).
    apply (div_rounded D (2 ^ s * (d / 2 ^ s)) d (2 ^ s)); [lia|nia|lia|].
    assert (D / (2 ^ s * (d / 2 ^ s)) < 2 ^ 32) by (apply Z.div_lt_upper_bound; nia). nia.
Qed.

Lemma iter_div_spec (q : nat) fuel D d ret :
  1 <= d < 2 ^ 32 -> 0 <= D < 2 ^ 64 -> D / d = Z.of_nat q -> (q < fuel)%nat -> 0 <= ret < 2 ^ 32 ->
  loop fuel (fun '(dividend, ret) =>
    Some (if d <=? dividend then Next (u64 (dividend - d), u32 (ret + 1)) else Done (ret, dividend))) (D, ret) =
  Some (u32 (ret + Z.of_nat q), D mod d).
Proof.
  intros Hd. revert fuel D ret. induction q as [|q IH]; intros fuel D ret HD Hq Hf Hr; (destruct fuel as [|fuel]; [lia|]);
    rewrite loop_S; cbv beta iota.
  - apply Z.div_small_iff in Hq; [|lia]. destruct (Z.leb_spec d D); [lia|].
    rewrite Z.add_0_r, u32_id, Z.mod_small by lia. done.
  - destruct (Z.leb_spec d D); [|rewrite Z.div_small in Hq; lia]. rewrite u64_id by lia.
    pose proof (wrap_range 32 (ret + 1)). unfold is_word in *.
    rewrite IH; [|lia| |lia|lia].
    + rewrite <- (Z.mod_add (D - d) 1 d) by lia. replace (D - d + 1 * d) with D by lia. f_equal. f_equal.
      unfold wrap. rewrite Z.add_mod_idemp_l by lia. f_equal. lia.
    + replace (D - d) with (D + -1 * d) by lia. rewrite Z.div_add by lia. lia.
Qed.

(** ** Reciprocals *)

Lemma reciprocal_value_spec B : 2 <= B < 2 ^ 32 ->
  exists R, reciprocal_value B = Some R /\ 0 <= R < 2 ^ 32 /\ 2 ^ 32 <= R * B <= 2 ^ 32 + (B - 1).
Proof.
  intros HB. unfold reciprocal_value. rewrite (u32_id (B - 1)) by lia. change (Z.shiftl 1 32) with (2 ^ 32).
  rewrite u64_id by lia. rewrite do_div_spec by lia. simpl.
  pose proof (Z.div_mod (2 ^ 32 + (B - 1)) B ltac:(lia)). pose proof (Z.mod_pos_bound (2 ^ 32 + (B - 1)) B ltac:(lia)).
  set (R := (2 ^ 32 + (B - 1)) / B) in *. assert (0 <= R < 2 ^ 32) by nia.
  exists R. rewrite u32_id by done. split_and!; (done || nia).
Qed.

Lemma reciprocal_divide_spec A B R :
  0 <= A < 2 ^ 32 -> 2 <= B -> 0 <= R < 2 ^ 32 -> 2 ^ 32 <= R * B <= 2 ^ 32 + (B - 1) ->
  A / B <= reciprocal_divide A R <= A / B + 1 /\ (A * (R * B - 2 ^ 32) < 2 ^ 32 -> reciprocal_divide A R = A / B).
Proof.
  intros HA HB HR He. unfold reciprocal_divide. rewrite u64_id by nia. rewrite Z.shiftr_div_pow2 by lia.
  assert (H1 : 0 <= A * R / 2 ^ 32 < 2 ^ 32) by (split; [apply Z.div_pos; nia|apply Z.div_lt_upper_bound; nia]).
  rewrite u32_id by done. pose proof (Z.div_mod A B ltac:(lia)) as Hd. pose proof (Z.mod_pos_bound A B ltac:(lia)).
  set (q := A / B) in *. assert (0 <= q) by (apply Z.div_pos; lia).
  assert (Hlow : q <= A * R / 2 ^ 32) by (apply Z.div_le_lower_bound; nia).
  split; [split; [done|]|].
  - assert (A * R / 2 ^ 32 < q + 2); [|lia]. apply Z.div_lt_upper_bound; [lia|].
    apply (Z.mul_lt_mono_pos_r B); [lia|]. nia.
  - intros Hex. assert (A * R / 2 ^ 32 < q + 1); [|lia]. apply Z.div_lt_upper_bound; [lia|].
    apply (Z.mul_lt_mono_pos_r B); [lia|]. nia.
Qed.

(** * The claims *)

(** C36 (equivalence): the division routines of 32-bit machines.  [__div64_32] and
    [do_div] give the exact quotient and remainder of a 64-bit number by a 32-bit one,
    [div_s64_rem] those of signed division that rounds towards zero (the quotient
    modulo 2^64), and [iter_div_u64_rem] ends after as many rounds as the quotient
    and gives it modulo 2^32.  [div64_u64] is exact for divisors below 2^32, and
    otherwise never too small and at most two too large.
    [gcd] and [lcm] give the greatest common divisor of positive numbers
    and their least common multiple when the product fits a word, [gcd] dividing by
    zero when an operand is 0; [int_sqrt] gives the exact integer square root of
    every 64-bit number.  Dividing by a reciprocal is exact as long as the numerator
    times the rounding error of the reciprocal is below 2^32 and at most one too
    large otherwise; the reciprocal of 1 is 0. *)
Theorem arithmetic_correct :
  ((forall n base, 0 <= n < 2 ^ 64 -> 1 <= base < 2 ^ 32 ->
    __div64_32 n base = Some (n / base, n mod base) /\ do_div n base = Some (n / base, n mod base)) /\
  (forall a b, - 2 ^ 63 <= a < 2 ^ 63 -> - 2 ^ 31 <= b < 2 ^ 31 -> b <> 0 ->
    div_s64_rem a b = Some (s64 (u64 (Z.quot a b)), Z.rem a b)) /\
  (forall D d, 0 <= D < 2 ^ 64 -> 1 <= d < 2 ^ 32 ->
    iter_div_u64_rem (S (Z.to_nat (D / d))) D d = Some (u32 (D / d), D mod d)) /\
  (forall D d, 0 <= D < 2 ^ 64 -> 1 <= d < 2 ^ 64 ->
    exists q, div64_u64 D d = Some q /\ D / d <= q <= D / d + 2 /\ (d < 2 ^ 32 -> q = D / d))) /\
  (forall a b, 0 < a < 2 ^ 64 -> 0 < b < 2 ^ 64 -> gcd a b = Some (Z.gcd a b)) /\
  (forall a, 0 <= a -> gcd a 0 = None /\ gcd 0 a = None) /\
  (forall a b, 0 <= a < 2 ^ 64 -> 0 <= b < 2 ^ 64 -> a * b < 2 ^ 64 ->
    lcm a b = Some (if (a =? 0) || (b =? 0) then Z.max a b else Z.lcm a b)) /\
  (forall x, 0 <= x < 2 ^ 64 -> int_sqrt x = Some (Z.sqrt x)) /\
  (forall B, 2 <= B < 2 ^ 32 -> exists R, reciprocal_value B = Some R /\
    forall A, 0 <= A < 2 ^ 32 ->
      A / B <= reciprocal_divide A R <= A / B + 1 /\
      (A * (R * B - 2 ^ 32) < 2 ^ 32 -> reciprocal_divide A R = A / B)) /\
  reciprocal_value 1 = Some 0.
Proof.
  split.
  - split; [|split; [|split]].
    + intros. split; [by apply div64_32_spec|by apply do_div_spec].
    + intros. by apply div_s64_rem_spec.
    + intros D d HD Hd. pose proof (Z.div_pos D d ltac:(lia) ltac:(lia)).
      unfold iter_div_u64_rem, __iter_div_u64_rem. rewrite (iter_div_spec (Z.to_nat (D / d))) by lia.
      by rewrite Z2Nat.id by lia.
    + intros. by apply div64_u64_spec.
  - split_and!.
    + intros. apply gcd_spec; unfold is_word; lia.
    + apply gcd_zero.
    + intros. apply lcm_spec; unfold is_word; lia.
    + intros. by apply int_sqrt_spec.
    + intros B HB. destruct (reciprocal_value_spec B HB) as (R & HR & Hr & He). exists R. split; [done|].
      intros A HA. apply reciprocal_divide_spec; (done || lia).
    + reflexivity.
Qed.

Lemma arithmetic_correct_witness :
  (do_div (2 ^ 64 - 1) 1000000007 = Some (18446743944, 582344007) /\
  div_s64_rem (- 7) 2 = Some (-3, -1) /\
  iter_div_u64_rem 4 17 5 = Some (3, 2) /\
  (exists q, div64_u64 543142051606198772 4295456639 = Some q /\ q = 126445707) /\
  543142051606198772 / 4295456639 = 126445706) /\
  gcd 84 120 = Some 12 /\ lcm 4 6 = Some 12 /\ int_sqrt 99 = Some 9 /\
  (exists R, reciprocal_value 3 = Some R /\ reciprocal_divide 1000 R = 333 /\
     reciprocal_divide 4294967294 R = 4294967294 / 3 + 1).
Proof.
  destruct arithmetic_correct as [(Hd & Hs & Hi & Hu) (Hg & _ & Hl & Hsq & Hr & _)]. split.
  - split; [|split; [|split; [|split]]].
    + destruct (Hd (2 ^ 64 - 1) 1000000007) as [_ ->]; [lia|lia|]. reflexivity.
    + rewrite (Hs (- 7) 2); [reflexivity|lia..].
    + apply (Hi 17 5); lia.
    + destruct (Hu 543142051606198772 4295456639) as (q & Hq & _); [lia|lia|]. exists q. split; [exact Hq|].
      vm_compute in Hq. by injection Hq.
    + reflexivity.
  - split_and!.
    + rewrite Hg by lia. reflexivity.
    + rewrite Hl by lia. reflexivity.
    + rewrite Hsq by lia. reflexivity.
    + destruct (Hr 3) as (R & HR & Hdiv); [lia|]. exists R. split; [exact HR|]. vm_compute in HR. injection HR as <-.
      split; [|reflexivity]. apply (Hdiv 1000); lia.
Defined.
