(* ===== verification/RadixTree.v ===== *)
(** The radix tree of lib/radix-tree.c, a map from 64-bit indices to items with two
    tags per item.

    A pointer is [Null], an item or a node that belongs to the place it is stored in;
    the low bit that marks a node in [root->rnode] is the constructor.  A node has 64
    slots ([CONFIG_BASE_SMALL] off), so that a tree has at most 11 levels.  The
    allocator is the number of nodes it still gives.

    [wf] is the shape of a tree: heights, child counts, and the tag of a node exactly
    when something below has it.  [contents] and [item_tag] read a tree as the map it
    stands for, and [stands_for] relates it to an abstract map with marks, which all
    operations refine.  The scans are described by [found], the items at the indices
    of an interval in ascending order. *)
From Stdlib Require Import ZArith Lia Bool.
From stdpp Require Import base numbers list option sets gmap.
From S2P Require Import Prelude.

Local Open Scope Z_scope.

(** * Definitions *)

Definition LONG_MAX : Z := 2 ^ 63 - 1.
Definition RADIX_TREE_MAP_SHIFT : Z := 6.
Definition RADIX_TREE_MAP_SIZE : Z := 64.
Definition RADIX_TREE_MAP_MASK : Z := 63.
Definition RADIX_TREE_MAX_PATH : nat := 11.
Definition __GFP_BITS_SHIFT : Z := 22.

(** A pointer with what it points to; for a node, the fields of
    [struct radix_tree_node]. *)
Inductive slot : Type :=
| Null
| Item (p : positive)
| Node (height : nat) (count : Z) (slots : list slot) (tags : list Z).

Record radix_tree_root := Root { height : nat; gfp_mask : Z; rnode : slot }.

Definition INIT_RADIX_TREE (mask : Z) : radix_tree_root := Root 0 mask Null.

Definition is_null (s : slot) : bool := match s with Null => true | _ => false end.

(** ** Heights and offsets *)

Definition __maxindex (height : Z) : Z :=
  let width := u32 (height * RADIX_TREE_MAP_SHIFT) in
  let shift := s32 (64 - width) in
  if shift <? 0 then ULONG_MAX
  else if 64 <=? shift then 0
  else Z.shiftr ULONG_MAX shift.

Definition height_to_maxindex : list Z := (fun h : nat => __maxindex (Z.of_nat h)) <$> seq 0 (S RADIX_TREE_MAX_PATH).

Definition radix_tree_maxindex (height : nat) : option Z := height_to_maxindex !! height.

(** The slot of a node of height [h + 1]: [(index >> shift) & RADIX_TREE_MAP_MASK]
    with [shift] 6 times [h]. *)
Definition offset (h : nat) (index : Z) : Z :=
  Z.land (Z.shiftr index (Z.of_nat h * RADIX_TREE_MAP_SHIFT)) RADIX_TREE_MAP_MASK.

(** ** Tags *)

Definition tag_set (tags : list Z) (tag offset : Z) : option (list Z) :=
  w ← aget tags tag; aset tags tag (Z.lor w (shl64 1 offset)).
Definition tag_clear (tags : list Z) (tag offset : Z) : option (list Z) :=
  w ← aget tags tag; aset tags tag (Z.land w (not64 (shl64 1 offset))).
Definition tag_get (tags : list Z) (tag offset : Z) : option bool :=
  w ← aget tags tag; Some (negb (Z.land (shr64 w offset) 1 =? 0)).
Definition any_tag_set (tags : list Z) (tag : Z) : option bool :=
  w ← aget tags tag; Some (negb (w =? 0)).

Definition root_tag_set (root : radix_tree_root) (tag : Z) : radix_tree_root :=
  Root (height root) (Z.lor (gfp_mask root) (Z.shiftl 1 (tag + __GFP_BITS_SHIFT))) (rnode root).
Definition root_tag_clear (root : radix_tree_root) (tag : Z) : radix_tree_root :=
  Root (height root) (Z.ldiff (gfp_mask root) (Z.shiftl 1 (tag + __GFP_BITS_SHIFT))) (rnode root).
Definition root_tag_clear_all (root : radix_tree_root) : radix_tree_root :=
  Root (height root) (Z.land (gfp_mask root) (Z.ones __GFP_BITS_SHIFT)) (rnode root).
Definition root_tag_get (root : radix_tree_root) (tag : Z) : bool :=
  negb (Z.land (gfp_mask root) (Z.shiftl 1 (tag + __GFP_BITS_SHIFT)) =? 0).

(** ** Inserting *)

(** [radix_tree_node_alloc] gives [avail] zeroed nodes and then fails. *)
Definition new_node (height : nat) : slot := Node height 0 (replicate 64 Null) [0; 0].

(** The height to extend to: the first from [h] on that reaches [index]. *)
Definition extend_height (index : Z) (h : nat) : option nat :=
  loop 12 (fun h => m ← radix_tree_maxindex h; Some (if m <? index then Next (S h) else Done h)) h.

(** One level more, on the way to height [h]. *)
Definition extend_step (h : nat) (st : radix_tree_root * nat)
  : option (ctl (radix_tree_root * nat) (radix_tree_root * nat * Z)) :=
  let '(root, avail) := st in
  match avail with
  | O => Some (Done (root, O, - ENOMEM))
  | S avail =>
      slots ← aset (replicate 64 Null) 0 (rnode root);
      tags ← (if root_tag_get root 0 then tag_set [0; 0] 0 0 else Some [0; 0]);
      tags ← (if root_tag_get root 1 then tag_set tags 1 0 else Some tags);
      let newheight := S (height root) in
      let root := Root newheight (gfp_mask root) (Node newheight 1 slots tags) in
      Some (if (height root <? h)%nat then Next (root, avail) else Done (root, avail, 0))
  end.

(** Returns the root, the nodes left and the error. *)
Definition radix_tree_extend (root : radix_tree_root) (avail : nat) (index : Z)
  : option (radix_tree_root * nat * Z) :=
  h ← extend_height index (S (height root));
  if is_null (rnode root) then Some (Root h (gfp_mask root) Null, avail, 0)
  else loop 12 (extend_step h) (root, avail).

(** The way down from a pointer at height [h]: the pointer afterwards, the nodes
    left and the error.  A node that gains a child counts it. *)
Fixpoint insert_down (h : nat) (avail : nat) (index : Z) (item : positive) (s : slot)
  : option (slot * nat * Z) :=
  match h with
  | O => if is_null s then Some (Item item, avail, 0) else Some (s, avail, - EEXIST)
  | S h' =>
      let go node avail :=
        match node with
        | Node nh count slots tags =>
            child ← aget slots (offset h' index);
            '(child', avail, err) ← insert_down h' avail index item child;
            slots ← aset slots (offset h' index) child';
            let count := if is_null child && negb (is_null child') then u32 (count + 1) else count in
            t0 ← tag_get tags 0 (offset h' index);
            t1 ← tag_get tags 1 (offset h' index);
            if (h' =? 0)%nat && (err =? 0) && (t0 || t1) then None
            else Some (Node nh count slots tags, avail, err)
        | _ => None
        end in
      if is_null s then
        match avail with
        | O => Some (Null, O, - ENOMEM)
        | S avail => go (new_node h) avail
        end
      else go s avail
  end.

(** Returns the root, the nodes left and the error. *)
Definition radix_tree_insert (root : radix_tree_root) (avail : nat) (index : Z) (item : positive)
  : option (radix_tree_root * nat * Z) :=
  m ← radix_tree_maxindex (height root);
  '(root, avail, error) ← (if m <? index then radix_tree_extend root avail index else Some (root, avail, 0));
  if negb (error =? 0) then Some (root, avail, error)
  else
    '(s, avail, error) ← insert_down (height root) avail index item (rnode root);
    if (height root =? 0)%nat && (error =? 0) && (root_tag_get root 0 || root_tag_get root 1) then None
    else Some (Root (height root) (gfp_mask root) s, avail, error).

(** ** Looking up *)

(** From a node of height [h] or an item at height 0. *)
Fixpoint lookup_down (h : nat) (index : Z) (s : slot) : option slot :=
  match h with
  | O => Some s
  | S h' =>
      match s with
      | Node _ _ slots _ =>
          s ← aget slots (offset h' index);
          if is_null s then Some Null else lookup_down h' index s
      | _ => None
      end
  end.

Definition radix_tree_lookup (root : radix_tree_root) (index : Z) : option slot :=
  match rnode root with
  | Null => Some Null
  | Item p => Some (if 0 <? index then Null else Item p)
  | Node h _ _ _ =>
      m ← radix_tree_maxindex h;
      if m <? index then Some Null else lookup_down h index (rnode root)
  end.

(** ** Setting, clearing and getting tags *)

Fixpoint tag_set_down (h : nat) (index tag : Z) (s : slot) : option (slot * slot) :=
  match h with
  | O => Some (s, s)
  | S h' =>
      match s with
      | Node nh count slots tags =>
          b ← tag_get tags tag (offset h' index);
          tags ← (if (b : bool) then Some tags else tag_set tags tag (offset h' index));
          child ← aget slots (offset h' index);
          if is_null child then None
          else
            '(child', item) ← tag_set_down h' index tag child;
            slots ← aset slots (offset h' index) child';
            Some (Node nh count slots tags, item)
      | _ => None
      end
  end.

(** Returns the root and the item. *)
Definition radix_tree_tag_set (root : radix_tree_root) (index tag : Z) : option (radix_tree_root * slot) :=
  m ← radix_tree_maxindex (height root);
  if m <? index then None
  else
    '(s, item) ← tag_set_down (height root) index tag (rnode root);
    let root := Root (height root) (gfp_mask root) s in
    Some (if negb (is_null item) && negb (root_tag_get root tag) then root_tag_set root tag else root, item).

(** Down the path and back up; the flag says that the tag is to be cleared one
    level further up. *)
Fixpoint tag_clear_down (h : nat) (index tag : Z) (s : slot) : option (slot * slot * bool) :=
  match h with
  | O => Some (s, s, negb (is_null s))
  | S h' =>
      match s with
      | Null => Some (Null, Null, false)
      | Node nh count slots tags =>
          child ← aget slots (offset h' index);
          '(child', item, up) ← tag_clear_down h' index tag child;
          slots ← aset slots (offset h' index) child';
          if (up : bool) then
            b ← tag_get tags tag (offset h' index);
            if (b : bool) then
              tags ← tag_clear tags tag (offset h' index);
              any ← any_tag_set tags tag;
              Some (Node nh count slots tags, item, negb any)
            else Some (Node nh count slots tags, item, false)
          else Some (Node nh count slots tags, item, false)
      | Item _ => None
      end
  end.

Definition radix_tree_tag_clear (root : radix_tree_root) (index tag : Z) : option (radix_tree_root * slot) :=
  m ← radix_tree_maxindex (height root);
  if m <? index then Some (root, Null)
  else
    '(s, item, up) ← tag_clear_down (height root) index tag (rnode root);
    let root := Root (height root) (gfp_mask root) s in
    Some (if (up : bool) && root_tag_get root tag then root_tag_clear root tag else root, item).

Fixpoint tag_get_down (h : nat) (index tag : Z) (saw_unset_tag : bool) (s : slot) : option bool :=
  match h, s with
  | _, Null => Some false
  | S h', Node _ _ slots tags =>
      b ← tag_get tags tag (offset h' index);
      let saw_unset_tag := saw_unset_tag || negb b in
      match h' with
      | O => if b && saw_unset_tag then None else Some b
      | _ =>
          child ← aget slots (offset h' index);
          tag_get_down h' index tag saw_unset_tag child
      end
  | _, _ => None
  end.

Definition radix_tree_tag_get (root : radix_tree_root) (index tag : Z) : option bool :=
  if negb (root_tag_get root tag) then Some false
  else
    match rnode root with
    | Null => Some false
    | Item _ => Some (index =? 0)
    | Node h _ _ _ =>
        m ← radix_tree_maxindex h;
        if m <? index then Some false else tag_get_down h index tag false (rnode root)
    end.

Definition radix_tree_tagged (root : radix_tree_root) (tag : Z) : bool := root_tag_get root tag.

(** ** Deleting *)

Fixpoint shrink_from (h : nat) (root : radix_tree_root) : option radix_tree_root :=
  match h with
  | O => Some root
  | S h' =>
      match rnode root with
      | Node _ count slots _ =>
          if negb (count =? 1) then Some root
          else
            s ← aget slots 0;
            if is_null s then Some root
            else shrink_from h' (Root h' (gfp_mask root) s)
      | _ => None
      end
  end.

Definition radix_tree_shrink (root : radix_tree_root) : option radix_tree_root := shrink_from (height root) root.

(** What [radix_tree_delete] finds at the end of the path: the item, and whether it
    has the tag in its node. *)
Fixpoint path_end (h : nat) (index tag : Z) (s : slot) : option (slot * bool) :=
  match h with
  | O => Some (s, false)
  | S h' =>
      match s with
      | Null => Some (Null, false)
      | Node _ _ slots tags =>
          child ← aget slots (offset h' index);
          match h' with
          | O => b ← tag_get tags tag (offset h' index); Some (child, b)
          | _ => path_end h' index tag child
          end
      | Item _ => None
      end
  end.

(** Where the way back up the path ended: below this node, in it, or not yet. *)
Inductive ending := Below | Here | Emptied.

#[global] Instance ending_eq_dec : EqDecision ending.
Proof. solve_decision. Defined.

(** The second loop of [radix_tree_delete]: the pointer to the node afterwards, [Null]
    when the node was freed. *)
Fixpoint delete_down (h : nat) (index : Z) (s : slot) : option (slot * ending) :=
  match h with
  | O => Some (Null, Emptied)
  | S h' =>
      match s with
      | Node nh count slots tags =>
          child ← aget slots (offset h' index);
          '(child', e) ← delete_down h' index child;
          slots ← aset slots (offset h' index) child';
          match e with
          | Emptied =>
              let count := u32 (count - 1) in
              Some (if negb (count =? 0) then (Node nh count slots tags, Here) else (Null, Emptied))
          | _ => Some (Node nh count slots tags, Below)
          end
      | _ => None
      end
  end.

(** Returns the root and the item. *)
Definition radix_tree_delete (root : radix_tree_root) (index : Z) : option (radix_tree_root * slot) :=
  m ← radix_tree_maxindex (height root);
  if m <? index then Some (root, Null)
  else
    match height root with
    | O => Some (let root' := root_tag_clear_all root in Root 0 (gfp_mask root') Null, rnode root)
    | S _ =>
        '(item, t0) ← path_end (height root) index 0 (rnode root);
        if is_null item then Some (root, Null)
        else
          '(root, _) ← (if (t0 : bool) then radix_tree_tag_clear root index 0 else Some (root, Null));
          '(_, t1) ← path_end (height root) index 1 (rnode root);
          '(root, _) ← (if (t1 : bool) then radix_tree_tag_clear root index 1 else Some (root, Null));
          '(s, e) ← delete_down (height root) index (rnode root);
          let root := Root (height root) (gfp_mask root) s in
          match e with
          | Emptied => Some (Root 0 (gfp_mask (root_tag_clear_all root)) Null, item)
          | Here => root ← radix_tree_shrink root; Some (root, item)
          | Below => Some (root, item)
          end
    end.

(** ** Scanning *)

(** One iteration of the searches for a hole; the state is [i] and [index]. *)
Definition hole_step (root : radix_tree_root) (max_scan by_ last : Z) (st : Z * Z) : option (ctl (Z * Z) Z) :=
  let '(i, index) := st in
  if i <? max_scan then
    s ← radix_tree_lookup root index;
    if is_null s then Some (Done index)
    else
      let index := u64 (index + by_) in
      Some (if index =? last then Done index else Next (i + 1, index))
  else Some (Done index).

(** Return the index where the search ended.  [fuel] bounds [max_scan]. *)
Definition radix_tree_next_hole (fuel : nat) (root : radix_tree_root) (index max_scan : Z) : option Z :=
  loop fuel (hole_step root max_scan 1 0) (0, index).

Definition radix_tree_prev_hole (fuel : nat) (root : radix_tree_root) (index max_scan : Z) : option Z :=
  loop fuel (hole_step root max_scan (-1) LONG_MAX) (0, index).

(** The search for the next slot in use from [i] on: the slot and the index, or the
    index alone when the search leaves the node.  [used] says which are in use. *)
Definition skip_step (used : Z -> option bool) (shift : Z) (st : Z * Z) : option (ctl (Z * Z) (Z * Z + Z)) :=
  let '(index, i) := st in
  b ← used i;
  if (b : bool) then Some (Done (inl (i, index)))
  else
    let index := Z.land index (not64 (u64 (shl64 1 shift - 1))) in
    let index := u64 (index + shl64 1 shift) in
    if index =? 0 then Some (Done (inr index))
    else
      let i := i + 1 in
      Some (if i =? RADIX_TREE_MAP_SIZE then Done (inr index) else Next (index, i)).

Definition skip_unused (used : Z -> option bool) (shift index i : Z) : option (Z * Z + Z) :=
  loop 65 (skip_step used shift) (index, i).

(** The loops over the bottom level: items from slot [i] on, and the index. *)
Definition grab_step (used : Z -> option bool) (slots : list slot) (max_items : Z) (st : list slot * Z * Z)
  : option (ctl (list slot * Z * Z) (list slot * Z)) :=
  let '(res, index, i) := st in
  if i <? RADIX_TREE_MAP_SIZE then
    let index := u64 (index + 1) in
    b ← used i;
    s ← aget slots i;
    if (b : bool) && negb (is_null s) then
      let res := res ++ [s] in
      Some (if zlen res =? max_items then Done (res, index) else Next (res, index, i + 1))
    else Some (Next (res, index, i + 1))
  else Some (Done (res, index)).

Definition grab (used : Z -> option bool) (slots : list slot) (index max_items i : Z) : option (list slot * Z) :=
  loop 65 (grab_step used slots max_items) ([], index, i).

(** Results and next index, from a node of height [h]. *)
Fixpoint scan_down (h : nat) (index max_items : Z) (s : slot) : option (list slot * Z) :=
  match h, s with
  | O, _ => Some ([], index)
  | S h', Node _ _ slots _ =>
      let used i := s ← aget slots i; Some (negb (is_null s)) in
      match h' with
      | O => grab used slots index max_items (Z.land index RADIX_TREE_MAP_MASK)
      | S _ =>
          x ← skip_unused used (Z.of_nat h' * RADIX_TREE_MAP_SHIFT) index (offset h' index);
          match x with
          | inr index => Some ([], index)
          | inl (i, index) => s ← aget slots i; scan_down h' index max_items s
          end
      end
  | _, _ => None
  end.

Definition __lookup (s : slot) (index max_items : Z) : option (list slot * Z) :=
  match s with
  | Node h _ _ _ => scan_down h index max_items s
  | _ => None
  end.

Fixpoint scan_tag_down (h : nat) (index max_items tag : Z) (s : slot) : option (list slot * Z) :=
  match h, s with
  | O, _ => Some ([], index)
  | S h', Node _ _ slots tags =>
      x ← skip_unused (fun i => tag_get tags tag i) (Z.of_nat h' * RADIX_TREE_MAP_SHIFT) index (offset h' index);
      match x with
      | inr index => Some ([], index)
      | inl (i, index) =>
          match h' with
          | O => grab (fun j => tag_get tags tag j) slots index max_items (Z.land index RADIX_TREE_MAP_MASK)
          | S _ =>
              s ← aget slots i;
              if is_null s then Some ([], index) else scan_tag_down h' index max_items tag s
          end
      end
  | _, _ => None
  end.

Definition __lookup_tag (s : slot) (index max_items tag : Z) : option (list slot * Z) :=
  match s with
  | Node h _ _ _ => scan_tag_down h index max_items tag s
  | _ => None
  end.

(** The loop of the gang lookups; the state is what has been found and [cur_index]. *)
Definition gang_step (look : Z -> Z -> option (list slot * Z)) (max_index max_items : Z) (st : list slot * Z)
  : option (ctl (list slot * Z) (list slot)) :=
  let '(res, cur_index) := st in
  if zlen res <? max_items then
    if max_index <? cur_index then Some (Done res)
    else
      '(slots_found, next_index) ← look cur_index (max_items - zlen res);
      let res := res ++ filter (fun s => is_null s = false) slots_found in
      Some (if next_index =? 0 then Done res else Next (res, next_index))
  else Some (Done res).

Definition gang (fuel : nat) (look : Z -> Z -> option (list slot * Z)) (max_index first_index max_items : Z)
  : option (list slot) :=
  loop fuel (gang_step look max_index max_items) ([], first_index).

Definition radix_tree_gang_lookup (fuel : nat) (root : radix_tree_root) (first_index max_items : Z)
  : option (list slot) :=
  match rnode root with
  | Null => Some []
  | Item p => Some (if 0 <? first_index then [] else [Item p])
  | Node h _ _ _ =>
      max_index ← radix_tree_maxindex h;
      gang fuel (__lookup (rnode root)) max_index first_index max_items
  end.

Definition radix_tree_gang_lookup_tag (fuel : nat) (root : radix_tree_root) (first_index max_items tag : Z)
  : option (list slot) :=
  if negb (root_tag_get root tag) then Some []
  else
    match rnode root with
    | Null => Some []
    | Item p => Some (if 0 <? first_index then [] else [Item p])
    | Node h _ _ _ =>
        max_index ← radix_tree_maxindex h;
        gang fuel (fun index n => __lookup_tag (rnode root) index n tag) max_index first_index max_items
    end.

(** * Indices *)

(** [64^h], the number of indices below a pointer at height [h]. *)
Definition span (h : nat) : Z := 2 ^ (6 * Z.of_nat h).

Lemma span_0 : span 0 = 1.
Proof. done. Qed.

Lemma span_S h : span (S h) = 64 * span h.
Proof. unfold span. rewrite Nat2Z.inj_succ, Z.mul_succ_r, Z.pow_add_r by lia. lia. Qed.

Lemma span_pos h : 0 < span h.
Proof. apply Z.pow_pos_nonneg; lia. Qed.

Lemma offset_eq h j : offset h j = (j / span h) mod 64.
Proof.
  unfold offset, span, RADIX_TREE_MAP_SHIFT, RADIX_TREE_MAP_MASK. rewrite Z.shiftr_div_pow2 by lia.
  rewrite (Z.mul_comm (Z.of_nat h)). by rewrite (land_pow2_sub1 _ 6) by lia.
Qed.

Lemma offset_range h j : 0 <= offset h j < 64.
Proof. rewrite offset_eq. apply Z.mod_pos_bound. lia. Qed.

Lemma mod_span_S h j : j mod span (S h) = offset h j * span h + j mod span h.
Proof.
  rewrite offset_eq, span_S, (Z.mul_comm 64). pose proof (span_pos h).
  rewrite Z.rem_mul_r by lia. lia.
Qed.

(** Two indices with the same path. *)
Lemma same_path h i j :
  i mod span (S h) = j mod span (S h) <-> offset h i = offset h j /\ i mod span h = j mod span h.
Proof.
  rewrite !mod_span_S. pose proof (span_pos h). pose proof (Z.mod_pos_bound i (span h) ltac:(lia)).
  pose proof (Z.mod_pos_bound j (span h) ltac:(lia)). split; [|by intros [-> ->]]. intros Heq.
  apply (Z.div_mod_unique (span h)); lia.
Qed.

Lemma mod_span_0 j : j mod span 0 = 0.
Proof. by rewrite span_0, Z.mod_1_r. Qed.

(** The table of largest indices. *)
Lemma maxindex_spec h : (h <= 11)%nat -> radix_tree_maxindex h = Some (Z.min (span h) (2 ^ 64) - 1).
Proof. intros Hh. do 12 (destruct h as [|h]; [done|]). lia. Qed.

(** The indices a tree of that height can hold. *)
Definition fits (h : nat) (j : Z) : Prop := 0 <= j < Z.min (span h) (2 ^ 64).

Lemma fits_mod h j : fits h j -> j mod span h = j.
Proof. intros Hj. apply Z.mod_small. unfold fits in Hj. lia. Qed.

Lemma span_mono h h' : (h <= h')%nat -> span h <= span h'.
Proof. intros. apply Z.pow_le_mono_r; lia. Qed.

Lemma fits_mono h h' j : (h <= h')%nat -> fits h j -> fits h' j.
Proof. intros Hh Hj. pose proof (span_mono _ _ Hh). unfold fits in *. lia. Qed.

(** An index of a lower tree is below slot 0 of a higher one. *)
Lemma offset_fits h j : 0 <= j < 2 ^ 64 -> fits (S h) j -> offset h j = 0 <-> fits h j.
Proof.
  intros Hj Hf. pose proof (fits_mod _ _ Hf) as Hm. rewrite mod_span_S in Hm.
  pose proof (span_pos h). pose proof (Z.mod_pos_bound j (span h) ltac:(lia)). pose proof (offset_range h j).
  unfold fits in *. split; [intros; nia|]. intros. nia.
Qed.

(** * Trees as maps *)

(** The item at an index, from a pointer at height [h]. *)
Fixpoint get (h : nat) (s : slot) (j : Z) : option positive :=
  match h, s with
  | O, Item p => Some p
  | S h', Node _ _ slots _ => s ← aget slots (offset h' j); get h' s j
  | _, _ => None
  end.

(** The map a tree stands for. *)
Definition contents (root : radix_tree_root) (j : Z) : option positive :=
  if (0 <=? j) && (j <? Z.min (span (height root)) (2 ^ 64)) then get (height root) (rnode root) j else None.

(** The tag of a child as its parent has it. *)
Definition tag_bit (tags : list Z) (tag i : Z) : bool := default false (tag_get tags tag i).

(** Some item below has the tag. *)
Definition has_tag (tag : Z) (s : slot) : bool :=
  match s with Node _ _ _ tags => default false (any_tag_set tags tag) | _ => false end.

(** The tag of the item at an index, from a pointer at height [h] whose own tag is [b]. *)
Fixpoint tagged (h : nat) (s : slot) (b : bool) (tag j : Z) : bool :=
  match h, s with
  | O, _ => b
  | S h', Node _ _ slots tags =>
      match aget slots (offset h' j) with
      | Some s => tagged h' s (tag_bit tags tag (offset h' j)) tag j
      | None => false
      end
  | _, _ => false
  end.

(** The tag of the item at an index of a tree. *)
Definition item_tag (root : radix_tree_root) (tag j : Z) : bool :=
  (0 <=? j) && (j <? Z.min (span (height root)) (2 ^ 64)) &&
  tagged (height root) (rnode root) (root_tag_get root tag) tag j.

Definition used (s : slot) : bool := negb (is_null s).

Definition children (slots : list slot) : Z := Z.of_nat (length (filter (fun s => used s = true) slots)).

(** The tag [b] of a pointer at height [h] is right: only items have tags, and a node
    has one exactly when some child of it has. *)
Definition bit_ok (h : nat) (s : slot) (tag : Z) (b : bool) : Prop :=
  match h with
  | O => b = true -> used s = true
  | _ => b = has_tag tag s
  end.

(** Well-formed pointers at height [h]: the right shape and height, [count] the number
    of children, and the right tags. *)
Fixpoint wf (h : nat) (s : slot) : Prop :=
  match h, s with
  | _, Null => True
  | O, Item _ => True
  | S h', Node nh count slots tags =>
      nh = h /\ length slots = 64%nat /\ count = children slots /\
      length tags = 2%nat /\ Forall is_u64 tags /\
      foldr (fun s P => wf h' s /\ P) True slots /\
      forall tag i s, 0 <= tag < 2 -> aget slots i = Some s -> bit_ok h' s tag (tag_bit tags tag i)
  | _, _ => False
  end.

(** Well-formed trees.  The highest possible tree has room for indices of more than 64
    bits, which are not in use. *)
Record tree_wf (root : radix_tree_root) : Prop := {
  tree_height : (height root <= 11)%nat;
  tree_slots : wf (height root) (rnode root);
  tree_top : forall j, 2 ^ 64 <= j < span (height root) -> get (height root) (rnode root) j = None;
  tree_tags : forall tag, 0 <= tag < 2 -> bit_ok (height root) (rnode root) tag (root_tag_get root tag)
}.

Lemma wf_all h slots : foldr (fun s P => wf h s /\ P) True slots <-> Forall (wf h) slots.
Proof. induction slots as [|s l IH]; simpl; [done|]. by rewrite IH, Forall_cons_iff. Qed.

(** The parts of a well-formed node. *)
Record node_wf (h : nat) (slots : list slot) (tags : list Z) : Prop := {
  node_slots : length slots = 64%nat;
  node_tags : length tags = 2%nat;
  node_words : Forall is_u64 tags;
  node_children : Forall (wf h) slots;
  node_bits : forall tag i s, 0 <= tag < 2 -> aget slots i = Some s -> bit_ok h s tag (tag_bit tags tag i)
}.

Lemma wf_node h nh count slots tags :
  wf (S h) (Node nh count slots tags) <-> nh = S h /\ count = children slots /\ node_wf h slots tags.
Proof.
  simpl. rewrite wf_all. split.
  - intros (-> & Hl & -> & Ht & Hu & Hf & Hb). done.
  - intros (-> & -> & [Hl Ht Hu Hf Hb]). done.
Qed.

(** The well-formed pointers at height [h + 1]. *)
Lemma wf_S h s :
  wf (S h) s -> s = Null \/ exists slots tags, s = Node (S h) (children slots) slots tags /\ node_wf h slots tags.
Proof.
  destruct s as [|p|nh count slots tags]; [by left|done|]. rewrite wf_node. intros (-> & -> & Hn). right. by exists slots, tags.
Qed.

Lemma wf_0 s : wf 0 s -> s = Null \/ exists p, s = Item p.
Proof. destruct s as [|p|]; simpl; [by left|by right; exists p|done]. Qed.

Lemma slots_get (slots : list slot) i : length slots = 64%nat -> 0 <= i < 64 -> exists s, aget slots i = Some s.
Proof. intros Hl Hi. apply aget_is_Some. unfold zlen. lia. Qed.

Lemma wf_aget h (slots : list slot) i s : Forall (wf h) slots -> aget slots i = Some s -> wf h s.
Proof.
  intros Hf Hs. rewrite list.Forall_forall in Hf. apply Hf. pose proof (aget_range _ _ _ Hs).
  rewrite aget_lookup in Hs by lia. by eapply list_elem_of_lookup_2.
Qed.

Lemma get_null h j : get h Null j = None.
Proof. by destruct h. Qed.

(** One step down. *)
Lemma get_node h nh n slots tags c j : aget slots (offset h j) = Some c -> get (S h) (Node nh n slots tags) j = get h c j.
Proof. intros Hc. simpl. by rewrite Hc. Qed.

Lemma tagged_node h nh n slots tags b tag c j :
  aget slots (offset h j) = Some c -> tagged (S h) (Node nh n slots tags) b tag j = tagged h c (tag_bit tags tag (offset h j)) tag j.
Proof. intros Hc. simpl. by rewrite Hc. Qed.

(** ** Tags of one node *)

Lemma mask_bit i j : 0 <= i < 64 -> 0 <= j < 64 -> Z.testbit (shl64 1 i) j = (j =? i).
Proof.
  intros Hi Hj. rewrite shl64_bits by lia. destruct (Z.eqb_spec j i) as [->|Hne]; [rewrite Z.sub_diag; simpl; zcases|].
  destruct (Z.lt_ge_cases j i); [rewrite Z.testbit_neg_r by lia; zcases|].
  rewrite Z.bits_above_log2 by (simpl; lia). zcases.
Qed.

Lemma tag_word_bit tags w tag i : aget tags tag = Some w -> 0 <= i < 64 -> tag_bit tags tag i = Z.testbit w i.
Proof.
  intros Hw Hi. unfold tag_bit, tag_get. rewrite Hw. simpl. unfold shr64. rewrite Z.mod_small by lia.
  change 1 with (Z.ones 1). rewrite Z.land_ones by lia. change (2 ^ 1) with 2.
  rewrite <- Z.bit0_mod, Z.shiftr_spec, Z.add_0_l by lia. by destruct (Z.testbit w i).
Qed.

Section tags.
Context (tags : list Z) (Hlen : length tags = 2%nat) (Hu : Forall is_u64 tags).

Lemma tags_word tag : 0 <= tag < 2 -> exists w, aget tags tag = Some w /\ is_u64 w.
Proof using Hlen Hu.
  intros Ht. assert (Hw : is_Some (aget tags tag)) by (apply aget_is_Some; unfold zlen; lia).
  destruct Hw as [w Hw]. exists w. split; [done|]. pose proof (aget_range _ _ _ Hw).
  rewrite aget_lookup in Hw by lia. rewrite list.Forall_lookup in Hu. by eapply Hu.
Qed.

Lemma tag_get_spec tag i : 0 <= tag < 2 -> tag_get tags tag i = Some (tag_bit tags tag i).
Proof using Hlen Hu. intros Ht. destruct (tags_word tag Ht) as (w & Hw & _). unfold tag_bit, tag_get. by rewrite Hw. Qed.

(** A word of the tags replaced. *)
Lemma tag_update tag w w' (f : Z -> bool -> bool) :
  0 <= tag < 2 -> aget tags tag = Some w -> is_u64 w' ->
  (forall j, 0 <= j < 64 -> Z.testbit w' j = f j (Z.testbit w j)) ->
  exists tags', aset tags tag w' = Some tags' /\ length tags' = 2%nat /\ Forall is_u64 tags' /\
    forall t j, 0 <= t < 2 -> 0 <= j < 64 ->
      tag_bit tags' t j = if t =? tag then f j (tag_bit tags t j) else tag_bit tags t j.
Proof using Hlen Hu.
  intros Ht Hw Hw' Hf. destruct tags as [|a [|b [|? ?]]]; try done.
  apply Forall_cons_iff in Hu as [Ha Hb]. apply Forall_cons_iff in Hb as [Hb _].
  assert (Hcase : tag = 0 \/ tag = 1) by lia.
  assert (Hbit : forall c d t j, 0 <= t < 2 -> 0 <= j < 64 -> tag_bit [c; d] t j = Z.testbit (if t =? 0 then c else d) j).
  { intros c d t j Htt Hj. apply tag_word_bit; [|done]. by assert (t = 0 \/ t = 1) as [->| ->] by lia. }
  destruct Hcase as [->| ->]; [exists [w'; b]|exists [a; w']]; simpl in Hw; (split; [done|]; split; [done|]; split; [by rewrite !Forall_cons_iff|]);
    intros t j Htt Hj; rewrite !Hbit by done; assert (t = 0 \/ t = 1) as [->| ->] by lia; simpl; try done;
    injection Hw as ->; by apply Hf.
Qed.

Lemma tag_set_spec tag i : 0 <= tag < 2 -> 0 <= i < 64 ->
  exists tags', tag_set tags tag i = Some tags' /\ length tags' = 2%nat /\ Forall is_u64 tags' /\
    forall t j, 0 <= t < 2 -> 0 <= j < 64 ->
      tag_bit tags' t j = if t =? tag then (j =? i) || tag_bit tags t j else tag_bit tags t j.
Proof using Hlen Hu.
  intros Ht Hi. destruct (tags_word tag Ht) as (w & Hw & Hwu). unfold tag_set. rewrite Hw. simpl.
  apply (tag_update tag w (Z.lor w (shl64 1 i)) (fun j b => (j =? i) || b)); [done|done|auto with words|].
  intros j Hj. rewrite Z.lor_spec, mask_bit by lia. apply orb_comm.
Qed.

Lemma tag_clear_spec tag i : 0 <= tag < 2 -> 0 <= i < 64 ->
  exists tags', tag_clear tags tag i = Some tags' /\ length tags' = 2%nat /\ Forall is_u64 tags' /\
    forall t j, 0 <= t < 2 -> 0 <= j < 64 ->
      tag_bit tags' t j = if t =? tag then negb (j =? i) && tag_bit tags t j else tag_bit tags t j.
Proof using Hlen Hu.
  intros Ht Hi. destruct (tags_word tag Ht) as (w & Hw & Hwu). unfold tag_clear. rewrite Hw. simpl.
  apply (tag_update tag w (Z.land w (not64 (shl64 1 i))) (fun j b => negb (j =? i) && b)); [done|done|auto with words|].
  intros j Hj. rewrite Z.land_spec, not64_bits, mask_bit by lia. rewrite andb_comm. zcases.
Qed.

Lemma any_tag_spec tag : 0 <= tag < 2 ->
  exists b, any_tag_set tags tag = Some b /\ (b = true <-> exists i, 0 <= i < 64 /\ tag_bit tags tag i = true).
Proof using Hlen Hu.
  intros Ht. destruct (tags_word tag Ht) as (w & Hw & Hwu). unfold any_tag_set. rewrite Hw. simpl.
  eexists. split; [done|]. rewrite negb_true_iff, Z.eqb_neq. split.
  - intros Hne. unfold is_u64 in Hwu. assert (Hlog : Z.log2 w < 64) by (apply Z.log2_lt_pow2; lia).
    pose proof (Z.log2_nonneg w). exists (Z.log2 w). split; [done|].
    rewrite (tag_word_bit tags w) by done. apply Z.bit_log2. lia.
  - intros (i & Hi & Hb) ->. rewrite (tag_word_bit tags 0) in Hb by done. by rewrite Z.bits_0 in Hb.
Qed.
End tags.

(** ** One node with a child replaced *)

Lemma children_update slots slots' o c c' :
  aget slots o = Some c -> aset slots o c' = Some slots' ->
  children slots' = children slots - Z.b2z (used c) + Z.b2z (used c').
Proof.
  intros Hc. destruct (aget_split _ _ _ Hc) as (l & r & -> & Hl). rewrite aset_mid by done.
  intros [= <-]. unfold children. rewrite !list.filter_app, !length_app. cbn [filter list_filter].
  destruct (used c), (used c'); simpl; lia.
Qed.

Lemma children_range slots : length slots = 64%nat -> 0 <= children slots <= 64.
Proof. intros Hl. unfold children. pose proof (length_filter (fun s => used s = true) slots). lia. Qed.

(** A child counts. *)
Lemma children_pos slots i s : aget slots i = Some s -> used s = true -> 1 <= children slots.
Proof.
  intros Hs Hu. destruct (aget_split _ _ _ Hs) as (l & r & -> & _). unfold children.
  rewrite list.filter_app, length_app. cbn [filter list_filter]. rewrite Hu. simpl. lia.
Qed.

(** The last child leaves no other. *)
Lemma children_single slots i j s s' :
  children slots = 1 -> aget slots i = Some s -> used s = true -> aget slots j = Some s' -> j <> i -> s' = Null.
Proof.
  intros H1 Hs Hu Hs' Hne. destruct (aset slots i Null) as [slots'|] eqn:Hset.
  - pose proof (children_update _ _ _ _ _ Hs Hset) as Hn. rewrite H1, Hu in Hn. simpl in Hn.
    assert (Hj : aget slots' j = Some s') by (rewrite (aget_aset _ _ _ _ _ Hset); zcases).
    destruct (used s') eqn:Hu'; [pose proof (children_pos _ _ _ Hj Hu'); lia|]. by destruct s'.
  - rewrite aset_Some in Hset by (by eapply aget_range). done.
Qed.

Section update.
Context (h : nat) (slots : list slot) (tags : list Z) (Hn : node_wf h slots tags).

Lemma child_get j : exists c, aget slots (offset h j) = Some c /\ wf h c /\
  forall tag, 0 <= tag < 2 -> bit_ok h c tag (tag_bit tags tag (offset h j)).
Proof using Hn.
  destruct Hn as [Hl _ _ Hf Hb]. destruct (slots_get slots (offset h j) Hl (offset_range h j)) as [c Hc].
  exists c. split; [done|]. split; [by eapply wf_aget|]. intros tag Ht. by apply Hb.
Qed.

Lemma update_child o c c' tags' :
  aget slots o = Some c -> wf h c' -> length tags' = 2%nat -> Forall is_u64 tags' ->
  (forall tag i, 0 <= tag < 2 -> 0 <= i < 64 -> i <> o -> tag_bit tags' tag i = tag_bit tags tag i) ->
  (forall tag, 0 <= tag < 2 -> bit_ok h c' tag (tag_bit tags' tag o)) ->
  exists slots', aset slots o c' = Some slots' /\ node_wf h slots' tags' /\
    children slots' = children slots - Z.b2z (used c) + Z.b2z (used c') /\
    (forall nh n j, get (S h) (Node nh n slots' tags') j =
       if offset h j =? o then get h c' j else get (S h) (Node nh n slots tags) j) /\
    (forall nh n b tag j, 0 <= tag < 2 -> tagged (S h) (Node nh n slots' tags') b tag j =
       if offset h j =? o then tagged h c' (tag_bit tags' tag o) tag j
       else tagged (S h) (Node nh n slots tags) b tag j).
Proof using Hn.
  intros Hc Hc' Ht' Hu' Hsame Hok. destruct Hn as [Hl Ht Hu Hf Hb]. pose proof (aget_range _ _ _ Hc) as Ho.
  exists (<[Z.to_nat o := c']> slots). assert (Hset := aset_Some slots o c' Ho). split; [done|].
  assert (Hget := fun j => aget_aset _ _ o j _ Hset). unfold zlen in Ho. split; [split|].
  - by rewrite length_insert.
  - done.
  - done.
  - apply list.Forall_insert; done.
  - intros tag i s Htag. rewrite Hget. destruct (Z.eqb_spec o i) as [<-|Hne]; [intros [= <-]; auto|].
    intros Hs. pose proof (aget_range _ _ _ Hs) as Hi. unfold zlen in Hi. rewrite Hsame by lia. by apply Hb.
  - split; [by eapply children_update|]. split.
    + intros nh n j. simpl. rewrite Hget, Z.eqb_sym. destruct (Z.eqb_spec (offset h j) o); done.
    + intros nh n b tag j Htag. simpl. rewrite Hget, Z.eqb_sym. destruct (Z.eqb_spec (offset h j) o) as [->|Hne]; [done|].
      rewrite Hsame by (done || apply offset_range). done.
Qed.

(** The same with the tags left alone. *)
Lemma update_child_only o c c' :
  aget slots o = Some c -> wf h c' ->
  (forall tag, 0 <= tag < 2 -> bit_ok h c' tag (tag_bit tags tag o)) ->
  exists slots', aset slots o c' = Some slots' /\ node_wf h slots' tags /\
    children slots' = children slots - Z.b2z (used c) + Z.b2z (used c') /\
    (forall nh n j, get (S h) (Node nh n slots' tags) j =
       if offset h j =? o then get h c' j else get (S h) (Node nh n slots tags) j) /\
    (forall nh n b tag j, 0 <= tag < 2 -> tagged (S h) (Node nh n slots' tags) b tag j =
       if offset h j =? o then tagged h c' (tag_bit tags tag o) tag j
       else tagged (S h) (Node nh n slots tags) b tag j).
Proof using Hn. intros Hc Hc' Hok. apply (update_child o c c' tags); try done; apply Hn. Qed.
End update.

(** A pointer with the tags of [Null]. *)
Lemma bit_ok_null h tag b : bit_ok h Null tag b <-> b = false.
Proof. destruct h; simpl; [destruct b; naive_solver|done]. Qed.

(** The zeroed node. *)
Lemma new_node_wf h : node_wf h (replicate 64 Null) [0; 0].
Proof.
  split; [done|done|by rewrite !Forall_cons_iff| |].
  - apply Forall_replicate. by destruct h.
  - intros tag i s Ht Hs. pose proof (aget_range _ _ _ Hs) as Hi. change (zlen (replicate 64 Null)) with 64 in Hi.
    rewrite aget_lookup in Hs by lia. apply lookup_replicate in Hs as [-> _]. apply bit_ok_null.
    rewrite (tag_word_bit _ 0); [apply Z.bits_0| |done]. by assert (tag = 0 \/ tag = 1) as [->| ->] by lia.
Qed.

Lemma new_node_empty h b tag j : 0 <= tag < 2 ->
  get (S h) (new_node (S h)) j = None /\ tagged (S h) (new_node (S h)) b tag j = false /\ has_tag tag (new_node (S h)) = false.
Proof.
  intros Ht. destruct (child_get _ _ _ (new_node_wf h) j) as (c & Hc & _ & Hok). cbn [get tagged new_node]. rewrite Hc.
  specialize (Hok tag Ht). pose proof (aget_range _ _ _ Hc) as Hi. rewrite aget_lookup in Hc by lia.
  apply lookup_replicate in Hc as [-> _]. apply bit_ok_null in Hok. rewrite Hok. simpl. rewrite get_null.
  split; [done|]. split; [by destruct h|]. by assert (tag = 0 \/ tag = 1) as [->| ->] by lia.
Qed.

(** * Inserting *)

(** The nodes missing on the way to an index. *)
Fixpoint missing (h : nat) (index : Z) (s : slot) : nat :=
  match h, s with
  | O, _ => O
  | S h', Node _ _ slots _ => match aget slots (offset h' index) with Some s => missing h' index s | None => O end
  | S _, _ => h
  end.

Lemma missing_null h index : missing h index Null = h.
Proof. by destruct h. Qed.

Lemma missing_le h index s : (missing h index s <= h)%nat.
Proof.
  revert s. induction h as [|h IH]; intros s; [done|]. destruct s as [| |nh n slots tags]; simpl; [lia|lia|].
  destruct (aget slots (offset h index)) as [c|]; [|lia]. specialize (IH c). lia.
Qed.

(** What an insertion returns. *)
Definition insert_error (h : nat) (avail : nat) (index : Z) (s : slot) : Z :=
  match get h s index with
  | Some _ => - EEXIST
  | None => if (missing h index s <=? avail)%nat then 0 else - ENOMEM
  end.

(** What an insertion leaves at height [h]: the pointer [s'], with the error. *)
Record inserted (h : nat) (index : Z) (item : positive) (s s' : slot) (bits : Z -> bool) (err : Z) : Prop := {
  ins_wf : wf h s';
  ins_bits : forall tag, 0 <= tag < 2 -> bit_ok h s' tag (bits tag);
  ins_tags : forall tag j, 0 <= tag < 2 -> tagged h s' (bits tag) tag j = tagged h s (bits tag) tag j;
  ins_used : used s = true -> used s' = true;
  ins_get : forall j, get h s' j = if (err =? 0) && (j mod span h =? index mod span h) then Some item else get h s j
}.

Definition insert_ok (h : nat) (s : slot) : Prop := forall avail index item bits,
  (forall tag, 0 <= tag < 2 -> bit_ok h s tag (bits tag)) ->
  exists s', insert_down h avail index item s =
      Some (s', (avail - missing h index s)%nat, insert_error h avail index s) /\
    inserted h index item s s' bits (insert_error h avail index s).

Lemma insert_node h slots tags :
  node_wf h slots tags -> (forall s, wf h s -> insert_ok h s) ->
  insert_ok (S h) (Node (S h) (children slots) slots tags).
Proof.
  intros Hn IH avail index item bits Hbits. destruct (child_get _ _ _ Hn index) as (c & Hc & Hwc & Hok).
  destruct (IH c Hwc avail index item (fun tag => tag_bit tags tag (offset h index)) Hok) as (c' & Hdown & [Hwf Hb Ht Hused Hget]).
  destruct (update_child_only _ _ _ Hn _ _ c' Hc Hwf Hb) as (slots' & Hset & Hn' & Hcount & Hg & Htg).
  assert (Herr : insert_error (S h) avail index (Node (S h) (children slots) slots tags) = insert_error h avail index c).
  { unfold insert_error. simpl. by rewrite Hc. }
  rewrite Herr. exists (Node (S h) (children slots') slots' tags). split; [|split].
  - simpl. rewrite Hc. simpl. rewrite Hdown. simpl. rewrite Hset. simpl.
    rewrite !tag_get_spec by (lia || apply Hn). simpl.
    assert (Hbug : (h =? 0)%nat && (insert_error h avail index c =? 0) &&
      (tag_bit tags 0 (offset h index) || tag_bit tags 1 (offset h index)) = false).
    { destruct h as [|h']; [|done]. simpl. apply wf_0 in Hwc as [->|[p ->]]; [|done].
      pose proof (proj1 (bit_ok_null _ _ _) (Hok 0 ltac:(lia))) as ->.
      pose proof (proj1 (bit_ok_null _ _ _) (Hok 1 ltac:(lia))) as ->. apply andb_false_r. }
    assert (Hn64 : (if is_null c && negb (is_null c') then u32 (children slots + 1) else children slots) = children slots').
    { pose proof (children_range slots' (node_slots _ _ _ Hn')). unfold used in *.
      destruct (is_null c), (is_null c'); simpl in *; try lia.
      rewrite wrap_small; [lia|]. unfold is_word. lia. }
    by rewrite Hbug, Hn64.
  - by apply wf_node.
  - intros tag Htag. rewrite (Hbits tag Htag). done.
  - intros tag j Htag. rewrite Htg by done. destruct (Z.eqb_spec (offset h j) (offset h index)) as [Heq|]; [|done].
    rewrite Ht by done. simpl. by rewrite Heq, Hc.
  - done.
  - intros j. rewrite Hg. destruct (Z.eqb_spec (offset h j) (offset h index)) as [Heq|Hne].
    + rewrite Hget. simpl. rewrite Heq, Hc. destruct (insert_error h avail index c =? 0); [|done]. simpl.
      replace (j mod span (S h) =? index mod span (S h)) with (j mod span h =? index mod span h); [done|].
      pose proof (same_path h j index). zcases; naive_solver.
    + assert (Hp : j mod span (S h) <> index mod span (S h)) by (intros Hp; apply same_path in Hp; naive_solver).
      apply Z.eqb_neq in Hp. rewrite Hp, andb_false_r. done.
Qed.

Lemma insert_down_spec h s : wf h s -> insert_ok h s.
Proof.
  revert s. induction h as [|h IH]; intros s Hs.
  - intros avail index item bits Hbits. unfold insert_error. simpl. rewrite Nat.sub_0_r.
    apply wf_0 in Hs as [->|[p ->]]; simpl; eexists; (split; [done|]; split; try done); intros j; try done.
    by rewrite !mod_span_0.
  - apply wf_S in Hs as [->|(slots & tags & -> & Hn)]; [|by apply insert_node].
    intros [|avail] index item bits Hbits.
    + exists Null. unfold insert_error. by rewrite missing_null, get_null.
    + pose proof (new_node_empty h) as Hnew.
      destruct (insert_node h _ _ (new_node_wf h) IH avail index item bits) as (s' & Heq & [Hw Hb Ht Hu Hg]).
      { intros tag Htag. change (bit_ok (S h) (new_node (S h)) tag (bits tag)). specialize (Hbits tag Htag).
        apply bit_ok_null in Hbits. rewrite Hbits. symmetry. by apply (Hnew true tag 0). }
      change (Node (S h) (children (replicate 64 Null)) (replicate 64 Null) [0; 0]) with (new_node (S h)) in *.
      assert (Hm : missing (S h) index (new_node (S h)) = h).
      { cbn [missing new_node]. destruct (child_get _ _ _ (new_node_wf h) index) as (c & Hc & _). rewrite Hc.
        pose proof (aget_range _ _ _ Hc). rewrite aget_lookup in Hc by lia. apply lookup_replicate in Hc as [-> _].
        apply missing_null. }
      assert (He : insert_error (S h) (S avail) index Null = insert_error (S h) avail index (new_node (S h))).
      { unfold insert_error. rewrite Hm, missing_null, get_null. by destruct (Hnew true 0 index) as [-> _]. }
      rewrite He, missing_null. rewrite Hm in Heq. exists s'. split; [done|]. split; [done|done| |done|].
      * intros tag j Htag. rewrite Ht by done. by destruct (Hnew (bits tag) tag j Htag) as (_ & -> & _).
      * intros j. rewrite Hg. by destruct (Hnew true 0 j) as [-> _].
Qed.

(** ** One level more *)

(** The root above the tree that [radix_tree_extend] makes. *)
Definition grow (root : radix_tree_root) : radix_tree_root :=
  let h := S (height root) in
  Root h (gfp_mask root)
    (Node h 1 (<[0%nat := rnode root]> (replicate 64 Null))
       [Z.b2z (root_tag_get root 0); Z.b2z (root_tag_get root 1)]).

(** Two trees with the same items and tags. *)
Record same_items (root root' : radix_tree_root) : Prop := {
  same_wf : tree_wf root';
  same_contents : forall j, contents root' j = contents root j;
  same_tags : forall tag j, 0 <= tag < 2 -> item_tag root' tag j = item_tag root tag j
}.

Lemma same_items_refl root : tree_wf root -> same_items root root.
Proof. by split. Qed.

Lemma same_items_trans r1 r2 r3 : same_items r1 r2 -> same_items r2 r3 -> same_items r1 r3.
Proof.
  intros [_ Hc Ht] [Hw Hc' Ht']. split; [done|by intros; rewrite Hc'|]. intros. by rewrite Ht', Ht.
Qed.

Lemma level_bits b0 b1 tag i : 0 <= tag < 2 -> 0 <= i < 64 ->
  tag_bit [Z.b2z b0; Z.b2z b1] tag i = (i =? 0) && (if tag =? 0 then b0 else b1).
Proof.
  intros Ht Hi. assert (Hb : forall b, Z.testbit (Z.b2z b) i = (i =? 0) && b).
  { intros b. destruct (Z.eqb_spec i 0) as [->|Hne]; [apply Z.b2z_bit0|].
    apply Z.bits_above_log2; [by destruct b|]. destruct b; simpl; lia. }
  rewrite <- Hb. apply tag_word_bit; [|done]. by assert (tag = 0 \/ tag = 1) as [->| ->] by lia.
Qed.

(** The top slot of an index outside the lower tree is not slot 0. *)
Lemma offset_span h j : 0 <= j < span (S h) -> (offset h j =? 0) = (j <? span h).
Proof.
  intros Hj. pose proof (mod_span_S h j) as Hm. rewrite Z.mod_small in Hm by done.
  pose proof (span_pos h). pose proof (Z.mod_pos_bound j (span h) ltac:(lia)). pose proof (offset_range h j). zcases; nia.
Qed.

Section grow.
Context (root : radix_tree_root) (Hroot : tree_wf root) (Hused : used (rnode root) = true).

Lemma root_bit tag : 0 <= tag < 2 -> (if tag =? 0 then root_tag_get root 0 else root_tag_get root 1) = root_tag_get root tag.
Proof using Type. intros Ht. by assert (tag = 0 \/ tag = 1) as [->| ->] by lia. Qed.

Lemma grow_node :
  node_wf (height root) (<[0%nat := rnode root]> (replicate 64 Null)) [Z.b2z (root_tag_get root 0); Z.b2z (root_tag_get root 1)] /\
  children (<[0%nat := rnode root]> (replicate 64 Null)) = 1 /\
  (forall j, 0 <= j < span (S (height root)) ->
     get (S (height root)) (rnode (grow root)) j = if j <? span (height root) then get (height root) (rnode root) j else None) /\
  (forall tag j, 0 <= tag < 2 -> 0 <= j < span (S (height root)) -> forall b,
     tagged (S (height root)) (rnode (grow root)) b tag j =
     (j <? span (height root)) && tagged (height root) (rnode root) (root_tag_get root tag) tag j).
Proof using Hroot Hused.
  destruct Hroot as [_ Hs _ Ht]. set (tags := [Z.b2z (root_tag_get root 0); Z.b2z (root_tag_get root 1)]).
  assert (Hb : forall tag i, 0 <= tag < 2 -> 0 <= i < 64 -> tag_bit tags tag i = (i =? 0) && root_tag_get root tag).
  { intros. unfold tags. rewrite level_bits by done. by rewrite root_bit. }
  destruct (update_child _ _ _ (new_node_wf (height root)) 0 Null (rnode root) tags) as (slots' & Hset & Hn & Hc & Hg & Htg);
    [done|done|done|by unfold tags; rewrite !Forall_cons_iff; destruct (root_tag_get root 0), (root_tag_get root 1)| | |].
  { intros tag i Htag Hi Hne. rewrite Hb by done. change [0; 0] with [Z.b2z false; Z.b2z false].
    rewrite level_bits by done. apply Z.eqb_neq in Hne. by rewrite Hne. }
  { intros tag Htag. rewrite Hb by lia. by apply Ht. }
  apply aset_inv in Hset as [_ ->]. change (Z.to_nat 0) with 0%nat in *. rewrite Hused in Hc.
  split; [done|]. split; [done|]. split.
  - intros j Hj. unfold grow. cbn [rnode height]. rewrite Hg, offset_span by done.
    destruct (j <? span (height root)); [done|]. by apply (new_node_empty (height root) true 0).
  - intros tag j Htag Hj b. unfold grow. cbn [rnode]. rewrite Htg, offset_span by done.
    destruct (j <? span (height root)); [|apply (new_node_empty (height root) b tag j Htag)]. by rewrite Hb by lia.
Qed.
End grow.

Lemma contents_get root j : fits (height root) j -> contents root j = get (height root) (rnode root) j.
Proof. unfold fits, contents. intros Hj. zcases; lia. Qed.

Lemma contents_out root j : ~ fits (height root) j -> contents root j = None.
Proof. unfold fits, contents. intros Hj. zcases; lia. Qed.

(** Trees are the same when the pointers read the same wherever the higher one reaches. *)
Lemma same_items_intro root root' :
  tree_wf root' -> (height root <= height root')%nat ->
  (forall j, fits (height root') j ->
     get (height root') (rnode root') j = if j <? span (height root) then get (height root) (rnode root) j else None) ->
  (forall tag j, 0 <= tag < 2 -> fits (height root') j ->
     tagged (height root') (rnode root') (root_tag_get root' tag) tag j =
     (j <? span (height root)) && tagged (height root) (rnode root) (root_tag_get root tag) tag j) ->
  same_items root root'.
Proof.
  intros Hw Hh Hg Ht. pose proof (span_mono _ _ Hh) as Hspan. split; [done| |].
  - intros j. specialize (Hg j). unfold fits in Hg. unfold contents. zcases; try lia.
    + rewrite Hg by lia. zcases; lia.
    + rewrite Hg by lia. zcases; lia.
  - intros tag j Htag. specialize (Ht tag j Htag). unfold fits in Ht. unfold item_tag. zcases; try lia.
    + rewrite Ht by lia. zcases; lia.
    + rewrite Ht by lia. zcases; lia.
Qed.

Lemma grow_same root :
  tree_wf root -> used (rnode root) = true -> (height root < 11)%nat -> same_items root (grow root).
Proof.
  intros Hroot Hu Hh. destruct (grow_node root Hroot Hu) as (Hn & Hc & Hg & Ht).
  apply same_items_intro; [|simpl; lia| |].
  - split; cbn [height grow rnode]; [lia| | |].
    + by apply wf_node.
    + intros j Hj. assert (span (height root) <= span 10) by (apply span_mono; lia).
      change (span 10) with (2 ^ 60) in *.
      change (get (S (height root)) (rnode (grow root)) j = None). rewrite Hg by lia. zcases; lia.
    + intros tag Htag. change (root_tag_get root tag = has_tag tag (rnode (grow root))). unfold grow. cbn [rnode has_tag].
      by assert (tag = 0 \/ tag = 1) as [->| ->] by lia; [destruct (root_tag_get root 0)|destruct (root_tag_get root 1)].
  - intros j Hj. apply Hg. unfold fits in Hj. simpl in Hj. lia.
  - intros tag j Htag Hj. apply Ht; [done|]. unfold fits in Hj. simpl in Hj. lia.
Qed.

(** ** The height for an index *)

(** The least height from [h] on of a tree with room for the index. *)
Fixpoint depth_from (index : Z) (n h : nat) : nat :=
  match n with
  | O => h
  | S n' => if index <? span h then h else depth_from index n' (S h)
  end.

Definition depth (index : Z) : nat := depth_from index 11 0.

Lemma depth_from_ge index n h : (h <= depth_from index n h)%nat.
Proof. revert h. induction n as [|n IH]; intros h; simpl; [done|]. specialize (IH (S h)). zcases; lia. Qed.

Lemma depth_from_spec index n h k :
  index < span (h + n) -> (h <= k)%nat -> index < span k <-> (depth_from index n h <= k)%nat.
Proof.
  revert h. induction n as [|n IH]; intros h Hn Hk; simpl; pose proof (span_mono _ _ Hk).
  - rewrite Nat.add_0_r in Hn. lia.
  - destruct (Z.ltb_spec index (span h)); [lia|]. rewrite Nat.add_succ_r in Hn.
    pose proof (depth_from_ge index n (S h)). destruct (decide (h = k)) as [<-|Hne]; [lia|]. apply IH; [done|lia].
Qed.

Lemma depth_spec index h : 0 <= index < 2 ^ 64 -> fits h index <-> (depth index <= h)%nat.
Proof.
  intros Hi. unfold depth. rewrite <- (depth_from_spec index 11 0 h); unfold fits; [lia| |lia].
  change (span (0 + 11)) with (2 ^ 66). lia.
Qed.

Lemma depth_le index : 0 <= index < 2 ^ 64 -> (depth index <= 11)%nat.
Proof. intros Hi. apply depth_spec; [done|]. unfold fits. change (span 11) with (2 ^ 66). lia. Qed.

Lemma extend_height_spec index h :
  0 <= index < 2 ^ 64 -> (h <= depth index)%nat -> extend_height index h = Some (depth index).
Proof.
  intros Hi Hh. pose proof (depth_le _ Hi) as H11. unfold extend_height.
  destruct (loop_total (fun h => m ← radix_tree_maxindex h; Some (if m <? index then Next (S h) else Done h))
    (fun h => (h <= depth index)%nat) (fun r => r = depth index) (fun h => (11 - h)%nat)) with (fuel := 12%nat) (s := h)
    as (r & -> & ->); [|done|lia|done].
  clear h Hh. intros h Hh. rewrite maxindex_spec by lia. simpl. eexists. split; [done|].
  pose proof (depth_spec index h Hi) as Hd. unfold fits in Hd. destruct (Z.ltb_spec (Z.min (span h) (2 ^ 64) - 1) index).
  - assert (h <> depth index) by lia. lia.
  - lia.
Qed.

Lemma extend_step_eq h root avail :
  extend_step h (root, S avail) =
  Some (if (S (height root) <? h)%nat then Next (grow root, avail) else Done (grow root, avail, 0)).
Proof.
  unfold extend_step. rewrite aset_Some by done. cbn [mbind option_bind]. unfold grow.
  by destruct (root_tag_get root 0), (root_tag_get root 1).
Qed.

Lemma extend_loop fuel h root avail :
  (height root < h)%nat -> (h - height root < fuel)%nat ->
  loop fuel (extend_step h) (root, avail) =
  let n := (h - height root)%nat in
  Some (if (n <=? avail)%nat then (Nat.iter n grow root, (avail - n)%nat, 0) else (Nat.iter avail grow root, O, - ENOMEM)).
Proof.
  revert root avail. induction fuel as [|fuel IH]; intros root avail Hh Hf; [lia|]. rewrite loop_S.
  destruct avail as [|avail]; [by cbn; replace (h - height root)%nat with (S (h - height root - 1)) by lia|].
  rewrite extend_step_eq. destruct (Nat.ltb_spec (S (height root)) h) as [Hlt|Hge].
  - rewrite IH by (simpl; lia). cbn zeta. change (height (grow root)) with (S (height root)).
    replace (h - height root)%nat with (S (h - S (height root))) by lia. rewrite !Nat.iter_succ_r.
    cbn [Nat.leb Nat.sub]. done.
  - replace (h - height root)%nat with 1%nat by lia. cbn. by rewrite Nat.sub_0_r.
Qed.

(** ** The whole insertion *)

(** The nodes an insertion allocates: those missing on the path in a tree with room for
    the index; in a tree without, those of the new levels too. *)
Definition need (root : radix_tree_root) (index : Z) : nat :=
  if (depth index <=? height root)%nat then missing (height root) index (rnode root)
  else if is_null (rnode root) then depth index
  else depth index - height root + (depth index - 1).

Lemma iter_grow n root :
  tree_wf root -> used (rnode root) = true -> (height root + n <= 11)%nat ->
  same_items root (Nat.iter n grow root) /\ used (rnode (Nat.iter n grow root)) = true /\
  height (Nat.iter n grow root) = (height root + n)%nat /\ gfp_mask (Nat.iter n grow root) = gfp_mask root.
Proof.
  intros Hw Hu. induction n as [|n IH]; intros Hn.
  - split; [by apply same_items_refl|]. split; [done|]. split; [simpl; lia|done].
  - destruct IH as (Hs & Hu' & Hh & Hm); [lia|]. cbn [Nat.iter nat_rect]. fold (Nat.iter n grow root).
    split; [|split; [done|]; split; [cbn; lia|done]].
    eapply same_items_trans; [done|]. apply grow_same; [apply Hs|done|lia].
Qed.

Lemma grow_missing root index :
  0 <= index < 2 ^ 64 -> depth index = S (height root) -> missing (S (height root)) index (rnode (grow root)) = height root.
Proof.
  intros Hi Hd. assert (Hnf : ~ fits (height root) index) by (rewrite depth_spec by done; lia).
  assert (Hf : fits (S (height root)) index) by (apply depth_spec; [done|lia]).
  assert (Ho : offset (height root) index <> 0) by (rewrite offset_fits; done).
  pose proof (offset_range (height root) index) as Hr. cbn [grow missing rnode].
  rewrite aget_lookup by lia. rewrite list_lookup_insert_ne by lia. rewrite lookup_replicate_2 by lia. apply missing_null.
Qed.

Definition insert_status (root : radix_tree_root) (avail : nat) (index : Z) : Z :=
  match contents root index with
  | Some _ => - EEXIST
  | None => if (need root index <=? avail)%nat then 0 else - ENOMEM
  end.

(** Well-formed pointers stay so when the change is at one index that fits. *)
Record tree_inserted (root root' : radix_tree_root) (index : Z) (item : positive) (err : Z) : Prop := {
  tins_wf : tree_wf root';
  tins_get : forall j, contents root' j = if (err =? 0) && (j =? index) then Some item else contents root j;
  tins_tags : forall tag j, 0 <= tag < 2 -> item_tag root' tag j = item_tag root tag j
}.

Lemma tree_insert_here root avail index item :
  tree_wf root -> fits (height root) index ->
  exists s, insert_down (height root) avail index item (rnode root) =
      Some (s, (avail - missing (height root) index (rnode root))%nat, insert_error (height root) avail index (rnode root)) /\
    ((height root =? 0)%nat && (insert_error (height root) avail index (rnode root) =? 0) &&
     (root_tag_get root 0 || root_tag_get root 1) = false) /\
    tree_inserted root (Root (height root) (gfp_mask root) s) index item
      (insert_error (height root) avail index (rnode root)).
Proof.
  intros [Hh Hs Htop Ht] Hf. destruct (insert_down_spec _ _ Hs avail index item (root_tag_get root) Ht)
    as (s & Heq & [Hw Hb Htg Hu Hg]). exists s. split; [done|].
  assert (Hsame : forall j, 0 <= j < span (height root) ->
    (j mod span (height root) =? index mod span (height root)) = (j =? index)).
  { intros j Hj. rewrite (fits_mod _ _ Hf), Z.mod_small by done. done. }
  split.
  - destruct (height root) as [|h] eqn:E; [|done]. simpl. unfold insert_error.
    apply wf_0 in Hs as [Hnull|[p Hp]]; [|by rewrite Hp]. rewrite Hnull in *.
    pose proof (proj1 (bit_ok_null _ _ _) (Ht 0 ltac:(lia))) as ->.
    pose proof (proj1 (bit_ok_null _ _ _) (Ht 1 ltac:(lia))) as ->. apply andb_false_r.
  - split; [split; cbn [height rnode]; [done|done| |done]| |].
    + intros j Hj. rewrite Hg, Hsame, Htop by lia. unfold fits in Hf. zcases; lia.
    + intros j. unfold contents. cbn [height rnode]. unfold fits in Hf. zcases; rewrite ?Hg, ?Hsame by lia; zcases; try lia; try done.
    + intros tag j Htag. unfold item_tag. cbn [height rnode]. by rewrite <- (Htg tag j Htag).
Qed.

(** The allocations and the error of the descent are those of the whole insertion in a
    tree that is high enough. *)
Lemma insert_high root avail index item :
  tree_wf root -> 0 <= index < 2 ^ 64 -> (depth index <= height root)%nat ->
  exists root', radix_tree_insert root avail index item =
      Some (root', (avail - missing (height root) index (rnode root))%nat, insert_error (height root) avail index (rnode root)) /\
    tree_inserted root root' index item (insert_error (height root) avail index (rnode root)).
Proof.
  intros Hw Hi Hd. assert (Hf : fits (height root) index) by (by apply depth_spec).
  destruct (tree_insert_here root avail index item Hw Hf) as (s & Heq & Hbug & Hins).
  eexists. split; [|done]. unfold radix_tree_insert. rewrite maxindex_spec by apply Hw. cbn [mbind option_bind].
  unfold fits in Hf. destruct (Z.ltb_spec (Z.min (span (height root)) (2 ^ 64) - 1) index); [lia|].
  cbn [mbind option_bind negb Z.eqb]. rewrite Heq. cbn [mbind option_bind]. by rewrite Hbug.
Qed.

(** Empty trees of any height. *)
Lemma empty_trees root root' :
  tree_wf root -> rnode root = Null -> rnode root' = Null -> (height root' <= 11)%nat ->
  (forall tag, 0 <= tag < 2 -> root_tag_get root' tag = false) -> same_items root root'.
Proof.
  intros [_ _ _ Ht] Hnull Hnull' Hh Hno'. rewrite Hnull in Ht.
  assert (Hno : forall tag, 0 <= tag < 2 -> root_tag_get root tag = false) by (intros; eapply bit_ok_null; eauto).
  assert (Hempty : forall h tag j, tagged h Null false tag j = false) by (by intros [|h]).
  split; [split; rewrite ?Hnull'| |].
  - done.
  - by destruct (height root').
  - intros. apply get_null.
  - intros tag Htag. apply bit_ok_null. by apply Hno'.
  - intros j. unfold contents. rewrite Hnull, Hnull', !get_null. by destruct (_ && _), (_ && _).
  - intros tag j Htag. unfold item_tag. rewrite Hnull, Hnull', Hno, Hno', !Hempty, !andb_false_r by done. done.
Qed.

Lemma empty_same root h :
  tree_wf root -> rnode root = Null -> (h <= 11)%nat -> same_items root (Root h (gfp_mask root) Null).
Proof.
  intros Hw Hnull Hh. apply empty_trees; try done. intros tag Ht.
  apply (bit_ok_null (height root) tag). rewrite <- Hnull. by apply Hw.
Qed.

(** The insertion after the extension to [root1]. *)
Lemma insert_after root root1 avail avail1 index item :
  tree_wf root -> 0 <= index < 2 ^ 64 -> (height root < depth index)%nat -> same_items root root1 ->
  height root1 = depth index -> radix_tree_extend root avail index = Some (root1, avail1, 0) ->
  let err := if (missing (depth index) index (rnode root1) <=? avail1)%nat then 0 else - ENOMEM in
  exists root', radix_tree_insert root avail index item =
      Some (root', (avail1 - missing (depth index) index (rnode root1))%nat, err) /\
    tree_inserted root root' index item err.
Proof.
  intros Hw Hi Hd [Hw1 Hc1 Ht1] Hh1 Hext err. assert (Hnf : ~ fits (height root) index) by (rewrite depth_spec by done; lia).
  assert (Hf : fits (height root1) index) by (apply depth_spec; [done|lia]).
  destruct (tree_insert_here root1 avail1 index item Hw1 Hf) as (s & Heq & Hbug & [Hwi Hgi Hti]).
  assert (Herr : insert_error (height root1) avail1 index (rnode root1) = err).
  { unfold insert_error. rewrite <- contents_get by done. rewrite Hc1, contents_out by done. by rewrite Hh1. }
  rewrite Herr, Hh1 in Heq. rewrite Herr in *. eexists. split.
  - unfold radix_tree_insert. rewrite maxindex_spec by apply Hw. cbn [mbind option_bind].
    unfold fits in Hnf. destruct (Z.ltb_spec (Z.min (span (height root)) (2 ^ 64) - 1) index); [|lia].
    rewrite Hext. cbn [mbind option_bind negb Z.eqb]. rewrite Hh1 in *. rewrite Heq. cbn [mbind option_bind]. by rewrite Hbug.
  - split; [by rewrite <- Hh1|intros j; rewrite <- Hh1, Hgi; by rewrite Hc1|].
    intros tag j Htag. rewrite <- Hh1, Hti by done. by apply Ht1.
Qed.

(** After the extension every node below the root is missing on the path. *)
Lemma iter_grow_missing root index :
  tree_wf root -> used (rnode root) = true -> 0 <= index < 2 ^ 64 -> (height root < depth index)%nat ->
  missing (depth index) index (rnode (Nat.iter (depth index - height root) grow root)) = (depth index - 1)%nat.
Proof.
  intros Hw Hu Hi Hd. pose proof (depth_le _ Hi) as H11.
  destruct (iter_grow (depth index - height root - 1) root Hw Hu) as (_ & _ & Hh & _); [lia|].
  replace (depth index - height root)%nat with (S (depth index - height root - 1)) by lia. cbn [Nat.iter nat_rect].
  fold (Nat.iter (depth index - height root - 1) grow root).
  set (r := Nat.iter (depth index - height root - 1) grow root) in *.
  pose proof (grow_missing r index Hi ltac:(lia)) as Hm. replace (S (height r)) with (depth index) in Hm by lia.
  rewrite Hm. lia.
Qed.

(** Insertion: the error, the nodes used and the tree. *)
Lemma tree_insert_spec root avail index item :
  tree_wf root -> 0 <= index < 2 ^ 64 ->
  exists root', radix_tree_insert root avail index item =
      Some (root', (avail - need root index)%nat, insert_status root avail index) /\
    tree_inserted root root' index item (insert_status root avail index).
Proof.
  intros Hw Hi. pose proof (depth_le _ Hi) as H11. unfold insert_status, need.
  destruct (Nat.leb_spec (depth index) (height root)) as [Hd|Hd].
  { rewrite contents_get by (by apply depth_spec). by apply insert_high. }
  assert (Hnf : ~ fits (height root) index) by (rewrite depth_spec by done; lia). rewrite contents_out by done.
  assert (Hext : radix_tree_extend root avail index = if is_null (rnode root) then Some (Root (depth index) (gfp_mask root) Null, avail, 0)
    else loop 12 (extend_step (depth index)) (root, avail)).
  { unfold radix_tree_extend. by rewrite extend_height_spec by (done || lia). }
  destruct (is_null (rnode root)) eqn:Hnull.
  { assert (Hr : rnode root = Null) by (by destruct (rnode root)).
    pose proof (insert_after _ _ _ _ _ item Hw Hi Hd (empty_same root (depth index) Hw Hr H11) eq_refl Hext) as Hins.
    cbn [rnode] in Hins. by rewrite missing_null in Hins. }
  assert (Hu : used (rnode root) = true) by (unfold used; by rewrite Hnull).
  rewrite extend_loop in Hext by lia. cbn zeta in Hext.
  destruct (Nat.leb_spec (depth index - height root) avail) as [Ha|Ha].
  - destruct (iter_grow (depth index - height root) root Hw Hu) as (Hs & _ & Hh & _); [lia|].
    pose proof (insert_after _ _ _ _ _ item Hw Hi Hd Hs ltac:(lia) Hext) as Hins. cbn zeta in Hins.
    pose proof (iter_grow_missing root index Hw Hu Hi Hd) as Hm.
    rewrite Hm in Hins. destruct Hins as (root' & Heq & Hins). exists root'. rewrite Heq.
    destruct (Nat.leb_spec (depth index - 1) (avail - (depth index - height root))),
      (Nat.leb_spec (depth index - height root + (depth index - 1)) avail); try lia; (split; [do 3 f_equal; lia|done]).
  - destruct (iter_grow avail root Hw Hu) as (Hs & _ & _ & _); [lia|].
    exists (Nat.iter avail grow root). destruct (Nat.leb_spec (depth index - height root + (depth index - 1)) avail); [lia|].
    split; [|by destruct Hs]. unfold radix_tree_insert. rewrite maxindex_spec by apply Hw. cbn [mbind option_bind].
    unfold fits in Hnf. destruct (Z.ltb_spec (Z.min (span (height root)) (2 ^ 64) - 1) index); [|lia].
    rewrite Hext. cbn [mbind option_bind ENOMEM Z.opp Z.eqb negb]. do 3 f_equal. lia.
Qed.

(** * Looking up *)

(** The pointer to an item, if there is one. *)
Definition item_slot (x : option positive) : slot := match x with Some p => Item p | None => Null end.

Lemma lookup_down_spec h index s :
  wf h s -> used s = true -> lookup_down h index s = Some (item_slot (get h s index)).
Proof.
  revert s. induction h as [|h IH]; intros s Hs Hu.
  - by apply wf_0 in Hs as [->|[p ->]].
  - apply wf_S in Hs as [->|(slots & tags & -> & Hn)]; [done|].
    destruct (child_get _ _ _ Hn index) as (c & Hc & Hwc & _). simpl. rewrite Hc. simpl.
    destruct (is_null c) eqn:Hnull; [destruct c; try done; by rewrite get_null|]. apply IH; [done|]. unfold used. by rewrite Hnull.
Qed.

(** The height of the node at the root is that of the tree. *)
Lemma root_cases root :
  tree_wf root ->
  rnode root = Null \/ (exists p, rnode root = Item p /\ height root = O) \/
  exists h slots tags, rnode root = Node (S h) (children slots) slots tags /\ height root = S h /\ node_wf h slots tags.
Proof.
  intros [_ Hs _ _]. destruct (height root) as [|h] eqn:Hh.
  - apply wf_0 in Hs as [->|[p ->]]; [by left|]. right. left. by exists p.
  - apply wf_S in Hs as [->|(slots & tags & -> & Hn)]; [by left|]. right. right. by exists h, slots, tags.
Qed.

Lemma tree_lookup_spec root index :
  tree_wf root -> 0 <= index < 2 ^ 64 -> radix_tree_lookup root index = Some (item_slot (contents root index)).
Proof.
  intros Hw Hi. unfold radix_tree_lookup, contents.
  destruct (root_cases root Hw) as [Hr|[(p & Hr & Hh)|(h & slots & tags & Hr & Hh & Hn)]]; rewrite Hr.
  - rewrite get_null. by destruct (_ && _).
  - rewrite Hh. change (Z.min (span 0) (2 ^ 64)) with 1. zcases; try lia; done.
  - pose proof (tree_height root Hw) as H11. rewrite Hh in H11. rewrite maxindex_spec by done. cbn [mbind option_bind].
    rewrite Hh. zcases; try lia; try done.
    apply (lookup_down_spec (S h) index (Node (S h) (children slots) slots tags)); [|done]. by apply wf_node.
Qed.

(** * Tags *)

Lemma has_tag_spec nh n slots tags h tag :
  node_wf h slots tags -> 0 <= tag < 2 ->
  has_tag tag (Node nh n slots tags) = true <-> exists i, 0 <= i < 64 /\ tag_bit tags tag i = true.
Proof.
  intros [_ Hl Hu _ _] Ht. destruct (any_tag_spec tags Hl Hu tag Ht) as (b & Hb & Hiff). simpl. by rewrite Hb.
Qed.

(** A tag is at an item. *)
Lemma tagged_get h s b tag j :
  wf h s -> 0 <= tag < 2 -> bit_ok h s tag b -> tagged h s b tag j = true -> is_Some (get h s j).
Proof.
  intros Hs Ht. revert s b Hs. induction h as [|h IH]; intros s b Hs Hok.
  - simpl. intros ->. specialize (Hok eq_refl). apply wf_0 in Hs as [->|[p ->]]; [done|by exists p].
  - apply wf_S in Hs as [->|(slots & tags & -> & Hn)]; [done|].
    destruct (child_get _ _ _ Hn j) as (c & Hc & Hwc & Hb). simpl. rewrite Hc. simpl. by apply IH, Hb.
Qed.

(** Below a pointer only the part of the index below its height matters. *)
Lemma tagged_mod h s b tag i j : i mod span h = j mod span h -> tagged h s b tag i = tagged h s b tag j.
Proof.
  revert s b. induction h as [|h IH]; intros s b Hij; [done|]. apply same_path in Hij as [Ho Hij].
  destruct s as [| |nh n slots tags]; [done|done|]. simpl. rewrite Ho. destruct (aget slots (offset h j)); [by apply IH|done].
Qed.

Lemma get_mod h s i j : i mod span h = j mod span h -> get h s i = get h s j.
Proof.
  revert s. induction h as [|h IH]; intros s Hij; [done|]. apply same_path in Hij as [Ho Hij].
  destruct s as [| |nh n slots tags]; [done|done|]. simpl. rewrite Ho. destruct (aget slots (offset h j)); [by apply IH|done].
Qed.

(** A node has a tag exactly when an item below it has. *)
Lemma has_tag_item h s b tag :
  wf h s -> 0 <= tag < 2 -> bit_ok h s tag b ->
  b = true <-> exists j, 0 <= j < span h /\ tagged h s b tag j = true.
Proof.
  intros Hs Ht. revert s b Hs. induction h as [|h IH]; intros s b Hs Hok.
  - rewrite span_0. simpl. split; [by exists 0|naive_solver].
  - simpl in Hok. subst b. apply wf_S in Hs as [->|(slots & tags & -> & Hn)]; [split; [done|naive_solver]|].
    rewrite (has_tag_spec _ _ _ _ h) by done. pose proof (span_pos h) as Hpos. split.
    + intros (i & Hi & Hbit). destruct (slots_get slots i (node_slots _ _ _ Hn) Hi) as [c Hc].
      assert (Hwc : wf h c) by (eapply wf_aget; [apply Hn|done]).
      destruct (proj1 (IH c _ Hwc (node_bits _ _ _ Hn tag i c Ht Hc)) Hbit) as (j & Hj & Hj').
      assert (Hsum : 0 <= i * span h + j < span (S h)) by (rewrite span_S; nia).
      assert (Ho : offset h (i * span h + j) = i).
      { rewrite offset_eq, Z.div_add_l, Z.div_small, Z.add_0_r by lia. apply Z.mod_small. lia. }
      exists (i * span h + j). split; [done|]. simpl. rewrite Ho, Hc.
      rewrite <- Hj'. apply tagged_mod. rewrite Z.add_comm. apply Z.mod_add. lia.
    + intros (j & Hj & Htag). destruct (child_get _ _ _ Hn j) as (c & Hc & Hwc & Hb). simpl in Htag. rewrite Hc in Htag.
      exists (offset h j). split; [apply offset_range|]. apply (IH c _ Hwc (Hb tag Ht)).
      exists (j mod span h). split; [by apply Z.mod_pos_bound|].
      rewrite <- Htag. apply tagged_mod. apply Z.mod_mod. lia.
Qed.

(** ** Setting a tag *)

(** The paths to [j] and [index] are the same below height [h]. *)
Definition on_path (h : nat) (j index : Z) : bool := j mod span h =? index mod span h.

Lemma on_path_S h j index : on_path (S h) j index = (offset h j =? offset h index) && on_path h j index.
Proof. unfold on_path. pose proof (same_path h j index). zcases; naive_solver. Qed.

Lemma on_path_0 j index : on_path 0 j index = true.
Proof. unfold on_path. by rewrite !mod_span_0. Qed.

(** What setting (and clearing) a tag leaves at height [h], for a tag whose new value is
    [new] at the pointer and [at_index] at the index. *)
Record retagged (h : nat) (index tag : Z) (s s' : slot) (new : bool -> bool) (at_index : bool) : Prop := {
  rt_wf : wf h s';
  rt_used : used s' = used s;
  rt_get : forall j, get h s' j = get h s j;
  rt_bits : forall t b, 0 <= t < 2 -> bit_ok h s t b -> bit_ok h s' t (if t =? tag then new b else b);
  rt_tags : forall t b j, 0 <= t < 2 -> bit_ok h s t b ->
    tagged h s' (if t =? tag then new b else b) t j =
    if (t =? tag) && on_path h j index then at_index else tagged h s b t j
}.

(** A child and its tag replaced. *)
Lemma retag_node h slots tags index tag c c' tags' (new : bool -> bool) at_index :
  node_wf h slots tags -> 0 <= tag < 2 -> aget slots (offset h index) = Some c ->
  retagged h index tag c c' new at_index -> length tags' = 2%nat -> Forall is_u64 tags' ->
  (forall t j, 0 <= t < 2 -> 0 <= j < 64 -> tag_bit tags' t j =
     if (t =? tag) && (j =? offset h index) then new (tag_bit tags t j) else tag_bit tags t j) ->
  exists slots', aset slots (offset h index) c' = Some slots' /\ forall up,
    up (has_tag tag (Node (S h) (children slots) slots tags)) = has_tag tag (Node (S h) (children slots) slots' tags') ->
    retagged (S h) index tag (Node (S h) (children slots) slots tags) (Node (S h) (children slots) slots' tags') up at_index.
Proof.
  intros Hn Ht Hc [Hw Hu Hg Hb Htg] Hl' Hu' Hbits. pose proof (offset_range h index) as Ho.
  assert (Hok : forall t, 0 <= t < 2 -> bit_ok h c t (tag_bit tags t (offset h index))) by (intros; by apply Hn).
  destruct (update_child _ _ _ Hn _ _ c' tags' Hc Hw Hl' Hu') as (slots' & Hset & Hn' & Hcount & Hg' & Ht').
  { intros t i Htt Hi Hne. rewrite Hbits by done. apply Z.eqb_neq in Hne. by rewrite Hne, andb_false_r. }
  { intros t Htt. rewrite Hbits, Z.eqb_refl, andb_true_r by done. by apply Hb, Hok. }
  exists slots'. split; [done|]. intros up Hup. rewrite Hu in Hcount. split.
  - apply wf_node. split; [done|]. split; [lia|done].
  - done.
  - intros j. rewrite Hg'. destruct (Z.eqb_spec (offset h j) (offset h index)) as [Heq|]; [|done].
    rewrite Hg. simpl. by rewrite Heq, Hc.
  - intros t b Htt Hbt. cbn [bit_ok] in *. subst b. destruct (Z.eqb_spec t tag) as [->|Hne]; [done|].
    apply Z.eqb_neq in Hne. apply eq_true_iff_eq. rewrite !(has_tag_spec _ _ _ _ h) by done.
    split; intros (i & Hi & Hbit); exists i; (split; [done|]); specialize (Hbits t i Htt Hi); rewrite Hne in Hbits; simpl in Hbits; congruence.
  - intros t b j Htt Hbt. rewrite Ht', on_path_S by done. destruct (Z.eqb_spec (offset h j) (offset h index)) as [Heq|Hne].
    + rewrite Hbits, Z.eqb_refl, andb_true_r by done. rewrite Htg by (done || by apply Hok). simpl. by rewrite Heq, Hc.
    + by rewrite andb_false_r.
Qed.

Lemma tag_set_down_spec h index tag s p :
  wf h s -> 0 <= tag < 2 -> get h s index = Some p ->
  exists s', tag_set_down h index tag s = Some (s', Item p) /\ retagged h index tag s s' (fun _ => true) true.
Proof.
  intros Hs Ht. revert s Hs. induction h as [|h IH]; intros s Hs Hp.
  - apply wf_0 in Hs as [->|[q ->]]; [done|]. simplify_eq/=. eexists. split; [done|]. split; try done.
    intros t b j _ _. simpl. rewrite on_path_0, andb_true_r. by destruct (t =? tag).
  - apply wf_S in Hs as [->|(slots & tags & -> & Hn)]; [done|].
    destruct (child_get _ _ _ Hn index) as (c & Hc & Hwc & Hok). simpl in Hp. rewrite Hc in Hp. simpl in Hp.
    destruct (IH c Hwc Hp) as (c' & Heq & Hrt). pose proof (offset_range h index) as Ho.
    destruct (tag_set_spec tags (node_tags _ _ _ Hn) (node_words _ _ _ Hn) tag (offset h index) Ht Ho) as (tags1 & Hset1 & Hl1 & Hu1 & Hb1).
    set (tags' := if tag_bit tags tag (offset h index) then tags else tags1).
    destruct (retag_node h slots tags index tag c c' tags' (fun _ => true) true Hn Ht Hc Hrt) as (slots' & Hset & Hup).
    { unfold tags'. destruct (tag_bit _ _ _); [apply Hn|done]. }
    { unfold tags'. destruct (tag_bit _ _ _); [apply Hn|done]. }
    { intros t j Htt Hj. unfold tags'. destruct (tag_bit tags tag (offset h index)) eqn:Hbit; [zcases; congruence|].
      rewrite Hb1 by done. destruct (t =? tag); [|done]. by destruct (j =? offset h index). }
    exists (Node (S h) (children slots) slots' tags'). split.
    + cbn [tag_set_down]. rewrite tag_get_spec by (done || apply Hn). cbn [mbind option_bind].
      assert (Htags : (if tag_bit tags tag (offset h index) then Some tags else tag_set tags tag (offset h index)) = Some tags').
      { unfold tags'. by destruct (tag_bit _ _ _). }
      rewrite Htags. cbn [mbind option_bind]. rewrite Hc. cbn [mbind option_bind].
      assert (Hnn : is_null c = false) by (destruct c; [by rewrite get_null in Hp|done|done]).
      rewrite Hnn, Heq. cbn [mbind option_bind]. rewrite Hset. done.
    + apply Hup. symmetry.
      destruct (Hup (fun _ => has_tag tag (Node (S h) (children slots) slots' tags')) eq_refl) as [Hw _ _ _ _].
      apply wf_node in Hw as (_ & _ & Hn'). apply (has_tag_spec _ _ _ _ h); [done|done|]. exists (offset h index).
      split; [done|]. unfold tags'. destruct (tag_bit tags tag (offset h index)) eqn:Hbit; [done|].
      by rewrite Hb1, !Z.eqb_refl by done.
Qed.

(** Tagging an index without an item ends in [BUG_ON] or follows a null pointer. *)
Lemma tag_set_absent h index tag s :
  wf (S h) s -> 0 <= tag < 2 -> get (S h) s index = None -> tag_set_down (S h) index tag s = None.
Proof.
  intros Hs Ht. revert s Hs. induction h as [|h IH]; intros s Hs Hp;
    (apply wf_S in Hs as [->|(slots & tags & -> & Hn)]; [done|]);
    destruct (child_get _ _ _ Hn index) as (c & Hc & Hwc & _); cbn [get] in Hp; rewrite Hc in Hp; cbn [mbind option_bind] in Hp.
  - apply wf_0 in Hwc as [->|[p ->]]; [|done]. cbn [tag_set_down]. destruct (tag_get _ _ _) as [b|]; [|done]. cbn [mbind option_bind].
    destruct (if b then _ else _); [|done]. cbn [mbind option_bind]. by rewrite Hc.
  - cbn [tag_set_down]. destruct (tag_get _ _ _) as [b|]; [|done]. cbn [mbind option_bind].
    destruct (if b then _ else _); [|done]. cbn [mbind option_bind]. rewrite Hc. cbn [mbind option_bind].
    destruct (is_null c); [done|]. pose proof (IH c Hwc Hp) as Hno. cbn [tag_set_down] in Hno. by rewrite Hno.
Qed.

(** ** Clearing a tag *)

Lemma tag_clear_down_spec h index tag s :
  wf h s -> 0 <= tag < 2 ->
  exists s' up, tag_clear_down h index tag s = Some (s', item_slot (get h s index), up) /\
    retagged h index tag s s' (fun b => if up then false else b) false.
Proof.
  intros Hs Ht. revert s Hs. induction h as [|h IH]; intros s Hs.
  - eexists s, _. simpl. split; [by apply wf_0 in Hs as [->|[q ->]]|].
    apply wf_0 in Hs as [->|[q ->]]; (split; [done|done|done| |]); intros t b; simpl.
    + intros _ Hb. by destruct (t =? tag).
    + intros j _ Hb. rewrite on_path_0, andb_true_r. destruct (t =? tag), b; try done. by specialize (Hb eq_refl).
    + done.
    + intros j _ _. rewrite on_path_0, andb_true_r. by destruct (t =? tag).
  - apply wf_S in Hs as [->|(slots & tags & -> & Hn)].
    { exists Null, false. split; [done|]. split; [done|done|done| |].
      - intros t b _ Hb. by destruct (t =? tag).
      - intros t b j _ _. simpl. by destruct (_ && _). }
    destruct (child_get _ _ _ Hn index) as (c & Hc & Hwc & Hok). destruct (IH c Hwc) as (c' & up & Heq & Hrt).
    pose proof (offset_range h index) as Ho.
    destruct (tag_clear_spec tags (node_tags _ _ _ Hn) (node_words _ _ _ Hn) tag (offset h index) Ht Ho) as (tags1 & Hset1 & Hl1 & Hu1 & Hb1).
    assert (Hbit := tag_get_spec tags (node_tags _ _ _ Hn) (node_words _ _ _ Hn) tag (offset h index) Ht).
    cbn [tag_clear_down get]. rewrite Hc. cbn [mbind option_bind]. rewrite Heq. cbn [mbind option_bind].
    destruct (up && tag_bit tags tag (offset h index)) eqn:Hcase.
    + apply andb_true_iff in Hcase as [-> Hb].
      destruct (retag_node h slots tags index tag c c' tags1 _ false Hn Ht Hc Hrt Hl1 Hu1) as (slots' & Hset & Hup).
      { intros t j Htt Hj. rewrite Hb1 by done. destruct (t =? tag), (j =? offset h index); done. }
      destruct (any_tag_spec tags1 Hl1 Hu1 tag Ht) as (any & Hany & _).
      rewrite Hset. cbn [mbind option_bind]. rewrite Hbit. cbn [mbind option_bind]. rewrite Hb, Hset1. cbn [mbind option_bind].
      rewrite Hany. cbn [mbind option_bind]. eexists _, _. split; [done|]. apply Hup. cbn [has_tag]. rewrite Hany.
      destruct any; [|done]. simpl. change (has_tag tag (Node (S h) (children slots) slots tags) = true).
      apply (has_tag_spec _ _ _ _ h); [done|done|]. by exists (offset h index).
    + destruct (retag_node h slots tags index tag c c' tags _ false Hn Ht Hc Hrt) as (slots' & Hset & Hup); [apply Hn|apply Hn| |].
      { intros t j Htt Hj. destruct (Z.eqb_spec t tag) as [->|], (Z.eqb_spec j (offset h index)) as [->|]; try done.
        simpl. destruct up; [|done]. done. }
      rewrite Hset. cbn [mbind option_bind]. rewrite Hbit. cbn [mbind option_bind].
      exists (Node (S h) (children slots) slots' tags), false. split; [|by apply Hup].
      destruct up; [|done]. simpl in Hcase. by rewrite Hcase.
Qed.

(** ** Getting a tag *)

(** The tag of a child under an ancestor without it. *)
Lemma saw_unset h nh n slots tags tag index saw :
  node_wf h slots tags -> 0 <= tag < 2 -> (saw = true -> has_tag tag (Node nh n slots tags) = false) ->
  saw = true -> tag_bit tags tag (offset h index) = false.
Proof.
  intros Hn Ht Hsaw Hs. destruct (tag_bit _ _ _) eqn:Hb; [|done]. rewrite <- (Hsaw Hs). symmetry.
  apply (has_tag_spec _ _ _ _ h); [done|done|]. exists (offset h index). split; [apply offset_range|done].
Qed.

Lemma tag_get_down_spec h index tag saw b s :
  wf (S h) s -> 0 <= tag < 2 -> (saw = true -> has_tag tag s = false) ->
  tag_get_down (S h) index tag saw s = Some (tagged (S h) s b tag index).
Proof.
  intros Hs Ht. revert saw b s Hs. induction h as [|h IH]; intros saw b s Hs Hsaw;
    (apply wf_S in Hs as [->|(slots & tags & -> & Hn)]; [done|]);
    destruct (child_get _ _ _ Hn index) as (c & Hc & Hwc & Hok); pose proof (saw_unset _ _ _ _ _ _ index _ Hn Ht Hsaw) as Hunset.
  - cbn [tag_get_down tagged]. rewrite tag_get_spec by (done || apply Hn). rewrite Hc. cbn [mbind option_bind].
    destruct saw; [by rewrite Hunset|]. by destruct (tag_bit _ _ _).
  - change (tag_get_down (S (S h)) index tag saw (Node (S (S h)) (children slots) slots tags)) with
      (b ← tag_get tags tag (offset (S h) index); child ← aget slots (offset (S h) index);
       tag_get_down (S h) index tag (saw || negb b) child).
    rewrite tag_get_spec by (done || apply Hn). cbn [mbind option_bind]. rewrite Hc. cbn [mbind option_bind].
    rewrite (IH _ (tag_bit tags tag (offset (S h) index)) _ Hwc).
    + cbn [tagged]. by rewrite Hc.
    + intros Hor. specialize (Hok tag Ht). simpl in Hok. rewrite <- Hok.
      destruct saw; [by apply Hunset|]. by apply negb_true_iff.
Qed.

(** ** Tags of the tree *)

Lemma root_tag_bit root tag : 0 <= tag -> root_tag_get root tag = Z.testbit (gfp_mask root) (tag + __GFP_BITS_SHIFT).
Proof.
  intros Ht. unfold root_tag_get, __GFP_BITS_SHIFT. rewrite Z.shiftl_1_l.
  assert (Hbit : forall i, 0 <= i -> Z.testbit (Z.land (gfp_mask root) (2 ^ (tag + 22))) i =
    Z.testbit (gfp_mask root) i && (i =? tag + 22)).
  { intros i Hi. rewrite Z.land_spec. f_equal. rewrite Z.pow2_bits_eqb by lia. apply Z.eqb_sym. }
  destruct (Z.eqb_spec (Z.land (gfp_mask root) (2 ^ (tag + 22))) 0) as [H0|Hne]; simpl.
  - specialize (Hbit (tag + 22) ltac:(lia)). rewrite H0, Z.bits_0, Z.eqb_refl, andb_true_r in Hbit. done.
  - destruct (Z.testbit (gfp_mask root) (tag + 22)) eqn:Hb; [done|]. exfalso. apply Hne. apply Z.bits_inj'. intros i Hi.
    rewrite Hbit, Z.bits_0 by done. destruct (Z.eqb_spec i (tag + 22)) as [->|]; [by rewrite Hb|apply andb_false_r].
Qed.

Lemma root_tag_set_get root tag t : 0 <= tag -> 0 <= t ->
  root_tag_get (root_tag_set root tag) t = (t =? tag) || root_tag_get root t.
Proof.
  intros Ht Htt. rewrite !root_tag_bit by done. unfold __GFP_BITS_SHIFT. cbn [gfp_mask root_tag_set].
  rewrite Z.lor_spec, Z.shiftl_1_l, Z.pow2_bits_eqb by (unfold __GFP_BITS_SHIFT; lia). unfold __GFP_BITS_SHIFT. rewrite orb_comm. f_equal. zcases.
Qed.

Lemma root_tag_clear_get root tag t : 0 <= tag -> 0 <= t ->
  root_tag_get (root_tag_clear root tag) t = negb (t =? tag) && root_tag_get root t.
Proof.
  intros Ht Htt. rewrite !root_tag_bit by done. cbn [gfp_mask root_tag_clear].
  rewrite Z.ldiff_spec, Z.shiftl_1_l, Z.pow2_bits_eqb by (unfold __GFP_BITS_SHIFT; lia). unfold __GFP_BITS_SHIFT. rewrite andb_comm. f_equal. zcases.
Qed.

Lemma root_tag_clear_all_get root t : 0 <= t -> root_tag_get (root_tag_clear_all root) t = false.
Proof.
  intros Ht. rewrite root_tag_bit by done. cbn [gfp_mask root_tag_clear_all]. unfold __GFP_BITS_SHIFT.
  rewrite Z.land_spec, Z.ones_spec_high by lia. apply andb_false_r.
Qed.

(** The tree with one tag of one item changed to [v]. *)
Record tree_tagged (root root' : radix_tree_root) (index tag : Z) (v : bool) : Prop := {
  tt_wf : tree_wf root';
  tt_height : height root' = height root;
  tt_get : forall j, contents root' j = contents root j;
  tt_tags : forall t j, 0 <= t < 2 -> item_tag root' t j = if (t =? tag) && (j =? index) then v else item_tag root t j
}.

Lemma retag_tree root root' index tag new v :
  tree_wf root -> fits (height root) index -> retagged (height root) index tag (rnode root) (rnode root') new v ->
  height root' = height root ->
  (forall t, 0 <= t < 2 -> root_tag_get root' t = if t =? tag then new (root_tag_get root t) else root_tag_get root t) ->
  tree_tagged root root' index tag v.
Proof.
  intros [H11 Hs Htop Ht] Hf [Hw _ Hg Hb Htg] Hh Hroot. split; [split; rewrite Hh| | |].
  - done.
  - done.
  - intros j Hj. rewrite Hg. by apply Htop.
  - intros t Htt. rewrite Hroot by done. by apply Hb, Ht.
  - done.
  - intros j. unfold contents. by rewrite Hh, Hg.
  - intros t j Htt. unfold item_tag. rewrite Hh, Hroot, Htg by (done || by apply Ht). unfold on_path.
    rewrite (fits_mod _ _ Hf). unfold fits in Hf.
    destruct ((0 <=? j) && (j <? Z.min (span (height root)) (2 ^ 64))) eqn:Hj; simpl.
    + apply andb_true_iff in Hj as [Hj1 Hj2]. by rewrite Z.mod_small by lia.
    + destruct (Z.eqb_spec j index) as [->|]; [zcases; lia|]. by rewrite andb_false_r.
Qed.

(** No index above the height is in reach. *)
Lemma maxindex_test root index :
  tree_wf root -> 0 <= index < 2 ^ 64 -> exists m, radix_tree_maxindex (height root) = Some m /\
    ((m <? index) = false <-> fits (height root) index).
Proof.
  intros Hw Hi. rewrite maxindex_spec by apply Hw. eexists. split; [done|]. unfold fits. rewrite Z.ltb_ge. lia.
Qed.

Lemma set_spec root index tag p :
  tree_wf root -> 0 <= tag < 2 -> 0 <= index < 2 ^ 64 -> contents root index = Some p ->
  exists root', radix_tree_tag_set root index tag = Some (root', Item p) /\ tree_tagged root root' index tag true.
Proof.
  intros Hw Ht Hi Hp. destruct (decide ((depth index <= height root)%nat)) as [Hd|Hd]; rewrite <- depth_spec in Hd by done;
    [|by rewrite contents_out in Hp]. rewrite contents_get in Hp by done.
  destruct (maxindex_test root index Hw Hi) as (m & Hm & Hfit). unfold radix_tree_tag_set. rewrite Hm.
  cbn [mbind option_bind]. rewrite (proj2 Hfit Hd).
  destruct (tag_set_down_spec _ _ _ _ _ (tree_slots _ Hw) Ht Hp) as (s & Heq & Hrt). rewrite Heq. cbn [mbind option_bind].
  eexists. split; [done|]. set (root1 := Root (height root) (gfp_mask root) s). cbn [is_null negb andb].
  assert (Hmask : forall t, root_tag_get root1 t = root_tag_get root t) by done.
  eapply retag_tree; [done|done| | |].
  - by destruct (negb (root_tag_get root1 tag)).
  - by destruct (negb (root_tag_get root1 tag)).
  - intros t Htt. rewrite <- Hmask. destruct (root_tag_get root1 tag) eqn:Hb; simpl.
    + destruct (Z.eqb_spec t tag) as [->|]; congruence.
    + rewrite root_tag_set_get by lia. by destruct (t =? tag).
Qed.

Lemma clear_spec root index tag :
  tree_wf root -> 0 <= tag < 2 -> 0 <= index < 2 ^ 64 ->
  exists root', radix_tree_tag_clear root index tag = Some (root', item_slot (contents root index)) /\
    tree_tagged root root' index tag false.
Proof.
  intros Hw Ht Hi. destruct (maxindex_test root index Hw Hi) as (m & Hm & Hfit). unfold radix_tree_tag_clear. rewrite Hm.
  cbn [mbind option_bind]. destruct (m <? index) eqn:Hlt.
  { assert (Hnf : ~ fits (height root) index) by (intros Hf; apply Hfit in Hf; done). rewrite contents_out by done.
    eexists. split; [done|]. split; [done|done|done|]. intros t j Htt.
    destruct (Z.eqb_spec j index) as [->|]; [|by rewrite andb_false_r]. destruct (t =? tag); [|done]. simpl.
    unfold item_tag. unfold fits in Hnf. zcases; lia. }
  pose proof (proj1 Hfit eq_refl) as Hf.
  destruct (tag_clear_down_spec _ index tag _ (tree_slots _ Hw) Ht) as (s & up & Heq & Hrt). rewrite Heq. cbn [mbind option_bind].
  rewrite contents_get by done. eexists. split; [done|]. set (root1 := Root (height root) (gfp_mask root) s).
  assert (Hmask : forall t, root_tag_get root1 t = root_tag_get root t) by done.
  eapply retag_tree; [done|done| | |].
  - by destruct (up && root_tag_get root1 tag).
  - by destruct (up && root_tag_get root1 tag).
  - intros t Htt. rewrite <- Hmask. destruct (up && root_tag_get root1 tag) eqn:Hb.
    + apply andb_true_iff in Hb as [-> Hb]. rewrite root_tag_clear_get by lia. by destruct (t =? tag).
    + destruct (Z.eqb_spec t tag) as [->|]; [|done]. by destruct up.
Qed.

(** Setting a tag where there is no item goes wrong, except in an empty tree of height 0. *)
Lemma set_absent root index tag :
  tree_wf root -> 0 <= tag < 2 -> 0 <= index < 2 ^ 64 -> contents root index = None ->
  radix_tree_tag_set root index tag = if (height root =? 0)%nat && (index =? 0) then Some (root, Null) else None.
Proof.
  intros Hw Ht Hi Hp. destruct (maxindex_test root index Hw Hi) as (m & Hm & Hfit). unfold radix_tree_tag_set. rewrite Hm.
  cbn [mbind option_bind]. destruct (m <? index) eqn:Hlt.
  { destruct (Z.eqb_spec index 0) as [->|]; [|by rewrite andb_false_r]. exfalso.
    pose proof (span_pos (height root)). assert (fits (height root) 0) by (unfold fits; lia). naive_solver. }
  pose proof (proj1 Hfit eq_refl) as Hf. rewrite contents_get in Hp by done. pose proof (tree_slots _ Hw) as Hs.
  destruct root as [[|h] mask s]; cbn [height rnode gfp_mask] in *.
  - assert (index = 0) as -> by (unfold fits in Hf; change (span 0) with 1 in Hf; lia).
    apply wf_0 in Hs as [->|[q ->]]; done.
  - by rewrite tag_set_absent.
Qed.

Lemma get_tag_spec root index tag :
  tree_wf root -> 0 <= tag < 2 -> 0 <= index < 2 ^ 64 ->
  radix_tree_tag_get root index tag = Some (item_tag root tag index).
Proof.
  intros Hw Ht Hi. pose proof (tree_tags _ Hw tag Ht) as Hok. unfold radix_tree_tag_get, item_tag.
  pose proof (has_tag_item _ _ _ tag (tree_slots _ Hw) Ht Hok) as Hiff.
  destruct (root_tag_get root tag) eqn:Hb; simpl.
  - destruct (root_cases root Hw) as [Hr|[(p & Hr & Hh)|(h & slots & tags & Hr & Hh & Hn)]]; rewrite Hr, ?Hh in *.
    + by apply bit_ok_null in Hok.
    + change (Z.min (span 0) (2 ^ 64)) with 1. simpl. f_equal. zcases.
    + pose proof (tree_height root Hw) as H11. rewrite Hh in H11. rewrite maxindex_spec by done. cbn [mbind option_bind].
      destruct (Z.ltb_spec (Z.min (span (S h)) (2 ^ 64) - 1) index); [f_equal; zcases; lia|].
      rewrite (tag_get_down_spec h index tag false true); [f_equal; zcases; lia|by apply wf_node|done|done].
  - f_equal. destruct (tagged (height root) (rnode root) false tag index) eqn:Htg; [|by rewrite andb_false_r].
    destruct (Z.ltb_spec index (Z.min (span (height root)) (2 ^ 64))); [|by rewrite andb_false_r].
    assert (false = true) by (apply Hiff; exists index; split; [lia|done]). done.
Qed.

(** The tag of the root is set exactly when an item has the tag. *)
Lemma tagged_spec root tag :
  tree_wf root -> 0 <= tag < 2 ->
  radix_tree_tagged root tag = true <-> exists j, 0 <= j < 2 ^ 64 /\ item_tag root tag j = true.
Proof.
  intros Hw Ht. pose proof (tree_tags _ Hw tag Ht) as Hok. unfold radix_tree_tagged, item_tag.
  rewrite (has_tag_item _ _ _ tag (tree_slots _ Hw) Ht Hok). split; intros (j & Hj & Htg).
  - assert (Hj64 : j < 2 ^ 64).
    { destruct (Z.lt_ge_cases j (2 ^ 64)); [done|]. apply tagged_get in Htg; [|apply Hw|done|done].
      rewrite (tree_top _ Hw) in Htg by lia. by destruct Htg. }
    exists j. split; [lia|]. rewrite Htg. zcases; lia.
  - apply andb_true_iff in Htg as [Hr Htg]. exists j. split; [lia|done].
Qed.

(** A tag is at an item. *)
Lemma item_tag_contents root tag j :
  tree_wf root -> 0 <= tag < 2 -> item_tag root tag j = true -> is_Some (contents root j).
Proof.
  intros Hw Ht Htg. unfold item_tag in Htg. unfold contents. apply andb_true_iff in Htg as [Hr Htg]. rewrite Hr.
  eapply tagged_get; [apply Hw|done|by apply Hw|done].
Qed.

(** * Deleting *)

(** A node without children is like a null pointer. *)
Lemma empty_node h nh n slots tags tag : node_wf h slots tags -> children slots = 0 -> 0 <= tag < 2 ->
  has_tag tag (Node nh n slots tags) = false /\
  forall j b, get (S h) (Node nh n slots tags) j = None /\ tagged (S h) (Node nh n slots tags) b tag j = false.
Proof.
  intros Hn H0 Ht.
  assert (Hnull : forall i s, aget slots i = Some s -> s = Null /\ tag_bit tags tag i = false).
  { intros i s Hs. destruct (used s) eqn:Hu; [pose proof (children_pos _ _ _ Hs Hu); lia|]. destruct s; try done.
    split; [done|]. eapply bit_ok_null. by apply Hn. }
  split.
  - apply not_true_is_false. rewrite (has_tag_spec _ _ _ _ h) by done. intros (i & Hi & Hb).
    destruct (slots_get slots i (node_slots _ _ _ Hn) Hi) as [s Hs]. destruct (Hnull i s Hs). congruence.
  - intros j b. destruct (child_get _ _ _ Hn j) as (c & Hc & _). cbn [get tagged]. rewrite Hc. cbn [mbind option_bind].
    destruct (Hnull _ _ Hc) as [-> ->]. split; [apply get_null|by destruct h].
Qed.

(** What unlinking leaves at height [h]. *)
Record unlinked (h : nat) (index : Z) (s s' : slot) (bits : Z -> bool) (e : ending) : Prop := {
  un_wf : wf h s';
  un_bits : forall tag, 0 <= tag < 2 -> bit_ok h s' tag (bits tag);
  un_get : forall j, get h s' j = if on_path h j index then None else get h s j;
  un_tags : forall tag j, 0 <= tag < 2 -> tagged h s' (bits tag) tag j = tagged h s (bits tag) tag j;
  un_end : e = Emptied <-> s' = Null
}.

Lemma unlinked_empty h index s nh n slots tags bits e :
  node_wf h slots tags -> children slots = 0 -> unlinked (S h) index s (Node nh n slots tags) bits e ->
  unlinked (S h) index s Null bits Emptied.
Proof.
  intros Hn H0 [_ Hb Hg Ht _]. split; [done| | | |done].
  - intros tag Htag. rewrite (Hb tag Htag). by apply (empty_node h).
  - intros j. rewrite <- Hg. symmetry. apply (proj2 (empty_node h nh n slots tags 0 Hn H0 ltac:(lia)) j true).
  - intros tag j Htag. rewrite <- Ht by done. symmetry. apply (proj2 (empty_node h nh n slots tags tag Hn H0 Htag) j (bits tag)).
Qed.

Lemma unlink_node h index slots tags c c' bits e :
  node_wf h slots tags -> aget slots (offset h index) = Some c ->
  (forall tag, 0 <= tag < 2 -> bit_ok (S h) (Node (S h) (children slots) slots tags) tag (bits tag)) ->
  unlinked h index c c' (fun tag => tag_bit tags tag (offset h index)) e ->
  exists slots', aset slots (offset h index) c' = Some slots' /\ node_wf h slots' tags /\
    children slots' = children slots - Z.b2z (used c) + Z.b2z (used c') /\
    forall e', e' <> Emptied -> unlinked (S h) index (Node (S h) (children slots) slots tags)
      (Node (S h) (children slots') slots' tags) bits e'.
Proof.
  intros Hn Hc Hok [Hw Hb Hg Ht He].
  destruct (update_child_only _ _ _ Hn _ _ c' Hc Hw Hb) as (slots' & Hset & Hn' & Hcount & Hg' & Ht').
  exists slots'. split; [done|]. split; [done|]. split; [done|]. intros e' He'. split.
  - by apply wf_node.
  - exact Hok.
  - intros j. rewrite Hg', on_path_S. destruct (Z.eqb_spec (offset h j) (offset h index)) as [Heqo|]; [|done].
    rewrite Hg. cbn [get]. by rewrite Heqo, Hc.
  - intros tag j Htag. rewrite Ht' by done. destruct (Z.eqb_spec (offset h j) (offset h index)) as [Heqo|]; [|done].
    rewrite Ht by done. cbn [tagged]. by rewrite Heqo, Hc.
  - done.
Qed.

Lemma delete_down_spec h index s p bits :
  wf h s -> get h s index = Some p -> (forall tag, 0 <= tag < 2 -> bit_ok h s tag (bits tag)) ->
  (forall tag, 0 <= tag < 2 -> tagged h s (bits tag) tag index = false) ->
  exists s' e, delete_down h index s = Some (s', e) /\ unlinked h index s s' bits e.
Proof.
  revert s bits. induction h as [|h IH]; intros s bits Hs Hp Hok Htg.
  - exists Null, Emptied. split; [done|]. split; try done.
    + intros tag Ht. apply bit_ok_null. by apply (Htg tag).
    + intros j. rewrite on_path_0. done.
  - apply wf_S in Hs as [->|(slots & tags & -> & Hn)]; [done|].
    destruct (child_get _ _ _ Hn index) as (c & Hc & Hwc & Hokc). cbn [get] in Hp. rewrite Hc in Hp. cbn [mbind option_bind] in Hp.
    assert (Htgc : forall tag, 0 <= tag < 2 -> tagged h c (tag_bit tags tag (offset h index)) tag index = false).
    { intros tag Ht. specialize (Htg tag Ht). cbn [tagged] in Htg. by rewrite Hc in Htg. }
    destruct (IH c (fun tag => tag_bit tags tag (offset h index)) Hwc Hp Hokc Htgc) as (c' & e & Heq & Hch).
    assert (Huc : used c = true) by (destruct c; [by rewrite get_null in Hp|done|done]).
    destruct (unlink_node h index slots tags c c' bits e Hn Hc Hok) as (slots' & Hset & Hn' & Hcount & Hun); [done|].
    rewrite Huc in Hcount. pose proof (un_end _ _ _ _ _ _ Hch) as He.
    cbn [delete_down]. rewrite Hc. cbn [mbind option_bind]. rewrite Heq. cbn [mbind option_bind]. rewrite Hset. cbn [mbind option_bind].
    destruct (decide (e = Emptied)) as [->|Hne].
    + pose proof (proj1 He eq_refl) as ->. simpl in Hcount.
      pose proof (children_range slots' (node_slots _ _ _ Hn')) as Hrange.
      replace (children slots - 1) with (children slots') by lia. rewrite wrap_small by (unfold is_word; lia).
      destruct (Z.eqb_spec (children slots') 0) as [H0|Hnz]; cbn [negb]; eexists _, _; (split; [done|]); [|by apply Hun].
      eapply unlinked_empty; [done|done|]. by apply (Hun Here).
    + assert (Hs : used c' = true) by (destruct c'; [by destruct Hne; apply He|done|done]). rewrite Hs in Hcount. simpl in Hcount.
      assert (Hcc : children slots' = children slots) by lia.
      exists (Node (S h) (children slots') slots' tags), Below. split; [|by apply Hun].
      rewrite Hcc. by destruct e.
Qed.

Lemma path_end_spec h index tag b s :
  wf (S h) s -> 0 <= tag < 2 ->
  path_end (S h) index tag s = Some (item_slot (get (S h) s index), tagged (S h) s b tag index).
Proof.
  intros Hs Ht. revert b s Hs. induction h as [|h IH]; intros b s Hs;
    (apply wf_S in Hs as [->|(slots & tags & -> & Hn)]; [done|]);
    destruct (child_get _ _ _ Hn index) as (c & Hc & Hwc & Hok).
  - cbn [path_end get tagged]. rewrite Hc. cbn [mbind option_bind]. rewrite tag_get_spec by (done || apply Hn).
    by apply wf_0 in Hwc as [->|[p ->]].
  - change (path_end (S (S h)) index tag (Node (S (S h)) (children slots) slots tags)) with
      (child ← aget slots (offset (S h) index); path_end (S h) index tag child).
    rewrite Hc. cbn [mbind option_bind]. rewrite (IH (tag_bit tags tag (offset (S h) index)) c Hwc).
    by rewrite (get_node _ _ _ _ _ c), (tagged_node _ _ _ _ _ _ _ c).
Qed.

(** ** Fewer levels *)

Section shrink.
Context (root : radix_tree_root) (h : nat) (slots : list slot) (tags : list Z) (s : slot).
Context (Hroot : tree_wf root) (Hh : height root = S h) (Hr : rnode root = Node (S h) 1 slots tags).
Context (H1 : children slots = 1) (Hs : aget slots 0 = Some s) (Hu : used s = true).

Lemma only_child : node_wf h slots tags.
Proof using Hroot Hh Hr. pose proof (tree_slots _ Hroot) as Hw. rewrite Hh, Hr in Hw. by apply wf_node in Hw as (_ & _ & Hn). Qed.

Lemma other_null i c : aget slots i = Some c -> i <> 0 -> c = Null /\ forall tag, 0 <= tag < 2 -> tag_bit tags tag i = false.
Proof using Hroot Hh Hr H1 Hs Hu.
  intros Hc Hi. pose proof (children_single _ _ _ _ _ H1 Hs Hu Hc Hi) as ->. split; [done|].
  intros tag Ht. eapply bit_ok_null. by apply only_child.
Qed.

Lemma top_bit tag : 0 <= tag < 2 -> root_tag_get root tag = tag_bit tags tag 0.
Proof using Hroot Hh Hr H1 Hs Hu.
  intros Ht. pose proof (tree_tags _ Hroot tag Ht) as Hok. rewrite Hh, Hr in Hok. cbn [bit_ok] in Hok. rewrite Hok.
  apply eq_true_iff_eq. rewrite (has_tag_spec _ _ _ _ h) by (done || apply only_child). split.
  - intros (i & Hi & Hb). destruct (decide (i = 0)) as [->|Hne]; [done|].
    destruct (slots_get slots i (node_slots _ _ _ only_child) Hi) as [c Hc]. destruct (other_null i c Hc Hne) as [_ Hno].
    by rewrite Hno in Hb.
  - intros Hb. exists 0. split; [lia|done].
Qed.

Lemma shrink_same : same_items root (Root h (gfp_mask root) s) /\ tree_wf (Root h (gfp_mask root) s).
Proof using Hroot Hh Hr H1 Hs Hu.
  pose proof only_child as Hn. pose proof (tree_height _ Hroot) as H11. rewrite Hh in H11.
  assert (Hmask : forall tag, root_tag_get (Root h (gfp_mask root) s) tag = root_tag_get root tag) by done.
  assert (Hw : tree_wf (Root h (gfp_mask root) s)).
  { split; cbn [height rnode]; [lia| | |].
    - eapply wf_aget; [apply Hn|done].
    - intros j Hj. assert (span h <= span 10) by (apply span_mono; lia). change (span 10) with (2 ^ 60) in *. lia.
    - intros tag Ht. rewrite Hmask, top_bit by done. by apply Hn. }
  assert (Hsame : same_items (Root h (gfp_mask root) s) root).
  { apply same_items_intro; [done|rewrite Hh; simpl; lia| |]; cbn [height rnode]; rewrite Hh, Hr.
    - intros j Hj. assert (Hj' : 0 <= j < span (S h)) by (unfold fits in Hj; lia). cbn [get].
      rewrite <- offset_span by done. destruct (Z.eqb_spec (offset h j) 0) as [->|Hne]; [by rewrite Hs|].
      destruct (child_get _ _ _ Hn j) as (c & Hc & _). rewrite Hc. destruct (other_null _ _ Hc Hne) as [-> _]. apply get_null.
    - intros tag j Ht Hj. assert (Hj' : 0 <= j < span (S h)) by (unfold fits in Hj; lia). cbn [tagged].
      rewrite <- offset_span, Hmask, top_bit by done. destruct (Z.eqb_spec (offset h j) 0) as [->|Hne]; [by rewrite Hs|].
      destruct (child_get _ _ _ Hn j) as (c & Hc & _). rewrite Hc. destruct (other_null _ _ Hc Hne) as [-> Hno].
      rewrite Hno by done. by destruct h. }
  split; [|done]. split; [done| |]; intros; symmetry; by apply Hsame.
Qed.
End shrink.

Lemma shrink_spec root :
  tree_wf root -> used (rnode root) = true -> exists root', radix_tree_shrink root = Some root' /\ same_items root root'.
Proof.
  unfold radix_tree_shrink. destruct root as [h mask s]. cbn [height]. revert mask s.
  induction h as [|h IH]; intros mask s Hw Hu; [by eexists|].
  destruct (root_cases _ Hw) as [Hr|[(p & _ & Hh)|(h' & slots & tags & Hr & Hh & Hn)]]; cbn [rnode height] in *;
    [by rewrite Hr in Hu|done|]. injection Hh as <-. subst s. cbn [shrink_from rnode].
  destruct (Z.eqb_spec (children slots) 1) as [H1|]; cbn [negb]; [|by eexists].
  destruct (slots_get slots 0 (node_slots _ _ _ Hn) ltac:(lia)) as [s Hs]. rewrite Hs. cbn [mbind option_bind].
  destruct (is_null s) eqn:Hnull; [by eexists|]. assert (Hus : used s = true) by (unfold used; by rewrite Hnull).
  destruct (shrink_same (Root (S h) mask (Node (S h) (children slots) slots tags)) h slots tags s) as [Hsame Hw'];
    [done|done|by cbn; rewrite H1|done|done|done|].
  destruct (IH mask s Hw' Hus) as (root' & Heq & Hs'). exists root'. split; [done|]. by eapply same_items_trans.
Qed.

(** ** The whole deletion *)

(** The tree without the item at an index and its tags. *)
Record tree_deleted (root root' : radix_tree_root) (index : Z) : Prop := {
  td_wf : tree_wf root';
  td_get : forall j, contents root' j = if j =? index then None else contents root j;
  td_tags : forall tag j, 0 <= tag < 2 -> item_tag root' tag j = if j =? index then false else item_tag root tag j
}.

Lemma deleted_same root root1 root2 index :
  tree_deleted root root1 index -> same_items root1 root2 -> tree_deleted root root2 index.
Proof.
  intros [_ Hg Ht] [Hw Hc Htg]. split; [done|by intros; rewrite Hc|]. intros. by rewrite Htg, Ht.
Qed.

Lemma tagged_refl root index tag : tree_wf root -> 0 <= tag < 2 -> item_tag root tag index = false -> tree_tagged root root index tag false.
Proof.
  intros Hw Ht Hno. split; [done|done|done|]. intros t j Htt.
  destruct (Z.eqb_spec t tag) as [->|], (Z.eqb_spec j index) as [->|]; done.
Qed.

Lemma item_tag_tagged root tag j : fits (height root) j ->
  item_tag root tag j = tagged (height root) (rnode root) (root_tag_get root tag) tag j.
Proof. unfold fits, item_tag. intros Hj. zcases; lia. Qed.

(** Clearing the tag that the path shows. *)
Lemma clear_path root h index tag :
  tree_wf root -> 0 <= tag < 2 -> 0 <= index < 2 ^ 64 -> height root = S h -> fits (height root) index ->
  exists t root1 item, path_end (height root) index tag (rnode root) = Some (item_slot (contents root index), t) /\
    (if t : bool then radix_tree_tag_clear root index tag else Some (root, Null)) = Some (root1, item) /\
    tree_tagged root root1 index tag false.
Proof.
  intros Hw Ht Hi Hh Hf. exists (item_tag root tag index). rewrite item_tag_tagged, contents_get by done.
  pose proof (tree_slots _ Hw) as Hs. rewrite Hh in Hs.
  pose proof (path_end_spec h index tag (root_tag_get root tag) _ Hs Ht) as Hpath. rewrite <- Hh in Hpath. rewrite Hpath.
  rewrite <- item_tag_tagged by done. destruct (item_tag root tag index) eqn:Htag.
  - destruct (clear_spec root index tag Hw Ht Hi) as (root1 & Heq & Htt). by exists root1, (item_slot (contents root index)).
  - exists root, Null. split; [done|]. split; [done|]. by apply tagged_refl.
Qed.

Lemma delete_untagged root index p :
  tree_wf root -> fits (height root) index -> contents root index = Some p ->
  (forall tag, 0 <= tag < 2 -> item_tag root tag index = false) ->
  exists s e, delete_down (height root) index (rnode root) = Some (s, e) /\ (e = Emptied <-> s = Null) /\
    tree_deleted root (Root (height root) (gfp_mask root) s) index.
Proof.
  intros Hw Hf Hp Hno. rewrite contents_get in Hp by done.
  destruct (delete_down_spec _ _ _ _ (root_tag_get root) (tree_slots _ Hw) Hp (tree_tags _ Hw)) as (s & e & Heq & [Hws Hb Hg Ht He]).
  { intros tag Htag. rewrite <- item_tag_tagged by done. by apply Hno. }
  assert (Hpath : forall j, 0 <= j < span (height root) -> on_path (height root) j index = (j =? index)).
  { intros j Hj. unfold on_path. by rewrite (fits_mod _ _ Hf), Z.mod_small by done. }
  exists s, e. split; [done|]. split; [done|]. split; [split; cbn [height rnode]| |].
  - apply Hw.
  - done.
  - intros j Hj. rewrite Hg, Hpath, (tree_top _ Hw) by lia. by destruct (j =? index).
  - done.
  - intros j. unfold contents. cbn [height rnode]. unfold fits in Hf. zcases; rewrite ?Hg, ?Hpath by lia; zcases.
  - intros tag j Htag. specialize (Hno tag Htag). unfold item_tag in *. cbn [height rnode].
    rewrite <- (Ht tag j Htag).
    change (root_tag_get (Root (height root) (gfp_mask root) s) tag) with (root_tag_get root tag).
    destruct (Z.eqb_spec j index) as [->|]; [by rewrite Ht|done].
Qed.

(** Both tags of the item cleared. *)
Lemma deleted_after root root1 root2 root' index :
  tree_tagged root root1 index 0 false -> tree_tagged root1 root2 index 1 false -> tree_deleted root2 root' index ->
  tree_deleted root root' index.
Proof.
  intros [_ _ Hg1 Ht1] [_ _ Hg2 Ht2] [Hw Hg Ht]. split; [done| |].
  - intros j. by rewrite Hg, Hg2, Hg1.
  - intros tag j Htag. rewrite Ht, Ht2, Ht1 by done. destruct (Z.eqb_spec j index); [done|]. by rewrite !andb_false_r.
Qed.

Lemma delete_height_0 root index :
  tree_wf root -> height root = O -> fits 0 index ->
  rnode root = item_slot (contents root index) /\
  tree_deleted root (Root 0 (gfp_mask (root_tag_clear_all root)) Null) index.
Proof.
  intros Hw Hh Hf. pose proof (tree_slots _ Hw) as Hs. rewrite Hh in Hs. assert (index = 0) as ->.
  { unfold fits in Hf. change (span 0) with 1 in Hf. lia. }
  assert (Hno : forall tag j, 0 <= tag < 2 -> item_tag (Root 0 (gfp_mask (root_tag_clear_all root)) Null) tag j = false).
  { intros tag j Ht. unfold item_tag. cbn [height rnode tagged].
    change (root_tag_get (Root 0 (gfp_mask (root_tag_clear_all root)) Null) tag) with (root_tag_get (root_tag_clear_all root) tag).
    rewrite root_tag_clear_all_get by lia. apply andb_false_r. }
  split; [rewrite contents_get by (by rewrite Hh); rewrite Hh; by apply wf_0 in Hs as [->|[p ->]]|].
  split; [split; cbn [height rnode]| |].
  - lia.
  - done.
  - done.
  - intros tag Ht. apply bit_ok_null. apply (root_tag_clear_all_get root). lia.
  - intros j. unfold contents. cbn [height rnode get]. rewrite Hh. change (Z.min (span 0) (2 ^ 64)) with 1. zcases.
  - intros tag j Ht. rewrite Hno by done. unfold item_tag. rewrite Hh. change (Z.min (span 0) (2 ^ 64)) with 1. zcases.
Qed.

(** Deletion: the item and the tree. *)
Lemma tree_delete_spec root index :
  tree_wf root -> 0 <= index < 2 ^ 64 ->
  exists root', radix_tree_delete root index = Some (root', item_slot (contents root index)) /\ tree_deleted root root' index.
Proof.
  intros Hw Hi. destruct (maxindex_test root index Hw Hi) as (m & Hm & Hfit). unfold radix_tree_delete. rewrite Hm.
  cbn [mbind option_bind].
  assert (Hrefl : contents root index = None -> tree_deleted root root index).
  { intros Hnone. split; [done| |].
    - intros j. by destruct (Z.eqb_spec j index) as [->|].
    - intros tag j Ht. destruct (Z.eqb_spec j index) as [->|]; [|done].
      destruct (item_tag root tag index) eqn:E; [|done]. apply item_tag_contents in E as [p Hp]; [congruence|done|done]. }
  destruct (m <? index) eqn:Hlt.
  { assert (Hnf : ~ fits (height root) index) by (intros Hf; apply Hfit in Hf; done).
    rewrite contents_out in * by done. eauto. }
  pose proof (proj1 Hfit eq_refl) as Hf. destruct (height root) as [|h] eqn:Hh.
  { destruct (delete_height_0 root index Hw Hh Hf) as [-> Hdel]. eauto. }
  rewrite <- Hh in *.
  destruct (clear_path root h index 0 Hw ltac:(lia) Hi Hh Hf) as (t0 & root1 & i0 & Hp0 & Hc0 & Ht0). rewrite Hp0. cbn [mbind option_bind].
  destruct (contents root index) as [p|] eqn:Hp; [|eauto]. cbn [item_slot is_null]. rewrite Hc0. cbn [mbind option_bind].
  destruct Ht0 as [Hw1 Hh1 Hg1 Ht1] eqn:Htt0. clear Htt0. rewrite <- Hh1 in Hf, Hh.
  destruct (clear_path root1 h index 1 Hw1 ltac:(lia) Hi Hh Hf) as (t1 & root2 & i1 & Hp1 & Hc1 & [Hw2 Hh2 Hg2 Ht2]).
  rewrite Hp1. cbn [mbind option_bind]. rewrite Hc1. cbn [mbind option_bind]. rewrite <- Hh2 in Hf.
  destruct (delete_untagged root2 index p Hw2 Hf) as (s & e & Hdown & He & Hdel); [by rewrite Hg2, Hg1| |].
  { intros tag Htag. rewrite Ht2, Ht1, Z.eqb_refl, !andb_true_r by done. zcases; lia. }
  assert (Hall : forall root', same_items (Root (height root2) (gfp_mask root2) s) root' -> tree_deleted root root' index).
  { intros root' Hs. apply (deleted_after root root1 root2); [done|done|]. by eapply deleted_same. }
  rewrite Hdown. cbn [mbind option_bind]. pose proof (td_wf _ _ _ Hdel) as Hw3. destruct e.
  - eexists. split; [done|]. apply Hall. by apply same_items_refl.
  - destruct (shrink_spec _ Hw3) as (root' & Hsh & Hsame); [|rewrite Hsh; eauto].
    cbn [rnode]. destruct s; [discriminate (proj2 He eq_refl)|done|done].
  - eexists. split; [done|]. apply Hall. apply empty_trees; [done| |done|simpl; lia|].
    + by apply He.
    + intros tag Htag. apply (root_tag_clear_all_get (Root (height root2) (gfp_mask root2) s)). lia.
Qed.

(** * The map with tags that a tree implements *)

Lemma need_le root index : tree_wf root -> 0 <= index < 2 ^ 64 -> (need root index <= 21)%nat.
Proof.
  intros Hw Hi. pose proof (depth_le _ Hi). pose proof (missing_le (height root) index (rnode root)).
  pose proof (tree_height _ Hw). unfold need. destruct (_ <=? _)%nat; [lia|]. destruct (is_null _); lia.
Qed.

Inductive op :=
| Insert (index : Z) (item : positive)
| Delete (index : Z)
| Lookup (index : Z)
| TagSet (index tag : Z)
| TagClear (index tag : Z)
| TagGet (index tag : Z)
| Tagged (tag : Z).

Inductive answer := Error (e : Z) | Pointer (s : slot) | Flag (b : bool).

(** An operation on the tree, with 21 nodes to allocate for an insertion. *)
Definition exec (root : radix_tree_root) (o : op) : option (radix_tree_root * answer) :=
  match o with
  | Insert index item => '(root, _, e) ← radix_tree_insert root 21 index item; Some (root, Error e)
  | Delete index => '(root, s) ← radix_tree_delete root index; Some (root, Pointer s)
  | Lookup index => s ← radix_tree_lookup root index; Some (root, Pointer s)
  | TagSet index tag => '(root, s) ← radix_tree_tag_set root index tag; Some (root, Pointer s)
  | TagClear index tag => '(root, s) ← radix_tree_tag_clear root index tag; Some (root, Pointer s)
  | TagGet index tag => b ← radix_tree_tag_get root index tag; Some (root, Flag b)
  | Tagged tag => Some (root, Flag (radix_tree_tagged root tag))
  end.

(** The items by index, and the pairs of a tag and an index that has it. *)
Record tagged_map := TaggedMap { items : gmap Z positive; marks : gset (Z * Z) }.

Definition spec (m : tagged_map) (o : op) : tagged_map * answer :=
  match o with
  | Insert index item =>
      match items m !! index with
      | Some _ => (m, Error (- EEXIST))
      | None => (TaggedMap (<[index := item]> (items m)) (marks m), Error 0)
      end
  | Delete index =>
      (TaggedMap (delete index (items m)) (filter (fun x => x.2 <> index) (marks m)), Pointer (item_slot (items m !! index)))
  | Lookup index => (m, Pointer (item_slot (items m !! index)))
  | TagSet index tag => (TaggedMap (items m) ({[(tag, index)]} ∪ marks m), Pointer (item_slot (items m !! index)))
  | TagClear index tag => (TaggedMap (items m) (marks m ∖ {[(tag, index)]}), Pointer (item_slot (items m !! index)))
  | TagGet index tag => (m, Flag (bool_decide ((tag, index) ∈ marks m)))
  | Tagged tag => (m, Flag (bool_decide (filter (fun x => x.1 = tag) (marks m) <> ∅)))
  end.

(** 64-bit indices, the two tags, and tags set on present items only. *)
Definition allowed (m : tagged_map) (o : op) : Prop :=
  match o with
  | Insert index _ | Delete index | Lookup index => 0 <= index < 2 ^ 64
  | TagSet index tag => 0 <= index < 2 ^ 64 /\ 0 <= tag < 2 /\ is_Some (items m !! index)
  | TagClear index tag | TagGet index tag => 0 <= index < 2 ^ 64 /\ 0 <= tag < 2
  | Tagged tag => 0 <= tag < 2
  end.

Fixpoint exec_all (root : radix_tree_root) (os : list op) : option (radix_tree_root * list answer) :=
  match os with
  | [] => Some (root, [])
  | o :: os => '(root, a) ← exec root o; '(root, l) ← exec_all root os; Some (root, a :: l)
  end.

Fixpoint spec_all (m : tagged_map) (os : list op) : tagged_map * list answer :=
  match os with
  | [] => (m, [])
  | o :: os => let '(m, a) := spec m o in let '(m, l) := spec_all m os in (m, a :: l)
  end.

Fixpoint allowed_all (m : tagged_map) (os : list op) : Prop :=
  match os with
  | [] => True
  | o :: os => allowed m o /\ allowed_all (fst (spec m o)) os
  end.

(** The tree stands for the map. *)
Record stands_for (root : radix_tree_root) (m : tagged_map) : Prop := {
  st_wf : tree_wf root;
  st_items : forall j, contents root j = items m !! j;
  st_marks : forall tag j, 0 <= tag < 2 -> item_tag root tag j = bool_decide ((tag, j) ∈ marks m)
}.

Lemma init_stands mask : 0 <= mask < 2 ^ 22 -> stands_for (INIT_RADIX_TREE mask) (TaggedMap ∅ ∅).
Proof.
  intros Hm. assert (Hno : forall tag, 0 <= tag -> root_tag_get (INIT_RADIX_TREE mask) tag = false).
  { intros tag Ht. rewrite root_tag_bit by done. cbn [gfp_mask INIT_RADIX_TREE]. unfold __GFP_BITS_SHIFT.
    apply (word_bits_high 22); [done|lia]. }
  split; [split; cbn [height rnode INIT_RADIX_TREE]| |].
  - lia.
  - done.
  - done.
  - intros tag Ht. apply bit_ok_null. apply Hno. lia.
  - intros j. unfold contents. cbn [height rnode INIT_RADIX_TREE get items]. rewrite lookup_empty. by destruct (_ && _).
  - intros tag j Ht. unfold item_tag. cbn [height rnode INIT_RADIX_TREE tagged].
    change (Root 0 mask Null) with (INIT_RADIX_TREE mask). rewrite Hno, andb_false_r by lia. by rewrite bool_decide_eq_false_2 by set_solver.
Qed.

Lemma marks_add (m : gset (Z * Z)) tag index t j :
  (if (t =? tag) && (j =? index) then true else bool_decide ((t, j) ∈ m)) = bool_decide ((t, j) ∈ {[(tag, index)]} ∪ m).
Proof.
  destruct (Z.eqb_spec t tag) as [->|], (Z.eqb_spec j index) as [->|]; simpl;
    [symmetry; apply bool_decide_eq_true_2; set_solver|apply bool_decide_ext; set_solver..].
Qed.

Lemma marks_remove (m : gset (Z * Z)) tag index t j :
  (if (t =? tag) && (j =? index) then false else bool_decide ((t, j) ∈ m)) = bool_decide ((t, j) ∈ m ∖ {[(tag, index)]}).
Proof.
  destruct (Z.eqb_spec t tag) as [->|], (Z.eqb_spec j index) as [->|]; simpl;
    [symmetry; apply bool_decide_eq_false_2; set_solver|apply bool_decide_ext; set_solver..].
Qed.

Lemma marks_any root m tag :
  stands_for root m -> 0 <= tag < 2 -> radix_tree_tagged root tag = bool_decide (filter (fun x => x.1 = tag) (marks m) <> ∅).
Proof.
  intros [Hw _ Ht] Htag. apply eq_true_iff_eq. rewrite tagged_spec, bool_decide_eq_true by done. split.
  - intros (j & _ & Hj). rewrite Ht, bool_decide_eq_true in Hj by done. intros Hempty.
    assert (Hin : (tag, j) ∈ filter (fun x => x.1 = tag) (marks m)) by (by apply elem_of_filter).
    rewrite Hempty in Hin. by apply not_elem_of_empty in Hin.
  - intros Hne. apply set_choose_L in Hne as [[t j] Hin]. apply elem_of_filter in Hin as [Heq Hin]. simpl in Heq. subst t.
    assert (Hj : item_tag root tag j = true) by (rewrite Ht by done; by apply bool_decide_eq_true).
    exists j. split; [|done]. unfold item_tag in Hj. lia.
Qed.

Lemma exec_spec root m o :
  stands_for root m -> allowed m o ->
  exists root', exec root o = Some (root', snd (spec m o)) /\ stands_for root' (fst (spec m o)).
Proof.
  intros [Hw Hc Ht] Ha. destruct o as [index item|index|index|index tag|index tag|index tag|tag]; cbn [exec spec allowed fst snd] in *.
  - destruct (tree_insert_spec root 21 index item Hw Ha) as (root' & Heq & [Hw' Hg' Ht']). rewrite Heq. cbn [mbind option_bind].
    pose proof (need_le root index Hw Ha) as Hneed. unfold insert_status in *. rewrite Hc in *.
    destruct (items m !! index) as [p|] eqn:Hp; cbn [fst snd].
    + eexists. split; [done|]. split; [done|intros j; by rewrite Hg', Hc|]. intros. by rewrite Ht', Ht.
    + rewrite (proj2 (Nat.leb_le _ _) Hneed) in *. eexists. split; [done|]. split; [done| |].
      * intros j. rewrite Hg', Hc. cbn [items]. simpl. destruct (Z.eqb_spec j index) as [->|Hne]; [by rewrite lookup_insert_eq|].
        by rewrite lookup_insert_ne by done.
      * intros. by rewrite Ht', Ht.
  - destruct (tree_delete_spec root index Hw Ha) as (root' & Heq & [Hw' Hg' Ht']). rewrite Heq, Hc. eexists. split; [done|]. split; [done| |].
    + intros j. rewrite Hg', Hc. cbn [items]. destruct (Z.eqb_spec j index) as [->|Hne]; [by rewrite lookup_delete_eq|].
      by rewrite lookup_delete_ne by done.
    + intros tag j Htag. rewrite Ht', Ht by done. cbn [marks]. destruct (Z.eqb_spec j index) as [->|Hne].
      * symmetry. apply bool_decide_eq_false_2. rewrite elem_of_filter. naive_solver.
      * apply bool_decide_ext. rewrite elem_of_filter. naive_solver.
  - rewrite tree_lookup_spec by done. rewrite Hc. by exists root.
  - destruct Ha as (Hi & Htag & [p Hp]). destruct (set_spec root index tag p Hw Htag Hi) as (root' & Heq & [Hw' _ Hg' Ht']); [by rewrite Hc|].
    rewrite Heq, Hp. eexists. split; [done|]. split; [done|intros j; by rewrite Hg', Hc|].
    intros t j Htt. rewrite Ht', Ht by done. cbn [marks]. apply marks_add.
  - destruct Ha as [Hi Htag]. destruct (clear_spec root index tag Hw Htag Hi) as (root' & Heq & [Hw' _ Hg' Ht']).
    rewrite Heq, Hc. eexists. split; [done|]. split; [done|intros j; by rewrite Hg', Hc|].
    intros t j Htt. rewrite Ht', Ht by done. cbn [marks]. apply marks_remove.
  - destruct Ha as [Hi Htag]. rewrite get_tag_spec, Ht by done. by exists root.
  - exists root. by rewrite (marks_any root m).
Qed.

Lemma exec_all_spec os root m :
  stands_for root m -> allowed_all m os ->
  exists root', exec_all root os = Some (root', snd (spec_all m os)) /\ stands_for root' (fst (spec_all m os)).
Proof.
  revert root m. induction os as [|o os IH]; intros root m Hr Ha; [by exists root|].
  destruct Ha as [Ho Hos]. destruct (exec_spec root m o Hr Ho) as (root1 & Heq & Hr1). cbn [exec_all spec_all]. rewrite Heq.
  cbn [mbind option_bind]. destruct (spec m o) as [m1 a]. cbn [fst snd] in *.
  destruct (IH root1 m1 Hr1 Hos) as (root2 & Heq2 & Hr2). rewrite Heq2. destruct (spec_all m1 os) as [m2 l]. by exists root2.
Qed.

Definition example_ops : list op :=
  [Insert 5 10; Insert 70 11; TagSet 70 1; Insert 5 12; Insert (2 ^ 64 - 1) 13; TagGet 70 1; Tagged 0; Delete 70; Tagged 1;
   Lookup 5; Delete (2 ^ 64 - 1); TagSet 5 0; TagClear 5 0; TagGet 5 0; Lookup 70].

(** C19 A radix tree behaves as a map from 64-bit indices to items with two sets of marked
    indices.  From an empty tree, or any tree that stands for such a map, every sequence of
    insertions, deletions, lookups and tag operations (with room to allocate and tags set on
    present items) runs without [BUG_ON] and gives the answers of the map: [-EEXIST] for a
    second insertion at an index, the removed item or null from a deletion, which drops its
    tags too, the item or null from a lookup, and from [radix_tree_tagged] whether any item
    has the tag. *)
Theorem radix_tree_refines_map :
  (forall mask, 0 <= mask < 2 ^ 22 -> stands_for (INIT_RADIX_TREE mask) (TaggedMap ∅ ∅)) /\
  (forall root m os, stands_for root m -> allowed_all m os ->
     exists root', exec_all root os = Some (root', snd (spec_all m os)) /\ stands_for root' (fst (spec_all m os))).
Proof.
  split; [exact init_stands|]. intros root m os Hr Ha. by apply exec_all_spec.
Qed.

Lemma radix_tree_refines_map_witness :
  (0 <= 32 < 2 ^ 22 /\ allowed_all (TaggedMap ∅ ∅) example_ops) /\
  snd <$> exec_all (INIT_RADIX_TREE 32) example_ops =
    Some [Error 0; Error 0; Pointer (Item 11); Error (-17); Error 0; Flag true; Flag false; Pointer (Item 11); Flag false;
          Pointer (Item 10); Pointer (Item 13); Pointer (Item 10); Pointer (Item 10); Flag false; Pointer Null] /\
  exists root, exec_all (INIT_RADIX_TREE 32) example_ops = Some (root, snd (spec_all (TaggedMap ∅ ∅) example_ops)) /\
    stands_for root (fst (spec_all (TaggedMap ∅ ∅) example_ops)).
Proof.
  assert (Hall : 0 <= 32 < 2 ^ 22 /\ allowed_all (TaggedMap ∅ ∅) example_ops).
  { split; [lia|]. vm_compute. naive_solver. }
  split; [done|]. split; [by vm_compute|]. apply (proj2 radix_tree_refines_map); [by apply radix_tree_refines_map|apply Hall].
Defined.

(** * Scanning *)

(** The pointers that [f] gives for the indices from [a] up to [b]. *)
Definition found (f : Z -> option slot) (a b : Z) : list slot :=
  concat ((fun j => option_list (f j)) <$> seqZ a (b - a)).

Lemma found_app f a b c : a <= b <= c -> found f a c = found f a b ++ found f b c.
Proof.
  intros H. unfold found. replace (c - a) with ((b - a) + (c - b)) by lia. rewrite seqZ_app by lia.
  rewrite fmap_app, concat_app. by replace (a + (b - a)) with b by lia.
Qed.

Lemma found_ext f g a b : (forall j, a <= j < b -> f j = g j) -> found f a b = found g a b.
Proof.
  intros H. unfold found. f_equal. apply list_fmap_ext. intros i j Hj. apply lookup_seqZ in Hj as [-> Hi].
  by rewrite H by lia.
Qed.

Lemma found_none f a b : (forall j, a <= j < b -> f j = None) -> found f a b = [].
Proof.
  intros H. rewrite (found_ext f (fun _ => None)) by done. unfold found.
  induction (seqZ a (b - a)) as [|x l IH]; [done|]. apply IH.
Qed.

Lemma found_one f a : found f a (a + 1) = option_list (f a).
Proof. unfold found. replace (a + 1 - a) with 1 by lia. rewrite seqZ_cons by lia. cbn. apply app_nil_r. Qed.

Lemma found_empty f a : found f a a = [].
Proof. unfold found. by rewrite Z.sub_diag. Qed.

(** ** The search for a slot in use *)

(** The first index after those below the same slot at height [h] as [j]. *)
Definition block_end (h : nat) (j : Z) : Z := (j / span h + 1) * span h.

Lemma span_divides h : (h <= 10)%nat -> 2 ^ 64 = 2 ^ (64 - 6 * Z.of_nat h) * span h.
Proof. intros Hh. unfold span. rewrite <- Z.pow_add_r by lia. f_equal. lia. Qed.

Lemma block_end_le h j : (h <= 10)%nat -> 0 <= j < 2 ^ 64 -> j < block_end h j <= 2 ^ 64.
Proof.
  intros Hh Hj. pose proof (span_divides h Hh) as Hdiv. pose proof (span_pos h). unfold block_end.
  pose proof (Z.div_mod j (span h) ltac:(lia)). pose proof (Z.mod_pos_bound j (span h) ltac:(lia)).
  split; [nia|]. assert (j / span h < 2 ^ (64 - 6 * Z.of_nat h)); [|nia].
  apply Z.div_lt_upper_bound; [lia|]. nia.
Qed.

(** The index is in the block exactly when its quotient is the same. *)
Lemma in_block h i j : i <= j < block_end h i -> j / span h = i / span h.
Proof.
  intros Hj. pose proof (span_pos h). unfold block_end in Hj. pose proof (Z.div_mod i (span h) ltac:(lia)).
  pose proof (Z.mod_pos_bound i (span h) ltac:(lia)). symmetry. apply (Z.div_unique j (span h) _ (j - span h * (i / span h))); lia.
Qed.

Lemma block_nested h j : block_end h j <= block_end (S h) j.
Proof.
  pose proof (span_pos h). unfold block_end. rewrite span_S, (Z.mul_comm 64), <- Z.div_div by lia.
  pose proof (Z.div_mod (j / span h) 64 ltac:(lia)). pose proof (Z.mod_pos_bound (j / span h) 64 ltac:(lia)). nia.
Qed.

Lemma same_offset h i j : j / span h = i / span h -> offset h j = offset h i.
Proof. intros H. by rewrite !offset_eq, H. Qed.

Lemma div_span_S h i j : j / span h = i / span h -> j / span (S h) = i / span (S h).
Proof. intros H. pose proof (span_pos h). rewrite span_S, (Z.mul_comm 64), <- !Z.div_div by lia. by rewrite H. Qed.

(** The index after the block, computed with masks. *)
Lemma next_block h j : (h <= 10)%nat -> 0 <= j < 2 ^ 64 ->
  u64 (Z.land j (not64 (u64 (shl64 1 (Z.of_nat h * RADIX_TREE_MAP_SHIFT) - 1))) + shl64 1 (Z.of_nat h * RADIX_TREE_MAP_SHIFT)) =
  u64 (block_end h j).
Proof.
  intros Hh Hj. unfold RADIX_TREE_MAP_SHIFT. rewrite (Z.mul_comm (Z.of_nat h)).
  assert (Hpow : shl64 1 (6 * Z.of_nat h) = span h).
  { unfold shl64. rewrite Z.mod_small, Z.shiftl_1_l by lia. apply wrap_small. pose proof (span_pos h).
    assert (span h <= span 10) by (by apply span_mono). change (span 10) with (2 ^ 60) in *. unfold is_word, span in *. lia. }
  rewrite Hpow. unfold span at 1. rewrite align_mask by (lia || done). f_equal. unfold block_end.
  pose proof (span_pos h). pose proof (Z.div_mod j (span h) ltac:(lia)). fold (span h). lia.
Qed.

Section skip.
Context (h : nat) (Hh : (h <= 10)%nat) (u : Z -> bool) (use : Z -> option bool).
Context (Huse : forall i, 0 <= i < 64 -> use i = Some (u i)).
Context (index : Z) (Hindex : 0 <= index < 2 ^ 64).

(** The indices passed over: in the block of the node, below slots that are not in use. *)
Definition passed (e : Z) : Prop :=
  forall j, index <= j < e -> u (offset h j) = false.

(** The search ended at [e]. *)
Definition skipped (e : Z) (r : Z * Z + Z) : Prop :=
  index <= e <= block_end (S h) index /\ passed e /\
  match r with
  | inl (i, x) => x = e /\ e < 2 ^ 64 /\ e < block_end (S h) index /\ i = offset h e /\ u i = true
  | inr x => x = u64 e /\ index < e <= 2 ^ 64
  end.

Lemma skip_once e :
  index <= e < block_end (S h) index -> e < 2 ^ 64 -> passed e -> u (offset h e) = false ->
  let e' := block_end h e in
  e < e' <= 2 ^ 64 /\ e' <= block_end (S h) index /\ passed e' /\
  (e' < block_end (S h) index <-> offset h e + 1 < 64) /\ (e' < block_end (S h) index -> offset h e' = offset h e + 1).
Proof using Hh Hindex.
  intros He He64 Hp Hu e'. pose proof (block_end_le h e Hh ltac:(lia)) as Hend. pose proof (span_pos h) as Hpos.
  pose proof (in_block (S h) index e ltac:(lia)) as Hdiv.
  assert (Hblk : block_end (S h) e = block_end (S h) index) by (unfold block_end; by rewrite Hdiv).
  pose proof (block_nested h e) as Hnest. fold e' in Hend, Hnest. rewrite Hblk in Hnest.
  split; [lia|]. split; [done|]. split.
  { intros j Hj. destruct (Z.lt_ge_cases j e); [apply Hp; lia|]. rewrite (same_offset h e); [done|]. apply in_block. unfold e' in Hj. lia. }
  assert (Hq : e' = block_end (S h) index - (63 - offset h e) * span h).
  { rewrite <- Hblk. unfold e', block_end. rewrite span_S, (Z.mul_comm 64), <- Z.div_div by lia. rewrite offset_eq.
    pose proof (Z.div_mod (e / span h) 64 ltac:(lia)). nia. }
  pose proof (offset_range h e) as Ho. split; [nia|]. intros Hlt.
  assert (Ho' : offset h e < 63) by nia. rewrite !offset_eq in *. unfold e', block_end. rewrite Z.div_mul by lia.
  pose proof (Z.div_mod (e / span h) 64 ltac:(lia)). symmetry.
  apply (Z.mod_unique _ 64 (e / span h / 64)); [left; lia|lia].
Qed.

Lemma skip_spec : exists e r, skip_unused use (Z.of_nat h * RADIX_TREE_MAP_SHIFT) index (offset h index) = Some r /\ skipped e r.
Proof using Hh Hindex Huse.
  unfold skip_unused.
  destruct (loop_total (skip_step use (Z.of_nat h * RADIX_TREE_MAP_SHIFT))
    (fun '(x, i) => index <= x < block_end (S h) index /\ x < 2 ^ 64 /\ passed x /\ i = offset h x)
    (fun r => exists e, skipped e r) (fun '(_, i) => Z.to_nat (64 - i))) with (fuel := 65%nat) (s := (index, offset h index))
    as (r & Hr & e & He).
  - intros [x i] (Hx & Hx64 & Hp & ->). unfold skip_step. rewrite Huse by apply offset_range. cbn [mbind option_bind].
    destruct (u (offset h x)) eqn:Hu.
    { eexists. split; [done|]. exists x. split; [lia|]. split; [done|]. split; [done|]. split; [lia|]. split; [lia|done]. }
    destruct (skip_once x Hx Hx64 Hp Hu) as (He & Hle & Hp' & Hiff & Ho). rewrite next_block by (done || lia). cbn zeta.
    pose proof (offset_range h x) as Hox. set (e := block_end h x) in *. unfold RADIX_TREE_MAP_SIZE.
    destruct (Z.eqb_spec (u64 e) 0) as [H0|Hnz].
    + eexists. split; [done|]. exists e. split; [lia|]. split; [done|]. split; [done|lia].
    + assert (Hu64 : u64 e = e).
      { apply wrap_small. unfold is_word. destruct (decide (e = 2 ^ 64)) as [E|]; [by rewrite E in Hnz|lia]. }
      assert (He64 : e <> 2 ^ 64) by (intros E; by rewrite E in Hnz). rewrite Hu64. eexists. split; [done|].
      destruct (Z.eqb_spec (offset h x + 1) 64).
      * exists e. split; [lia|]. split; [done|]. split; [done|lia].
      * rewrite Ho by lia. split; [|lia]. split; [lia|]. split; [lia|]. done.
  - pose proof (block_nested h index). pose proof (block_end_le h index Hh Hindex). split; [lia|]. split; [lia|].
    split; [|done]. intros j Hj. lia.
  - pose proof (offset_range h index). lia.
  - by exists e, r.
Qed.
End skip.

(** ** The bottom level *)

(** A scan from [index] on at height [h] ended at [e]. *)
Record scanned (h : nat) (f : Z -> option slot) (index max_items : Z) (r : list slot * Z) (e : Z) : Prop := {
  sc_range : index < e <= block_end h index;
  sc_64 : e <= 2 ^ 64;
  sc_res : fst r = found f index e;
  sc_next : snd r = u64 e;
  sc_max : zlen (fst r) <= max_items
}.

Lemma span_1 : span 1 = 64.
Proof. done. Qed.

Lemma offset_0 j : offset 0 j = j mod 64.
Proof. by rewrite offset_eq, span_0, Z.div_1_r. Qed.

Lemma mask_offset j : Z.land j RADIX_TREE_MAP_MASK = offset 0 j.
Proof. rewrite offset_0. apply (land_pow2_sub1 j 6). lia. Qed.

Lemma block_end_1 index : block_end 1 index = index - offset 0 index + 64.
Proof. unfold block_end. rewrite offset_0, span_1. pose proof (Z.div_mod index 64). lia. Qed.

Section grab.
Context (u : Z -> bool) (use : Z -> option bool) (slots : list slot) (f : Z -> option slot) (index max_items : Z).
Context (Huse : forall i, 0 <= i < 64 -> use i = Some (u i)) (Hlen : length slots = 64%nat).
Context (Hindex : 0 <= index < 2 ^ 64) (Hmax : 1 <= max_items).
Context (Hf : forall j, index <= j < block_end 1 index -> f j =
  if u (offset 0 j) then (s ← aget slots (offset 0 j); if is_null s then None else Some s) else None).

(** The loop has reached the index [e]. *)
Definition grabbed (st : list slot * Z * Z) : Prop :=
  let '(res, x, i) := st in
  exists e, index <= e <= block_end 1 index /\ i = offset 0 index + (e - index) /\ x = u64 e /\
    res = found f index e /\ zlen res < max_items.

(** One more index. *)
Lemma found_next e : index <= e < block_end 1 index ->
  offset 0 index + (e - index) = offset 0 e /\
  exists s, aget slots (offset 0 e) = Some s /\
    found f index (e + 1) = found f index e ++ (if u (offset 0 e) && negb (is_null s) then [s] else []).
Proof using Hlen Hf.
  intros He. pose proof (block_end_1 index) as Hend. pose proof (offset_range 0 index) as Ho. split.
  - rewrite !offset_0 in *. apply (Z.mod_unique e 64 (index / 64)); [left; lia|]. pose proof (Z.div_mod index 64). lia.
  - destruct (slots_get slots (offset 0 e) Hlen (offset_range 0 e)) as [s Hs]. exists s. split; [done|].
    rewrite (found_app f index e (e + 1)), found_one, Hf, Hs by lia. cbn [mbind option_bind]. f_equal.
    by destruct (u (offset 0 e)), (is_null s).
Qed.

Lemma grab_once st : grabbed st -> exists x, grab_step use slots max_items st = Some x /\
  match x with
  | Next st' => grabbed st' /\ (Z.to_nat (64 - snd st') < Z.to_nat (64 - snd st))%nat
  | Done r => exists e, scanned 1 f index max_items r e
  end.
Proof using Huse Hlen Hindex Hf.
  destruct st as [[res x] i]. intros (e & He & -> & -> & -> & Hlt). unfold grab_step, RADIX_TREE_MAP_SIZE. cbn [snd].
  pose proof (block_end_le 1 index ltac:(lia) Hindex) as Hend. pose proof (block_end_1 index) as Hb. pose proof (offset_range 0 index) as Ho.
  destruct (Z.ltb_spec (offset 0 index + (e - index)) 64) as [H64|H64].
  - destruct (found_next e ltac:(lia)) as (Hoe & s & Hs & Hstep). rewrite Hoe, Huse by apply offset_range.
    cbn [mbind option_bind]. rewrite Hs. cbn [mbind option_bind].
    assert (Hu64 : u64 (u64 e + 1) = u64 (e + 1)) by (unfold wrap; apply Z.add_mod_idemp_l; lia). rewrite Hu64.
    destruct (u (offset 0 e) && negb (is_null s)).
    + assert (Hl : zlen (found f index e ++ [s]) = zlen (found f index e) + 1) by (unfold zlen; rewrite length_app; simpl; lia).
      rewrite <- Hstep in *. eexists. split; [done|]. destruct (Z.eqb_spec (zlen (found f index (e + 1))) max_items) as [Heq|Hne].
      * exists (e + 1). split; simpl; try done; lia.
      * split; [|cbn [snd]; lia]. exists (e + 1). split; [lia|]. split; [lia|]. split; [done|]. split; [done|lia].
    + rewrite app_nil_r in Hstep. eexists. split; [done|]. split; [|cbn [snd]; lia]. exists (e + 1). rewrite Hstep.
      split; [lia|]. split; [lia|]. done.
  - eexists. split; [done|]. exists e. split; simpl; try done; lia.
Qed.

Lemma grab_spec : exists r e, grab use slots index max_items (offset 0 index) = Some r /\ scanned 1 f index max_items r e.
Proof using Huse Hlen Hindex Hmax Hf.
  unfold grab. pose proof (block_end_le 1 index ltac:(lia) Hindex) as Hend. pose proof (offset_range 0 index) as Ho.
  destruct (loop_total (grab_step use slots max_items) grabbed (fun r => exists e, scanned 1 f index max_items r e)
    (fun st => Z.to_nat (64 - snd st)) grab_once 65 (@nil slot, index, offset 0 index)) as (r & Hr & e & He).
  - exists index. split; [lia|]. split; [lia|]. split; [symmetry; by apply wrap_small|]. rewrite found_empty.
    split; [done|]. unfold zlen. simpl. lia.
  - cbn [snd]. lia.
  - by exists r, e.
Qed.
End grab.

(** ** One way down *)

(** A search that left the node found nothing. *)
Lemma scanned_left h u index e x f max_items :
  skipped h u index e (inr x) -> 1 <= max_items -> (forall j, u (offset h j) = false -> f j = None) ->
  scanned (S h) f index max_items ([], x) e.
Proof.
  intros (He & Hp & -> & Hlt) Hmax Hf. split; [lia|lia| |done|unfold zlen; simpl; lia].
  symmetry. apply found_none. intros j Hj. by apply Hf, Hp.
Qed.

(** A search that found a slot, and a scan from there on. *)
Lemma scanned_skip h u index e1 i f max_items r e :
  skipped h u index e1 (inl (i, e1)) -> (forall j, u (offset h j) = false -> f j = None) ->
  scanned (S h) f e1 max_items r e -> scanned (S h) f index max_items r e.
Proof.
  intros (He & Hp & _ & He64 & Hlt & _) Hnone [Hr H64 Hres Hnext Hlen].
  assert (Hend : block_end (S h) e1 = block_end (S h) index) by (unfold block_end; by rewrite (in_block (S h) index e1) by lia).
  split; [lia|done| |done|done].
  rewrite Hres, (found_app f index e1 e) by lia. by rewrite (found_none f index e1) by (intros j Hj; by apply Hnone, Hp).
Qed.

(** The scan of a child. *)
Lemma scanned_child h f fc index max_items r e :
  (forall j, offset h j = offset h index -> f j = fc j) -> scanned h fc index max_items r e -> scanned (S h) f index max_items r e.
Proof.
  intros Hbelow [Hr H64 Hres Hnext Hlen]. pose proof (block_nested h index). split; [lia|done| |done|done].
  rewrite Hres. apply found_ext. intros j Hj. symmetry. apply Hbelow. apply same_offset. apply in_block. lia.
Qed.

(** The slots in use. *)
Definition slot_used (slots : list slot) (i : Z) : bool := match aget slots i with Some s => negb (is_null s) | None => false end.

Lemma slot_used_spec slots i : length slots = 64%nat -> 0 <= i < 64 -> (s ← aget slots i; Some (negb (is_null s))) = Some (slot_used slots i).
Proof. intros Hl Hi. unfold slot_used. by destruct (slots_get slots i Hl Hi) as [s ->]. Qed.

Lemma slot_unused h nh n slots tags j : slot_used slots (offset h j) = false -> get (S h) (Node nh n slots tags) j = None.
Proof.
  unfold slot_used. cbn [get]. destruct (aget slots (offset h j)) as [s|]; [|done]. cbn [mbind option_bind].
  destruct s; try done. intros _. apply get_null.
Qed.

Lemma tree_scan_spec h index max_items s :
  (h <= 10)%nat -> wf (S h) s -> used s = true -> 0 <= index < 2 ^ 64 -> 1 <= max_items ->
  exists r e, scan_down (S h) index max_items s = Some r /\ scanned (S h) (fun j => Item <$> get (S h) s j) index max_items r e.
Proof.
  intros Hh Hs Hu Hi Hmax. revert Hh index Hi s Hs Hu. induction h as [|h IH]; intros Hh index Hi s Hs Hu;
    (apply wf_S in Hs as [->|(slots & tags & -> & Hn)]; [done|]); pose proof (node_slots _ _ _ Hn) as Hl.
  - cbn [scan_down]. rewrite mask_offset. apply (grab_spec (slot_used slots)); [by intros; apply slot_used_spec|done|done|done|].
    intros j _. destruct (child_get _ _ _ Hn j) as (c & Hc & Hwc & _). rewrite (get_node _ _ _ _ _ c) by done.
    unfold slot_used. rewrite Hc. by apply wf_0 in Hwc as [->|[p ->]].
  - change (scan_down (S (S h)) index max_items (Node (S (S h)) (children slots) slots tags)) with
      (x ← skip_unused (fun i => s ← aget slots i; Some (negb (is_null s))) (Z.of_nat (S h) * RADIX_TREE_MAP_SHIFT) index (offset (S h) index);
       match x with
       | inr index => Some ([], index)
       | inl (i, index) => s ← aget slots i; scan_down (S h) index max_items s
       end).
    destruct (skip_spec (S h) Hh (slot_used slots) _ (fun i Hi' => slot_used_spec slots i Hl Hi') index Hi) as (e1 & x & Hx & Hsk).
    rewrite Hx. cbn [mbind option_bind].
    assert (Hnone : forall j, slot_used slots (offset (S h) j) = false ->
      Item <$> get (S (S h)) (Node (S (S h)) (children slots) slots tags) j = None).
    { intros j Hj. by rewrite slot_unused by done. }
    destruct x as [[i x]|x]; [|by eexists _, e1; split; [done|]; apply (scanned_left _ (slot_used slots))].
    pose proof Hsk as (He & _ & -> & He64 & _ & Hio & Hui). unfold slot_used in Hui. destruct (aget slots i) as [c|] eqn:Hc; [|done].
    cbn [mbind option_bind]. assert (Hwc : wf (S h) c) by (eapply wf_aget; [apply Hn|done]).
    destruct (IH ltac:(lia) e1 ltac:(lia) c Hwc Hui) as (r & e & Hr & Hsc). exists r, e. split; [done|].
    eapply scanned_skip; [done|done|]. eapply scanned_child; [|done].
    intros j Hj. by rewrite (get_node _ _ _ _ _ c) by (by rewrite Hj, <- Hio).
Qed.

(** Nothing is tagged below a pointer without the tag. *)
Lemma untagged_below h s tag j : wf h s -> 0 <= tag < 2 -> bit_ok h s tag false -> tagged h s false tag j = false.
Proof.
  intros Hs Ht Hok. destruct (tagged h s false tag j) eqn:Htg; [|done]. symmetry. apply (has_tag_item h s false tag Hs Ht Hok).
  exists (j mod span h). pose proof (span_pos h). split; [by apply Z.mod_pos_bound|].
  rewrite <- Htg. apply tagged_mod. apply Z.mod_mod. lia.
Qed.

(** The tagged items below a pointer. *)
Definition pick (h : nat) (s : slot) (b : bool) (tag j : Z) : option slot :=
  if tagged h s b tag j then Item <$> get h s j else None.

Section scan_tag.
Context (h : nat) (Hh : (h <= 10)%nat) (tag : Z) (Ht : 0 <= tag < 2) (index max_items : Z).
Context (Hi : 0 <= index < 2 ^ 64) (Hmax : 1 <= max_items) (slots : list slot) (tags : list Z) (Hn : node_wf h slots tags).

Lemma pick_none b j : tag_bit tags tag (offset h j) = false -> pick (S h) (Node (S h) (children slots) slots tags) b tag j = None.
Proof using Hn Ht.
  intros Hj. destruct (child_get _ _ _ Hn j) as (c & Hc & Hwc & Hok). unfold pick. rewrite (tagged_node _ _ _ _ _ _ _ c), Hj by done.
  specialize (Hok tag Ht). rewrite Hj in Hok. by rewrite untagged_below.
Qed.

Lemma skip_tag : exists e r, skip_unused (fun i => tag_get tags tag i) (Z.of_nat h * RADIX_TREE_MAP_SHIFT) index (offset h index) = Some r /\
  skipped h (tag_bit tags tag) index e r.
Proof using Hn Hh Hi Ht. apply skip_spec; [done| |done]. intros i _. apply tag_get_spec; [apply Hn|apply Hn|done]. Qed.
End scan_tag.

Lemma scan_tag_leaf index max_items tag b slots tags :
  0 <= tag < 2 -> 0 <= index < 2 ^ 64 -> 1 <= max_items -> node_wf 0 slots tags ->
  exists r e, scan_tag_down 1 index max_items tag (Node 1 (children slots) slots tags) = Some r /\
    scanned 1 (pick 1 (Node 1 (children slots) slots tags) b tag) index max_items r e.
Proof.
  intros Ht Hi Hmax Hn. set (s := Node 1 (children slots) slots tags).
  destruct (skip_tag 0 ltac:(lia) tag Ht index Hi slots tags Hn) as (e1 & x & Hx & Hsk).
  change (scan_tag_down 1 index max_items tag s) with
    (x ← skip_unused (fun i => tag_get tags tag i) (Z.of_nat 0 * RADIX_TREE_MAP_SHIFT) index (offset 0 index);
     match x with
     | inr index => Some ([], index)
     | inl (i, index) => grab (fun j => tag_get tags tag j) slots index max_items (Z.land index RADIX_TREE_MAP_MASK)
     end). rewrite Hx. cbn [mbind option_bind].
  pose proof (pick_none 0 tag Ht slots tags Hn b) as Hnone.
  destruct x as [[i x]|x]; [|by eexists _, e1; split; [done|]; apply (scanned_left _ (tag_bit tags tag))].
  pose proof Hsk as (He & _ & -> & He64 & _). rewrite mask_offset.
  destruct (grab_spec (tag_bit tags tag) (fun j => tag_get tags tag j) slots (pick 1 s b tag) e1 max_items) as (r & e & Hr & Hsc).
  - intros j _. apply tag_get_spec; [apply Hn|apply Hn|done].
  - apply Hn.
  - lia.
  - done.
  - intros j _. destruct (child_get _ _ _ Hn j) as (c & Hc & Hwc & _). unfold s, pick.
    rewrite (get_node _ _ _ _ _ c), (tagged_node _ _ _ _ _ _ _ c), Hc by done. by apply wf_0 in Hwc as [->|[p ->]].
  - exists r, e. split; [done|]. by eapply scanned_skip.
Qed.

Lemma scan_tag_down_spec h index max_items tag b s :
  (h <= 10)%nat -> 0 <= tag < 2 -> wf (S h) s -> used s = true -> 0 <= index < 2 ^ 64 -> 1 <= max_items ->
  exists r e, scan_tag_down (S h) index max_items tag s = Some r /\ scanned (S h) (pick (S h) s b tag) index max_items r e.
Proof.
  intros Hh Ht Hs Hu Hi Hmax. revert Hh index b Hi s Hs Hu. induction h as [|h IH]; intros Hh index b Hi s Hs Hu;
    (apply wf_S in Hs as [->|(slots & tags & -> & Hn)]; [done|]); [by apply scan_tag_leaf|].
  destruct (skip_tag (S h) Hh tag Ht index Hi slots tags Hn) as (e1 & x & Hx & Hsk).
  set (s := Node (S (S h)) (children slots) slots tags).
  change (scan_tag_down (S (S h)) index max_items tag s) with
    (x ← skip_unused (fun i => tag_get tags tag i) (Z.of_nat (S h) * RADIX_TREE_MAP_SHIFT) index (offset (S h) index);
     match x with
     | inr index => Some ([], index)
     | inl (i, index) => s ← aget slots i; if is_null s then Some ([], index) else scan_tag_down (S h) index max_items tag s
     end). rewrite Hx. cbn [mbind option_bind].
  pose proof (pick_none (S h) tag Ht slots tags Hn b) as Hnone.
  destruct x as [[i x]|x]; [|by eexists _, e1; split; [done|]; apply (scanned_left _ (tag_bit tags tag))].
  pose proof Hsk as (He & _ & -> & He64 & _ & Hio & Hui).
  destruct (child_get _ _ _ Hn e1) as (c & Hc & Hwc & Hok). rewrite <- Hio in *. rewrite Hc. cbn [mbind option_bind].
  specialize (Hok tag Ht). rewrite Hui in Hok. assert (Huc : is_null c = false) by (by destruct c).
  rewrite Huc. destruct (IH ltac:(lia) e1 true ltac:(lia) c Hwc) as (r & e & Hr & Hsc); [unfold used; by rewrite Huc|].
  exists r, e. split; [done|]. eapply scanned_skip; [done|done|]. eapply scanned_child; [|done].
  intros j Hj. assert (Hcj : aget slots (offset (S h) j) = Some c) by (by rewrite Hj, <- Hio).
  unfold s, pick. by rewrite (get_node _ _ _ _ _ c), (tagged_node _ _ _ _ _ _ _ c), Hj, <- Hio, Hui by done.
Qed.

(** ** Gang lookups *)

Section gang.
Context (f : Z -> option slot) (look : Z -> Z -> option (list slot * Z)) (max_index first_index max_items : Z).
Context (Hmax : 0 <= max_index < 2 ^ 64) (Hfirst : 0 <= first_index < 2 ^ 64) (Hitems : 0 <= max_items).
Context (Hf : forall j s, f j = Some s -> is_null s = false) (Hnone : forall j, max_index < j -> f j = None).
Context (Hlook : forall index n, 0 <= index <= max_index -> 1 <= n ->
  exists r e, look index n = Some r /\ index < e <= 2 ^ 64 /\ fst r = found f index e /\ snd r = u64 e /\ zlen (fst r) <= n).

Lemma found_not_null a b : filter (fun s => is_null s = false) (found f a b) = found f a b.
Proof using Hf.
  unfold found. induction (seqZ a (b - a)) as [|j l IH]; [done|]. rewrite fmap_cons. cbn [concat].
  rewrite list.filter_app, IH. f_equal. destruct (f j) as [s|] eqn:E; [|done].
  unfold option_list. cbn. by rewrite (Hf j s E).
Qed.

Lemma gang_once st :
  (let '(res, cur) := st in first_index <= cur < 2 ^ 64 /\ res = found f first_index cur /\ zlen res <= max_items) ->
  exists x, gang_step look max_index max_items st = Some x /\
  match x with
  | Next st' => (let '(res, cur) := st' in first_index <= cur < 2 ^ 64 /\ res = found f first_index cur /\ zlen res <= max_items) /\
      (Z.to_nat (max_index + 1 - snd st') < Z.to_nat (max_index + 1 - snd st))%nat
  | Done r => r = take (Z.to_nat max_items) (found f first_index (2 ^ 64))
  end.
Proof using Hmax Hfirst Hf Hnone Hlook.
  destruct st as [res cur]. intros (Hcur & -> & Hlen). unfold gang_step. cbn [snd].
  assert (Hall : forall c, first_index <= c <= 2 ^ 64 -> found f first_index (2 ^ 64) = found f first_index c ++ found f c (2 ^ 64)).
  { intros c Hc. apply found_app. lia. }
  assert (Htake : forall l l' : list slot, zlen l <= max_items -> (zlen l = max_items \/ l' = []) -> l = take (Z.to_nat max_items) (l ++ l')).
  { intros l l' Hl [Heq| ->].
    - rewrite take_app_length' by (unfold zlen in *; lia). done.
    - rewrite app_nil_r. symmetry. apply take_ge. unfold zlen in Hl. lia. }
  destruct (Z.ltb_spec (zlen (found f first_index cur)) max_items) as [Hlt|Hge].
  - destruct (Z.ltb_spec max_index cur) as [Hgt|Hle].
    + eexists. split; [done|]. rewrite (Hall cur) by lia. apply Htake; [lia|]. right. apply found_none. intros j Hj. apply Hnone. lia.
    + destruct (Hlook cur (max_items - zlen (found f first_index cur)) ltac:(lia) ltac:(lia)) as ([l x] & e & Heq & He & Hl & Hx & Hn).
      rewrite Heq. cbn [mbind option_bind fst snd] in *. subst l x. rewrite found_not_null, <- found_app by lia.
      assert (Hle' : zlen (found f first_index e) <= max_items).
      { rewrite (found_app f first_index cur e) by lia. unfold zlen in *. rewrite length_app. lia. }
      destruct (Z.eqb_spec (u64 e) 0) as [H0|Hnz]; eexists; (split; [done|]).
      * assert (e = 2 ^ 64) as ->. { destruct (decide (e = 2 ^ 64)) as [|Hne]; [done|]. rewrite wrap_small in H0 by (unfold is_word; lia). lia. }
        symmetry. apply take_ge. unfold zlen in Hle'. lia.
      * assert (He64 : e <> 2 ^ 64) by (intros ->; done). rewrite wrap_small by (unfold is_word; lia).
        cbn [snd]. split; [|lia]. split; [lia|]. done.
  - eexists. split; [done|]. rewrite (Hall cur) by lia. apply Htake; [lia|]. left. lia.
Qed.

Lemma gang_spec fuel : Z.max 0 (max_index + 1 - first_index) < Z.of_nat fuel ->
  gang fuel look max_index first_index max_items = Some (take (Z.to_nat max_items) (found f first_index (2 ^ 64))).
Proof using Hmax Hfirst Hitems Hf Hnone Hlook.
  intros Hfuel. unfold gang.
  destruct (loop_total _ _ _ (fun st => Z.to_nat (max_index + 1 - snd st)) gang_once fuel (@nil slot, first_index)) as (r & Hr & ->).
  - split; [lia|]. by rewrite found_empty.
  - cbn [snd]. lia.
  - done.
Qed.
End gang.

(** The items and the tagged items of a tree. *)
Definition present (root : radix_tree_root) (j : Z) : option slot := Item <$> contents root j.
Definition present_tagged (root : radix_tree_root) (tag j : Z) : option slot :=
  if item_tag root tag j then present root j else None.

Lemma found_direct root f p first_index max_items :
  tree_wf root -> rnode root = Item p -> height root = O -> 0 <= first_index < 2 ^ 64 -> 1 <= max_items ->
  f 0 = Some (Item p) -> (forall j, 0 < j -> f j = None) ->
  (if 0 <? first_index then [] else [Item p]) = take (Z.to_nat max_items) (found f first_index (2 ^ 64)).
Proof.
  intros Hw Hr Hh Hi Hmax H0 Hnone. destruct (Z.ltb_spec 0 first_index).
  - rewrite found_none; [by destruct (Z.to_nat max_items)|]. intros j Hj. apply Hnone. lia.
  - assert (first_index = 0) as -> by lia. rewrite (found_app f 0 (0 + 1) (2 ^ 64)), found_one, H0 by lia.
    rewrite (found_none f (0 + 1)) by (intros; apply Hnone; lia).
    rewrite take_ge; [done|]. simpl. lia.
Qed.

(** One call of the scans as the gang lookups use it. *)
Lemma look_spec root h f g index n r e :
  tree_wf root -> height root = S h -> fits (S h) index -> (forall j, fits (S h) j -> f j = g j) ->
  scanned (S h) f index n r e ->
  index < e <= 2 ^ 64 /\ fst r = found g index e /\ snd r = u64 e /\ zlen (fst r) <= n.
Proof.
  intros Hw Hh Hi Hfg [Hr H64 Hres Hnext Hlen]. unfold fits in *. split; [lia|]. split; [|done]. rewrite Hres. apply found_ext.
  intros j Hj. apply Hfg. unfold block_end in Hr. rewrite Z.div_small in Hr by lia. lia.
Qed.

Lemma gang_lookup_spec root fuel first_index max_items :
  tree_wf root -> 0 <= first_index < 2 ^ 64 -> 1 <= max_items -> Z.min (span (height root)) (2 ^ 64) < Z.of_nat fuel ->
  radix_tree_gang_lookup fuel root first_index max_items = Some (take (Z.to_nat max_items) (found (present root) first_index (2 ^ 64))).
Proof.
  intros Hw Hi Hmax Hfuel. unfold radix_tree_gang_lookup. pose proof (span_pos (height root)) as Hpos.
  destruct (root_cases root Hw) as [Hr|[(p & Hr & Hh)|(h & slots & tags & Hr & Hh & Hn)]]; rewrite Hr.
  - rewrite found_none; [by destruct (Z.to_nat max_items)|]. intros j _. unfold present, contents. rewrite Hr, get_null.
    by destruct (_ && _).
  - f_equal. apply (found_direct root); try done; unfold present, contents; rewrite Hh, Hr.
    + done.
    + intros j Hj. change (Z.min (span 0) (2 ^ 64)) with 1. zcases; lia.
  - pose proof (tree_height root Hw) as H11. rewrite Hh in H11, Hfuel, Hpos. rewrite maxindex_spec by done. cbn [mbind option_bind].
    apply gang_spec; [lia|done|lia| | | |lia].
    + intros j s Hs. unfold present in Hs. by destruct (contents root j); simplify_eq/=.
    + intros j Hj. unfold present. rewrite contents_out; [done|]. unfold fits. rewrite Hh. lia.
    + intros index n Hind Hn1. destruct (tree_scan_spec h index n (rnode root)) as (r & e & Heq & Hsc);
        [lia|rewrite <- Hh; apply Hw|by rewrite Hr|lia|done|]. exists r, e. split; [by rewrite <- Hr, <- Heq, Hr|].
      eapply look_spec; [done|done|unfold fits; lia| |done]. intros j Hj. unfold present. by rewrite contents_get, Hh by (by rewrite Hh).
Qed.

Lemma gang_lookup_tag_spec root fuel first_index max_items tag :
  tree_wf root -> 0 <= tag < 2 -> 0 <= first_index < 2 ^ 64 -> 1 <= max_items -> Z.min (span (height root)) (2 ^ 64) < Z.of_nat fuel ->
  radix_tree_gang_lookup_tag fuel root first_index max_items tag =
  Some (take (Z.to_nat max_items) (found (present_tagged root tag) first_index (2 ^ 64))).
Proof.
  intros Hw Ht Hi Hmax Hfuel. unfold radix_tree_gang_lookup_tag. pose proof (span_pos (height root)) as Hpos.
  pose proof (tagged_spec root tag Hw Ht) as Htag. unfold radix_tree_tagged in Htag. destruct (root_tag_get root tag) eqn:Hb; cbn [negb].
  2: { rewrite found_none; [by destruct (Z.to_nat max_items)|]. intros j Hj. unfold present_tagged.
       destruct (item_tag root tag j) eqn:E; [|done]. assert (false = true); [|done]. apply Htag. exists j. split; [lia|done]. }
  destruct (root_cases root Hw) as [Hr|[(p & Hr & Hh)|(h & slots & tags & Hr & Hh & Hn)]]; rewrite Hr.
  - pose proof (tree_tags root Hw tag Ht) as Hok. rewrite Hr in Hok. apply bit_ok_null in Hok. congruence.
  - f_equal. apply (found_direct root); try done; unfold present_tagged, present, item_tag, contents; rewrite Hh, Hr, Hb.
    + done.
    + intros j Hj. change (Z.min (span 0) (2 ^ 64)) with 1. zcases; lia.
  - pose proof (tree_height root Hw) as H11. rewrite Hh in H11, Hfuel, Hpos. rewrite maxindex_spec by done. cbn [mbind option_bind].
    apply gang_spec; [lia|done|lia| | | |lia].
    + intros j s Hs. unfold present_tagged, present in Hs. by destruct (item_tag root tag j), (contents root j); simplify_eq/=.
    + intros j Hj. unfold present_tagged, present. rewrite contents_out; [by destruct (item_tag root tag j)|]. unfold fits. rewrite Hh. lia.
    + intros index n Hind Hn1. destruct (scan_tag_down_spec h index n tag (root_tag_get root tag) (rnode root)) as (r & e & Heq & Hsc);
        [lia|done|rewrite <- Hh; apply Hw|by rewrite Hr|lia|done|]. exists r, e. split; [by rewrite <- Hr, <- Heq, Hr|].
      eapply look_spec; [done|done|unfold fits; lia| |done]. intros j Hj. unfold present_tagged, present, pick.
      rewrite item_tag_tagged, contents_get by (by rewrite Hh). by rewrite Hh.
Qed.

(** ** Holes *)

(** The searches for a hole pass [n] indices in use in steps of [by_] and end at the
    limit, at a hole, or on the index [last]. *)
Definition hole_found (root : radix_tree_root) (index max_scan by_ last n : Z) : Prop :=
  0 <= n <= max_scan /\
  (forall k, 0 <= k < n -> is_Some (contents root (u64 (index + k * by_))) /\ (0 < k -> u64 (index + k * by_) <> last)) /\
  (n = max_scan \/ contents root (u64 (index + n * by_)) = None \/ 0 < n /\ u64 (index + n * by_) = last).

Lemma hole_spec root index max_scan by_ last fuel :
  tree_wf root -> 0 <= index < 2 ^ 64 -> 0 <= max_scan < Z.of_nat fuel ->
  exists n, loop fuel (hole_step root max_scan by_ last) (0, index) = Some (u64 (index + n * by_)) /\
    hole_found root index max_scan by_ last n.
Proof.
  intros Hw Hi Hscan.
  destruct (loop_total (hole_step root max_scan by_ last)
    (fun '(i, x) => 0 <= i <= max_scan /\ x = u64 (index + i * by_) /\ (0 < i -> x <> last) /\
       forall k, 0 <= k < i -> is_Some (contents root (u64 (index + k * by_))) /\ (0 < k -> u64 (index + k * by_) <> last))
    (fun r => exists n, r = u64 (index + n * by_) /\ hole_found root index max_scan by_ last n)
    (fun '(i, _) => Z.to_nat (max_scan - i))) with (fuel := fuel) (s := (0, index)) as (r & Hr & n & -> & Hn).
  - intros [i x] (Hir & -> & Hlast & Hk). unfold hole_step. destruct (Z.ltb_spec i max_scan).
    + assert (Hx : 0 <= u64 (index + i * by_) < 2 ^ 64) by (apply wrap_range; lia). rewrite tree_lookup_spec by done. cbn [mbind option_bind].
      assert (Hu : u64 (u64 (index + i * by_) + by_) = u64 (index + (i + 1) * by_)).
      { unfold wrap. rewrite Z.add_mod_idemp_l by lia. f_equal. lia. }
      destruct (contents root (u64 (index + i * by_))) as [p|] eqn:Hp; cbn [item_slot is_null].
      * rewrite Hu. assert (Hk' : forall k, 0 <= k < i + 1 -> is_Some (contents root (u64 (index + k * by_))) /\ (0 < k -> u64 (index + k * by_) <> last)).
        { intros k Hk'. destruct (decide (k = i)) as [->|]; [by rewrite Hp|apply Hk; lia]. }
        eexists. split; [done|]. destruct (Z.eqb_spec (u64 (index + (i + 1) * by_)) last).
        -- exists (i + 1). split; [done|]. split; [lia|]. split; [done|]. right. right. split; [lia|done].
        -- split; [|lia]. split; [lia|]. split; [done|]. done.
      * eexists. split; [done|]. exists i. split; [done|]. split; [lia|]. split; [done|]. by right; left.
    + eexists. split; [done|]. exists i. split; [done|]. split; [lia|]. split; [done|]. left. lia.
  - split; [lia|]. split; [rewrite Z.mul_0_l, Z.add_0_r; symmetry; by apply wrap_small|]. split; [lia|]. intros k Hk. lia.
  - lia.
  - by exists n.
Qed.

(** The search upwards ends at the first hole, at the limit or by wrapping round to 0. *)
Lemma next_hole_spec root index max_scan fuel :
  tree_wf root -> 0 <= index < 2 ^ 64 -> 0 <= max_scan < Z.of_nat fuel ->
  exists n, radix_tree_next_hole fuel root index max_scan = Some (u64 (index + n)) /\
    0 <= n <= max_scan /\ index + n <= 2 ^ 64 /\ (forall j, index <= j < index + n -> is_Some (contents root j)) /\
    (n = max_scan \/ index + n = 2 ^ 64 \/ contents root (index + n) = None).
Proof.
  intros Hw Hi Hscan. destruct (hole_spec root index max_scan 1 0 fuel Hw Hi Hscan) as (n & Heq & Hn & Hk & Hend).
  rewrite Z.mul_1_r in Heq, Hend. exists n. split; [done|]. split; [done|].
  assert (Hle : index + n <= 2 ^ 64).
  { destruct (Z.lt_ge_cases (2 ^ 64) (index + n)) as [Hgt|]; [|lia]. exfalso.
    destruct (Hk (2 ^ 64 - index) ltac:(lia)) as [_ Hne]. apply Hne; [lia|].
    by replace (index + (2 ^ 64 - index) * 1) with (2 ^ 64) by lia. }
  split; [done|]. split.
  - intros j Hj. destruct (Hk (j - index) ltac:(lia)) as [Hs _]. replace (index + (j - index) * 1) with j in Hs by lia.
    by rewrite wrap_small in Hs by (unfold is_word; lia).
  - destruct (decide (index + n = 2 ^ 64)) as [|Hne]; [by right; left|]. rewrite wrap_small in Hend by (unfold is_word; lia).
    destruct Hend as [|[|[? ?]]]; [by left|by right; right|lia].
Qed.

(** * Properties *)

(** A tree with one item, at index 0. *)
Definition single (mask : Z) : radix_tree_root := Root 0 mask (Item 1).

(** C33 An insertion into a well-formed tree returns [-EEXIST] exactly when there is an item at
    the index, allocates exactly the nodes the tree lacks, returns [-ENOMEM] exactly when the
    allocator gives fewer, and 0 otherwise; then the item is at the index.  The tree stays
    well formed in every case, with all other items and all tags, after a failure too.  No
    insertion needs more than 21 nodes, and one needs that many: the 11 nodes that
    [radix_tree_preload] sets aside do not make an insertion succeed. *)
Theorem radix_tree_insert_allocates root avail index item :
  tree_wf root -> 0 <= index < 2 ^ 64 ->
  (exists root', radix_tree_insert root avail index item =
      Some (root', (avail - need root index)%nat,
        match contents root index with
        | Some _ => - EEXIST
        | None => if (need root index <=? avail)%nat then 0 else - ENOMEM
        end) /\
    tree_wf root' /\
    (forall j, contents root' j =
       match contents root index with
       | Some _ => contents root j
       | None => if (need root index <=? avail)%nat && (j =? index) then Some item else contents root j
       end) /\
    (forall tag j, 0 <= tag < 2 -> item_tag root' tag j = item_tag root tag j)) /\
  (need root index <= 21)%nat /\
  (forall p, exists root', radix_tree_insert (single 32) RADIX_TREE_MAX_PATH (2 ^ 64 - 1) p = Some (root', O, - ENOMEM)) /\
  (forall p, exists root', radix_tree_insert (single 32) 21 (2 ^ 64 - 1) p = Some (root', O, 0)).
Proof.
  intros Hw Hi. split; [|split; [by apply need_le|]; split; intros p; eexists; vm_compute; reflexivity].
  destruct (tree_insert_spec root avail index item Hw Hi) as (root' & Heq & [Hw' Hg Ht]). exists root'. split; [done|]. split; [done|].
  split; [|done]. intros j. rewrite Hg. unfold insert_status. destruct (contents root index); [done|].
  by destruct (need root index <=? avail)%nat.
Qed.

(** A tree of height 2 with six items and both tags in use. *)
Definition sparse : radix_tree_root :=
  from_option fst (INIT_RADIX_TREE 32) (exec_all (INIT_RADIX_TREE 32)
    [Insert 3 1; Insert 4 2; Insert 5 3; Insert 70 4; Insert 200 5; Insert 4000 6; TagSet 4 0; TagSet 4000 0; TagSet 200 1]).

Lemma sparse_wf : tree_wf sparse.
Proof.
  destruct (exec_all_spec [Insert 3 1; Insert 4 2; Insert 5 3; Insert 70 4; Insert 200 5; Insert 4000 6; TagSet 4 0; TagSet 4000 0; TagSet 200 1]
    (INIT_RADIX_TREE 32) (TaggedMap ∅ ∅)) as (root & Heq & Hst); [apply init_stands; lia|vm_compute; naive_solver|].
  unfold sparse. rewrite Heq. apply Hst.
Qed.

Lemma radix_tree_insert_allocates_witness :
  (exists root', radix_tree_insert sparse 3 (2 ^ 20) 9 = Some (root', O, - ENOMEM) /\ contents root' 70 = Some 4%positive) /\
  (exists root', radix_tree_insert sparse 9 (2 ^ 20) 9 = Some (root', 4%nat, 0) /\ contents root' (2 ^ 20) = Some 9%positive) /\
  (exists root', radix_tree_insert sparse 9 70 9 = Some (root', 9%nat, - EEXIST)).
Proof.
  assert (Hi : 0 <= 2 ^ 20 < 2 ^ 64) by lia. assert (H70 : 0 <= 70 < 2 ^ 64) by lia.
  destruct (radix_tree_insert_allocates sparse 3 (2 ^ 20) 9 sparse_wf Hi) as [(r1 & E1 & _ & C1 & _) _].
  destruct (radix_tree_insert_allocates sparse 9 (2 ^ 20) 9 sparse_wf Hi) as [(r2 & E2 & _ & C2 & _) _].
  destruct (radix_tree_insert_allocates sparse 9 70 9 sparse_wf H70) as [(r3 & E3 & _) _].
  split; [exists r1; split; [by rewrite E1|by rewrite C1]|]. split; [exists r2; split; [by rewrite E2|by rewrite C2]|].
  exists r3. by rewrite E3.
Defined.

(** The search downwards, within the indices below [2^63]. *)
Lemma prev_hole_spec root index max_scan fuel :
  tree_wf root -> 0 <= index < 2 ^ 63 -> 0 <= max_scan <= index + 1 -> max_scan < Z.of_nat fuel ->
  exists n, radix_tree_prev_hole fuel root index max_scan = Some (u64 (index - n)) /\
    0 <= n <= max_scan /\ (forall j, index - n < j <= index -> is_Some (contents root j)) /\
    (n = max_scan \/ contents root (index - n) = None).
Proof.
  intros Hw Hi Hscan Hfuel.
  destruct (hole_spec root index max_scan (-1) LONG_MAX fuel Hw ltac:(lia) ltac:(lia)) as (n & Heq & Hn & Hk & Hend).
  replace (index + n * -1) with (index - n) in Heq, Hend by lia. exists n. split; [done|]. split; [done|]. split.
  - intros j Hj. destruct (Hk (index - j) ltac:(lia)) as [Hs _]. replace (index + (index - j) * -1) with j in Hs by lia.
    by rewrite wrap_small in Hs by (unfold is_word; lia).
  - destruct (decide (n = max_scan)) as [|Hne]; [by left|]. right. rewrite wrap_small in Hend by (unfold is_word; lia).
    destruct Hend as [|[|[? Hl]]]; [done|done|]. unfold LONG_MAX in Hl. lia.
Qed.

(** Two items below and at [2^63], and two at the ends of the index range. *)
Definition around_middle : radix_tree_root :=
  from_option fst (INIT_RADIX_TREE 32) (exec_all (INIT_RADIX_TREE 32) [Insert (2 ^ 63) 1; Insert (2 ^ 63 - 1) 2]).
Definition at_ends : radix_tree_root :=
  from_option fst (INIT_RADIX_TREE 32) (exec_all (INIT_RADIX_TREE 32) [Insert 0 1; Insert (2 ^ 64 - 1) 2]).

(** C34 The scans of a well-formed tree.  The gang lookups end and return the first [max_items]
    items (with the tag) from the first index on, in ascending order of their indices; the fuel
    is the number of indices the tree has room for.  [radix_tree_next_hole] returns the lowest
    index without an item within [max_scan] indices, the index behind them, or 0 when it wraps
    round; [radix_tree_prev_hole] does the same downwards below [2^63].  Above, its comparison
    with [LONG_MAX] instead of the largest index shows: it stops at [2^63 - 1] although there is
    an item, and goes on after wrapping round.  A gang lookup for no items of a tree with one
    item at index 0 returns that item. *)
Theorem radix_tree_scans_correct root index max fuel :
  tree_wf root -> 0 <= index < 2 ^ 64 -> 1 <= max ->
  (Z.min (span (height root)) (2 ^ 64) < Z.of_nat fuel ->
     radix_tree_gang_lookup fuel root index max = Some (take (Z.to_nat max) (found (present root) index (2 ^ 64)))) /\
  (forall tag, 0 <= tag < 2 -> Z.min (span (height root)) (2 ^ 64) < Z.of_nat fuel ->
     radix_tree_gang_lookup_tag fuel root index max tag =
     Some (take (Z.to_nat max) (found (present_tagged root tag) index (2 ^ 64)))) /\
  (max < Z.of_nat fuel ->
   exists n, radix_tree_next_hole fuel root index max = Some (u64 (index + n)) /\
     0 <= n <= max /\ index + n <= 2 ^ 64 /\ (forall j, index <= j < index + n -> is_Some (contents root j)) /\
     (n = max \/ index + n = 2 ^ 64 \/ contents root (index + n) = None)) /\
  (index < 2 ^ 63 -> max <= index + 1 -> max < Z.of_nat fuel ->
   exists n, radix_tree_prev_hole fuel root index max = Some (u64 (index - n)) /\
     0 <= n <= max /\ (forall j, index - n < j <= index -> is_Some (contents root j)) /\
     (n = max \/ contents root (index - n) = None)) /\
  (radix_tree_prev_hole 9 around_middle (2 ^ 63) 8 = Some (2 ^ 63 - 1) /\
   contents around_middle (2 ^ 63 - 1) = Some 2%positive /\ contents around_middle (2 ^ 63 - 2) = None) /\
  radix_tree_prev_hole 9 at_ends 0 8 = Some (2 ^ 64 - 2) /\
  radix_tree_gang_lookup 9 (single 32) 0 0 = Some [Item 1].
Proof.
  intros Hw Hi Hmax. split_and!; [| | | |by vm_compute..].
  - intros Hf. by apply gang_lookup_spec.
  - intros tag Ht Hf. by apply gang_lookup_tag_spec.
  - intros Hf. apply (next_hole_spec root index max fuel Hw Hi). lia.
  - intros H63 Hm Hf. apply (prev_hole_spec root index max fuel Hw); lia.
Qed.

Lemma radix_tree_scans_correct_witness :
  radix_tree_gang_lookup 10 sparse 4 3 = Some [Item 2; Item 3; Item 4] /\
  radix_tree_gang_lookup_tag 10 sparse 0 5 0 = Some [Item 2; Item 6] /\
  radix_tree_gang_lookup 4097 sparse 4 3 = Some (take (Z.to_nat 3) (found (present sparse) 4 (2 ^ 64))) /\
  (exists n, radix_tree_next_hole 6 sparse 3 5 = Some (u64 (3 + n)) /\ 0 <= n <= 5).
Proof.
  assert (Hi : 0 <= 4 < 2 ^ 64) by lia. assert (H3 : 0 <= 3 < 2 ^ 64) by lia.
  split; [by vm_compute|]. split; [by vm_compute|]. split.
  - assert (Hspan : Z.min (span (height sparse)) (2 ^ 64) = 4096) by (by vm_compute).
    destruct (radix_tree_scans_correct sparse 4 3 4097 sparse_wf Hi) as [Hg _]; [lia|]. rewrite Hspan in Hg.
    exact (Hg ltac:(lia)).
  - destruct (radix_tree_scans_correct sparse 3 5 6 sparse_wf H3) as (_ & _ & Hn & _); [lia|].
    destruct (Hn ltac:(lia)) as (n & Heq & Hr & _). exists n. split; [exact Heq|exact Hr].
Defined.
