(* ===== verification/RbTree.v ===== *)
(** The red-black trees of lib/rbtree.c and include/linux/rbtree.h.

    A pointer is an address, 0 for [NULL], and the memory a map from addresses to nodes,
    whose parent and colour share a word as in the code.  The code of the left and of the
    right side, which are mirror images, is one definition with the side as a parameter.

    The theorems relate the memory to an inductive tree ([rep]).  Rotations and changes
    of colour are first shown to do on trees with a hole ([plug]) what they should; the
    loops are then followed on trees alone. *)
From Stdlib Require Import ZArith Lia Bool.
From stdpp Require Import base numbers list option gmap.
From S2P Require Import Prelude.

Local Open Scope Z_scope.

(** * Definitions *)

Record rb_node := Rb { rb_parent_color : Z; rb_right : Z; rb_left : Z }.

Definition RB_RED : Z := 0.
Definition RB_BLACK : Z := 1.

(** The memory: the nodes by their addresses. *)
Abbreviation heap := (gmap Z rb_node).

Definition with_parent_color (v : Z) (n : rb_node) : rb_node := Rb v (rb_right n) (rb_left n).

Definition rb_parent (r : rb_node) : Z := Z.land (rb_parent_color r) (not64 3).
Definition rb_color (r : rb_node) : Z := Z.land (rb_parent_color r) 1.
Definition rb_is_red (r : rb_node) : bool := rb_color r =? 0.
Definition rb_is_black (r : rb_node) : bool := negb (rb_color r =? 0).
Definition rb_set_red (r : rb_node) : rb_node := with_parent_color (Z.land (rb_parent_color r) (not64 1)) r.
Definition rb_set_black (r : rb_node) : rb_node := with_parent_color (Z.lor (rb_parent_color r) 1) r.
Definition rb_set_parent (p : Z) (rb : rb_node) : rb_node :=
  with_parent_color (Z.lor (Z.land (rb_parent_color rb) 3) p) rb.
Definition rb_set_color (color : Z) (rb : rb_node) : rb_node :=
  with_parent_color (Z.lor (Z.land (rb_parent_color rb) (not64 1)) color) rb.

(** A write through a pointer, which must be to a node. *)
Definition update (h : heap) (p : Z) (f : rb_node -> rb_node) : option heap :=
  n ← h !! p; Some (<[p := f n]> h).

Definition update_if (h : heap) (p : Z) (f : rb_node -> rb_node) : option heap :=
  if p =? 0 then Some h else update h p f.

(** The sides. *)
Inductive side := L | R.

Definition flip (d : side) : side := match d with L => R | R => L end.
Definition child (d : side) (n : rb_node) : Z := match d with L => rb_left n | R => rb_right n end.
Definition set_child (d : side) (p : Z) (n : rb_node) : rb_node :=
  match d with
  | L => Rb (rb_parent_color n) (rb_right n) p
  | R => Rb (rb_parent_color n) p (rb_left n)
  end.

(** The link to [old] in its parent, or in the root, made to point to [new].  The code
    asks first about the child on side [d]. *)
Definition relink (d : side) (h : heap) (root parent old new : Z) : option (heap * Z) :=
  if parent =? 0 then Some (h, new)
  else
    p ← h !! parent;
    h ← update h parent (set_child (if child d p =? old then d else flip d) new);
    Some (h, root).

(** ** Rotations *)

(** The child of [node] opposite to [d] takes its place. *)
Definition __rb_rotate (d : side) (h : heap) (root node : Z) : option (heap * Z) :=
  n ← h !! node;
  let right := child (flip d) n in
  let parent := rb_parent n in
  r ← h !! right;
  h ← update h node (set_child (flip d) (child d r));
  h ← update_if h (child d r) (rb_set_parent node);
  h ← update h right (set_child d node);
  h ← update h right (rb_set_parent parent);
  '(h, root) ← relink d h root parent node right;
  h ← update h node (rb_set_parent right);
  Some (h, root).

Definition __rb_rotate_left : heap -> Z -> Z -> option (heap * Z) := __rb_rotate L.
Definition __rb_rotate_right : heap -> Z -> Z -> option (heap * Z) := __rb_rotate R.

(** ** Insertion *)

(** [rb_link] is the link in the parent on side [d], or the root. *)
Definition rb_link_node (h : heap) (root node parent : Z) (d : side) : option (heap * Z) :=
  let h := <[node := Rb parent 0 0]> h in
  if parent =? 0 then Some (h, node)
  else h ← update h parent (set_child d node); Some (h, root).

Definition red_at (h : heap) (p : Z) : option bool :=
  if p =? 0 then Some false else n ← h !! p; Some (rb_is_red n).

(** One iteration; the state is the memory, the root and [node]. *)
Definition insert_color_step (st : heap * Z * Z) : option (ctl (heap * Z * Z) (heap * Z)) :=
  let '(h, root, node) := st in
  n ← h !! node;
  let parent := rb_parent n in
  if parent =? 0 then Some (Done (h, root))
  else
    p ← h !! parent;
    if negb (rb_is_red p) then Some (Done (h, root))
    else
      let gparent := rb_parent p in
      g ← h !! gparent;
      let d := if parent =? rb_left g then L else R in
      let uncle := child (flip d) g in
      b ← red_at h uncle;
      if (b : bool) then
        h ← update h uncle rb_set_black;
        h ← update h parent rb_set_black;
        h ← update h gparent rb_set_red;
        Some (Next (h, root, gparent))
      else
        '(h, root, parent, node) ←
          (if child (flip d) p =? node then
             '(h, root) ← __rb_rotate d h root parent; Some (h, root, node, parent)
           else Some (h, root, parent, node));
        h ← update h parent rb_set_black;
        h ← update h gparent rb_set_red;
        '(h, root) ← __rb_rotate (flip d) h root gparent;
        Some (Next (h, root, node)).

Definition rb_insert_color (fuel : nat) (h : heap) (root node : Z) : option (heap * Z) :=
  '(h, root) ← loop fuel insert_color_step (h, root, node);
  h ← update h root rb_set_black;
  Some (h, root).

(** ** Removal *)

Definition null_or_black (h : heap) (p : Z) : option bool :=
  if p =? 0 then Some true else n ← h !! p; Some (rb_is_black n).

(** A red sibling is rotated out of the way.  These three return the memory, the root and
    the sibling of [node], which is on side [d] of [parent]. *)
Definition erase_red_sibling (d : side) (h : heap) (root parent other : Z) : option (heap * Z * Z) :=
  o ← h !! other;
  if rb_is_red o then
    h ← update h other rb_set_black;
    h ← update h parent rb_set_red;
    '(h, root) ← __rb_rotate d h root parent;
    p ← h !! parent;
    Some (h, root, child (flip d) p)
  else Some (h, root, other).

(** The red child of the sibling is moved to the far side. *)
Definition erase_near_red (d : side) (h : heap) (root parent other : Z) : option (heap * Z * Z) :=
  o ← h !! other;
  far ← null_or_black h (child (flip d) o);
  if (far : bool) then
    h ← update h (child d o) rb_set_black;
    h ← update h other rb_set_red;
    '(h, root) ← __rb_rotate (flip d) h root other;
    p ← h !! parent;
    Some (h, root, child (flip d) p)
  else Some (h, root, other).

(** The last rotation. *)
Definition erase_last (d : side) (h : heap) (root parent other : Z) : option (heap * Z * Z) :=
  p ← h !! parent;
  h ← update h other (rb_set_color (rb_color p));
  h ← update h parent rb_set_black;
  o ← h !! other;
  h ← update h (child (flip d) o) rb_set_black;
  '(h, root) ← __rb_rotate d h root parent;
  Some (h, root, other).

(** The rest of an iteration, with a black sibling. *)
Definition erase_black_sibling (d : side) (h : heap) (root parent other : Z)
  : option (ctl (heap * Z * Z * Z) (heap * Z * Z)) :=
  o ← h !! other;
  bl ← null_or_black h (rb_left o);
  both ← (if (bl : bool) then null_or_black h (rb_right o) else Some false);
  if (both : bool) then
    h ← update h other rb_set_red;
    n ← h !! parent;
    Some (Next (h, root, parent, rb_parent n))
  else
    '(h, root, other) ← erase_near_red d h root parent other;
    '(h, root, _) ← erase_last d h root parent other;
    Some (Done (h, root, root)).

(** One iteration; the state is the memory, the root, [node] and [parent]. *)
Definition erase_color_step (st : heap * Z * Z * Z) : option (ctl (heap * Z * Z * Z) (heap * Z * Z)) :=
  let '(h, root, node, parent) := st in
  b ← null_or_black h node;
  if negb (b && negb (node =? root)) then Some (Done (h, root, node))
  else
    p ← h !! parent;
    let d := if rb_left p =? node then L else R in
    '(h, root, other) ← erase_red_sibling d h root parent (child (flip d) p);
    erase_black_sibling d h root parent other.

Definition __rb_erase_color (fuel : nat) (h : heap) (root node parent : Z) : option (heap * Z) :=
  '(h, root, node) ← loop fuel erase_color_step (h, root, node, parent);
  h ← update_if h node rb_set_black;
  Some (h, root).

(** Down on side [d] as far as possible. *)
Definition descend (fuel : nat) (d : side) (h : heap) (p : Z) : option Z :=
  loop fuel (fun p => n ← h !! p; Some (if child d n =? 0 then Done p else Next (child d n))) p.

(** [node], the successor of [old], takes its place.  Returns the memory, the root, [child],
    [parent] and [color]. *)
Definition erase_two (h : heap) (root old node : Z) : option (heap * Z * Z * Z * Z) :=
  n ← h !! old;
  '(h, root) ← relink L h root (rb_parent n) old node;
  s ← h !! node;
  let child := rb_right s in
  let parent := rb_parent s in
  let color := rb_color s in
  '(h, parent) ←
    (if parent =? old then Some (h, node)
     else
       h ← update_if h child (rb_set_parent parent);
       h ← update h parent (set_child L child);
       o ← h !! old;
       h ← update h node (set_child R (rb_right o));
       h ← update h (rb_right o) (rb_set_parent node);
       Some (h, parent));
  o ← h !! old;
  h ← update h node (fun s => set_child L (rb_left o) (with_parent_color (rb_parent_color o) s));
  h ← update h (rb_left o) (rb_set_parent node);
  Some (h, root, child, parent, color).

Definition rb_erase (fuel : nat) (h : heap) (root node : Z) : option (heap * Z) :=
  n ← h !! node;
  if (rb_left n =? 0) || (rb_right n =? 0) then
    let child := if rb_left n =? 0 then rb_right n else rb_left n in
    let parent := rb_parent n in
    let color := rb_color n in
    h ← update_if h child (rb_set_parent parent);
    '(h, root) ← relink L h root parent node child;
    if color =? RB_BLACK then __rb_erase_color fuel h root child parent else Some (h, root)
  else
    let old := node in
    node ← descend fuel L h (rb_right n);
    '(h, root, child, parent, color) ← erase_two h root old node;
    if color =? RB_BLACK then __rb_erase_color fuel h root child parent else Some (h, root).

(** ** Walking and replacing *)

(** [rb_first] and [rb_last]. *)
Definition rb_end (fuel : nat) (d : side) (h : heap) (root : Z) : option Z :=
  if root =? 0 then Some 0 else descend fuel d h root.

Definition rb_first (fuel : nat) : heap -> Z -> option Z := rb_end fuel L.
Definition rb_last (fuel : nat) : heap -> Z -> option Z := rb_end fuel R.

(** Up as long as [node] is the child on side [d]. *)
Definition ascend_step (d : side) (h : heap) (node : Z) : option (ctl Z Z) :=
  n ← h !! node;
  let parent := rb_parent n in
  if parent =? 0 then Some (Done 0)
  else p ← h !! parent; Some (if node =? child d p then Next parent else Done parent).

(** [rb_next] with side [R] and [rb_prev] with side [L]. *)
Definition rb_neighbour (fuel : nat) (d : side) (h : heap) (node : Z) : option Z :=
  n ← h !! node;
  if rb_parent n =? node then Some 0
  else if negb (child d n =? 0) then descend fuel (flip d) h (child d n)
  else loop fuel (ascend_step d h) node.

Definition rb_next (fuel : nat) : heap -> Z -> option Z := rb_neighbour fuel R.
Definition rb_prev (fuel : nat) : heap -> Z -> option Z := rb_neighbour fuel L.

Definition rb_replace_node (h : heap) (root victim new : Z) : option (heap * Z) :=
  v ← h !! victim;
  '(h, root) ← relink L h root (rb_parent v) victim new;
  v ← h !! victim;
  h ← update_if h (rb_left v) (rb_set_parent new);
  h ← update_if h (rb_right v) (rb_set_parent new);
  v ← h !! victim;
  Some (<[new := v]> h, root).

(** * Words with a parent and a colour *)

Inductive color := Red | Black.

#[global] Instance color_eq_dec : EqDecision color.
Proof. solve_decision. Defined.
#[global] Instance side_eq_dec : EqDecision side.
Proof. solve_decision. Defined.

Definition code (c : color) : Z := match c with Red => RB_RED | Black => RB_BLACK end.

(** Addresses of nodes are aligned; so is [NULL]. *)
Definition aligned (p : Z) : Prop := 0 <= p < 2 ^ 64 /\ p mod 4 = 0.
Definition address (p : Z) : Prop := aligned p /\ p <> 0.

Definition pack (p : Z) (c : color) : Z := p + code c.

Lemma aligned_0 : aligned 0.
Proof. done. Qed.

Lemma address_aligned p : address p -> aligned p.
Proof. by intros []. Qed.

Lemma pack_range p c : aligned p -> is_u64 (pack p c).
Proof. intros [Hp Hm]. unfold pack, is_word. pose proof (Z.div_mod p 4 ltac:(lia)). destruct c; unfold code, RB_RED, RB_BLACK; lia. Qed.

Lemma pack_mod p c : aligned p -> pack p c mod 4 = code c.
Proof.
  intros [Hp Hm]. unfold pack. rewrite <- Z.add_mod_idemp_l, Hm by lia. by destruct c.
Qed.

Lemma pack_mod2 p c : aligned p -> pack p c mod 2 = code c.
Proof.
  intros [Hr Hm]. unfold pack. pose proof (Z.div_mod p 4 ltac:(lia)). symmetry.
  apply (Z.mod_unique _ 2 (2 * (p / 4))); destruct c; unfold code, RB_RED, RB_BLACK; lia.
Qed.

(** A bit added to an even word, and taken away. *)
Lemma lor_code q c : aligned q -> Z.lor (code c) q = pack q c.
Proof.
  intros [Hr Hm]. unfold pack. destruct c; unfold code, RB_RED, RB_BLACK.
  - rewrite Z.lor_0_l. lia.
  - rewrite (Z.add_comm q). symmetry. apply Z.add_nocarry_lor. rewrite Z.land_comm. change (Z.land q (2 ^ 1 - 1) = 0).
    rewrite land_pow2_sub1 by lia. change (2 ^ 1) with 2. pose proof (Z.div_mod q 4 ltac:(lia)). symmetry.
    apply (Z.mod_unique _ 2 (2 * (q / 4))); lia.
Qed.

Lemma clear_color p c : aligned p -> Z.land (pack p c) (not64 1) = p.
Proof.
  intros Hp. change (not64 1) with (not64 (u64 (2 ^ 1 - 1))). rewrite align_mask by (lia || by apply pack_range).
  change (2 ^ 1) with 2. rewrite pack_mod2 by done. unfold pack. lia.
Qed.

Section packed.
Context (p : Z) (c : color) (r l : Z) (Hp : aligned p).

Lemma parent_pack : rb_parent (Rb (pack p c) r l) = p.
Proof using Hp.
  unfold rb_parent. cbn [rb_parent_color]. change (not64 3) with (not64 (u64 (2 ^ 2 - 1))).
  rewrite align_mask by (lia || by apply pack_range). change (2 ^ 2) with 4. rewrite pack_mod by done. unfold pack. lia.
Qed.

Lemma color_pack : rb_color (Rb (pack p c) r l) = code c.
Proof using Hp. unfold rb_color. cbn [rb_parent_color]. rewrite (land_pow2_sub1 _ 1) by lia. by apply pack_mod2. Qed.

Lemma is_red_pack : rb_is_red (Rb (pack p c) r l) = match c with Red => true | Black => false end.
Proof using Hp. unfold rb_is_red. rewrite color_pack. by destruct c. Qed.

Lemma is_black_pack : rb_is_black (Rb (pack p c) r l) = match c with Red => false | Black => true end.
Proof using Hp. unfold rb_is_black. rewrite color_pack. by destruct c. Qed.

Lemma set_parent_pack q : aligned q -> rb_set_parent q (Rb (pack p c) r l) = Rb (pack q c) r l.
Proof using Hp.
  intros Hq. unfold rb_set_parent, with_parent_color. cbn. rewrite (land_pow2_sub1 _ 2) by lia. change (2 ^ 2) with 4.
  by rewrite pack_mod, lor_code.
Qed.

Lemma set_color_pack c' : rb_set_color (code c') (Rb (pack p c) r l) = Rb (pack p c') r l.
Proof using Hp.
  unfold rb_set_color, with_parent_color. cbn. by rewrite clear_color, Z.lor_comm, lor_code by done.
Qed.

Lemma set_red_pack : rb_set_red (Rb (pack p c) r l) = Rb (pack p Red) r l.
Proof using Hp. unfold rb_set_red, with_parent_color. cbn. rewrite clear_color by done. f_equal. unfold pack, code, RB_RED. lia. Qed.

Lemma set_black_pack : rb_set_black (Rb (pack p c) r l) = Rb (pack p Black) r l.
Proof using Hp.
  unfold rb_set_black, with_parent_color. cbn. f_equal. rewrite <- (lor_code p c), Z.lor_comm, Z.lor_assoc by done.
  rewrite <- (lor_code p Black) by done. f_equal. by destruct c.
Qed.
End packed.

(** * Trees *)

Inductive tree := E | T (c : color) (l : tree) (x : Z) (r : tree).

#[global] Instance tree_eq_dec : EqDecision tree.
Proof. solve_decision. Defined.

Definition ptr (t : tree) : Z := match t with E => 0 | T _ _ x _ => x end.

(** A tree with [a] on side [d] and [b] on the other. *)
Definition mk (d : side) (c : color) (a : tree) (x : Z) (b : tree) : tree :=
  match d with L => T c a x b | R => T c b x a end.

(** A node with the child [p] on side [d] and [q] on the other. *)
Definition rb (d : side) (pc p q : Z) : rb_node :=
  match d with L => Rb pc q p | R => Rb pc p q end.

(** The addresses in order. *)
Fixpoint addrs (t : tree) : list Z := match t with E => [] | T _ l x r => addrs l ++ x :: addrs r end.

(** The tree is in the memory, below the parent [par]. *)
Fixpoint tree_at (h : heap) (par : Z) (t : tree) : Prop :=
  match t with
  | E => True
  | T c l x r => h !! x = Some (Rb (pack par c) (ptr r) (ptr l)) /\ tree_at h x l /\ tree_at h x r
  end.

(** ** Trees with a hole *)

(** The hole is the child of [x] on side [d]; [s] is the other one. *)
Inductive frame := Frame (d : side) (c : color) (x : Z) (s : tree).

Definition par (k : list frame) : Z := match k with [] => 0 | Frame _ _ x _ :: _ => x end.

Fixpoint plug (k : list frame) (t : tree) : tree :=
  match k with
  | [] => t
  | Frame d c x s :: k => plug k (mk d c t x s)
  end.

Fixpoint kaddrs (k : list frame) : list Z :=
  match k with
  | [] => []
  | Frame _ _ x s :: k => x :: addrs s ++ kaddrs k
  end.

(** The surroundings of a hole that holds the pointer [p]. *)
Fixpoint ctx_at (h : heap) (root p : Z) (k : list frame) : Prop :=
  match k with
  | [] => root = p
  | Frame d c x s :: k => h !! x = Some (rb d (pack (par k) c) p (ptr s)) /\ tree_at h x s /\ ctx_at h root x k
  end.

Lemma ptr_mk d c a x b : ptr (mk d c a x b) = x.
Proof. by destruct d. Qed.

Lemma tree_at_mk h q d c a x b :
  tree_at h q (mk d c a x b) <-> h !! x = Some (rb d (pack q c) (ptr a) (ptr b)) /\ tree_at h x a /\ tree_at h x b.
Proof. destruct d; simpl; tauto. Qed.

Lemma addrs_mk d c a x b : addrs (mk d c a x b) ≡ₚ x :: addrs a ++ addrs b.
Proof. destruct d; simpl; solve_Permutation. Qed.

Lemma plug_at h root k t :
  ptr (plug k t) = root /\ tree_at h 0 (plug k t) <-> ctx_at h root (ptr t) k /\ tree_at h (par k) t.
Proof.
  revert t. induction k as [|[d c x s] k IH]; intros t; simpl; [naive_solver|].
  rewrite IH, ptr_mk, tree_at_mk. naive_solver.
Qed.

Lemma addrs_plug k t : addrs (plug k t) ≡ₚ addrs t ++ kaddrs k.
Proof.
  revert t. induction k as [|[d c x s] k IH]; intros t; simpl; [by rewrite app_nil_r|].
  rewrite IH, addrs_mk. solve_Permutation.
Qed.

(** * Writes and the trees they concern *)

(** [h'] is as [h] at the addresses of [l]. *)
Definition agree (l : list Z) (h h' : heap) : Prop := forall z, z ∈ l -> h' !! z = h !! z.

Lemma agree_app l l' h h' : agree (l ++ l') h h' <-> agree l h h' /\ agree l' h h'.
Proof. unfold agree. setoid_rewrite elem_of_app. naive_solver. Qed.

Lemma agree_cons x l h h' : agree (x :: l) h h' <-> h' !! x = h !! x /\ agree l h h'.
Proof. unfold agree. setoid_rewrite elem_of_cons. naive_solver. Qed.

Lemma tree_at_agree h h' q t : tree_at h q t -> agree (addrs t) h h' -> tree_at h' q t.
Proof.
  revert q. induction t as [|c l IHl x r IHr]; intros q; simpl; [done|].
  rewrite agree_app, agree_cons. intros (Hx & Hl & Hr) (Al & Ax & Ar). rewrite Ax. auto.
Qed.

Lemma ctx_at_agree h h' root p k : ctx_at h root p k -> agree (kaddrs k) h h' -> ctx_at h' root p k.
Proof.
  revert p. induction k as [|[d c x s] k IH]; intros p; simpl; [done|].
  rewrite agree_cons, agree_app. intros (Hx & Hs & Hk) (Ax & As & Ak). rewrite Ax. split; [done|].
  split; [by eapply tree_at_agree|by apply IH].
Qed.

(** The memory after the parent of the root of [t] was set. *)
Definition reparent (q : Z) (t : tree) (h : heap) : heap :=
  match t with E => h | T c l x r => <[x := Rb (pack q c) (ptr r) (ptr l)]> h end.

Lemma reparent_ne q t h z : z ∉ addrs t -> reparent q t h !! z = h !! z.
Proof. destruct t as [|c l x r]; simpl; [done|]. intros Hz. apply lookup_insert_ne. set_solver. Qed.

Lemma update_reparent h q0 q t :
  tree_at h q0 t -> aligned q0 -> aligned q -> Forall address (addrs t) ->
  update_if h (ptr t) (rb_set_parent q) = Some (reparent q t h).
Proof.
  destruct t as [|c l x r]; simpl; [done|]. intros (Hx & _) Hq0 Hq Ha. unfold update_if, update.
  assert (x <> 0) as ->%Z.eqb_neq by (apply Forall_app in Ha as [_ Ha]; by apply Forall_cons_iff in Ha as [[_ Hx0] _]).
  rewrite Hx. simpl. by rewrite set_parent_pack.
Qed.

Lemma tree_at_reparent h h' q0 q t :
  tree_at h q0 t -> NoDup (addrs t) -> agree (addrs t) (reparent q t h) h' -> tree_at h' q t.
Proof.
  destruct t as [|c l x r]; simpl; [done|]. intros (Hx & Hl & Hr) Hnd Ha.
  apply list.NoDup_app in Hnd as (_ & Hlx & Hnd). apply list.NoDup_cons in Hnd as [Hxr _].
  apply agree_app in Ha as [Al Ha]. apply agree_cons in Ha as [Ax Ar]. rewrite lookup_insert_eq in Ax. split; [done|].
  split; eapply tree_at_agree; try done; intros z Hz; [rewrite Al by done|rewrite Ar by done]; apply lookup_insert_ne; set_solver.
Qed.

(** The memory and the root after the link to the hole was set to [new]. *)
Definition relinked (h : heap) (root : Z) (k : list frame) (new : Z) : heap * Z :=
  match k with
  | [] => (h, new)
  | Frame d c x s :: k' => (<[x := rb d (pack (par k') c) new (ptr s)]> h, root)
  end.

Lemma relinked_ne h root k new z : z ∉ kaddrs k -> (relinked h root k new).1 !! z = h !! z.
Proof. destruct k as [|[d c x s] k]; simpl; [done|]. intros Hz. apply lookup_insert_ne. set_solver. Qed.

Lemma child_rb d pc p q : child d (rb d pc p q) = p.
Proof. by destruct d. Qed.
Lemma child_flip_rb d pc p q : child (flip d) (rb d pc p q) = q.
Proof. by destruct d. Qed.
Lemma set_child_rb d pc p q p' : set_child d p' (rb d pc p q) = rb d pc p' q.
Proof. by destruct d. Qed.
Lemma set_child_flip_rb d pc p q q' : set_child (flip d) q' (rb d pc p q) = rb d pc p q'.
Proof. by destruct d. Qed.
Lemma flip_flip d : flip (flip d) = d.
Proof. by destruct d. Qed.
Lemma rb_flip d pc p q : rb (flip d) pc p q = rb d pc q p.
Proof. by destruct d. Qed.
Lemma mk_flip d c a x b : mk (flip d) c a x b = mk d c b x a.
Proof. by destruct d. Qed.

Lemma ptr_in t : t = E \/ ptr t ∈ addrs t.
Proof. destruct t; [by left|right; set_solver]. Qed.

(** The link to a child that is not also the other child. *)
Lemma relink_spec d h root k old new :
  ctx_at h root old k -> Forall address (kaddrs k) -> old ∉ kaddrs k -> old <> 0 \/ (forall d' c x s k', k = Frame d' c x s :: k' -> s <> E) ->
  relink d h root (par k) old new = Some (relinked h root k new).
Proof.
  destruct k as [|[d' c x s] k]; simpl; [done|]. intros (Hx & Hs & Hk) Ha Hold Hne. unfold relink, update.
  apply Forall_cons_iff in Ha as [[_ Hx0%Z.eqb_neq] Ha]. rewrite Hx0, Hx. cbn [mbind option_bind].
  destruct (decide (d' = d)) as [->|Hd].
  - by rewrite child_rb, Z.eqb_refl, set_child_rb.
  - assert (d = flip d') as -> by (by destruct d, d'). rewrite child_flip_rb, flip_flip.
    assert (ptr s <> old) as ->%Z.eqb_neq; [|by rewrite set_child_rb]. intros <-.
    destruct (ptr_in s) as [->|Hin]; [|set_solver]. destruct Hne as [Hne|Hne]; [done|]. by eapply Hne.
Qed.

Lemma ctx_at_relink h h' root k old new :
  ctx_at h root old k -> NoDup (kaddrs k) -> agree (kaddrs k) (relinked h root k new).1 h' ->
  ctx_at h' (relinked h root k new).2 new k.
Proof.
  destruct k as [|[d c x s] k]; simpl; [done|]. intros (Hx & Hs & Hk) Hnd Ha.
  apply list.NoDup_cons in Hnd as [Hxs Hnd]. apply agree_cons in Ha as [Ax Ha]. apply agree_app in Ha as [As Ak].
  rewrite lookup_insert_eq in Ax. split; [done|]. split.
  - eapply tree_at_agree; [done|]. intros z Hz. rewrite As by done. apply lookup_insert_ne. set_solver.
  - eapply ctx_at_agree; [done|]. intros z Hz. rewrite Ak by done. apply lookup_insert_ne. set_solver.
Qed.

(** * Trees in memory *)

(** The tree [t] is the whole tree, at distinct addresses. *)
Record rep (h : heap) (root : Z) (t : tree) : Prop := {
  rep_root : ptr t = root;
  rep_at : tree_at h 0 t;
  rep_nodup : NoDup (addrs t);
  rep_addr : Forall address (addrs t)
}.

(** The same, seen from a hole. *)
Record focus (h : heap) (root : Z) (k : list frame) (t : tree) : Prop := {
  fo_ctx : ctx_at h root (ptr t) k;
  fo_at : tree_at h (par k) t;
  fo_nodup : NoDup (addrs t ++ kaddrs k);
  fo_addr : Forall address (addrs t ++ kaddrs k)
}.

Lemma rep_plug h root k t : rep h root (plug k t) <-> focus h root k t.
Proof.
  pose proof (plug_at h root k t) as Hat. pose proof (addrs_plug k t) as Hp. split.
  - intros [H1 H2 H3 H4]. destruct (proj1 Hat (conj H1 H2)). split; [done|done|by rewrite <- Hp|by rewrite <- Hp].
  - intros [H1 H2 H3 H4]. destruct (proj2 Hat (conj H1 H2)). split; [done|done|by rewrite Hp|by rewrite Hp].
Qed.

Lemma par_aligned k l : Forall address (l ++ kaddrs k) -> aligned (par k).
Proof.
  intros Ha. apply Forall_app in Ha as [_ Ha]. destruct k as [|[d c x s] k]; [done|]. simpl in *.
  by apply Forall_cons_iff in Ha as [[Hx _] _].
Qed.

Section rb_words.
Context (d : side) (q : Z) (c : color) (a b : Z) (Hq : aligned q).

Lemma parent_rb : rb_parent (rb d (pack q c) a b) = q.
Proof using Hq. destruct d; by apply parent_pack. Qed.
Lemma color_rb : rb_color (rb d (pack q c) a b) = code c.
Proof using Hq. destruct d; by apply color_pack. Qed.
Lemma is_red_rb : rb_is_red (rb d (pack q c) a b) = match c with Red => true | Black => false end.
Proof using Hq. destruct d; by apply is_red_pack. Qed.
Lemma is_black_rb : rb_is_black (rb d (pack q c) a b) = match c with Red => false | Black => true end.
Proof using Hq. destruct d; by apply is_black_pack. Qed.
Lemma set_parent_rb q' : aligned q' -> rb_set_parent q' (rb d (pack q c) a b) = rb d (pack q' c) a b.
Proof using Hq. destruct d; by apply set_parent_pack. Qed.
Lemma set_color_rb c' : rb_set_color (code c') (rb d (pack q c) a b) = rb d (pack q c') a b.
Proof using Hq. destruct d; by apply set_color_pack. Qed.
Lemma set_red_rb : rb_set_red (rb d (pack q c) a b) = rb d (pack q Red) a b.
Proof using Hq. destruct d; by apply set_red_pack. Qed.
Lemma set_black_rb : rb_set_black (rb d (pack q c) a b) = rb d (pack q Black) a b.
Proof using Hq. destruct d; by apply set_black_pack. Qed.
End rb_words.

Lemma update_eq (h : heap) p n f : h !! p = Some n -> update h p f = Some (<[p := f n]> h).
Proof. intros Hp. unfold update. by rewrite Hp. Qed.

(** ** Rotations *)

Lemma rotate_spec d h root k c a x c' b y e :
  focus h root k (mk d c a x (mk d c' b y e)) ->
  exists h' root', __rb_rotate d h root x = Some (h', root') /\ focus h' root' k (mk d c' (mk d c a x b) y e).
Proof.
  intros [Hk Ht Hnd Ha]. pose proof (par_aligned _ _ Ha) as Hq. rewrite ptr_mk in Hk.
  rewrite !tree_at_mk, !ptr_mk in Ht. destruct Ht as (Hx & Ta & Hy & Tb & Te).
  assert (Hperm : addrs (mk d c a x (mk d c' b y e)) ++ kaddrs k ≡ₚ x :: y :: addrs a ++ addrs b ++ addrs e ++ kaddrs k).
  { rewrite !addrs_mk. solve_Permutation. }
  assert (Hperm' : addrs (mk d c' (mk d c a x b) y e) ++ kaddrs k ≡ₚ x :: y :: addrs a ++ addrs b ++ addrs e ++ kaddrs k).
  { rewrite !addrs_mk. solve_Permutation. }
  rewrite Hperm in Hnd, Ha. pose proof Hnd as Hnd'. pose proof Ha as Ha'.
  apply list.NoDup_cons in Hnd as [Hxn Hnd]. apply list.NoDup_cons in Hnd as [Hyn Hnd].
  rewrite !list.NoDup_app in Hnd. destruct Hnd as (Na & Dab & Nb & Dbe & Ne & Dek & Nk).
  rewrite !Forall_cons_iff, !Forall_app in Ha. destruct Ha as (Ax & Ay & Aa & Ab & Ae & Ak).
  pose proof (address_aligned _ Ax) as Alx. pose proof (address_aligned _ Ay) as Aly.
  unfold __rb_rotate. rewrite Hx. cbn [mbind option_bind]. rewrite child_flip_rb, parent_rb, Hy by done. cbn [mbind option_bind].
  rewrite child_rb, (update_eq _ _ _ _ Hx). cbn [mbind option_bind]. rewrite set_child_flip_rb.
  set (h1 := <[x := rb d (pack (par k) c) (ptr a) (ptr b)]> h).
  assert (Tb1 : tree_at h1 y b). { eapply tree_at_agree; [done|]. intros z Hz. apply lookup_insert_ne. set_solver. }
  rewrite (update_reparent h1 y x b) by done. cbn [mbind option_bind]. set (h2 := reparent x b h1).
  assert (Hy2 : h2 !! y = Some (rb d (pack x c') (ptr b) (ptr e))).
  { unfold h2. rewrite reparent_ne by set_solver. unfold h1. by rewrite lookup_insert_ne by set_solver. }
  rewrite (update_eq _ _ _ _ Hy2). cbn [mbind option_bind]. rewrite set_child_rb.
  rewrite (update_eq _ y _ _ (lookup_insert_eq _ _ _)). cbn [mbind option_bind]. rewrite set_parent_rb by done.
  rewrite insert_insert_eq. set (h3 := <[y := rb d (pack (par k) c') x (ptr e)]> h2).
  assert (Ek : agree (kaddrs k) h h3).
  { intros z Hz. unfold h3, h2, h1. rewrite lookup_insert_ne, reparent_ne, lookup_insert_ne by set_solver. done. }
  rewrite (relink_spec d h3 root k x y); [|by eapply ctx_at_agree|done|set_solver|left; apply Ax]. cbn [mbind option_bind].
  destruct (relinked h3 root k y) as [h4 root4] eqn:E4.
  assert (Hne4 : forall z, z ∉ kaddrs k -> h4 !! z = h3 !! z).
  { intros z Hz. pose proof (relinked_ne h3 root k y z Hz) as H. by rewrite E4 in H. }
  assert (Hx4 : h4 !! x = Some (rb d (pack (par k) c) (ptr a) (ptr b))).
  { rewrite Hne4 by set_solver. unfold h3, h2. rewrite lookup_insert_ne, reparent_ne by set_solver. apply lookup_insert_eq. }
  rewrite (update_eq _ _ _ _ Hx4). cbn [mbind option_bind]. rewrite set_parent_rb by done.
  eexists _, _. split; [done|]. split; [rewrite ptr_mk| |by rewrite Hperm'|by rewrite Hperm'].
  - assert (Hctx : ctx_at h3 root x k) by (by eapply ctx_at_agree).
    pose proof (ctx_at_relink h3 (<[x := rb d (pack y c) (ptr a) (ptr b)]> h4) root k x y Hctx Nk) as Hc. rewrite E4 in Hc.
    apply Hc. intros z Hz. apply lookup_insert_ne. set_solver.
  - rewrite !tree_at_mk, !ptr_mk. split; [|split; [split; [|split]|]].
    + rewrite lookup_insert_ne, Hne4 by set_solver. apply lookup_insert_eq.
    + apply lookup_insert_eq.
    + eapply tree_at_agree; [done|]. intros z Hz. rewrite lookup_insert_ne, Hne4 by set_solver.
      unfold h3, h2, h1. rewrite lookup_insert_ne, reparent_ne, lookup_insert_ne by set_solver. done.
    + eapply (tree_at_reparent h1); [done|done|]. intros z Hz. rewrite lookup_insert_ne, Hne4 by set_solver.
      unfold h3. by rewrite lookup_insert_ne by set_solver.
    + eapply tree_at_agree; [done|]. intros z Hz. rewrite lookup_insert_ne, Hne4 by set_solver.
      unfold h3, h2, h1. rewrite lookup_insert_ne, reparent_ne, lookup_insert_ne by set_solver. done.
Qed.

Lemma rotate_flip_spec d h root k c a x c' b y e :
  focus h root k (mk d c (mk d c' e y b) x a) ->
  exists h' root', __rb_rotate (flip d) h root x = Some (h', root') /\ focus h' root' k (mk d c' e y (mk d c b x a)).
Proof. pose proof (rotate_spec (flip d) h root k c a x c' b y e) as H. by rewrite !mk_flip in H. Qed.

(** ** Colours *)

Definition col (t : tree) : color := match t with E => Black | T c _ _ _ => c end.

Lemma focus_lookup h root k d c a x b :
  focus h root k (mk d c a x b) -> h !! x = Some (rb d (pack (par k) c) (ptr a) (ptr b)) /\ aligned (par k) /\ x <> 0.
Proof.
  intros [_ Ht _ Ha]. pose proof (par_aligned _ _ Ha) as Hq. rewrite tree_at_mk in Ht. destruct Ht as (Hx & _).
  rewrite addrs_mk in Ha. apply Forall_cons_iff in Ha as [[_ Hx0] _]. done.
Qed.

(** A node on the way to the hole. *)
Lemma focus_frame h root d c x s k t : focus h root (Frame d c x s :: k) t <-> focus h root k (mk d c t x s).
Proof. by rewrite <- !rep_plug. Qed.

Lemma focus_up h root d c x s k t : focus h root (Frame d c x s :: k) t -> focus h root k (mk d c t x s).
Proof. apply focus_frame. Qed.

Lemma focus_down h root d c x s k t : focus h root k (mk d c t x s) -> focus h root (Frame d c x s :: k) t.
Proof. apply focus_frame. Qed.

(** From a child to the other and back. *)
Lemma focus_side h root d c x s k t : focus h root (Frame d c x s :: k) t -> focus h root (Frame (flip d) c x t :: k) s.
Proof. by rewrite !focus_frame, mk_flip. Qed.

Lemma focus_back h root d c x s k t : focus h root (Frame (flip d) c x t :: k) s -> focus h root (Frame d c x s :: k) t.
Proof. by rewrite !focus_frame, mk_flip. Qed.

(** The pointers around a hole are different. *)
Lemma focus_distinct h root d c x s k t :
  focus h root (Frame d c x s :: k) t -> x <> ptr t /\ x <> ptr s /\ (ptr t = ptr s -> t = E /\ s = E).
Proof.
  intros [_ _ Hnd Ha]. simpl in *. apply list.NoDup_app in Hnd as (_ & Hd & Hnd). apply list.NoDup_cons in Hnd as [Hx Hnd].
  rewrite Forall_app, Forall_cons_iff in Ha. destruct Ha as (Hat & [_ Hx0] & Has).
  rewrite Forall_app in Has. destruct Has as [Has _].
  assert (Hz : forall u, Forall address (addrs u) -> u <> E -> ptr u <> 0).
  { intros u Hu Hne. destruct (ptr_in u) as [|Hin]; [done|]. rewrite list.Forall_forall in Hu. by apply Hu. }
  destruct (ptr_in t) as [->|Ht], (ptr_in s) as [->|Hs]; simpl; try done.
  - split; [done|]. split; [set_solver|]. intros Heq. exfalso. apply (Hz s Has); [|done]. by destruct s; set_solver.
  - split; [set_solver|]. split; [done|]. intros Heq. exfalso. apply (Hz t Hat); [|done]. by destruct t; set_solver.
  - split; [set_solver|]. split; [set_solver|]. intros Heq. exfalso. rewrite Heq in Ht. set_solver.
Qed.

(** A write that changes the colour of a node to [c']. *)
Lemma recolor_spec h root k c l x r f c' :
  focus h root k (T c l x r) -> (forall q c0 a b, aligned q -> f (Rb (pack q c0) a b) = Rb (pack q c') a b) ->
  exists h', update h x f = Some h' /\ focus h' root k (T c' l x r).
Proof.
  intros Hf Hpaint. destruct (focus_lookup h root k L c l x r Hf) as (Hx & Hq & _). destruct Hf as [Hk (_ & Hl & Hr) Hnd Ha].
  rewrite (update_eq _ _ _ _ Hx). simpl rb. rewrite Hpaint by done. eexists. split; [done|].
  assert (Hnd' := Hnd). change (addrs (T c l x r)) with (addrs (mk L c l x r)) in Hnd'. rewrite addrs_mk in Hnd'.
  apply list.NoDup_cons in Hnd' as [Hxn _]. split; [|split_and!|done|done].
  - eapply ctx_at_agree; [done|]. intros z Hz. apply lookup_insert_ne. set_solver.
  - apply lookup_insert_eq.
  - eapply tree_at_agree; [done|]. intros z Hz. apply lookup_insert_ne. set_solver.
  - eapply tree_at_agree; [done|]. intros z Hz. apply lookup_insert_ne. set_solver.
Qed.

(** The same for a node given by side, painted black or red. *)
Lemma paint_black h root k d c a x b :
  focus h root k (mk d c a x b) -> exists h', update h x rb_set_black = Some h' /\ focus h' root k (mk d Black a x b).
Proof. intros Hf. destruct d; eapply recolor_spec; eauto; intros; by apply set_black_pack. Qed.

Lemma paint_red h root k d c a x b :
  focus h root k (mk d c a x b) -> exists h', update h x rb_set_red = Some h' /\ focus h' root k (mk d Red a x b).
Proof. intros Hf. destruct d; eapply recolor_spec; eauto; intros; by apply set_red_pack. Qed.

Lemma paint h root k d c a x b c' :
  focus h root k (mk d c a x b) -> exists h', update h x (rb_set_color (code c')) = Some h' /\ focus h' root k (mk d c' a x b).
Proof. intros Hf. destruct d; eapply recolor_spec; eauto; intros; by apply set_color_pack. Qed.

(** The colour of a child. *)
Lemma child_color h root d c x s k t :
  focus h root (Frame d c x s :: k) t ->
  red_at h (ptr s) = Some (match col s with Red => true | Black => false end) /\
  null_or_black h (ptr s) = Some (match col s with Red => false | Black => true end).
Proof.
  intros [(_ & Hs & _) _ _ Ha]. simpl in Ha. rewrite Forall_app, Forall_cons_iff, Forall_app in Ha. destruct Ha as (_ & [Hx _] & Has & _).
  unfold red_at, null_or_black. destruct s as [|cs l y r]; [done|]. destruct Hs as (Hy & _). simpl.
  apply Forall_app in Has as [_ Has]. apply Forall_cons_iff in Has as [[_ Hy0%Z.eqb_neq] _]. rewrite Hy0, Hy. simpl.
  by rewrite is_red_pack, is_black_pack.
Qed.

(** * Red-black trees *)

(** Red-black trees of black height [n]: the same number of black nodes on all ways down,
    and no red node below a red one. *)
Inductive rbt : nat -> tree -> Prop :=
| rbt_E : rbt 0 E
| rbt_R n l x r : rbt n l -> rbt n r -> col l = Black -> col r = Black -> rbt n (T Red l x r)
| rbt_B n l x r : rbt n l -> rbt n r -> rbt (S n) (T Black l x r).

Lemma rbt_red d n a x b : rbt n (mk d Red a x b) <-> rbt n a /\ rbt n b /\ col a = Black /\ col b = Black.
Proof.
  destruct d; simpl; (split; [inversion 1; subst; auto|intros (? & ? & ? & ?); by constructor]).
Qed.

Lemma rbt_black d n a x b : rbt n (mk d Black a x b) <-> exists m, n = S m /\ rbt m a /\ rbt m b.
Proof.
  destruct d; simpl; (split; [inversion 1; subst; eauto|intros (m & -> & ? & ?); by constructor]).
Qed.

Lemma col_mk d c a x b : col (mk d c a x b) = c.
Proof. by destruct d. Qed.

(** Surroundings of a hole for trees of black height [n]. *)
Definition kcol (k : list frame) : option color := match k with [] => None | Frame _ c _ _ :: _ => Some c end.

Fixpoint kok (n : nat) (k : list frame) : Prop :=
  match k with
  | [] => True
  | Frame d c x s :: k =>
      rbt n s /\
      match c with
      | Red => col s = Black /\ kcol k = Some Black /\ kok n k
      | Black => kok (S n) k
      end
  end.

Lemma kok_plug n k t :
  kok n k -> rbt n t -> (kcol k = Some Red -> col t = Black) ->
  (exists m, rbt m (plug k t)) /\ (k = [] \/ col (plug k t) = Black).
Proof.
  revert n t. induction k as [|[d c x s] k IH]; intros n t; simpl; [eauto|]. intros (Hs & Hk) Ht Hred. destruct c.
  - destruct Hk as (Hsc & Htop & Hk). destruct (IH n (mk d Red t x s) Hk) as [Hm [->|Hcol]]; [by apply rbt_red; auto|by rewrite Htop|done|auto].
  - destruct (IH (S n) (mk d Black t x s) Hk) as [Hm [->|Hcol]]; [by apply rbt_black; eauto|by rewrite col_mk| |auto].
    split; [done|]. right. simpl. apply col_mk.
Qed.

Lemma plug_kok m k t :
  rbt m (plug k t) -> col (plug k t) = Black -> exists n, rbt n t /\ kok n k /\ (kcol k = Some Red -> col t = Black).
Proof.
  revert t. induction k as [|[d c x s] k IH]; intros t Hm Hcol; simpl in *; [by exists m|].
  destruct (IH _ Hm Hcol) as (n & Hn & Hk & Hred). rewrite col_mk in Hred. destruct c.
  - apply rbt_red in Hn as (Ht & Hs & Hct & Hcs). exists n. split; [done|]. split; [|done]. split; [done|]. split; [done|]. split; [|done].
    destruct k as [|[d' [] y u] k']; [simpl in Hcol; by rewrite col_mk in Hcol|by specialize (Hred eq_refl)|done].
  - apply rbt_black in Hn as (n' & -> & Ht & Hs). by exists n'.
Qed.

(** ** Order *)

(** Equations between concatenations. *)
Ltac reorder := repeat (progress (simpl; rewrite <- ?app_assoc)); try done.

Fixpoint before (k : list frame) : list Z :=
  match k with
  | [] => []
  | Frame L _ _ _ :: k => before k
  | Frame R _ x s :: k => before k ++ addrs s ++ [x]
  end.

Fixpoint after (k : list frame) : list Z :=
  match k with
  | [] => []
  | Frame L _ x s :: k => x :: addrs s ++ after k
  | Frame R _ _ _ :: k => after k
  end.

Lemma plug_order k t : addrs (plug k t) = before k ++ addrs t ++ after k.
Proof.
  revert t. induction k as [|[[] c x s] k IH]; intros t; simpl; [by rewrite app_nil_r| |]; rewrite IH; simpl; by rewrite <- !app_assoc.
Qed.

Lemma rotate_order d c a x c' b y e : addrs (mk d c' (mk d c a x b) y e) = addrs (mk d c a x (mk d c' b y e)).
Proof. destruct d; simpl; by rewrite <- !app_assoc. Qed.

Lemma recolor_order d c c' a x b : addrs (mk d c a x b) = addrs (mk d c' a x b).
Proof. by destruct d. Qed.

(** * Insertion *)

(** The loop ends below a black node or at the root. *)
Lemma insert_done h root k c l x r :
  focus h root k (T c l x r) -> kcol k <> Some Red -> insert_color_step (h, root, x) = Some (Done (h, root)).
Proof.
  intros Hf Hk. destruct (focus_lookup _ _ _ L _ _ _ _ Hf) as (Hx & Hq & _). unfold insert_color_step. rewrite Hx. cbn [mbind option_bind].
  rewrite parent_rb by done. destruct k as [|[d c' p s] k]; [done|]. cbn [par] in *.
  apply focus_up in Hf. destruct (focus_lookup _ _ _ _ _ _ _ _ Hf) as (Hp & Hq' & Hp0%Z.eqb_neq). rewrite Hp0, Hp. cbn [mbind option_bind].
  rewrite is_red_rb by done. by destruct c'.
Qed.

(** The side of the parent below the grandparent. *)
Lemma side_of h root d c x s k t :
  focus h root (Frame d c x s :: k) t -> t <> E -> forall pc, (if ptr t =? rb_left (rb d pc (ptr t) (ptr s)) then L else R) = d.
Proof.
  intros Hf Ht pc. destruct (focus_distinct _ _ _ _ _ _ _ _ Hf) as (_ & _ & Hd). destruct d; simpl; [by rewrite Z.eqb_refl|].
  destruct (Z.eqb_spec (ptr t) (ptr s)) as [Heq|]; [|done]. by destruct (Hd Heq).
Qed.

(** The common part: a red parent and its parent. *)
Lemma insert_step_start h root d1 p s d cg g u k c l x r :
  focus h root (Frame d1 Red p s :: Frame d cg g u :: k) (T c l x r) ->
  insert_color_step (h, root, x) =
    (if match col u with Red => true | Black => false end then
       h ← update h (ptr u) rb_set_black;
       h ← update h p rb_set_black;
       h ← update h g rb_set_red;
       Some (Next (h, root, g))
     else
       '(h, root, parent, node) ←
         (if bool_decide (d1 = flip d) then '(h, root) ← __rb_rotate d h root p; Some (h, root, x, p) else Some (h, root, p, x));
       h ← update h parent rb_set_black;
       h ← update h g rb_set_red;
       '(h, root) ← __rb_rotate (flip d) h root g;
       Some (Next (h, root, node))).
Proof.
  intros Hf. destruct (focus_lookup _ _ _ L _ _ _ _ Hf) as (Hx & Hq & _).
  destruct (focus_distinct _ _ _ _ _ _ _ _ Hf) as (_ & _ & Hxs).
  pose proof (proj1 (focus_frame _ _ _ _ _ _ _ _) Hf) as Hf1. destruct (focus_lookup _ _ _ _ _ _ _ _ Hf1) as (Hp & Hq1 & Hp0%Z.eqb_neq).
  pose proof (proj1 (focus_frame _ _ _ _ _ _ _ _) Hf1) as Hf2. destruct (focus_lookup _ _ _ _ _ _ _ _ Hf2) as (Hg & Hq2 & Hg0).
  destruct (child_color _ _ _ _ _ _ _ _ Hf1) as [Hu _]. pose proof (side_of _ _ _ _ _ _ _ _ Hf1) as Hside. rewrite ptr_mk in *.
  unfold insert_color_step. rewrite Hx. cbn [mbind option_bind]. rewrite parent_rb by done. cbn [par] in *.
  rewrite Hp0, Hp. cbn [mbind option_bind]. rewrite is_red_rb, parent_rb by done. cbn [negb]. rewrite Hg. cbn [mbind option_bind].
  rewrite Hside by (by destruct d1). rewrite child_flip_rb, Hu. cbn [mbind option_bind].
  assert (Hinner : (child (flip d) (rb d1 (pack g Red) x (ptr s)) =? x) = bool_decide (d1 = flip d)).
  { destruct (decide (d1 = flip d)) as [->|Hne].
    - rewrite child_rb, Z.eqb_refl. by rewrite bool_decide_eq_true_2.
    - rewrite bool_decide_eq_false_2 by done. assert (flip d = flip d1) as -> by (by destruct d, d1).
      rewrite child_flip_rb. apply Z.eqb_neq. intros Heq. symmetry in Heq. by destruct (Hxs Heq). }
  simpl ptr in *. rewrite Hinner. done.
Qed.

(** A red uncle: the colours of three nodes change, and the grandparent is next. *)
Lemma insert_up h root d1 p s d cg g ul uy ur k c l x r :
  focus h root (Frame d1 Red p s :: Frame d cg g (T Red ul uy ur) :: k) (T c l x r) ->
  exists h', insert_color_step (h, root, x) = Some (Next (h', root, g)) /\
    focus h' root k (mk d Red (mk d1 Black (T c l x r) p s) g (T Black ul uy ur)).
Proof.
  intros Hf. rewrite (insert_step_start _ _ _ _ _ _ _ _ _ _ _ _ _ _ Hf). cbn [col ptr].
  apply focus_up, focus_side in Hf.
  destruct (paint_black _ _ _ L _ _ _ _ Hf) as (h1 & -> & Hf1). cbn [mbind option_bind]. apply focus_back in Hf1.
  destruct (paint_black _ _ _ d1 _ _ _ _ Hf1) as (h2 & -> & Hf2). cbn [mbind option_bind]. apply focus_up in Hf2.
  destruct (paint_red _ _ _ d _ _ _ _ Hf2) as (h3 & -> & Hf3). by exists h3.
Qed.

(** A black uncle, the node on the outer side: one rotation. *)
Lemma insert_outer h root p s d cg g u k c l x r :
  focus h root (Frame d Red p s :: Frame d cg g u :: k) (T c l x r) -> col u = Black ->
  exists h' root', insert_color_step (h, root, x) = Some (Next (h', root', x)) /\
    focus h' root' k (mk d Black (T c l x r) p (mk d Red s g u)).
Proof.
  intros Hf Hu. rewrite (insert_step_start _ _ _ _ _ _ _ _ _ _ _ _ _ _ Hf), Hu, bool_decide_eq_false_2 by (by destruct d).
  cbn [mbind option_bind]. apply focus_up in Hf.
  destruct (paint_black _ _ _ d _ _ _ _ Hf) as (h1 & -> & Hf1). cbn [mbind option_bind]. apply focus_up in Hf1.
  destruct (paint_red _ _ _ d _ _ _ _ Hf1) as (h2 & -> & Hf2). cbn [mbind option_bind]. 
  destruct (rotate_flip_spec _ _ _ _ _ _ _ _ _ _ _ Hf2) as (h3 & root3 & -> & Hf3). by exists h3, root3.
Qed.

(** The node on the inner side: two rotations. *)
Lemma insert_inner h root p s d cg g u k c a x b :
  focus h root (Frame (flip d) Red p s :: Frame d cg g u :: k) (mk d c a x b) -> col u = Black ->
  exists h' root', insert_color_step (h, root, x) = Some (Next (h', root', p)) /\
    focus h' root' k (mk d Black (mk d Red s p a) x (mk d Red b g u)).
Proof.
  intros Hf Hu.
  assert (Hstart : insert_color_step (h, root, x) = ('(h, root) ← __rb_rotate d h root p; h ← update h x rb_set_black;
      h ← update h g rb_set_red; '(h, root) ← __rb_rotate (flip d) h root g; Some (Next (h, root, p)))).
  { destruct d; simpl mk in Hf; rewrite (insert_step_start _ _ _ _ _ _ _ _ _ _ _ _ _ _ Hf), Hu, bool_decide_eq_true_2 by done;
      cbn [mbind option_bind]; by destruct (__rb_rotate _ _ _ _) as [[? ?]|]. }
  rewrite Hstart. apply focus_up in Hf. rewrite mk_flip in Hf.
  destruct (rotate_spec d _ _ _ _ _ _ _ _ _ _ Hf) as (h1 & root1 & -> & Hf1). cbn [mbind option_bind].
  destruct (paint_black _ _ _ d _ _ _ _ Hf1) as (h2 & -> & Hf2). cbn [mbind option_bind]. apply focus_up in Hf2.
  destruct (paint_red _ _ _ d _ _ _ _ Hf2) as (h3 & -> & Hf3). cbn [mbind option_bind]. 
  destruct (rotate_flip_spec _ _ _ _ _ _ _ _ _ _ _ Hf3) as (h4 & root4 & -> & Hf4). by exists h4, root4.
Qed.

(** What the loop leaves: a red-black tree with the same nodes in the same order. *)
Definition balanced (h : heap) (root : Z) (l : list Z) : Prop :=
  exists t n, rep h root t /\ addrs t = l /\ rbt n t.

Lemma insert_end h root k c l x r n order fuel :
  focus h root k (T c l x r) -> kcol k <> Some Red -> kok n k -> rbt n (T c l x r) ->
  order = addrs (plug k (T c l x r)) ->
  exists h' root', loop (S fuel) insert_color_step (h, root, x) = Some (h', root') /\ balanced h' root' order.
Proof.
  intros Hf Hk Hok Ht ->. rewrite loop_S, (insert_done _ _ _ _ _ _ _ Hf Hk). exists h, root. split; [done|].
  destruct (kok_plug n k _ Hok Ht) as [[m Hm] _]; [done|]. exists (plug k (T c l x r)), m. by rewrite rep_plug.
Qed.

Lemma insert_loop fuel d n k a x b h root :
  focus h root k (mk d Red a x b) -> rbt n a -> rbt n b -> col a = Black -> col b = Black -> kok n k ->
  (length k + 2 <= fuel)%nat ->
  exists h' root', loop fuel insert_color_step (h, root, x) = Some (h', root') /\
    balanced h' root' (addrs (plug k (mk d Red a x b))).
Proof.
  revert d n k a x b h root. induction fuel as [|fuel IH]; intros d0 n k a x b h root Hf Ha Hb Hca Hcb Hk Hfuel; [lia|].
  destruct (mk d0 Red a x b) as [|c l x' r] eqn:Et; [by destruct d0|].
  assert (x' = x) as -> by (by destruct d0; simplify_eq/=). assert (c = Red) as -> by (by destruct d0; simplify_eq/=).
  assert (Ht : rbt n (T Red l x r)) by (rewrite <- Et; by apply rbt_red).
  destruct k as [|[d1 [] p s] k]; [by eapply insert_end| |by eapply insert_end].
  simpl in Hk. destruct Hk as (Hs & Hcs & Htop & Hk). destruct k as [|[d [] g u] k]; try done. simpl in Hk. destruct Hk as (Hu & Hk).
  destruct fuel as [|fuel]; [simpl in Hfuel; lia|]. destruct (col u) eqn:Hcu.
  - destruct u as [|cu ul uy ur]; [done|]. simpl in Hcu. subst cu. destruct (insert_up _ _ _ _ _ _ _ _ _ _ _ _ _ _ _ _ Hf) as (h1 & Hstep & Hf1).
    rewrite loop_S, Hstep. destruct (IH d (S n) k _ g _ h1 root Hf1) as (h2 & root2 & Heq & Hbal).
    + by apply rbt_black; eauto.
    + inversion Hu; subst. by constructor.
    + apply col_mk.
    + done.
    + done.
    + simpl in Hfuel. lia.
    + exists h2, root2. split; [done|]. revert Hbal. cbn [plug]. rewrite !plug_order. by destruct d, d1; reorder.
  - destruct (decide (d1 = d)) as [->|Hne].
    + destruct (insert_outer _ _ _ _ _ _ _ _ _ _ _ _ _ Hf Hcu) as (h1 & root1 & Hstep & Hf1). rewrite loop_S, Hstep.
      apply focus_down in Hf1. eapply (insert_end _ _ _ _ _ _ _ n); [done|done| |done|].
      * split; [by apply rbt_red|done].
      * cbn [plug]. rewrite !plug_order. destruct d; reorder.
    + assert (d1 = flip d) as -> by (by destruct d, d1).
      assert (Hmk : exists a' b', T Red l x r = mk d Red a' x b') by (destruct d; [by exists l, r|by exists r, l]).
      destruct Hmk as (a' & b' & Hmk). rewrite Hmk in Hf. destruct (insert_inner _ _ _ _ _ _ _ _ _ _ _ _ _ Hf Hcu) as (h1 & root1 & Hstep & Hf1).
      rewrite Hmk in Ht. apply rbt_red in Ht as (Ha' & Hb' & Hca' & Hcb'). rewrite loop_S, Hstep. apply focus_down in Hf1.
      destruct (mk d Red s p a') as [|c2 l2 p2 r2] eqn:E2; [by destruct d|].
      assert (p2 = p) as -> by (by destruct d; simplify_eq/=).
      eapply (insert_end _ _ _ _ _ _ _ n); [done|done| |rewrite <- E2; by apply rbt_red|].
      * split; [by apply rbt_red|done].
      * rewrite <- E2, Hmk. cbn [plug]. rewrite !plug_order. destruct d; reorder.
Qed.

(** ** Depth *)

Lemma rbt_size n t : rbt n t -> (2 ^ n <= length (addrs t) + 1)%nat.
Proof.
  induction 1 as [|n l x r Hl IHl Hr IHr|n l x r Hl IHl Hr IHr]; simpl; rewrite ?length_app; simpl; lia.
Qed.

Lemma kok_depth n k m t :
  kok n k -> rbt n t -> (kcol k = Some Red -> col t = Black) -> rbt m (plug k t) ->
  (length k + 2 * n <= 2 * m + if decide (kcol k = Some Red) then 1 else 0)%nat.
Proof.
  revert n t. induction k as [|[d c x s] k IH]; intros n t Hk Ht Hred Hm; simpl in Hk.
  - simpl in *. assert (n = m); [|lia]. clear -Ht Hm. revert m Hm. induction Ht; intros m Hm; inversion Hm; subst; auto.
  - destruct Hk as (Hs & Hk). destruct c.
    + destruct Hk as (Hcs & Htop & Hk). specialize (IH n (mk d Red t x s) Hk). rewrite Htop in IH.
      rewrite decide_False in IH by done. rewrite decide_True by done. simpl. cut (length k + 2 * n <= 2 * m + 0)%nat; [lia|].
      apply IH; [by apply rbt_red; auto|done|done].
    + specialize (IH (S n) (mk d Black t x s) Hk). rewrite decide_False by done. simpl.
      cut (length k + 2 * S n <= 2 * m + if decide (kcol k = Some Red) then 1 else 0)%nat; [case_decide; lia|].
      apply IH; [by apply rbt_black; eauto|by rewrite col_mk|done].
Qed.

(** The steps that suffice for a tree with [size] nodes. *)
Definition enough (size fuel : nat) : Prop := (2 * Nat.log2 (size + 1) + 4 <= fuel)%nat.

Lemma depth_enough m k t fuel :
  rbt m (plug k t) -> col (plug k t) = Black -> enough (length (addrs (plug k t))) fuel -> (length k + 3 <= fuel)%nat.
Proof.
  intros Hm Hcol Hf. destruct (plug_kok m k t Hm Hcol) as (n & Hn & Hk & Hred).
  pose proof (kok_depth n k m t Hk Hn Hred Hm) as Hd. pose proof (rbt_size m _ Hm) as Hs. unfold enough in Hf.
  assert (m <= Nat.log2 (length (addrs (plug k t)) + 1))%nat by (apply Nat.log2_le_pow2; lia). case_decide; lia.
Qed.

(** ** The whole insertion *)

(** A red-black tree with a black root that lists the nodes [l] in order. *)
Definition rb_tree (h : heap) (root : Z) (l : list Z) : Prop :=
  exists t n, rep h root t /\ addrs t = l /\ rbt n t /\ col t = Black.

Lemma rbt_blacken n c l x r : rbt n (T c l x r) -> exists m, rbt m (T Black l x r).
Proof. inversion 1; subst; eexists; by constructor. Qed.

Lemma blacken_root h root l :
  balanced h root l -> l <> [] -> exists h', update h root rb_set_black = Some h' /\ rb_tree h' root l.
Proof.
  intros (t & n & Hrep & <- & Hn) Hne. destruct t as [|c a x b]; [done|]. pose proof (rep_root _ _ _ Hrep) as Hr. simpl in Hr. subst root.
  apply (rep_plug h x [] (T c a x b)) in Hrep. destruct (paint_black _ _ _ L _ _ _ _ Hrep) as (h' & Heq & Hf).
  exists h'. split; [done|]. destruct (rbt_blacken _ _ _ _ _ Hn) as [m Hm]. exists (T Black a x b), m.
  split; [by apply (rep_plug h' x [] (T Black a x b))|done].
Qed.

Definition kside (k : list frame) : side := match k with [] => L | Frame d _ _ _ :: _ => d end.

Lemma link_spec h root k node :
  focus h root k E -> address node -> node ∉ kaddrs k ->
  exists h' root', rb_link_node h root node (par k) (kside k) = Some (h', root') /\ focus h' root' k (T Red E node E).
Proof.
  intros [Hk _ Hnd Ha] Hnode Hnew. simpl in *. assert (Hred : forall q, Rb q 0 0 = Rb (pack q Red) 0 0).
  { intros q. unfold pack, code, RB_RED. by rewrite Z.add_0_r. }
  set (h1 := <[node := Rb (par k) 0 0]> h).
  assert (Hk1 : ctx_at h1 root 0 k). { eapply ctx_at_agree; [done|]. intros z Hz. apply lookup_insert_ne. set_solver. }
  assert (Heq : rb_link_node h root node (par k) (kside k) = Some (relinked h1 root k node)).
  { unfold rb_link_node. fold h1. destruct k as [|[d c x s] k]; [done|]. simpl in Hk1, Ha. destruct Hk1 as (Hx & _).
    apply Forall_cons_iff in Ha as [[_ Hx0%Z.eqb_neq] _]. cbn [par kside]. rewrite Hx0, (update_eq _ _ _ _ Hx). simpl.
    by rewrite set_child_rb. }
  destruct (relinked h1 root k node) as [h2 root2] eqn:E2. exists h2, root2. split; [done|]. split.
  - pose proof (ctx_at_relink h1 h2 root k 0 node Hk1 Hnd) as Hc. rewrite E2 in Hc. apply Hc. by intros z Hz.
  - simpl. split; [|done]. pose proof (relinked_ne h1 root k node node Hnew) as Hn. rewrite E2 in Hn. cbn [fst] in Hn. rewrite Hn.
    unfold h1. rewrite lookup_insert_eq. by rewrite Hred.
  - simpl. by apply list.NoDup_cons.
  - simpl. by apply Forall_cons_iff.
Qed.

Lemma rb_insert_spec fuel h root t n k node :
  rep h root t -> rbt n t -> col t = Black -> t = plug k E -> address node -> node ∉ addrs t ->
  enough (length (addrs t)) fuel ->
  exists h1 root1 h2 root2, rb_link_node h root node (par k) (kside k) = Some (h1, root1) /\
    rb_insert_color fuel h1 root1 node = Some (h2, root2) /\ rb_tree h2 root2 (before k ++ node :: after k).
Proof.
  intros Hrep Hn Hcol -> Hnode Hnew Hfuel. pose proof (depth_enough _ _ _ _ Hn Hcol Hfuel) as Hlen.
  destruct (plug_kok _ _ _ Hn Hcol) as (m & Hm & Hk & _). inversion Hm; subst.
  assert (Hnew' : node ∉ kaddrs k) by (intros Hin; apply Hnew; rewrite addrs_plug; set_solver).
  apply rep_plug in Hrep. destruct (link_spec h root k node Hrep Hnode Hnew') as (h1 & root1 & Hlink & Hf).
  destruct (insert_loop fuel L 0 k E node E h1 root1 Hf) as (h2 & root2 & Hloop & Hbal); try done; [lia|].
  rewrite plug_order in Hbal. destruct (blacken_root h2 root2 _ Hbal) as (h3 & Hpaint & Hres); [by destruct (before k)|].
  exists h1, root1, h3, root2. split; [done|]. unfold rb_insert_color. rewrite Hloop. cbn [mbind option_bind]. rewrite Hpaint. done.
Qed.

(** * Removal *)

Definition black (t : tree) : bool := match col t with Red => false | Black => true end.

Lemma kids_color h root k d c a x b :
  focus h root k (mk d c a x b) -> null_or_black h (ptr a) = Some (black a) /\ null_or_black h (ptr b) = Some (black b).
Proof.
  intros Hf. apply focus_down in Hf. destruct (child_color _ _ _ _ _ _ _ _ Hf) as [_ Hb]. apply focus_side in Hf.
  destruct (child_color _ _ _ _ _ _ _ _ Hf) as [_ Ha]. done.
Qed.

(** The root is in the surroundings of a hole below it. *)
Lemma root_in_ctx h root p k : ctx_at h root p k -> k <> [] -> root ∈ kaddrs k.
Proof.
  revert p. induction k as [|[d c x s] k IH]; intros p; [done|]. intros (_ & _ & Hk) _. destruct k as [|f k]; [set_solver|].
  simpl kaddrs at 1. rewrite elem_of_cons, elem_of_app. right. right. by apply (IH x).
Qed.

Lemma not_root h root k t : focus h root k t -> k <> [] -> ptr t <> root.
Proof.
  intros [Hk _ Hnd Ha] Hne Heq. pose proof (root_in_ctx _ _ _ _ Hk Hne) as Hin. rewrite <- Heq in Hin.
  destruct (ptr_in t) as [->|Ht].
  - apply Forall_app in Ha as [_ Ha]. rewrite list.Forall_forall in Ha. by destruct (Ha _ Hin).
  - apply list.NoDup_app in Hnd as (_ & Hd & _). by apply (Hd (ptr t)).
Qed.

(** The trees at a hole that lacks one black node: a red root will be painted black. *)
Definition short (n : nat) (t : tree) : Prop :=
  match t with T Red l _ r => rbt n l /\ rbt n r | _ => rbt n t end.

(** The loop ends at a red node and at the root. *)
Lemma erase_exit h root k t n order :
  focus h root k t -> short n t -> kok (S n) k -> order = addrs (plug k t) -> k = [] \/ col t = Red ->
  erase_color_step (h, root, ptr t, par k) = Some (Done (h, root, ptr t)) /\
  exists h', update_if h (ptr t) rb_set_black = Some h' /\ rb_tree h' root order.
Proof.
  intros Hf Hs Hk -> Hexit. split.
  - unfold erase_color_step.
    assert (Hb : null_or_black h (ptr t) = Some (black t)).
    { unfold null_or_black. destruct t as [|c l x r]; [done|]. destruct (focus_lookup _ _ _ L _ _ _ _ Hf) as (Hx & Hq & Hx0%Z.eqb_neq).
      simpl ptr. rewrite Hx0, Hx. cbn [mbind option_bind]. by rewrite is_black_rb. }
    rewrite Hb. cbn [mbind option_bind]. destruct Hexit as [->|Hred].
    + pose proof (fo_ctx _ _ _ _ Hf) as Hr. simpl in Hr. by rewrite Hr, Z.eqb_refl, andb_false_r.
    + unfold black. by rewrite Hred.
  - destruct t as [|c l x r].
    + destruct Hexit as [->|]; [|done]. exists h. split; [done|]. exists E, 0%nat. apply rep_plug in Hf.
      split; [done|]. split; [done|]. split; [constructor|done].
    + destruct (focus_lookup _ _ _ L _ _ _ _ Hf) as (Hx & Hq & Hx0%Z.eqb_neq). unfold update_if. simpl ptr. rewrite Hx0.
      destruct (paint_black _ _ _ L _ _ _ _ Hf) as (h' & Heq & Hf'). exists h'. split; [done|]. simpl mk in Hf'. destruct c.
      * destruct Hs as [Hl Hr]. assert (Ht : rbt (S n) (T Black l x r)) by (by constructor).
        destruct (kok_plug _ k _ Hk Ht ltac:(done)) as [[m Hm] Hcol]. exists (plug k (T Black l x r)), m. rewrite rep_plug, !plug_order.
        split; [done|]. split; [done|]. split; [done|]. by destruct Hcol as [->|].
      * destruct Hexit as [->|]; [|done]. exists (T Black l x r), n. apply rep_plug in Hf'. done.
Qed.

(** ** The steps of the loop *)

(** The side of the node, which may be null, below its parent. *)
Lemma side_of_node h root d c x s k t :
  focus h root (Frame d c x s :: k) t -> s <> E -> forall pc, (if rb_left (rb d pc (ptr t) (ptr s)) =? ptr t then L else R) = d.
Proof.
  intros Hf Hs pc. destruct (focus_distinct _ _ _ _ _ _ _ _ Hf) as (_ & _ & Hd). destruct d; simpl; [by rewrite Z.eqb_refl|].
  destruct (Z.eqb_spec (ptr s) (ptr t)) as [Heq|]; [|done]. symmetry in Heq. by destruct (Hd Heq).
Qed.

Lemma erase_red_sibling_spec d h root c p cs sa y sb k t :
  focus h root (Frame d c p (mk d cs sa y sb) :: k) t ->
  exists h' root', erase_red_sibling d h root p y =
      Some (h', root', match cs with Red => ptr sa | Black => y end) /\
    match cs with
    | Red => focus h' root' (Frame d Red p sa :: Frame d Black y sb :: k) t
    | Black => h' = h /\ root' = root
    end.
Proof.
  intros Hf. unfold erase_red_sibling. pose proof (focus_side _ _ _ _ _ _ _ _ Hf) as Hs.
  destruct (focus_lookup _ _ _ _ _ _ _ _ Hs) as (Hy & Hq & _). rewrite Hy. cbn [mbind option_bind]. rewrite is_red_rb by done.
  destruct cs; [|by exists h, root].
  destruct (paint_black _ _ _ _ _ _ _ _ Hs) as (h1 & -> & Hf1). cbn [mbind option_bind]. apply focus_back, focus_up in Hf1.
  destruct (paint_red _ _ _ _ _ _ _ _ Hf1) as (h2 & -> & Hf2). cbn [mbind option_bind].
  destruct (rotate_spec _ _ _ _ _ _ _ _ _ _ _ Hf2) as (h3 & root3 & -> & Hf3). cbn [mbind option_bind]. apply focus_down in Hf3.
  destruct (focus_lookup _ _ _ _ _ _ _ _ Hf3) as (Hp & _ & _). rewrite Hp. cbn [mbind option_bind]. rewrite child_flip_rb.
  exists h3, root3. split; [done|]. by apply focus_down.
Qed.

Lemma erase_near_red_spec d h root c p sa y sb k t :
  focus h root (Frame d c p (mk d Black sa y sb) :: k) t -> black sa && black sb = false ->
  exists h' root' s1 o fa z fb, erase_near_red d h root p y = Some (h', root', o) /\
    focus h' root' (Frame d c p (mk d Black s1 o (mk d Red fa z fb)) :: k) t /\
    addrs (mk d Black s1 o (mk d Red fa z fb)) = addrs (mk d Black sa y sb) /\
    forall n, rbt n sa -> rbt n sb -> rbt n s1 /\ rbt n fa /\ rbt n fb.
Proof.
  intros Hf Hblack. unfold erase_near_red. pose proof (focus_side _ _ _ _ _ _ _ _ Hf) as Hs.
  destruct (focus_lookup _ _ _ _ _ _ _ _ Hs) as (Hy & _ & _). destruct (kids_color _ _ _ _ _ _ _ _ Hs) as [_ Hfar].
  rewrite Hy. cbn [mbind option_bind]. rewrite child_flip_rb, child_rb, Hfar. cbn [mbind option_bind]. destruct (black sb) eqn:Hbb.
  - rewrite andb_true_r in Hblack. destruct sa as [|ca sl z0 sr]; [done|]. destruct ca; [|done].
    assert (Hmk : exists sc sd, T Red sl z0 sr = mk d Red sc z0 sd) by (destruct d; eauto). destruct Hmk as (sc & sd & Hmk).
    rewrite Hmk in *. rewrite ptr_mk. apply focus_down in Hs.
    destruct (paint_black _ _ _ _ _ _ _ _ Hs) as (h1 & -> & Hf1). cbn [mbind option_bind]. apply focus_up in Hf1.
    destruct (paint_red _ _ _ _ _ _ _ _ Hf1) as (h2 & -> & Hf2). cbn [mbind option_bind].
    destruct (rotate_flip_spec _ _ _ _ _ _ _ _ _ _ _ Hf2) as (h3 & root3 & -> & Hf3). cbn [mbind option_bind]. apply focus_back in Hf3.
    pose proof (focus_up _ _ _ _ _ _ _ _ Hf3) as Hf4.
    destruct (focus_lookup _ _ _ _ _ _ _ _ Hf4) as (Hp & _ & _). rewrite Hp. cbn [mbind option_bind]. rewrite child_flip_rb, ptr_mk.
    exists h3, root3, sc, z0, sd, y, sb. split; [done|]. split; [done|]. split; [destruct d; reorder|].
    intros n Ha Hb. apply rbt_red in Ha as (? & ? & _). done.
  - destruct sb as [|cb sl z0 sr]; [done|]. destruct cb; [|done].
    assert (Hmk : exists fa fb, T Red sl z0 sr = mk d Red fa z0 fb) by (destruct d; eauto). destruct Hmk as (fa & fb & Hmk).
    rewrite Hmk in *. exists h, root, sa, y, fa, z0, fb. split; [done|]. split; [done|]. split; [done|].
    intros n Ha Hb. apply rbt_red in Hb as (? & ? & _). done.
Qed.

Lemma erase_last_spec d h root c p s1 o fa z fb k t :
  focus h root (Frame d c p (mk d Black s1 o (mk d Red fa z fb)) :: k) t ->
  exists h' root', erase_last d h root p o = Some (h', root', o) /\
    focus h' root' k (mk d c (mk d Black t p s1) o (mk d Black fa z fb)).
Proof.
  intros Hf. unfold erase_last. pose proof (focus_up _ _ _ _ _ _ _ _ Hf) as Hup.
  destruct (focus_lookup _ _ _ _ _ _ _ _ Hup) as (Hp & Hq & _). rewrite Hp. cbn [mbind option_bind]. rewrite color_rb by done.
  apply focus_side in Hf. destruct (paint _ _ _ _ _ _ _ _ c Hf) as (h1 & -> & Hf1). cbn [mbind option_bind]. apply focus_back, focus_up in Hf1.
  destruct (paint_black _ _ _ _ _ _ _ _ Hf1) as (h2 & -> & Hf2). cbn [mbind option_bind]. apply focus_down, focus_side in Hf2.
  destruct (focus_lookup _ _ _ _ _ _ _ _ Hf2) as (Ho & _ & _). rewrite Ho. cbn [mbind option_bind]. rewrite child_flip_rb, ptr_mk.
  apply focus_down, focus_side in Hf2.
  destruct (paint_black _ _ _ _ _ _ _ _ Hf2) as (h3 & -> & Hf3). cbn [mbind option_bind]. apply focus_back, focus_up, focus_back, focus_up in Hf3.
  destruct (rotate_spec _ _ _ _ _ _ _ _ _ _ _ Hf3) as (h4 & root4 & -> & Hf4). by exists h4, root4.
Qed.

Lemma erase_black_sibling_spec d h root c p sa y sb k t :
  focus h root (Frame d c p (mk d Black sa y sb) :: k) t ->
  if black sa && black sb then
    exists h', erase_black_sibling d h root p y = Some (Next (h', root, p, par k)) /\
      focus h' root k (mk d c t p (mk d Red sa y sb))
  else
    exists h' root' s1 o fa z fb, erase_black_sibling d h root p y = Some (Done (h', root', root')) /\
      focus h' root' k (mk d c (mk d Black t p s1) o (mk d Black fa z fb)) /\
      addrs (mk d Black s1 o (mk d Red fa z fb)) = addrs (mk d Black sa y sb) /\
      forall n, rbt n sa -> rbt n sb -> rbt n s1 /\ rbt n fa /\ rbt n fb.
Proof.
  intros Hf. unfold erase_black_sibling. pose proof (focus_side _ _ _ _ _ _ _ _ Hf) as Hs.
  destruct (focus_lookup _ _ _ _ _ _ _ _ Hs) as (Hy & _ & _). destruct (kids_color _ _ _ _ _ _ _ _ Hs) as [Ha Hb].
  rewrite Hy. cbn [mbind option_bind].
  assert (Hboth : (bl ← null_or_black h (rb_left (rb d (pack (par (Frame (flip d) c p t :: k)) Black) (ptr sa) (ptr sb)));
      (if bl : bool then null_or_black h (rb_right (rb d (pack (par (Frame (flip d) c p t :: k)) Black) (ptr sa) (ptr sb))) else Some false)) =
      Some (black sa && black sb)).
  { destruct d; simpl; rewrite ?Ha, ?Hb; simpl; by destruct (black sa), (black sb). }
  destruct (null_or_black h (rb_left _)) as [bl|]; [|done]. cbn [mbind option_bind] in *. rewrite Hboth. cbn [mbind option_bind].
  destruct (black sa && black sb) eqn:Hbb.
  - destruct (paint_red _ _ _ _ _ _ _ _ Hs) as (h1 & -> & Hf1). cbn [mbind option_bind]. apply focus_back, focus_up in Hf1.
    destruct (focus_lookup _ _ _ _ _ _ _ _ Hf1) as (Hp & Hq & _). rewrite Hp. cbn [mbind option_bind]. rewrite parent_rb by done. by exists h1.
  - destruct (erase_near_red_spec _ _ _ _ _ _ _ _ _ _ Hf Hbb) as (h1 & root1 & s1 & o & fa & z & fb & -> & Hf1 & Hord & Hrb).
    cbn [mbind option_bind]. destruct (erase_last_spec _ _ _ _ _ _ _ _ _ _ _ _ Hf1) as (h2 & root2 & -> & Hf2). cbn [mbind option_bind].
    by exists h2, root2, s1, o, fa, z, fb.
Qed.

(** A step from a black node below the root starts with the sibling. *)
Lemma erase_step_start h root d c p cs sa y sb k t :
  focus h root (Frame d c p (mk d cs sa y sb) :: k) t -> col t = Black ->
  erase_color_step (h, root, ptr t, p) =
    ('(h, root, other) ← erase_red_sibling d h root p y; erase_black_sibling d h root p other).
Proof.
  intros Hf Hcol. pose proof (not_root _ _ _ _ Hf ltac:(done)) as Hroot%Z.eqb_neq. unfold erase_color_step.
  pose proof (focus_up _ _ _ _ _ _ _ _ Hf) as Hup. destruct (focus_lookup _ _ _ _ _ _ _ _ Hup) as (Hp & Hq & _).
  destruct (kids_color _ _ _ _ _ _ _ _ Hup) as [Ht _]. rewrite Ht. cbn [mbind option_bind]. unfold black. rewrite Hcol, Hroot. cbn [andb negb].
  rewrite Hp. cbn [mbind option_bind]. rewrite (side_of_node _ _ _ _ _ _ _ _ Hf) by (by destruct d). by rewrite child_flip_rb, ptr_mk.
Qed.

Definition erase_goal (fuel : nat) (h : heap) (root node parent : Z) (order : list Z) : Prop :=
  exists h' root' node', loop fuel erase_color_step (h, root, node, parent) = Some (h', root', node') /\
    exists h'', update_if h' node' rb_set_black = Some h'' /\ rb_tree h'' root' order.

(** The loop that ended with the last rotation. *)
Lemma erase_rotated h root k t n order :
  focus h root k t -> rbt n t -> (kcol k = Some Red -> col t = Black) -> kok n k -> t <> E -> order = addrs (plug k t) ->
  exists h', update_if h root rb_set_black = Some h' /\ rb_tree h' root order.
Proof.
  intros Hf Ht Hred Hk Hne ->. destruct (kok_plug n k t Hk Ht Hred) as [[m Hm] _]. apply rep_plug in Hf.
  assert (Hnil : addrs (plug k t) <> []).
  { rewrite plug_order. destruct t as [|c l x r]; [done|]. simpl. intros H. apply (f_equal (@length Z)) in H. rewrite !length_app in H. simpl in H. lia. }
  assert (Hr0 : root <> 0).
  { destruct Hf as [Hr _ _ Ha]. destruct (ptr_in (plug k t)) as [Hp|Hp]; [by rewrite Hp in Hnil|]. rewrite <- Hr.
    rewrite list.Forall_forall in Ha. by apply Ha. }
  apply Z.eqb_neq in Hr0. unfold update_if. rewrite Hr0. apply blacken_root; [|done]. by exists (plug k t), m.
Qed.

Definition erase_tail_goal (fuel : nat) (x : option (ctl (heap * Z * Z * Z) (heap * Z * Z))) (order : list Z) : Prop :=
  exists h' root' node',
    match x with Some (Done r) => Some r | Some (Next st) => loop fuel erase_color_step st | None => None end = Some (h', root', node') /\
    exists h'', update_if h' node' rb_set_black = Some h'' /\ rb_tree h'' root' order.

(** A step with a black sibling.  [IH] goes on one level further up. *)
Lemma erase_tail fuel d h root c p sa y sb k t n order :
  focus h root (Frame d c p (mk d Black sa y sb) :: k) t -> col t = Black -> rbt n t -> rbt n sa -> rbt n sb ->
  match c with Red => kcol k = Some Black /\ kok (S n) k | Black => kok (S (S n)) k end ->
  order = addrs (plug (Frame d c p (mk d Black sa y sb) :: k) t) ->
  (c = Black -> forall h' t', focus h' root k t' -> rbt (S n) t' -> col t' = Black -> order = addrs (plug k t') ->
     erase_goal (S fuel) h' root (ptr t') (par k) order) ->
  erase_tail_goal (S fuel) (erase_black_sibling d h root p y) order.
Proof.
  intros Hf Hcol Ht Ha Hb Hk Horder IH. pose proof (erase_black_sibling_spec _ _ _ _ _ _ _ _ _ _ Hf) as Hstep.
  destruct (black sa && black sb) eqn:Hbb.
  - destruct Hstep as (h1 & Heq & Hf1). unfold erase_tail_goal. rewrite Heq.
    assert (Hord1 : order = addrs (plug k (mk d c t p (mk d Red sa y sb)))).
    { rewrite Horder. cbn [plug]. rewrite !plug_order. by destruct d. }
    apply andb_true_iff in Hbb as [Hba Hbb].
    assert (Hcs : col sa = Black /\ col sb = Black) by (unfold black in *; by destruct (col sa), (col sb)).
    assert (Hsib : rbt n (mk d Red sa y sb)) by (by apply rbt_red; naive_solver). destruct c.
    + destruct Hk as [_ Hk]. destruct (erase_exit h1 root k _ n order Hf1) as (Hex & h2 & Hup & Hres); [by destruct d|done|done|by right; apply col_mk|].
      rewrite ptr_mk in *. rewrite loop_S, Hex. exists h1, root, p. split; [done|]. by exists h2.
    + specialize (IH eq_refl h1 _ Hf1). rewrite ptr_mk in IH. apply IH; [by apply rbt_black; eauto|apply col_mk|done].
  - destruct Hstep as (h1 & root1 & s1 & o & fa & z & fb & Heq & Hf1 & Hord & Hrb). destruct (Hrb n Ha Hb) as (H1 & Hfa & Hfb).
    unfold erase_tail_goal. rewrite Heq. exists h1, root1, root1. split; [done|].
    assert (Hleft : rbt (S n) (mk d Black t p s1)) by (by apply rbt_black; eauto).
    assert (Hright : rbt (S n) (mk d Black fa z fb)) by (by apply rbt_black; eauto).
    assert (Hord1 : order = addrs (plug k (mk d c (mk d Black t p s1) o (mk d Black fa z fb)))).
    { rewrite Horder. cbn [plug]. rewrite !plug_order, rotate_order. f_equal. f_equal. destruct d; simpl in *; by rewrite <- Hord. }
    destruct c.
    + eapply (erase_rotated h1 root1 k _ (S n)); [done|by apply rbt_red; rewrite !col_mk| |by apply Hk|by destruct d|done].
      destruct Hk as [-> _]. done.
    + eapply (erase_rotated h1 root1 k _ (S (S n))); [done|by apply rbt_black; eauto|by rewrite col_mk|done|by destruct d|done].
Qed.

Lemma erase_loop fuel n k t h root order :
  focus h root k t -> short n t -> kok (S n) k -> order = addrs (plug k t) -> (length k + 1 <= fuel)%nat ->
  erase_goal fuel h root (ptr t) (par k) order.
Proof.
  revert n k t h root. induction fuel as [|fuel IH]; intros n k t h root Hf Hs Hk Horder Hfuel; [lia|].
  destruct (decide (k = [] \/ col t = Red)) as [Hexit|Hgo].
  { destruct (erase_exit _ _ _ _ _ _ Hf Hs Hk Horder Hexit) as (Hex & h1 & Hup & Hres). unfold erase_goal. rewrite loop_S, Hex.
    exists h, root, (ptr t). split; [done|]. by exists h1. }
  assert (Hcol : col t = Black) by (destruct (col t); naive_solver).
  assert (Ht : rbt n t) by (destruct t as [|[] l x r]; done). destruct k as [|[d c p s] k]; [naive_solver|]. simpl in Hk. destruct Hk as (Hsib & Hk).
  destruct fuel as [|fuel]; [simpl in Hfuel; lia|].
  assert (Hmk : exists cs sa y sb, s = mk d cs sa y sb).
  { destruct s as [|cs l y r]; [inversion Hsib|]. destruct d; [by exists cs, l, y, r|by exists cs, r, y, l]. }
  destruct Hmk as (cs & sa & y & sb & ->). unfold erase_goal. cbn [par]. rewrite loop_S, (erase_step_start _ _ _ _ _ _ _ _ _ _ _ Hf Hcol).
  destruct (erase_red_sibling_spec _ _ _ _ _ _ _ _ _ _ _ Hf) as (h1 & root1 & Heq & Hf1). rewrite Heq. cbn [mbind option_bind]. destruct cs.
  - destruct c; [by destruct Hk as [Hk _]; rewrite col_mk in Hk|]. apply rbt_red in Hsib as (Hsa & Hsb & Hca & Hcb).
    assert (Hmk : exists na y2 nb, sa = mk d Black na y2 nb /\ rbt n na /\ rbt n nb).
    { destruct sa as [|ca l y2 r]; [inversion Hsa|]. simpl in Hca. subst ca. inversion Hsa; subst. destruct d; [by exists l, y2, r|by exists r, y2, l]. }
    destruct Hmk as (na & y2 & nb & -> & Hna & Hnb). rewrite ptr_mk.
    eapply (erase_tail fuel d h1 root1 Red p na y2 nb _ t n); [done|done|done|done|done| | |done].
    + split; [done|]. simpl. by split.
    + rewrite Horder. cbn [plug]. rewrite !plug_order. destruct d; reorder.
  - destruct Hf1 as [-> ->]. apply rbt_black in Hsib as (n' & Hn' & Hsa & Hsb). injection Hn' as <-.
    eapply (erase_tail fuel d h root c p sa y sb k t n); [done|done|done|done|done| |done|].
    + destruct c; [naive_solver|done].
    + intros -> h' t' Hf' Ht' Hc' Ho'. apply (IH (S n)); [done|by destruct t' as [|[] ? ? ?]|done|done|simpl in Hfuel; lia].
Qed.

Lemma erase_color_spec fuel n k t h root order :
  focus h root k t -> short n t -> kok (S n) k -> order = addrs (plug k t) -> (length k + 1 <= fuel)%nat ->
  exists h' root', __rb_erase_color fuel h root (ptr t) (par k) = Some (h', root') /\ rb_tree h' root' order.
Proof.
  intros Hf Hs Hk Ho Hfuel. destruct (erase_loop fuel n k t h root order Hf Hs Hk Ho Hfuel) as (h1 & root1 & node & Heq & h2 & Hup & Hres).
  unfold __rb_erase_color. rewrite Heq. cbn [mbind option_bind]. rewrite Hup. by exists h2, root1.
Qed.

(** ** Taking a node out *)

Lemma plug_app k k' t : plug (k ++ k') t = plug k' (plug k t).
Proof. revert t. induction k as [|[d c x s] k IH]; intros t; [done|]. apply IH. Qed.

Definition fside (f : frame) : side := match f with Frame d _ _ _ => d end.

(** The way down on one side. *)
Lemma spine d t : t <> E -> exists k c y s, t = plug k (mk d c E y s) /\ Forall (fun f => fside f = d) k.
Proof.
  induction t as [|c l IHl x r IHr]; [done|]. intros _.
  assert (Hmk : exists a b, T c l x r = mk d c a x b /\ (a = E \/ exists k c' y s, a = plug k (mk d c' E y s) /\ Forall (fun f => fside f = d) k)).
  { destruct d; [exists l, r|exists r, l]; (split; [done|]).
    - destruct (decide (l = E)); [by left|by right; apply IHl].
    - destruct (decide (r = E)); [by left|by right; apply IHr]. }
  destruct Hmk as (a & b & -> & [->|(k & c' & y & s & -> & Hk)]).
  - by exists [], c, x, b.
  - exists (k ++ [Frame d c x b]), c', y, s. split; [by rewrite plug_app|]. apply Forall_app. split; [done|by repeat constructor].
Qed.

Lemma plug_not_E k t : t <> E -> plug k t <> E.
Proof. revert t. induction k as [|[d c x s] k IH]; intros t Ht; [done|]. apply IH. by destruct d. Qed.

Lemma focus_ptr h root k t : focus h root k t -> t <> E -> ptr t <> 0.
Proof. intros Hf Ht. destruct t as [|c l x r]; [done|]. by destruct (focus_lookup _ _ _ L _ _ _ _ Hf) as (_ & _ & Hx). Qed.

Lemma descend_spec fuel d h root k K c y s :
  focus h root K (plug k (mk d c E y s)) -> Forall (fun f => fside f = d) k -> (length k < fuel)%nat ->
  descend fuel d h (ptr (plug k (mk d c E y s))) = Some y.
Proof.
  intros Hf Hk Hlen. unfold descend. revert fuel K Hf Hk Hlen. induction k as [|[d' c' x b] k IH] using rev_ind; intros fuel K Hf Hk Hlen.
  - simpl in *. rewrite ptr_mk. destruct (focus_lookup _ _ _ _ _ _ _ _ Hf) as (Hy & _ & _). destruct fuel; [lia|]. rewrite loop_S, Hy.
    cbn [mbind option_bind]. by rewrite child_rb.
  - rewrite length_app in Hlen. simpl in Hlen. apply Forall_app in Hk as [Hk Hd]. apply Forall_cons_iff in Hd as [Hd _]. simpl in Hd. subst d'.
    rewrite plug_app in *. cbn [plug] in *. rewrite ptr_mk. destruct (focus_lookup _ _ _ _ _ _ _ _ Hf) as (Hx & _ & _).
    apply focus_down in Hf. assert (Hne : plug k (mk d c E y s) <> E) by (apply plug_not_E; by destruct d).
    pose proof (focus_ptr _ _ _ _ Hf Hne) as H0%Z.eqb_neq. destruct fuel; [lia|]. rewrite loop_S, Hx. cbn [mbind option_bind].
    rewrite child_rb, H0. eapply IH; [done|done|lia].
Qed.

(** A node with one child at most. *)
Lemma splice_one h root k d c x t :
  focus h root k (mk d c E x t) ->
  update_if h (ptr t) (rb_set_parent (par k)) = Some (reparent (par k) t h) /\
  relink L (reparent (par k) t h) root (par k) x (ptr t) = Some (relinked (reparent (par k) t h) root k (ptr t)) /\
  focus (relinked (reparent (par k) t h) root k (ptr t)).1 (relinked (reparent (par k) t h) root k (ptr t)).2 k t.
Proof.
  intros [Hk Ht Hnd Ha]. pose proof (par_aligned _ _ Ha) as Hq. rewrite ptr_mk in Hk. apply tree_at_mk in Ht as (Hx & _ & Ht).
  rewrite addrs_mk in Hnd, Ha. simpl in Hnd, Ha. apply list.NoDup_cons in Hnd as [Hxn Hnd]. apply Forall_cons_iff in Ha as [Hxa Ha].
  pose proof (proj1 (list.NoDup_app _ _) Hnd) as (Nt & Dt & Nk). pose proof (proj1 (Forall_app _ _ _) Ha) as [At Ak].
  assert (Hk1 : ctx_at (reparent (par k) t h) root x k).
  { eapply ctx_at_agree; [done|]. intros z Hz. apply reparent_ne. set_solver. }
  split; [eapply update_reparent; [done|by apply Hxa|done|done]|]. split.
  - apply relink_spec; [done|done|set_solver|left; apply Hxa].
  - split; [|by eapply tree_at_reparent; [done|done|]; intros z Hz; apply relinked_ne; set_solver|done|done].
    eapply ctx_at_relink; [done|done|]. by intros z Hz.
Qed.

(** The subtree of a context that is in part below another. *)
Lemma focus_app h root k K t : focus h root (k ++ K) t <-> focus h root K (plug k t).
Proof. by rewrite <- !rep_plug, plug_app. Qed.

Lemma update_set_parent h q0 q t :
  tree_at h q0 t -> aligned q0 -> aligned q -> Forall address (addrs t) -> t <> E ->
  update h (ptr t) (rb_set_parent q) = Some (reparent q t h).
Proof.
  intros Ht Hq0 Hq Ha Hne. rewrite <- (update_reparent h q0 q t) by done. unfold update_if.
  assert (ptr t <> 0) as ->%Z.eqb_neq; [|done]. destruct (ptr_in t) as [|Hin]; [done|]. rewrite list.Forall_forall in Ha. by apply Ha.
Qed.

Lemma reparent_cong q t (h h' : heap) z : h !! z = h' !! z -> reparent q t h !! z = reparent q t h' !! z.
Proof. intros Hz. destruct t as [|c l x r]; simpl; [done|]. by destruct (decide (z = x)) as [->|]; simplify_map_eq. Qed.

(** The pointer to a tree does not depend on what is in a hole below its root. *)
Lemma ptr_plug f k t t' : ptr (plug (f :: k) t) = ptr (plug (f :: k) t').
Proof.
  destruct f as [d c x s]. simpl. assert (Hp : ptr (mk d c t x s) = ptr (mk d c t' x s)) by (by rewrite !ptr_mk).
  revert Hp. generalize (mk d c t x s), (mk d c t' x s). induction k as [|[d' c' x' s'] k IH]; intros a b Hab; [done|]. simpl. apply IH. by rewrite !ptr_mk.
Qed.

Section two.
Context (h : heap) (root : Z) (k : list frame) (c : color) (l : tree) (x : Z) (r : tree).
Context (kr : list frame) (cy : color) (y : Z) (yr : tree).
Context (Hf : focus h root k (T c l x r)) (Hl : l <> E) (Hr : r = plug kr (T cy E y yr)) (Hkr : Forall (fun f => fside f = L) kr).

(** The right subtree without its first node. *)
Let r' := plug kr yr.

Lemma addrs_two : addrs r = y :: addrs r' /\ NoDup (x :: y :: addrs l ++ addrs r' ++ kaddrs k) /\
  Forall address (x :: y :: addrs l ++ addrs r' ++ kaddrs k).
Proof using Hf Hr Hkr.
  assert (Hb : before kr = []) by (clear -Hkr; induction kr as [|[[] ? ? ?] kr' IH]; [done|by apply Forall_cons_iff in Hkr as [_ ?]; apply IH|by apply Forall_cons_iff in Hkr as [? _]]).
  assert (Hy : addrs r = y :: addrs r') by (unfold r'; rewrite Hr, !plug_order, Hb; done).
  split; [done|]. destruct Hf as [_ _ Hnd Ha].
  assert (Hp : addrs (T c l x r) ++ kaddrs k ≡ₚ x :: y :: addrs l ++ addrs r' ++ kaddrs k) by (simpl; rewrite Hy; solve_Permutation).
  by rewrite <- Hp.
Qed.

(** The state before the successor is put in the place of its ancestor: [h1] with the
    link of the parent set, and [hm] with the successor taken out of [r]. *)
Lemma two_moved hm :
  let h1 := (relinked h root k y).1 in
  agree (kaddrs k) h1 hm -> agree (addrs l) h hm -> tree_at hm y r' ->
  let h2 := <[y := Rb (pack (par k) c) (ptr r') (ptr l)]> hm in
  update h2 (ptr l) (rb_set_parent y) = Some (reparent y l h2) /\
  focus (reparent y l h2) (relinked h root k y).2 k (T c l y r').
Proof using Hf Hl Hr Hkr.
  intros h1 Ak Al Tr h2. destruct addrs_two as (Hyr & Hnd & Ha). destruct Hf as [Hk (Hx & Tl & _) _ _].
  apply list.NoDup_cons in Hnd as [Hxn Hnd]. pose proof Hnd as Hnd'. apply list.NoDup_cons in Hnd as [Hyn Hnd].
  rewrite !list.NoDup_app in Hnd. destruct Hnd as (Nl & Dl & Nr & Dr & Nk).
  apply Forall_cons_iff in Ha as [Ax Ha]. pose proof Ha as Ha'. apply Forall_cons_iff in Ha as [Ay Ha].
  rewrite !Forall_app in Ha. destruct Ha as (Fl & Fr & Fk).
  assert (Tl2 : tree_at h2 x l).
  { eapply tree_at_agree; [done|]. intros z Hz. unfold h2. rewrite lookup_insert_ne by set_solver. by apply Al. }
  split; [by eapply update_set_parent; try done; apply address_aligned|]. split.
  - eapply ctx_at_relink; [done|done|]. intros z Hz. rewrite reparent_ne by set_solver. unfold h2.
    rewrite lookup_insert_ne by set_solver. by apply Ak.
  - split_and!.
    + rewrite reparent_ne by set_solver. apply lookup_insert_eq.
    + eapply tree_at_reparent; [done|done|by intros z Hz].
    + eapply tree_at_agree; [done|]. intros z Hz. rewrite reparent_ne by set_solver. unfold h2. by rewrite lookup_insert_ne by set_solver.
  - simpl. rewrite <- Permutation_middle. simpl. by rewrite <- app_assoc.
  - simpl. rewrite <- Permutation_middle. simpl. by rewrite <- app_assoc.
Qed.

(** The successor in its old place. *)
Lemma successor_at : h !! y = Some (Rb (pack (par (kr ++ Frame R c x l :: k)) cy) (ptr yr) 0) /\
  tree_at h y yr /\ aligned (par (kr ++ Frame R c x l :: k)) /\ Forall address (addrs yr) /\ NoDup (addrs yr).
Proof using Hf Hr.
  assert (Hfy : focus h root (kr ++ Frame R c x l :: k) (mk L cy E y yr)).
  { apply focus_app. apply focus_down. simpl. by rewrite <- Hr. }
  destruct (focus_lookup _ _ _ _ _ _ _ _ Hfy) as (Hy & Hq & _). destruct Hfy as [_ (_ & _ & Ht) Hnd Ha]. simpl in Hnd, Ha.
  apply list.NoDup_cons in Hnd as [_ Hnd]. apply list.NoDup_app in Hnd as (Hnd & _). apply Forall_cons_iff in Ha as [_ Ha].
  by apply Forall_app in Ha as [Ha _].
Qed.

(** What [erase_two] does before the successor is in place: nothing when it is the right
    child, and otherwise it is taken out of the subtree. *)
Definition two_start (h1 : heap) : option (heap * Z) :=
  s ← h1 !! y;
  if rb_parent s =? x then Some (h1, y)
  else
    h ← update_if h1 (rb_right s) (rb_set_parent (rb_parent s));
    h ← update h (rb_parent s) (set_child L (rb_right s));
    o ← h !! x;
    h ← update h y (set_child R (rb_right o));
    h ← update h (rb_right o) (rb_set_parent y);
    Some (h, rb_parent s).

Lemma two_start_child : kr = [] -> let h1 := (relinked h root k y).1 in
  two_start h1 = Some (h1, y) /\ tree_at h1 y r' /\ agree (addrs l) h h1 /\ h1 !! x = h !! x /\
  exists q, h1 !! y = Some (Rb (pack q cy) (ptr r') 0).
Proof using Hf Hr Hkr Hl.
  intros Hnil h1. destruct addrs_two as (Hyr & Hnd & Ha). destruct successor_at as (Hy & Ty & Hq & _).
  assert (Hsame : forall z, z ∉ kaddrs k -> h1 !! z = h !! z) by (intros; by apply relinked_ne).
  apply list.NoDup_cons in Hnd as [Hxn Hnd]. apply list.NoDup_cons in Hnd as [Hyn Hnd]. rewrite !list.NoDup_app in Hnd.
  destruct Hnd as (Nl & Dl & Nr & Dr & Nk). unfold r' in *. rewrite Hnil in *. simpl in Hy, Hq, Dr, Dl, Hxn, Hyn |- *.
  split; [|split_and!].
  - unfold two_start. rewrite Hsame, Hy by set_solver. cbn [mbind option_bind]. by rewrite parent_pack, Z.eqb_refl.
  - eapply tree_at_agree; [done|]. intros z Hz. apply Hsame. set_solver.
  - intros z Hz. apply Hsame. set_solver.
  - apply Hsame. set_solver.
  - exists x. rewrite Hsame by set_solver. done.
Qed.

Lemma two_start_deep c0 py s0 k0 : kr = Frame L c0 py s0 :: k0 -> let h1 := (relinked h root k y).1 in
  exists hm, two_start h1 = Some (hm, py) /\ tree_at hm y r' /\ agree (addrs l) h hm /\ agree (kaddrs k) h1 hm /\
    hm !! x = h !! x /\ exists q, hm !! y = Some (Rb (pack q cy) (ptr r') 0).
Proof using Hf Hr Hkr Hl.
  intros Hdeep h1. destruct addrs_two as (Hyr & Hnd & Ha). destruct successor_at as (Hy & Ty & Hq & Fyr & Nyr).
  assert (Hsame : forall z, z ∉ kaddrs k -> h1 !! z = h !! z) by (intros; by apply relinked_ne).
  assert (Hfy : focus h root (kr ++ Frame R c x l :: k) (mk L cy E y yr)) by (apply focus_app, focus_down; simpl; by rewrite <- Hr).
  destruct (splice_one _ _ _ _ _ _ _ Hfy) as (_ & _ & HfB).
  assert (Hpy : h !! py = Some (rb L (pack (par (k0 ++ Frame R c x l :: k)) c0) y (ptr s0))).
  { pose proof (fo_ctx _ _ _ _ Hfy) as Hc. rewrite Hdeep in Hc. simpl in Hc. apply Hc. }
  apply focus_app, fo_at in HfB. cbn [par] in HfB. fold r' in HfB.
  assert (Hpar : par (kr ++ Frame R c x l :: k) = py) by (by rewrite Hdeep). rewrite Hpar in *.
  set (hB := (relinked (reparent py yr h) root (kr ++ Frame R c x l :: k) (ptr yr)).1) in *.
  assert (HB : hB = <[py := rb L (pack (par (k0 ++ Frame R c x l :: k)) c0) (ptr yr) (ptr s0)]> (reparent py yr h)) by (unfold hB; by rewrite Hdeep).
  assert (Hin : addrs r' ≡ₚ py :: addrs yr ++ addrs s0 ++ kaddrs k0) by (unfold r'; rewrite addrs_plug, Hdeep; simpl; solve_Permutation).
  assert (Hr'E : r' <> E) by (intros HE; rewrite HE in Hin; simpl in Hin; by apply Permutation_nil_cons in Hin).
  apply list.NoDup_cons in Hnd as [Hxn Hnd]. apply list.NoDup_cons in Hnd as [Hyn Hnd]. rewrite !list.NoDup_app in Hnd.
  destruct Hnd as (Nl & Dl & Nr & Dr & Nk). rewrite !Forall_cons_iff, !Forall_app in Ha. destruct Ha as (Ax & Ay & Fl & Fr & Fk).
  assert (Npy : py ∉ addrs yr) by (rewrite Hin in Nr; apply list.NoDup_cons in Nr as [Hno _]; set_solver).
  assert (Ipy : py ∈ addrs r') by (rewrite Hin; set_solver). assert (Iyr : forall z, z ∈ addrs yr -> z ∈ addrs r') by (intros z; rewrite Hin; set_solver).
  assert (Hpyx : py <> x) by set_solver. assert (Hpyy : py <> y) by set_solver. clear Hin.
  assert (Hptr : ptr r = ptr r') by (unfold r'; rewrite Hr, Hdeep; apply ptr_plug).
  assert (Hx : h !! x = Some (Rb (pack (par k) c) (ptr r) (ptr l))) by apply (fo_at _ _ _ _ Hf).
  unfold two_start. rewrite (Hsame y), Hy by set_solver. cbn [mbind option_bind]. rewrite parent_pack by done.
  rewrite (proj2 (Z.eqb_neq py x)) by done. cbn [rb_right].
  rewrite (update_reparent h1 y py yr); [|eapply tree_at_agree; [done|intros z Hz; apply Hsame; set_solver]|by apply address_aligned|done|done].
  cbn [mbind option_bind]. set (hA := reparent py yr h1).
  assert (HpyA : hA !! py = Some (rb L (pack (par (k0 ++ Frame R c x l :: k)) c0) y (ptr s0))).
  { unfold hA. rewrite reparent_ne, Hsame by set_solver. done. }
  rewrite (update_eq _ _ _ _ HpyA). cbn [mbind option_bind]. rewrite set_child_rb.
  set (hB' := <[py := rb L (pack (par (k0 ++ Frame R c x l :: k)) c0) (ptr yr) (ptr s0)]> hA).
  assert (HBB : forall z, z ∉ kaddrs k -> hB' !! z = hB !! z).
  { intros z Hz. rewrite HB. unfold hB', hA. destruct (decide (z = py)) as [->|Hne]; [by rewrite !lookup_insert_eq|].
    rewrite !lookup_insert_ne by done. apply reparent_cong. by apply Hsame. }
  assert (HxB : hB' !! x = Some (Rb (pack (par k) c) (ptr r) (ptr l))).
  { unfold hB', hA. rewrite lookup_insert_ne, reparent_ne, Hsame by set_solver. done. }
  assert (HyB : hB' !! y = Some (Rb (pack py cy) (ptr yr) 0)).
  { unfold hB', hA. rewrite lookup_insert_ne, reparent_ne, Hsame by set_solver. done. }
  rewrite HxB. cbn [mbind option_bind rb_right]. rewrite (update_eq _ _ _ _ HyB). cbn [mbind option_bind set_child rb_parent_color rb_left].
  set (hC := <[y := Rb (pack py cy) (ptr r) 0]> hB').
  assert (TC : tree_at hC x r').
  { eapply tree_at_agree; [done|]. intros z Hz. unfold hC. rewrite lookup_insert_ne by set_solver. apply HBB. set_solver. }
  rewrite Hptr. rewrite (update_set_parent hC x y r') by (done || by apply address_aligned). cbn [mbind option_bind].
  exists (reparent y r' hC). split; [done|]. split_and!.
  - eapply tree_at_reparent; [done|done|by intros z Hz].
  - intros z Hz. unfold hC, hB', hA. rewrite reparent_ne, !lookup_insert_ne, reparent_ne, Hsame by set_solver. done.
  - intros z Hz. unfold hC, hB', hA. rewrite reparent_ne, !lookup_insert_ne, reparent_ne by set_solver. done.
  - rewrite reparent_ne by set_solver. unfold hC. rewrite lookup_insert_ne by set_solver. by rewrite HxB, Hx.
  - exists py. rewrite reparent_ne by set_solver. unfold hC. rewrite lookup_insert_eq. by rewrite Hptr.
Qed.
End two.

Lemma erase_two_spec h root k c l x r kr cy y yr :
  focus h root k (T c l x r) -> l <> E -> r = plug kr (T cy E y yr) -> Forall (fun f => fside f = L) kr ->
  exists h' root', erase_two h root x y = Some (h', root', ptr yr, par (kr ++ Frame R c y l :: k), code cy) /\
    focus h' root' (kr ++ Frame R c y l :: k) yr.
Proof.
  intros Hf Hl Hr Hkr. destruct (addrs_two h root k c l x r kr cy y yr Hf Hr Hkr) as (_ & Hnd & Ha).
  destruct (successor_at h root k c l x r kr cy y yr Hf Hr) as (Hy & _ & Hq & _).
  destruct (focus_lookup _ _ _ L _ _ _ _ Hf) as (Hx & Hqk & Hx0). set (h1 := (relinked h root k y).1).
  assert (Hmid : exists hm q, two_start x y h1 = Some (hm, par (kr ++ Frame R c y l :: k)) /\ tree_at hm y (plug kr yr) /\
    agree (addrs l) h hm /\ agree (kaddrs k) h1 hm /\ hm !! x = h !! x /\ hm !! y = Some (Rb (pack q cy) (ptr (plug kr yr)) 0)).
  { destruct kr as [|[d0 c0 py s0] k0].
    - destruct (two_start_child h root k c l x r [] cy y yr Hf Hl Hr Hkr eq_refl) as (H1 & H2 & H3 & H4 & q & H5). by exists h1, q.
    - apply Forall_cons_iff in Hkr as Hd. destruct Hd as [Hd _]. simpl in Hd. subst d0.
      destruct (two_start_deep h root k c l x r _ cy y yr Hf Hl Hr Hkr c0 py s0 k0 eq_refl) as (hm & H1 & H2 & H3 & H4 & H5 & q & H6). by exists hm, q. }
  destruct Hmid as (hm & q & Hstart & Tm & Al & Ak & Hxm & Hym).
  destruct (two_moved h root k c l x r kr cy y yr Hf Hl Hr Hkr hm Ak Al Tm) as [Hup Hfoc].
  apply list.NoDup_cons in Hnd as [Hxn Hnd]. apply list.NoDup_cons in Hnd as [Hyn Hnd]. apply Forall_cons_iff in Ha as [_ Ha]. apply Forall_cons_iff in Ha as [_ Ha].
  rewrite !Forall_app in Ha. destruct Ha as (_ & _ & Fk).
  assert (Hy1 : h1 !! y = h !! y) by (apply relinked_ne; set_solver). unfold two_start in Hstart. rewrite Hy1, Hy in Hstart. cbn [mbind option_bind] in Hstart.
  unfold erase_two. rewrite Hx. cbn [mbind option_bind]. rewrite parent_rb by done.
  rewrite (relink_spec L h root k x y); [|apply (fo_ctx _ _ _ _ Hf)|done|set_solver|by left]. fold h1 in Hup, Hfoc |- *. cbn [mbind option_bind].
  rewrite (surjective_pairing (relinked h root k y)). fold h1. rewrite Hy1, Hy. cbn [mbind option_bind]. rewrite color_pack by done.
  cbn [rb_right] in *. rewrite Hstart. cbn [mbind option_bind]. rewrite Hxm, Hx. cbn [mbind option_bind]. rewrite (update_eq _ _ _ _ Hym).
  cbn [mbind option_bind rb rb_left rb_right rb_parent_color set_child with_parent_color]. rewrite Hup. cbn [mbind option_bind].
  eexists _, _. split; [done|]. apply focus_app. apply focus_down. done.
Qed.

(** ** The whole removal *)

Lemma find_node t x : x ∈ addrs t -> exists k c l r, t = plug k (T c l x r).
Proof.
  induction t as [|c l IHl y r IHr]; simpl; [set_solver|]. rewrite elem_of_app, elem_of_cons. intros [Hx|[->|Hx]].
  - destruct (IHl Hx) as (k & c' & l' & r' & ->). exists (k ++ [Frame L c y r]), c', l', r'. by rewrite plug_app.
  - by exists [], c, l, r.
  - destruct (IHr Hx) as (k & c' & l' & r' & ->). exists (k ++ [Frame R c y l]), c', l', r'. by rewrite plug_app.
Qed.

Lemma nodup_split (l1 l2 a b : list Z) x : NoDup (l1 ++ x :: l2) -> l1 ++ x :: l2 = a ++ x :: b -> l1 = a /\ l2 = b.
Proof.
  revert a. induction l1 as [|z l1 IH]; intros [|w a] Hnd Heq; simpl in *; simplify_eq.
  - done.
  - apply list.NoDup_cons in Hnd as [Hno _]. set_solver.
  - apply list.NoDup_cons in Hnd as [Hno _]. set_solver.
  - apply list.NoDup_cons in Hnd as [_ Hnd]. destruct (IH a Hnd) as [-> ->]; [done|]. done.
Qed.

(** Where a node of the listing is in the tree. *)
Lemma locate h root t l1 x l2 :
  rep h root t -> addrs t = l1 ++ x :: l2 ->
  exists k c l r, t = plug k (T c l x r) /\ focus h root k (T c l x r) /\ l1 = before k ++ addrs l /\ l2 = addrs r ++ after k.
Proof.
  intros Hrep Hl. destruct (find_node t x) as (k & c & l & r & ->); [rewrite Hl; set_solver|]. exists k, c, l, r.
  pose proof (rep_nodup _ _ _ Hrep) as Hnd. rewrite Hl in Hnd. split; [done|]. split; [by apply rep_plug|].
  apply (nodup_split l1 l2 _ _ x Hnd). rewrite <- Hl, plug_order. simpl. by rewrite <- !app_assoc.
Qed.

(** The colours around a hole, not the addresses, count. *)
Lemma kok_rename n kr d c x y s k : kok n (kr ++ Frame d c x s :: k) -> kok n (kr ++ Frame d c y s :: k).
Proof.
  revert n. induction kr as [|[d' c' z u] kr IH]; intros n; [done|]. simpl. intros (Hu & Hk). split; [done|]. destruct c'.
  - destruct Hk as (Hcu & Htop & Hk). split; [done|]. split; [by destruct kr as [|[] kr]|by apply IH].
  - by apply IH.
Qed.

Lemma kcol_rename kr d c x y s k : kcol (kr ++ Frame d c x s :: k) = kcol (kr ++ Frame d c y s :: k).
Proof. by destruct kr as [|[] kr]. Qed.

(** The colour of a node with one child at most, and what is left to do when it is gone. *)
Lemma removed_color n d c x t k :
  rbt n (mk d c E x t) -> kok n k -> (kcol k = Some Red -> c = Black) ->
  match c with
  | Black => short 0 t /\ kok 1 k
  | Red => rbt 0 t /\ col t = Black /\ kok 0 k
  end.
Proof.
  intros Hn Hk Hred. destruct c.
  - apply rbt_red in Hn as (HE & Ht & _ & Hc). inversion HE; subst. done.
  - apply rbt_black in Hn as (m & -> & HE & Ht). inversion HE; subst. split; [|done].
    destruct t as [|[] a z b]; [done| |done]. inversion Ht; subst. done.
Qed.

(** Nothing is left to do after a red node. *)
Lemma red_removed h root k t n :
  focus h root k t -> rbt n t -> col t = Black -> kok n k -> rb_tree h root (addrs (plug k t)).
Proof.
  intros Hf Ht Hc Hk. destruct (kok_plug n k t Hk Ht ltac:(done)) as [[m Hm] Hcol]. exists (plug k t), m. rewrite rep_plug.
  split; [done|]. split; [done|]. split; [done|]. by destruct Hcol as [->|].
Qed.

(** The last part of [rb_erase]. *)
Lemma erase_finish fuel h root k d c x t n :
  focus h root k t -> rbt n (mk d c E x t) -> kok n k -> (kcol k = Some Red -> c = Black) -> (length k + 1 <= fuel)%nat ->
  exists h' root', (if code c =? RB_BLACK then __rb_erase_color fuel h root (ptr t) (par k) else Some (h, root)) = Some (h', root') /\
    rb_tree h' root' (addrs (plug k t)).
Proof.
  intros Hf Hn Hk Hred Hfuel. pose proof (removed_color n d c x t k Hn Hk Hred) as Hrem. destruct c; simpl.
  - destruct Hrem as (Ht & Hc & Hk0). exists h, root. split; [done|]. by apply (red_removed h root k t 0).
  - destruct Hrem as (Hs & Hk1). by apply (erase_color_spec fuel 0 k t h root).
Qed.

Lemma erase_one_spec fuel h root k d c x t n :
  focus h root k (mk d c E x t) -> rbt n (mk d c E x t) -> kok n k -> (kcol k = Some Red -> c = Black) -> (length k + 1 <= fuel)%nat ->
  exists h' root', rb_erase fuel h root x = Some (h', root') /\ rb_tree h' root' (addrs (plug k t)).
Proof.
  intros Hf Hn Hk Hred Hfuel. destruct (focus_lookup _ _ _ _ _ _ _ _ Hf) as (Hx & Hq & _).
  destruct (splice_one _ _ _ _ _ _ _ Hf) as (Hup & Hrel & Hf').
  destruct (erase_finish fuel _ _ _ d c x t n Hf' Hn Hk Hred Hfuel) as (h' & root' & Heq & Hres). exists h', root'. split; [|done].
  unfold rb_erase. rewrite Hx. cbn [mbind option_bind].
  assert (Hone : (rb_left (rb d (pack (par k) c) (ptr E) (ptr t)) =? 0) || (rb_right (rb d (pack (par k) c) (ptr E) (ptr t)) =? 0) = true).
  { destruct d; simpl; [done|apply orb_true_r]. }
  assert (Hchild : (if rb_left (rb d (pack (par k) c) (ptr E) (ptr t)) =? 0 then rb_right (rb d (pack (par k) c) (ptr E) (ptr t))
    else rb_left (rb d (pack (par k) c) (ptr E) (ptr t))) = ptr t).
  { destruct d; simpl; [done|]. destruct (Z.eqb_spec (ptr t) 0); [done|done]. }
  rewrite Hone, Hchild, parent_rb, color_rb, Hup by done. cbn [mbind option_bind]. rewrite Hrel.
  rewrite (surjective_pairing (relinked (reparent (par k) t h) root k (ptr t))). cbn [mbind option_bind]. done.
Qed.

Lemma rb_erase_spec fuel h root t n l1 x l2 :
  rep h root t -> rbt n t -> col t = Black -> addrs t = l1 ++ x :: l2 -> enough (length (addrs t)) fuel ->
  exists h' root', rb_erase fuel h root x = Some (h', root') /\ rb_tree h' root' (l1 ++ l2).
Proof.
  intros Hrep Hn Hcol Hl Hfuel. destruct (locate _ _ _ _ _ _ Hrep Hl) as (k & c & l & r & -> & Hf & -> & ->). clear Hrep. rename Hf into Hrep.
  pose proof (depth_enough _ _ _ _ Hn Hcol Hfuel) as Hlen.
  destruct (plug_kok _ _ _ Hn Hcol) as (m & Hm & Hk & Hred).
  destruct (decide (l = E)) as [->|Hle].
  { destruct (erase_one_spec fuel h root k L c x r m Hrep Hm Hk Hred ltac:(lia)) as (h' & root' & Heq & Hres). exists h', root'.
    split; [done|]. rewrite plug_order in Hres. simpl. by rewrite app_nil_r. }
  destruct (decide (r = E)) as [->|Hre].
  { destruct (erase_one_spec fuel h root k R c x l m Hrep Hm Hk Hred ltac:(lia)) as (h' & root' & Heq & Hres). exists h', root'.
    split; [done|]. rewrite plug_order in Hres. simpl. by rewrite <- app_assoc. }
  destruct (spine L r Hre) as (kr & cy & y & yr & Hr & Hkr). simpl in Hr.
  assert (Hplug : plug k (T c l x r) = plug (kr ++ Frame R c x l :: k) (T cy E y yr)) by (rewrite plug_app; simpl; by rewrite <- Hr).
  rewrite Hplug in Hn, Hcol, Hfuel. pose proof (depth_enough _ _ _ _ Hn Hcol Hfuel) as Hlen2. rewrite length_app in Hlen2. simpl in Hlen2.
  destruct (plug_kok _ _ _ Hn Hcol) as (m2 & Hm2 & Hk2 & Hred2).
  destruct (erase_two_spec h root k c l x r kr cy y yr Hrep Hle Hr Hkr) as (h1 & root1 & Htwo & Hf1).
  destruct (erase_finish fuel h1 root1 _ L cy y yr m2 Hf1 Hm2) as (h2 & root2 & Heq & Hres).
  { by eapply kok_rename. }
  { by rewrite (kcol_rename _ _ _ _ x). }
  { rewrite length_app. simpl. lia. }
  exists h2, root2. split.
  - destruct (focus_lookup _ _ _ L _ _ _ _ Hrep) as (Hx & Hq & _). unfold rb_erase. rewrite Hx. cbn [mbind option_bind rb rb_left rb_right].
    pose proof (focus_ptr _ _ _ _ (focus_down _ _ L _ _ _ _ _ Hrep) Hle) as ->%Z.eqb_neq.
    pose proof (focus_ptr _ _ _ _ (focus_down _ _ R _ _ _ _ _ Hrep) Hre) as ->%Z.eqb_neq. cbn [orb].
    pose proof (focus_down _ _ R _ _ _ _ _ Hrep) as Hfr. rewrite Hr in Hfr |- *.
    pose proof (descend_spec fuel L h root kr _ cy y yr Hfr Hkr ltac:(lia)) as Hd. cbn [mk] in Hd. rewrite Hd.
    cbn [mbind option_bind]. rewrite Htwo. done.
  - destruct (addrs_two h root k c l x r kr cy y yr Hrep Hr Hkr) as (Hyr & _). revert Hres. rewrite plug_app. simpl. rewrite plug_order, Hyr. simpl.
    by rewrite <- !app_assoc.
Qed.

(** * Walking *)

(** The first node of a listing seen from side [d]. *)
Definition first (d : side) (l : list Z) : option Z := match d with L => list.head l | R => list.last l end.

Lemma spine_first d k c y s : Forall (fun f => fside f = d) k -> first d (addrs (plug k (mk d c E y s))) = Some y.
Proof.
  intros Hk. rewrite plug_order. destruct d; simpl.
  - assert (before k = []) as -> by (induction k as [|[[] ? ? ?] k IH]; [done|by apply Forall_cons_iff in Hk as [_ ?]; apply IH|by apply Forall_cons_iff in Hk as [? _]]).
    done.
  - assert (after k = []) as -> by (induction k as [|[[] ? ? ?] k IH]; [done|by apply Forall_cons_iff in Hk as [? _]|by apply Forall_cons_iff in Hk as [_ ?]; apply IH]).
    rewrite app_nil_r, app_assoc. apply last_snoc.
Qed.

(** Down from a pointer. *)
Lemma descend_first fuel d h root K t n :
  focus h root K t -> t <> E -> rbt n (plug K t) -> col (plug K t) = Black -> enough (length (addrs (plug K t))) fuel ->
  exists y, descend fuel d h (ptr t) = Some y /\ first d (addrs t) = Some y.
Proof.
  intros Hf Ht Hn Hcol Hfuel. destruct (spine d t Ht) as (k & c & y & s & -> & Hk). rewrite <- plug_app in Hn, Hcol, Hfuel.
  pose proof (depth_enough _ _ _ _ Hn Hcol Hfuel) as Hlen. rewrite length_app in Hlen. exists y.
  split; [eapply descend_spec; [done|done|lia]|by apply spine_first].
Qed.

Lemma rb_end_spec fuel d h root t n :
  rep h root t -> rbt n t -> col t = Black -> enough (length (addrs t)) fuel ->
  rb_end fuel d h root = Some (default 0 (first d (addrs t))).
Proof.
  intros Hrep Hn Hcol Hfuel. unfold rb_end. pose proof (rep_root _ _ _ Hrep) as Hr. apply (rep_plug h root [] t) in Hrep.
  destruct (decide (t = E)) as [->|Hne]; [simpl in Hr; subst root; by destruct d|].
  pose proof (focus_ptr _ _ _ _ Hrep Hne) as H0%Z.eqb_neq. rewrite <- Hr, H0.
  destruct (descend_first fuel d h root [] t n Hrep Hne Hn Hcol Hfuel) as (y & -> & ->). done.
Qed.

(** What is next to a hole on side [d]. *)
Definition beside (d : side) (k : list frame) : option Z := match d with L => list.last (before k) | R => list.head (after k) end.

Lemma ascend_spec fuel d h root k t :
  focus h root k t -> t <> E -> (length k < fuel)%nat -> loop fuel (ascend_step d h) (ptr t) = Some (default 0 (beside d k)).
Proof.
  revert fuel t. induction k as [|[d' c p s] k IH]; intros fuel t Hf Ht Hlen; (destruct fuel as [|fuel]; [lia|]); rewrite loop_S; unfold ascend_step at 1;
    (assert (Hx : exists c l r, h !! ptr t = Some (rb L (pack (par _) c) l r) /\ aligned (par _))
       by (destruct t as [|ct l x r]; [done|]; destruct (focus_lookup _ _ _ L _ _ _ _ Hf) as (Hx & Hq & _); by exists ct, (ptr l), (ptr r)));
    destruct Hx as (ct & lt & rt & Hx & Hq); rewrite Hx; cbn [mbind option_bind]; rewrite parent_rb by done; cbn [par] in *.
  - by destruct d.
  - destruct (focus_distinct _ _ _ _ _ _ _ _ Hf) as (_ & _ & Hd). apply focus_up in Hf.
    destruct (focus_lookup _ _ _ _ _ _ _ _ Hf) as (Hp & _ & Hp0%Z.eqb_neq). rewrite Hp0, Hp. cbn [mbind option_bind].
    destruct (decide (d' = d)) as [->|Hne].
    + rewrite child_rb, Z.eqb_refl. specialize (IH fuel _ Hf). rewrite ptr_mk in IH. rewrite IH; [by destruct d|by destruct d|simpl in Hlen; lia].
    + assert (d = flip d') as -> by (by destruct d, d'). rewrite child_flip_rb.
      assert (ptr t <> ptr s) as ->%Z.eqb_neq by (intros Heq; by destruct (Hd Heq)).
      destruct d'; simpl; [done|]. by rewrite app_assoc, last_snoc.
Qed.

Lemma rb_neighbour_spec fuel d h root t n l1 x l2 :
  rep h root t -> rbt n t -> col t = Black -> addrs t = l1 ++ x :: l2 -> enough (length (addrs t)) fuel ->
  rb_neighbour fuel d h x = Some (default 0 (match d with L => list.last l1 | R => list.head l2 end)).
Proof.
  intros Hrep Hn Hcol Hl Hfuel. destruct (locate _ _ _ _ _ _ Hrep Hl) as (k & c & l & r & -> & Hf & -> & ->). clear Hrep. rename Hf into Hrep.
  pose proof (depth_enough _ _ _ _ Hn Hcol Hfuel) as Hlen.
  assert (Hmk : exists a b, T c l x r = mk d c a x b /\ (match d with L => list.last (before k ++ addrs l) | R => list.head (addrs r ++ after k) end) =
    match first (flip d) (addrs a) with Some y => Some y | None => beside d k end /\ (first (flip d) (addrs a) = None -> a = E)).
  { destruct d; [exists l, r|exists r, l]; (split; [done|]); simpl.
    - split; [rewrite last_app; by destruct (list.last (addrs l))|]. rewrite last_None. destruct l as [|? ? ? ?]; [done|]. intros H. by apply app_eq_nil in H as [_ H].
    - split; [by destruct (addrs r)|]. rewrite head_None. destruct r as [|? ? ? ?]; [done|]. intros H. by apply app_eq_nil in H as [_ H]. }
  destruct Hmk as (a & b & Hmk & -> & HaE). rewrite Hmk in *. destruct (focus_lookup _ _ _ _ _ _ _ _ Hrep) as (Hx & Hq & Hx0).
  unfold rb_neighbour. rewrite Hx. cbn [mbind option_bind]. rewrite parent_rb, child_rb by done.
  assert (par k <> x) as ->%Z.eqb_neq.
  { destruct k as [|[d' c' p s] k]; [by intros <-|]. destruct (focus_distinct _ _ _ _ _ _ _ _ Hrep) as (Hne & _). by rewrite ptr_mk in Hne. }
  pose proof (focus_down _ _ _ _ _ _ _ _ Hrep) as Ha. destruct (decide (a = E)) as [->|Hne].
  - simpl. assert (Hfl : first (flip d) [] = None) by (by destruct d). rewrite Hfl. pose proof (ascend_spec fuel d h root k _ Hrep) as Hasc. rewrite ptr_mk in Hasc.
    apply Hasc; [by destruct d|lia].
  - pose proof (focus_ptr _ _ _ _ Ha Hne) as H0%Z.eqb_neq. rewrite H0. cbn [negb].
    destruct (descend_first fuel (flip d) h root _ a n Ha Hne) as (y & Hy & Hfy); [done|done|done|]. by rewrite Hy, Hfy.
Qed.

(** * Replacing *)

Lemma replace_spec h root k c l v r new :
  focus h root k (T c l v r) -> address new -> new ∉ addrs (T c l v r) ++ kaddrs k ->
  exists h' root', rb_replace_node h root v new = Some (h', root') /\ focus h' root' k (T c l new r).
Proof.
  intros Hf Hnew Hfresh. destruct (focus_lookup _ _ _ L _ _ _ _ Hf) as (Hv & Hq & Hv0). destruct Hf as [Hk (_ & Tl & Tr) Hnd Ha].
  assert (Hp : forall z, addrs (T c l z r) ++ kaddrs k ≡ₚ z :: addrs l ++ addrs r ++ kaddrs k) by (intros; simpl; solve_Permutation).
  rewrite Hp in Hnd, Ha, Hfresh. apply list.NoDup_cons in Hnd as [Hvn Hnd]. apply Forall_cons_iff in Ha as [Av Ha].
  apply not_elem_of_cons in Hfresh as [Hnv Hfresh].
  pose proof (proj1 (list.NoDup_app _ _) Hnd) as (Nl & Dl & Nrk). pose proof (proj1 (list.NoDup_app _ _) Nrk) as (Nr & Dr & Nk).
  pose proof (proj1 (Forall_app _ _ _) Ha) as [Fl Frk]. apply Forall_app in Frk as [Fr Fk].
  set (h1 := (relinked h root k new).1). assert (Hsame : forall z, z ∉ kaddrs k -> h1 !! z = h !! z) by (intros; by apply relinked_ne).
  set (h2 := reparent new l h1). set (h3 := reparent new r h2).
  assert (Tl1 : tree_at h1 v l) by (eapply tree_at_agree; [done|]; intros z Hz; apply Hsame; set_solver).
  assert (Tr2 : tree_at h2 v r).
  { eapply tree_at_agree; [done|]. intros z Hz. unfold h2. rewrite reparent_ne, Hsame by set_solver. done. }
  assert (Hv1 : h1 !! v = Some (rb L (pack (par k) c) (ptr l) (ptr r))) by (rewrite Hsame by set_solver; done).
  assert (Hv3 : h3 !! v = Some (rb L (pack (par k) c) (ptr l) (ptr r))) by (unfold h3, h2; rewrite !reparent_ne by set_solver; done).
  unfold rb_replace_node. rewrite Hv. cbn [mbind option_bind]. rewrite parent_rb by done.
  rewrite (relink_spec L h root k v new); [|done|done|set_solver|by left]. cbn [mbind option_bind].
  rewrite (surjective_pairing (relinked h root k new)). fold h1. rewrite Hv1. cbn [mbind option_bind rb rb_left rb_right].
  rewrite (update_reparent h1 v new l) by (done || by apply address_aligned). cbn [mbind option_bind]. fold h2.
  rewrite (update_reparent h2 v new r) by (done || by apply address_aligned). cbn [mbind option_bind]. fold h3. rewrite Hv3. cbn [mbind option_bind].
  eexists _, _. split; [done|]. split; [|split_and!| |].
  - eapply ctx_at_relink; [done|done|]. intros z Hz. rewrite lookup_insert_ne by set_solver. unfold h3, h2. by rewrite !reparent_ne by set_solver.
  - apply lookup_insert_eq.
  - eapply (tree_at_reparent h1); [done|done|]. intros z Hz. rewrite lookup_insert_ne by set_solver. unfold h3. by rewrite reparent_ne by set_solver.
  - eapply (tree_at_reparent h2); [done|done|]. intros z Hz. rewrite lookup_insert_ne by set_solver. done.
  - rewrite Hp. by apply list.NoDup_cons.
  - rewrite Hp. by apply Forall_cons_iff.
Qed.

(** Colours and shape do not depend on the address. *)
Lemma rbt_rename n c l x y r : rbt n (T c l x r) -> rbt n (T c l y r).
Proof. inversion 1; subst; by constructor. Qed.

Lemma replace_tree h root t n l1 v l2 new :
  rep h root t -> rbt n t -> col t = Black -> addrs t = l1 ++ v :: l2 -> address new -> new ∉ addrs t ->
  exists h' root', rb_replace_node h root v new = Some (h', root') /\ rb_tree h' root' (l1 ++ new :: l2).
Proof.
  intros Hrep Hn Hcol Hl Hnew Hfresh. destruct (locate _ _ _ _ _ _ Hrep Hl) as (k & c & l & r & -> & Hf0 & -> & ->). clear Hrep.
  rewrite addrs_plug in Hfresh. destruct (plug_kok _ _ _ Hn Hcol) as (m & Hm & Hk & Hred).
  destruct (replace_spec _ _ _ _ _ _ _ _ Hf0 Hnew Hfresh) as (h' & root' & Heq & Hf). exists h', root'. split; [done|].
  destruct (kok_plug m k (T c l new r) Hk) as [[m' Hm'] Hc]; [by eapply rbt_rename|done|]. exists (plug k (T c l new r)), m'.
  rewrite rep_plug. split; [done|]. split; [rewrite plug_order; simpl; by rewrite <- !app_assoc|]. split; [done|].
  destruct Hc as [->|]; [|done]. by simpl in *.
Qed.

(** * Properties *)

Lemma before_app k k' : before (k ++ k') = before k' ++ before k.
Proof. induction k as [|[[] c x s] k IH]; simpl; [by rewrite app_nil_r|done|]. rewrite IH. reorder. Qed.

Lemma after_app k k' : after (k ++ k') = after k ++ after k'.
Proof. induction k as [|[[] c x s] k IH]; simpl; [done| |done]. rewrite IH. reorder. Qed.

(** Every place between two nodes of the listing is a link that is null. *)
Lemma gap t l1 l2 : addrs t = l1 ++ l2 -> exists k, t = plug k E /\ before k = l1 /\ after k = l2.
Proof.
  revert l1 l2. induction t as [|c l IHl x r IHr]; intros l1 l2 Hl; simpl in Hl.
  - symmetry in Hl. apply app_eq_nil in Hl as [-> ->]. by exists [].
  - assert (Hcase : (exists m, addrs l = l1 ++ m /\ l2 = m ++ x :: addrs r) \/ (exists m, addrs r = m ++ l2 /\ l1 = addrs l ++ x :: m)).
    { apply app_eq_app in Hl as (m & [[H1 H2]|[H1 H2]]); [left; by exists m|]. destruct m as [|z m]; [|right; simplify_eq/=; by exists m].
      left. exists []. simpl in *. rewrite app_nil_r in *. done. }
    destruct Hcase as [(m & Hm & ->)|(m & Hm & ->)].
    + destruct (IHl _ _ Hm) as (k & -> & Hb & Ha). exists (k ++ [Frame L c x r]). rewrite plug_app, before_app, after_app. simpl.
      split; [done|]. by rewrite Hb, Ha, app_nil_r.
    + destruct (IHr _ _ Hm) as (k & -> & Hb & Ha). exists (k ++ [Frame R c x l]). rewrite plug_app, before_app, after_app. simpl.
      split; [done|]. rewrite Hb, Ha, app_nil_r. by rewrite <- app_assoc.
Qed.

(** The memory of a tree. *)
Fixpoint layout (q : Z) (t : tree) : heap :=
  match t with
  | E => ∅
  | T c l x r => <[x := Rb (pack q c) (ptr r) (ptr l)]> (layout x l ∪ layout x r)
  end.

Definition example_tree : tree := T Black (T Black E 8 E) 16 (T Black (T Red E 20 E) 24 (T Red E 32 E)).
Definition example_heap : heap := layout 0 example_tree.

Lemma example_rep : rep example_heap 16 example_tree.
Proof.
  split; [done| | |].
  - vm_compute. split_and!; done.
  - simpl. by apply (bool_decide_unpack _).
  - simpl. repeat (apply Forall_cons_iff; split; [done|]). done.
Qed.

Lemma example_rbt : rbt 2 example_tree.
Proof. repeat constructor. Qed.

(** The listing of a tree in memory, for examples; [n] bounds the depth. *)
Fixpoint listing (n : nat) (h : heap) (p : Z) : list Z :=
  match n with
  | O => []
  | S n =>
      match h !! p with
      | Some x => listing n h (rb_left x) ++ p :: listing n h (rb_right x)
      | None => []
      end
  end.

(** C8 Insertion.  Every place between two nodes of a red-black tree is a null link.  Linking
    a new node there with [rb_link_node] and calling [rb_insert_color] ends after a number
    of steps logarithmic in the size of the tree and gives a red-black tree again, with the
    new node in that place, all other nodes in their order, and every parent pointer,
    colour and link right: the root is black, no red node has a red child, and all ways
    down have the same number of black nodes. *)
Theorem rb_insert_correct fuel h root t n node :
  rep h root t -> rbt n t -> col t = Black -> address node -> node ∉ addrs t -> enough (length (addrs t)) fuel ->
  (forall l1 l2, addrs t = l1 ++ l2 -> exists k, t = plug k E /\ before k = l1 /\ after k = l2) /\
  (forall k, t = plug k E ->
     exists h1 root1 h2 root2, rb_link_node h root node (par k) (kside k) = Some (h1, root1) /\
       rb_insert_color fuel h1 root1 node = Some (h2, root2) /\ rb_tree h2 root2 (before k ++ node :: after k)).
Proof.
  intros Hrep Hn Hcol Hnode Hnew Hfuel. split; [apply gap|]. intros k Hk. by eapply rb_insert_spec.
Qed.

Lemma rb_insert_correct_witness :
  exists h1 root1 h2 root2, rb_link_node example_heap 16 40 32 R = Some (h1, root1) /\
    rb_insert_color 9 h1 root1 40 = Some (h2, root2) /\ rb_tree h2 root2 [8; 16; 20; 24; 32; 40] /\
    listing 5 h2 root2 = [8; 16; 20; 24; 32; 40] /\ rb_is_red <$> h2 !! 24 = Some true.
Proof.
  destruct (rb_insert_correct 9 example_heap 16 example_tree 2 40 example_rep example_rbt eq_refl) as [_ Hins].
  - done.
  - simpl. by apply (bool_decide_unpack _).
  - vm_compute. lia.
  - destruct (Hins [Frame R Red 32 E; Frame R Black 24 (T Red E 20 E); Frame R Black 16 (T Black E 8 E)] eq_refl)
      as (h1 & root1 & h2 & root2 & Hlink & Hcolor & Htree).
    exists h1, root1, h2, root2. split; [done|]. split; [done|]. split; [done|].
    vm_compute in Hlink. injection Hlink as <- <-. vm_compute in Hcolor. injection Hcolor as <- <-. by vm_compute.
Defined.

(** C9 Removal, replacement and walking.  [rb_erase] of any node ends after a number of steps
    logarithmic in the size of the tree and gives a red-black tree of the other nodes in
    their order, whatever the number of children of the node; the parent pointers, colours
    and links are right.  [rb_replace_node] puts a node in the place of another and keeps the
    rest.  [rb_first] and [rb_last] return the ends of the listing, or null when the tree is
    empty; [rb_next] and [rb_prev] return the neighbours of a node in the listing, or null
    at the ends, in a logarithmic number of steps as well. *)
Theorem rb_erase_correct fuel h root l :
  rb_tree h root l -> enough (length l) fuel ->
  rb_first fuel h root = Some (default 0 (list.head l)) /\
  rb_last fuel h root = Some (default 0 (list.last l)) /\
  (forall l1 x l2, l = l1 ++ x :: l2 ->
     (exists h' root', rb_erase fuel h root x = Some (h', root') /\ rb_tree h' root' (l1 ++ l2)) /\
     rb_next fuel h x = Some (default 0 (list.head l2)) /\
     rb_prev fuel h x = Some (default 0 (list.last l1)) /\
     forall new, address new -> new ∉ l ->
       exists h' root', rb_replace_node h root x new = Some (h', root') /\ rb_tree h' root' (l1 ++ new :: l2)).
Proof.
  intros (t & n & Hrep & <- & Hn & Hcol) Hfuel. split; [by apply (rb_end_spec fuel L h root t n)|].
  split; [by apply (rb_end_spec fuel R h root t n)|]. intros l1 x l2 Hl. split; [by eapply rb_erase_spec|].
  split; [by apply (rb_neighbour_spec fuel R h root t n l1 x l2)|].
  split; [by apply (rb_neighbour_spec fuel L h root t n l1 x l2)|]. intros new Hnew Hfresh. by eapply replace_tree.
Qed.

Lemma rb_erase_correct_witness :
  rb_first 8 example_heap 16 = Some 8 /\ rb_next 8 example_heap 20 = Some 24 /\ rb_prev 8 example_heap 20 = Some 16 /\
  (exists h' root', rb_erase 8 example_heap 16 16 = Some (h', root') /\ rb_tree h' root' [8; 20; 24; 32] /\ root' = 20) /\
  exists h' root', rb_replace_node example_heap 16 24 48 = Some (h', root') /\ rb_tree h' root' [8; 16; 20; 48; 32].
Proof.
  destruct (rb_erase_correct 8 example_heap 16 [8; 16; 20; 24; 32]) as (Hfirst & _ & Hx).
  - exists example_tree, 2%nat. split; [apply example_rep|]. split; [done|]. split; [apply example_rbt|done].
  - vm_compute. lia.
  - split; [done|]. destruct (Hx [8; 16] 20 [24; 32] eq_refl) as (_ & Hn & Hp & _). split; [done|]. split; [done|]. split.
    + destruct (Hx [8] 16 [20; 24; 32] eq_refl) as ((h' & root' & Heq & Htree) & _).
      exists h', root'. split; [done|]. split; [done|]. vm_compute in Heq. by injection Heq.
    + destruct (Hx [8; 16; 20] 24 [32] eq_refl) as (_ & _ & _ & Hrep). apply (Hrep 48); [done|]. by apply (bool_decide_unpack _).
Defined.
