(* ===== verification/Crc.v ===== *)
(** Cyclic redundancy checks: lib/crc16.c, crc-ccitt.c, crc-itu-t.c, crc-t10dif.c,
    crc7.c and crc32.c with the generator of its tables, lib/gen_crc32table.c, and
    the bit reversal of lib/bitrev.c.

    A buffer is the list of the [len] bytes that are read; [crc32_le] and
    [crc32_be] also get its address, since they align it.  The machine is
    little-endian.  A table is a list, and an access outside it [None].

    The theorem: every function returns the remainder of the polynomial division
    of the message by its polynomial, for all messages, start values, alignments
    and table sizes, except that [crc32_be] is wrong when only one of
    [CRC_LE_BITS] and [CRC_BE_BITS] is 8; the functions that take the low bit first
    compute the same on reversed bits. *)
From Stdlib Require Import ZArith Lia Bool.
From stdpp Require Import base numbers list option.
From S2P Require Import Prelude.

Local Open Scope Z_scope.

(** * lib/bitrev.c *)

Definition byte_rev_table : list Z :=
  [0x00; 0x80; 0x40; 0xc0; 0x20; 0xa0; 0x60; 0xe0;
   0x10; 0x90; 0x50; 0xd0; 0x30; 0xb0; 0x70; 0xf0;
   0x08; 0x88; 0x48; 0xc8; 0x28; 0xa8; 0x68; 0xe8;
   0x18; 0x98; 0x58; 0xd8; 0x38; 0xb8; 0x78; 0xf8;
   0x04; 0x84; 0x44; 0xc4; 0x24; 0xa4; 0x64; 0xe4;
   0x14; 0x94; 0x54; 0xd4; 0x34; 0xb4; 0x74; 0xf4;
   0x0c; 0x8c; 0x4c; 0xcc; 0x2c; 0xac; 0x6c; 0xec;
   0x1c; 0x9c; 0x5c; 0xdc; 0x3c; 0xbc; 0x7c; 0xfc;
   0x02; 0x82; 0x42; 0xc2; 0x22; 0xa2; 0x62; 0xe2;
   0x12; 0x92; 0x52; 0xd2; 0x32; 0xb2; 0x72; 0xf2;
   0x0a; 0x8a; 0x4a; 0xca; 0x2a; 0xaa; 0x6a; 0xea;
   0x1a; 0x9a; 0x5a; 0xda; 0x3a; 0xba; 0x7a; 0xfa;
   0x06; 0x86; 0x46; 0xc6; 0x26; 0xa6; 0x66; 0xe6;
   0x16; 0x96; 0x56; 0xd6; 0x36; 0xb6; 0x76; 0xf6;
   0x0e; 0x8e; 0x4e; 0xce; 0x2e; 0xae; 0x6e; 0xee;
   0x1e; 0x9e; 0x5e; 0xde; 0x3e; 0xbe; 0x7e; 0xfe;
   0x01; 0x81; 0x41; 0xc1; 0x21; 0xa1; 0x61; 0xe1;
   0x11; 0x91; 0x51; 0xd1; 0x31; 0xb1; 0x71; 0xf1;
   0x09; 0x89; 0x49; 0xc9; 0x29; 0xa9; 0x69; 0xe9;
   0x19; 0x99; 0x59; 0xd9; 0x39; 0xb9; 0x79; 0xf9;
   0x05; 0x85; 0x45; 0xc5; 0x25; 0xa5; 0x65; 0xe5;
   0x15; 0x95; 0x55; 0xd5; 0x35; 0xb5; 0x75; 0xf5;
   0x0d; 0x8d; 0x4d; 0xcd; 0x2d; 0xad; 0x6d; 0xed;
   0x1d; 0x9d; 0x5d; 0xdd; 0x3d; 0xbd; 0x7d; 0xfd;
   0x03; 0x83; 0x43; 0xc3; 0x23; 0xa3; 0x63; 0xe3;
   0x13; 0x93; 0x53; 0xd3; 0x33; 0xb3; 0x73; 0xf3;
   0x0b; 0x8b; 0x4b; 0xcb; 0x2b; 0xab; 0x6b; 0xeb;
   0x1b; 0x9b; 0x5b; 0xdb; 0x3b; 0xbb; 0x7b; 0xfb;
   0x07; 0x87; 0x47; 0xc7; 0x27; 0xa7; 0x67; 0xe7;
   0x17; 0x97; 0x57; 0xd7; 0x37; 0xb7; 0x77; 0xf7;
   0x0f; 0x8f; 0x4f; 0xcf; 0x2f; 0xaf; 0x6f; 0xef;
   0x1f; 0x9f; 0x5f; 0xdf; 0x3f; 0xbf; 0x7f; 0xff].

Definition bitrev8 (byte : Z) : option Z := aget byte_rev_table byte.

Definition bitrev16 (x : Z) : option Z :=
  lo ← bitrev8 (Z.land x 0xff);
  hi ← bitrev8 (Z.shiftr x 8);
  Some (Z.lor (Z.shiftl lo 8) hi).

Definition bitrev32 (x : Z) : option Z :=
  lo ← bitrev16 (Z.land x 0xffff);
  hi ← bitrev16 (Z.shiftr x 16);
  Some (Z.lor (Z.shiftl lo 16) hi).

(** * The CRCs with a fixed table *)

(** [while (len--) crc = step(crc, *buffer++)]. *)
Fixpoint bytes_loop (step : Z -> Z -> option Z) (crc : Z) (buffer : list Z) : option Z :=
  match buffer with
  | [] => Some crc
  | data :: buffer => crc ← step crc data; bytes_loop step crc buffer
  end.

Definition crc16_table : list Z :=
  [0x0000; 0xc0c1; 0xc181; 0x0140; 0xc301; 0x03c0; 0x0280; 0xc241;
   0xc601; 0x06c0; 0x0780; 0xc741; 0x0500; 0xc5c1; 0xc481; 0x0440;
   0xcc01; 0x0cc0; 0x0d80; 0xcd41; 0x0f00; 0xcfc1; 0xce81; 0x0e40;
   0x0a00; 0xcac1; 0xcb81; 0x0b40; 0xc901; 0x09c0; 0x0880; 0xc841;
   0xd801; 0x18c0; 0x1980; 0xd941; 0x1b00; 0xdbc1; 0xda81; 0x1a40;
   0x1e00; 0xdec1; 0xdf81; 0x1f40; 0xdd01; 0x1dc0; 0x1c80; 0xdc41;
   0x1400; 0xd4c1; 0xd581; 0x1540; 0xd701; 0x17c0; 0x1680; 0xd641;
   0xd201; 0x12c0; 0x1380; 0xd341; 0x1100; 0xd1c1; 0xd081; 0x1040;
   0xf001; 0x30c0; 0x3180; 0xf141; 0x3300; 0xf3c1; 0xf281; 0x3240;
   0x3600; 0xf6c1; 0xf781; 0x3740; 0xf501; 0x35c0; 0x3480; 0xf441;
   0x3c00; 0xfcc1; 0xfd81; 0x3d40; 0xff01; 0x3fc0; 0x3e80; 0xfe41;
   0xfa01; 0x3ac0; 0x3b80; 0xfb41; 0x3900; 0xf9c1; 0xf881; 0x3840;
   0x2800; 0xe8c1; 0xe981; 0x2940; 0xeb01; 0x2bc0; 0x2a80; 0xea41;
   0xee01; 0x2ec0; 0x2f80; 0xef41; 0x2d00; 0xedc1; 0xec81; 0x2c40;
   0xe401; 0x24c0; 0x2580; 0xe541; 0x2700; 0xe7c1; 0xe681; 0x2640;
   0x2200; 0xe2c1; 0xe381; 0x2340; 0xe101; 0x21c0; 0x2080; 0xe041;
   0xa001; 0x60c0; 0x6180; 0xa141; 0x6300; 0xa3c1; 0xa281; 0x6240;
   0x6600; 0xa6c1; 0xa781; 0x6740; 0xa501; 0x65c0; 0x6480; 0xa441;
   0x6c00; 0xacc1; 0xad81; 0x6d40; 0xaf01; 0x6fc0; 0x6e80; 0xae41;
   0xaa01; 0x6ac0; 0x6b80; 0xab41; 0x6900; 0xa9c1; 0xa881; 0x6840;
   0x7800; 0xb8c1; 0xb981; 0x7940; 0xbb01; 0x7bc0; 0x7a80; 0xba41;
   0xbe01; 0x7ec0; 0x7f80; 0xbf41; 0x7d00; 0xbdc1; 0xbc81; 0x7c40;
   0xb401; 0x74c0; 0x7580; 0xb541; 0x7700; 0xb7c1; 0xb681; 0x7640;
   0x7200; 0xb2c1; 0xb381; 0x7340; 0xb101; 0x71c0; 0x7080; 0xb041;
   0x5000; 0x90c1; 0x9181; 0x5140; 0x9301; 0x53c0; 0x5280; 0x9241;
   0x9601; 0x56c0; 0x5780; 0x9741; 0x5500; 0x95c1; 0x9481; 0x5440;
   0x9c01; 0x5cc0; 0x5d80; 0x9d41; 0x5f00; 0x9fc1; 0x9e81; 0x5e40;
   0x5a00; 0x9ac1; 0x9b81; 0x5b40; 0x9901; 0x59c0; 0x5880; 0x9841;
   0x8801; 0x48c0; 0x4980; 0x8941; 0x4b00; 0x8bc1; 0x8a81; 0x4a40;
   0x4e00; 0x8ec1; 0x8f81; 0x4f40; 0x8d01; 0x4dc0; 0x4c80; 0x8c41;
   0x4400; 0x84c1; 0x8581; 0x4540; 0x8701; 0x47c0; 0x4680; 0x8641;
   0x8201; 0x42c0; 0x4380; 0x8341; 0x4100; 0x81c1; 0x8081; 0x4040].

Definition crc16_byte (crc data : Z) : option Z :=
  t ← aget crc16_table (Z.land (Z.lxor crc data) 0xff);
  Some (Z.lxor (Z.shiftr crc 8) t).

Definition crc16 (crc : Z) (buffer : list Z) : option Z := bytes_loop crc16_byte crc buffer.

Definition crc_ccitt_table : list Z :=
  [0x0000; 0x1189; 0x2312; 0x329b; 0x4624; 0x57ad; 0x6536; 0x74bf;
   0x8c48; 0x9dc1; 0xaf5a; 0xbed3; 0xca6c; 0xdbe5; 0xe97e; 0xf8f7;
   0x1081; 0x0108; 0x3393; 0x221a; 0x56a5; 0x472c; 0x75b7; 0x643e;
   0x9cc9; 0x8d40; 0xbfdb; 0xae52; 0xdaed; 0xcb64; 0xf9ff; 0xe876;
   0x2102; 0x308b; 0x0210; 0x1399; 0x6726; 0x76af; 0x4434; 0x55bd;
   0xad4a; 0xbcc3; 0x8e58; 0x9fd1; 0xeb6e; 0xfae7; 0xc87c; 0xd9f5;
   0x3183; 0x200a; 0x1291; 0x0318; 0x77a7; 0x662e; 0x54b5; 0x453c;
   0xbdcb; 0xac42; 0x9ed9; 0x8f50; 0xfbef; 0xea66; 0xd8fd; 0xc974;
   0x4204; 0x538d; 0x6116; 0x709f; 0x0420; 0x15a9; 0x2732; 0x36bb;
   0xce4c; 0xdfc5; 0xed5e; 0xfcd7; 0x8868; 0x99e1; 0xab7a; 0xbaf3;
   0x5285; 0x430c; 0x7197; 0x601e; 0x14a1; 0x0528; 0x37b3; 0x263a;
   0xdecd; 0xcf44; 0xfddf; 0xec56; 0x98e9; 0x8960; 0xbbfb; 0xaa72;
   0x6306; 0x728f; 0x4014; 0x519d; 0x2522; 0x34ab; 0x0630; 0x17b9;
   0xef4e; 0xfec7; 0xcc5c; 0xddd5; 0xa96a; 0xb8e3; 0x8a78; 0x9bf1;
   0x7387; 0x620e; 0x5095; 0x411c; 0x35a3; 0x242a; 0x16b1; 0x0738;
   0xffcf; 0xee46; 0xdcdd; 0xcd54; 0xb9eb; 0xa862; 0x9af9; 0x8b70;
   0x8408; 0x9581; 0xa71a; 0xb693; 0xc22c; 0xd3a5; 0xe13e; 0xf0b7;
   0x0840; 0x19c9; 0x2b52; 0x3adb; 0x4e64; 0x5fed; 0x6d76; 0x7cff;
   0x9489; 0x8500; 0xb79b; 0xa612; 0xd2ad; 0xc324; 0xf1bf; 0xe036;
   0x18c1; 0x0948; 0x3bd3; 0x2a5a; 0x5ee5; 0x4f6c; 0x7df7; 0x6c7e;
   0xa50a; 0xb483; 0x8618; 0x9791; 0xe32e; 0xf2a7; 0xc03c; 0xd1b5;
   0x2942; 0x38cb; 0x0a50; 0x1bd9; 0x6f66; 0x7eef; 0x4c74; 0x5dfd;
   0xb58b; 0xa402; 0x9699; 0x8710; 0xf3af; 0xe226; 0xd0bd; 0xc134;
   0x39c3; 0x284a; 0x1ad1; 0x0b58; 0x7fe7; 0x6e6e; 0x5cf5; 0x4d7c;
   0xc60c; 0xd785; 0xe51e; 0xf497; 0x8028; 0x91a1; 0xa33a; 0xb2b3;
   0x4a44; 0x5bcd; 0x6956; 0x78df; 0x0c60; 0x1de9; 0x2f72; 0x3efb;
   0xd68d; 0xc704; 0xf59f; 0xe416; 0x90a9; 0x8120; 0xb3bb; 0xa232;
   0x5ac5; 0x4b4c; 0x79d7; 0x685e; 0x1ce1; 0x0d68; 0x3ff3; 0x2e7a;
   0xe70e; 0xf687; 0xc41c; 0xd595; 0xa12a; 0xb0a3; 0x8238; 0x93b1;
   0x6b46; 0x7acf; 0x4854; 0x59dd; 0x2d62; 0x3ceb; 0x0e70; 0x1ff9;
   0xf78f; 0xe606; 0xd49d; 0xc514; 0xb1ab; 0xa022; 0x92b9; 0x8330;
   0x7bc7; 0x6a4e; 0x58d5; 0x495c; 0x3de3; 0x2c6a; 0x1ef1; 0x0f78].

Definition crc_ccitt_byte (crc c : Z) : option Z :=
  t ← aget crc_ccitt_table (Z.land (Z.lxor crc c) 0xff);
  Some (Z.lxor (Z.shiftr crc 8) t).

Definition crc_ccitt (crc : Z) (buffer : list Z) : option Z := bytes_loop crc_ccitt_byte crc buffer.

Definition crc_itu_t_table : list Z :=
  [0x0000; 0x1021; 0x2042; 0x3063; 0x4084; 0x50a5; 0x60c6; 0x70e7;
   0x8108; 0x9129; 0xa14a; 0xb16b; 0xc18c; 0xd1ad; 0xe1ce; 0xf1ef;
   0x1231; 0x0210; 0x3273; 0x2252; 0x52b5; 0x4294; 0x72f7; 0x62d6;
   0x9339; 0x8318; 0xb37b; 0xa35a; 0xd3bd; 0xc39c; 0xf3ff; 0xe3de;
   0x2462; 0x3443; 0x0420; 0x1401; 0x64e6; 0x74c7; 0x44a4; 0x5485;
   0xa56a; 0xb54b; 0x8528; 0x9509; 0xe5ee; 0xf5cf; 0xc5ac; 0xd58d;
   0x3653; 0x2672; 0x1611; 0x0630; 0x76d7; 0x66f6; 0x5695; 0x46b4;
   0xb75b; 0xa77a; 0x9719; 0x8738; 0xf7df; 0xe7fe; 0xd79d; 0xc7bc;
   0x48c4; 0x58e5; 0x6886; 0x78a7; 0x0840; 0x1861; 0x2802; 0x3823;
   0xc9cc; 0xd9ed; 0xe98e; 0xf9af; 0x8948; 0x9969; 0xa90a; 0xb92b;
   0x5af5; 0x4ad4; 0x7ab7; 0x6a96; 0x1a71; 0x0a50; 0x3a33; 0x2a12;
   0xdbfd; 0xcbdc; 0xfbbf; 0xeb9e; 0x9b79; 0x8b58; 0xbb3b; 0xab1a;
   0x6ca6; 0x7c87; 0x4ce4; 0x5cc5; 0x2c22; 0x3c03; 0x0c60; 0x1c41;
   0xedae; 0xfd8f; 0xcdec; 0xddcd; 0xad2a; 0xbd0b; 0x8d68; 0x9d49;
   0x7e97; 0x6eb6; 0x5ed5; 0x4ef4; 0x3e13; 0x2e32; 0x1e51; 0x0e70;
   0xff9f; 0xefbe; 0xdfdd; 0xcffc; 0xbf1b; 0xaf3a; 0x9f59; 0x8f78;
   0x9188; 0x81a9; 0xb1ca; 0xa1eb; 0xd10c; 0xc12d; 0xf14e; 0xe16f;
   0x1080; 0x00a1; 0x30c2; 0x20e3; 0x5004; 0x4025; 0x7046; 0x6067;
   0x83b9; 0x9398; 0xa3fb; 0xb3da; 0xc33d; 0xd31c; 0xe37f; 0xf35e;
   0x02b1; 0x1290; 0x22f3; 0x32d2; 0x4235; 0x5214; 0x6277; 0x7256;
   0xb5ea; 0xa5cb; 0x95a8; 0x8589; 0xf56e; 0xe54f; 0xd52c; 0xc50d;
   0x34e2; 0x24c3; 0x14a0; 0x0481; 0x7466; 0x6447; 0x5424; 0x4405;
   0xa7db; 0xb7fa; 0x8799; 0x97b8; 0xe75f; 0xf77e; 0xc71d; 0xd73c;
   0x26d3; 0x36f2; 0x0691; 0x16b0; 0x6657; 0x7676; 0x4615; 0x5634;
   0xd94c; 0xc96d; 0xf90e; 0xe92f; 0x99c8; 0x89e9; 0xb98a; 0xa9ab;
   0x5844; 0x4865; 0x7806; 0x6827; 0x18c0; 0x08e1; 0x3882; 0x28a3;
   0xcb7d; 0xdb5c; 0xeb3f; 0xfb1e; 0x8bf9; 0x9bd8; 0xabbb; 0xbb9a;
   0x4a75; 0x5a54; 0x6a37; 0x7a16; 0x0af1; 0x1ad0; 0x2ab3; 0x3a92;
   0xfd2e; 0xed0f; 0xdd6c; 0xcd4d; 0xbdaa; 0xad8b; 0x9de8; 0x8dc9;
   0x7c26; 0x6c07; 0x5c64; 0x4c45; 0x3ca2; 0x2c83; 0x1ce0; 0x0cc1;
   0xef1f; 0xff3e; 0xcf5d; 0xdf7c; 0xaf9b; 0xbfba; 0x8fd9; 0x9ff8;
   0x6e17; 0x7e36; 0x4e55; 0x5e74; 0x2e93; 0x3eb2; 0x0ed1; 0x1ef0].

Definition crc_itu_t_byte (crc data : Z) : option Z :=
  t ← aget crc_itu_t_table (Z.land (Z.lxor (Z.shiftr crc 8) data) 0xff);
  Some (wrap 16 (Z.lxor (Z.shiftl crc 8) t)).

Definition crc_itu_t (crc : Z) (buffer : list Z) : option Z := bytes_loop crc_itu_t_byte crc buffer.

Definition t10_dif_crc_table : list Z :=
  [0x0000; 0x8bb7; 0x9cd9; 0x176e; 0xb205; 0x39b2; 0x2edc; 0xa56b;
   0xefbd; 0x640a; 0x7364; 0xf8d3; 0x5db8; 0xd60f; 0xc161; 0x4ad6;
   0x54cd; 0xdf7a; 0xc814; 0x43a3; 0xe6c8; 0x6d7f; 0x7a11; 0xf1a6;
   0xbb70; 0x30c7; 0x27a9; 0xac1e; 0x0975; 0x82c2; 0x95ac; 0x1e1b;
   0xa99a; 0x222d; 0x3543; 0xbef4; 0x1b9f; 0x9028; 0x8746; 0x0cf1;
   0x4627; 0xcd90; 0xdafe; 0x5149; 0xf422; 0x7f95; 0x68fb; 0xe34c;
   0xfd57; 0x76e0; 0x618e; 0xea39; 0x4f52; 0xc4e5; 0xd38b; 0x583c;
   0x12ea; 0x995d; 0x8e33; 0x0584; 0xa0ef; 0x2b58; 0x3c36; 0xb781;
   0xd883; 0x5334; 0x445a; 0xcfed; 0x6a86; 0xe131; 0xf65f; 0x7de8;
   0x373e; 0xbc89; 0xabe7; 0x2050; 0x853b; 0x0e8c; 0x19e2; 0x9255;
   0x8c4e; 0x07f9; 0x1097; 0x9b20; 0x3e4b; 0xb5fc; 0xa292; 0x2925;
   0x63f3; 0xe844; 0xff2a; 0x749d; 0xd1f6; 0x5a41; 0x4d2f; 0xc698;
   0x7119; 0xfaae; 0xedc0; 0x6677; 0xc31c; 0x48ab; 0x5fc5; 0xd472;
   0x9ea4; 0x1513; 0x027d; 0x89ca; 0x2ca1; 0xa716; 0xb078; 0x3bcf;
   0x25d4; 0xae63; 0xb90d; 0x32ba; 0x97d1; 0x1c66; 0x0b08; 0x80bf;
   0xca69; 0x41de; 0x56b0; 0xdd07; 0x786c; 0xf3db; 0xe4b5; 0x6f02;
   0x3ab1; 0xb106; 0xa668; 0x2ddf; 0x88b4; 0x0303; 0x146d; 0x9fda;
   0xd50c; 0x5ebb; 0x49d5; 0xc262; 0x6709; 0xecbe; 0xfbd0; 0x7067;
   0x6e7c; 0xe5cb; 0xf2a5; 0x7912; 0xdc79; 0x57ce; 0x40a0; 0xcb17;
   0x81c1; 0x0a76; 0x1d18; 0x96af; 0x33c4; 0xb873; 0xaf1d; 0x24aa;
   0x932b; 0x189c; 0x0ff2; 0x8445; 0x212e; 0xaa99; 0xbdf7; 0x3640;
   0x7c96; 0xf721; 0xe04f; 0x6bf8; 0xce93; 0x4524; 0x524a; 0xd9fd;
   0xc7e6; 0x4c51; 0x5b3f; 0xd088; 0x75e3; 0xfe54; 0xe93a; 0x628d;
   0x285b; 0xa3ec; 0xb482; 0x3f35; 0x9a5e; 0x11e9; 0x0687; 0x8d30;
   0xe232; 0x6985; 0x7eeb; 0xf55c; 0x5037; 0xdb80; 0xccee; 0x4759;
   0x0d8f; 0x8638; 0x9156; 0x1ae1; 0xbf8a; 0x343d; 0x2353; 0xa8e4;
   0xb6ff; 0x3d48; 0x2a26; 0xa191; 0x04fa; 0x8f4d; 0x9823; 0x1394;
   0x5942; 0xd2f5; 0xc59b; 0x4e2c; 0xeb47; 0x60f0; 0x779e; 0xfc29;
   0x4ba8; 0xc01f; 0xd771; 0x5cc6; 0xf9ad; 0x721a; 0x6574; 0xeec3;
   0xa415; 0x2fa2; 0x38cc; 0xb37b; 0x1610; 0x9da7; 0x8ac9; 0x017e;
   0x1f65; 0x94d2; 0x83bc; 0x080b; 0xad60; 0x26d7; 0x31b9; 0xba0e;
   0xf0d8; 0x7b6f; 0x6c01; 0xe7b6; 0x42dd; 0xc96a; 0xde04; 0x55b3].

Definition crc_t10dif_byte (crc data : Z) : option Z :=
  t ← aget t10_dif_crc_table (Z.land (Z.lxor (Z.shiftr crc 8) data) 0xff);
  Some (wrap 16 (Z.lxor (Z.shiftl crc 8) t)).

(** The index is an [unsigned int]: it never reaches a longer length. *)
Definition crc_t10dif (buffer : list Z) : option Z :=
  if zlen buffer <? 2 ^ 32 then bytes_loop crc_t10dif_byte 0 buffer else None.

Definition crc7_syndrome_table : list Z :=
  [0x00; 0x09; 0x12; 0x1b; 0x24; 0x2d; 0x36; 0x3f;
   0x48; 0x41; 0x5a; 0x53; 0x6c; 0x65; 0x7e; 0x77;
   0x19; 0x10; 0x0b; 0x02; 0x3d; 0x34; 0x2f; 0x26;
   0x51; 0x58; 0x43; 0x4a; 0x75; 0x7c; 0x67; 0x6e;
   0x32; 0x3b; 0x20; 0x29; 0x16; 0x1f; 0x04; 0x0d;
   0x7a; 0x73; 0x68; 0x61; 0x5e; 0x57; 0x4c; 0x45;
   0x2b; 0x22; 0x39; 0x30; 0x0f; 0x06; 0x1d; 0x14;
   0x63; 0x6a; 0x71; 0x78; 0x47; 0x4e; 0x55; 0x5c;
   0x64; 0x6d; 0x76; 0x7f; 0x40; 0x49; 0x52; 0x5b;
   0x2c; 0x25; 0x3e; 0x37; 0x08; 0x01; 0x1a; 0x13;
   0x7d; 0x74; 0x6f; 0x66; 0x59; 0x50; 0x4b; 0x42;
   0x35; 0x3c; 0x27; 0x2e; 0x11; 0x18; 0x03; 0x0a;
   0x56; 0x5f; 0x44; 0x4d; 0x72; 0x7b; 0x60; 0x69;
   0x1e; 0x17; 0x0c; 0x05; 0x3a; 0x33; 0x28; 0x21;
   0x4f; 0x46; 0x5d; 0x54; 0x6b; 0x62; 0x79; 0x70;
   0x07; 0x0e; 0x15; 0x1c; 0x23; 0x2a; 0x31; 0x38;
   0x41; 0x48; 0x53; 0x5a; 0x65; 0x6c; 0x77; 0x7e;
   0x09; 0x00; 0x1b; 0x12; 0x2d; 0x24; 0x3f; 0x36;
   0x58; 0x51; 0x4a; 0x43; 0x7c; 0x75; 0x6e; 0x67;
   0x10; 0x19; 0x02; 0x0b; 0x34; 0x3d; 0x26; 0x2f;
   0x73; 0x7a; 0x61; 0x68; 0x57; 0x5e; 0x45; 0x4c;
   0x3b; 0x32; 0x29; 0x20; 0x1f; 0x16; 0x0d; 0x04;
   0x6a; 0x63; 0x78; 0x71; 0x4e; 0x47; 0x5c; 0x55;
   0x22; 0x2b; 0x30; 0x39; 0x06; 0x0f; 0x14; 0x1d;
   0x25; 0x2c; 0x37; 0x3e; 0x01; 0x08; 0x13; 0x1a;
   0x6d; 0x64; 0x7f; 0x76; 0x49; 0x40; 0x5b; 0x52;
   0x3c; 0x35; 0x2e; 0x27; 0x18; 0x11; 0x0a; 0x03;
   0x74; 0x7d; 0x66; 0x6f; 0x50; 0x59; 0x42; 0x4b;
   0x17; 0x1e; 0x05; 0x0c; 0x33; 0x3a; 0x21; 0x28;
   0x5f; 0x56; 0x4d; 0x44; 0x7b; 0x72; 0x69; 0x60;
   0x0e; 0x07; 0x1c; 0x15; 0x2a; 0x23; 0x38; 0x31;
   0x46; 0x4f; 0x54; 0x5d; 0x62; 0x6b; 0x70; 0x79].

(** The index is an [int] and is not masked. *)
Definition crc7_byte (crc data : Z) : option Z :=
  aget crc7_syndrome_table (Z.lxor (Z.shiftl crc 1) data).

Definition crc7 (crc : Z) (buffer : list Z) : option Z := bytes_loop crc7_byte crc buffer.

(** * lib/crc32.c *)

Definition CRCPOLY_LE : Z := 0xedb88320.
Definition CRCPOLY_BE : Z := 0x04c11db7.

(** [___constant_swab32]. *)
Definition swab32 (x : Z) : Z :=
  Z.lor (Z.lor (Z.lor
    (Z.shiftl (Z.land x 0x000000ff) 24) (Z.shiftl (Z.land x 0x0000ff00) 8))
    (Z.shiftr (Z.land x 0x00ff0000) 8)) (Z.shiftr (Z.land x 0xff000000) 24).

(** The table generator, for a table of [2 ^ bits] entries. *)
Definition crc32init_le (bits : Z) : option (list Z) :=
  let size := Z.shiftl 1 bits in
  tab ← aset (replicate (Z.to_nat size) 0) 0 0;
  loop 33 (fun '(tab, i, crc) =>
    if i =? 0 then Some (Done tab)
    else
      let crc := Z.lxor (Z.shiftr crc 1) (if Z.land crc 1 =? 0 then 0 else CRCPOLY_LE) in
      tab ← loop (Z.to_nat size + 1) (fun '(tab, j) =>
        if j <? size then
          v ← aget tab j;
          tab ← aset tab (i + j) (Z.lxor crc v);
          Some (Next (tab, j + 2 * i))
        else Some (Done tab)) (tab, 0);
      Some (Next (tab, Z.shiftr i 1, crc))) (tab, Z.shiftl 1 (bits - 1), 1).

Definition crc32init_be (bits : Z) : option (list Z) :=
  let size := Z.shiftl 1 bits in
  tab ← aset (replicate (Z.to_nat size) 0) 0 0;
  loop 33 (fun '(tab, i, crc) =>
    if i <? size then
      let crc := Z.lxor (u32 (Z.shiftl crc 1)) (if Z.land crc 0x80000000 =? 0 then 0 else CRCPOLY_BE) in
      tab ← for_all 0 i (fun j tab =>
        v ← aget tab j; aset tab (i + j) (Z.lxor crc v)) tab;
      Some (Next (tab, Z.shiftl i 1, crc))
    else Some (Done tab)) (tab, 1, 0x80000000).

(** [DO_CRC(x)] on a little-endian machine. *)
Definition DO_CRC (tab : list Z) (crc x : Z) : option Z :=
  t ← aget tab (Z.land (Z.lxor crc x) 255);
  Some (Z.lxor t (Z.shiftr crc 8)).

(** Bytes up to an address that is a multiple of four. *)
Fixpoint crc32_align (tab : list Z) (addr crc : Z) (b : list Z) : option (Z * list Z) :=
  match b with
  | x :: b' =>
      if negb (Z.land addr 3 =? 0) then crc ← DO_CRC tab crc x; crc32_align tab (addr + 1) crc b'
      else Some (crc, b)
  | [] => Some (crc, b)
  end.

(** Four bytes at a time while there are four. *)
Fixpoint crc32_words (tab : list Z) (crc : Z) (b : list Z) : option (Z * list Z) :=
  match b with
  | x0 :: x1 :: x2 :: x3 :: b' =>
      let w := x0 + Z.shiftl x1 8 + Z.shiftl x2 16 + Z.shiftl x3 24 in
      let crc := Z.lxor crc w in
      crc ← DO_CRC tab crc 0;
      crc ← DO_CRC tab crc 0;
      crc ← DO_CRC tab crc 0;
      crc ← DO_CRC tab crc 0;
      crc32_words tab crc b'
  | _ => Some (crc, b)
  end.

(** The body that [crc32_le] and [crc32_be] have in common at eight bits. *)
Definition crc32_body (tab : list Z) (addr crc : Z) (b : list Z) : option Z :=
  '(crc, b) ← crc32_align tab addr crc b;
  '(crc, b) ← crc32_words tab crc b;
  bytes_loop (DO_CRC tab) crc b.

(** [crc32_le] for [CRC_LE_BITS] 1, 2, 4 and 8. *)
Definition crc32_le (bits addr crc : Z) (p : list Z) : option Z :=
  match bits with
  | 1 =>
      bytes_loop (fun crc x =>
        for_all 0 8 (fun _ crc =>
          Some (Z.lxor (Z.shiftr crc 1) (if Z.land crc 1 =? 0 then 0 else CRCPOLY_LE)))
          (Z.lxor crc x)) crc p
  | 8 => tab ← crc32init_le 8; crc32_body tab addr crc p
  | 4 =>
      tab ← crc32init_le 4;
      bytes_loop (fun crc x =>
        for_all 0 2 (fun _ crc =>
          t ← aget tab (Z.land crc 15); Some (Z.lxor (Z.shiftr crc 4) t)) (Z.lxor crc x)) crc p
  | 2 =>
      tab ← crc32init_le 2;
      bytes_loop (fun crc x =>
        for_all 0 4 (fun _ crc =>
          t ← aget tab (Z.land crc 3); Some (Z.lxor (Z.shiftr crc 2) t)) (Z.lxor crc x)) crc p
  | _ => None
  end.

(** [tobe], which depends on [CRC_LE_BITS] for both tables, and the table of
    [crc32_be] in the generated file. *)
Definition tobe (le_bits x : Z) : Z := if le_bits =? 8 then swab32 x else x.

Definition crc32table_be (le_bits be_bits : Z) : option (list Z) :=
  tab ← crc32init_be be_bits; Some (tobe le_bits <$> (tab : list Z)).

(** [crc32_be] for each [CRC_LE_BITS] and [CRC_BE_BITS]; at eight bits the state is
    swapped on entry and exit. *)
Definition crc32_be (le_bits be_bits addr crc : Z) (p : list Z) : option Z :=
  match be_bits with
  | 1 =>
      bytes_loop (fun crc x =>
        for_all 0 8 (fun _ crc =>
          Some (Z.lxor (u32 (Z.shiftl crc 1)) (if Z.land crc 0x80000000 =? 0 then 0 else CRCPOLY_BE)))
          (Z.lxor crc (Z.shiftl x 24))) crc p
  | 8 =>
      tab ← crc32table_be le_bits 8;
      crc ← crc32_body tab addr (swab32 crc) p;
      Some (swab32 crc)
  | 4 =>
      tab ← crc32table_be le_bits 4;
      bytes_loop (fun crc x =>
        for_all 0 2 (fun _ crc =>
          t ← aget tab (Z.shiftr crc 28); Some (Z.lxor (u32 (Z.shiftl crc 4)) t))
          (Z.lxor crc (Z.shiftl x 24))) crc p
  | 2 =>
      tab ← crc32table_be le_bits 2;
      bytes_loop (fun crc x =>
        for_all 0 4 (fun _ crc =>
          t ← aget tab (Z.shiftr crc 30); Some (Z.lxor (u32 (Z.shiftl crc 2)) t))
          (Z.lxor crc (Z.shiftl x 24))) crc p
  | _ => None
  end.

(** * Polynomials over two elements *)

(** A polynomial is the integer whose bit [k] is the coefficient of x^k.  The
    multiples of [p] are the sums of its shifts. *)
Inductive multiple (p : Z) : Z -> Prop :=
| multiple_zero : multiple p 0
| multiple_add a k : 0 <= k -> multiple p a -> multiple p (Z.lxor a (Z.shiftl p k)).

(** Equality modulo [p]. *)
Definition cong (p a b : Z) : Prop := multiple p (Z.lxor a b).

(** [r] is the remainder of [a] divided by x^w + [poly]. *)
Definition remainder (w poly a r : Z) : Prop := is_word w r /\ cong (Z.lxor (2 ^ w) poly) a r.

(** The bytes of a message, the first one highest. *)
Definition message (bytes : list Z) : Z := foldl (fun a b => Z.lxor (Z.shiftl a 8) b) 0 bytes.

(** What a CRC with start value [crc] divides: the message times x^w, after the
    start value. *)
Definition dividend (w crc : Z) (bytes : list Z) : Z :=
  Z.lxor (Z.shiftl crc (8 * zlen bytes)) (Z.shiftl (message bytes) w).

(** The [n] low bits in opposite order. *)
Fixpoint rev (n : nat) (x : Z) : Z :=
  match n with
  | O => 0
  | S n' => Z.lor (Z.shiftl (Z.b2z (Z.odd x)) (Z.of_nat n')) (rev n' (Z.shiftr x 1))
  end.

(** One step of the division, low bit first and high bit first. *)
Definition step_le (poly crc : Z) : Z := Z.lxor (Z.shiftr crc 1) (if Z.odd crc then poly else 0).
Definition step_be (w poly crc : Z) : Z :=
  wrap w (Z.lxor (Z.shiftl crc 1) (if Z.testbit crc (w - 1) then poly else 0)).

(** ** Congruence *)

Lemma multiple_lxor p a b : multiple p a -> multiple p b -> multiple p (Z.lxor a b).
Proof.
  intros Ha. induction 1 as [|b k Hk Hb IH]; [by rewrite Z.lxor_0_r|].
  rewrite <- Z.lxor_assoc. by constructor.
Qed.

Lemma multiple_shiftl p a k : 0 <= k -> multiple p a -> multiple p (Z.shiftl a k).
Proof.
  intros Hk. induction 1 as [|a j Hj Ha IH]; [rewrite Z.shiftl_0_l; constructor|].
  rewrite Z.shiftl_lxor, Z.shiftl_shiftl by done. constructor; [lia|done].
Qed.

Lemma multiple_self p : multiple p p.
Proof. pose proof (multiple_add p 0 0 ltac:(lia) (multiple_zero p)) as H. by rewrite Z.shiftl_0_r in H. Qed.

#[export] Instance cong_equivalence p : Equivalence (cong p).
Proof.
  unfold cong. split.
  - intros a. rewrite Z.lxor_nilpotent. constructor.
  - intros a b. by rewrite Z.lxor_comm.
  - intros a b c Hab Hbc. pose proof (multiple_lxor _ _ _ Hab Hbc) as H.
    rewrite Z.lxor_assoc, <- (Z.lxor_assoc b b), Z.lxor_nilpotent, Z.lxor_0_l in H. done.
Qed.

#[export] Instance lxor_cong p : Proper (cong p ==> cong p ==> cong p) Z.lxor.
Proof.
  intros a a' Ha b b' Hb. unfold cong in *. pose proof (multiple_lxor _ _ _ Ha Hb) as H.
  replace (Z.lxor (Z.lxor a b) (Z.lxor a' b')) with (Z.lxor (Z.lxor a a') (Z.lxor b b')); [done|].
  rewrite !Z.lxor_assoc. f_equal. rewrite <- !Z.lxor_assoc. f_equal. apply Z.lxor_comm.
Qed.

Lemma shiftl_cong p k a b : 0 <= k -> cong p a b -> cong p (Z.shiftl a k) (Z.shiftl b k).
Proof. intros Hk H. unfold cong in *. rewrite <- Z.shiftl_lxor. by apply multiple_shiftl. Qed.


(** ** Division steps *)

Lemma step_le_lxor poly a b : step_le poly (Z.lxor a b) = Z.lxor (step_le poly a) (step_le poly b).
Proof.
  unfold step_le. rewrite <- !Z.bit0_odd, Z.lxor_spec, Z.shiftr_lxor.
  destruct (Z.testbit a 0), (Z.testbit b 0); simpl; bitwise i Hi;
    destruct (Z.testbit a (i + 1)), (Z.testbit b (i + 1)), (Z.testbit poly i); done.
Qed.

Lemma step_be_lxor w poly a b :
  0 <= w -> step_be w poly (Z.lxor a b) = Z.lxor (step_be w poly a) (step_be w poly b).
Proof.
  intros Hw. unfold step_be. rewrite Z.lxor_spec.
  destruct (Z.testbit a (w - 1)), (Z.testbit b (w - 1)); simpl; bitwise i Hi;
    destruct (i <? w), (Z.testbit a (i - 1)), (Z.testbit b (i - 1)), (Z.testbit poly i); done.
Qed.

Lemma step_be_range w poly c : 0 <= w -> is_word w (step_be w poly c).
Proof. intros. unfold step_be. auto with words. Qed.

Lemma step_le_range w poly c : 0 <= w -> is_word w poly -> is_word w c -> is_word w (step_le poly c).
Proof.
  intros Hw Hp Hc. unfold step_le. apply lxor_range; [done| |destruct (Z.odd c); auto with words].
  unfold is_word in *. rewrite Z.shiftr_div_pow2 by lia. change (2 ^ 1) with 2.
  split; [apply Z.div_pos; lia|]. apply Z.div_lt_upper_bound; lia.
Qed.

Lemma iter_range {A} (P : A -> Prop) (f : A -> A) n x : (forall x, P x -> P (f x)) -> P x -> P (Nat.iter n f x).
Proof. intros Hf Hx. induction n; simpl; auto. Qed.

Lemma iter_lxor (f : Z -> Z) n a b :
  (forall a b, f (Z.lxor a b) = Z.lxor (f a) (f b)) ->
  Nat.iter n f (Z.lxor a b) = Z.lxor (Nat.iter n f a) (Nat.iter n f b).
Proof. intros Hf. induction n as [|n IH]; simpl; [done|]. by rewrite IH, Hf. Qed.

(** A step multiplies by x. *)
Lemma step_be_cong w poly c :
  0 < w -> is_word w poly -> is_word w c ->
  cong (Z.lxor (2 ^ w) poly) (Z.shiftl c 1) (step_be w poly c).
Proof.
  intros Hw Hp Hc. set (p := Z.lxor (2 ^ w) poly).
  assert (E : Z.lxor (Z.shiftl c 1) (step_be w poly c) = if Z.testbit c (w - 1) then p else 0).
  { unfold step_be, p. bitwise i Hi. destruct (Z.lt_ge_cases i w).
    - destruct (Z.testbit c (w - 1)) eqn:E; autorewrite with zbits;
        destruct (Z.testbit c (i - 1)), (Z.testbit poly i); zcases.
    - rewrite (proj2 (Z.ltb_ge i w)) by done. rewrite andb_false_l, xorb_false_r.
      destruct (Z.eq_dec i w) as [->|Hne].
      + destruct (Z.testbit c (w - 1)); autorewrite with zbits; [|done].
        rewrite Z.eqb_refl, (word_bits_high w poly) by (done || lia). done.
      + rewrite (word_bits_high w c) by (done || lia).
        destruct (Z.testbit c (w - 1)); autorewrite with zbits; [|done].
        rewrite (word_bits_high w poly) by (done || lia). zcases. }
  unfold cong. rewrite E. destruct (Z.testbit c (w - 1)); [apply multiple_self|constructor].
Qed.

Lemma iter_be_cong w poly n c :
  0 < w -> is_word w poly -> is_word w c ->
  cong (Z.lxor (2 ^ w) poly) (Z.shiftl c (Z.of_nat n)) (Nat.iter n (step_be w poly) c).
Proof.
  intros Hw Hp Hc. induction n as [|n IH]; [by rewrite Z.shiftl_0_r|].
  rewrite Nat2Z.inj_succ, <- Z.add_1_r, <- Z.shiftl_shiftl by lia.
  etransitivity; [by apply shiftl_cong, IH|]. apply step_be_cong; [done|done|].
  destruct n; [done|]. apply step_be_range. lia.
Qed.

(** ** Remainders are unique *)

Section unique.
Context (w poly : Z) (Hw : 0 < w) (Hp : is_word w poly).
Abbreviation step := (step_be w poly).

(** The sum of the remainders of the monomials of [a] below degree [n]. *)
Fixpoint reduce (n : nat) (a : Z) : Z :=
  match n with
  | O => 0
  | S n' => Z.lxor (reduce n' a) (if Z.testbit a (Z.of_nat n') then Nat.iter n' step 1 else 0)
  end.

Lemma step_0 : step 0 = 0.
Proof using Hw. unfold step_be. rewrite Z.shiftl_0_l, Z.bits_0. unfold wrap. by rewrite Z.lxor_0_l, Z.mod_0_l by lia. Qed.

Lemma reduce_lxor n a b : reduce n (Z.lxor a b) = Z.lxor (reduce n a) (reduce n b).
Proof using Type.
  induction n as [|n IH]; [done|]. cbn [reduce]. rewrite IH, Z.lxor_spec. set (m := Nat.iter n step 1).
  apply Z.bits_inj'. intros i Hi. rewrite !Z.lxor_spec.
  destruct (Z.testbit a (Z.of_nat n)), (Z.testbit b (Z.of_nat n)); simpl; rewrite ?Z.bits_0;
    destruct (Z.testbit (reduce n a) i), (Z.testbit (reduce n b) i), (Z.testbit m i); done.
Qed.

Lemma reduce_ext n m a b :
  (n <= m)%nat -> (forall i, 0 <= i < Z.of_nat n -> Z.testbit a i = Z.testbit b i) ->
  (forall i, Z.of_nat n <= i -> Z.testbit b i = false) -> reduce m b = reduce n a.
Proof using Type.
  intros Hm Hlow Hhigh. induction Hm as [|m Hm IH].
  - clear Hhigh. induction n as [|n IH]; [done|]. cbn [reduce]. rewrite IH by (intros; apply Hlow; lia).
    by rewrite Hlow by lia.
  - cbn [reduce]. rewrite IH, Hhigh by lia. apply Z.lxor_0_r.
Qed.

Lemma reduce_shift n a : reduce (S n) (Z.shiftl a 1) = step (reduce n a).
Proof using Hw.
  induction n as [|n IH].
  - cbn [reduce]. rewrite Z.shiftl_spec, Z.testbit_neg_r by lia. by rewrite step_0.
  - cbn [reduce] in *. rewrite IH, step_be_lxor by lia. f_equal. rewrite Z.shiftl_spec by lia.
    replace (Z.of_nat (S n) - 1) with (Z.of_nat n) by lia. destruct (Z.testbit a (Z.of_nat n)); [done|]. by rewrite step_0.
Qed.

Lemma reduce_shiftl k n a : reduce (k + n) (Z.shiftl a (Z.of_nat k)) = Nat.iter k step (reduce n a).
Proof using Hw.
  induction k as [|k IH]; [by rewrite Z.shiftl_0_r|].
  rewrite Nat2Z.inj_succ, <- Z.add_1_r, <- Z.shiftl_shiftl by lia. rewrite Nat.add_succ_l, reduce_shift, IH. done.
Qed.

Lemma iter_one n : Z.of_nat n < w -> Nat.iter n step 1 = 2 ^ Z.of_nat n.
Proof using Hw.
  induction n as [|n IH]; intros Hn; [done|]. rewrite Nat.iter_succ, IH by lia. unfold step_be.
  rewrite pow2_bits by lia. rewrite (proj2 (Z.eqb_neq _ _)), Z.lxor_0_r by lia.
  rewrite Z.shiftl_mul_pow2, <- Z.pow_add_r by lia. rewrite wrap_small; [f_equal; lia|].
  split; [lia|]. apply Z.pow_lt_mono_r; lia.
Qed.

Lemma reduce_word n a : Z.of_nat n <= w -> reduce n a = wrap (Z.of_nat n) a.
Proof using Hw.
  induction n as [|n IH]; intros Hn; [unfold wrap; by rewrite Z.mod_1_r|].
  cbn [reduce]. rewrite IH, iter_one by lia. apply Z.bits_inj'. intros i Hi.
  rewrite Z.lxor_spec, !wrap_bits by lia.
  assert (E : Z.testbit (if Z.testbit a (Z.of_nat n) then 2 ^ Z.of_nat n else 0) i =
    (Z.of_nat n =? i) && Z.testbit a (Z.of_nat n)).
  { destruct (Z.testbit a (Z.of_nat n)); [rewrite pow2_bits by lia; by rewrite andb_true_r|].
    by rewrite Z.bits_0, andb_false_r. }
  rewrite E. destruct (Z.eqb_spec (Z.of_nat n) i) as [<-|Hne]; simpl.
  - rewrite Z.ltb_irrefl, (proj2 (Z.ltb_lt _ _)) by lia. by destruct (Z.testbit a (Z.of_nat n)).
  - rewrite xorb_false_r. f_equal. zcases.
Qed.

Lemma reduce_divisor : reduce (S (Z.to_nat w)) (Z.lxor (2 ^ w) poly) = 0.
Proof using Hw Hp.
  cbn [reduce]. rewrite reduce_word, Z2Nat.id, Z.lxor_spec, pow2_bits, Z.eqb_refl by lia.
  rewrite (word_bits_high w poly) by (done || lia). simpl.
  replace (Z.to_nat w) with (S (Z.to_nat (w - 1))) by lia. rewrite Nat.iter_succ, iter_one by lia.
  rewrite Z2Nat.id by lia. unfold step_be. rewrite pow2_bits, Z.eqb_refl, Z.shiftl_mul_pow2, <- Z.pow_add_r by lia.
  replace (w - 1 + 1) with w by lia. apply Z.lxor_nilpotent.
Qed.

(** Multiples reduce to nothing. *)
Lemma reduce_multiple a :
  multiple (Z.lxor (2 ^ w) poly) a -> exists n, forall m, (n <= m)%nat -> reduce m a = 0.
Proof using Hw Hp.
  set (p := Z.lxor (2 ^ w) poly). induction 1 as [|a k Hk Ha [n IH]].
  - exists 0%nat. intros m _. induction m as [|m IH]; [done|]. cbn [reduce]. by rewrite IH, Z.bits_0.
  - exists (Nat.max n (Z.to_nat k + S (Z.to_nat w))). intros m Hm. rewrite reduce_lxor, IH, Z.lxor_0_l by lia.
    rewrite (reduce_ext (Z.to_nat k + S (Z.to_nat w)) m (Z.shiftl p k)); [| lia|done|].
    + rewrite <- (Z2Nat.id k) at 2 by lia. rewrite reduce_shiftl. unfold p. rewrite reduce_divisor.
      generalize (Z.to_nat k). intros j. clear - Hw. induction j as [|j IHj]; [done|]. rewrite Nat.iter_succ, IHj. apply step_0.
    + intros i Hi. rewrite Z.shiftl_spec by lia. unfold p. rewrite Z.lxor_spec, pow2_bits by lia.
      rewrite (word_bits_high w poly) by (done || lia). zcases.
Qed.

Lemma remainder_unique a r r' : remainder w poly a r -> remainder w poly a r' -> r = r'.
Proof using Hw Hp.
  intros [Hr Ha] [Hr' Ha']. assert (H : cong (Z.lxor (2 ^ w) poly) r r') by (by rewrite <- Ha, <- Ha').
  destruct (reduce_multiple _ H) as [n Hn]. apply Z.lxor_eq.
  assert (Hx : is_word w (Z.lxor r r')) by (apply lxor_range; [lia|done|done]).
  rewrite <- (wrap_small w (Z.lxor r r') Hx). replace w with (Z.of_nat (Z.to_nat w)) at 1 by lia.
  rewrite <- reduce_word by lia. rewrite <- (reduce_ext _ (Nat.max n (Z.to_nat w)) _ (Z.lxor r r')); [apply Hn; lia|lia|done|].
  intros i Hi. apply (word_bits_high w); [done|lia].
Qed.
End unique.

(** ** Several bits at a time *)

Lemma iter_le_high poly n h : Nat.iter n (step_le poly) (Z.shiftl h (Z.of_nat n)) = h.
Proof.
  revert h. induction n as [|n IH]; intros h; [apply Z.shiftl_0_r|].
  rewrite Nat.iter_succ_r. replace (step_le poly (Z.shiftl h (Z.of_nat (S n)))) with (Z.shiftl h (Z.of_nat n)); [apply IH|].
  unfold step_le. rewrite <- Z.bit0_odd, Z.shiftl_spec, Z.testbit_neg_r, Z.lxor_0_r by lia.
  rewrite Z.shiftr_shiftl_l by lia. f_equal. lia.
Qed.

(** [n] bits of the low end, looked up. *)
Lemma iter_le_split poly n c :
  Nat.iter n (step_le poly) c =
  Z.lxor (Z.shiftr c (Z.of_nat n)) (Nat.iter n (step_le poly) (Z.land c (Z.ones (Z.of_nat n)))).
Proof.
  assert (E : c = Z.lxor (Z.shiftl (Z.shiftr c (Z.of_nat n)) (Z.of_nat n)) (Z.land c (Z.ones (Z.of_nat n)))).
  { bitwise i Hi. destruct (Z.lt_ge_cases i (Z.of_nat n)).
    - rewrite (Z.testbit_neg_r _ (i - Z.of_nat n)) by lia. rewrite (proj2 (Z.ltb_lt _ _)) by done. by destruct (Z.testbit c i).
    - rewrite Z.shiftr_spec by lia. rewrite (proj2 (Z.ltb_ge _ _)) by done. autorewrite with zbits. f_equal. lia. }
  rewrite E at 1. rewrite iter_lxor by apply step_le_lxor. by rewrite iter_le_high.
Qed.

Lemma iter_be_low w poly n x :
  Z.of_nat n <= w -> is_word (w - Z.of_nat n) x -> Nat.iter n (step_be w poly) x = Z.shiftl x (Z.of_nat n).
Proof.
  revert x. induction n as [|n IH]; intros x Hn Hx; [by rewrite Z.shiftl_0_r|].
  rewrite Nat.iter_succ_r. assert (E : step_be w poly x = Z.shiftl x 1).
  { unfold step_be. rewrite (word_bits_high _ x (w - 1) Hx) by lia. rewrite Z.lxor_0_r. apply wrap_small.
    unfold is_word in *. rewrite Z.shiftl_mul_pow2 by lia. split; [lia|].
    apply (Z.lt_le_trans _ (2 ^ (w - Z.of_nat (S n)) * 2 ^ 1)); [lia|].
    rewrite <- Z.pow_add_r by lia. apply Z.pow_le_mono_r; lia. }
  rewrite E, IH; [|lia|].
  - rewrite Z.shiftl_shiftl by lia. f_equal. lia.
  - unfold is_word in *. rewrite Z.shiftl_mul_pow2 by lia.
    replace (w - Z.of_nat n) with (w - Z.of_nat (S n) + 1) by lia. rewrite Z.pow_add_r by lia. lia.
Qed.

(** [n] bits of the high end, looked up. *)
Lemma iter_be_split w poly n c :
  Z.of_nat n <= w -> is_word w c ->
  Nat.iter n (step_be w poly) c =
  Z.lxor (wrap w (Z.shiftl c (Z.of_nat n)))
    (Nat.iter n (step_be w poly) (Z.shiftl (Z.shiftr c (w - Z.of_nat n)) (w - Z.of_nat n))).
Proof.
  intros Hn Hc. set (k := w - Z.of_nat n).
  assert (E : c = Z.lxor (wrap k c) (Z.shiftl (Z.shiftr c k) k)).
  { bitwise i Hi. destruct (Z.lt_ge_cases i k).
    - rewrite (Z.testbit_neg_r _ (i - k)) by lia. rewrite (proj2 (Z.ltb_lt _ _)) by done. by destruct (Z.testbit c i).
    - rewrite Z.shiftr_spec by lia. rewrite (proj2 (Z.ltb_ge _ _)) by done. autorewrite with zbits. f_equal. lia. }
  rewrite E at 1. rewrite iter_lxor by (intros; apply step_be_lxor; lia). f_equal.
  rewrite iter_be_low by (lia || apply wrap_range; lia).
  apply Z.bits_inj'; intros i Hi. rewrite (wrap_bits w) by lia. rewrite !Z.shiftl_spec by lia.
  destruct (Z.lt_ge_cases i (Z.of_nat n)); [by rewrite !Z.testbit_neg_r, andb_false_r by lia|].
  rewrite wrap_bits by lia. f_equal. unfold k. zcases.
Qed.

(** ** Reversal *)

Lemma rev_bits n x i : 0 <= i -> Z.testbit (rev n x) i = (i <? Z.of_nat n) && Z.testbit x (Z.of_nat n - 1 - i).
Proof.
  revert x. induction n as [|n IH]; intros x Hi; [rewrite Z.bits_0; simpl; zcases|].
  cbn [rev]. rewrite Z.lor_spec, Z.shiftl_spec, IH by done.
  destruct (Z.lt_trichotomy i (Z.of_nat n)) as [Hlt|[->|Hgt]].
  - rewrite Z.testbit_neg_r, (proj2 (Z.ltb_lt _ _)), (proj2 (Z.ltb_lt _ _)), Z.shiftr_spec by lia.
    simpl. f_equal. lia.
  - rewrite Z.sub_diag, Z.ltb_irrefl, (proj2 (Z.ltb_lt _ _)) by lia. rewrite orb_false_r.
    replace (Z.of_nat (S n) - 1 - Z.of_nat n) with 0 by lia. rewrite <- Z.bit0_odd. by destruct (Z.testbit x 0).
  - rewrite !(proj2 (Z.ltb_ge _ _)) by lia. rewrite orb_false_r.
    destruct (Z.odd x); simpl; [|apply Z.bits_0]. apply (word_bits_high 1); [done|lia].
Qed.


Lemma rev_range n x : is_word (Z.of_nat n) (rev n x).
Proof.
  apply is_word_bits; [lia| |].
  - revert x. induction n as [|n IH]; intros x; [done|]. cbn [rev]. apply Z.lor_nonneg. split; [|apply IH].
    apply Z.shiftl_nonneg. by destruct (Z.odd x).
  - intros i Hi. rewrite rev_bits by lia. zcases.
Qed.

Lemma rev_rev n x : is_word (Z.of_nat n) x -> rev n (rev n x) = x.
Proof.
  intros Hx. apply Z.bits_inj'. intros i Hi. rewrite rev_bits by done. destruct (Z.ltb_spec i (Z.of_nat n)); simpl.
  - rewrite rev_bits by lia. rewrite (proj2 (Z.ltb_lt _ _)) by lia. simpl. f_equal. lia.
  - symmetry. by apply (word_bits_high (Z.of_nat n)); [|lia].
Qed.

Lemma rev_lxor n a b : rev n (Z.lxor a b) = Z.lxor (rev n a) (rev n b).
Proof.
  apply Z.bits_inj'. intros i Hi. rewrite Z.lxor_spec, !rev_bits, Z.lxor_spec by done. by destruct (i <? Z.of_nat n).
Qed.

(** A byte is at the other end after reversal. *)
Lemma rev_byte n b : (8 <= n)%nat -> is_word 8 b -> rev n b = Z.shiftl (rev 8 b) (Z.of_nat n - 8).
Proof.
  intros Hn Hb. apply Z.bits_inj'. intros i Hi. rewrite Z.shiftl_spec, rev_bits by done.
  destruct (Z.lt_ge_cases i (Z.of_nat n - 8)).
  - rewrite (Z.testbit_neg_r (rev 8 b)), (word_bits_high 8 b) by (done || lia). apply andb_false_r.
  - rewrite rev_bits by lia. f_equal; [zcases|]. f_equal. lia.
Qed.

Lemma rev_step n poly c :
  is_word (Z.of_nat n) c -> rev n (step_le (rev n poly) c) = step_be (Z.of_nat n) poly (rev n c).
Proof.
  intros Hc. apply Z.bits_inj'. intros i Hi. unfold step_be. rewrite wrap_bits, rev_bits by lia.
  destruct (Z.ltb_spec i (Z.of_nat n)); [simpl|done].
  unfold step_le. rewrite !Z.lxor_spec, Z.shiftr_spec, Z.shiftl_spec by lia. f_equal.
  - destruct (Z.eq_dec i 0) as [->|Hne].
    + rewrite (Z.testbit_neg_r (rev n c)), (word_bits_high _ c) by (done || lia). done.
    + rewrite rev_bits, (proj2 (Z.ltb_lt _ _)) by lia. simpl. f_equal. lia.
  - rewrite rev_bits, (proj2 (Z.ltb_lt _ _)) by lia. simpl.
    replace (Z.of_nat n - 1 - (Z.of_nat n - 1)) with 0 by lia. rewrite Z.bit0_odd.
    destruct (Z.odd c); [|by rewrite !Z.bits_0].
    rewrite rev_bits, (proj2 (Z.ltb_lt _ _)) by lia. simpl. f_equal. lia.
Qed.

Lemma rev_iter n poly k c :
  is_word (Z.of_nat n) c ->
  rev n (Nat.iter k (step_le (rev n poly)) c) = Nat.iter k (step_be (Z.of_nat n) poly) (rev n c).
Proof.
  intros Hc. induction k as [|k IH]; simpl; [done|]. rewrite rev_step, IH; [done|].
  apply iter_range; [|done]. intros. apply step_le_range; [lia|apply rev_range|done].
Qed.

(** ** Tables *)

Lemma table_get (f : Z -> Z) n i : 0 <= i < n -> aget (f <$> seqZ 0 n) i = Some (f i).
Proof.
  intros Hi. rewrite aget_lookup, list_lookup_fmap, lookup_seqZ_lt by lia. simpl. do 2 f_equal. lia.
Qed.

(** The entries of a table indexed by low bits and by high bits. *)
Definition table_le (poly : Z) (n : nat) : list Z := Nat.iter n (step_le poly) <$> seqZ 0 (2 ^ Z.of_nat n).
Definition table_be (w poly : Z) (n : nat) : list Z :=
  (fun i => Nat.iter n (step_be w poly) (Z.shiftl i (w - Z.of_nat n))) <$> seqZ 0 (2 ^ Z.of_nat n).

Lemma land_ones_range c n : 0 <= Z.land c (Z.ones (Z.of_nat n)) < 2 ^ Z.of_nat n.
Proof. rewrite Z.land_ones by lia. apply Z.mod_pos_bound. lia. Qed.

Lemma table_le_get poly n c :
  exists t, aget (table_le poly n) (Z.land c (Z.ones (Z.of_nat n))) = Some t /\
    Z.lxor (Z.shiftr c (Z.of_nat n)) t = Nat.iter n (step_le poly) c.
Proof.
  eexists. split; [apply table_get, land_ones_range|]. symmetry. apply iter_le_split.
Qed.

Lemma shiftr_range w n c : 0 <= n <= w -> is_word w c -> is_word n (Z.shiftr c (w - n)).
Proof.
  intros Hn [Hc0 Hc1]. unfold is_word. rewrite Z.shiftr_div_pow2 by lia. split; [by apply Z.div_pos; lia|].
  apply Z.div_lt_upper_bound; [lia|]. rewrite <- Z.pow_add_r by lia. by replace (w - n + n) with w by lia.
Qed.

Lemma table_be_get w poly n c :
  Z.of_nat n <= w -> is_word w c ->
  exists t, aget (table_be w poly n) (Z.shiftr c (w - Z.of_nat n)) = Some t /\
    Z.lxor (wrap w (Z.shiftl c (Z.of_nat n))) t = Nat.iter n (step_be w poly) c.
Proof.
  intros Hn Hc. eexists. split; [apply table_get, shiftr_range; [lia|done]|]. symmetry. by apply iter_be_split.
Qed.

Lemma byte_rev_table_eq : byte_rev_table = rev 8 <$> seqZ 0 256.
Proof. by vm_compute. Qed.

Lemma crc16_table_eq : crc16_table = table_le (rev 16 0x8005) 8.
Proof. by vm_compute. Qed.

Lemma crc_ccitt_table_eq : crc_ccitt_table = table_le (rev 16 0x1021) 8.
Proof. by vm_compute. Qed.

Lemma crc_itu_t_table_eq : crc_itu_t_table = table_be 16 0x1021 8.
Proof. by vm_compute. Qed.

Lemma t10_dif_crc_table_eq : t10_dif_crc_table = table_be 16 0x8bb7 8.
Proof. by vm_compute. Qed.

(** The generated tables have the entries of the bitwise code. *)
Lemma crc32init_le_eq bits : In bits [2; 4; 8] -> crc32init_le bits = Some (table_le CRCPOLY_LE (Z.to_nat bits)).
Proof. intros [<-|[<-|[<-|[]]]]; by vm_compute. Qed.

Lemma crc32init_be_eq bits : In bits [2; 4; 8] -> crc32init_be bits = Some (table_be 32 CRCPOLY_BE (Z.to_nat bits)).
Proof. intros [<-|[<-|[<-|[]]]]; by vm_compute. Qed.

(** ** One byte *)

(** What a function that takes a byte high bit first has to do, and one that takes
    it low bit first. *)
Definition divides_byte (w poly : Z) (f : Z -> Z -> option Z) : Prop :=
  forall c b, is_word w c -> is_word 8 b ->
    exists c', f c b = Some c' /\ is_word w c' /\
      cong (Z.lxor (2 ^ w) poly) (Z.lxor (Z.shiftl c 8) (Z.shiftl b w)) c'.
Definition reads_byte (n : nat) (poly : Z) (f : Z -> Z -> option Z) : Prop :=
  forall c b, is_word (Z.of_nat n) c -> is_word 8 b ->
    f c b = Some (Nat.iter 8 (step_le (rev n poly)) (Z.lxor c b)).

Lemma byte_word w b : 8 <= w -> is_word 8 b -> is_word w b.
Proof. intros Hw [? Hb]. split; [done|]. eapply Z.lt_le_trans; [done|]. apply Z.pow_le_mono_r; lia. Qed.

Lemma byte_shiftr b : is_word 8 b -> Z.shiftr b 8 = 0.
Proof. intros Hb. apply Z.bits_inj'. intros i Hi. rewrite Z.shiftr_spec, Z.bits_0 by done. by apply (word_bits_high 8); [|lia]. Qed.

Lemma shifted_byte_word w b : 8 <= w -> is_word 8 b -> is_word w (Z.shiftl b (w - 8)).
Proof.
  intros Hw [? Hb]. unfold is_word. rewrite Z.shiftl_mul_pow2 by lia. assert (E : 2 ^ w = 2 ^ 8 * 2 ^ (w - 8)) by (rewrite <- Z.pow_add_r by lia; f_equal; lia).
  pose proof (Z.pow_pos_nonneg 2 (w - 8)). nia.
Qed.

(** Eight steps high bit first take one byte. *)
Lemma iter_be_byte w poly c b :
  8 <= w -> is_word w poly -> is_word w c -> is_word 8 b ->
  let c' := Nat.iter 8 (step_be w poly) (Z.lxor c (Z.shiftl b (w - 8))) in
  is_word w c' /\ cong (Z.lxor (2 ^ w) poly) (Z.lxor (Z.shiftl c 8) (Z.shiftl b w)) c'.
Proof.
  intros Hw Hp Hc Hb c'.
  assert (Hx : is_word w (Z.lxor c (Z.shiftl b (w - 8)))) by (apply lxor_range; [lia|done|by apply shifted_byte_word]).
  split; [apply (step_be_range w poly); lia|].
  replace (Z.lxor (Z.shiftl c 8) (Z.shiftl b w)) with (Z.shiftl (Z.lxor c (Z.shiftl b (w - 8))) (Z.of_nat 8)).
  - apply iter_be_cong; [lia|done|done].
  - rewrite Z.shiftl_lxor, Z.shiftl_shiftl by lia. do 2 f_equal. lia.
Qed.

Lemma table_be_byte (f : Z -> Z -> option Z) w poly tab :
  8 <= w -> is_word w poly -> tab = table_be w poly 8 ->
  (forall c b, f c b = t ← aget tab (Z.land (Z.lxor (Z.shiftr c (w - 8)) b) 0xff);
     Some (wrap w (Z.lxor (Z.shiftl c 8) t))) ->
  divides_byte w poly f.
Proof.
  intros Hw Hp -> Hf c b Hc Hb. rewrite Hf.
  set (x := Z.lxor c (Z.shiftl b (w - 8))).
  assert (Hx : is_word w x) by (apply lxor_range; [lia|done|by apply shifted_byte_word]).
  assert (Ei : Z.land (Z.lxor (Z.shiftr c (w - 8)) b) 0xff = Z.shiftr x (w - Z.of_nat 8)).
  { change (w - Z.of_nat 8) with (w - 8). unfold x. rewrite Z.shiftr_lxor, Z.shiftr_shiftl_l by lia.
    rewrite Z.sub_diag, Z.shiftl_0_r. change 0xff with (Z.ones 8). rewrite Z.land_ones by lia.
    apply Z.mod_small. apply (lxor_range 8); [lia|apply shiftr_range; [lia|done]|done]. }
  destruct (table_be_get w poly 8 x) as (t & Ht & He); [lia|done|].
  rewrite Ei, Ht. cbn [mbind option_bind].
  assert (E : wrap w (Z.lxor (Z.shiftl c 8) t) = Nat.iter 8 (step_be w poly) x).
  { rewrite <- He. assert (Htw : is_word w t).
    { unfold table_be in Ht. rewrite table_get in Ht by (apply shiftr_range; [lia|done]).
      apply (inj Some) in Ht. rewrite <- Ht. apply (step_be_range w poly). lia. }
    rewrite <- (wrap_small w t Htw) at 2. apply Z.bits_inj'. intros i Hi.
    rewrite Z.lxor_spec, !wrap_bits, Z.lxor_spec by lia. change (Z.of_nat 8) with 8. unfold x.
    rewrite Z.shiftl_lxor, Z.lxor_spec, Z.shiftl_shiftl by lia. destruct (Z.ltb_spec i w); simpl; [|done].
    rewrite (Z.shiftl_spec b) by lia. rewrite (Z.testbit_neg_r b) by lia. by rewrite xorb_false_r. }
  rewrite E. eexists. split; [done|]. by apply iter_be_byte.
Qed.

Lemma table_le_byte (f : Z -> Z -> option Z) n poly tab :
  tab = table_le (rev n poly) 8 ->
  (forall c b, f c b = t ← aget tab (Z.land (Z.lxor c b) 0xff); Some (Z.lxor (Z.shiftr c 8) t)) ->
  reads_byte n poly f.
Proof.
  intros -> Hf c b Hc Hb. rewrite Hf. destruct (table_le_get (rev n poly) 8 (Z.lxor c b)) as (t & Ht & He).
  change (Z.ones (Z.of_nat 8)) with 0xff in Ht. rewrite Ht, <- He. cbn [mbind option_bind].
  change (Z.of_nat 8) with 8. rewrite Z.shiftr_lxor, (byte_shiftr b) by done. by rewrite Z.lxor_0_r.
Qed.

(** [crc7] divides by x^7 + x^3 + 1; the index may have degree 7. *)
Definition crc7_entry (i : Z) : Z :=
  Nat.iter 7 (step_be 7 0x09) (if Z.testbit i 7 then Z.lxor i 0x89 else i).

Lemma crc7_table_eq : crc7_syndrome_table = crc7_entry <$> seqZ 0 256.
Proof. by vm_compute. Qed.

Lemma crc7_entry_cong i : is_word 8 i -> is_word 7 (crc7_entry i) /\ cong 0x89 (Z.shiftl i 7) (crc7_entry i).
Proof.
  intros Hi. split; [apply (step_be_range 7 0x09); lia|]. unfold crc7_entry.
  set (i' := if Z.testbit i 7 then Z.lxor i 0x89 else i).
  assert (H7 : is_word 7 i').
  { unfold i'. destruct (Z.testbit i 7) eqn:E.
    - apply is_word_bits; [lia| |].
      + apply Z.lxor_nonneg. split; [intros; lia|intros; apply Hi].
      + intros j Hj. rewrite Z.lxor_spec. destruct (Z.eq_dec j 7) as [->|]; [by rewrite E|].
        rewrite (word_bits_high 8 i), (word_bits_high 8 0x89) by (done || lia). done.
    - apply is_word_bits; [lia|apply Hi|]. intros j Hj. destruct (Z.eq_dec j 7) as [->|]; [done|].
      apply (word_bits_high 8); [done|lia]. }
  assert (Hc : cong 0x89 i i').
  { unfold i', cong. destruct (Z.testbit i 7).
    - rewrite <- Z.lxor_assoc, Z.lxor_nilpotent, Z.lxor_0_l. apply multiple_self.
    - rewrite Z.lxor_nilpotent. constructor. }
  etransitivity; [by apply shiftl_cong, Hc|]. apply (iter_be_cong 7 0x09 7); [lia|done|done].
Qed.

Lemma crc7_divides : divides_byte 7 0x09 crc7_byte.
Proof.
  intros c b Hc Hb. unfold crc7_byte. rewrite crc7_table_eq.
  assert (Hi : is_word 8 (Z.lxor (Z.shiftl c 1) b)).
  { apply lxor_range; [lia| |done]. unfold is_word in *. rewrite Z.shiftl_mul_pow2 by lia. lia. }
  rewrite table_get by exact Hi. destruct (crc7_entry_cong _ Hi) as [Hr Hcong].
  eexists. split; [done|]. split; [done|].
  rewrite Z.shiftl_lxor, Z.shiftl_shiftl in Hcong by lia. exact Hcong.
Qed.

(** ** Buffers *)

Lemma message_cons b bytes : message (b :: bytes) = Z.lxor (Z.shiftl b (8 * zlen bytes)) (message bytes).
Proof.
  unfold message. cbn [foldl]. rewrite Z.shiftl_0_l, Z.lxor_0_l. generalize b at 1 2 as a.
  assert (H : forall bytes a, foldl (fun a b => Z.lxor (Z.shiftl a 8) b) a bytes =
    Z.lxor (Z.shiftl a (8 * zlen bytes)) (foldl (fun a b => Z.lxor (Z.shiftl a 8) b) 0 bytes)).
  { clear. induction bytes as [|c bytes IH]; intros a.
    - cbn [foldl]. by rewrite Z.shiftl_0_r, Z.lxor_0_r.
    - cbn [foldl]. rewrite (IH (Z.lxor (Z.shiftl a 8) c)), (IH (Z.lxor (Z.shiftl 0 8) c)).
      rewrite Z.shiftl_0_l, Z.lxor_0_l, zlen_cons, Z.shiftl_lxor, Z.shiftl_shiftl by lia.
      rewrite <- Z.lxor_assoc. do 2 f_equal. f_equal. lia. }
  intros a. apply H.
Qed.

Lemma bytes_loop_remainder w poly f crc buffer :
  0 <= w -> divides_byte w poly f -> is_word w crc -> Forall (is_word 8) buffer ->
  exists r, bytes_loop f crc buffer = Some r /\ remainder w poly (dividend w crc buffer) r.
Proof.
  intros Hw Hf Hc Hb. revert crc Hc. induction Hb as [|b buffer Hb Hbs IH]; intros crc Hc.
  - exists crc. split; [done|]. split; [done|]. unfold dividend. change (message []) with 0.
    change (8 * zlen (@nil Z)) with 0. by rewrite Z.shiftl_0_l, Z.shiftl_0_r, Z.lxor_0_r.
  - destruct (Hf crc b Hc Hb) as (c' & Hs & Hc' & Hcong). cbn [bytes_loop]. rewrite Hs. cbn [mbind option_bind].
    destruct (IH c' Hc') as (r & Hr & Hrange & Hrem). exists r. split; [done|]. split; [done|].
    rewrite <- Hrem. unfold dividend. pose proof (zlen_nonneg buffer).
    rewrite <- (shiftl_cong _ (8 * zlen buffer) _ _ ltac:(lia) Hcong).
    rewrite message_cons, zlen_cons, !Z.shiftl_lxor, !Z.shiftl_shiftl by lia.
    rewrite Z.lxor_assoc. replace (8 * (zlen buffer + 1)) with (8 + 8 * zlen buffer) by lia.
    replace (8 * zlen buffer + w) with (w + 8 * zlen buffer) by lia. done.
Qed.

(** Low bit first is high bit first on reversed words and bytes. *)
Lemma reads_byte_rev n poly f crc buffer :
  (8 <= n)%nat -> reads_byte n poly f -> is_word (Z.of_nat n) crc -> Forall (is_word 8) buffer ->
  exists r, bytes_loop f crc buffer = Some r /\ is_word (Z.of_nat n) r /\
    bytes_loop (fun c b => Some (Nat.iter 8 (step_be (Z.of_nat n) poly) (Z.lxor c (Z.shiftl b (Z.of_nat n - 8)))))
      (rev n crc) (rev 8 <$> buffer) = Some (rev n r).
Proof.
  intros Hn Hf Hc Hb. revert crc Hc. induction Hb as [|b buffer Hb Hbs IH]; intros crc Hc.
  - by exists crc.
  - cbn [bytes_loop fmap list_fmap]. rewrite Hf by done. cbn [mbind option_bind].
    assert (Hx : is_word (Z.of_nat n) (Z.lxor crc b)) by (apply lxor_range; [lia|done|apply byte_word; [lia|done]]).
    rewrite <- (rev_byte n b), <- rev_lxor, <- rev_iter by done.
    apply IH, iter_range; [|done]. intros. apply step_le_range; [lia|apply rev_range|done].
Qed.

Lemma reads_byte_remainder n poly f crc buffer :
  (8 <= n)%nat -> is_word (Z.of_nat n) poly -> reads_byte n poly f ->
  is_word (Z.of_nat n) crc -> Forall (is_word 8) buffer ->
  exists r, bytes_loop f crc buffer = Some r /\ is_word (Z.of_nat n) r /\
    remainder (Z.of_nat n) poly (dividend (Z.of_nat n) (rev n crc) (rev 8 <$> buffer)) (rev n r).
Proof.
  intros Hn Hp Hf Hc Hb. destruct (reads_byte_rev n poly f crc buffer Hn Hf Hc Hb) as (r & Hr & Hrange & Hrev).
  exists r. split; [done|]. split; [done|].
  destruct (bytes_loop_remainder (Z.of_nat n) poly
    (fun c b => Some (Nat.iter 8 (step_be (Z.of_nat n) poly) (Z.lxor c (Z.shiftl b (Z.of_nat n - 8)))))
    (rev n crc) (rev 8 <$> buffer)) as (r' & Hr' & Hrem); [lia| |apply rev_range| |].
  - intros c b Hcc Hbb. eexists. split; [done|]. apply iter_be_byte; [lia|done..].
  - apply Forall_fmap, Forall_true. intros x. apply (rev_range 8).
  - congruence.
Qed.

(** ** The 32-bit CRC *)

Lemma rev_CRCPOLY : rev 32 CRCPOLY_BE = CRCPOLY_LE.
Proof. done. Qed.

Lemma for_all_iter {A : Type} (f : A -> A) (body : Z -> A -> option A) (P : A -> Prop) n s :
  (forall k s, P s -> body k s = Some (f s) /\ P (f s)) -> P s ->
  for_all 0 (Z.of_nat n) body s = Some (Nat.iter n f s).
Proof.
  intros Hf Hs. destruct (for_all_rule body (fun k x => x = Nat.iter (Z.to_nat k) f s) 0 (Z.of_nat n) s)
    as (x & -> & ->); [lia|done| |by rewrite Nat2Z.id].
  intros k x Hk ->. assert (HP : P (Nat.iter (Z.to_nat k) f s)) by (apply iter_range; [intros y Hy; by apply (Hf 0)|done]).
  destruct (Hf k _ HP) as [-> _]. eexists. split; [done|].
  replace (Z.to_nat (k + 1)) with (S (Z.to_nat k)) by lia. done.
Qed.

Lemma iter_iter {A} (f : A -> A) m n x : Nat.iter m (Nat.iter n f) x = Nat.iter (m * n) f x.
Proof. induction m as [|m IH]; simpl; [done|]. by rewrite IH, Nat.iter_add. Qed.

Lemma odd_land c : (if Z.land c 1 =? 0 then 0 else CRCPOLY_LE) = if Z.odd c then CRCPOLY_LE else 0.
Proof. change (Z.land c 1) with (Z.land c (Z.ones 1)). rewrite Z.land_ones by lia. change (2 ^ 1) with 2. rewrite Zmod_odd. by destruct (Z.odd c). Qed.

Lemma high_land c : is_u32 c ->
  (if Z.land c 0x80000000 =? 0 then 0 else CRCPOLY_BE) = if Z.testbit c 31 then CRCPOLY_BE else 0.
Proof.
  intros Hc. destruct (Z.eqb_spec (Z.land c 0x80000000) 0) as [E|E].
  - pose proof (f_equal (fun z => Z.testbit z 31) E) as Hb. cbv beta in Hb. rewrite Z.land_spec, Z.bits_0 in Hb.
    change (Z.testbit 0x80000000 31) with true in Hb. rewrite andb_true_r in Hb. by rewrite Hb.
  - destruct (Z.testbit c 31) eqn:Hb; [done|]. destruct E. apply Z.bits_inj'. intros i Hi.
    rewrite Z.land_spec, Z.bits_0. change 0x80000000 with (2 ^ 31). rewrite pow2_bits by lia.
    destruct (Z.eqb_spec 31 i) as [<-|]; [by rewrite Hb|apply andb_false_r].
Qed.

(** *** Words at a time *)

Section body.
Context (tab : list Z) (Htab : zlen tab = 256).

Lemma DO_CRC_total crc x : is_Some (DO_CRC tab crc x).
Proof using Htab.
  unfold DO_CRC. destruct (proj2 (aget_is_Some tab (Z.land (Z.lxor crc x) 255))) as [t ->]; [|by eexists].
  rewrite Htab. apply (land_ones_range _ 8).
Qed.

(** The next bytes wait in the state. *)
Lemma DO_CRC_word crc x y :
  is_word 8 x -> DO_CRC tab (Z.lxor crc (Z.lxor x (Z.shiftl y 8))) 0 = c ← DO_CRC tab crc x; Some (Z.lxor c y).
Proof using Type.
  intros Hx. unfold DO_CRC. rewrite Z.lxor_0_r.
  assert (Ei : Z.land (Z.lxor crc (Z.lxor x (Z.shiftl y 8))) 255 = Z.land (Z.lxor crc x) 255).
  { change 255 with (Z.ones 8). bitwise i Hi. destruct (Z.ltb_spec i 8); [|by rewrite !andb_false_r].
    rewrite (Z.testbit_neg_r y) by lia. by rewrite xorb_false_r. }
  rewrite Ei. destruct (aget tab (Z.land (Z.lxor crc x) 255)) as [t|]; [|done]. simpl. f_equal.
  rewrite !Z.shiftr_lxor, (byte_shiftr x) by done. rewrite Z.lxor_0_l, Z.shiftr_shiftl_l by lia.
  rewrite Z.shiftl_0_r. by rewrite Z.lxor_assoc.
Qed.

Lemma join_bytes x y : is_word 8 x -> x + Z.shiftl y 8 = Z.lxor x (Z.shiftl y 8).
Proof using Type.
  intros Hx. apply Z.add_nocarry_lxor. bitwise i Hi. destruct (Z.lt_ge_cases i 8).
  - by rewrite (Z.testbit_neg_r y), andb_false_r by lia.
  - by rewrite (word_bits_high 8 x) by (done || lia).
Qed.

Lemma word_bytes x0 x1 x2 x3 :
  is_word 8 x0 -> is_word 8 x1 -> is_word 8 x2 ->
  x0 + Z.shiftl x1 8 + Z.shiftl x2 16 + Z.shiftl x3 24 =
  Z.lxor x0 (Z.shiftl (Z.lxor x1 (Z.shiftl (Z.lxor x2 (Z.shiftl x3 8)) 8)) 8).
Proof using Type.
  intros H0 H1 H2. rewrite <- (join_bytes x2 x3), <- (join_bytes x1), <- (join_bytes x0) by done.
  rewrite !Z.shiftl_mul_pow2 by lia. lia.
Qed.

Lemma crc32_words_spec crc b :
  Forall (is_word 8) b ->
  exists crc' b', crc32_words tab crc b = Some (crc', b') /\
    bytes_loop (DO_CRC tab) crc b = bytes_loop (DO_CRC tab) crc' b'.
Proof using Htab.
  revert crc. induction b as [b IH] using (induction_ltof1 _ (@length Z)). intros crc Hb.
  destruct b as [|x0 [|x1 [|x2 [|x3 b]]]]; try by (eexists _, _; split; [done|]).
  rewrite !Forall_cons_iff in Hb. destruct Hb as (H0 & H1 & H2 & H3 & Hb).
  cbn [crc32_words bytes_loop]. rewrite word_bytes, DO_CRC_word by done.
  destruct (DO_CRC_total crc x0) as [c0 ->]. cbn [mbind option_bind]. rewrite DO_CRC_word by done.
  destruct (DO_CRC_total c0 x1) as [c1 ->]. cbn [mbind option_bind]. rewrite DO_CRC_word by done.
  destruct (DO_CRC_total c1 x2) as [c2 ->]. cbn [mbind option_bind].
  pose proof (DO_CRC_word c2 x3 0 H3) as E. rewrite Z.shiftl_0_l, Z.lxor_0_r in E. rewrite E.
  destruct (DO_CRC_total c2 x3) as [c3 ->]. cbn [mbind option_bind]. rewrite Z.lxor_0_r.
  apply IH; [unfold ltof; simpl; lia|done].
Qed.

Lemma crc32_align_spec addr crc b :
  exists crc' b', crc32_align tab addr crc b = Some (crc', b') /\ (Forall (is_word 8) b -> Forall (is_word 8) b') /\
    bytes_loop (DO_CRC tab) crc b = bytes_loop (DO_CRC tab) crc' b'.
Proof using Htab.
  revert addr crc. induction b as [|x b IH]; intros addr crc; simpl; [by eexists _, _|].
  destruct (negb (Z.land addr 3 =? 0)); [|by eexists _, _].
  destruct (DO_CRC_total crc x) as [c ->]. simpl. destruct (IH (addr + 1) c) as (crc' & b' & -> & Hb & He).
  eexists _, _. split; [done|]. split; [|done]. intros [_ H]%Forall_cons_iff. auto.
Qed.

Lemma crc32_body_spec addr crc b :
  Forall (is_word 8) b -> crc32_body tab addr crc b = bytes_loop (DO_CRC tab) crc b.
Proof using Htab.
  intros Hb. unfold crc32_body. destruct (crc32_align_spec addr crc b) as (c1 & b1 & -> & Hb1 & ->). simpl.
  destruct (crc32_words_spec c1 b1 (Hb1 Hb)) as (c2 & b2 & -> & ->). done.
Qed.
End body.

(** *** The variants *)

(** [m] look-ups of [n] bits each. *)
Lemma table_le_iter poly n m c :
  for_all 0 (Z.of_nat m) (fun _ crc =>
    t ← aget (table_le poly n) (Z.land crc (Z.ones (Z.of_nat n)));
    Some (Z.lxor (Z.shiftr crc (Z.of_nat n)) t)) c = Some (Nat.iter (m * n) (step_le poly) c).
Proof.
  rewrite <- iter_iter. apply (for_all_iter _ _ (fun _ => True)); [|done].
  intros k x _. by destruct (table_le_get poly n x) as (t & -> & <-).
Qed.

Lemma table_be_iter w poly n m c :
  Z.of_nat n <= w -> is_word w poly -> is_word w c ->
  for_all 0 (Z.of_nat m) (fun _ crc =>
    t ← aget (table_be w poly n) (Z.shiftr crc (w - Z.of_nat n));
    Some (Z.lxor (wrap w (Z.shiftl crc (Z.of_nat n))) t)) c = Some (Nat.iter (m * n) (step_be w poly) c).
Proof.
  intros Hn Hp Hc. rewrite <- iter_iter. apply (for_all_iter _ _ (is_word w)); [|done].
  intros k x Hx. destruct (table_be_get w poly n x Hn Hx) as (t & -> & He). cbn [mbind option_bind]. rewrite He.
  split; [done|]. apply iter_range; [intros; apply step_be_range; lia|done].
Qed.

Lemma crc32_le_loop bits addr crc p :
  In bits [1; 2; 4; 8] -> Forall (is_word 8) p ->
  exists f, reads_byte 32 CRCPOLY_BE f /\ crc32_le bits addr crc p = bytes_loop f crc p.
Proof.
  intros Hbits Hp. assert (Htab : zlen (table_le CRCPOLY_LE 8) = 256) by done.
  destruct Hbits as [<-|[<-|[<-|[<-|[]]]]]; unfold crc32_le;
    rewrite ?crc32init_le_eq by (simpl; auto); cbn [mbind option_bind]; rewrite ?crc32_body_spec by done;
    eexists; (split; [|reflexivity]); [intros c b Hc Hb; rewrite rev_CRCPOLY..|].
  - apply (for_all_iter (step_le CRCPOLY_LE) _ (fun _ => True) 8); [|done].
    intros k x _. by rewrite odd_land.
  - apply (table_le_iter CRCPOLY_LE 2 4).
  - apply (table_le_iter CRCPOLY_LE 4 2).
  - apply (table_le_byte _ _ _ (table_le CRCPOLY_LE 8)); [by rewrite rev_CRCPOLY|].
    intros c b. unfold DO_CRC. change 255 with 0xff. destruct (aget _ _); simpl; [|done]. by rewrite Z.lxor_comm.
Qed.

(** *** Swapped bytes *)

Lemma byte_mask_bits k i : 0 <= k -> Z.testbit (Z.shiftl (Z.ones 8) k) i = (k <=? i) && (i <? k + 8).
Proof.
  intros Hk. destruct (Z.lt_ge_cases i 0) as [Hi|Hi]; [rewrite Z.testbit_neg_r by done; zcases|].
  rewrite Z.shiftl_spec by done. destruct (Z.lt_ge_cases i k); [rewrite Z.testbit_neg_r by lia; zcases|].
  rewrite ones_bits by lia. zcases.
Qed.

Lemma swab32_bits x i : 0 <= i ->
  Z.testbit (swab32 x) i = (i <? 32) && Z.testbit x (24 - 8 * (i / 8) + i mod 8).
Proof.
  intros Hi. unfold swab32.
  change 0x000000ff with (Z.shiftl (Z.ones 8) 0). change 0x0000ff00 with (Z.shiftl (Z.ones 8) 8).
  change 0x00ff0000 with (Z.shiftl (Z.ones 8) 16). change 0xff000000 with (Z.shiftl (Z.ones 8) 24).
  rewrite !Z.lor_spec, !Z.shiftl_spec, !Z.shiftr_spec, !Z.land_spec, !byte_mask_bits by lia.
  set (j := 24 - 8 * (i / 8) + i mod 8).
  assert (Hj : i < 8 /\ j = i + 24 \/ 8 <= i < 16 /\ j = i + 8 \/ 16 <= i < 24 /\ j = i - 8 \/
    24 <= i < 32 /\ j = i - 24 \/ 32 <= i) by (unfold j; Z.div_mod_to_equations; lia).
  destruct Hj as [[? ->]|[[? ->]|[[? ->]|[[? ->]|?]]]]; zcases.
Qed.

Lemma swab32_range x : is_u32 (swab32 x).
Proof.
  apply is_word_bits; [lia| |intros i Hi; rewrite swab32_bits by lia; zcases].
  unfold swab32. rewrite !Z.lor_nonneg, !Z.shiftl_nonneg, !Z.shiftr_nonneg, !Z.land_nonneg. lia.
Qed.

Lemma swab32_swab32 x : is_u32 x -> swab32 (swab32 x) = x.
Proof.
  intros Hx. apply Z.bits_inj'. intros i Hi. rewrite swab32_bits by done.
  destruct (Z.ltb_spec i 32); simpl; [|symmetry; by apply (word_bits_high 32); [|lia]].
  rewrite swab32_bits by (Z.div_mod_to_equations; lia). rewrite (proj2 (Z.ltb_lt _ _)) by (Z.div_mod_to_equations; lia).
  simpl. f_equal. Z.div_mod_to_equations; lia.
Qed.

Lemma swab32_lxor a b : swab32 (Z.lxor a b) = Z.lxor (swab32 a) (swab32 b).
Proof.
  apply Z.bits_inj'. intros i Hi. rewrite Z.lxor_spec, !swab32_bits, Z.lxor_spec by done. by destruct (i <? 32).
Qed.

Lemma swab32_low c x : is_u32 c -> is_word 8 x ->
  Z.land (Z.lxor (swab32 c) x) 255 = Z.lxor (Z.shiftr c 24) x.
Proof.
  intros Hc Hx. change 255 with (Z.ones 8). apply Z.bits_inj'. intros i Hi.
  rewrite Z.land_spec, !Z.lxor_spec, swab32_bits, Z.shiftr_spec, ones_bits by lia.
  destruct (Z.ltb_spec i 8); simpl.
  - rewrite andb_true_r, (proj2 (Z.ltb_lt i 32)) by lia. simpl. f_equal. f_equal. Z.div_mod_to_equations; lia.
  - rewrite andb_false_r, (word_bits_high 32 c), (word_bits_high 8 x) by (done || lia). done.
Qed.

Lemma swab32_shift c : Z.shiftr (swab32 c) 8 = swab32 (u32 (Z.shiftl c 8)).
Proof.
  apply Z.bits_inj'. intros i Hi. rewrite Z.shiftr_spec, !swab32_bits by lia.
  destruct (Z.ltb_spec i 32); [|rewrite (proj2 (Z.ltb_ge (i + 8) 32)) by lia; done].
  set (j := 24 - 8 * (i / 8) + i mod 8). assert (Hj : 0 <= j < 32) by (unfold j; Z.div_mod_to_equations; lia).
  rewrite wrap_bits, (proj2 (Z.ltb_lt j 32)), Z.shiftl_spec by lia. simpl.
  destruct (Z.ltb_spec (i + 8) 32); simpl; [f_equal; unfold j; Z.div_mod_to_equations; lia|].
  symmetry. apply Z.testbit_neg_r. unfold j. Z.div_mod_to_equations; lia.
Qed.

(** On swapped words the code is that of the other end. *)
Lemma DO_CRC_swab tab c x :
  is_u32 c -> is_word 8 x ->
  DO_CRC (swab32 <$> tab) (swab32 c) x =
  t ← aget tab (Z.lxor (Z.shiftr c 24) x); Some (swab32 (Z.lxor t (u32 (Z.shiftl c 8)))).
Proof.
  intros Hc Hx. unfold DO_CRC. rewrite swab32_low, aget_fmap by done.
  destruct (aget tab _) as [t|]; simpl; [|done]. by rewrite swab32_shift, swab32_lxor.
Qed.

(** [crc32_be] at eight bits without the swaps. *)
Definition be_byte (c b : Z) : option Z :=
  t ← aget (table_be 32 CRCPOLY_BE 8) (Z.land (Z.lxor (Z.shiftr c 24) b) 0xff);
  Some (u32 (Z.lxor (Z.shiftl c 8) t)).

Lemma be_byte_swab c x :
  is_u32 c -> is_word 8 x ->
  exists c', be_byte c x = Some c' /\ is_u32 c' /\
    DO_CRC (swab32 <$> table_be 32 CRCPOLY_BE 8) (swab32 c) x = Some (swab32 c').
Proof.
  intros Hc Hx. rewrite DO_CRC_swab by done. unfold be_byte.
  assert (Hi : is_word 8 (Z.lxor (Z.shiftr c 24) x)) by (apply lxor_range; [lia|by apply (shiftr_range 32 8)|done]).
  change 0xff with (Z.ones 8). rewrite Z.land_ones, Z.mod_small by (lia || exact Hi).
  unfold table_be. rewrite table_get by exact Hi. cbn [mbind option_bind].
  set (t := Nat.iter 8 _ _). assert (Ht : is_u32 t) by (apply (step_be_range 32 CRCPOLY_BE); lia).
  eexists. split; [done|]. split; [apply wrap_range; lia|]. do 2 f_equal.
  apply Z.bits_inj'. intros i Hi'. rewrite wrap_bits, !Z.lxor_spec, wrap_bits by lia.
  rewrite (xorb_comm (Z.testbit t i)). destruct (Z.ltb_spec i 32); simpl; [done|].
  rewrite (word_bits_high 32 t) by (done || lia). done.
Qed.

Lemma be_loop_swab crc p :
  is_u32 crc -> Forall (is_word 8) p ->
  (c ← bytes_loop (DO_CRC (swab32 <$> table_be 32 CRCPOLY_BE 8)) (swab32 crc) p; Some (swab32 c)) =
  bytes_loop be_byte crc p.
Proof.
  intros Hc Hp. revert crc Hc. induction Hp as [|x p Hx Hp IH]; intros crc Hc; cbn [bytes_loop].
  - cbn [mbind option_bind]. by rewrite swab32_swab32.
  - destruct (be_byte_swab crc x Hc Hx) as (c' & -> & Hc' & ->). cbn [mbind option_bind]. by apply IH.
Qed.

(** The table sizes that go together. *)
Definition bits_agree (le_bits be_bits : Z) : Prop :=
  be_bits = 1 \/ (le_bits = 8 <-> be_bits = 8).

Lemma crc32table_be_eq le_bits be_bits :
  In be_bits [2; 4; 8] -> bits_agree le_bits be_bits ->
  crc32table_be le_bits be_bits =
    Some (if be_bits =? 8 then swab32 <$> table_be 32 CRCPOLY_BE 8
          else table_be 32 CRCPOLY_BE (Z.to_nat be_bits)).
Proof.
  intros Hb [->|Hiff]; [by destruct Hb as [|[|[|[]]]]|]. unfold crc32table_be. rewrite crc32init_be_eq by done. cbn [mbind option_bind].
  unfold tobe. destruct (Z.eqb_spec be_bits 8) as [->|H8].
  - rewrite (proj2 Hiff eq_refl). done.
  - destruct (Z.eqb_spec le_bits 8) as [E|_]; [by destruct H8; apply Hiff|]. by rewrite list_fmap_id.
Qed.

Lemma crc32_be_loop le_bits bits addr crc p :
  In bits [1; 2; 4; 8] -> bits_agree le_bits bits -> is_u32 crc -> Forall (is_word 8) p ->
  exists f, divides_byte 32 CRCPOLY_BE f /\ crc32_be le_bits bits addr crc p = bytes_loop f crc p.
Proof.
  intros Hbits Hagree Hcrc Hp. assert (Htab : zlen (swab32 <$> table_be 32 CRCPOLY_BE 8) = 256) by done.
  assert (Hpoly : is_u32 CRCPOLY_BE) by done.
  destruct Hbits as [<-|[<-|[<-|[<-|[]]]]]; unfold crc32_be;
    rewrite ?crc32table_be_eq by (done || simpl; auto); cbn [mbind option_bind Z.eqb Pos.eqb]; rewrite ?crc32_body_spec by done;
    [eexists; (split; [|reflexivity]); intros c b Hc Hb;
     assert (Hx : is_u32 (Z.lxor c (Z.shiftl b 24))) by (apply lxor_range; [lia|done|by apply (shifted_byte_word 32)])..|].
  - eexists. split; [|by apply (iter_be_byte 32)]. apply (for_all_iter (step_be 32 CRCPOLY_BE) _ is_u32 8); [|done].
    intros k x Hxx. rewrite high_land by done. split; [|apply step_be_range; lia]. unfold step_be.
    f_equal. apply Z.bits_inj'. intros i Hi. rewrite Z.lxor_spec, !wrap_bits, Z.lxor_spec by lia.
    change (32 - 1) with 31. destruct (Z.ltb_spec i 32); [by rewrite !andb_true_l|]. rewrite !andb_false_l, xorb_false_l.
    destruct (Z.testbit x 31); [|apply Z.bits_0]. apply (word_bits_high 32); [done|lia].
  - eexists. split; [by apply (table_be_iter 32 CRCPOLY_BE 2 4)|by apply (iter_be_byte 32)].
  - eexists. split; [by apply (table_be_iter 32 CRCPOLY_BE 4 2)|by apply (iter_be_byte 32)].
  - exists be_byte. split; [by apply (table_be_byte _ 32 CRCPOLY_BE (table_be 32 CRCPOLY_BE 8))|].
    by apply be_loop_swab.
Qed.

(** ** The reversing functions *)

Lemma bitrev8_spec x : is_word 8 x -> bitrev8 x = Some (rev 8 x).
Proof. intros Hx. unfold bitrev8. rewrite byte_rev_table_eq. by apply table_get. Qed.

(** Reversing halves and exchanging them. *)
Lemma rev_halves n x :
  Z.lor (Z.shiftl (rev n (Z.land x (Z.ones (Z.of_nat n)))) (Z.of_nat n)) (rev n (Z.shiftr x (Z.of_nat n))) =
  rev (n + n) x.
Proof.
  apply Z.bits_inj'. intros i Hi. rewrite Z.lor_spec, Z.shiftl_spec, !(rev_bits _ _ i) by lia.
  destruct (Z.lt_ge_cases i (Z.of_nat n)) as [Hlt|Hge].
  - rewrite Z.testbit_neg_r by lia. rewrite orb_false_l, !(proj2 (Z.ltb_lt _ _)) by lia.
    rewrite Z.shiftr_spec by lia. simpl. f_equal. lia.
  - rewrite (proj2 (Z.ltb_ge i _)) by lia. rewrite rev_bits by lia. rewrite andb_false_l, orb_false_r.
    destruct (Z.ltb_spec (i - Z.of_nat n) (Z.of_nat n)); [|zcases].
    rewrite (proj2 (Z.ltb_lt i _)), Z.land_spec, ones_bits, (proj2 (Z.ltb_lt _ (Z.of_nat n))) by lia.
    rewrite andb_true_r. simpl. f_equal. lia.
Qed.

Lemma bitrev16_spec x : is_word 16 x -> bitrev16 x = Some (rev 16 x).
Proof.
  intros Hx. unfold bitrev16. rewrite (bitrev8_spec (Z.land x 0xff)) by (apply (land_ones_range x 8)).
  rewrite bitrev8_spec by (apply (shiftr_range 16 8); [lia|done]). cbn [mbind option_bind].
  f_equal. apply (rev_halves 8).
Qed.

Lemma bitrev32_spec x : is_u32 x -> bitrev32 x = Some (rev 32 x).
Proof.
  intros Hx. unfold bitrev32. rewrite (bitrev16_spec (Z.land x 0xffff)) by (apply (land_ones_range x 16)).
  rewrite bitrev16_spec by (apply (shiftr_range 32 16); [lia|done]). cbn [mbind option_bind].
  f_equal. apply (rev_halves 16).
Qed.

Lemma bitrev_bytes buffer : Forall (is_word 8) buffer -> mapM bitrev8 buffer = Some (rev 8 <$> buffer).
Proof. induction 1 as [|x l Hx Hl IH]; [done|]. simpl. by rewrite bitrev8_spec, IH. Qed.

(** * The theorem *)

(** A total function that returns the remainder returns nothing else. *)
Lemma remainder_iff w poly a (x : option Z) :
  0 < w -> is_word w poly -> (exists r, x = Some r /\ remainder w poly a r) ->
  forall r, x = Some r <-> remainder w poly a r.
Proof.
  intros Hw Hp (r0 & -> & H0) r. split; [by intros [= <-]|].
  intros H. f_equal. by apply (remainder_unique w poly Hw Hp a).
Qed.

Lemma remainder_rev_iff (n : nat) poly a (x : option Z) :
  (0 < n)%nat -> is_word (Z.of_nat n) poly ->
  (exists r, x = Some r /\ is_word (Z.of_nat n) r /\ remainder (Z.of_nat n) poly a (rev n r)) ->
  forall r, is_word (Z.of_nat n) r -> x = Some r <-> remainder (Z.of_nat n) poly a (rev n r).
Proof.
  intros Hn Hp (r0 & -> & Hr0 & H0) r Hr. split; [by intros [= <-]|].
  intros H. f_equal. rewrite <- (rev_rev n r0), <- (rev_rev n r) by done. f_equal.
  by apply (remainder_unique (Z.of_nat n) poly ltac:(lia) Hp a).
Qed.

(** [CRC_LE_BITS] and [CRC_BE_BITS] that do not go together. *)
Definition mixed_bits : list (Z * Z) := [(8, 2); (8, 4); (1, 8); (2, 8); (4, 8)].

Lemma crc32_be_remainder le_bits be_bits addr crc p :
  In be_bits [1; 2; 4; 8] -> bits_agree le_bits be_bits -> is_u32 crc -> Forall (is_word 8) p ->
  exists r, crc32_be le_bits be_bits addr crc p = Some r /\ remainder 32 CRCPOLY_BE (dividend 32 crc p) r.
Proof.
  intros Hbits Hagree Hc Hp. destruct (crc32_be_loop le_bits be_bits addr crc p Hbits Hagree Hc Hp) as (f & Hf & ->).
  by apply bytes_loop_remainder; [lia| | |].
Qed.

(** One byte already shows that a mixture is wrong. *)
Lemma crc32_be_mixed le_bits be_bits :
  In (le_bits, be_bits) mixed_bits ->
  exists r, crc32_be le_bits be_bits 0 0 [0x31] = Some r /\ ~ remainder 32 CRCPOLY_BE (dividend 32 0 [0x31]) r.
Proof.
  destruct (crc32_be_remainder 8 8 0 0 [0x31]) as (r0 & H0 & Hr0);
    [simpl; auto|by right|done|by repeat constructor|]. vm_compute in H0. injection H0 as <-.
  intros [E|[E|[E|[E|[E|[]]]]]]; injection E as <- <-; eexists; (split; [vm_compute; reflexivity|]);
    intros Hr; by pose proof (remainder_unique 32 CRCPOLY_BE ltac:(lia) ltac:(done) _ _ _ Hr0 Hr).
Qed.

(** C30: every CRC function returns, for every buffer, start value, alignment and
    table size, exactly the remainder of the polynomial division of the message by
    its polynomial: 0x1021 for [crc_itu_t], 0x8bb7 for [crc_t10dif], 0x09 of degree 7
    for [crc7], 0x04c11db7 for [crc32_be], and after reversal of all bits with the
    functions of lib/bitrev.c 0x8005 for [crc16], 0x1021 for [crc_ccitt] and 0x04c11db7
    for [crc32_le].  Remainders are unique.  A buffer of [crc_t10dif] is shorter than
    [2 ^ 32] bytes, the start value of [crc7] has seven bits, and [crc32_be] needs
    [CRC_BE_BITS] 1 or [CRC_LE_BITS] and [CRC_BE_BITS] both 8 or both less: [tobe] is
    chosen by [CRC_LE_BITS], and with a mixture the values are wrong. *)
Theorem crc_is_remainder (buffer : list Z) : Forall (is_word 8) buffer ->
  (forall crc, is_word 16 crc -> forall r,
     crc_itu_t crc buffer = Some r <-> remainder 16 0x1021 (dividend 16 crc buffer) r) /\
  (zlen buffer < 2 ^ 32 -> forall r,
     crc_t10dif buffer = Some r <-> remainder 16 0x8bb7 (dividend 16 0 buffer) r) /\
  (forall crc, is_word 7 crc -> forall r,
     crc7 crc buffer = Some r <-> remainder 7 0x09 (dividend 7 crc buffer) r) /\
  (forall le_bits be_bits addr crc, In be_bits [1; 2; 4; 8] -> bits_agree le_bits be_bits -> is_u32 crc -> forall r,
     crc32_be le_bits be_bits addr crc buffer = Some r <->
     remainder 32 CRCPOLY_BE (dividend 32 crc buffer) r) /\
  (forall le_bits be_bits, In (le_bits, be_bits) mixed_bits ->
     exists r, crc32_be le_bits be_bits 0 0 [0x31] = Some r /\
       ~ remainder 32 CRCPOLY_BE (dividend 32 0 [0x31]) r) /\
  exists buffer', mapM bitrev8 buffer = Some buffer' /\
  (forall crc r, is_word 16 crc -> is_word 16 r -> exists crc' r',
     bitrev16 crc = Some crc' /\ bitrev16 r = Some r' /\
     (crc16 crc buffer = Some r <-> remainder 16 0x8005 (dividend 16 crc' buffer') r') /\
     (crc_ccitt crc buffer = Some r <-> remainder 16 0x1021 (dividend 16 crc' buffer') r')) /\
  (forall bits addr crc r, In bits [1; 2; 4; 8] -> is_u32 crc -> is_u32 r -> exists crc' r',
     bitrev32 crc = Some crc' /\ bitrev32 r = Some r' /\
     (crc32_le bits addr crc buffer = Some r <-> remainder 32 CRCPOLY_BE (dividend 32 crc' buffer') r')).
Proof.
  intros Hb. split; [|split; [|split; [|split; [|split]]]].
  - intros crc Hc. apply remainder_iff; [lia|done|]. apply bytes_loop_remainder; [lia| |done|done].
    by apply (table_be_byte _ _ _ crc_itu_t_table); [lia| |apply crc_itu_t_table_eq|].
  - intros Hlen. apply remainder_iff; [lia|done|]. unfold crc_t10dif. rewrite (proj2 (Z.ltb_lt _ _)) by done.
    apply bytes_loop_remainder; [lia| |done|done].
    by apply (table_be_byte _ _ _ t10_dif_crc_table); [lia| |apply t10_dif_crc_table_eq|].
  - intros crc Hc. apply remainder_iff; [lia|done|]. apply bytes_loop_remainder; [lia|apply crc7_divides|done|done].
  - intros le_bits be_bits addr crc Hbits Hagree Hc. apply remainder_iff; [lia|done|]. by apply crc32_be_remainder.
  - apply crc32_be_mixed.
  - exists (rev 8 <$> buffer). split; [by apply bitrev_bytes|]. split.
    + intros crc r Hc Hr. exists (rev 16 crc), (rev 16 r). split; [by apply bitrev16_spec|]. split; [by apply bitrev16_spec|].
      split; apply (remainder_rev_iff 16); (done || lia || apply reads_byte_remainder); (done || lia || idtac).
      * by apply (table_le_byte _ _ _ crc16_table); [apply crc16_table_eq|].
      * by apply (table_le_byte _ _ _ crc_ccitt_table); [apply crc_ccitt_table_eq|].
    + intros bits addr crc r Hbits Hc Hr. exists (rev 32 crc), (rev 32 r).
      split; [by apply bitrev32_spec|]. split; [by apply bitrev32_spec|].
      apply (remainder_rev_iff 32); [lia|done| |done].
      destruct (crc32_le_loop bits addr crc buffer Hbits Hb) as (f & Hf & ->).
      by apply reads_byte_remainder; [lia|..].
Qed.

(** Nine bytes at an odd address: the 32-bit functions take all three of their
    loops. *)
Lemma crc_is_remainder_witness :
  let buffer := [0x31; 0x32; 0x33; 0x34; 0x35; 0x36; 0x37; 0x38; 0x39] in
  crc32_be 8 8 1 0xffffffff buffer = Some 0x0376e6e7 /\
  remainder 32 CRCPOLY_BE (dividend 32 0xffffffff buffer) 0x0376e6e7 /\
  remainder 16 0x1021 (dividend 16 0 buffer) 0x31c3.
Proof.
  intros buffer. assert (Hb : Forall (is_word 8) buffer) by (repeat constructor; done).
  destruct (crc_is_remainder buffer Hb) as (H1 & _ & _ & H4 & _). split_and!.
  - by vm_compute.
  - apply (H4 8 8 1 0xffffffff); [simpl; auto|by right|done|by vm_compute].
  - apply (H1 0); [done|by vm_compute].
Defined.
