(* ===== verification/Checksum.v ===== *)
(** The Internet checksum: lib/checksum.c with the helpers of
    include/asm-generic/checksum.h and include/net/checksum.h.

    A buffer is the list of its bytes together with its address, since the code
    aligns its accesses.  [bits] is the width of [unsigned long], 32 or 64; the
    machine is little-endian.

    The theorems compare with the one's complement sum of the 16-bit words of the
    buffer, the sum modulo 65535 with 0 only for a sum of zero ([ones_sum]).  They
    show for which inputs the code computes it, how partial sums are combined,
    updated and verified, and on which inputs the code loses carries or counts a byte
    in the wrong half. *)
From Stdlib Require Import ZArith Lia Bool.
From stdpp Require Import base numbers list option.
From S2P Require Import Prelude.

Local Open Scope Z_scope.

(** * The code *)

Definition EFAULT : Z := 14.

Section do_csum.
Context (bits : Z).

Abbreviation ulong := (wrap bits).

Definition from32to16 (x : Z) : Z :=
  let x := ulong (Z.land x 0xffff + Z.shiftr x 16) in
  let x := ulong (Z.land x 0xffff + Z.shiftr x 16) in
  wrap 16 x.

(** Little-endian loads. *)
Definition load16 (buff : list Z) : option (Z * list Z) :=
  match buff with
  | a :: b :: buff => Some (a + 256 * b, buff)
  | _ => None
  end.

Definition load32 (buff : list Z) : option (Z * list Z) :=
  match buff with
  | a :: b :: c :: d :: buff => Some (a + 256 * b + 65536 * c + 16777216 * d, buff)
  | _ => None
  end.

(** The loop over [count] words: result, carry and the rest of the buffer. *)
Fixpoint csum_words (count : nat) (result carry : Z) (buff : list Z) : option (Z * Z * list Z) :=
  match count with
  | O => Some (result, carry, buff)
  | S count =>
      '(w, buff) ← load32 buff;
      let result := ulong (result + carry) in
      let result := ulong (result + w) in
      let carry := if result <? w then 1 else 0 in
      csum_words count result carry buff
  end.

(** [if (count)] with the loop over words and the first fold. *)
Definition csum_long (count result : Z) (buff : list Z) : option (Z * list Z) :=
  if negb (count =? 0) then
    '(result, carry, buff) ← csum_words (Z.to_nat count) result 0 buff;
    let result := ulong (result + carry) in
    Some (ulong (Z.land result 0xffff + Z.shiftr result 16), buff)
  else Some (result, buff).

(** A 16-bit word if the condition holds. *)
Definition csum_short (cond : bool) (result : Z) (buff : list Z) : option (Z * list Z) :=
  if cond then '(w, buff) ← load16 buff; Some (ulong (result + w), buff)
  else Some (result, buff).

(** The block [if (count)]: result, remaining length and buffer. *)
Definition csum_block (addr len result : Z) (buff : list Z) : option (Z * Z * list Z) :=
  let count := Z.shiftr len 1 in
  if negb (count =? 0) then
    let short := negb (Z.land 2 addr =? 0) in
    '(result, buff) ← csum_short short result buff;
    let count := if short then count - 1 else count in
    let len := if short then len - 2 else len in
    let count := Z.shiftr count 1 in
    '(result, buff) ← csum_long count result buff;
    '(result, buff) ← csum_short (negb (Z.land len 2 =? 0)) result buff;
    Some (result, len, buff)
  else Some (result, len, buff).

(** The part from [count = len >> 1] to [if (len & 1)]. *)
Definition csum_aligned (addr result : Z) (buff : list Z) : option Z :=
  '(result, len, buff) ← csum_block addr (zlen buff) result buff;
  if negb (Z.land len 1 =? 0) then
    x ← head buff;
    Some (ulong (result + x))
  else Some result.

Definition do_csum (addr : Z) (buff : list Z) : option Z :=
  match buff with
  | [] => Some 0
  | x :: buff' =>
      let odd := Z.land 1 addr in
      result ← (if negb (odd =? 0) then csum_aligned (addr + 1) x buff' else csum_aligned addr 0 buff);
      let result := from32to16 result in
      Some (if negb (odd =? 0)
            then Z.lor (Z.land (Z.shiftr result 8) 0xff) (Z.shiftl (Z.land result 0xff) 8)
            else result)
  end.

(** [~x] as a 16-bit value. *)
Definition not16 (x : Z) : Z := wrap 16 (Z.lnot x).
Definition not32 (x : Z) : Z := u32 (Z.lnot x).

Definition ip_compute_csum (addr : Z) (buff : list Z) : option Z :=
  s ← do_csum addr buff; Some (not16 s).

(** [ihl] counts words of 32 bits. *)
Definition ip_fast_csum (addr : Z) (iph : list Z) (ihl : Z) : option Z :=
  s ← do_csum addr (take (Z.to_nat (ihl * 4)) iph); Some (not16 s).

Definition csum_partial (addr : Z) (buff : list Z) (wsum : Z) : option Z :=
  result ← do_csum addr buff;
  let result := u32 (result + wsum) in
  Some (if result <? wsum then u32 (result + 1) else result).

(** The destination [dst] is an array at address [daddr]; [len] bytes go to its start. *)
Definition csum_partial_copy (daddr : Z) (dst src : list Z) (len sum : Z) : option (list Z * Z) :=
  dst ← memcpy dst 0 src 0 len;
  r ← csum_partial daddr (take (Z.to_nat len) dst) sum;
  Some (dst, r).

(** [missing] is what [__copy_from_user] could not copy; the results are the
    destination, [*csum_err] and the sum. *)
Definition csum_partial_copy_from_user (daddr : Z) (dst src : list Z) (len sum missing : Z)
    : option (list Z * Z * Z) :=
  dst ← memcpy dst 0 src 0 (len - missing);
  '(dst, err) ←
    (if negb (missing =? 0) then
       dst ← for_all 0 missing (fun i dst => aset dst (len - missing + i) 0) dst;
       Some (dst, - EFAULT)
     else Some (dst, 0));
  r ← csum_partial daddr (take (Z.to_nat len) dst) sum;
  Some (dst, err, r).

(** [s] is 64 bits wide, the sum of the two [short]s an [int]. *)
Definition csum_tcpudp_nofold (saddr daddr len proto sum : Z) : Z :=
  let s := sum in
  let s := u64 (s + saddr) in
  let s := u64 (s + daddr) in
  let s := u64 (s + Z.shiftl (proto + len) 8) in
  let s := u64 (s + Z.shiftr s 32) in
  u32 s.

Definition csum_fold (csum : Z) : Z :=
  let sum := u32 (Z.land csum 0xffff + Z.shiftr csum 16) in
  let sum := u32 (Z.land sum 0xffff + Z.shiftr sum 16) in
  not16 sum.

Definition csum_tcpudp_magic (saddr daddr len proto sum : Z) : Z :=
  csum_fold (csum_tcpudp_nofold saddr daddr len proto sum).

Definition csum_add (csum addend : Z) : Z :=
  let res := u32 (csum + addend) in
  u32 (res + (if res <? addend then 1 else 0)).

Definition csum_sub (csum addend : Z) : Z := csum_add csum (not32 addend).

(** The bytes of a partial sum that belongs to an odd offset are exchanged. *)
Definition csum_swap (sum offset : Z) : Z :=
  if negb (Z.land offset 1 =? 0)
  then u32 (Z.shiftl (Z.land sum 0xff00ff) 8 + Z.land (Z.shiftr sum 8) 0xff00ff) else sum.

Definition csum_block_add (csum csum2 offset : Z) : Z := csum_add csum (csum_swap csum2 offset).
Definition csum_block_sub (csum csum2 offset : Z) : Z := csum_sub csum (csum_swap csum2 offset).

(** The four bytes of a word in memory. *)
Definition bytes32 (x : Z) : list Z :=
  [Z.land x 0xff; Z.land (Z.shiftr x 8) 0xff; Z.land (Z.shiftr x 16) 0xff; Z.land (Z.shiftr x 24) 0xff].

(** [diff] is an aligned array on the stack; [addr] is its address. *)
Definition csum_replace4 (addr sum from to : Z) : option Z :=
  s ← csum_partial addr (bytes32 (not32 from) ++ bytes32 to) (not32 sum);
  Some (csum_fold s).

Definition csum_replace2 (addr sum from to : Z) : option Z := csum_replace4 addr sum from to.
End do_csum.

(** * One's complement sums *)

(** The 16-bit words of a buffer, a last single byte filled up with zero. *)
Fixpoint sum16 (buff : list Z) : Z :=
  match buff with
  | a :: b :: buff => a + 256 * b + sum16 buff
  | [a] => a
  | [] => 0
  end.

(** The number from 0 to 65535 that is [s] modulo 65535, 0 only for 0. *)
Definition ones_sum (s : Z) : Z := if s =? 0 then 0 else (s - 1) mod 65535 + 1.

(** The same one's complement number. *)
Definition same16 (s r : Z) : Prop := 0 <= s /\ 0 <= r /\ (exists k, r = s + 65535 * k) /\ (r = 0 <-> s = 0).

#[export] Instance same16_transitive : Transitive same16.
Proof.
  intros a b c (Ha & Hb & [k Hk] & Hz) (_ & Hc & [j Hj] & Hz'). split_and!; [done..| |tauto].
  exists (k + j). lia.
Qed.

Lemma same16_sym a b : same16 a b -> same16 b a.
Proof. intros (Ha & Hb & [k Hk] & Hz). split_and!; [done..| |tauto]. exists (- k). lia. Qed.

Lemma same16_refl a : 0 <= a -> same16 a a.
Proof. intros Ha. split_and!; [done..| |tauto]. exists 0. lia. Qed.

Lemma same16_add a a' b b' : same16 a a' -> same16 b b' -> same16 (a + b) (a' + b').
Proof.
  intros (Ha & Ha' & [k Hk] & Hz) (Hb & Hb' & [j Hj] & Hz'). split_and!; [lia..| |lia]. exists (k + j). lia.
Qed.

Lemma same16_small a r : same16 a r -> r <= 65535 -> r = ones_sum a.
Proof.
  intros (Ha & Hr & [k Hk] & Hz) Hle. unfold ones_sum. destruct (Z.eqb_spec a 0) as [E|E]; [tauto|].
  assert (r <> 0) by tauto. subst r. rewrite <- (Z.mod_add (a - 1) k) by lia. rewrite Z.mod_small by lia. lia.
Qed.

Lemma ones_sum_same a : 0 <= a -> same16 a (ones_sum a) /\ 0 <= ones_sum a <= 65535.
Proof.
  intros Ha. unfold ones_sum. destruct (Z.eqb_spec a 0) as [->|E]; [split; [by apply same16_refl|lia]|].
  pose proof (Z.mod_pos_bound (a - 1) 65535). pose proof (Z.div_mod (a - 1) 65535). split; [|lia].
  split_and!; [lia..| |lia]. exists (- ((a - 1) / 65535)). lia.
Qed.

Lemma same16_ones a b : same16 a b -> ones_sum a = ones_sum b.
Proof.
  intros H. assert (Hb : 0 <= b) by apply H. destruct (ones_sum_same b Hb) as [Hs Hr]. symmetry.
  apply same16_small; [by transitivity b|lia].
Qed.

(** Adding the upper to the lower half. *)
Lemma same16_halves x : 0 <= x -> same16 x (Z.land x 0xffff + Z.shiftr x 16).
Proof.
  intros Hx. change 0xffff with (Z.ones 16). rewrite Z.land_ones, Z.shiftr_div_pow2 by lia.
  pose proof (Z.div_mod x (2 ^ 16)). pose proof (Z.mod_pos_bound x (2 ^ 16)). pose proof (Z.div_pos x (2 ^ 16)).
  split_and!; [lia..| |lia]. exists (- (x / 2 ^ 16)). lia.
Qed.

Lemma halves_bound x n : 0 <= x < 65536 * n -> 0 <= Z.land x 0xffff + Z.shiftr x 16 < 65535 + n.
Proof.
  intros Hx. change (Z.land x 0xffff) with (Z.land x (Z.ones 16)). rewrite Z.land_ones, Z.shiftr_div_pow2 by lia.
  pose proof (Z.mod_pos_bound x (2 ^ 16)). pose proof (Z.div_pos x (2 ^ 16)).
  assert (x / 2 ^ 16 < n) by (apply Z.div_lt_upper_bound; lia). lia.
Qed.

(** Folding twice is enough below 2^32. *)
Lemma folded_twice x (f := fun x => Z.land x 0xffff + Z.shiftr x 16) :
  0 <= x < 2 ^ 32 -> f (f x) = ones_sum x /\ 0 <= f x < 2 ^ 17.
Proof.
  intros Hx. pose proof (halves_bound x (2 ^ 16) ltac:(lia)) as H1. fold (f x) in H1.
  assert (H2 : f (f x) <= 65535).
  { unfold f at 1. change (Z.land (f x) 0xffff) with (Z.land (f x) (Z.ones 16)). rewrite Z.land_ones, Z.shiftr_div_pow2 by lia.
    pose proof (Z.div_mod (f x) (2 ^ 16)). pose proof (Z.mod_pos_bound (f x) (2 ^ 16)).
    assert (f x / 2 ^ 16 < 2) by (apply Z.div_lt_upper_bound; lia).
    assert (0 <= f x / 2 ^ 16) by (apply Z.div_pos; lia). lia. }
  split; [|lia]. apply same16_small; [|done].
  transitivity (f x); apply same16_halves; lia.
Qed.

(** ** Buffers *)

Lemma sum16_nonneg buff : Forall (is_word 8) buff -> 0 <= sum16 buff.
Proof.
  induction buff as [buff IH] using (induction_ltof1 _ (@length Z)). destruct buff as [|a [|b buff]]; intros Hb.
  - done.
  - apply Forall_cons_iff in Hb as [[? _] _]. done.
  - rewrite !Forall_cons_iff in Hb. destruct Hb as ([? _] & [? _] & Hb). cbn [sum16].
    specialize (IH buff). unfold ltof in IH. simpl in IH. specialize (IH ltac:(lia) Hb). lia.
Qed.

Lemma sum16_app l r : Nat.Even (length l) -> sum16 (l ++ r) = sum16 l + sum16 r.
Proof.
  induction l as [l IH] using (induction_ltof1 _ (@length Z)). destruct l as [|a [|b l]]; intros He.
  - done.
  - destruct He as [k Hk]. simpl in Hk. lia.
  - cbn [app sum16]. rewrite IH; [lia|unfold ltof; simpl; lia|]. destruct He as [k Hk]. exists (k - 1)%nat. simpl in Hk. lia.
Qed.

(** A byte in front exchanges the halves of all words. *)
Lemma sum16_cons a l : Forall (is_word 8) (a :: l) -> same16 (sum16 (a :: l)) (a + 256 * sum16 l).
Proof.
  revert a. induction l as [l IH] using (induction_ltof1 _ (@length Z)). destruct l as [|b l]; intros a Ha.
  - cbn [sum16]. rewrite Z.mul_0_r, Z.add_0_r. apply same16_refl. apply Forall_cons_iff in Ha as [[? _] _]. lia.
  - rewrite !Forall_cons_iff in Ha. destruct Ha as ([Ha _] & Hb & Hl).
    change (sum16 (a :: b :: l)) with (a + 256 * b + sum16 l).
    destruct l as [|c l].
    + cbn [sum16]. replace (a + 256 * b + 0) with (a + 256 * b) by lia. apply same16_refl. destruct Hb. lia.
    + assert (H1 : same16 (sum16 (c :: l)) (c + 256 * sum16 l)) by (apply IH; [unfold ltof; simpl; lia|done]).
      change (sum16 (b :: c :: l)) with (b + 256 * c + sum16 l).
      apply Forall_cons_iff in Hl as [[Hc _] Hl]. pose proof (sum16_nonneg l Hl). destruct Hb as [Hb _].
      transitivity (a + 256 * b + (c + 256 * sum16 l)).
      * apply same16_add; [apply same16_refl; lia|done].
      * split_and!; [lia..| |lia]. exists c. lia.
Qed.

Lemma load16_spec buff :
  2 <= zlen buff -> Forall (is_word 8) buff ->
  exists w buff', load16 buff = Some (w, buff') /\ 0 <= w <= 65535 /\ sum16 buff = w + sum16 buff' /\
    zlen buff' = zlen buff - 2 /\ Forall (is_word 8) buff'.
Proof.
  destruct buff as [|a [|b buff]]; intros Hlen Hb; [done|done|]. rewrite !Forall_cons_iff in Hb.
  destruct Hb as ([? ?] & [? ?] & Hb). eexists _, _. split; [done|]. rewrite !zlen_cons. cbn [sum16].
  split_and!; try done; lia.
Qed.

Lemma load32_spec buff :
  4 <= zlen buff -> Forall (is_word 8) buff ->
  exists w buff', load32 buff = Some (w, buff') /\ 0 <= w < 2 ^ 32 /\ same16 (sum16 buff) (w + sum16 buff') /\
    zlen buff' = zlen buff - 4 /\ Forall (is_word 8) buff'.
Proof.
  destruct buff as [|a [|b [|c [|d buff]]]]; intros Hlen Hb; [done..|]. rewrite !Forall_cons_iff in Hb.
  destruct Hb as ([? ?] & [? ?] & [? ?] & [? ?] & Hb). eexists _, _. split; [done|]. rewrite !zlen_cons. cbn [sum16].
  pose proof (sum16_nonneg buff Hb). split_and!; try done; try lia.
  split_and!; [lia..| |lia]. exists (c + 256 * d). lia.
Qed.

(** ** The loop over words *)

(** Lengths for which no carry is lost: 32-bit longs add carries around, 64-bit
    ones only have room for them. *)
Definition width_ok (bits len : Z) : Prop := bits = 32 \/ bits = 64 /\ len <= 0x3fff0.

(** Before the last [n] words. *)
Definition words_inv (bits n r c : Z) : Prop :=
  0 <= r /\ 0 <= c <= 1 /\
  (bits = 32 /\ r + c < 2 ^ 32 \/ bits = 64 /\ c = 0 /\ r + n * (2 ^ 32 - 1) < 2 ^ 48 - 2 ^ 34 + 2 ^ 17).

Lemma words_step bits n r c w :
  0 <= n -> words_inv bits (n + 1) r c -> 0 <= w < 2 ^ 32 ->
  let r' := wrap bits (wrap bits (r + c) + w) in
  let c' := if r' <? w then 1 else 0 in
  words_inv bits n r' c' /\ same16 (r + c + w) (r' + c').
Proof.
  intros Hn (Hr & Hc & [[-> Hlt]|(-> & -> & Hlt)]) Hw r' c'.
  - assert (Hr' : r' = r + c + w \/ r' = r + c + w - 2 ^ 32 /\ r' < w).
    { unfold r'. rewrite (wrap_small 32 (r + c)) by (unfold is_word; lia). unfold wrap.
      destruct (Z.lt_ge_cases (r + c + w) (2 ^ 32)); [left; apply Z.mod_small; lia|right].
      rewrite <- (Z.mod_add _ (-1)), Z.mod_small by lia. lia. }
    unfold c'. destruct Hr' as [E|[E Hlw]].
    + rewrite (proj2 (Z.ltb_ge _ _)) by lia. assert (0 <= r' < 2 ^ 32) by (apply (wrap_range 32); lia).
      split; [split_and!; [lia..|left; lia]|]. rewrite Z.add_0_r, E. apply same16_refl. lia.
    + rewrite (proj2 (Z.ltb_lt _ _)) by lia. assert (0 <= r' < 2 ^ 32) by (apply (wrap_range 32); lia).
      split; [split_and!; [lia..|left; lia]|]. split_and!; [lia..| |lia]. exists (- 65537). lia.
  - assert (E : r' = r + w).
    { unfold r'. rewrite Z.add_0_r, (wrap_small 64 r), wrap_small by (unfold is_word; lia). done. }
    unfold c'. rewrite E, (proj2 (Z.ltb_ge _ _)) by lia. split; [split_and!; [lia..|right; lia]|].
    rewrite !Z.add_0_r. apply same16_refl. lia.
Qed.

Lemma csum_words_spec bits count r c buff :
  words_inv bits (Z.of_nat count) r c -> 4 * Z.of_nat count <= zlen buff -> Forall (is_word 8) buff ->
  exists r' c' buff', csum_words bits count r c buff = Some (r', c', buff') /\ words_inv bits 0 r' c' /\
    same16 (r + c + sum16 buff) (r' + c' + sum16 buff') /\
    zlen buff' = zlen buff - 4 * Z.of_nat count /\ Forall (is_word 8) buff'.
Proof.
  revert r c buff. induction count as [|count IH]; intros r c buff Hinv Hlen Hb.
  - exists r, c, buff. split; [done|]. split; [done|]. destruct Hinv as (? & ? & _). pose proof (sum16_nonneg buff Hb).
    split_and!; [apply same16_refl; lia|lia|done].
  - destruct (load32_spec buff) as (w & buff1 & Hload & Hw & Hsum & Hl1 & Hb1); [lia|done|].
    cbn [csum_words]. rewrite Hload. cbn [mbind option_bind].
    destruct (words_step bits (Z.of_nat count) r c w) as [Hinv' Hs]; [lia| |done|].
    { replace (Z.of_nat count + 1) with (Z.of_nat (S count)) by lia. done. }
    cbv zeta in Hinv', Hs. set (r1 := wrap bits _) in *. set (c1 := if _ <? w then 1 else 0) in *.
    destruct (IH r1 c1 buff1 Hinv') as (r' & c' & buff' & -> & Hi & Hsame & Hl & Hb'); [lia|done|].
    exists r', c', buff'. split; [done|]. split; [done|]. split_and!; [|lia|done].
    transitivity (r1 + c1 + sum16 buff1); [|done]. pose proof (sum16_nonneg buff1 Hb1).
    destruct Hinv as (? & ? & _).
    transitivity (r + c + w + sum16 buff1); [|apply same16_add; [done|apply same16_refl; lia]].
    replace (r + c + w + sum16 buff1) with (r + c + (w + sum16 buff1)) by lia.
    apply same16_add; [apply same16_refl; lia|done].
Qed.

(** ** The whole sum *)

Lemma width_bounds bits len : width_ok bits len -> 2 ^ 32 <= 2 ^ bits.
Proof. intros [->|[-> _]]; lia. Qed.

Lemma csum_short_spec bits (cond : bool) r buff :
  2 ^ 32 <= 2 ^ bits -> 0 <= r < 2 ^ 32 - 65535 -> (cond = true -> 2 <= zlen buff) -> Forall (is_word 8) buff ->
  exists r' buff', csum_short bits cond r buff = Some (r', buff') /\
    same16 (r + sum16 buff) (r' + sum16 buff') /\ 0 <= r' <= r + (if cond then 65535 else 0) /\
    zlen buff' = zlen buff - (if cond then 2 else 0) /\ Forall (is_word 8) buff'.
Proof.
  intros Hbits Hr Hlen Hb. pose proof (sum16_nonneg buff Hb). unfold csum_short. destruct cond.
  - destruct (load16_spec buff) as (w & buff' & -> & Hw & Hs & Hl & Hb'); [auto|done|]. cbn [mbind option_bind].
    rewrite wrap_small by (unfold is_word; lia). eexists _, _. split; [done|].
    split_and!; [rewrite Hs, Z.add_assoc; apply same16_refl|..]; (done || lia).
  - exists r, buff. split_and!; try done; try lia. apply same16_refl. lia.
Qed.

Lemma csum_long_spec bits count r buff :
  width_ok bits (4 * count) -> 0 <= r < 2 ^ 17 -> 0 <= count -> 4 * count <= zlen buff -> Forall (is_word 8) buff ->
  exists r' buff', csum_long bits count r buff = Some (r', buff') /\
    same16 (r + sum16 buff) (r' + sum16 buff') /\ 0 <= r' < 2 ^ 32 - 2 ^ 17 /\
    zlen buff' = zlen buff - 4 * count /\ Forall (is_word 8) buff'.
Proof.
  intros Hw Hr Hc Hlen Hb. pose proof (sum16_nonneg buff Hb). pose proof (width_bounds _ _ Hw) as Htop. unfold csum_long.
  destruct (Z.eqb_spec count 0) as [->|Hne]; simpl.
  { exists r, buff. split_and!; try done; try lia. apply same16_refl. lia. }
  destruct (csum_words_spec bits (Z.to_nat count) r 0 buff) as (r' & c' & buff' & -> & Hi & Hs & Hl & Hb').
  { rewrite Z2Nat.id by lia. split_and!; [lia..|]. destruct Hw as [->|[-> ?]]; [left; lia|right; lia]. }
  { lia. } { done. }
  cbn [mbind option_bind]. pose proof (sum16_nonneg buff' Hb'). destruct Hi as (Hr' & Hc' & Hbits).
  set (n := if bits =? 32 then 2 ^ 16 else 2 ^ 32 - 2 ^ 18 + 2).
  assert (Hbound : r' + c' < 65536 * n).
  { unfold n. destruct Hbits as [[-> ?]|(-> & -> & ?)]; simpl; lia. }
  assert (Hn : 65536 * n <= 2 ^ bits) by (unfold n; destruct Hbits as [[-> _]|[-> _]]; simpl; lia).
  rewrite (wrap_small bits (r' + c')) by (unfold is_word; lia).
  pose proof (halves_bound (r' + c') n ltac:(lia)) as Hh. pose proof (same16_halves (r' + c') ltac:(lia)) as Hsh.
  assert (Hn2 : 65535 + n <= 2 ^ 32 - 2 ^ 17) by (unfold n; destruct Hbits as [[-> _]|[-> _]]; simpl; lia).
  rewrite wrap_small by (unfold is_word; lia). eexists _, _. split; [done|].
  split_and!; [|lia|lia|rewrite Hl, Z2Nat.id by lia; lia|done].
  rewrite Z.add_0_r in Hs. transitivity (r' + c' + sum16 buff'); [done|].
  apply same16_add; [done|apply same16_refl; lia].
Qed.

Lemma land_1 x : Z.land x 1 = x mod 2.
Proof. change 1 with (Z.ones 1) at 1. by rewrite Z.land_ones by lia. Qed.

Lemma land_2 x : Z.land x 2 = 0 /\ x mod 4 = x mod 2 \/ Z.land x 2 <> 0 /\ x mod 4 = 2 + x mod 2.
Proof.
  assert (E : Z.land x 2 = Z.land (x mod 4) 2).
  { change 4 with (2 ^ 2). rewrite <- Z.land_ones, <- Z.land_assoc by lia. done. }
  rewrite E. assert (Hm : x mod 2 = (x mod 4) mod 2) by (Z.div_mod_to_equations; lia). rewrite Hm.
  assert (Hx : 0 <= x mod 4 < 4) by (apply Z.mod_pos_bound; lia).
  assert (Hc : x mod 4 = 0 \/ x mod 4 = 1 \/ x mod 4 = 2 \/ x mod 4 = 3) by lia.
  destruct Hc as [->|[->|[->| ->]]]; [left|left|right|right]; by vm_compute.
Qed.

Lemma csum_block_spec bits addr r buff :
  width_ok bits (zlen buff) -> 0 <= r <= 255 -> Forall (is_word 8) buff ->
  exists r' len' buff', csum_block bits addr (zlen buff) r buff = Some (r', len', buff') /\
    same16 (r + sum16 buff) (r' + sum16 buff') /\ 0 <= r' < 2 ^ 32 - 2 ^ 16 /\
    len' mod 2 = zlen buff' /\ Forall (is_word 8) buff'.
Proof.
  intros Hw Hr Hb. pose proof (width_bounds _ _ Hw) as Hbits. pose proof (zlen_nonneg buff) as Hlen.
  pose proof (sum16_nonneg buff Hb). unfold csum_block. rewrite Z.shiftr_div_pow2 by lia. change (2 ^ 1) with 2.
  destruct (Z.eqb_spec (zlen buff / 2) 0) as [E|E]; simpl negb; cbv iota.
  { eexists _, _, _. split; [done|]. split_and!; try done; try lia; [apply same16_refl; lia|]. Z.div_mod_to_equations. lia. }
  set (short := negb (Z.land 2 addr =? 0)).
  destruct (csum_short_spec bits short r buff) as (r1 & b1 & -> & Hs1 & Hr1 & Hl1 & Hb1);
    [lia|lia|intros _; Z.div_mod_to_equations; lia|done|]. cbn [mbind option_bind].
  set (len := if short then zlen buff - 2 else zlen buff).
  assert (Hb1l : zlen b1 = len) by (unfold len; destruct short; lia).
  assert (Hcount : Z.shiftr (if short then zlen buff / 2 - 1 else zlen buff / 2) 1 = len / 4).
  { rewrite Z.shiftr_div_pow2 by lia. unfold len. destruct short; Z.div_mod_to_equations; lia. }
  rewrite Hcount. assert (0 <= len) by (rewrite <- Hb1l; apply zlen_nonneg).
  destruct (csum_long_spec bits (len / 4) r1 b1) as (r2 & b2 & -> & Hs2 & Hr2 & Hl2 & Hb2).
  { destruct Hw as [->|[-> ?]]; [by left|right]. split; [done|]. unfold len in *. destruct short; Z.div_mod_to_equations; lia. }
  { destruct short; lia. } { apply Z.div_pos; lia. } { rewrite Hb1l. Z.div_mod_to_equations; lia. } { done. }
  cbn [mbind option_bind]. pose proof (land_2 len) as H2. fold len.
  destruct (csum_short_spec bits (negb (Z.land len 2 =? 0)) r2 b2) as (r3 & b3 & -> & Hs3 & Hr3 & Hl3 & Hb3);
    [lia|lia| |done|].
  { intros Hn%negb_true_iff%Z.eqb_neq. Z.div_mod_to_equations; lia. }
  cbn [mbind option_bind]. eexists _, _, _. split; [done|]. split_and!; [|lia| |  |done].
  - transitivity (r1 + sum16 b1); [done|]. by transitivity (r2 + sum16 b2).
  - destruct (negb (Z.land len 2 =? 0)); lia.
  - rewrite Hl3, Hl2, Hb1l. destruct (Z.eqb_spec (Z.land len 2) 0); simpl; Z.div_mod_to_equations; lia.
Qed.

Lemma csum_aligned_spec bits addr r buff :
  width_ok bits (zlen buff) -> 0 <= r <= 255 -> Forall (is_word 8) buff ->
  exists x, csum_aligned bits addr r buff = Some x /\ same16 (r + sum16 buff) x /\ 0 <= x < 2 ^ 32.
Proof.
  intros Hw Hr Hb. pose proof (width_bounds _ _ Hw) as Hbits. unfold csum_aligned.
  destruct (csum_block_spec bits addr r buff Hw Hr Hb) as (r' & len' & buff' & -> & Hs & Hr' & Hl & Hb').
  cbn [mbind option_bind]. rewrite land_1, Hl.
  destruct buff' as [|x [|y buff']].
  - simpl. exists r'. split_and!; [done| |lia..]. by rewrite Z.add_0_r in Hs.
  - simpl. apply Forall_cons_iff in Hb' as [[? ?] _]. rewrite wrap_small by (unfold is_word; lia).
    eexists. split_and!; [done|exact Hs|lia..].
  - exfalso. rewrite !zlen_cons in Hl. pose proof (zlen_nonneg buff'). pose proof (Z.mod_pos_bound len' 2). lia.
Qed.

Lemma from32to16_spec bits len x : width_ok bits len -> 0 <= x < 2 ^ 32 -> from32to16 bits x = ones_sum x.
Proof.
  intros Hw Hx. pose proof (width_bounds _ _ Hw) as Hbits.
  destruct (folded_twice x ltac:(lia)) as [E H1]. cbv zeta beta in E, H1. destruct (ones_sum_same x ltac:(lia)) as [_ Hr].
  unfold from32to16. rewrite (wrap_small bits (Z.land x 0xffff + Z.shiftr x 16)) by (unfold is_word; lia).
  rewrite E. by rewrite (wrap_small bits (ones_sum x)), wrap_small by (unfold is_word; lia).
Qed.

Lemma same16_scale a b : same16 a b -> same16 (256 * a) (256 * b).
Proof. intros (? & ? & [k Hk] & ?). split_and!; [lia..| |lia]. exists (256 * k). lia. Qed.

Lemma swap_bytes r : 0 <= r <= 65535 ->
  let y := Z.lor (Z.land (Z.shiftr r 8) 0xff) (Z.shiftl (Z.land r 0xff) 8) in
  same16 (256 * r) y /\ 0 <= y <= 65535.
Proof.
  intros Hr y. assert (E : y = r / 256 + 256 * (r mod 256)).
  { unfold y. change 0xff with (Z.ones 8). rewrite !Z.land_ones, Z.shiftr_div_pow2, Z.shiftl_mul_pow2 by lia.
    change (2 ^ 8) with 256. rewrite (Z.mod_small (r / 256)) by (Z.div_mod_to_equations; lia).
    assert (Hl : Z.land (r / 256) (r mod 256 * 256) = 0).
    { bitwise i Hi. change 256 with (2 ^ 8) at 3. rewrite <- Z.shiftl_mul_pow2, Z.shiftl_spec by lia.
      destruct (Z.lt_ge_cases i 8); [by rewrite (Z.testbit_neg_r (r mod 256)), andb_false_r by lia|].
      by rewrite (word_bits_high 8 (r / 256)) by (lia || (unfold is_word; Z.div_mod_to_equations; lia)). }
    rewrite <- Z.lxor_lor, <- Z.add_nocarry_lxor by done. lia. }
  rewrite E. assert (0 <= r / 256 <= 255 /\ 0 <= r mod 256 <= 255 /\ r = 256 * (r / 256) + r mod 256)
    by (Z.div_mod_to_equations; lia).
  split; [|lia]. split_and!; [lia..| |lia]. exists (- (r / 256)). lia.
Qed.

Lemma even_land addr : Z.land 1 addr = if Z.even addr then 0 else 1.
Proof. rewrite Z.land_comm, land_1, Zmod_even. done. Qed.

Lemma do_csum_even bits addr buff :
  width_ok bits (zlen buff) -> Forall (is_word 8) buff -> Z.even addr = true ->
  do_csum bits addr buff = Some (ones_sum (sum16 buff)).
Proof.
  intros Hw Hb Ha. unfold do_csum. destruct buff as [|x buff]; [done|]. rewrite even_land, Ha. simpl negb. cbv iota.
  destruct (csum_aligned_spec bits addr 0 (x :: buff)) as (y & -> & Hs & Hy); [done|lia|done|].
  cbn [mbind option_bind]. rewrite (from32to16_spec bits _ y Hw) by done.
  f_equal. symmetry. rewrite Z.add_0_l in Hs. by apply same16_ones.
Qed.

(** At an odd address the first byte is counted 256 times instead of once. *)
Lemma do_csum_odd bits addr x buff :
  width_ok bits (zlen (x :: buff)) -> Forall (is_word 8) (x :: buff) -> Z.even addr = false ->
  do_csum bits addr (x :: buff) = Some (ones_sum (sum16 (x :: buff) + 255 * x)).
Proof.
  intros Hw Hb Ha. unfold do_csum. rewrite even_land, Ha. simpl negb. cbv iota.
  pose proof Hb as [[Hx0 Hx1] Hb']%Forall_cons_iff.
  destruct (csum_aligned_spec bits (addr + 1) x buff) as (y & -> & Hs & Hy); [|lia|done|].
  { rewrite zlen_cons in Hw. destruct Hw as [->|[-> ?]]; [by left|right; lia]. }
  cbn [mbind option_bind]. rewrite (from32to16_spec bits _ y Hw) by done.
  destruct (ones_sum_same y ltac:(lia)) as [Hy1 Hr]. destruct (swap_bytes (ones_sum y) Hr) as [Hsw Hle]. cbv zeta in Hsw, Hle.
  f_equal. apply same16_small; [|lia]. etransitivity; [|exact Hsw].
  transitivity (256 * (x + sum16 buff)).
  - replace (256 * (x + sum16 buff)) with (x + 256 * sum16 buff + 255 * x) by lia.
    apply same16_add; [by apply sum16_cons|apply same16_refl; lia].
  - apply same16_scale. by transitivity y.
Qed.

(** ** Partial sums *)

Lemma not16_spec x : 0 <= x <= 65535 -> not16 x = 65535 - x.
Proof.
  intros Hx. unfold not16, Z.lnot, wrap. rewrite <- (Z.mod_add _ 1), Z.mod_small by lia. lia.
Qed.

Lemma not32_spec x : is_u32 x -> not32 x = 2 ^ 32 - 1 - x.
Proof.
  intros [? ?]. unfold not32, Z.lnot, wrap. rewrite <- (Z.mod_add _ 1), Z.mod_small by lia. lia.
Qed.

Lemma csum_fold_spec x : is_u32 x -> csum_fold x = 65535 - ones_sum x.
Proof.
  intros Hx. destruct (folded_twice x) as [E H1]; [destruct Hx; lia|]. cbv zeta beta in E, H1. unfold csum_fold.
  rewrite (wrap_small 32 (Z.land x 0xffff + Z.shiftr x 16)) by (unfold is_word; lia). rewrite E.
  destruct (ones_sum_same x) as [_ Hr]; [apply Hx|].
  rewrite wrap_small by (unfold is_word; lia). by apply not16_spec.
Qed.

Lemma csum_add_spec a b : is_u32 a -> is_u32 b -> same16 (a + b) (csum_add a b) /\ is_u32 (csum_add a b).
Proof.
  intros [? ?] [? ?]. split; [|apply wrap_range; lia]. unfold csum_add.
  destruct (Z.lt_ge_cases (a + b) (2 ^ 32)).
  - rewrite (wrap_small 32 (a + b)), (proj2 (Z.ltb_ge _ _)), Z.add_0_r, wrap_small by (unfold is_word; lia).
    apply same16_refl. lia.
  - assert (E : u32 (a + b) = a + b - 2 ^ 32).
    { unfold wrap. rewrite <- (Z.mod_add _ (-1)), Z.mod_small by lia. lia. }
    rewrite E, (proj2 (Z.ltb_lt _ _)), wrap_small by (unfold is_word; lia).
    split_and!; [lia..| |lia]. exists (- 65537). lia.
Qed.

Lemma csum_partial_spec bits addr buff sum :
  width_ok bits (zlen buff) -> Forall (is_word 8) buff -> Z.even addr = true -> is_u32 sum ->
  exists s, csum_partial bits addr buff sum = Some s /\ is_u32 s /\ same16 (sum + sum16 buff) s.
Proof.
  intros Hw Hb Ha Hs. unfold csum_partial. rewrite do_csum_even by done. cbn [mbind option_bind].
  pose proof (sum16_nonneg buff Hb) as Hn. destruct (ones_sum_same _ Hn) as [Ho Hr].
  assert (Hr32 : is_u32 (ones_sum (sum16 buff))) by (unfold is_word; lia).
  destruct (csum_add_spec (ones_sum (sum16 buff)) sum Hr32 Hs) as [Hadd Hrange].
  eexists. split; [done|].
  assert (E : (if u32 (ones_sum (sum16 buff) + sum) <? sum then u32 (u32 (ones_sum (sum16 buff) + sum) + 1)
               else u32 (ones_sum (sum16 buff) + sum)) = csum_add (ones_sum (sum16 buff)) sum).
  { unfold csum_add. destruct (_ <? sum); [done|]. rewrite Z.add_0_r. symmetry. apply wrap_wrap. lia. }
  rewrite E. split; [done|]. etransitivity; [|exact Hadd]. rewrite Z.add_comm.
  apply same16_add; [done|apply same16_refl; apply Hs].
Qed.

Lemma land_bytes x : 0 <= x -> Z.land x 0xff00ff = x mod 256 + 65536 * (x / 65536 mod 256).
Proof.
  intros Hx. assert (Hl : Z.land (x mod 256) (65536 * (x / 65536 mod 256)) = 0).
  { bitwise i Hi. rewrite Z.mul_comm. change 65536 with (2 ^ 16) at 2. rewrite <- Z.shiftl_mul_pow2, Z.shiftl_spec by lia.
    destruct (Z.lt_ge_cases i 16); [by rewrite (Z.testbit_neg_r (x / 65536 mod 256)), andb_false_r by lia|].
    by rewrite (word_bits_high 8 (x mod 256)) by (lia || apply (wrap_range 8); lia). }
  rewrite Z.add_nocarry_lxor, Z.lxor_lor by done.
  change 0xff00ff with (Z.lor (Z.ones 8) (Z.shiftl (Z.ones 8) 16)). rewrite Z.land_lor_distr_r. f_equal.
  - by rewrite Z.land_ones by lia.
  - change (x / 65536 mod 256) with (wrap 8 (x / 2 ^ 16)). change 65536 with (2 ^ 16). rewrite Z.mul_comm, <- Z.shiftl_mul_pow2 by lia.
    bitwise i Hi. destruct (Z.lt_ge_cases i 16).
    + rewrite !(Z.testbit_neg_r _ (i - 16)), andb_false_r by lia. done.
    + rewrite ones_bits, wrap_bits, Z.div_pow2_bits by lia. rewrite andb_comm. f_equal. f_equal. lia.
Qed.

Lemma csum_swap_spec x off :
  is_u32 x -> is_u32 (csum_swap x off) /\
    same16 (if Z.even off then x else 256 * x) (csum_swap x off).
Proof.
  intros Hx. unfold csum_swap. rewrite Z.land_comm, even_land. destruct (Z.even off); simpl.
  { split; [done|]. apply same16_refl, Hx. }
  split; [apply wrap_range; lia|]. destruct Hx as [Hx0 Hx1]. rewrite Z.shiftr_div_pow2, Z.shiftl_mul_pow2 by lia.
  rewrite !land_bytes by (lia || apply Z.div_pos; lia). change (2 ^ 8) with 256.
  assert (Hd : exists b0 b1 b2 b3, x mod 256 = b0 /\ x / 65536 mod 256 = b2 /\ x / 256 mod 256 = b1 /\
    x / 256 / 65536 mod 256 = b3 /\ x = b0 + 256 * b1 + 65536 * b2 + 16777216 * b3 /\
    0 <= b0 < 256 /\ 0 <= b1 < 256 /\ 0 <= b2 < 256 /\ 0 <= b3 < 256).
  { eexists _, _, _, _. do 4 (split; [reflexivity|]). Z.div_mod_to_equations; lia. }
  destruct Hd as (b0 & b1 & b2 & b3 & -> & -> & -> & -> & -> & H0 & H1 & H2 & H3).
  rewrite wrap_small by (unfold is_word; lia). split_and!; [lia..| |lia]. exists (- (b1 + 65536 * b3)). lia.
Qed.

Lemma csum_sub_spec a b :
  is_u32 a -> is_u32 b -> is_u32 (csum_sub a b) /\ same16 (a + (2 ^ 32 - 1 - b)) (csum_sub a b).
Proof.
  intros Ha Hb. unfold csum_sub. rewrite not32_spec by done. destruct Hb.
  assert (Hn : is_u32 (2 ^ 32 - 1 - b)) by (unfold is_word; lia).
  destruct (csum_add_spec a (2 ^ 32 - 1 - b) Ha Hn). done.
Qed.

Lemma bytes32_spec x : is_u32 x ->
  Forall (is_word 8) (bytes32 x) /\ length (bytes32 x) = 4%nat /\ same16 x (sum16 (bytes32 x)).
Proof.
  intros [Hx0 Hx1]. unfold bytes32. change 0xff with (Z.ones 8). rewrite !Z.land_ones, !Z.shiftr_div_pow2 by lia.
  split; [repeat constructor; apply (wrap_range 8); lia|]. split; [done|]. cbn [sum16].
  change (2 ^ 8) with 256. change (2 ^ 16) with 65536. change (2 ^ 24) with 16777216.
  split_and!; [lia|Z.div_mod_to_equations; lia| |Z.div_mod_to_equations; lia].
  exists (- (x / 65536)). Z.div_mod_to_equations. lia.
Qed.

Lemma csum_replace4_spec bits addr sum from to :
  width_ok bits 8 -> Z.even addr = true -> 0 <= sum <= 65535 -> is_u32 from -> is_u32 to ->
  csum_replace4 bits addr sum from to =
  Some (65535 - ones_sum ((2 ^ 32 - 1 - sum) + (2 ^ 32 - 1 - from) + to)).
Proof.
  intros Hw Ha Hs Hf Ht. unfold csum_replace4. rewrite !not32_spec by (done || (unfold is_word; lia)).
  assert (Hnf : is_u32 (2 ^ 32 - 1 - from)) by (unfold is_word in *; lia).
  destruct (bytes32_spec _ Hnf) as (Hb1 & Hl1 & Hs1), (bytes32_spec _ Ht) as (Hb2 & Hl2 & Hs2).
  destruct (csum_partial_spec bits addr (bytes32 (2 ^ 32 - 1 - from) ++ bytes32 to) (2 ^ 32 - 1 - sum))
    as (s & -> & Hrange & Hsame); [|by apply Forall_app|done|unfold is_word; lia|].
  { unfold zlen. by rewrite length_app, Hl1, Hl2. }
  cbn [mbind option_bind]. rewrite csum_fold_spec by done. do 2 f_equal. symmetry. apply same16_ones.
  etransitivity; [|exact Hsame]. rewrite sum16_app by (rewrite Hl1; by exists 2%nat). rewrite Z.add_assoc.
  do 2 (apply same16_add; [|done]). apply same16_refl. lia.
Qed.

(** ** Pieces of a message *)

Lemma sum16_app_odd l r :
  Nat.Odd (length l) -> Forall (is_word 8) (l ++ r) -> same16 (sum16 (l ++ r)) (sum16 l + 256 * sum16 r).
Proof.
  induction l as [l IH] using (induction_ltof1 _ (@length Z)). destruct l as [|a [|b l]]; intros [k Hk] Hb.
  - simpl in Hk. lia.
  - by apply sum16_cons.
  - cbn [app sum16] in *. rewrite !Forall_cons_iff in Hb. destruct Hb as ([? _] & [? _] & Hb).
    rewrite <- (Z.add_assoc _ (sum16 l)). apply same16_add; [apply same16_refl; lia|].
    apply IH; [unfold ltof; simpl; lia| |done]. exists (k - 1)%nat. simpl in Hk. lia.
Qed.

Lemma even_zlen (l : list Z) :
  Z.even (zlen l) = true /\ Nat.Even (length l) \/ Z.even (zlen l) = false /\ Nat.Odd (length l).
Proof.
  unfold zlen. destruct (Nat.Even_or_Odd (length l)) as [H|H]; [left|right]; (split; [|done]); destruct H as [k ->].
  - by rewrite Nat2Z.inj_mul, Z.even_mul.
  - by rewrite Nat2Z.inj_add, Nat2Z.inj_mul, Z.even_add, Z.even_mul.
Qed.

(** The sum of a message from the sums of two pieces, wherever it is divided. *)
Lemma csum_block_add_spec l r s1 s2 :
  Forall (is_word 8) (l ++ r) -> is_u32 s1 -> is_u32 s2 ->
  same16 (sum16 l) s1 -> same16 (sum16 r) s2 ->
  is_u32 (csum_block_add s1 s2 (zlen l)) /\ same16 (sum16 (l ++ r)) (csum_block_add s1 s2 (zlen l)).
Proof.
  intros Hb H1 H2 Hs1 Hs2. unfold csum_block_add. destruct (csum_swap_spec s2 (zlen l) H2) as [Hr Hsw].
  destruct (csum_add_spec s1 (csum_swap s2 (zlen l)) H1 Hr) as [Hadd Hrange]. split; [done|].
  etransitivity; [|exact Hadd].
  destruct (even_zlen l) as [[E He]|[E Ho]]; rewrite E in Hsw.
  - rewrite sum16_app by done. apply same16_add; [done|]. by transitivity s2.
  - transitivity (sum16 l + 256 * sum16 r); [by apply sum16_app_odd|]. apply same16_add; [done|].
    transitivity (256 * s2); [by apply same16_scale|done].
Qed.

(** A message with its checksum in place sums to nothing. *)
Lemma verified_sum l r c :
  Nat.Even (length l) -> Forall (is_word 8) (l ++ 0 :: 0 :: r) ->
  c = 65535 - ones_sum (sum16 (l ++ 0 :: 0 :: r)) ->
  is_word 8 (c mod 256) /\ is_word 8 (c / 256) /\ ones_sum (sum16 (l ++ c mod 256 :: c / 256 :: r)) = 65535.
Proof.
  intros He Hb ->. pose proof (sum16_nonneg _ Hb) as Hn. destruct (ones_sum_same _ Hn) as [(_ & _ & [k Hk] & Hz) Hr].
  set (S := sum16 (l ++ 0 :: 0 :: r)) in *. set (c := 65535 - ones_sum S).
  split; [apply (wrap_range 8); lia|]. split; [unfold is_word, c; Z.div_mod_to_equations; lia|].
  assert (E : sum16 (l ++ c mod 256 :: c / 256 :: r) = S + c).
  { unfold S. rewrite !sum16_app by done. cbn [sum16]. pose proof (Z.div_mod c 256). lia. }
  rewrite E. symmetry. apply same16_small; [|lia]. split_and!; [unfold c; lia..| |unfold c; lia].
  exists (k). unfold c. lia.
Qed.

Lemma update_sum rest sum from to :
  0 <= rest -> 0 <= sum <= 65535 -> is_u32 from -> is_u32 to -> 0 < rest + to ->
  ones_sum (rest + from + sum) = 65535 ->
  ones_sum (rest + to + (65535 - ones_sum ((2 ^ 32 - 1 - sum) + (2 ^ 32 - 1 - from) + to))) = 65535.
Proof.
  intros Hrest Hs [Hf0 Hf1] [Ht0 Ht1] Hpos H.
  assert (Hn : 0 <= rest + from + sum) by lia. destruct (ones_sum_same _ Hn) as [(_ & _ & [k Hk] & _) _].
  set (d := 2 ^ 32 - 1 - sum + (2 ^ 32 - 1 - from) + to). assert (Hd : 0 <= d) by (unfold d; lia).
  destruct (ones_sum_same d Hd) as [(_ & _ & [j Hj] & _) Hr].
  symmetry. apply same16_small; [|lia]. split_and!; [lia..| |lia].
  exists (k + j - 1 + 2 * 65537). unfold d in *. lia.
Qed.

(** ** Pseudo-headers *)

Lemma tcpudp_spec saddr daddr len proto sum :
  is_u32 saddr -> is_u32 daddr -> is_u32 sum -> is_word 16 len -> is_word 16 proto ->
  let t := sum + saddr + daddr + 256 * (proto + len) in
  (t mod 2 ^ 32 + t / 2 ^ 32 < 2 ^ 32 -> csum_tcpudp_magic saddr daddr len proto sum = 65535 - ones_sum t).
Proof.
  intros [? ?] [? ?] [? ?] [? ?] [? ?] t Hlt. unfold csum_tcpudp_magic, csum_tcpudp_nofold.
  rewrite Z.shiftl_mul_pow2 by lia. change (2 ^ 8) with 256.
  rewrite (wrap_small 64 (sum + saddr)), (wrap_small 64 (sum + saddr + daddr)) by (unfold is_word; lia).
  replace (sum + saddr + daddr + (proto + len) * 256) with t by (unfold t; lia).
  assert (Ht : 0 <= t < 2 ^ 35) by (unfold t; lia).
  rewrite (wrap_small 64 t), Z.shiftr_div_pow2 by (unfold is_word; lia).
  pose proof (Z.div_mod t (2 ^ 32) ltac:(lia)) as Hdm. pose proof (Z.mod_pos_bound t (2 ^ 32)). pose proof (Z.div_pos t (2 ^ 32)).
  set (q := t / 2 ^ 32) in *. set (m := t mod 2 ^ 32) in *.
  assert (q < 8) by (apply Z.div_lt_upper_bound; lia).
  rewrite (wrap_small 64 (t + q)) by (unfold is_word; lia).
  assert (E : u32 (t + q) = m + q).
  { unfold wrap. replace (t + q) with (m + q + q * 2 ^ 32) by lia. rewrite Z.mod_add by lia. apply Z.mod_small. lia. }
  rewrite E, csum_fold_spec by (unfold is_word; lia). f_equal. symmetry. apply same16_ones.
  split_and!; [lia..| |lia]. exists (- (65537 * q)). lia.
Qed.

(** ** Copying *)

Lemma setw_prefix (dst : list Z) n F :
  0 <= n <= zlen dst -> setw dst 0 n F = (F <$> seqZ 0 n) ++ drop (Z.to_nat n) dst.
Proof.
  intros Hn. unfold zlen in Hn. apply list_eq. intros i. unfold setw. rewrite list_lookup_imap.
  destruct (decide (i < Z.to_nat n)%nat).
  - rewrite lookup_app_l by (rewrite length_fmap, length_seqZ; lia).
    rewrite list_lookup_fmap, lookup_seqZ_lt by lia.
    destruct (lookup_lt_is_Some_2 dst i) as [x ->]; [lia|]. simpl. rewrite (proj2 (Z.leb_le _ _)), (proj2 (Z.ltb_lt _ _)) by lia. done.
  - rewrite lookup_app_r by (rewrite length_fmap, length_seqZ; lia). rewrite lookup_drop, length_fmap, length_seqZ.
    replace (Z.to_nat n + (i - Z.to_nat n))%nat with i by lia. destruct (dst !! i); [|done]. simpl.
    by rewrite (proj2 (Z.ltb_ge _ _)), andb_false_r by lia.
Qed.

Lemma memcpy_prefix (dst src : list Z) n :
  0 <= n -> n <= zlen dst -> n <= zlen src ->
  memcpy dst 0 src 0 n = Some (take (Z.to_nat n) src ++ drop (Z.to_nat n) dst).
Proof.
  intros Hn Hd Hs. rewrite memcpy_spec by lia. rewrite Z.add_0_l, setw_prefix by lia. do 2 f_equal.
  apply list_eq. intros i. destruct (decide (i < Z.to_nat n)%nat).
  - rewrite list_lookup_fmap, lookup_seqZ_lt, lookup_take_lt by lia. simpl.
    replace (0 + (0 + Z.of_nat i - 0)) with (Z.of_nat i) by lia. rewrite Nat2Z.id.
    symmetry. apply list_lookup_lookup_total_lt. unfold zlen in *. lia.
  - rewrite lookup_take_ge, list_lookup_fmap, lookup_seqZ_ge by lia. done.
Qed.

(** Zeros behind the part that was copied. *)
Lemma zero_rest (l dst : list Z) m :
  0 <= m -> m <= zlen dst ->
  for_all 0 m (fun i dst => aset dst (zlen l + i) 0) (l ++ dst) =
  Some (l ++ replicate (Z.to_nat m) 0 ++ drop (Z.to_nat m) dst).
Proof.
  intros Hm Hd. match goal with |- for_all 0 m ?body _ = _ =>
    destruct (for_all_rule body (fun k d => d = l ++ replicate (Z.to_nat k) 0 ++ drop (Z.to_nat k) dst) 0 m (l ++ dst))
      as (d & -> & ->) end; [lia|done| |done].
  intros k d Hk ->. destruct (drop (Z.to_nat k) dst) as [|x rest] eqn:E.
  { apply (f_equal length) in E. rewrite length_drop in E. unfold zlen in *. simpl in E. lia. }
  rewrite (app_assoc l), (aset_mid (l ++ replicate (Z.to_nat k) 0) rest x 0)
    by (rewrite zlen_app; unfold zlen; rewrite length_replicate; lia).
  eexists. split; [done|]. replace (Z.to_nat (k + 1)) with (S (Z.to_nat k)) by lia.
  rewrite replicate_S_end, <- !app_assoc. simpl. do 3 f_equal.
  apply (f_equal (drop 1)) in E. rewrite drop_drop in E. simpl in E. rewrite drop_0 in E. rewrite <- E. f_equal. lia.
Qed.

Lemma copy_from_user_spec bits daddr dst src len sum missing :
  width_ok bits len -> Z.even daddr = true -> is_u32 sum -> Forall (is_word 8) src ->
  0 <= missing <= len -> len <= zlen src -> len <= zlen dst ->
  let data := take (Z.to_nat (len - missing)) src ++ replicate (Z.to_nat missing) 0 in
  exists s, csum_partial_copy_from_user bits daddr dst src len sum missing =
      Some (data ++ drop (Z.to_nat len) dst, if missing =? 0 then 0 else - EFAULT, s) /\
    is_u32 s /\ same16 (sum + sum16 data) s.
Proof.
  intros Hw Ha Hsum Hb Hm Hs Hd data. unfold csum_partial_copy_from_user. rewrite memcpy_prefix by lia. cbn [mbind option_bind].
  set (l := take (Z.to_nat (len - missing)) src) in *. set (dst1 := drop (Z.to_nat (len - missing)) dst).
  assert (Hl : zlen l = len - missing) by (unfold l, zlen in *; rewrite length_take; lia).
  assert (Hz : (if negb (missing =? 0) then
      d ← for_all 0 missing (fun i dst => aset dst (len - missing + i) 0) (l ++ dst1); Some (d, - EFAULT)
    else Some (l ++ dst1, 0)) = Some (data ++ drop (Z.to_nat len) dst, if missing =? 0 then 0 else - EFAULT)).
  { rewrite <- Hl. destruct (Z.eqb_spec missing 0) as [->|Hne]; simpl negb; cbv iota.
    - unfold data, dst1. rewrite Z.sub_0_r. simpl. by rewrite app_nil_r.
    - rewrite zero_rest by (unfold dst1, zlen in *; rewrite ?length_drop; lia). cbn [mbind option_bind].
      unfold data, dst1. rewrite drop_drop, <- app_assoc.
      by replace (Z.to_nat (len - missing) + Z.to_nat missing)%nat with (Z.to_nat len) by lia. }
  rewrite Hz. cbn [mbind option_bind].
  assert (Hdl : length data = Z.to_nat len).
  { unfold data. rewrite length_app, length_replicate. unfold zlen in Hl. lia. }
  rewrite take_app_length' by done.
  destruct (csum_partial_spec bits daddr data sum) as (s & -> & Hr & Hsame);
    [unfold zlen; rewrite Hdl, Z2Nat.id by lia; done| |done|done|].
  { unfold data. apply Forall_app. split; [by apply Forall_take|by apply Forall_replicate]. }
  exists s. done.
Qed.

Lemma partial_copy_spec bits daddr dst src len sum :
  width_ok bits len -> Z.even daddr = true -> is_u32 sum -> Forall (is_word 8) src ->
  0 <= len -> len <= zlen src -> len <= zlen dst ->
  let data := take (Z.to_nat len) src in
  exists s, csum_partial_copy bits daddr dst src len sum = Some (data ++ drop (Z.to_nat len) dst, s) /\
    is_u32 s /\ same16 (sum + sum16 data) s.
Proof.
  intros Hw Ha Hsum Hb Hl Hs Hd data. unfold csum_partial_copy. rewrite memcpy_prefix by lia. cbn [mbind option_bind].
  fold data. assert (Hdl : length data = Z.to_nat len) by (unfold data, zlen in *; rewrite length_take; lia).
  rewrite take_app_length' by done.
  destruct (csum_partial_spec bits daddr data sum) as (s & -> & Hr & Hsame);
    [unfold zlen; rewrite Hdl, Z2Nat.id by lia; done|by apply Forall_take|done|done|]. by exists s.
Qed.

(** * The theorem *)

(** The one's complement checksum of what is summed. *)
Definition checksum (s : Z) : Z := 65535 - ones_sum s.

Lemma fold_same a s : is_u32 s -> same16 a s -> csum_fold s = checksum a.
Proof. intros Hs H. rewrite csum_fold_spec by done. unfold checksum. by rewrite (same16_ones a s H). Qed.

(** ** A buffer that is too long *)

Definition ones_words (n : nat) : list Z := mjoin (replicate n [255; 255; 255; 255]).

Lemma ones_words_len n : zlen (ones_words n) = 4 * Z.of_nat n.
Proof.
  induction n as [|n IH]; [done|]. unfold ones_words in *. simpl. rewrite !zlen_cons, IH. lia.
Qed.

Lemma csum_words_ones n m r rest :
  0 <= r -> r + Z.of_nat n * (2 ^ 32 - 1) < 2 ^ 63 ->
  csum_words 64 (n + m) r 0 (ones_words n ++ rest) = csum_words 64 m (r + Z.of_nat n * (2 ^ 32 - 1)) 0 rest.
Proof.
  revert r. induction n as [|n IH]; intros r Hr Hlt; [simpl; f_equal; lia|].
  unfold ones_words. simpl. rewrite Z.add_0_r, (wrap_small 64 r), wrap_small by (unfold is_word; lia).
  rewrite (proj2 (Z.ltb_ge _ _)) by lia. fold (ones_words n). rewrite IH by lia. f_equal. lia.
Qed.

Lemma sum16_ones n rest : sum16 (ones_words n ++ rest) = Z.of_nat n * 131070 + sum16 rest.
Proof. induction n as [|n IH]; [done|]. unfold ones_words in *. simpl. rewrite IH. lia. Qed.

(** 2^16 words of ones and two more. *)
Lemma long_buffer_csum n (buff := ones_words n ++ [0; 0; 0; 128; 0; 0; 0; 128]) :
  Z.of_nat n = 2 ^ 16 ->
  zlen buff = 2 ^ 18 + 8 /\ do_csum 64 0 buff = Some 0 /\ ones_sum (sum16 buff) = 1.
Proof.
  intros Hn. assert (Hl : zlen buff = 2 ^ 18 + 8).
  { unfold buff. rewrite zlen_app, ones_words_len, Hn. by vm_compute. }
  split; [done|]. split; [|unfold buff; rewrite sum16_ones, Hn; by vm_compute].
  assert (Hw : csum_words 64 (Z.to_nat (2 ^ 16 + 2)) 0 0 buff =
    csum_words 64 2 (0 + Z.of_nat n * (2 ^ 32 - 1)) 0 [0; 0; 0; 128; 0; 0; 0; 128]).
  { replace (Z.to_nat (2 ^ 16 + 2)) with (n + 2)%nat by lia. apply csum_words_ones; lia. }
  rewrite Hn in Hw. clearbody buff. destruct buff as [|x l] eqn:E; [done|]. unfold do_csum.
  rewrite <- E in *. change (negb (Z.land 1 0 =? 0)) with false. cbv iota.
  unfold csum_aligned, csum_block. rewrite Hl. change (Z.shiftr (2 ^ 18 + 8) 1) with (2 ^ 17 + 4).
  change (negb (Z.land 2 0 =? 0)) with false. unfold csum_short, csum_long.
  change (Z.shiftr (2 ^ 17 + 4) 1) with (2 ^ 16 + 2).
  change (negb (2 ^ 17 + 4 =? 0)) with true. change (negb (2 ^ 16 + 2 =? 0)) with true. cbv iota.
  cbn [mbind option_bind]. rewrite Hw. by vm_compute.
Qed.

(** C29: the Internet checksum.  For buffers at even addresses (and below 256 KB where
    longs have 64 bits) [do_csum] is the one's complement sum of the 16-bit words, so
    that [ip_compute_csum] and [ip_fast_csum] are the checksum, and [csum_fold] of
    [csum_partial], with or without copying, the checksum with the start value added.  Sums of
    pieces are combined by [csum_block_add] wherever the message is divided, and
    taken out by [csum_sub].  A message with its checksum in place verifies, and
    [csum_replace4] keeps it so when a word changes.  [csum_tcpudp_magic] is the
    checksum of its arguments unless a carry is lost.  Where the code fails: at
    an odd address the first byte counts 256 times, longer buffers can lose a carry
    on 64-bit machines, and so can [csum_tcpudp_nofold]. *)
Theorem internet_checksum_correct bits :
  (forall addr buff, width_ok bits (zlen buff) -> Forall (is_word 8) buff ->
    (Z.even addr = true ->
      do_csum bits addr buff = Some (ones_sum (sum16 buff)) /\
      ip_compute_csum bits addr buff = Some (checksum (sum16 buff)) /\
      (forall ihl, zlen buff = 4 * ihl -> ip_fast_csum bits addr buff ihl = Some (checksum (sum16 buff))) /\
      forall sum, is_u32 sum -> exists s, csum_partial bits addr buff sum = Some s /\ is_u32 s /\
        csum_fold s = checksum (sum + sum16 buff)) /\
    (forall x buff', Z.even addr = false -> buff = x :: buff' ->
      do_csum bits addr buff = Some (ones_sum (sum16 buff + 255 * x)))) /\
  (forall l r a b, Z.even a = true -> Z.even b = true -> width_ok bits (zlen l) -> width_ok bits (zlen r) ->
    Forall (is_word 8) (l ++ r) ->
    exists s1 s2, csum_partial bits a l 0 = Some s1 /\ csum_partial bits b r 0 = Some s2 /\
      csum_fold (csum_block_add s1 s2 (zlen l)) = checksum (sum16 (l ++ r))) /\
  (forall s1 s2, is_u32 s1 -> is_u32 s2 -> 0 < s1 ->
    csum_fold (csum_sub (csum_add s1 s2) s2) = csum_fold s1) /\
  (forall addr l r c, Z.even addr = true -> Nat.Even (length l) -> width_ok bits (zlen (l ++ 0 :: 0 :: r)) ->
    Forall (is_word 8) (l ++ 0 :: 0 :: r) -> ip_compute_csum bits addr (l ++ 0 :: 0 :: r) = Some c ->
    ip_compute_csum bits addr (l ++ c mod 256 :: c / 256 :: r) = Some 0) /\
  (forall addr rest sum from to, width_ok bits 8 -> Z.even addr = true -> 0 <= rest -> 0 <= sum <= 65535 ->
    is_u32 from -> is_u32 to -> 0 < rest + to -> checksum (rest + from + sum) = 0 ->
    exists sum', csum_replace4 bits addr sum from to = Some sum' /\ checksum (rest + to + sum') = 0) /\
  (forall saddr daddr len proto sum, is_u32 saddr -> is_u32 daddr -> is_u32 sum -> is_word 16 len -> is_word 16 proto ->
    let t := sum + saddr + daddr + 256 * (proto + len) in
    t mod 2 ^ 32 + t / 2 ^ 32 < 2 ^ 32 -> csum_tcpudp_magic saddr daddr len proto sum = checksum t) /\
  (forall daddr dst src len sum missing, width_ok bits len -> Z.even daddr = true -> is_u32 sum ->
    Forall (is_word 8) src -> 0 <= missing <= len -> len <= zlen src -> len <= zlen dst ->
    let data := take (Z.to_nat (len - missing)) src ++ replicate (Z.to_nat missing) 0 in
    (exists s, csum_partial_copy_from_user bits daddr dst src len sum missing =
        Some (data ++ drop (Z.to_nat len) dst, if missing =? 0 then 0 else - EFAULT, s) /\
      csum_fold s = checksum (sum + sum16 data)) /\
    (missing = 0 -> exists s, csum_partial_copy bits daddr dst src len sum =
        Some (data ++ drop (Z.to_nat len) dst, s) /\ csum_fold s = checksum (sum + sum16 data))) /\
  (exists buff, zlen buff = 2 ^ 18 + 8 /\ do_csum 64 0 buff = Some 0 /\ ones_sum (sum16 buff) = 1) /\
  (csum_tcpudp_magic 0xffffffff 0xffffffff 0 0 1 = 0xffff /\ checksum (1 + 0xffffffff + 0xffffffff) = 0xfffe).
Proof.
  split_and!.
  - intros addr buff Hw Hb. split; [|intros x buff' Ha ->; by apply do_csum_odd]. intros Ha.
    pose proof (sum16_nonneg _ Hb) as Hn. destruct (ones_sum_same _ Hn) as [_ Hr].
    pose proof (do_csum_even bits addr buff Hw Hb Ha) as E. split; [done|]. split; [|split].
    + unfold ip_compute_csum. rewrite E. simpl. by rewrite not16_spec.
    + intros ihl Hl. unfold ip_fast_csum. rewrite take_ge by (unfold zlen in Hl; lia). rewrite E. simpl. by rewrite not16_spec.
    + intros sum Hs. destruct (csum_partial_spec bits addr buff sum) as (s & -> & Hs1 & Hs2); [done..|].
      exists s. split; [done|]. split; [done|]. by apply fold_same.
  - intros l r a b Ha Hb Hwl Hwr Hbytes. pose proof Hbytes as [Hl Hr]%Forall_app.
    destruct (csum_partial_spec bits a l 0) as (s1 & -> & Hs1 & Hsame1); [done..|].
    destruct (csum_partial_spec bits b r 0) as (s2 & -> & Hs2 & Hsame2); [done..|].
    exists s1, s2. split; [done|]. split; [done|].
    destruct (csum_block_add_spec l r s1 s2) as [H1 H2]; [done..|]. by apply fold_same.
  - intros s1 s2 H1 H2 Hpos. destruct (csum_add_spec s1 s2 H1 H2) as [Ha Har].
    destruct (csum_sub_spec _ s2 Har H2) as [Hsr Hs]. rewrite !csum_fold_spec by done. f_equal. symmetry. apply same16_ones.
    etransitivity; [|exact Hs]. destruct H1, H2, Ha as (? & ? & [k Hk] & ?). split_and!; [lia..| |lia].
    exists (k + 65537). lia.
  - intros addr l r c Ha He Hw Hb Hc. unfold ip_compute_csum in *. rewrite do_csum_even in Hc by done. cbn [mbind option_bind] in Hc.
    pose proof (sum16_nonneg _ Hb) as Hn. destruct (ones_sum_same _ Hn) as [_ Hr]. rewrite not16_spec in Hc by done.
    injection Hc as <-. destruct (verified_sum l r _ He Hb eq_refl) as (H1 & H2 & H3).
    rewrite do_csum_even; [cbn [mbind option_bind]; by rewrite H3| | |done].
    + by rewrite zlen_app, !zlen_cons in *.
    + rewrite !Forall_app, !Forall_cons_iff in *. tauto.
  - intros addr rest sum from to Hw Ha Hrest Hs Hf Ht Hpos Hsum. eexists. split; [by apply csum_replace4_spec|].
    unfold checksum in *. rewrite update_sum by (done || lia). done.
  - intros. by apply tcpudp_spec.
  - intros daddr dst src len sum missing Hw Ha Hs Hb Hm Hls Hld data. split.
    + destruct (copy_from_user_spec bits daddr dst src len sum missing) as (s & Hc & Hr & Hsame); [done..|].
      exists s. split; [done|]. by apply fold_same.
    + intros ->. destruct (partial_copy_spec bits daddr dst src len sum) as (s & Hc & Hr & Hsame); [done || lia..|].
      unfold data. rewrite Z.sub_0_r, app_nil_r. exists s. split; [done|]. by apply fold_same.
  - eexists. apply long_buffer_csum. apply Z2Nat.id. lia.
  - by vm_compute.
  - by vm_compute.
Qed.

(** An IP header of twenty bytes whose checksum is b861. *)
Lemma internet_checksum_correct_witness :
  let header := [0x45; 0x00; 0x00; 0x73; 0x00; 0x00; 0x40; 0x00; 0x40; 0x11] in
  let rest := [0xc0; 0xa8; 0x00; 0x01; 0xc0; 0xa8; 0x00; 0xc7] in
  ip_compute_csum 64 0 (header ++ 0 :: 0 :: rest) = Some 0x61b8 /\
  ip_compute_csum 64 0 (header ++ 0xb8 :: 0x61 :: rest) = Some 0.
Proof.
  intros header rest. assert (E : ip_compute_csum 64 0 (header ++ 0 :: 0 :: rest) = Some 0x61b8) by (by vm_compute).
  split; [exact E|]. destruct (internet_checksum_correct 64) as (_ & _ & _ & H & _).
  assert (E2 : ip_compute_csum 64 0 (header ++ 0x61b8 mod 256 :: 0x61b8 / 256 :: rest) = Some 0).
  { assert (Hb : Forall (is_word 8) (header ++ 0 :: 0 :: rest)) by (repeat constructor; done).
    assert (He : Nat.Even (length header)) by (by exists 5%nat).
    assert (Hw : width_ok 64 (zlen (header ++ 0 :: 0 :: rest))) by (right; split; [reflexivity|]; unfold zlen; simpl; lia).
    exact (H 0 header rest 0x61b8 eq_refl He Hw Hb E). }
  change (0x61b8 mod 256) with 0xb8 in E2. change (0x61b8 / 256) with 0x61 in E2. exact E2.
Defined.
