(* ===== verification/TextSearch.v ===== *)
(** Searching for patterns: lib/textsearch.c with include/linux/textsearch.h and the
    algorithm of Knuth, Morris and Pratt in lib/ts_kmp.c.

    The core calls an algorithm through [struct ts_ops], here the class [ts_ops] with
    the law that [find] returns the first occurrence from an offset on.  The text comes in blocks:
    [get_next_block] is a function of the number of bytes consumed, which is what its
    documentation allows an algorithm to rely on ([fetches]).

    The theorems: the table of [kmp_init] holds the longest borders, [kmp_find]
    finds the first occurrence however the text is cut into blocks, and repeated calls
    of the core enumerate the occurrences from left to right. *)
From Stdlib Require Import ZArith Lia Bool.
From stdpp Require Import base numbers list option sets.
From S2P Require Import Prelude CString.

Local Open Scope Z_scope.

Definition UINT_MAX : Z := 2 ^ 32 - 1.
Definition TS_AUTOLOAD : Z := 1.
Definition TS_IGNORECASE : Z := 2.

(** [icase ? toupper(c) : c], with [flags & TS_IGNORECASE]. *)
Definition ignore_case (flags : Z) : bool := negb (Z.land flags TS_IGNORECASE =? 0).
Definition fold_case (icase : bool) (c : Z) : Z := if icase then toupper c else c.

(** * lib/ts_kmp.c *)

Record ts_kmp : Type := TsKmp {
  pattern : list Z;
  pattern_len : Z;
  prefix_tbl : list Z;
  conf_flags : Z
}.

(** [while (q > 0 && pattern[q] != c) q = prefix_tbl[q - 1]], and [q++] on a match;
    [pat] reads the pattern. *)
Definition kmp_step (pat : Z -> option Z) (tbl : list Z) (c q : Z) : option Z :=
  q ← loop (S (Z.to_nat q)) (fun q =>
    if 0 <? q then
      p ← pat q;
      if negb (p =? c) then q ← aget tbl (q - 1); Some (Next q) else Some (Done q)
    else Some (Done q)) q;
  p ← pat q;
  Some (if p =? c then u32 (q + 1) else q).

(** One block of the text: the state of the automaton after it, or the index of
    the byte that completes an occurrence. *)
Definition kmp_block (kmp : ts_kmp) (text : list Z) (q : Z) : option (ctl Z Z) :=
  let icase := ignore_case (conf_flags kmp) in
  for_ 0 (zlen text) (fun i q =>
    x ← aget text i;
    q ← kmp_step (aget (pattern kmp)) (prefix_tbl kmp) (fold_case icase x) q;
    Some (if q =? pattern_len kmp then Done i else Next q)) q.

(** The position found and the new [state->offset]. *)
Definition kmp_find (fuel : nat) (kmp : ts_kmp) (get_next_block : Z -> list Z) (offset : Z) : option (Z * Z) :=
  loop fuel (fun '(q, consumed) =>
    let text := get_next_block consumed in
    if zlen text =? 0 then Some (Done (UINT_MAX, offset))
    else
      r ← kmp_block kmp text q;
      Some (match r with
            | Done i =>
                let offset := u32 (consumed + i + 1) in
                Done (u32 (offset - pattern_len kmp), offset)
            | Next q => Next (q, u32 (consumed + zlen text))
            end)) (0, offset).

Definition compute_prefix_tbl (pattern : list Z) (len : Z) (tbl : list Z) (flags : Z) : option (list Z) :=
  let icase := ignore_case flags in
  let pat k := fold_case icase <$> aget pattern k in
  '(_, tbl) ← for_all 1 len (fun q '(k, tbl) =>
    c ← pat q;
    k ← kmp_step pat tbl c k;
    tbl ← aset tbl q k;
    Some (k, tbl)) (0, tbl);
  Some tbl.

(** [mem] tells whether there is memory for the configuration, which is zeroed; the
    size of the table in bytes is an [unsigned int]. *)
Definition kmp_init (mem : bool) (pat : list Z) (flags : Z) : option (Z + ts_kmp) :=
  let len := zlen pat in
  let prefix_tbl_len := u32 (len * 4) in
  if mem then
    tbl ← compute_prefix_tbl pat len (replicate (Z.to_nat (prefix_tbl_len / 4)) 0) flags;
    let pat := if ignore_case flags then toupper <$> pat else pat in
    Some (inr (TsKmp pat len tbl flags))
  else Some (inl (- ENOMEM)).

Definition kmp_get_pattern (kmp : ts_kmp) : list Z := pattern kmp.
Definition kmp_get_pattern_len (kmp : ts_kmp) : Z := pattern_len kmp.

(** * What an algorithm promises *)

(** [pat] occurs in [text] at [p]. *)
Definition occurs (pat text : list Z) (p : Z) : Prop :=
  0 <= p /\ p + zlen pat <= zlen text /\ take (length pat) (drop (Z.to_nat p) text) = pat.

(** The first occurrence from [offset] on, or none. *)
Definition first_occurrence (pat text : list Z) (offset : Z) (r : Z * Z) : Prop :=
  (occurs pat text (fst r) /\ offset <= fst r /\ snd r = fst r + zlen pat /\
   forall p, offset <= p -> occurs pat text p -> fst r <= p) \/
  (r = (UINT_MAX, offset) /\ forall p, offset <= p -> ~ occurs pat text p).

(** The blocks are consecutive pieces of the text, empty only at its end. *)
Definition fetches (get_next_block : Z -> list Z) (text : list Z) : Prop :=
  forall c, 0 <= c <= zlen text ->
    exists rest, drop (Z.to_nat c) text = get_next_block c ++ rest /\ (get_next_block c = [] -> rest = []).

(** [struct ts_ops]: the operations, what a configuration searches for (the case
    that the text is folded by, and the pattern after it), and the law. *)
Class ts_ops (C : Type) := {
  find : nat -> C -> (Z -> list Z) -> Z -> option (Z * Z);
  get_pattern : C -> list Z;
  get_pattern_len : C -> Z;
  searches_for : C -> bool -> list Z -> Prop;
  searches_len conf icase pat : searches_for conf icase pat ->
    0 < zlen pat /\ get_pattern conf = pat /\ get_pattern_len conf = zlen pat;
  find_first fuel conf icase pat blocks text offset :
    searches_for conf icase pat -> fetches blocks text -> zlen text < UINT_MAX ->
    0 <= offset <= zlen text -> zlen text - offset < Z.of_nat fuel ->
    exists r, find fuel conf blocks offset = Some r /\
      first_occurrence pat (fold_case icase <$> text) offset r
}.

(** * lib/textsearch.c *)

Section core.
Context {C : Type} `{!ts_ops C}.

(** Position and new offset; [finish] does not change the state of the search. *)
Definition textsearch_next (fuel : nat) (conf : C) (get_next_block : Z -> list Z) (offset : Z) : option (Z * Z) :=
  find fuel conf get_next_block offset.

Definition textsearch_find (fuel : nat) (conf : C) (get_next_block : Z -> list Z) : option (Z * Z) :=
  textsearch_next fuel conf get_next_block 0.

Definition get_linear_data (data : list Z) (len consumed : Z) : list Z :=
  if consumed <? len then take (Z.to_nat (len - consumed)) (drop (Z.to_nat consumed) data) else [].

Definition textsearch_find_continuous (fuel : nat) (conf : C) (data : list Z) (len : Z) : option (Z * Z) :=
  textsearch_find fuel conf (get_linear_data data len).

(** [textsearch_find] and then [textsearch_next] until [UINT_MAX]. *)
Fixpoint all_occurrences (n fuel : nat) (conf : C) (get_next_block : Z -> list Z) (offset : Z) : option (list Z) :=
  match n with
  | O => None
  | S n =>
      '(p, offset) ← textsearch_next fuel conf get_next_block offset;
      if p =? UINT_MAX then Some []
      else ps ← all_occurrences n fuel conf get_next_block offset; Some (p :: ps)
  end.
End core.

(** The registered algorithms.  A [struct ts_ops] has an address, which
    [textsearch_unregister] compares, an owner, and callbacks that may be missing. *)
Section registry.
Context {C : Type}.

Record ts_algo : Type := TsAlgo {
  ops_addr : Z;
  ops_owner : Z;
  ops_name : option (list Z);
  ops_init : option (bool -> list Z -> Z -> option (Z + C));
  ops_find : option (nat -> C -> (Z -> list Z) -> Z -> option (Z * Z));
  ops_get_pattern : option (C -> list Z);
  ops_get_pattern_len : option (C -> Z)
}.

(** The list [ts_ops] and the references held on the owners. *)
Record ts_core : Type := TsCore {
  ts_list : list ts_algo;
  module_refs : Z -> Z
}.

(** The references on the module [m]; code that is built in has the owner [NULL]. *)
Definition add_ref (st : ts_core) (m d : Z) : ts_core :=
  if m =? 0 then st
  else TsCore (ts_list st) (fun m' => if m' =? m then module_refs st m' + d else module_refs st m').

(** [live] tells which modules are not being unloaded. *)
Definition try_module_get (live : Z -> bool) (st : ts_core) (m : Z) : option ts_core :=
  if (m =? 0) || live m then Some (add_ref st m 1) else None.

Definition module_put (st : ts_core) (m : Z) : ts_core := add_ref st m (-1).

Definition same_name (n : list Z) (o : ts_algo) : bool := bool_decide (ops_name o = Some n).

Definition lookup_ts_algo (live : Z -> bool) (st : ts_core) (name : list Z) : ts_core * option ts_algo :=
  match List.find (same_name name) (ts_list st) with
  | Some o =>
      match try_module_get live st (ops_owner o) with
      | Some st => (st, Some o)
      | None => (st, None)
      end
  | None => (st, None)
  end.

Definition textsearch_register (st : ts_core) (ops : ts_algo) : ts_core * Z :=
  match ops_name ops, ops_find ops, ops_init ops, ops_get_pattern ops, ops_get_pattern_len ops with
  | Some name, Some _, Some _, Some _, Some _ =>
      if existsb (same_name name) (ts_list st) then (st, - EEXIST)
      else (TsCore (ts_list st ++ [ops]) (module_refs st), 0)
  | _, _, _, _, _ => (st, - EINVAL)
  end.

Fixpoint list_del_algo (l : list ts_algo) (addr : Z) : option (list ts_algo) :=
  match l with
  | [] => None
  | o :: l => if ops_addr o =? addr then Some l else cons o <$> list_del_algo l addr
  end.

Definition textsearch_unregister (st : ts_core) (ops : ts_algo) : ts_core * Z :=
  match list_del_algo (ts_list st) (ops_addr ops) with
  | Some l => (TsCore l (module_refs st), 0)
  | None => (st, - ENOENT)
  end.

(** The configuration comes with its [conf->ops]; [request_module] may register
    algorithms. *)
Definition textsearch_prepare (live : Z -> bool) (request_module : ts_core -> ts_core) (mem : bool)
    (st : ts_core) (algo pattern : list Z) (flags : Z) : option (ts_core * (Z + ts_algo * C)) :=
  if zlen pattern =? 0 then Some (st, inl (- EINVAL))
  else
    let '(st, ops) := lookup_ts_algo live st algo in
    let '(st, ops) :=
      match ops with
      | None => if negb (Z.land flags TS_AUTOLOAD =? 0) then lookup_ts_algo live (request_module st) algo else (st, None)
      | Some _ => (st, ops)
      end in
    match ops with
    | None => Some (st, inl (- ENOENT))
    | Some ops =>
        init ← ops_init ops;
        conf ← init mem pattern flags;
        Some (match conf with
              | inl err => (module_put st (ops_owner ops), inl err)
              | inr conf => (st, inr (ops, conf))
              end)
    end.

(** [destroy] of the algorithm frees what its [init] allocated. *)
Definition textsearch_destroy (st : ts_core) (ops : ts_algo) : ts_core :=
  module_put st (ops_owner ops).
End registry.
Arguments ts_algo : clear implicits.
Arguments ts_core : clear implicits.

(** * Prefixes of the pattern at the end of a text *)

Section prefixes.
Context (P : list Z).

(** The first [k] bytes of the pattern end the text [t]. *)
Definition ends (t : list Z) (k : nat) : Prop := (k <= length P)%nat /\ take k P `suffix_of` t.

(** [k] is the longest such prefix: the state of the automaton after [t]. *)
Definition longest (t : list Z) (k : nat) : Prop := ends t k /\ forall j, ends t j -> (j <= k)%nat.

Lemma ends_0 t : ends t 0.
Proof. split; [lia|]. by exists t; rewrite take_0, app_nil_r. Qed.

Lemma ends_len t k : ends t k -> (k <= length t)%nat.
Proof. intros [Hk Hs%suffix_length]. rewrite length_take in Hs. lia. Qed.

Lemma longest_nil : longest [] 0.
Proof. split; [apply ends_0|]. intros j Hj%ends_len. done. Qed.

(** A prefix that ends a longer text is a shorter one followed by the new byte. *)
Lemma ends_snoc t c k : ends (t ++ [c]) (S k) <-> P !! k = Some c /\ ends t k.
Proof.
  unfold ends. split.
  - intros [Hk Hs]. destruct (lookup_lt_is_Some_2 P k) as [x Hx]; [lia|].
    rewrite (take_S_r P k x Hx) in Hs. rewrite Hx.
    rewrite (suffix_snoc_inv_1 _ _ _ _ Hs). split; [done|].
    split; [lia|]. by apply suffix_snoc_inv_2 in Hs.
  - intros (Hx & Hk & Hs). pose proof (lookup_lt_Some _ _ _ Hx).
    split; [lia|]. rewrite (take_S_r P k c Hx). by apply suffix_app_l_cancel || by apply suffix_snoc.
Qed.

Lemma suffix_tail (l m : list Z) : l `suffix_of` m -> (length l < length m)%nat -> l `suffix_of` tail m.
Proof. intros [[|x k] ->] Hl; simpl in *; [lia|]. by exists k. Qed.

Lemma suffix_of_tail (l m : list Z) : l `suffix_of` tail m -> l `suffix_of` m.
Proof. destruct m as [|x m]; [done|]. simpl. intros. by apply suffix_cons_r. Qed.

(** Two suffixes of one text are suffixes of one another. *)
Lemma suffix_shorter (l m t : list Z) :
  l `suffix_of` t -> m `suffix_of` t -> (length l <= length m)%nat -> l `suffix_of` m.
Proof.
  intros [a ->] [b Hb] Hl.
  assert (Hlen : (length b <= length a)%nat) by (apply (f_equal length) in Hb; rewrite !length_app in Hb; lia).
  exists (drop (length b) a). apply (f_equal (drop (length b))) in Hb.
  rewrite drop_app_length in Hb. rewrite <- Hb, drop_app_le by lia. done.
Qed.

(** The prefixes that end [t] and are shorter than [q] are the borders of the
    prefix of length [q]. *)
Lemma ends_border t q j :
  ends t q -> (j < q)%nat -> ends t j <-> ends (tail (take q P)) j.
Proof.
  intros [Hq Hs] Hj. unfold ends.
  assert (Hl : length (take j P) = j /\ length (take q P) = q) by (rewrite !length_take; lia).
  split; intros [Hk Ht]; (split; [done|]).
  - apply suffix_tail; [|lia]. eapply suffix_shorter; [exact Ht|exact Hs|lia].
  - etrans; [by apply suffix_of_tail|done].
Qed.

Lemma longest_border t q k :
  ends t q -> longest (tail (take (S (q - 1)) P)) k -> (0 < q)%nat ->
  (k < q)%nat /\ ends t k /\ forall j, (k < j < q)%nat -> ~ ends t j.
Proof.
  intros Hq [Hk Hmax] Hpos. replace (S (q - 1)) with q in * by lia.
  assert (Hlt : (k < q)%nat).
  { apply ends_len in Hk. destruct Hq as [Hq _]. destruct (take q P) as [|x l] eqn:E; simpl in Hk; [lia|]. apply (f_equal length) in E. rewrite length_take in E. simpl in E. lia. }
  split_and!; [done|by apply (ends_border t q)|].
  intros j Hj Ht. apply (ends_border t q) in Ht; [|done|lia]. apply Hmax in Ht. lia.
Qed.

(** * The table and one step of the automaton *)

(** The entries below [n] are the lengths of the longest borders. *)
Definition table_ok (tbl : list Z) (n : nat) : Prop :=
  forall i, (i < n)%nat -> exists k, aget tbl (Z.of_nat i) = Some (Z.of_nat k) /\ longest (tail (take (S i) P)) k.

(** [q] is a candidate for the byte [c]: every longer prefix fails to go on with it. *)
Definition candidate (t : list Z) (c : Z) (q : nat) : Prop :=
  ends t q /\ forall j, (q < j)%nat -> ends t j -> P !! j <> Some c.

Lemma candidate_down t c q k p :
  candidate t c q -> P !! q = Some p -> p <> c -> (0 < q)%nat ->
  longest (tail (take (S (q - 1)) P)) k -> (k < q)%nat /\ candidate t c k.
Proof.
  intros [Hq Hno] Hp Hpc Hpos Hk.
  destruct (longest_border t q k Hq Hk Hpos) as (Hlt & Hend & Hmax).
  split; [done|]. split; [done|]. intros j Hj Ht.
  destruct (decide (j = q)) as [->|]; [congruence|].
  destruct (decide (j < q)%nat); [by destruct (Hmax j ltac:(lia))|]. apply Hno; [lia|done].
Qed.

Lemma candidate_longest t c q :
  candidate t c q -> P !! q = Some c -> longest (t ++ [c]) (S q).
Proof.
  intros [Hq Hno] Hc. split; [by apply ends_snoc|].
  intros [|j] Hj; [lia|]. apply ends_snoc in Hj as [Hj Hend].
  destruct (decide (q < j)%nat); [by destruct (Hno j)|lia].
Qed.

Lemma candidate_zero t c p :
  candidate t c 0 -> P !! 0%nat = Some p -> p <> c -> longest (t ++ [c]) 0.
Proof.
  intros [_ Hno] Hp Hpc. split; [apply ends_0|].
  intros [|[|j]] Hj; [lia| |]; apply ends_snoc in Hj as [Hj Hend]; [congruence|].
  by destruct (Hno (S j) ltac:(lia)).
Qed.

Lemma kmp_step_correct pat tbl t c q :
  (forall i, pat i = aget P i) -> zlen P < 2 ^ 32 -> (q < length P)%nat ->
  table_ok tbl q -> longest t q ->
  exists q', kmp_step pat tbl c (Z.of_nat q) = Some (Z.of_nat q') /\ longest (t ++ [c]) q'.
Proof.
  intros Hpat Hlen Hq Htbl [Hend Hmax]. unfold kmp_step.
  match goal with |- context [loop ?n0 ?f ?s0] =>
    destruct (loop_total f
      (fun z => exists k, z = Z.of_nat k /\ (k <= q)%nat /\ candidate t c k)
      (fun z => exists k p, z = Z.of_nat k /\ (k <= q)%nat /\ candidate t c k /\
         P !! k = Some p /\ (k = 0%nat \/ p = c)) Z.to_nat) with (fuel := n0) (s := s0)
      as (z & -> & k & p & -> & Hk & Hc & Hp & Hstop)
  end.
  - intros z (k & -> & Hk & Hc). destruct (lookup_lt_is_Some_2 P k) as [p Hp]; [lia|].
    rewrite Hpat, (aget_lookup P), Nat2Z.id, Hp by lia. simpl.
    destruct (Z.ltb_spec 0 (Z.of_nat k)); [|eexists; split; [done|]; exists k, p; naive_solver lia].
    destruct (Z.eqb_spec p c); simpl; [eexists; split; [done|]; exists k, p; naive_solver|].
    destruct (Htbl (k - 1)%nat) as (k' & Hget & Hl); [lia|].
    replace (Z.of_nat k - 1) with (Z.of_nat (k - 1)) by lia. rewrite Hget. simpl.
    destruct (candidate_down t c k k' p) as [Hlt Hc']; [done..|lia|done|].
    eexists. split; [done|]. split; [|lia]. exists k'. split_and!; [done|lia|done].
  - exists q. split_and!; [done|lia|]. split; [done|]. intros j Hj Ht%Hmax. lia.
  - lia.
  - simpl. rewrite Hpat, (aget_lookup P), Nat2Z.id, Hp by lia. simpl.
    destruct (Z.eqb_spec p c) as [->|Hpc].
    + exists (S k). split; [|by apply candidate_longest].
      rewrite wrap_small; [f_equal; lia|]. unfold is_word, zlen in *. lia.
    + destruct Hstop as [->|]; [|done]. exists 0%nat. split; [done|]. by apply (candidate_zero t c p).
Qed.
End prefixes.

(** * The table of [kmp_init] *)

Lemma aget_nat {A} (l : list A) i x : l !! i = Some x -> aget l (Z.of_nat i) = Some x.
Proof. intros H. by rewrite aget_lookup, Nat2Z.id by lia. Qed.

Lemma tail_take_S (P : list Z) q c :
  (0 < q)%nat -> P !! q = Some c -> tail (take (S q) P) = tail (take q P) ++ [c].
Proof.
  intros Hq Hc. rewrite (take_S_r P q c Hc). pose proof (lookup_lt_Some _ _ _ Hc).
  destruct (take q P) eqn:E; [|done]. apply (f_equal length) in E. rewrite length_take in E. simpl in E. lia.
Qed.

Lemma longest_border_lt (P : list Z) q k : longest P (tail (take q P)) k -> (0 < q <= length P)%nat -> (k < q)%nat.
Proof.
  intros [Hk _] Hq. apply ends_len in Hk.
  destruct (take q P) as [|x l] eqn:E; simpl in Hk; [lia|].
  apply (f_equal length) in E. rewrite length_take in E. simpl in E. lia.
Qed.

Lemma table_ok_set P tbl tbl' q k :
  table_ok P tbl q -> aset tbl (Z.of_nat q) (Z.of_nat k) = Some tbl' ->
  longest P (tail (take (S q) P)) k -> table_ok P tbl' (S q).
Proof.
  intros Hok Hset Hk i Hi. rewrite (aget_aset _ _ _ _ _ Hset).
  destruct (Z.eqb_spec (Z.of_nat q) (Z.of_nat i)) as [->%Nat2Z.inj|]; [by exists k|].
  apply Hok. lia.
Qed.

Lemma table_ok_init P n : (0 < n)%nat -> table_ok P (replicate n 0) 1.
Proof.
  intros Hn i Hi. assert (i = 0%nat) as -> by lia. exists 0%nat. split.
  - apply aget_nat. by apply lookup_replicate.
  - destruct P; apply longest_nil.
Qed.

Lemma compute_prefix_tbl_correct pat flags tbl :
  let P := fold_case (ignore_case flags) <$> pat in
  0 < zlen pat < 2 ^ 32 -> zlen tbl = zlen pat -> table_ok P tbl 1 ->
  exists tbl', compute_prefix_tbl pat (zlen pat) tbl flags = Some tbl' /\ table_ok P tbl' (length pat).
Proof.
  intros P Hlen Htl Hok. unfold compute_prefix_tbl. fold P.
  assert (HlP : length P = length pat) by apply length_fmap.
  assert (HzP : zlen P = zlen pat) by (unfold zlen; lia).
  match goal with |- context [for_all 1 ?b ?f ?s0] =>
    destruct (for_all_rule f (fun z '(k, tbl) => exists q k' : nat,
      z = Z.of_nat q /\ k = Z.of_nat k' /\ (0 < q <= length P)%nat /\ zlen tbl = zlen P /\
      table_ok P tbl q /\ longest P (tail (take q P)) k') 1 b s0)
      as ([k1 tbl1] & -> & q & k & Hz & -> & Hq & Htl1 & Hok1 & _)
  end.
  - lia.
  - exists 1%nat, 0%nat. unfold zlen in *. split_and!; try done; try lia.
    destruct P; apply longest_nil.
  - intros z [kz tb] Hz (q & k & -> & -> & Hq & Htb & Hokq & Hk).
    assert (Hqm : (q < length P)%nat) by (unfold zlen in *; lia).
    destruct (lookup_lt_is_Some_2 P q Hqm) as [c Hc].
    rewrite <- aget_fmap. fold P. rewrite (aget_nat P q c Hc). simpl.
    pose proof (longest_border_lt P q k Hk Hq) as Hkq.
    destruct (kmp_step_correct P (fun i => fold_case (ignore_case flags) <$> aget pat i) tb
      (tail (take q P)) c k) as (k2 & Hstep & Hk2);
      [intros; unfold P; by rewrite aget_fmap|unfold zlen in *; lia|lia|intros i Hi; apply Hokq; lia|done|].
    rewrite Hstep. simpl. rewrite <- tail_take_S in Hk2 by (done || lia).
    destruct (aset tb (Z.of_nat q) (Z.of_nat k2)) as [tb'|] eqn:Hset;
      [|unfold aset in Hset; unfold zlen in *; revert Hset; zcases].
    exists (Z.of_nat k2, tb'). split; [done|]. exists (S q), k2.
    split_and!; [lia|done|lia|lia| |by eapply table_ok_set|done].
    by rewrite (aset_len _ _ _ _ Hset).
  - simpl. exists tbl1. split; [done|]. unfold zlen in Hz. by replace (length pat) with q by lia.
Qed.

(** * The search *)

(** A configuration that searches for [P] in text folded by [icase]. *)
Definition kmp_for (kmp : ts_kmp) (icase : bool) (P : list Z) : Prop :=
  icase = ignore_case (conf_flags kmp) /\ pattern kmp = P /\ pattern_len kmp = zlen P /\
  0 < zlen P < 2 ^ 32 /\ table_ok P (prefix_tbl kmp) (length P).

(** No occurrence of [P] ends within [t]. *)
Definition quiet (P t : list Z) : Prop := forall u, u `prefix_of` t -> ~ ends P u (length P).

Lemma quiet_nil P : 0 < zlen P -> quiet P [].
Proof. intros HP u ->%prefix_nil_inv H%ends_len. unfold zlen in HP. simpl in H. lia. Qed.

Lemma quiet_snoc P t c : quiet P t -> ~ ends P (t ++ [c]) (length P) -> quiet P (t ++ [c]).
Proof.
  intros Hq Hn u Hu. destruct Hu as [k Hk]. destruct k as [|x k _] using rev_ind.
  - rewrite app_nil_r in Hk. by subst.
  - rewrite app_assoc in Hk. apply app_inj_tail in Hk as [-> _]. apply Hq. by eexists.
Qed.

(** An occurrence from [offset] on is a whole pattern at the end of a prefix of the rest. *)
Lemma occurs_ends P F offset p :
  0 <= offset <= p -> p + zlen P <= zlen F ->
  occurs P F p <-> ends P (take (Z.to_nat (p + zlen P - offset)) (drop (Z.to_nat offset) F)) (length P).
Proof.
  intros Hp Hlen. unfold occurs, ends.
  replace (Z.to_nat (p + zlen P - offset)) with (Z.to_nat (p - offset) + length P)%nat
    by (unfold zlen; lia).
  rewrite <- (take_take_drop (drop _ _)), drop_drop.
  replace (Z.to_nat offset + Z.to_nat (p - offset))%nat with (Z.to_nat p) by lia.
  rewrite (take_ge P) by lia.
  assert (Hl : length (take (length P) (drop (Z.to_nat p) F)) = length P).
  { rewrite length_take, length_drop. unfold zlen in *. lia. }
  split.
  - intros (_ & _ & ->). split; [lia|]. by eexists.
  - intros [_ [k Hk]]. split_and!; [lia..|]. by apply app_inj_2 in Hk as [_ ->].
Qed.

(** One block, after the text [t] without an occurrence. *)
Lemma kmp_block_correct kmp icase P t block q :
  kmp_for kmp icase P -> longest P t q -> quiet P t ->
  let B := fold_case icase <$> block in
  exists r, kmp_block kmp block (Z.of_nat q) = Some r /\
    match r with
    | Next z => exists q', z = Z.of_nat q' /\ longest P (t ++ B) q' /\ quiet P (t ++ B)
    | Done i => exists n, i = Z.of_nat n /\ (n < length block)%nat /\
        ends P (t ++ take (S n) B) (length P) /\ quiet P (t ++ take n B)
    end.
Proof.
  intros (Hi & Hpat & Hpl & HP & Htbl) Hq Hquiet B. unfold kmp_block.
  rewrite Hpl, Hpat, <- Hi.
  match goal with |- context [for_ 0 ?b ?f ?s0] =>
    destruct (for_rule f (fun z zq => exists n k : nat, z = Z.of_nat n /\ zq = Z.of_nat k /\
      longest P (t ++ take n B) k /\ quiet P (t ++ take n B))
     (fun i => exists n, i = Z.of_nat n /\ (n < length block)%nat /\
        ends P (t ++ take (S n) B) (length P) /\ quiet P (t ++ take n B)) 0 b s0) as (r & -> & Hr)
  end.
  - apply zlen_nonneg.
  - exists 0%nat, q. by rewrite take_0, app_nil_r.
  - intros z zq Hz (n & k & -> & -> & Hk & Hqt).
    destruct (lookup_lt_is_Some_2 block n) as [x Hx]; [unfold zlen in *; lia|].
    rewrite (aget_nat _ _ _ Hx). simpl.
    assert (Hkm : (k < length P)%nat).
    { destruct Hk as [[Hk Hs] _]. destruct (decide (k = length P)) as [->|]; [|lia].
      by destruct (Hqt _ (reflexivity _)). }
    destruct (kmp_step_correct P (aget P) (prefix_tbl kmp) (t ++ take n B) (fold_case icase x) k)
      as (k' & -> & Hk'); [done|lia|done|intros i Hl; apply Htbl; lia|done|].
    rewrite <- app_assoc in Hk'. 
    rewrite <- (take_S_r B n (fold_case icase x)) in Hk' by (unfold B; by rewrite list_lookup_fmap, Hx).
    simpl. eexists. split; [done|].
    destruct (Z.eqb_spec (Z.of_nat k') (zlen P)) as [E|E].
    + exists n. split_and!; [done|unfold zlen in *; lia| |done].
      replace (length P) with k' by (unfold zlen in E; lia). apply Hk'.
    + exists (S n), k'. split_and!; [lia|done|done|].
      rewrite (take_S_r B n (fold_case icase x)) by (unfold B; by rewrite list_lookup_fmap, Hx).
      rewrite app_assoc. apply quiet_snoc; [done|]. rewrite <- app_assoc, <- take_S_r
        by (unfold B; by rewrite list_lookup_fmap, Hx).
      intros He. apply Hk' in He. destruct Hk' as [[Hle _] _]. unfold zlen in E. lia.
  - exists r. split; [done|]. destruct r; [|done]. destruct Hr as (n & k & Hn & -> & Hk & Hqt).
    exists k. rewrite take_ge in Hk, Hqt by (unfold B; rewrite length_fmap; unfold zlen in Hn; lia). done.
Qed.

(** The text from [offset] up to [c + n], for a block [b] fetched at [c]. *)
Lemma fetched_take icase text offset c b rest n :
  0 <= offset <= c -> drop (Z.to_nat c) text = b ++ rest -> (n <= length b)%nat ->
  let D := drop (Z.to_nat offset) (fold_case icase <$> text) in
  take (Z.to_nat (c - offset)) D ++ take n (fold_case icase <$> b) = take (Z.to_nat (c - offset) + n) D.
Proof.
  intros Hc Hd Hn D. rewrite <- (take_take_drop D). f_equal. unfold D. rewrite drop_drop.
  replace (Z.to_nat offset + Z.to_nat (c - offset))%nat with (Z.to_nat c) by lia.
  rewrite <- fmap_drop, Hd, fmap_app, take_app_le; [done|]. by rewrite length_fmap.
Qed.

Lemma first_found P F offset e :
  0 <= offset -> 0 < zlen P -> Z.of_nat e + offset < zlen F ->
  let D := drop (Z.to_nat offset) F in
  ends P (take (S e) D) (length P) -> quiet P (take e D) ->
  let p := offset + Z.of_nat e + 1 - zlen P in
  first_occurrence P F offset (p, offset + Z.of_nat e + 1).
Proof.
  intros Ho HP He D Hend Hq p. left. simpl.
  assert (Hp : offset <= p /\ p + zlen P <= zlen F).
  { apply ends_len in Hend. rewrite length_take in Hend. unfold p, zlen in *. lia. }
  split_and!; [|lia|unfold p; lia|].
  - apply (occurs_ends P F offset); [lia..|].
    by replace (Z.to_nat (p + zlen P - offset)) with (S e) by (unfold p; lia).
  - intros p' Hp' Hoc. destruct (Z.le_gt_cases p p') as [|Hlt]; [done|exfalso].
    apply (occurs_ends P F offset) in Hoc; [|lia..]. revert Hoc. apply Hq.
    replace (Z.to_nat (p' + zlen P - offset)) with (Z.to_nat (p' + zlen P - offset) `min` e)%nat
      by (unfold p in *; lia).
    rewrite <- take_take. apply prefix_take.
Qed.

(** The same in the words of the code. *)
Lemma found_in_block P F offset c n :
  0 <= offset <= c -> 0 < zlen P -> c + Z.of_nat n < zlen F < 2 ^ 32 ->
  let D := drop (Z.to_nat offset) F in let e := (Z.to_nat (c - offset) + n)%nat in
  ends P (take (S e) D) (length P) -> quiet P (take e D) ->
  first_occurrence P F offset (u32 (u32 (c + Z.of_nat n + 1) - zlen P), u32 (c + Z.of_nat n + 1)).
Proof.
  intros Hc HP Hn D e He Hq. pose proof (ends_len _ _ _ He) as Hl.
  rewrite length_take in Hl.
  pose proof (first_found P F offset e ltac:(lia) HP ltac:(unfold e; lia) He Hq) as Hff.
  assert (Hw : is_u32 (c + Z.of_nat n + 1) /\ is_u32 (c + Z.of_nat n + 1 - zlen P))
    by (unfold is_word, e, zlen in *; lia).
  rewrite !(wrap_small 32) by (rewrite ?(wrap_small 32); tauto).
  simpl in Hff. replace (offset + Z.of_nat e) with (c + Z.of_nat n) in Hff by (unfold e; lia). done.
Qed.

Lemma none_found P F offset :
  0 <= offset -> quiet P (drop (Z.to_nat offset) F) -> first_occurrence P F offset (UINT_MAX, offset).
Proof.
  intros Ho Hq. right. split; [done|]. intros p Hp Hoc. pose proof Hoc as (_ & Hl & _).
  apply (occurs_ends P F offset) in Hoc; [|lia..]. revert Hoc. apply Hq. apply prefix_take.
Qed.

Lemma kmp_find_correct fuel kmp icase P blocks text offset :
  kmp_for kmp icase P -> fetches blocks text -> zlen text < UINT_MAX ->
  0 <= offset <= zlen text -> zlen text - offset < Z.of_nat fuel ->
  exists r, kmp_find fuel kmp blocks offset = Some r /\
    first_occurrence P (fold_case icase <$> text) offset r.
Proof.
  intros Hk Hf Hmax Ho Hfuel. unfold kmp_find.
  set (F := fold_case icase <$> text). set (D := drop (Z.to_nat offset) F).
  assert (HF : zlen F = zlen text) by (unfold zlen, F; by rewrite length_fmap).
  pose proof Hk as (_ & _ & Hpl & HP & _).
  match goal with |- context [loop ?n0 ?f ?s0] =>
    destruct (loop_total f (fun '(zq, c) => exists q : nat, zq = Z.of_nat q /\ offset <= c <= zlen text /\
        longest P (take (Z.to_nat (c - offset)) D) q /\ quiet P (take (Z.to_nat (c - offset)) D))
      (first_occurrence P F offset) (fun '(_, c) => Z.to_nat (zlen text - c)))
      with (fuel := n0) (s := s0) as (r & -> & Hr)
  end.
  - intros [zq c] (q & -> & Hc & Hq & Hqt).
    destruct (Hf c) as (rest & Hd & Hend); [lia|]. set (b := blocks c) in *.
    assert (Hlen : zlen b + zlen rest = zlen text - c).
    { apply (f_equal length) in Hd. rewrite length_app, length_drop in Hd. unfold zlen in *. lia. }
    destruct (Z.eqb_spec (zlen b) 0) as [Hb|Hb].
    + eexists. split; [done|]. apply none_found; [lia|]. fold D.
      rewrite (Hend (zlen_nil_inv _ Hb)), Hb in Hlen. unfold zlen at 1 in Hlen. simpl in Hlen.
      rewrite take_ge in Hqt; [done|]. unfold D. rewrite length_drop. unfold zlen in *. lia.
    + destruct (kmp_block_correct kmp icase P _ b q Hk Hq Hqt) as (r & -> & Hr).
      pose proof (zlen_nonneg rest). pose proof (zlen_nonneg b). unfold UINT_MAX in Hmax.
      simpl. eexists. split; [done|]. destruct r as [z|i]; simpl.
      * destruct Hr as (q' & -> & Hq' & Hqt'). rewrite wrap_small by (unfold is_word; lia).
        rewrite <- (take_ge (fold_case icase <$> b) (length b)) in Hq', Hqt' by (rewrite length_fmap; lia).
        unfold D, F in Hq', Hqt'. rewrite (fetched_take icase text offset c b rest) in Hq', Hqt' by (done || lia).
        replace (Z.to_nat (c - offset) + length b)%nat with (Z.to_nat (c + zlen b - offset)) in Hq', Hqt'
          by (unfold zlen; lia).
        split; [|lia]. exists q'. split_and!; [done|lia|lia|done|done].
      * destruct Hr as (n & -> & Hn & He & Hqt').
        unfold D, F in He, Hqt'. rewrite (fetched_take icase text offset c b rest) in He, Hqt' by (done || lia).
        rewrite Nat.add_succ_r in He.
        rewrite Hpl. apply found_in_block; [lia|lia|unfold zlen in *; lia|done|done].
  - exists 0%nat. rewrite Z.sub_diag, take_0. split_and!; [done|lia|lia|apply longest_nil|apply quiet_nil; lia].
  - simpl. lia.
  - exists r. done.
Qed.

Lemma kmp_init_correct pat flags :
  0 < zlen pat < 2 ^ 30 ->
  exists kmp, kmp_init true pat flags = Some (inr kmp) /\
    kmp_for kmp (ignore_case flags) (fold_case (ignore_case flags) <$> pat).
Proof.
  intros Hlen. unfold kmp_init. rewrite wrap_small, Z.div_mul by (unfold is_word; lia).
  replace (Z.to_nat (zlen pat)) with (length pat) by (unfold zlen; lia).
  destruct (compute_prefix_tbl_correct pat flags (replicate (length pat) 0)) as (tbl & -> & Htbl);
    [lia|unfold zlen; by rewrite length_replicate|apply table_ok_init; unfold zlen in *; lia|].
  eexists. split; [done|]. unfold kmp_for, fold_case in *. simpl. unfold zlen in *.
  rewrite !length_fmap. destruct (ignore_case flags); rewrite ?list_fmap_id in *; split_and!; done || lia.
Qed.

(** The algorithm of [kmp_ops] keeps the promise. *)
#[export] Instance kmp_ops : ts_ops ts_kmp.
Proof.
  refine {| find := kmp_find; get_pattern := kmp_get_pattern; get_pattern_len := kmp_get_pattern_len;
            searches_for := kmp_for |}.
  - intros kmp icase P (_ & Hp & Hl & HP & _). split_and!; [lia|done|done].
  - intros. by eapply kmp_find_correct.
Defined.

(** * Repeated searches *)

(** The occurrences from left to right, each after the end of the one before. *)
Inductive leftmost (P F : list Z) : Z -> list Z -> Prop :=
| leftmost_nil o : (forall p, o <= p -> ~ occurs P F p) -> leftmost P F o []
| leftmost_cons o p ps :
    o <= p -> occurs P F p -> (forall p', o <= p' -> occurs P F p' -> p <= p') ->
    leftmost P F (p + zlen P) ps -> leftmost P F o (p :: ps).

Section core_proofs.
Context {C : Type} `{!ts_ops C} (conf : C) (icase : bool) (P : list Z).
Hypothesis Hconf : searches_for conf icase P.

Lemma linear_fetches data : fetches (get_linear_data data (zlen data)) data.
Proof.
  intros c Hc. exists []. unfold get_linear_data. rewrite app_nil_r. split; [|done].
  destruct (Z.ltb_spec c (zlen data)).
  - rewrite take_ge; [done|]. rewrite length_drop. unfold zlen in *. lia.
  - apply drop_ge. unfold zlen in *. lia.
Qed.

Lemma all_occurrences_correct fuel blocks text :
  fetches blocks text -> zlen text < UINT_MAX ->
  forall n offset, 0 <= offset <= zlen text -> zlen text - offset < Z.of_nat fuel ->
    zlen text - offset < Z.of_nat n ->
    exists ps, all_occurrences n fuel conf blocks offset = Some ps /\
      leftmost P (fold_case icase <$> text) offset ps.
Proof.
  intros Hf Hmax. destruct (searches_len conf icase P Hconf) as (HP & _).
  assert (HF : zlen (fold_case icase <$> text) = zlen text) by (unfold zlen; by rewrite length_fmap).
  induction n as [|n IH]; intros offset Ho Hfu Hn; [lia|]. simpl. unfold textsearch_next.
  destruct (find_first fuel conf icase P blocks text offset) as ([p o] & -> & Hr); [done..|].
  simpl. destruct Hr as [(Hoc & Hop & Ho' & Hmin)|([= -> ->] & Hno)]; simpl in *.
  - pose proof Hoc as (Hp0 & Hpl & _). destruct (Z.eqb_spec p UINT_MAX); [lia|].
    destruct (IH o) as (ps & -> & Hps); [lia..|]. simpl. eexists. split; [done|].
    constructor; [done..|]. by rewrite <- Ho'.
  - eexists. split; [done|]. by constructor.
Qed.

Lemma find_continuous_correct fuel data :
  zlen data < UINT_MAX -> zlen data < Z.of_nat fuel ->
  exists r, textsearch_find_continuous fuel conf data (zlen data) = Some r /\
    first_occurrence P (fold_case icase <$> data) 0 r.
Proof.
  intros Hmax Hfuel. pose proof (zlen_nonneg data).
  apply find_first; [done|apply linear_fetches|done|lia|lia].
Qed.
End core_proofs.

(** * The registry *)

Section registry_proofs.
Context {C : Type}.
Implicit Types (st : ts_core C) (o ops : ts_algo C) (l : list (ts_algo C)).

Definition complete ops : Prop :=
  is_Some (ops_name ops) /\ is_Some (ops_find ops) /\ is_Some (ops_init ops) /\
  is_Some (ops_get_pattern ops) /\ is_Some (ops_get_pattern_len ops).

(** Every algorithm is complete, names and addresses are unique. *)
Definition registry_ok st : Prop :=
  Forall complete (ts_list st) /\ NoDup (ops_name <$> ts_list st) /\ NoDup (ops_addr <$> ts_list st).

Lemma same_name_spec n o : Is_true (same_name n o) <-> ops_name o = Some n.
Proof. apply bool_decide_spec. Qed.

Lemma existsb_name n l : existsb (same_name n) l = true <-> Some n ∈ (ops_name <$> l).
Proof.
  rewrite existsb_exists, list_elem_of_fmap. split.
  - intros (o & Hin & Hn). exists o. unfold same_name in Hn. case_bool_decide; [|done].
    split; [done|]. by apply list_elem_of_In.
  - intros (o & Hn & Hin). exists o. split; [by apply list_elem_of_In|].
    unfold same_name. by case_bool_decide.
Qed.

Lemma find_name l o n :
  NoDup (ops_name <$> l) -> o ∈ l -> ops_name o = Some n -> List.find (same_name n) l = Some o.
Proof.
  intros Hnd Hin Hn. destruct (List.find (same_name n) l) as [o'|] eqn:E.
  - apply List.find_some in E as [Hin'%list_elem_of_In Hs]. unfold same_name in Hs. case_bool_decide; [|done].
    f_equal. eapply (NoDup_key ops_name); eauto. congruence.
  - apply list_elem_of_In in Hin. apply (List.find_none _ _ E) in Hin.
    unfold same_name in Hin. by case_bool_decide.
Qed.

Lemma list_del_spec l ops :
  NoDup (ops_addr <$> l) -> ops ∈ l ->
  exists l1 l2, l = l1 ++ ops :: l2 /\ list_del_algo l (ops_addr ops) = Some (l1 ++ l2).
Proof.
  induction l as [|o l IH]; [by intros _ ?%elem_of_nil|].
  rewrite fmap_cons, list.NoDup_cons, elem_of_cons. simpl. intros [Hnew Hnd] [->|Hin].
  - exists [], l. by rewrite Z.eqb_refl.
  - destruct (Z.eqb_spec (ops_addr o) (ops_addr ops)) as [E|_].
    { destruct Hnew. rewrite E. by apply list_elem_of_fmap_2. }
    destruct IH as (l1 & l2 & -> & ->); [done..|]. by exists (o :: l1), l2.
Qed.

Lemma list_del_none l a : a ∉ (ops_addr <$> l) -> list_del_algo l a = None.
Proof.
  induction l as [|o l IH]; [done|]. rewrite fmap_cons, not_elem_of_cons. simpl.
  intros [Hne Hnot]. rewrite IH by done. zcases.
Qed.

Lemma registry_ok_app l1 l2 r :
  registry_ok (TsCore (l1 ++ l2) r) <->
  registry_ok (TsCore l1 r) /\ registry_ok (TsCore l2 r) /\
  (forall o o', o ∈ l1 -> o' ∈ l2 -> ops_name o <> ops_name o' /\ ops_addr o <> ops_addr o').
Proof.
  unfold registry_ok. simpl. rewrite Forall_app, !fmap_app, !list.NoDup_app.
  split.
  - intros ([] & (? & Hn & ?) & (? & Ha & ?)). split_and!; try done.
    intros o o' Ho Ho'. split; intros E.
    + apply (Hn (ops_name o)); [|rewrite E]; by apply list_elem_of_fmap_2.
    + apply (Ha (ops_addr o)); [|rewrite E]; by apply list_elem_of_fmap_2.
  - intros ((? & ? & ?) & (? & ? & ?) & Hd). split_and!; try done.
    + intros x (o & -> & Ho)%list_elem_of_fmap (o' & E & Ho')%list_elem_of_fmap. by destruct (Hd o o' Ho Ho').
    + intros x (o & -> & Ho)%list_elem_of_fmap (o' & E & Ho')%list_elem_of_fmap. by destruct (Hd o o' Ho Ho').
Qed.

(** Each call of the registry with what it returns. *)
Lemma register_correct st ops :
  registry_ok st -> (forall o, o ∈ ts_list st -> ops_addr o = ops_addr ops -> o = ops) ->
  let '(st', err) := textsearch_register st ops in
  registry_ok st' /\
  ((err = 0 /\ complete ops /\ (ops_name ops ∉ (ops_name <$> ts_list st)) /\
    st' = TsCore (ts_list st ++ [ops]) (module_refs st)) \/
   (err = - EEXIST /\ complete ops /\ ops_name ops ∈ (ops_name <$> ts_list st) /\ st' = st) \/
   (err = - EINVAL /\ ~ complete ops /\ st' = st)).
Proof.
  intros Hok Haddr. unfold textsearch_register, complete.
  destruct (ops_name ops) as [n|] eqn:En, (ops_find ops) eqn:Ef, (ops_init ops) eqn:Ei,
    (ops_get_pattern ops) eqn:Ep, (ops_get_pattern_len ops) eqn:El;
    try (split; [done|]; right; right; split; [done|]; split; [|done];
         intros (H1 & H2 & H3 & H4 & H5); by destruct H1, H2, H3, H4, H5).
  assert (Hc : is_Some (Some n) /\ is_Some (Some o) /\ is_Some (Some o0) /\ is_Some (Some l) /\ is_Some (Some z))
    by eauto 10.
  destruct (existsb (same_name n) (ts_list st)) eqn:E.
  - apply existsb_name in E. split; [done|]. right. left. done.
  - assert (Hnew : Some n ∉ (ops_name <$> ts_list st)) by (intros Hin%existsb_name; congruence).
    split; [|left; done]. destruct st as [l0 r]. apply registry_ok_app. simpl in *.
    split_and!; [done| |].
    + split_and!; [|apply list.NoDup_singleton..]. constructor; [|done]. unfold complete.
      rewrite En, Ef, Ei, Ep, El. done.
    + intros o1 o2 Ho1 ->%list_elem_of_singleton. rewrite En. split; intros Heq.
      * destruct Hnew. rewrite <- Heq. by apply list_elem_of_fmap_2.
      * apply Haddr in Heq as ->; [|done]. destruct Hnew. rewrite <- En. by apply list_elem_of_fmap_2.
Qed.

Lemma unregister_correct st ops :
  registry_ok st -> (forall o, o ∈ ts_list st -> ops_addr o = ops_addr ops -> o = ops) ->
  let '(st', err) := textsearch_unregister st ops in
  registry_ok st' /\ module_refs st' = module_refs st /\
  ((err = 0 /\ ops ∈ ts_list st /\ (ops_name ops ∉ (ops_name <$> ts_list st')) /\
    exists l1 l2, ts_list st = l1 ++ ops :: l2 /\ ts_list st' = l1 ++ l2) \/
   (err = - ENOENT /\ (ops ∉ ts_list st) /\ st' = st)).
Proof.
  intros Hok Haddr. unfold textsearch_unregister. destruct (list_del_algo (ts_list st) (ops_addr ops)) as [l|] eqn:E.
  - assert (Hin : ops ∈ ts_list st).
    { destruct (decide (ops_addr ops ∈ (ops_addr <$> ts_list st))) as [Ha|Ha]; [|by rewrite list_del_none in E].
      apply list_elem_of_fmap in Ha as (o & Ho & Hin). by rewrite <- (Haddr o). }
    destruct (list_del_spec (ts_list st) ops) as (l1 & l2 & Hl & Hd); [apply Hok|done|].
    rewrite E in Hd. simplify_eq. destruct st as [l r]. simpl in *. subst l.
    apply registry_ok_app in Hok as (Hok1 & Hok2 & Hd).
    change (ops :: l2) with ([ops] ++ l2) in Hok2. apply registry_ok_app in Hok2 as (_ & Hok2 & Hd2).
    split_and!; [|done|left; split_and!; [done|done| |eauto]].
    + apply registry_ok_app. split_and!; [done..|]. intros o o' Ho Ho'. apply Hd; set_solver.
    + rewrite fmap_app, elem_of_app, !list_elem_of_fmap.
      intros [(o & Ho & Hin')|(o & Ho & Hin')]; [by destruct (Hd o ops); [|set_solver|]|].
      by destruct (Hd2 ops o); [set_solver| |].
  - split_and!; [done..|]. right. split_and!; [done| |done]. intros Hin.
    destruct (list_del_spec (ts_list st) ops) as (l1 & l2 & _ & Hd); [apply Hok|done|]. congruence.
Qed.

Lemma lookup_algo_correct live st ops n :
  registry_ok st -> ops ∈ ts_list st -> ops_name ops = Some n -> (ops_owner ops =? 0) || live (ops_owner ops) = true ->
  lookup_ts_algo live st n = (add_ref st (ops_owner ops) 1, Some ops).
Proof.
  intros (_ & Hnd & _) Hin Hn Hlive. unfold lookup_ts_algo, try_module_get.
  by rewrite (find_name _ ops), Hlive.
Qed.

Lemma lookup_algo_none live st n :
  (forall o, o ∈ ts_list st -> ops_name o = Some n -> (ops_owner o =? 0) || live (ops_owner o) = false) ->
  lookup_ts_algo live st n = (st, None).
Proof.
  intros Hdead. unfold lookup_ts_algo, try_module_get.
  destruct (List.find (same_name n) (ts_list st)) as [o|] eqn:E; [|done].
  apply List.find_some in E as [Hin%list_elem_of_In Hs]. unfold same_name in Hs. case_bool_decide; [|done].
  by rewrite Hdead.
Qed.

Lemma add_ref_undo st m m' : module_refs (module_put (add_ref st m 1) m) m' = module_refs st m'.
Proof. unfold module_put, add_ref. destruct (m =? 0); [done|]. simpl. zcases. Qed.
End registry_proofs.

(** [struct ts_ops kmp_ops], which [init_kmp] registers under the name "kmp". *)
Definition kmp_name : list Z := [107; 109; 112].
Definition kmp_module (addr owner : Z) : ts_algo ts_kmp :=
  TsAlgo addr owner (Some kmp_name) (Some kmp_init) (Some kmp_find) (Some kmp_get_pattern) (Some kmp_get_pattern_len).

Lemma prepare_kmp live req mem st addr owner pat flags :
  registry_ok st -> kmp_module addr owner ∈ ts_list st -> (owner =? 0) || live owner = true -> 0 < zlen pat ->
  textsearch_prepare live req mem st kmp_name pat flags =
    conf ← kmp_init mem pat flags;
    Some (match conf with
          | inl err => (module_put (add_ref st owner 1) owner, inl err)
          | inr conf => (add_ref st owner 1, inr (kmp_module addr owner, conf))
          end).
Proof.
  intros Hok Hin Hlive Hlen. unfold textsearch_prepare.
  destruct (Z.eqb_spec (zlen pat) 0); [lia|].
  by rewrite (lookup_algo_correct live st (kmp_module addr owner)).
Qed.

(** * Theorems *)

(** C24: [textsearch_prepare] with the algorithm "kmp" gives, for every pattern of less
    than 2^30 bytes, a configuration with which [textsearch_find] and [textsearch_next]
    return exactly the occurrences of the pattern from left to right, none overlapping
    the one before, upper and lower case being the same where asked for,
    however the text is cut into blocks; [textsearch_find_continuous] returns the first
    one.  The configuration holds one reference on the module until
    [textsearch_destroy]; without memory the result is -ENOMEM and no reference is kept. *)
Theorem textsearch_kmp_correct live req st addr owner pat flags blocks text fuel :
  registry_ok st -> kmp_module addr owner ∈ ts_list st -> (owner =? 0) || live owner = true ->
  0 < zlen pat < 2 ^ 30 ->
  fetches blocks text -> zlen text < UINT_MAX -> zlen text < Z.of_nat fuel ->
  let fold := fold_case (ignore_case flags) in
  (exists st' kmp, textsearch_prepare live req true st kmp_name pat flags = Some (st', inr (kmp_module addr owner, kmp)) /\
     (exists ps, all_occurrences fuel fuel kmp blocks 0 = Some ps /\ leftmost (fold <$> pat) (fold <$> text) 0 ps) /\
     (exists r, textsearch_find_continuous fuel kmp text (zlen text) = Some r /\
        first_occurrence (fold <$> pat) (fold <$> text) 0 r) /\
     get_pattern kmp = fold <$> pat /\ get_pattern_len kmp = zlen pat /\
     forall m, module_refs st' m = (if (m =? owner) && negb (owner =? 0) then module_refs st m + 1 else module_refs st m) /\
       module_refs (textsearch_destroy st' (kmp_module addr owner)) m = module_refs st m) /\
  (exists st', textsearch_prepare live req false st kmp_name pat flags = Some (st', inl (- ENOMEM)) /\
     forall m, module_refs st' m = module_refs st m).
Proof.
  intros Hok Hin Hlive Hlen Hf Hmax Hfuel fold. pose proof (zlen_nonneg text).
  rewrite !(prepare_kmp _ _ _ st addr owner) by (done || lia). split.
  - destruct (kmp_init_correct pat flags Hlen) as (kmp & -> & Hk). simpl.
    assert (Hs : searches_for kmp (ignore_case flags) (fold <$> pat)) by exact Hk.
    destruct (searches_len kmp _ _ Hs) as (_ & Hgp & Hgl).
    exists (add_ref st owner 1), kmp. split_and!; [done| | |done| |].
    + apply (all_occurrences_correct kmp (ignore_case flags) _ Hs); [done|done|lia..].
    + by apply (find_continuous_correct kmp (ignore_case flags) _ Hs).
    + etrans; [exact Hgl|]. unfold zlen. by rewrite length_fmap.
    + intros m. split; [|apply add_ref_undo]. unfold add_ref. destruct (owner =? 0); [by rewrite andb_false_r|by rewrite andb_true_r].
  - eexists. split; [done|]. intros m. apply add_ref_undo.
Qed.

Definition demo_registry : ts_core ts_kmp := fst (textsearch_register (TsCore [] (fun _ => 0)) (kmp_module 100 7)).
(** "aBabABab" in blocks of three bytes. *)
Definition demo_text : list Z := [97; 66; 97; 98; 65; 66; 97; 98].
Definition demo_blocks (c : Z) : list Z := take 3 (drop (Z.to_nat c) demo_text).

Lemma demo_fetches : fetches demo_blocks demo_text.
Proof.
  intros c Hc. exists (drop 3 (drop (Z.to_nat c) demo_text)). unfold demo_blocks.
  split; [by rewrite take_drop|]. intros E. destruct (drop (Z.to_nat c) demo_text); [done|discriminate].
Qed.

Lemma demo_registry_ok : registry_ok demo_registry.
Proof. split_and!; [|apply list.NoDup_singleton..]. repeat constructor; eexists; reflexivity. Qed.

Lemma demo_registered : kmp_module 100 7 ∈ ts_list demo_registry.
Proof. by apply list_elem_of_singleton. Qed.

(** The pattern "abAb" without regard to case occurs at 0 and at 4. *)
Lemma textsearch_kmp_correct_witness :
  (exists st' kmp, textsearch_prepare (fun _ => true) id true demo_registry kmp_name [97; 98; 65; 98] 2 =
     Some (st', inr (kmp_module 100 7, kmp)) /\ all_occurrences 9 9 kmp demo_blocks 0 = Some [0; 4]) /\
  leftmost [65; 66; 65; 66] [65; 66; 65; 66; 65; 66; 65; 66] 0 [0; 4].
Proof.
  assert (Hi : kmp_init true [97; 98; 65; 98] 2 = Some (inr (TsKmp [65; 66; 65; 66] 4 [0; 0; 1; 2] 2)))
    by (vm_compute; reflexivity).
  destruct (textsearch_kmp_correct (fun _ => true) id demo_registry 100 7 [97; 98; 65; 98] 2 demo_blocks demo_text 9)
    as [(st' & kmp & Hp & (ps & Hps & Hl) & _) _];
    [apply demo_registry_ok|apply demo_registered|reflexivity|split; reflexivity|exact demo_fetches|reflexivity|reflexivity|].
  pose proof Hp as Hp'.
  rewrite (prepare_kmp _ _ _ demo_registry 100 7), Hi in Hp'
    by (apply demo_registry_ok || apply demo_registered || reflexivity).
  injection Hp' as _ <-. vm_compute in Hps. injection Hps as <-.
  split; [|exact Hl]. by do 2 eexists.
Defined.

(** C35: the registry of algorithms keeps names and addresses unique and every algorithm
    complete.  [textsearch_register] appends a complete algorithm with a new name,
    refuses a taken name with -EEXIST and missing callbacks with -EINVAL;
    [textsearch_unregister] takes out exactly the algorithm, and returns -ENOENT
    when it is not registered; [textsearch_prepare] refuses an empty pattern with
    -EINVAL and, without autoloading, a name that is not registered or whose module is
    being unloaded with -ENOENT, and changes nothing then. *)
Theorem textsearch_registry_correct {C : Type} (st : ts_core C) (ops : ts_algo C) :
  registry_ok st -> (forall o, o ∈ ts_list st -> ops_addr o = ops_addr ops -> o = ops) ->
  (let '(st', err) := textsearch_register st ops in
   registry_ok st' /\
   ((err = 0 /\ complete ops /\ (ops_name ops ∉ (ops_name <$> ts_list st)) /\
     st' = TsCore (ts_list st ++ [ops]) (module_refs st)) \/
    (err = - EEXIST /\ complete ops /\ ops_name ops ∈ (ops_name <$> ts_list st) /\ st' = st) \/
    (err = - EINVAL /\ ~ complete ops /\ st' = st))) /\
  (let '(st', err) := textsearch_unregister st ops in
   registry_ok st' /\ module_refs st' = module_refs st /\
   ((err = 0 /\ ops ∈ ts_list st /\ (ops_name ops ∉ (ops_name <$> ts_list st')) /\
     exists l1 l2, ts_list st = l1 ++ ops :: l2 /\ ts_list st' = l1 ++ l2) \/
    (err = - ENOENT /\ (ops ∉ ts_list st) /\ st' = st))) /\
  forall live req mem name pat flags,
    textsearch_prepare live req mem st name [] flags = Some (st, inl (- EINVAL)) /\
    (pat <> [] -> Z.land flags TS_AUTOLOAD = 0 ->
     (forall o, o ∈ ts_list st -> ops_name o = Some name -> (ops_owner o =? 0) || live (ops_owner o) = false) ->
     textsearch_prepare live req mem st name pat flags = Some (st, inl (- ENOENT))).
Proof.
  intros Hok Haddr. split_and!; [by apply register_correct|by apply unregister_correct|].
  intros live req mem name pat flags. split; [done|]. intros Hpat Hfl Hdead.
  unfold textsearch_prepare. rewrite Hfl. destruct (Z.eqb_spec (zlen pat) 0) as [E%zlen_nil_inv|_]; [done|].
  by rewrite lookup_algo_none.
Qed.

(** The algorithm "kmp" registered twice, taken out, and looked for. *)
Lemma textsearch_registry_correct_witness :
  snd (textsearch_register demo_registry (kmp_module 100 7)) = - EEXIST /\
  registry_ok (fst (textsearch_unregister demo_registry (kmp_module 100 7))) /\
  textsearch_prepare (fun _ => false) id true demo_registry kmp_name [97] 0 = Some (demo_registry, inl (- ENOENT)).
Proof.
  destruct (textsearch_registry_correct demo_registry (kmp_module 100 7)) as (_ & Hu & Hp).
  - apply demo_registry_ok.
  - intros o Ho _. by apply list_elem_of_singleton in Ho.
  - split; [reflexivity|]. split; [exact (proj1 Hu)|].
    apply (Hp (fun _ => false) id true kmp_name [97] 0); [discriminate|reflexivity|].
    intros o Ho _. apply list_elem_of_singleton in Ho as ->. reflexivity.
Defined.
