(* ===== verification/Calendar.v ===== *)
(** Calendar dates: [mktime] of kernel/time.c, [time_to_tm] of kernel/time/timeconv.c
    and the real-time clock library drivers/rtc/rtc-lib.c.

    A date is specified by its number of seconds since 1970, [date_seconds], over
    the years of the Gregorian calendar, negative ones included.  [mktime] computes it, and
    [time_to_tm] and [rtc_time_to_tm] invert it. *)
From Stdlib Require Import ZArith Lia Bool.
From stdpp Require Import base numbers list option.
From S2P Require Import Prelude.

Local Open Scope Z_scope.

(** * kernel/time.c *)

(** The sum in parentheses and [year*365] are [unsigned int]. *)
Definition mktime (year0 mon0 day hour min sec : Z) : Z :=
  let mon := u32 (mon0 - 2) in
  let '(mon, year) := if s32 mon <=? 0 then (u32 (mon + 12), u32 (year0 - 1)) else (mon, year0) in
  u64 (u64 (u64 (u64 (u32 (year / 4 - year / 100 + year / 400 + u32 (367 * mon) / 12 + day)
    + u32 (year * 365) - 719499) * 24 + hour) * 60 + min) * 60 + sec).

(** * kernel/time/timeconv.c *)

Record tm : Type := Tm {
  tm_sec : Z;
  tm_min : Z;
  tm_hour : Z;
  tm_mday : Z;
  tm_mon : Z;
  tm_year : Z;
  tm_wday : Z;
  tm_yday : Z
}.

Definition __isleap (year : Z) : bool :=
  (Z.rem year 4 =? 0) && (negb (Z.rem year 100 =? 0) || (Z.rem year 400 =? 0)).

Definition math_div (a b : Z) : Z := a ÷ b - (if Z.rem a b <? 0 then 1 else 0).

Definition leaps_between (y1 y2 : Z) : Z :=
  let leaps1 := math_div (y1 - 1) 4 - math_div (y1 - 1) 100 + math_div (y1 - 1) 400 in
  let leaps2 := math_div (y2 - 1) 4 - math_div (y2 - 1) 100 + math_div (y2 - 1) 400 in
  leaps2 - leaps1.

Definition __mon_yday (leap : bool) : list Z :=
  if leap then [0; 31; 60; 91; 121; 152; 182; 213; 244; 274; 305; 335; 366]
  else [0; 31; 59; 90; 120; 151; 181; 212; 243; 273; 304; 334; 365].

Definition SECS_PER_HOUR : Z := 60 * 60.
Definition SECS_PER_DAY : Z := SECS_PER_HOUR * 24.

(** The two loops that bring [rem] into a day; [offset] is an [int]. *)
Definition split_day (days rem : Z) : option (Z * Z) :=
  let fuel := Z.to_nat 25000 in
  '(days, rem) ← loop fuel (fun '(days, rem) =>
    Some (if rem <? 0 then Next (days - 1, rem + SECS_PER_DAY) else Done (days, rem))) (days, rem);
  loop fuel (fun '(days, rem) =>
    Some (if SECS_PER_DAY <=? rem then Next (days + 1, rem - SECS_PER_DAY) else Done (days, rem))) (days, rem).

(** The search for the year; the day within it. *)
Definition find_year (days : Z) : option (Z * Z) :=
  loop 2500 (fun '(days, y) =>
    Some (if (days <? 0) || ((if __isleap y then 366 else 365) <=? days) then
            let yg := y + math_div days 365 in
            Next (days - ((yg - y) * 365 + leaps_between y yg), yg)
          else Done (days, y))) (days, 1970).

(** [for (y = 11; days < ip[y]; y--)]. *)
Definition find_month (ip : list Z) (days : Z) : option Z :=
  loop 13 (fun y => x ← aget ip y; Some (if days <? x then Next (y - 1) else Done y)) 11.

Definition time_to_tm (totalsecs offset : Z) : option tm :=
  '(days, rem) ← split_day (totalsecs ÷ SECS_PER_DAY) (Z.rem totalsecs SECS_PER_DAY + offset);
  let tm_hour := rem ÷ SECS_PER_HOUR in
  let rem := Z.rem rem SECS_PER_HOUR in
  let tm_min := rem ÷ 60 in
  let tm_sec := Z.rem rem 60 in
  let tm_wday := Z.rem (4 + days) 7 in
  let tm_wday := if tm_wday <? 0 then tm_wday + 7 else tm_wday in
  '(days, y) ← find_year days;
  let ip := __mon_yday (__isleap y) in
  m ← find_month ip days;
  x ← aget ip m;
  Some (Tm tm_sec tm_min tm_hour (days - x + 1) m (y - 1900) tm_wday days).

(** * drivers/rtc/rtc-lib.c *)

Definition rtc_days_in_month : list Z := [31; 28; 31; 30; 31; 30; 31; 31; 30; 31; 30; 31].

Definition rtc_ydays (leap : bool) : list Z :=
  if leap then [0; 31; 60; 91; 121; 152; 182; 213; 244; 274; 305; 335; 366]
  else [0; 31; 59; 90; 120; 151; 181; 212; 243; 273; 304; 334; 365].

Definition LEAPS_THRU_END_OF (y : Z) : Z := y / 4 - y / 100 + y / 400.

(** include/linux/rtc.h, for an [unsigned int]. *)
Definition is_leap_year (year : Z) : bool :=
  ((year mod 4 =? 0) && negb (year mod 100 =? 0)) || (year mod 400 =? 0).

Definition rtc_month_days (month year : Z) : option Z :=
  d ← aget rtc_days_in_month month;
  Some (d + (if is_leap_year year && (month =? 1) then 1 else 0)).

Definition rtc_year_days (day month year : Z) : option Z :=
  d ← aget (rtc_ydays (is_leap_year year)) month; Some (s32 (d + day - 1)).

(** The year and the day within it; [days] is an [int], [year] an [unsigned int]. *)
Definition rtc_find_year (days : Z) : Z * Z :=
  let year := u32 (1970 + days ÷ 365) in
  let days := s32 (days - ((year - 1970) * 365 + LEAPS_THRU_END_OF (u32 (year - 1)) - LEAPS_THRU_END_OF (1970 - 1))) in
  if days <? 0 then
    let year := u32 (year - 1) in (year, s32 (days + 365 + (if is_leap_year year then 1 else 0)))
  else (year, days).

(** The month and the day within it. *)
Definition rtc_find_month (year days : Z) : option (Z * Z) :=
  r ← for_ 0 11 (fun month days =>
    n ← rtc_month_days month year;
    let newdays := s32 (days - n) in
    Some (if newdays <? 0 then Done (month, days) else Next newdays)) days;
  Some (match r with Done x => x | Next days => (11, days) end).

Definition rtc_time_to_tm (time : Z) : option tm :=
  let days := s32 (time / 86400) in
  let time := u64 (time - u32 (u32 days * 86400)) in
  let tm_wday := Z.rem (s32 (days + 4)) 7 in
  let '(year, days) := rtc_find_year days in
  let tm_year := s32 (year - 1900) in
  let tm_yday := s32 (days + 1) in
  '(month, days) ← rtc_find_month year days;
  let tm_hour := s32 (time / 3600) in
  let time := u64 (time - s32 (tm_hour * 3600)) in
  let tm_min := s32 (time / 60) in
  let tm_sec := s32 (time - s32 (tm_min * 60)) in
  Some (Tm tm_sec tm_min tm_hour (s32 (days + 1)) month tm_year tm_wday tm_yday).

(** The conditions from left to right; each is evaluated when those before it fail. *)
Definition rtc_valid_tm (t : tm) : option Z :=
  if (tm_year t <? 70) || (12 <=? u32 (tm_mon t)) || (tm_mday t <? 1) then Some (- EINVAL)
  else
    n ← rtc_month_days (u32 (tm_mon t)) (u32 (tm_year t + 1900));
    Some (if (n <? tm_mday t) || (24 <=? u32 (tm_hour t)) || (60 <=? u32 (tm_min t)) || (60 <=? u32 (tm_sec t))
          then - EINVAL else 0).

Definition rtc_tm_to_time (t : tm) : Z :=
  mktime (u32 (tm_year t + 1900)) (u32 (tm_mon t + 1)) (u32 (tm_mday t)) (u32 (tm_hour t)) (u32 (tm_min t)) (u32 (tm_sec t)).

(** * The Gregorian calendar *)

Definition leap (y : Z) : Prop := (y mod 4 = 0 /\ y mod 100 <> 0) \/ y mod 400 = 0.
#[export] Instance leap_dec y : Decision (leap y).
Proof. unfold leap. apply _. Defined.

Definition year_days (y : Z) : Z := if decide (leap y) then 366 else 365.

(** Days from 1 January 1970 to 1 January of the year [y]. *)
Definition year_start (y : Z) : Z :=
  365 * (y - 1970) + LEAPS_THRU_END_OF (y - 1) - LEAPS_THRU_END_OF 1969.

(** The month [m] counts from 0. *)
Definition month_days (y m : Z) : Z :=
  default 0 (aget rtc_days_in_month m) + (if decide (leap y /\ m = 1) then 1 else 0).

Definition month_start (y m : Z) : Z := foldr Z.add 0 (month_days y <$> seqZ 0 m).

(** The date, of the Gregorian calendar and within a day of 24 hours. *)
Record valid_date (t : tm) : Prop := {
  valid_mon : 0 <= tm_mon t < 12;
  valid_mday : 1 <= tm_mday t <= month_days (tm_year t + 1900) (tm_mon t);
  valid_hour : 0 <= tm_hour t < 24;
  valid_min : 0 <= tm_min t < 60;
  valid_sec : 0 <= tm_sec t < 60
}.

Definition date_yday (t : tm) : Z := month_start (tm_year t + 1900) (tm_mon t) + tm_mday t - 1.
Definition date_days (t : tm) : Z := year_start (tm_year t + 1900) + date_yday t.
Definition date_seconds (t : tm) : Z :=
  86400 * date_days t + 3600 * tm_hour t + 60 * tm_min t + tm_sec t.

(** * Years and months *)

Ltac div_lia := Z.to_euclidean_division_equations; lia.

Definition leap_day (y : Z) : Z := if decide (leap y) then 1 else 0.

Lemma leaps_step y : LEAPS_THRU_END_OF y = LEAPS_THRU_END_OF (y - 1) + leap_day y.
Proof. unfold LEAPS_THRU_END_OF, leap_day, leap. case_decide; div_lia. Qed.

Lemma year_days_alt y : year_days y = 365 + leap_day y.
Proof. unfold year_days, leap_day. case_decide; lia. Qed.

Lemma leap_day_bound y : 0 <= leap_day y <= 1.
Proof. unfold leap_day. case_decide; lia. Qed.

Lemma year_start_1970 : year_start 1970 = 0.
Proof. done. Qed.

Lemma year_start_S y : year_start (y + 1) = year_start y + year_days y.
Proof.
  rewrite year_days_alt. unfold year_start. replace (y + 1 - 1) with y by lia. pose proof (leaps_step y). lia.
Qed.

Lemma leaps_bound y k : 0 <= k -> 0 <= LEAPS_THRU_END_OF (y + k) - LEAPS_THRU_END_OF y <= k.
Proof.
  intros Hk. pattern k. apply natlike_ind; [|clear k Hk; intros k Hk IH|done].
  - rewrite Z.add_0_r. lia.
  - pose proof (leaps_step (y + Z.succ k)) as E. pose proof (leap_day_bound (y + Z.succ k)).
    replace (y + Z.succ k - 1) with (y + k) in E by lia. lia.
Qed.

Lemma year_start_mono y z : y < z -> year_start y + year_days y <= year_start z.
Proof.
  intros Hyz. rewrite <- year_start_S. unfold year_start.
  pose proof (leaps_bound (y + 1 - 1) (z - (y + 1)) ltac:(lia)) as H.
  replace (y + 1 - 1 + (z - (y + 1))) with (z - 1) in H by lia. lia.
Qed.

Lemma is_leap_year_spec y : is_leap_year y = bool_decide (leap y).
Proof.
  unfold is_leap_year, leap. case_bool_decide as E; zcases; tauto || lia.
Qed.

Lemma rem_mod_0 a b : b <> 0 -> (Z.rem a b =? 0) = (a mod b =? 0).
Proof.
  intros Hb. apply Bool.eq_iff_eq_true. rewrite !Z.eqb_eq.
  by rewrite Z.rem_divide, Z.mod_divide by done.
Qed.

Lemma __isleap_spec y : __isleap y = bool_decide (leap y).
Proof.
  unfold __isleap. rewrite !rem_mod_0 by done. unfold leap. case_bool_decide as E; zcases; try tauto; div_lia.
Qed.

Lemma math_div_spec a b : 0 < b -> math_div a b = a / b.
Proof. intros Hb. unfold math_div. zcases; div_lia || (Z.to_euclidean_division_equations; nia). Qed.

Lemma leaps_between_spec y1 y2 :
  leaps_between y1 y2 = LEAPS_THRU_END_OF (y2 - 1) - LEAPS_THRU_END_OF (y1 - 1).
Proof. unfold leaps_between. by rewrite !math_div_spec. Qed.

Lemma month_start_0 y : month_start y 0 = 0.
Proof. done. Qed.

Lemma month_start_S y m : 0 <= m -> month_start y (m + 1) = month_start y m + month_days y m.
Proof.
  intros Hm. rewrite <- (Z2Nat.id m Hm). set (n := Z.to_nat m). unfold month_start.
  replace (Z.of_nat n + 1) with (Z.of_nat (S n)) by lia.
  rewrite seqZ_S, fmap_app, foldr_app, Z.add_0_l. simpl.
  generalize (month_days y <$> seqZ 0 (Z.of_nat n)) as l. induction l as [|x l IH]; simpl; lia.
Qed.

Lemma month_days_spec y m : 0 <= m < 12 ->
  rtc_month_days m y = Some (month_days y m) /\ 28 <= month_days y m <= 31.
Proof.
  intros Hm. unfold rtc_month_days, month_days. rewrite is_leap_year_spec.
  destruct (aget rtc_days_in_month m) as [d|] eqn:E.
  - simpl. assert (Hd : 28 <= d <= 31 /\ (m = 1 -> d = 28)).
    { rewrite aget_lookup in E by lia. assert (Hn : (Z.to_nat m < 12)%nat) by lia.
      replace m with (Z.of_nat (Z.to_nat m)) by lia. revert E Hn. generalize (Z.to_nat m) as n. intros n E Hn.
      do 12 (destruct n as [|n]; [simpl in E; simplify_eq; lia|]). lia. }
    split; [f_equal; f_equal|]; repeat case_bool_decide; zcases; case_decide; try lia; tauto.
  - exfalso. assert (Hs : is_Some (aget rtc_days_in_month m)) by (by apply aget_is_Some).
    rewrite E in Hs. by destruct Hs.
Qed.

(** The tables hold the sums. *)
Lemma mon_yday_step b k : 0 <= k < 12 ->
  aget (__mon_yday b) (k + 1) =
    (fun x => x + (default 0 (aget rtc_days_in_month k) + (if b && (k =? 1) then 1 else 0))) <$> aget (__mon_yday b) k.
Proof.
  intros Hk. apply (elem_of_seqZ 0 12) in Hk. revert k Hk. apply list.Forall_forall.
  apply (bool_decide_unpack _). by destruct b; vm_compute.
Qed.

Lemma mon_yday_spec y m : 0 <= m <= 12 -> aget (__mon_yday (bool_decide (leap y))) m = Some (month_start y m).
Proof.
  intros [Hm Hle]. revert Hle. pattern m. apply natlike_ind; [|clear m Hm; intros m Hm IH|done].
  - intros _. by case_bool_decide.
  - intros Hle. unfold Z.succ. rewrite month_start_S, mon_yday_step, IH by lia. simpl. f_equal. f_equal.
    unfold month_days. case_bool_decide; zcases; case_decide; tauto || lia.
Qed.

Lemma month_start_12 y : month_start y 12 = year_days y.
Proof.
  pose proof (mon_yday_spec y 12 ltac:(lia)) as H. unfold year_days.
  case_bool_decide; case_decide; done || (by injection H).
Qed.

Lemma month_start_mono y m n : 0 <= m < n -> n <= 12 -> month_start y m + month_days y m <= month_start y n.
Proof.
  intros Hm Hn. rewrite <- month_start_S by lia.
  assert (Hk : forall k, 0 <= k -> m + 1 + k <= 12 -> month_start y (m + 1) <= month_start y (m + 1 + k)).
  { apply (natlike_ind (fun k => m + 1 + k <= 12 -> month_start y (m + 1) <= month_start y (m + 1 + k)));
      [intros _; rewrite Z.add_0_r; lia|].
    intros k Hk IH Hle. replace (m + 1 + Z.succ k) with (m + 1 + k + 1) by lia.
    rewrite (month_start_S y (m + 1 + k)) by lia. pose proof (month_days_spec y (m + 1 + k) ltac:(lia)) as [_ ?]. lia. }
  specialize (Hk (n - (m + 1))). replace (m + 1 + (n - (m + 1))) with n in Hk by lia. lia.
Qed.

Lemma month_start_nonneg y m : 0 <= m <= 12 -> 0 <= month_start y m.
Proof.
  intros Hm. destruct (Z.eq_dec m 0) as [->|]; [by rewrite month_start_0|].
  pose proof (month_start_mono y 0 m ltac:(lia) ltac:(lia)).
  pose proof (month_days_spec y 0 ltac:(lia)) as [_ ?]. rewrite month_start_0 in *. lia.
Qed.

(** * Dates and seconds *)

Lemma valid_yday t : valid_date t -> 0 <= date_yday t < year_days (tm_year t + 1900).
Proof.
  intros Hv. pose proof (valid_mon _ Hv). pose proof (valid_mday _ Hv). unfold date_yday.
  rewrite <- month_start_12.
  pose proof (month_start_mono (tm_year t + 1900) (tm_mon t) 12 ltac:(lia) ltac:(lia)).
  pose proof (month_start_nonneg (tm_year t + 1900) (tm_mon t)). lia.
Qed.

(** Different dates have different numbers. *)
Lemma date_seconds_inj t u :
  valid_date t -> valid_date u -> date_seconds t = date_seconds u ->
  tm_year t = tm_year u /\ tm_mon t = tm_mon u /\ tm_mday t = tm_mday u /\
  tm_hour t = tm_hour u /\ tm_min t = tm_min u /\ tm_sec t = tm_sec u.
Proof.
  intros Ht Hu E. pose proof (valid_yday t Ht). pose proof (valid_yday u Hu).
  destruct Ht as [Hm Hd Hh Hmi Hs], Hu as [Hm' Hd' Hh' Hmi' Hs']. unfold date_seconds in E.
  assert (Hdays : date_days t = date_days u) by lia.
  assert (tm_hour t = tm_hour u /\ tm_min t = tm_min u /\ tm_sec t = tm_sec u) as (? & ? & ?) by lia.
  assert (Hy : tm_year t = tm_year u).
  { unfold date_days in Hdays. destruct (Z.lt_trichotomy (tm_year t) (tm_year u)) as [Hlt|[|Hlt]]; [|done|].
    - pose proof (year_start_mono (tm_year t + 1900) (tm_year u + 1900) ltac:(lia)). lia.
    - pose proof (year_start_mono (tm_year u + 1900) (tm_year t + 1900) ltac:(lia)). lia. }
  unfold date_days, date_yday in Hdays. rewrite Hy in *.
  assert (Hmo : tm_mon t = tm_mon u).
  { destruct (Z.lt_trichotomy (tm_mon t) (tm_mon u)) as [Hlt|[|Hlt]]; [|done|].
    - pose proof (month_start_mono (tm_year u + 1900) (tm_mon t) (tm_mon u) ltac:(lia) ltac:(lia)). lia.
    - pose proof (month_start_mono (tm_year u + 1900) (tm_mon u) (tm_mon t) ltac:(lia) ltac:(lia)). lia. }
  rewrite Hmo in *. split_and!; try done; lia.
Qed.

(** The formula for the months, with January and February as months 11 and 12 of the
    year before. *)
Lemma gauss_table b m : 0 <= m < 12 ->
  (if m <? 2 then 367 * (m + 11) / 12 - 365 else 367 * (m - 1) / 12 + (if b : bool then 1 else 0)) =
  default 0 (aget (__mon_yday b) m) - 29.
Proof.
  intros Hm. apply (elem_of_seqZ 0 12) in Hm. revert m Hm. apply list.Forall_forall.
  apply (bool_decide_unpack _). by destruct b; vm_compute.
Qed.

Lemma gauss_months y m : 0 <= m < 12 ->
  (if m <? 2 then 367 * (m + 11) / 12 - 365 else 367 * (m - 1) / 12 + leap_day y) = month_start y m - 29.
Proof.
  intros Hm. pose proof (gauss_table (bool_decide (leap y)) m Hm) as H.
  rewrite mon_yday_spec in H by lia. simpl in H. rewrite <- H. unfold leap_day.
  case_bool_decide; case_decide; done.
Qed.

(** The sum of [mktime] does not overflow. *)
Lemma mktime_sum year mon day hour min sec :
  1 <= year -> 365 * year < 2 ^ 32 -> 1 <= mon <= 12 -> 1 <= day <= 31 ->
  0 <= hour < 24 -> 0 <= min < 60 -> 0 <= sec < 60 ->
  let d := LEAPS_THRU_END_OF year + 367 * mon / 12 + day + year * 365 - 719499 in
  0 <= d ->
  u64 (u64 (u64 (u64 (u32 (year / 4 - year / 100 + year / 400 + u32 (367 * mon) / 12 + day)
    + u32 (year * 365) - 719499) * 24 + hour) * 60 + min) * 60 + sec) = 86400 * d + 3600 * hour + 60 * min + sec.
Proof.
  intros Hy Hmax Hm Hd Hh Hmi Hs d Hpos. pose proof (leaps_bound 0 year ltac:(lia)) as Hl.
  rewrite Z.add_0_l in Hl. change (LEAPS_THRU_END_OF 0) with 0 in Hl. fold (LEAPS_THRU_END_OF year).
  rewrite (wrap_small 32 (367 * mon)) by (unfold is_word; lia).
  assert (0 <= 367 * mon / 12 <= 367) by div_lia.
  rewrite (wrap_small 32 (year * 365)), (wrap_small 32 (LEAPS_THRU_END_OF year + _ + _)) by (unfold is_word; lia).
  fold d. assert (d < 2 ^ 34) by lia. rewrite (wrap_small 64 d), (wrap_small 64 (d * 24 + hour)),
    (wrap_small 64 (_ * 60 + min)), (wrap_small 64 (_ * 60 + sec)) by (unfold is_word; lia). lia.
Qed.

Lemma shift_month m : 0 <= m < 12 ->
  (s32 (u32 (m + 1 - 2)) <=? 0) = (m <? 2) /\ (m < 2 -> u32 (u32 (m + 1 - 2) + 12) = m + 11) /\
  (2 <= m -> u32 (m + 1 - 2) = m - 1).
Proof.
  intros Hm. destruct (Z.eq_dec m 0) as [->|]; [split_and!; done || lia|].
  rewrite (wrap_small 32 (m + 1 - 2)), s32_small by (unfold is_word; lia).
  split_and!; [zcases|intros; rewrite wrap_small; unfold is_word; lia|lia].
Qed.

(** [mktime] numbers the dates from 1970 on; [year * 365] is an [unsigned int]. *)
Lemma mktime_correct t :
  valid_date t -> 70 <= tm_year t -> 365 * (tm_year t + 1900) < 2 ^ 32 ->
  rtc_tm_to_time t = date_seconds t.
Proof.
  intros Hv Hy Hmax. pose proof (valid_yday t Hv) as Hyd. destruct Hv as [Hm Hd Hh Hmi Hs].
  pose proof (month_days_spec (tm_year t + 1900) (tm_mon t) ltac:(lia)) as [_ Hdim].
  pose proof (gauss_months (tm_year t + 1900) (tm_mon t) Hm) as Hg.
  pose proof (leaps_step (tm_year t + 1900)) as Hls.
  pose proof (leaps_bound 1969 (tm_year t + 1900 - 1970) ltac:(lia)) as Hlb.
  unfold rtc_tm_to_time, mktime, date_seconds, date_days, date_yday, year_start in *.
  set (y := tm_year t + 1900) in *. set (m := tm_mon t) in *.
  rewrite !(wrap_small 32 (tm_mday t)), !(wrap_small 32 (tm_hour t)), !(wrap_small 32 (tm_min t)),
    !(wrap_small 32 (tm_sec t)), !(wrap_small 32 y), !(wrap_small 32 (m + 1)) by (unfold is_word; lia).
  destruct (shift_month m Hm) as (Hlt & Hlo & Hhi). rewrite Hlt.
  replace (1969 + (y - 1970)) with (y - 1) in Hlb by lia. pose proof (leap_day_bound y).
  change (LEAPS_THRU_END_OF 1969) with 477 in *.
  destruct (Z.ltb_spec m 2).
  - rewrite Hlo, (wrap_small 32 (y - 1)) by (unfold is_word; lia). rewrite mktime_sum; lia.
  - rewrite Hhi by lia. rewrite mktime_sum; lia.
Qed.

(** * [time_to_tm] *)

Lemma split_day_correct days rem :
  - 2 ^ 31 - 86400 <= rem < 2 ^ 31 + 86400 ->
  exists d r, split_day days rem = Some (d, r) /\ 0 <= r < 86400 /\ 86400 * d + r = 86400 * days + rem.
Proof.
  intros Hr. unfold split_day.
  set (ok (s : Z * Z) := - 2 ^ 31 - 86400 <= s.2 < 2 ^ 31 + 86400 /\ 86400 * s.1 + s.2 = 86400 * days + rem).
  set (m (s : Z * Z) := Z.to_nat (Z.abs s.2 / 86400 + (if s.2 <? 0 then 1 else 0))).
  assert (Hm : forall s, ok s -> (m s < Z.to_nat 25000)%nat).
  { intros [d r] [Ho _]. unfold m. simpl in *. apply Z2Nat.inj_lt; zcases; div_lia. }
  match goal with |- context [loop ?n0 ?f (days, rem)] =>
    destruct (loop_total f ok (fun s => ok s /\ 0 <= s.2) m) with (fuel := n0) (s := (days, rem))
      as ([d1 r1] & -> & Hok1 & Hr1)
  end.
  - intros [d r] [Hb He]. simpl in *. eexists. split; [done|]. change SECS_PER_DAY with 86400.
    destruct (Z.ltb_spec r 0); [|done]. unfold ok, m. simpl. split; [lia|].
    apply Z2Nat.inj_lt; zcases; div_lia.
  - done.
  - by apply Hm.
  - simpl. match goal with |- context [loop ?n0 ?f (d1, r1)] =>
      destruct (loop_total f (fun s => ok s /\ 0 <= s.2) (fun s => ok s /\ 0 <= s.2 < 86400) m)
        with (fuel := n0) (s := (d1, r1)) as ([d2 r2] & -> & Hok2 & Hr2)
    end.
    + intros [d r] [[Hb He] Hp]. simpl in *. eexists. split; [done|]. change SECS_PER_DAY with 86400.
      destruct (Z.leb_spec 86400 r); [|split; [done|simpl; lia]]. unfold ok, m. simpl.
      split; [lia|]. apply Z2Nat.inj_lt; zcases; div_lia.
    + done.
    + by apply Hm.
    + exists d2, r2. unfold ok in Hok2. simpl in *. split_and!; [done|lia..].
Qed.

(** The guess of the year comes closer until it is right. *)
Definition far (d : Z) : Z := if d <? 0 then - d + 366 else d.
Definition guess_measure (d : Z) : nat :=
  Z.to_nat (if Z.abs d <? 2000 then far d else 2400 + Z.log2 (Z.abs d)).

Lemma guess_bound d y :
  let d' := d - (d / 365 * 365 + (LEAPS_THRU_END_OF (y + d / 365 - 1) - LEAPS_THRU_END_OF (y - 1))) in
  d < 0 \/ year_days y <= d ->
  far d' < far d /\ Z.abs d' <= 365 + (Z.abs d + 364) / 365.
Proof.
  intros d' Hd. unfold far.
  destruct (Z.lt_ge_cases d 0) as [Hneg|Hpos].
  - pose proof (leaps_bound (y + d / 365 - 1) (- (d / 365)) ltac:(div_lia)) as Hl.
    replace (y + d / 365 - 1 + - (d / 365)) with (y - 1) in Hl by lia.
    unfold d'. revert Hl. generalize (LEAPS_THRU_END_OF (y + d / 365 - 1)), (LEAPS_THRU_END_OF (y - 1)).
    intros a b Hl. zcases; div_lia.
  - rewrite year_days_alt in Hd. pose proof (leap_day_bound y).
    pose proof (leaps_bound (y - 1) (d / 365) ltac:(div_lia)) as Hl.
    pose proof (leaps_step y) as Hs.
    replace (y - 1 + d / 365) with (y + d / 365 - 1) in Hl by lia.
    assert (H1 : d / 365 = 1 -> LEAPS_THRU_END_OF (y + d / 365 - 1) - LEAPS_THRU_END_OF (y - 1) = leap_day y).
    { intros ->. replace (y + 1 - 1) with y by lia. lia. }
    unfold d'. revert Hl H1. generalize (LEAPS_THRU_END_OF (y + d / 365 - 1)), (LEAPS_THRU_END_OF (y - 1)).
    intros a b Hl H1. zcases; div_lia.
Qed.

Lemma guess_decreases d d' :
  far d' < far d -> Z.abs d' <= 365 + (Z.abs d + 364) / 365 -> (guess_measure d' < guess_measure d)%nat.
Proof.
  intros Hf Hb. unfold guess_measure. apply Z2Nat.inj_lt.
  - pose proof (Z.log2_nonneg (Z.abs d')). unfold far. zcases.
  - pose proof (Z.log2_nonneg (Z.abs d)). unfold far. zcases.
  - pose proof (Z.log2_nonneg (Z.abs d)).
    destruct (Z.ltb_spec (Z.abs d) 2000) as [Hs|Hs], (Z.ltb_spec (Z.abs d') 2000) as [Hs'|Hs']; [done|div_lia| |].
    + unfold far. zcases.
    + assert (Z.log2 (Z.abs d') < Z.log2 (Z.abs d)); [|lia].
      assert (Hd : 2 * Z.abs d' <= Z.abs d) by div_lia.
      pose proof (Z.log2_le_mono _ _ Hd) as Hl. rewrite Z.log2_double in Hl by lia. lia.
Qed.

Lemma find_year_correct days :
  Z.abs days < 2 ^ 50 ->
  exists d y, find_year days = Some (d, y) /\ 0 <= d < year_days y /\ year_start y + d = days.
Proof.
  intros Hdays. unfold find_year.
  match goal with |- context [loop ?n0 ?f ?s0] =>
    destruct (loop_total f (fun '(d, y) => year_start y + d = days)
      (fun '(d, y) => 0 <= d < year_days y /\ year_start y + d = days) (fun '(d, _) => guess_measure d))
      with (fuel := n0) (s := s0) as ([d y] & -> & Hd & E)
  end.
  - intros [d y] E. eexists. split; [done|]. rewrite __isleap_spec, leaps_between_spec, math_div_spec by done.
    assert (Hy : (if bool_decide (leap y) then 366 else 365) = year_days y).
    { unfold year_days. case_bool_decide; case_decide; done. }
    rewrite Hy. destruct (Z.ltb_spec d 0), (Z.leb_spec (year_days y) d); simpl; [..|split; [lia|done]].
    all: replace (y + d / 365 - y) with (d / 365) by lia;
      destruct (guess_bound d y) as [Hf Hb]; [lia|];
      (split; [unfold year_start in *; lia|by apply guess_decreases]).
  - rewrite year_start_1970. lia.
  - unfold guess_measure. assert (Z.log2 (Z.abs days) <= 50) by
      (destruct (Z.eq_dec (Z.abs days) 0) as [->|]; [done|]; apply Z.lt_le_incl, Z.log2_lt_pow2; lia).
    unfold far. zcases.
  - by exists d, y.
Qed.

Lemma find_month_correct y days :
  0 <= days < year_days y ->
  exists m, find_month (__mon_yday (bool_decide (leap y))) days = Some m /\ 0 <= m < 12 /\
    month_start y m <= days < month_start y m + month_days y m.
Proof.
  intros Hd. unfold find_month.
  match goal with |- context [loop ?n0 ?f ?s0] =>
    destruct (loop_total f (fun m => 0 <= m < 12 /\ days < month_start y (m + 1))
      (fun m => 0 <= m < 12 /\ month_start y m <= days < month_start y m + month_days y m) Z.to_nat)
      with (fuel := n0) (s := s0) as (m & -> & Hm)
  end.
  - intros m [Hm Hlt]. rewrite mon_yday_spec by lia. simpl. eexists. split; [done|].
    rewrite month_start_S in Hlt by lia.
    destruct (Z.ltb_spec days (month_start y m)) as [H|H]; [|lia].
    assert (m <> 0) by (intros ->; rewrite month_start_0 in H; lia).
    replace (m - 1 + 1) with m by lia. lia.
  - change (11 + 1) with 12. rewrite month_start_12. lia.
  - vm_compute; lia.
  - by exists m.
Qed.

Lemma time_to_tm_correct t off :
  - 2 ^ 63 <= t < 2 ^ 63 -> - 2 ^ 31 <= off < 2 ^ 31 ->
  exists r, time_to_tm t off = Some r /\ valid_date r /\ date_seconds r = t + off /\
    tm_wday r = (date_days r + 4) mod 7 /\ tm_yday r = date_yday r.
Proof.
  intros Ht Hoff. unfold time_to_tm. change SECS_PER_DAY with 86400. change SECS_PER_HOUR with 3600.
  destruct (split_day_correct (t ÷ 86400) (Z.rem t 86400 + off)) as (d & r & -> & Hr & Hdr);
    [div_lia|].
  pose proof (Z.quot_rem' t 86400) as Hqr.
  simpl. destruct (find_year_correct d) as (yd & y & -> & Hyd & Hys); [lia|]. simpl.
  rewrite __isleap_spec.
  destruct (find_month_correct y yd Hyd) as (m & -> & Hm & Hms). simpl.
  rewrite mon_yday_spec by lia. simpl. eexists. split; [done|].
  unfold date_seconds, date_days, date_yday. split; [|split]; simpl.
  - split; simpl; replace (y - 1900 + 1900) with y by lia; try lia; div_lia.
  - replace (y - 1900 + 1900) with y by lia. div_lia.
  - replace (y - 1900 + 1900) with y by lia. split; [|lia].
    replace (year_start y + (month_start y m + (yd - month_start y m + 1) - 1) + 4) with (4 + d) by lia.
    zcases; div_lia.
Qed.

(** * The real-time clock *)

Lemma rtc_year_correct days :
  0 <= days < 49711 ->
  exists y d, rtc_find_year days = (y, d) /\
    1970 <= y <= 2106 /\ 0 <= d < year_days y /\ year_start y + d = days.
Proof.
  intros Hd. unfold rtc_find_year. rewrite Z.quot_div_nonneg by lia.
  assert (Hg0 : 0 <= days / 365 <= 136) by div_lia.
  rewrite (wrap_small 32 (1970 + days / 365)) by (unfold is_word; lia).
  rewrite (wrap_small 32 (1970 + days / 365 - 1)) by (unfold is_word; lia).
  set (g := 1970 + days / 365). set (r := days - _).
  pose proof (leaps_step (g - 1)) as Hs. pose proof (leap_day_bound (g - 1)) as Hb1.
  pose proof (leap_day_bound g) as Hb.
  assert (Hl : 0 <= LEAPS_THRU_END_OF (g - 1) - LEAPS_THRU_END_OF 1969 <= g - 1970).
  { pose proof (leaps_bound 1969 (g - 1970) ltac:(lia)) as H.
    replace (1969 + (g - 1970)) with (g - 1) in H by lia. lia. }
  assert (Hr : r = days mod 365 - (LEAPS_THRU_END_OF (g - 1) - LEAPS_THRU_END_OF 1969))
    by (unfold r, g; change (1970 - 1) with 1969; div_lia).
  assert (0 <= days mod 365 < 365 /\ days = 365 * (g - 1970) + days mod 365) by (unfold g; div_lia).
  rewrite s32_small by lia. destruct (Z.ltb_spec r 0) as [Hn|Hn].
  - exists (g - 1), (r + 365 + leap_day (g - 1)).
    rewrite year_days_alt. unfold year_start. split; [|lia].
    rewrite is_leap_year_spec, s32_small by (case_bool_decide; lia). unfold leap_day.
    case_bool_decide; case_decide; done || tauto.
  - exists g, r. rewrite year_days_alt. unfold year_start. split; [done|lia].
Qed.

Lemma rtc_months_correct y days :
  0 <= days < year_days y ->
  exists m d, rtc_find_month y days = Some (m, d) /\
    0 <= m < 12 /\ 0 <= d < month_days y m /\ month_start y m + d = days.
Proof.
  intros Hd. assert (Hy : year_days y <= 366) by (unfold year_days; case_decide; lia). unfold rtc_find_month.
  match goal with |- context [for_ 0 11 ?f ?s0] =>
    destruct (for_rule f (fun m d => 0 <= d /\ month_start y m + d = days)
      (fun '(m, d) => 0 <= m < 12 /\ 0 <= d < month_days y m /\ month_start y m + d = days) 0 11 s0)
      as (r & -> & Hr)
  end.
  - lia.
  - rewrite month_start_0. lia.
  - intros m d Hm [Hd0 He]. destruct (month_days_spec y m ltac:(lia)) as [-> Hn]. simpl.
    rewrite s32_small by (assert (0 <= month_start y m) by (pose proof (month_start_nonneg y m); lia); lia).
    eexists. split; [done|]. destruct (Z.ltb_spec (d - month_days y m) 0); [lia|].
    rewrite month_start_S by lia. lia.
  - simpl. destruct r as [d|[m d]]; [|by exists m, d]. exists 11, d. split; [done|].
    pose proof (month_start_12 y) as H12. change 12 with (11 + 1) in H12. rewrite month_start_S in H12 by lia. lia.
Qed.

(** Up to the last second of the day on which 2^32 seconds are over. *)
Lemma rtc_time_to_tm_correct t :
  0 <= t < 49711 * 86400 ->
  exists r, rtc_time_to_tm t = Some r /\ valid_date r /\ 1970 <= tm_year r + 1900 <= 2106 /\ date_seconds r = t /\
    tm_wday r = (date_days r + 4) mod 7 /\ tm_yday r = date_yday r + 1.
Proof.
  intros Ht. unfold rtc_time_to_tm. assert (Hd : 0 <= t / 86400 < 49711) by div_lia.
  set (d := t / 86400) in *.
  rewrite (s32_small d), (wrap_small 32 d), (wrap_small 32 (d * 86400)) by (unfold is_word; lia).
  assert (Htd : t - d * 86400 = t mod 86400) by (unfold d; div_lia).
  assert (Hs : 0 <= t mod 86400 < 86400) by div_lia. rewrite Htd.
  rewrite (s32_small (d + 4)), (wrap_small 64 (t mod 86400)) by (unfold is_word; lia).
  destruct (rtc_year_correct d Hd) as (y & yd & -> & Hy & Hyd & Hst).
  destruct (rtc_months_correct y yd Hyd) as (m & md & -> & Hm & Hmd & Hms). simpl.
  pose proof (month_days_spec y m Hm) as [_ Hdim].
  assert (year_days y <= 366) by (unfold year_days; case_decide; lia).
  revert Htd Hs. generalize (t mod 86400). intros s Htd Hs.
  assert (0 <= s / 3600 < 24 /\ 0 <= s - s / 3600 * 3600 < 3600) by div_lia.
  rewrite !(s32_small (s / 3600)), (s32_small (s / 3600 * 3600)) by lia.
  rewrite (wrap_small 64) by (unfold is_word; lia). set (u := s - s / 3600 * 3600) in *.
  assert (0 <= u / 60 < 60 /\ 0 <= u - u / 60 * 60 < 60) by div_lia.
  rewrite !(s32_small (u / 60)), (s32_small (u / 60 * 60)), (s32_small (md + 1)), (s32_small (y - 1900)),
    (s32_small (yd + 1)), (s32_small (u - _)) by lia.
  eexists. split; [done|]. unfold date_seconds, date_days, date_yday. simpl.
  replace (y - 1900 + 1900) with y by lia.
  split; [split; simpl; rewrite ?Z.sub_add; lia|]. split; [lia|]. split; [unfold u; lia|].
  split; [|lia]. replace (year_start y + (month_start y m + (md + 1) - 1) + 4) with (d + 4) by lia. div_lia.
Qed.

Definition is_int (x : Z) : Prop := - 2 ^ 31 <= x < 2 ^ 31.

Lemma u32_below x n : is_int x -> 0 < n < 2 ^ 31 -> (n <=? u32 x) = negb ((0 <=? x) && (x <? n)).
Proof.
  unfold is_int, wrap. intros Hx Hn. destruct (Z.lt_ge_cases x 0).
  - rewrite <- (Z.mod_add x 1), Z.mod_small by lia. zcases.
  - rewrite Z.mod_small by lia. zcases.
Qed.

Lemma rtc_valid_correct t :
  is_int (tm_sec t) -> is_int (tm_min t) -> is_int (tm_hour t) -> is_int (tm_mon t) ->
  - 2 ^ 31 <= tm_year t < 2 ^ 31 - 1900 ->
  exists r, rtc_valid_tm t = Some r /\ (r = 0 \/ r = - EINVAL) /\ (r = 0 <-> 70 <= tm_year t /\ valid_date t).
Proof.
  intros Hs Hmi Hh Hm Hy. unfold rtc_valid_tm. rewrite !u32_below by (done || lia).
  assert (Hv : valid_date t -> 0 <= tm_mon t < 12 /\ 1 <= tm_mday t) by (intros []; lia).
  destruct (Z.ltb_spec (tm_year t) 70); simpl; [eexists; split; [done|]; unfold EINVAL; naive_solver lia|].
  destruct (Z.leb_spec 0 (tm_mon t)), (Z.ltb_spec (tm_mon t) 12); simpl;
    try (eexists; split; [done|]; unfold EINVAL; naive_solver lia).
  destruct (Z.ltb_spec (tm_mday t) 1); simpl; [eexists; split; [done|]; unfold EINVAL; naive_solver lia|].
  rewrite (wrap_small 32 (tm_mon t)), (wrap_small 32 (tm_year t + 1900)) by (unfold is_word; lia).
  destruct (month_days_spec (tm_year t + 1900) (tm_mon t) ltac:(lia)) as [-> _]. simpl.
  eexists. split; [done|]. split; [destruct (_ || _); tauto|].
  transitivity (valid_date t); [|naive_solver].
  split.
  - zcases; unfold EINVAL; intros; try lia; split; lia.
  - intros [? ? ? ? ?]. zcases.
Qed.

(** The two functions that break down a time agree but for the day of the year. *)
Lemma rtc_agrees t r :
  0 <= t < 49711 * 86400 -> rtc_time_to_tm t = Some r ->
  time_to_tm t 0 =
    Some (Tm (tm_sec r) (tm_min r) (tm_hour r) (tm_mday r) (tm_mon r) (tm_year r) (tm_wday r) (tm_yday r - 1)).
Proof.
  intros Ht Hr. destruct (rtc_time_to_tm_correct t Ht) as (r' & Hr' & Hv & _ & Hs & Hw & Hy).
  rewrite Hr in Hr'. injection Hr' as <-.
  destruct (time_to_tm_correct t 0) as (u & -> & Hv' & Hs' & Hw' & Hy'); [lia..|].
  destruct (date_seconds_inj u r) as (E1 & E2 & E3 & E4 & E5 & E6); [done|done|lia|].
  assert (Ey : date_yday u = date_yday r) by (unfold date_yday; congruence).
  assert (Ed : date_days u = date_days r) by (unfold date_days; congruence).
  destruct u, r; simpl in *. repeat f_equal; congruence || lia.
Qed.

(** * Theorems *)

(** C20: dates of the Gregorian calendar.  [mktime] gives the number of seconds since
    1970 of every date up to the year 11 767 032.  [time_to_tm] ends for every 64-bit time
    and every offset and gives the date with that number, with weekday and day of the
    year; since dates with equal numbers are equal, the two are inverse.
    [rtc_time_to_tm] gives the same date (the day of the year counts
    from 1) up to 7 February 2106, and [rtc_tm_to_time] leads back; on the next day the hour is
    wrong, because the seconds of the days are computed in 32 bits.
    [rtc_valid_tm] accepts exactly the dates from 1970 on. *)
Theorem calendar_correct :
  (year_start 1970 = 0 /\ (forall y, year_start (y + 1) = year_start y + year_days y) /\
   forall y d m, 0 <= m < 12 -> rtc_year_days d m y = Some (s32 (month_start y m + d - 1)) /\
     rtc_month_days m y = Some (month_days y m)) /\
  (forall t, valid_date t -> 70 <= tm_year t -> tm_year t + 1900 <= 11767032 -> rtc_tm_to_time t = date_seconds t) /\
  (forall t off, - 2 ^ 63 <= t < 2 ^ 63 -> - 2 ^ 31 <= off < 2 ^ 31 ->
     exists r, time_to_tm t off = Some r /\ valid_date r /\ date_seconds r = t + off /\
       tm_wday r = (date_days r + 4) mod 7 /\ tm_yday r = date_yday r) /\
  (forall t u, valid_date t -> valid_date u -> date_seconds t = date_seconds u ->
     tm_year t = tm_year u /\ tm_mon t = tm_mon u /\ tm_mday t = tm_mday u /\
     tm_hour t = tm_hour u /\ tm_min t = tm_min u /\ tm_sec t = tm_sec u) /\
  (forall t, 0 <= t < 49711 * 86400 ->
     exists r, rtc_time_to_tm t = Some r /\ valid_date r /\ rtc_tm_to_time r = t /\
       time_to_tm t 0 = Some (Tm (tm_sec r) (tm_min r) (tm_hour r) (tm_mday r) (tm_mon r) (tm_year r)
                                 (tm_wday r) (tm_yday r - 1))) /\
  tm_hour <$> rtc_time_to_tm (49711 * 86400) = Some 1193046 /\
  (forall t, is_int (tm_sec t) -> is_int (tm_min t) -> is_int (tm_hour t) -> is_int (tm_mon t) ->
     - 2 ^ 31 <= tm_year t < 2 ^ 31 - 1900 ->
     exists r, rtc_valid_tm t = Some r /\ (r = 0 \/ r = - EINVAL) /\ (r = 0 <-> 70 <= tm_year t /\ valid_date t)).
Proof.
  split_and!; [done|apply year_start_S| | |apply time_to_tm_correct|apply date_seconds_inj| |
    by vm_compute|apply rtc_valid_correct].
  - intros y d m Hm. split; [|by apply month_days_spec]. unfold rtc_year_days.
    rewrite is_leap_year_spec. change rtc_ydays with __mon_yday. by rewrite mon_yday_spec by lia.
  - intros t Hv Hy Hmax. apply mktime_correct; [done|done|lia].
  - intros t Ht. destruct (rtc_time_to_tm_correct t Ht) as (r & Hr & Hv & Hy & Hs & _).
    exists r. split_and!; [done|done| |by apply rtc_agrees]. rewrite mktime_correct; [done|done|lia|lia].
Qed.

(** Noon of 29 February 2000. *)
Lemma calendar_correct_witness :
  rtc_tm_to_time (Tm 0 0 12 29 1 100 2 59) = 951825600 /\
  time_to_tm 951825600 0 = Some (Tm 0 0 12 29 1 100 2 59) /\
  exists r, rtc_time_to_tm 951825600 = Some r /\ rtc_tm_to_time r = 951825600.
Proof.
  destruct calendar_correct as (_ & Hmk & Htm & _ & Hrtc & _). split; [|split].
  - rewrite Hmk; [vm_compute; reflexivity|split; vm_compute; split; congruence|vm_compute; congruence|vm_compute; congruence].
  - vm_compute. reflexivity.
  - destruct (Hrtc 951825600) as (r & Hr & _ & Hb & _); [lia|]. by exists r.
Defined.
