(* ===== verification/TimeConv.v ===== *)
(** Time values: the normal form of [struct timespec] and the conversions between
    nanoseconds, milliseconds, microseconds, [clock_t] and jiffies of kernel/time.c, with
    include/linux/time.h and include/linux/jiffies.h, on a machine with a 64-bit [long].

    The frequency [HZ] is an argument, each [#if] a test of it.  The constants of
    the generated file timeconst.h are those listed in kernel/timeconst.pl. *)
From Stdlib Require Import ZArith Lia Bool.
From stdpp Require Import base numbers list option.
From S2P Require Import Prelude.

Local Open Scope Z_scope.

(** * Constants *)

Definition MSEC_PER_SEC : Z := 1000.
Definition USEC_PER_SEC : Z := 1000000.
Definition NSEC_PER_USEC : Z := 1000.
Definition NSEC_PER_SEC : Z := 1000000000.
Definition TIME_T_MAX : Z := 2 ^ 63 - 1.
Definition MAX_JIFFY_OFFSET : Z := Z.shiftr (2 ^ 63 - 1) 1 - 1.
Definition USER_HZ : Z := 100.
Definition CLOCK_TICK_RATE : Z := 1193182.

(** A [long] after arithmetic that may overflow. *)
Definition long (x : Z) : Z := s64 (u64 x).

Definition SHIFT_HZ (HZ : Z) : Z :=
  if (12 <=? HZ) && (HZ <? 24) then 4
  else if (24 <=? HZ) && (HZ <? 48) then 5
  else if (48 <=? HZ) && (HZ <? 96) then 6
  else if (96 <=? HZ) && (HZ <? 192) then 7
  else if (192 <=? HZ) && (HZ <? 384) then 8
  else if (384 <=? HZ) && (HZ <? 768) then 9
  else if (768 <=? HZ) && (HZ <? 1536) then 10
  else if (1536 <=? HZ) && (HZ <? 3072) then 11
  else if (3072 <=? HZ) && (HZ <? 6144) then 12
  else 13.

Definition LATCH (HZ : Z) : Z := (CLOCK_TICK_RATE + HZ / 2) / HZ.
Definition SH_DIV (NOM DEN LSH : Z) : Z :=
  Z.shiftl (NOM / DEN) LSH + (Z.shiftl (NOM mod DEN) LSH + DEN / 2) / DEN.
Definition ACTHZ (HZ : Z) : Z := SH_DIV CLOCK_TICK_RATE (LATCH HZ) 8.
Definition TICK_NSEC (HZ : Z) : Z := SH_DIV (1000000 * 1000) (ACTHZ HZ) 8.

Definition SEC_JIFFIE_SC (HZ : Z) : Z :=
  let sc := 31 - SHIFT_HZ HZ in
  if negb (Z.testbit (Z.shiftl (Z.shiftl NSEC_PER_SEC 2 / TICK_NSEC HZ) (sc - 2)) 31) then 32 - SHIFT_HZ HZ else sc.
Definition NSEC_JIFFIE_SC (HZ : Z) : Z := SEC_JIFFIE_SC HZ + 29.
Definition USEC_JIFFIE_SC (HZ : Z) : Z := SEC_JIFFIE_SC HZ + 19.
Definition SEC_CONVERSION (HZ : Z) : Z :=
  u64 (Z.shiftl NSEC_PER_SEC (SEC_JIFFIE_SC HZ) + TICK_NSEC HZ - 1) / TICK_NSEC HZ.
Definition NSEC_CONVERSION (HZ : Z) : Z :=
  u64 (Z.shiftl 1 (NSEC_JIFFIE_SC HZ) + TICK_NSEC HZ - 1) / TICK_NSEC HZ.
Definition USEC_CONVERSION (HZ : Z) : Z :=
  u64 (Z.shiftl NSEC_PER_USEC (USEC_JIFFIE_SC HZ) + TICK_NSEC HZ - 1) / TICK_NSEC HZ.
Definition USEC_ROUND (HZ : Z) : Z := Z.shiftl 1 (USEC_JIFFIE_SC HZ) - 1.
Definition MAX_SEC_IN_JIFFIES (HZ : Z) : Z :=
  SH_DIV (Z.shiftr MAX_JIFFY_OFFSET (SEC_JIFFIE_SC HZ) * TICK_NSEC HZ) NSEC_PER_SEC 1 - 1.

(** kernel/timeconst.pl: what is used of [HZ_TO_MSEC], [MSEC_TO_HZ], [HZ_TO_USEC] and
    [USEC_TO_HZ] with 64-bit longs. *)
Record timeconst : Type := Timeconst {
  HZ_TO_MSEC_NUM : Z; HZ_TO_MSEC_DEN : Z;
  MSEC_TO_HZ_MUL32 : Z; MSEC_TO_HZ_ADJ32 : Z; MSEC_TO_HZ_SHR32 : Z;
  HZ_TO_USEC_NUM : Z; HZ_TO_USEC_DEN : Z;
  USEC_TO_HZ_MUL32 : Z; USEC_TO_HZ_ADJ32 : Z; USEC_TO_HZ_SHR32 : Z
}.

Definition canned_values (HZ : Z) : timeconst :=
  if HZ =? 100 then
    Timeconst 10 1 0xcccccccd 0x733333333 35 10000 1 0xd1b71759 0x1fff2e48e8a7 45
  else if HZ =? 250 then
    Timeconst 4 1 0x80000000 0x180000000 33 4000 1 0x83126e98 0x7ff7ced9168 43
  else if HZ =? 300 then
    Timeconst 10 3 0x9999999a 0x1cccccccc 33 10000 3 0x9d495183 0x7ffcb923a29 43
  else
    Timeconst 1 1 0x80000000 0x0 31 1000 1 0x83126e98 0x1ff7ced9168 41.

(** * Normal form *)

Record timespec : Type := Timespec { tv_sec : Z; tv_nsec : Z }.
Record timeval : Type := Timeval { tvl_sec : Z; tv_usec : Z }.

Definition set_normalized_timespec (fuel : nat) (sec nsec : Z) : option timespec :=
  '(sec, nsec) ← loop fuel (fun '(sec, nsec) =>
    Some (if NSEC_PER_SEC <=? nsec then Next (long (sec + 1), nsec - NSEC_PER_SEC) else Done (sec, nsec))) (sec, nsec);
  '(sec, nsec) ← loop fuel (fun '(sec, nsec) =>
    Some (if nsec <? 0 then Next (long (sec - 1), nsec + NSEC_PER_SEC) else Done (sec, nsec))) (sec, nsec);
  Some (Timespec sec nsec).

Definition ns_to_timespec (nsec : Z) : timespec :=
  if nsec =? 0 then Timespec 0 0
  else
    let sec := nsec ÷ NSEC_PER_SEC in
    let rem := Z.rem nsec NSEC_PER_SEC in
    if rem <? 0 then Timespec (sec - 1) (rem + NSEC_PER_SEC) else Timespec sec rem.

Definition ns_to_timeval (nsec : Z) : timeval :=
  let ts := ns_to_timespec nsec in Timeval (tv_sec ts) (tv_nsec ts ÷ 1000).

Definition timespec_to_ns (ts : timespec) : Z := long (long (tv_sec ts * NSEC_PER_SEC) + tv_nsec ts).
Definition timeval_to_ns (tv : timeval) : Z := long (long (tvl_sec tv * NSEC_PER_SEC) + long (tv_usec tv * NSEC_PER_USEC)).

Definition timespec_equal (a b : timespec) : bool := (tv_sec a =? tv_sec b) && (tv_nsec a =? tv_nsec b).
Definition timespec_compare (lhs rhs : timespec) : Z :=
  if tv_sec lhs <? tv_sec rhs then -1
  else if tv_sec rhs <? tv_sec lhs then 1
  else s32 (tv_nsec lhs - tv_nsec rhs).

Definition timespec_sub (fuel : nat) (lhs rhs : timespec) : option timespec :=
  set_normalized_timespec fuel (long (tv_sec lhs - tv_sec rhs)) (tv_nsec lhs - tv_nsec rhs).

Definition timespec_valid (ts : timespec) : bool := (0 <=? tv_sec ts) && (u64 (tv_nsec ts) <? NSEC_PER_SEC).

Definition timespec_add_safe (fuel : nat) (lhs rhs : timespec) : option timespec :=
  res ← set_normalized_timespec fuel (long (tv_sec lhs + tv_sec rhs)) (tv_nsec lhs + tv_nsec rhs);
  Some (if (tv_sec res <? tv_sec lhs) || (tv_sec res <? tv_sec rhs) then Timespec TIME_T_MAX (tv_nsec res) else res).

(** * Jiffies *)

Definition jiffies_to_msecs (HZ j : Z) : Z :=
  if (HZ <=? MSEC_PER_SEC) && (MSEC_PER_SEC mod HZ =? 0) then u32 (u64 (MSEC_PER_SEC / HZ * j))
  else if (MSEC_PER_SEC <? HZ) && (HZ mod MSEC_PER_SEC =? 0) then
    u32 (u64 (j + HZ / MSEC_PER_SEC - 1) / (HZ / MSEC_PER_SEC))
  else u32 (u64 (j * HZ_TO_MSEC_NUM (canned_values HZ)) / HZ_TO_MSEC_DEN (canned_values HZ)).

Definition jiffies_to_usecs (HZ j : Z) : Z :=
  if (HZ <=? USEC_PER_SEC) && (USEC_PER_SEC mod HZ =? 0) then u32 (u64 (USEC_PER_SEC / HZ * j))
  else if (USEC_PER_SEC <? HZ) && (HZ mod USEC_PER_SEC =? 0) then
    u32 (u64 (j + HZ / USEC_PER_SEC - 1) / (HZ / USEC_PER_SEC))
  else u32 (u64 (j * HZ_TO_USEC_NUM (canned_values HZ)) / HZ_TO_USEC_DEN (canned_values HZ)).

Definition timespec_trunc (HZ : Z) (t : timespec) (gran : Z) : timespec :=
  if gran <=? u32 (jiffies_to_usecs HZ 1 * 1000) then t
  else if gran =? 1000000000 then Timespec (tv_sec t) 0
  else Timespec (tv_sec t) (tv_nsec t - Z.rem (tv_nsec t) gran).

Definition msecs_to_jiffies (HZ m : Z) : Z :=
  if s32 m <? 0 then MAX_JIFFY_OFFSET
  else if (HZ <=? MSEC_PER_SEC) && (MSEC_PER_SEC mod HZ =? 0) then
    (m + MSEC_PER_SEC / HZ - 1) / (MSEC_PER_SEC / HZ)
  else if (MSEC_PER_SEC <? HZ) && (HZ mod MSEC_PER_SEC =? 0) then
    if jiffies_to_msecs HZ MAX_JIFFY_OFFSET <? m then MAX_JIFFY_OFFSET else m * (HZ / MSEC_PER_SEC)
  else if (MSEC_PER_SEC <? HZ) && (jiffies_to_msecs HZ MAX_JIFFY_OFFSET <? m) then MAX_JIFFY_OFFSET
  else Z.shiftr (u64 (u64 (MSEC_TO_HZ_MUL32 (canned_values HZ) * m) + MSEC_TO_HZ_ADJ32 (canned_values HZ)))
         (MSEC_TO_HZ_SHR32 (canned_values HZ)).

Definition usecs_to_jiffies (HZ u : Z) : Z :=
  if jiffies_to_usecs HZ MAX_JIFFY_OFFSET <? u then MAX_JIFFY_OFFSET
  else if (HZ <=? USEC_PER_SEC) && (USEC_PER_SEC mod HZ =? 0) then
    (u + USEC_PER_SEC / HZ - 1) / (USEC_PER_SEC / HZ)
  else if (USEC_PER_SEC <? HZ) && (HZ mod USEC_PER_SEC =? 0) then u * (HZ / USEC_PER_SEC)
  else Z.shiftr (u64 (u64 (USEC_TO_HZ_MUL32 (canned_values HZ) * u) + USEC_TO_HZ_ADJ32 (canned_values HZ)))
         (USEC_TO_HZ_SHR32 (canned_values HZ)).

Definition timespec_to_jiffies (HZ : Z) (value : timespec) : Z :=
  let sec := u64 (tv_sec value) in
  let nsec := long (tv_nsec value + TICK_NSEC HZ - 1) in
  let '(sec, nsec) := if MAX_SEC_IN_JIFFIES HZ <=? sec then (MAX_SEC_IN_JIFFIES HZ, 0) else (sec, nsec) in
  Z.shiftr (u64 (u64 (sec * SEC_CONVERSION HZ) +
    Z.shiftr (u64 (u64 nsec * NSEC_CONVERSION HZ)) (NSEC_JIFFIE_SC HZ - SEC_JIFFIE_SC HZ))) (SEC_JIFFIE_SC HZ).

Definition jiffies_to_timespec (HZ jiffies : Z) : timespec :=
  let ns := u64 (jiffies * TICK_NSEC HZ) in
  Timespec (ns / NSEC_PER_SEC) (ns mod NSEC_PER_SEC).

Definition timeval_to_jiffies (HZ : Z) (value : timeval) : Z :=
  let sec := u64 (tvl_sec value) in
  let usec := tv_usec value in
  let '(sec, usec) := if MAX_SEC_IN_JIFFIES HZ <=? sec then (MAX_SEC_IN_JIFFIES HZ, 0) else (sec, usec) in
  Z.shiftr (u64 (u64 (sec * SEC_CONVERSION HZ) +
    Z.shiftr (u64 (u64 (u64 usec * USEC_CONVERSION HZ) + USEC_ROUND HZ)) (USEC_JIFFIE_SC HZ - SEC_JIFFIE_SC HZ)))
    (SEC_JIFFIE_SC HZ).

Definition jiffies_to_timeval (HZ jiffies : Z) : timeval :=
  let ns := u64 (jiffies * TICK_NSEC HZ) in
  Timeval (ns / NSEC_PER_SEC) (ns mod NSEC_PER_SEC / NSEC_PER_USEC).

(** * [clock_t] *)

Definition jiffies_to_clock_t (HZ x : Z) : Z :=
  if TICK_NSEC HZ mod (NSEC_PER_SEC / USER_HZ) =? 0 then
    if HZ <? USER_HZ then long (x * (USER_HZ / HZ)) else x ÷ (HZ / USER_HZ)
  else long (u64 (u64 x * TICK_NSEC HZ) / (NSEC_PER_SEC / USER_HZ)).

Definition clock_t_to_jiffies (HZ x : Z) : Z :=
  if HZ mod USER_HZ =? 0 then
    if ULONG_MAX / (HZ / USER_HZ) <=? x then ULONG_MAX else u64 (x * (HZ / USER_HZ))
  else if u64 (ULONG_MAX / HZ * USER_HZ) <=? x then ULONG_MAX else u64 (x * HZ) / USER_HZ.

Definition jiffies_64_to_clock_t (HZ x : Z) : Z :=
  if TICK_NSEC HZ mod (NSEC_PER_SEC / USER_HZ) =? 0 then
    if HZ <? USER_HZ then u64 (x * USER_HZ) / HZ
    else if USER_HZ <? HZ then x / (HZ / USER_HZ) else x
  else u64 (x * TICK_NSEC HZ) / (NSEC_PER_SEC / USER_HZ).

Definition nsec_to_clock_t (x : Z) : Z :=
  if NSEC_PER_SEC mod USER_HZ =? 0 then x / (NSEC_PER_SEC / USER_HZ)
  else if USER_HZ mod 512 =? 0 then u64 (x * USER_HZ) / 512 / (NSEC_PER_SEC / 512)
  else u64 (x * 9) / ((9 * NSEC_PER_SEC + USER_HZ / 2) / USER_HZ).

(** * Proofs: normal form *)

Ltac div_cases := Z.to_euclidean_division_equations; lia.

Lemma long_small x : - 2 ^ 63 <= x < 2 ^ 63 -> long x = x.
Proof. apply s64_u64. Qed.

Lemma long_range x : - 2 ^ 63 <= long x < 2 ^ 63.
Proof. unfold long, s64. pose proof (wrap_range 64 x ltac:(lia)) as []. zcases. Qed.

(** Steps of an addition of [long]s can be joined. *)
Lemma long_add x y : long (long x + y) = long (x + y).
Proof.
  unfold long. f_equal. unfold s64. destruct (Z.ltb_spec (u64 x) (2 ^ 63)); unfold wrap.
  - by rewrite Zplus_mod_idemp_l.
  - replace (x mod 2 ^ 64 - 2 ^ 64 + y) with (x mod 2 ^ 64 + y + (-1) * 2 ^ 64) by lia.
    by rewrite Z.mod_add, Zplus_mod_idemp_l.
Qed.

Lemma carry_loop fuel : forall sec nsec,
  nsec / NSEC_PER_SEC < Z.of_nat fuel ->
  loop fuel (fun '(sec, nsec) =>
    Some (if NSEC_PER_SEC <=? nsec then Next (long (sec + 1), nsec - NSEC_PER_SEC) else Done (sec, nsec))) (sec, nsec) =
  if (fuel =? 0)%nat then None else Some
  (if NSEC_PER_SEC <=? nsec then (long (sec + nsec / NSEC_PER_SEC), nsec mod NSEC_PER_SEC) else (sec, nsec)).
Proof.
  unfold NSEC_PER_SEC. induction fuel as [|fuel IH]; intros sec nsec Hf; [done|]. rewrite loop_S.
  destruct (Z.leb_spec 1000000000 nsec); [|done].
  rewrite IH by div_cases.
  destruct fuel; [div_cases|]. simpl. f_equal.
  destruct (Z.leb_spec 1000000000 (nsec - 1000000000)).
  - rewrite long_add. f_equal; [f_equal|]; div_cases.
  - f_equal; [f_equal|]; div_cases.
Qed.

Lemma borrow_loop fuel : forall sec nsec,
  - (nsec / NSEC_PER_SEC) < Z.of_nat fuel ->
  loop fuel (fun '(sec, nsec) =>
    Some (if nsec <? 0 then Next (long (sec - 1), nsec + NSEC_PER_SEC) else Done (sec, nsec))) (sec, nsec) =
  if (fuel =? 0)%nat then None else Some
  (if nsec <? 0 then (long (sec + nsec / NSEC_PER_SEC), nsec mod NSEC_PER_SEC) else (sec, nsec)).
Proof.
  unfold NSEC_PER_SEC. induction fuel as [|fuel IH]; intros sec nsec Hf; [done|]. rewrite loop_S.
  destruct (Z.ltb_spec nsec 0); [|done].
  rewrite IH by div_cases.
  destruct fuel; [div_cases|]. simpl. f_equal.
  destruct (Z.ltb_spec (nsec + 1000000000) 0).
  - rewrite long_add. f_equal; [f_equal|]; div_cases.
  - f_equal; [f_equal|]; div_cases.
Qed.

Lemma set_normalized_correct fuel sec nsec :
  - 2 ^ 63 <= sec < 2 ^ 63 -> Z.abs nsec / NSEC_PER_SEC + 1 < Z.of_nat fuel ->
  set_normalized_timespec fuel sec nsec = Some (Timespec (long (sec + nsec / NSEC_PER_SEC)) (nsec mod NSEC_PER_SEC)).
Proof.
  unfold set_normalized_timespec. intros Hsec Hf. unfold NSEC_PER_SEC in Hf.
  rewrite carry_loop by (unfold NSEC_PER_SEC; div_cases).
  destruct fuel as [|fuel]; [div_cases|]. simpl. unfold NSEC_PER_SEC.
  destruct (Z.leb_spec 1000000000 nsec).
  - rewrite (borrow_loop (S fuel)) by (unfold NSEC_PER_SEC; div_cases). simpl.
    destruct (Z.ltb_spec (nsec mod 1000000000) 0); [div_cases|done].
  - rewrite (borrow_loop (S fuel)) by (unfold NSEC_PER_SEC; div_cases). simpl. unfold NSEC_PER_SEC.
    destruct (Z.ltb_spec nsec 0); [done|]. simpl.
    rewrite Z.div_small, Z.mod_small, Z.add_0_r, long_small by lia. done.
Qed.

Lemma ns_to_timespec_correct n :
  ns_to_timespec n = Timespec (n / NSEC_PER_SEC) (n mod NSEC_PER_SEC).
Proof.
  unfold ns_to_timespec, NSEC_PER_SEC. destruct (Z.eqb_spec n 0) as [->|]; [done|].
  zcases; f_equal; div_cases.
Qed.

Definition normal (ts : timespec) : Prop := 0 <= tv_nsec ts < NSEC_PER_SEC.
Definition total_ns (ts : timespec) : Z := tv_sec ts * NSEC_PER_SEC + tv_nsec ts.

Lemma timespec_to_ns_correct ts : long (total_ns ts) = timespec_to_ns ts.
Proof. unfold timespec_to_ns. by rewrite long_add. Qed.

Lemma timespec_compare_correct a b :
  normal a -> normal b -> Z.sgn (timespec_compare a b) = Z.sgn (total_ns a - total_ns b).
Proof.
  unfold normal, total_ns, timespec_compare, NSEC_PER_SEC. intros Ha Hb.
  zcases. rewrite s32_small by lia. f_equal. lia.
Qed.

(** The sum, or the largest number of seconds. *)
Lemma timespec_add_safe_correct fuel a b :
  normal a -> normal b -> 0 <= tv_sec a < 2 ^ 63 -> 0 <= tv_sec b < 2 ^ 63 -> (3 < fuel)%nat ->
  let sum := total_ns a + total_ns b in
  timespec_add_safe fuel a b =
    Some (Timespec (Z.min (sum / NSEC_PER_SEC) TIME_T_MAX) (sum mod NSEC_PER_SEC)).
Proof.
  intros Ha Hb Hsa Hsb Hf sum. unfold normal, total_ns in *. unfold timespec_add_safe.
  rewrite set_normalized_correct by (apply long_range || (unfold NSEC_PER_SEC in *; div_cases)).
  simpl. rewrite long_add. unfold NSEC_PER_SEC in *.
  set (c := (tv_nsec a + tv_nsec b) / 1000000000).
  assert (Hc : 0 <= c <= 1 /\ sum / 1000000000 = tv_sec a + tv_sec b + c /\
    sum mod 1000000000 = (tv_nsec a + tv_nsec b) mod 1000000000) by (unfold sum, c; div_cases).
  destruct Hc as (Hc & -> & ->). set (s := tv_sec a + tv_sec b + c) in *.
  destruct (Z.lt_ge_cases s (2 ^ 63)).
  - rewrite long_small by lia. destruct (Z.ltb_spec s (tv_sec a)), (Z.ltb_spec s (tv_sec b)); simpl; try lia.
    unfold TIME_T_MAX. by rewrite Z.min_l by lia.
  - assert (long s = s - 2 ^ 64).
    { rewrite <- (long_small (s - 2 ^ 64)) by lia. unfold long. f_equal. unfold wrap.
      rewrite <- (Z.mod_add (s - 2 ^ 64) 1) by lia. f_equal. lia. }
    destruct (Z.ltb_spec (long s) (tv_sec a)); simpl; [|lia].
    unfold TIME_T_MAX. by rewrite Z.min_r by lia.
Qed.

(** * Proofs: jiffies *)

(** The frequencies of kernel/Kconfig.hz. *)
Definition config_hz : list Z := [100; 250; 300; 1000].

Lemma config_hz_cases HZ : HZ ∈ config_hz -> HZ = 100 \/ HZ = 250 \/ HZ = 300 \/ HZ = 1000.
Proof. unfold config_hz. rewrite !elem_of_cons, elem_of_nil. tauto. Qed.

Definition ceil_div (a b : Z) : Z := (a + b - 1) / b.

(** Chooses the branch of the preprocessor for a concrete [HZ]. *)
Ltac pick_branch :=
  repeat match goal with
  | |- context [if ?c then _ else _] =>
      let v := eval vm_compute in c in
      match v with true => change c with true | false => change c with false end; cbv iota
  | |- context [MSEC_PER_SEC / ?h] => let v := eval vm_compute in (MSEC_PER_SEC / h) in change (MSEC_PER_SEC / h) with v
  | |- context [USEC_PER_SEC / ?h] => let v := eval vm_compute in (USEC_PER_SEC / h) in change (USEC_PER_SEC / h) with v
  end.
Ltac pick_hz H := apply config_hz_cases in H as [->|[->|[->| ->]]]; pick_branch; cbn [canned_values Z.eqb Pos.eqb
  HZ_TO_MSEC_NUM HZ_TO_MSEC_DEN MSEC_TO_HZ_MUL32 MSEC_TO_HZ_ADJ32 MSEC_TO_HZ_SHR32
  HZ_TO_USEC_NUM HZ_TO_USEC_DEN USEC_TO_HZ_MUL32 USEC_TO_HZ_ADJ32 USEC_TO_HZ_SHR32].

Lemma msecs_to_jiffies_correct HZ m :
  HZ ∈ config_hz -> 0 <= m < 2 ^ 32 ->
  msecs_to_jiffies HZ m = if m <? 2 ^ 31 then ceil_div (m * HZ) 1000 else MAX_JIFFY_OFFSET.
Proof.
  intros HZ' Hm. unfold msecs_to_jiffies, ceil_div.
  assert (Hs : (s32 m <? 0) = negb (m <? 2 ^ 31)).
  { unfold s32. destruct (Z.ltb_spec m (2 ^ 31)).
    - rewrite Z.mod_small by lia. zcases.
    - rewrite <- (Z.mod_add (m + 2 ^ 31) (-1)), Z.mod_small by lia. zcases. }
  rewrite Hs. destruct (Z.ltb_spec m (2 ^ 31)); [|done]. simpl negb.
  pick_hz HZ'; try div_cases.
  rewrite !(wrap_small 64) by (rewrite ?(wrap_small 64); unfold is_word; lia).
  rewrite Z.shiftr_div_pow2 by lia. change (2 ^ 33) with 8589934592. div_cases.
Qed.

(** The largest value that [usecs_to_jiffies] does not take for infinite. *)
Definition usecs_limit (HZ : Z) : Z := if HZ =? 300 then 1431649098 else 2 ^ 32 - 2 * (1000000 / HZ).

Lemma usecs_to_jiffies_correct HZ u :
  HZ ∈ config_hz -> 0 <= u < 2 ^ 32 ->
  usecs_to_jiffies HZ u = if u <=? usecs_limit HZ then ceil_div (u * HZ) 1000000 else MAX_JIFFY_OFFSET.
Proof.
  intros HZ' Hu. unfold usecs_to_jiffies, ceil_div.
  assert (Hl : jiffies_to_usecs HZ MAX_JIFFY_OFFSET = usecs_limit HZ) by (pick_hz HZ'; by vm_compute).
  rewrite Hl, (Z.leb_antisym _ u). destruct (Z.ltb_spec (usecs_limit HZ) u) as [|Hle]; [done|]. simpl negb.
  revert Hle. pick_hz HZ'; intros Hle; try div_cases.
  rewrite !(wrap_small 64) by (rewrite ?(wrap_small 64); unfold is_word; lia).
  rewrite Z.shiftr_div_pow2 by lia. change (2 ^ 43) with 8796093022208. unfold usecs_limit in Hle. simpl in Hle. div_cases.
Qed.

Lemma jiffies_to_msecs_correct HZ j :
  HZ ∈ config_hz -> 0 <= j -> j * 1000 / HZ < 2 ^ 32 -> jiffies_to_msecs HZ j = j * 1000 / HZ.
Proof.
  intros HZ' Hj. unfold jiffies_to_msecs. pick_hz HZ'; intros Hb;
    rewrite (wrap_small 64) by (unfold is_word; div_cases);
    rewrite wrap_small; unfold is_word; try div_cases.
Qed.

Lemma jiffies_to_usecs_correct HZ j :
  HZ ∈ config_hz -> 0 <= j -> j * 1000000 / HZ < 2 ^ 32 -> jiffies_to_usecs HZ j = j * 1000000 / HZ.
Proof.
  intros HZ' Hj. unfold jiffies_to_usecs. pick_hz HZ'; intros Hb;
    rewrite (wrap_small 64) by (unfold is_word; div_cases);
    rewrite wrap_small; unfold is_word; try div_cases.
Qed.

Lemma msecs_round_trip HZ j :
  HZ ∈ config_hz -> 0 <= j -> j * 1000 / HZ < 2 ^ 31 -> msecs_to_jiffies HZ (jiffies_to_msecs HZ j) = j.
Proof.
  intros HZ' Hj Hb. pose proof HZ' as Hc. apply config_hz_cases in Hc.
  assert (0 <= j * 1000 / HZ) by (destruct Hc as [->|[->|[->| ->]]]; div_cases).
  rewrite jiffies_to_msecs_correct, msecs_to_jiffies_correct by (done || lia).
  destruct (Z.ltb_spec (j * 1000 / HZ) (2 ^ 31)); [|lia]. unfold ceil_div.
  destruct Hc as [->|[->|[->| ->]]]; div_cases.
Qed.

(** ** Scaled arithmetic *)

(** [C] is the factor [a * 2^s / T], rounded up. *)
Lemma scaled_factor a s T : 0 < T -> 0 <= a -> 0 <= s ->
  a * 2 ^ s <= (a * 2 ^ s + T - 1) / T * T < a * 2 ^ s + T.
Proof.
  intros HT Ha Hs. pose proof (Z.div_mod (a * 2 ^ s + T - 1) T ltac:(lia)).
  pose proof (Z.mod_pos_bound (a * 2 ^ s + T - 1) T HT). lia.
Qed.

(** Rounding up to whole ticks of [T] nanoseconds with the factors [SC] per second and
    [NC] per nanosecond: never too few, and [sec / 2^S] ticks too many at most. *)
Lemma scaled_nsec S T SC NC sec nsec :
  0 <= S -> 0 < T <= 10 ^ 7 -> 0 <= sec -> 0 <= nsec < 10 ^ 9 ->
  10 ^ 9 * 2 ^ S <= SC * T < 10 ^ 9 * 2 ^ S + T ->
  2 ^ (S + 29) <= NC * T < 2 ^ (S + 29) + T ->
  let t := sec * 10 ^ 9 + nsec in
  let r := (sec * SC + (nsec + T - 1) * NC / 2 ^ 29) / 2 ^ S in
  t <= r * T /\ r * T * 2 ^ S <= (t + T - 1) * 2 ^ S + (sec + 3) * T.
Proof.
  intros HS HT Hsec Hnsec HSC HNC t r.
  rewrite Z.pow_add_r in HNC by lia.
  assert (HP : 0 < 2 ^ S) by (apply Z.pow_pos_nonneg; lia). set (P := 2 ^ S) in *.
  change (2 ^ 29) with 536870912 in *.
  set (N := nsec + T - 1) in *. set (X := N * NC / 536870912) in *.
  assert (HX : N * NC - 536870912 < X * 536870912 <= N * NC) by (unfold X; div_cases).
  set (sum := sec * SC + X) in *.
  assert (Hr : sum - P < r * P <= sum).
  { pose proof (Z.div_mod sum P ltac:(lia)). pose proof (Z.mod_pos_bound sum P HP). unfold r. fold sum. lia. }
  assert (HN : 0 <= N < 1010000000) by lia.
  (* the sum, times T *)
  assert (Hlow : P * (t + T - 1) - T < sum * T).
  { assert (536870912 * (P * N - T) < 536870912 * (X * T)) by nia. unfold sum, t, N in *. nia. }
  assert (Hup : sum * T <= P * (t + T - 1) + (sec + 3) * T).
  { assert (536870912 * (X * T) <= 536870912 * (P * N + 3 * T)) by nia. unfold sum, t, N in *. nia. }
  split; [|nia].
  destruct (Z.le_gt_cases t (r * T)) as [|Hlt]; [done|exfalso].
  (* then [r + 1] ticks are not enough for [t + T - 1] either *)
  assert ((r + 1) * T <= t + T - 1) by nia.
  assert (P * ((r + 1) * T) <= P * (t + T - 1)) by nia.
  assert ((r + 1) * P <= sum) by nia. lia.
Qed.

Lemma scaled_usec S T SC UC sec usec :
  0 <= S -> 0 < T <= 10 ^ 7 -> T <= 2 ^ S -> 0 <= sec -> 0 <= usec < 10 ^ 6 ->
  10 ^ 9 * 2 ^ S <= SC * T < 10 ^ 9 * 2 ^ S + T ->
  1000 * 2 ^ (S + 19) <= UC * T < 1000 * 2 ^ (S + 19) + T ->
  let t := sec * 10 ^ 9 + usec * 1000 in
  let r := (sec * SC + (usec * UC + (2 ^ (S + 19) - 1)) / 2 ^ 19) / 2 ^ S in
  t <= r * T /\ r * T * 2 ^ S <= (t + T) * 2 ^ S + (sec + 3) * T.
Proof.
  intros HS HT HTS Hsec Husec HSC HUC t. rewrite Z.pow_add_r in * by lia. intros r.
  assert (HP : 0 < 2 ^ S) by (apply Z.pow_pos_nonneg; lia). set (P := 2 ^ S) in *.
  change (2 ^ 19) with 524288 in *.
  set (X := (usec * UC + (P * 524288 - 1)) / 524288) in *.
  assert (HX : usec * UC + P * 524288 - 524288 <= X * 524288 <= usec * UC + P * 524288) by (unfold X; div_cases).
  set (sum := sec * SC + X) in *.
  assert (Hr : sum - P < r * P <= sum).
  { pose proof (Z.div_mod sum P ltac:(lia)). pose proof (Z.mod_pos_bound sum P HP). unfold r. fold sum. lia. }
  assert (Hlow : P * (t + T) - T <= sum * T).
  { assert (usec * (1000 * (P * 524288)) <= usec * (UC * T)) by nia.
    assert ((usec * UC + P * 524288 - 524288) * T <= X * 524288 * T) by nia.
    assert (524288 * (P * (usec * 1000) + P * T - T) <= 524288 * (X * T)) by lia.
    unfold sum, t in *. nia. }
  assert (Hup : sum * T <= P * (t + T) + (sec + 3) * T).
  { assert (usec * (UC * T) <= usec * (1000 * (P * 524288) + T)) by nia.
    assert (usec * T <= 1000000 * T) by nia.
    assert (X * 524288 * T <= (usec * UC + P * 524288) * T) by nia.
    assert (524288 * (X * T) <= 524288 * (P * (usec * 1000) + P * T + 3 * T)) by lia.
    unfold sum, t in *. nia. }
  split; [|nia].
  destruct (Z.le_gt_cases t (r * T)) as [|Hlt]; [done|exfalso].
  assert ((r + 1) * T + 1 <= t + T) by nia.
  assert (P * ((r + 1) * T) + T <= P * (t + T)) by nia.
  assert ((r + 1) * P <= sum) by nia. lia.
Qed.

(** What the constants of a frequency satisfy. *)
Record scales (HZ : Z) : Prop := {
  sc_shift : 22 <= SEC_JIFFIE_SC HZ <= 25;
  sc_tick : 0 < TICK_NSEC HZ <= 10 ^ 7;
  sc_fine : TICK_NSEC HZ <= 2 ^ SEC_JIFFIE_SC HZ;
  sc_sec : 10 ^ 9 * 2 ^ SEC_JIFFIE_SC HZ <= SEC_CONVERSION HZ * TICK_NSEC HZ < 10 ^ 9 * 2 ^ SEC_JIFFIE_SC HZ + TICK_NSEC HZ;
  sc_nsec : 2 ^ (SEC_JIFFIE_SC HZ + 29) <= NSEC_CONVERSION HZ * TICK_NSEC HZ < 2 ^ (SEC_JIFFIE_SC HZ + 29) + TICK_NSEC HZ;
  sc_usec : 1000 * 2 ^ (SEC_JIFFIE_SC HZ + 19) <= USEC_CONVERSION HZ * TICK_NSEC HZ
            < 1000 * 2 ^ (SEC_JIFFIE_SC HZ + 19) + TICK_NSEC HZ;
  sc_max : 4000000 < MAX_SEC_IN_JIFFIES HZ < 2 ^ 32 /\ MAX_SEC_IN_JIFFIES HZ * SEC_CONVERSION HZ < 2 ^ 63;
  sc_small : 0 <= SEC_CONVERSION HZ < 2 ^ 32 /\ 0 <= NSEC_CONVERSION HZ < 2 ^ 32 /\ 0 <= USEC_CONVERSION HZ < 2 ^ 32
}.

Lemma scales_hold HZ : HZ ∈ config_hz -> scales HZ.
Proof.
  intros H. apply config_hz_cases in H as [->|[->|[->| ->]]]; split;
    repeat split; by vm_compute.
Qed.

(** At most one tick late when the seconds are few. *)
Lemma one_tick_late r t T S sec e :
  0 < T -> 22 <= S -> 0 <= sec <= 4000000 -> 0 <= e <= T ->
  r * T * 2 ^ S <= (t + e) * 2 ^ S + (sec + 3) * T -> r * T <= t + e + T.
Proof.
  intros HT HS Hsec He Hr. assert (HP : 2 ^ 22 <= 2 ^ S) by (apply Z.pow_le_mono_r; lia).
  change (2 ^ 22) with 4194304 in HP. set (P := 2 ^ S) in *.
  destruct (Z.le_gt_cases (r * T) (t + e + T)) as [|Hgt]; [done|].
  assert (P * (t + e + T + 1) <= P * (r * T)) by nia. nia.
Qed.

Lemma timespec_to_jiffies_correct HZ ts :
  HZ ∈ config_hz -> normal ts -> 0 <= tv_sec ts < MAX_SEC_IN_JIFFIES HZ ->
  let T := TICK_NSEC HZ in let r := timespec_to_jiffies HZ ts in
  total_ns ts <= r * T /\
  r * T * 2 ^ SEC_JIFFIE_SC HZ <= (total_ns ts + T - 1) * 2 ^ SEC_JIFFIE_SC HZ + (tv_sec ts + 3) * T.
Proof.
  intros Hhz Hn Hs T r. destruct (scales_hold HZ Hhz) as [Hsh Ht Hf Hsc Hnc _ [Hm1 Hm2] (Hb1 & Hb2 & _)].
  unfold normal, NSEC_PER_SEC in Hn.
  pose proof (scaled_nsec (SEC_JIFFIE_SC HZ) T (SEC_CONVERSION HZ) (NSEC_CONVERSION HZ) (tv_sec ts) (tv_nsec ts)
    ltac:(lia) Ht ltac:(lia) ltac:(lia) Hsc Hnc) as H. simpl in H.
  assert (Hr : r = (tv_sec ts * SEC_CONVERSION HZ + (tv_nsec ts + T - 1) * NSEC_CONVERSION HZ / 2 ^ 29) / 2 ^ SEC_JIFFIE_SC HZ).
  { unfold r, timespec_to_jiffies, NSEC_JIFFIE_SC. fold T. rewrite (wrap_small 64 (tv_sec ts)) by (unfold is_word; lia).
    destruct (Z.leb_spec (MAX_SEC_IN_JIFFIES HZ) (tv_sec ts)); [lia|].
    replace (SEC_JIFFIE_SC HZ + 29 - SEC_JIFFIE_SC HZ) with 29 by lia. rewrite !Z.shiftr_div_pow2 by lia.
    rewrite long_small by lia. rewrite (wrap_small 64 (tv_nsec ts + T - 1)) by (unfold is_word; lia).
    assert (0 <= (tv_nsec ts + T - 1) * NSEC_CONVERSION HZ < 2 ^ 62) by nia.
    assert (0 <= tv_sec ts * SEC_CONVERSION HZ < 2 ^ 63) by nia.
    rewrite (wrap_small 64 (_ * NSEC_CONVERSION HZ)), (wrap_small 64 (_ * SEC_CONVERSION HZ)) by (unfold is_word; lia).
    rewrite (wrap_small 64); [done|]. unfold is_word.
    assert (0 <= (tv_nsec ts + T - 1) * NSEC_CONVERSION HZ / 2 ^ 29 < 2 ^ 62) by div_cases. lia. }
  rewrite Hr. unfold total_ns, NSEC_PER_SEC. replace (_ + _ + T - 1) with (tv_sec ts * 10 ^ 9 + tv_nsec ts + T - 1) by lia. done.
Qed.

Definition timeval_ns (tv : timeval) : Z := tvl_sec tv * 10 ^ 9 + tv_usec tv * 1000.

Lemma timeval_to_jiffies_correct HZ tv :
  HZ ∈ config_hz -> 0 <= tv_usec tv < 10 ^ 6 -> 0 <= tvl_sec tv < MAX_SEC_IN_JIFFIES HZ ->
  let T := TICK_NSEC HZ in let r := timeval_to_jiffies HZ tv in
  timeval_ns tv <= r * T /\
  r * T * 2 ^ SEC_JIFFIE_SC HZ <= (timeval_ns tv + T) * 2 ^ SEC_JIFFIE_SC HZ + (tvl_sec tv + 3) * T.
Proof.
  intros Hhz Hn Hs T r. destruct (scales_hold HZ Hhz) as [Hsh Ht Hf Hsc _ Huc [Hm1 Hm2] (Hb1 & _ & Hb2)].
  pose proof (scaled_usec (SEC_JIFFIE_SC HZ) T (SEC_CONVERSION HZ) (USEC_CONVERSION HZ) (tvl_sec tv) (tv_usec tv)
    ltac:(lia) Ht Hf ltac:(lia) ltac:(lia) Hsc Huc) as H. simpl in H.
  assert (Hr : r = (tvl_sec tv * SEC_CONVERSION HZ + (tv_usec tv * USEC_CONVERSION HZ + (2 ^ (SEC_JIFFIE_SC HZ + 19) - 1)) / 2 ^ 19) / 2 ^ SEC_JIFFIE_SC HZ).
  { unfold r, timeval_to_jiffies, USEC_ROUND, USEC_JIFFIE_SC. rewrite (wrap_small 64 (tvl_sec tv)) by (unfold is_word; lia).
    destruct (Z.leb_spec (MAX_SEC_IN_JIFFIES HZ) (tvl_sec tv)); [lia|].
    replace (SEC_JIFFIE_SC HZ + 19 - SEC_JIFFIE_SC HZ) with 19 by lia. rewrite !Z.shiftr_div_pow2, Z.shiftl_1_l by lia.
    rewrite (wrap_small 64 (tv_usec tv)) by (unfold is_word; lia).
    assert (0 <= tv_usec tv * USEC_CONVERSION HZ < 2 ^ 52) by nia.
    assert (0 <= tvl_sec tv * SEC_CONVERSION HZ < 2 ^ 63) by nia.
    assert (0 < 2 ^ (SEC_JIFFIE_SC HZ + 19) <= 2 ^ 44) by (split; [apply Z.pow_pos_nonneg|apply Z.pow_le_mono_r]; lia).
    rewrite (wrap_small 64 (_ * USEC_CONVERSION HZ)), (wrap_small 64 (_ * SEC_CONVERSION HZ)) by (unfold is_word; lia).
    rewrite (wrap_small 64 (_ + (_ - 1))) by (unfold is_word; lia).
    rewrite (wrap_small 64); [done|]. unfold is_word.
    assert (0 <= (tv_usec tv * USEC_CONVERSION HZ + (2 ^ (SEC_JIFFIE_SC HZ + 19) - 1)) / 2 ^ 19 < 2 ^ 62) by div_cases. lia. }
  rewrite Hr. done.
Qed.

Lemma jiffies_to_timespec_correct HZ j :
  0 <= j * TICK_NSEC HZ < 2 ^ 64 ->
  normal (jiffies_to_timespec HZ j) /\ total_ns (jiffies_to_timespec HZ j) = j * TICK_NSEC HZ.
Proof.
  intros Hj. unfold jiffies_to_timespec, normal, total_ns, NSEC_PER_SEC. simpl.
  rewrite wrap_small by (unfold is_word; lia). div_cases.
Qed.

Lemma jiffies_round_trip HZ j :
  HZ ∈ config_hz -> 0 <= j -> j * TICK_NSEC HZ < 4000000 * 10 ^ 9 ->
  j <= timespec_to_jiffies HZ (jiffies_to_timespec HZ j) <= j + 1.
Proof.
  intros Hhz Hj Hb. destruct (scales_hold HZ Hhz) as [Hsh Ht _ _ _ _ [Hm1 _] _].
  assert (0 <= j * TICK_NSEC HZ) by nia.
  destruct (jiffies_to_timespec_correct HZ j) as [Hn Htot]; [lia|].
  set (ts := jiffies_to_timespec HZ j) in *.
  assert (Hs : 0 <= tv_sec ts < 4000000) by (unfold total_ns, normal, NSEC_PER_SEC in *; lia).
  destruct (timespec_to_jiffies_correct HZ ts Hhz Hn ltac:(lia)) as [Hlo Hup]. rewrite Htot in *.
  set (r := timespec_to_jiffies HZ ts) in *. set (T := TICK_NSEC HZ) in *.
  assert (r * T <= j * T + (T - 1) + T) by (eapply (one_tick_late r (j * T) T (SEC_JIFFIE_SC HZ) (tv_sec ts));
    [lia|lia|lia|lia|by replace (j * T + (T - 1)) with (j * T + T - 1) by lia]).
  nia.
Qed.

(** Times beyond [MAX_SEC_IN_JIFFIES] are cut down to it. *)
Lemma timespec_to_jiffies_cut HZ ts :
  MAX_SEC_IN_JIFFIES HZ <= u64 (tv_sec ts) ->
  timespec_to_jiffies HZ ts = timespec_to_jiffies HZ (Timespec (MAX_SEC_IN_JIFFIES HZ) 0).
Proof.
  intros H. unfold timespec_to_jiffies. simpl. destruct (Z.leb_spec (MAX_SEC_IN_JIFFIES HZ) (u64 (tv_sec ts))); [|lia].
  destruct (Z.leb_spec (MAX_SEC_IN_JIFFIES HZ) (u64 (MAX_SEC_IN_JIFFIES HZ))) as [|Hw]; [done|].
  pose proof (wrap_range 64 (tv_sec ts) ltac:(lia)) as [? Hlt].
  destruct (Z.le_gt_cases 0 (MAX_SEC_IN_JIFFIES HZ)).
  - rewrite wrap_small in Hw by (unfold is_word in *; lia). lia.
  - pose proof (wrap_range 64 (MAX_SEC_IN_JIFFIES HZ) ltac:(lia)) as []. lia.
Qed.

Lemma timespec_trunc_correct HZ ts gran :
  HZ ∈ config_hz -> normal ts -> 0 < gran <= 10 ^ 9 ->
  timespec_trunc HZ ts gran =
    if gran <=? 1000000 / HZ * 1000 then ts else Timespec (tv_sec ts) (tv_nsec ts / gran * gran).
Proof.
  unfold normal, NSEC_PER_SEC. intros Hhz Hn Hg. unfold timespec_trunc.
  assert (Hu : u32 (jiffies_to_usecs HZ 1 * 1000) = 1000000 / HZ * 1000).
  { apply config_hz_cases in Hhz as [->|[->|[->| ->]]]; vm_compute; reflexivity. }
  rewrite Hu. destruct (Z.leb_spec gran (1000000 / HZ * 1000)); [done|].
  destruct (Z.eqb_spec gran 1000000000) as [->|]; [by rewrite Z.div_small by lia|].
  f_equal. rewrite Z.rem_mod_nonneg by lia. pose proof (Z.div_mod (tv_nsec ts) gran). lia.
Qed.

Lemma clock_t_correct HZ x :
  HZ ∈ config_hz -> 0 <= x ->
  (x * TICK_NSEC HZ < 2 ^ 63 ->
     jiffies_64_to_clock_t HZ x = x * TICK_NSEC HZ / 10 ^ 7 /\ jiffies_to_clock_t HZ x = x * TICK_NSEC HZ / 10 ^ 7) /\
  (x < 2 ^ 56 -> clock_t_to_jiffies HZ x = x * HZ / 100) /\
  nsec_to_clock_t x = x / 10 ^ 7.
Proof.
  intros Hhz Hx. split_and!; [| |done].
  - intros Hb. unfold jiffies_64_to_clock_t, jiffies_to_clock_t.
    assert (Hx' : x < 2 ^ 63 /\ 0 <= x * TICK_NSEC HZ) by (destruct (scales_hold HZ Hhz) as [_ Ht]; nia).
    rewrite (wrap_small 64 x), (wrap_small 64 (x * TICK_NSEC HZ)) by (unfold is_word; lia).
    rewrite (long_small (x * TICK_NSEC HZ / _)) by (change (NSEC_PER_SEC / USER_HZ) with 10000000; div_cases).
    apply config_hz_cases in Hhz as [->|[->|[->| ->]]]; pick_branch; [|done..].
    change (TICK_NSEC 100) with 10000000. change (100 / USER_HZ) with 1. div_cases.
  - intros Hb. unfold clock_t_to_jiffies.
    apply config_hz_cases in Hhz as [->|[->|[->| ->]]]; pick_branch;
      [change (100 / USER_HZ) with 1|change (250 / USER_HZ) with 2|change (300 / USER_HZ) with 3|change (1000 / USER_HZ) with 10].
    all: match goal with |- (if ?a <=? _ then _ else _) = _ =>
      let v := eval vm_compute in a in change a with v end; zcases; unfold USER_HZ;
      rewrite ?(wrap_small 64) by (unfold is_word; lia); div_cases.
Qed.

Lemma ns_to_timeval_correct n :
  0 <= tv_usec (ns_to_timeval n) < 10 ^ 6 /\ timeval_ns (ns_to_timeval n) = n / 1000 * 1000.
Proof.
  unfold timeval_ns, ns_to_timeval. rewrite ns_to_timespec_correct. unfold NSEC_PER_SEC. simpl.
  rewrite Z.quot_div_nonneg by div_cases. div_cases.
Qed.

Lemma jiffies_to_timeval_correct HZ j :
  0 <= j * TICK_NSEC HZ < 2 ^ 64 -> timeval_ns (jiffies_to_timeval HZ j) = j * TICK_NSEC HZ / 1000 * 1000.
Proof.
  intros Hj. unfold timeval_ns, jiffies_to_timeval, NSEC_PER_SEC, NSEC_PER_USEC. simpl.
  rewrite wrap_small by (unfold is_word; lia). div_cases.
Qed.

Lemma timespec_valid_correct ts :
  - 2 ^ 63 <= tv_nsec ts < 2 ^ 63 -> timespec_valid ts = true <-> 0 <= tv_sec ts /\ normal ts.
Proof.
  intros Hn. unfold timespec_valid, normal, NSEC_PER_SEC. destruct (Z.lt_ge_cases (tv_nsec ts) 0).
  - unfold wrap. rewrite <- (Z.mod_add (tv_nsec ts) 1), Z.mod_small by lia. zcases.
  - rewrite wrap_small by (unfold is_word; lia). rewrite andb_true_iff, Z.leb_le, Z.ltb_lt. lia.
Qed.

Lemma timespec_equal_correct a b : timespec_equal a b = true <-> a = b.
Proof.
  unfold timespec_equal. rewrite andb_true_iff, !Z.eqb_eq. destruct a, b; simpl. split; [intros [-> ->]; done|by intros [= -> ->]].
Qed.

Lemma timespec_sub_correct fuel a b :
  normal a -> normal b -> - 2 ^ 63 <= total_ns a - total_ns b < 2 ^ 63 -> (3 < fuel)%nat ->
  exists d, timespec_sub fuel a b = Some d /\ normal d /\ total_ns d = total_ns a - total_ns b.
Proof.
  intros Ha Hb Hd Hf. unfold timespec_sub, normal, total_ns, NSEC_PER_SEC in *.
  rewrite set_normalized_correct by (apply long_range || (unfold NSEC_PER_SEC; div_cases)).
  eexists. split; [done|]. unfold NSEC_PER_SEC. simpl. rewrite long_add, long_small by div_cases. div_cases.
Qed.

(** * Theorems *)

(** C25: values of time.  [set_normalized_timespec] ends and carries the nanoseconds
    into the seconds; [ns_to_timespec] is its value at 0 seconds and inverse to
    [timespec_to_ns]; [timespec_compare] orders by total time, [timespec_add_safe] adds
    and saturates, [timespec_trunc] rounds down.  For the frequencies of
    Kconfig.hz, [msecs_to_jiffies] and [usecs_to_jiffies] round up to whole ticks, and
    milliseconds return to the same jiffies; [usecs_to_jiffies] takes all values above
    [usecs_limit] for infinite, with 300 Hz already half an hour.
    [timespec_to_jiffies] and [timeval_to_jiffies] never give too few ticks and at
    most one too many within 46 days, and a timespec made of jiffies returns to them or one more; longer
    times than [MAX_SEC_IN_JIFFIES], negative ones among them, are cut to it.
    The conversions to [clock_t] round down. *)
Theorem time_values_correct HZ :
  HZ ∈ config_hz ->
  (forall fuel sec nsec, - 2 ^ 63 <= sec < 2 ^ 63 -> Z.abs nsec / NSEC_PER_SEC + 1 < Z.of_nat fuel ->
     set_normalized_timespec fuel sec nsec = Some (Timespec (long (sec + nsec / NSEC_PER_SEC)) (nsec mod NSEC_PER_SEC))) /\
  (forall n, - 2 ^ 63 <= n < 2 ^ 63 ->
     normal (ns_to_timespec n) /\ total_ns (ns_to_timespec n) = n /\ timespec_to_ns (ns_to_timespec n) = n /\
     0 <= tv_usec (ns_to_timeval n) < 10 ^ 6 /\ timeval_ns (ns_to_timeval n) = n / 1000 * 1000) /\
  (forall ts, normal ts -> - 2 ^ 63 <= total_ns ts < 2 ^ 63 -> ns_to_timespec (timespec_to_ns ts) = ts) /\
  (forall ts, - 2 ^ 63 <= tv_nsec ts < 2 ^ 63 -> timespec_valid ts = true <-> 0 <= tv_sec ts /\ normal ts) /\
  (forall a b, normal a -> normal b ->
     Z.sgn (timespec_compare a b) = Z.sgn (total_ns a - total_ns b) /\
     (timespec_equal a b = true <-> a = b) /\
     (forall fuel, - 2 ^ 63 <= total_ns a - total_ns b < 2 ^ 63 -> (3 < fuel)%nat ->
        exists d, timespec_sub fuel a b = Some d /\ normal d /\ total_ns d = total_ns a - total_ns b) /\
     (forall fuel, 0 <= tv_sec a < 2 ^ 63 -> 0 <= tv_sec b < 2 ^ 63 -> (3 < fuel)%nat ->
        timespec_add_safe fuel a b = Some (Timespec (Z.min ((total_ns a + total_ns b) / NSEC_PER_SEC) TIME_T_MAX)
                                                    ((total_ns a + total_ns b) mod NSEC_PER_SEC)))) /\
  (forall ts gran, normal ts -> 0 < gran <= 10 ^ 9 ->
     timespec_trunc HZ ts gran =
       if gran <=? 1000000 / HZ * 1000 then ts else Timespec (tv_sec ts) (tv_nsec ts / gran * gran)) /\
  (forall m, 0 <= m < 2 ^ 32 ->
     msecs_to_jiffies HZ m = (if m <? 2 ^ 31 then ceil_div (m * HZ) 1000 else MAX_JIFFY_OFFSET) /\
     usecs_to_jiffies HZ m = (if m <=? usecs_limit HZ then ceil_div (m * HZ) 1000000 else MAX_JIFFY_OFFSET)) /\
  (forall j, 0 <= j ->
     (j * 1000 / HZ < 2 ^ 32 -> jiffies_to_msecs HZ j = j * 1000 / HZ) /\
     (j * 1000000 / HZ < 2 ^ 32 -> jiffies_to_usecs HZ j = j * 1000000 / HZ) /\
     (j * 1000 / HZ < 2 ^ 31 -> msecs_to_jiffies HZ (jiffies_to_msecs HZ j) = j) /\
     (j * TICK_NSEC HZ < 2 ^ 64 ->
        timeval_ns (jiffies_to_timeval HZ j) = j * TICK_NSEC HZ / 1000 * 1000) /\
     (j * TICK_NSEC HZ < 4000000 * 10 ^ 9 -> j <= timespec_to_jiffies HZ (jiffies_to_timespec HZ j) <= j + 1)) /\
  (forall ts, normal ts -> 0 <= tv_sec ts <= 4000000 ->
     total_ns ts <= timespec_to_jiffies HZ ts * TICK_NSEC HZ < total_ns ts + 2 * TICK_NSEC HZ) /\
  (forall ts, MAX_SEC_IN_JIFFIES HZ <= u64 (tv_sec ts) ->
     timespec_to_jiffies HZ ts = timespec_to_jiffies HZ (Timespec (MAX_SEC_IN_JIFFIES HZ) 0)) /\
  (forall tv, 0 <= tv_usec tv < 10 ^ 6 -> 0 <= tvl_sec tv <= 4000000 ->
     timeval_ns tv <= timeval_to_jiffies HZ tv * TICK_NSEC HZ <= timeval_ns tv + 2 * TICK_NSEC HZ) /\
  (forall x, 0 <= x ->
     (x * TICK_NSEC HZ < 2 ^ 63 ->
        jiffies_64_to_clock_t HZ x = x * TICK_NSEC HZ / 10 ^ 7 /\ jiffies_to_clock_t HZ x = x * TICK_NSEC HZ / 10 ^ 7) /\
     (x < 2 ^ 56 -> clock_t_to_jiffies HZ x = x * HZ / 100) /\ nsec_to_clock_t x = x / 10 ^ 7).
Proof.
  intros Hhz. destruct (scales_hold HZ Hhz) as [Hsh Ht _ _ _ _ [Hm1 _] _].
  split_and!; try (intros; by apply set_normalized_correct); try (intros; by apply timespec_trunc_correct);
    try (intros; by apply clock_t_correct); try apply timespec_to_jiffies_cut.
  - intros n Hn. pose proof (ns_to_timeval_correct n) as [Hu Hv].
    rewrite ns_to_timespec_correct, <- timespec_to_ns_correct. unfold normal, total_ns, NSEC_PER_SEC in *. simpl.
    assert (n / 1000000000 * 1000000000 + n mod 1000000000 = n) as -> by div_cases.
    rewrite long_small by done. split; [div_cases|done].
  - intros [s n] Hn Hr. rewrite <- timespec_to_ns_correct, long_small, ns_to_timespec_correct by done.
    unfold normal, total_ns, NSEC_PER_SEC in *. simpl in *. f_equal; div_cases.
  - intros ts Hts. by apply timespec_valid_correct.
  - intros a b Ha Hb. split_and!; [by apply timespec_compare_correct|apply timespec_equal_correct| |];
      intros; [by apply timespec_sub_correct|by apply timespec_add_safe_correct].
  - intros m Hm. split; [by apply msecs_to_jiffies_correct|by apply usecs_to_jiffies_correct].
  - intros j Hj. split_and!; intros; [by apply jiffies_to_msecs_correct|by apply jiffies_to_usecs_correct|
      by apply msecs_round_trip|apply jiffies_to_timeval_correct; nia|by apply jiffies_round_trip].
  - intros ts Hn Hs. destruct (timespec_to_jiffies_correct HZ ts Hhz Hn ltac:(lia)) as [Hlo Hup].
    split; [done|]. eapply Z.le_lt_trans; [eapply (one_tick_late _ (total_ns ts) (TICK_NSEC HZ) (SEC_JIFFIE_SC HZ) (tv_sec ts) (TICK_NSEC HZ - 1));
      [lia..|]|lia]. by replace (total_ns ts + (TICK_NSEC HZ - 1)) with (total_ns ts + TICK_NSEC HZ - 1) by lia.
  - intros tv Hn Hs. destruct (timeval_to_jiffies_correct HZ tv Hhz Hn ltac:(lia)) as [Hlo Hup].
    split; [done|]. eapply Z.le_trans; [eapply (one_tick_late _ (timeval_ns tv) (TICK_NSEC HZ) (SEC_JIFFIE_SC HZ) (tvl_sec tv) (TICK_NSEC HZ)); [lia..|exact Hup]|lia].
Qed.

(** With 300 Hz, 24 minutes of microseconds are infinite; with 100 Hz ten milliseconds,
    one tick, become two as a [timeval] and one as a [timespec]. *)
Lemma time_values_correct_witness :
  usecs_to_jiffies 300 1440000000 = MAX_JIFFY_OFFSET /\ msecs_to_jiffies 300 1440000 = 432000 /\
  timeval_to_jiffies 100 (Timeval 0 10000) = 2 /\ timespec_to_jiffies 100 (Timespec 0 10000000) = 1 /\
  set_normalized_timespec 5 1 (-1) = Some (Timespec 0 999999999).
Proof.
  assert (H300 : 300 ∈ config_hz) by (apply list_elem_of_In; simpl; tauto).
  destruct (time_values_correct 300 H300) as (Hset & _ & _ & _ & _ & _ & Hms & _).
  split; [rewrite (proj2 (Hms 1440000000 ltac:(lia))); reflexivity|].
  split; [rewrite (proj1 (Hms 1440000 ltac:(lia))); reflexivity|].
  split; [vm_compute; reflexivity|]. split; [vm_compute; reflexivity|].
  rewrite (Hset 5%nat 1 (-1)); [reflexivity|lia|vm_compute; reflexivity].
Defined.
