(* ===== verification/ListHead.v ===== *)
(** Doubly linked lists: include/linux/list.h on list heads in memory.

    A list is a ring of heads: [ring h x l] says that from [x] the [next] pointers
    lead through [l] back to [x], and the [prev] pointers the other way.  Each
    operation is shown to change the ring as its documentation says, at any place of
    any ring, and nothing else.  Code that reads a head that is not in memory is undefined. *)
From Stdlib Require Import ZArith Lia Bool.
From stdpp Require Import base numbers list option gmap sets.
From S2P Require Import Prelude.

Local Open Scope Z_scope.

(** * Definitions *)

Record list_head : Type := ListHead { next : ptr; prev : ptr }.
Abbreviation heads := (gmap ptr list_head).

Definition LIST_POISON1 : ptr := 0x00100100%positive.
Definition LIST_POISON2 : ptr := 0x00200200%positive.

(** [p->next], [p->prev] and the assignments to them. *)
Definition get_next (h : heads) (p : ptr) : option ptr := next <$> h !! p.
Definition get_prev (h : heads) (p : ptr) : option ptr := prev <$> h !! p.
Definition set_next (h : heads) (p n : ptr) : option heads :=
  x ← h !! p; Some (<[p := ListHead n (prev x)]> h).
Definition set_prev (h : heads) (p n : ptr) : option heads :=
  x ← h !! p; Some (<[p := ListHead (next x) n]> h).

Definition INIT_LIST_HEAD (h : heads) (list : ptr) : option heads :=
  h ← set_next h list list; set_prev h list list.

Definition __list_add (h : heads) (new prev next : ptr) : option heads :=
  h ← set_prev h next new;
  h ← set_next h new next;
  h ← set_prev h new prev;
  set_next h prev new.

Definition list_add (h : heads) (new head : ptr) : option heads :=
  n ← get_next h head; __list_add h new head n.

Definition list_add_tail (h : heads) (new head : ptr) : option heads :=
  p ← get_prev h head; __list_add h new p head.

Definition __list_del (h : heads) (prev next : ptr) : option heads :=
  h ← set_prev h next prev; set_next h prev next.

Definition list_del_links (h : heads) (entry : ptr) : option heads :=
  p ← get_prev h entry; n ← get_next h entry; __list_del h p n.

Definition list_del (h : heads) (entry : ptr) : option heads :=
  h ← list_del_links h entry;
  h ← set_next h entry LIST_POISON1;
  set_prev h entry LIST_POISON2.

Definition list_replace (h : heads) (old new : ptr) : option heads :=
  n ← get_next h old; h ← set_next h new n;
  n ← get_next h new; h ← set_prev h n new;
  p ← get_prev h old; h ← set_prev h new p;
  p ← get_prev h new; set_next h p new.

Definition list_replace_init (h : heads) (old new : ptr) : option heads :=
  h ← list_replace h old new; INIT_LIST_HEAD h old.

Definition list_del_init (h : heads) (entry : ptr) : option heads :=
  h ← list_del_links h entry; INIT_LIST_HEAD h entry.

Definition list_move (h : heads) (list head : ptr) : option heads :=
  h ← list_del_links h list; list_add h list head.

Definition list_move_tail (h : heads) (list head : ptr) : option heads :=
  h ← list_del_links h list; list_add_tail h list head.

Definition list_is_last (h : heads) (list head : ptr) : option bool :=
  n ← get_next h list; Some (bool_decide (n = head)).

Definition list_empty (h : heads) (head : ptr) : option bool :=
  n ← get_next h head; Some (bool_decide (n = head)).

Definition list_empty_careful (h : heads) (head : ptr) : option bool :=
  n ← get_next h head;
  if bool_decide (n = head) then p ← get_prev h head; Some (bool_decide (n = p)) else Some false.

Definition list_is_singular (h : heads) (head : ptr) : option bool :=
  e ← list_empty h head;
  if (e : bool) then Some false
  else n ← get_next h head; p ← get_prev h head; Some (bool_decide (n = p)).

Definition __list_cut_position (h : heads) (list head entry : ptr) : option heads :=
  new_first ← get_next h entry;
  n ← get_next h head; h ← set_next h list n;
  n ← get_next h list; h ← set_prev h n list;
  h ← set_prev h list entry;
  h ← set_next h entry list;
  h ← set_next h head new_first;
  set_prev h new_first head.

Definition list_cut_position (h : heads) (list head entry : ptr) : option heads :=
  e ← list_empty h head;
  if (e : bool) then Some h
  else
    s ← list_is_singular h head;
    n ← get_next h head;
    if (s : bool) && negb (bool_decide (n = entry)) && negb (bool_decide (head = entry)) then Some h
    else if bool_decide (entry = head) then INIT_LIST_HEAD h list
    else __list_cut_position h list head entry.

Definition __list_splice (h : heads) (list prev next : ptr) : option heads :=
  first ← get_next h list;
  last ← get_prev h list;
  h ← set_prev h first prev;
  h ← set_next h prev first;
  h ← set_next h last next;
  set_prev h next last.

Definition list_splice (h : heads) (list head : ptr) : option heads :=
  e ← list_empty h list;
  if negb e then n ← get_next h head; __list_splice h list head n else Some h.

Definition list_splice_tail (h : heads) (list head : ptr) : option heads :=
  e ← list_empty h list;
  if negb e then p ← get_prev h head; __list_splice h list p head else Some h.

Definition list_splice_init (h : heads) (list head : ptr) : option heads :=
  e ← list_empty h list;
  if negb e then n ← get_next h head; h ← __list_splice h list head n; INIT_LIST_HEAD h list else Some h.

Definition list_splice_tail_init (h : heads) (list head : ptr) : option heads :=
  e ← list_empty h list;
  if negb e then p ← get_prev h head; h ← __list_splice h list p head; INIT_LIST_HEAD h list else Some h.

(** * Rings *)

(** [y] follows [x]. *)
Definition link (h : heads) (x y : ptr) : Prop := get_next h x = Some y /\ get_prev h y = Some x.

(** From [x] through [l] to [y]. *)
Fixpoint seg (h : heads) (x : ptr) (l : list ptr) (y : ptr) : Prop :=
  match l with
  | [] => link h x y
  | z :: l => link h x z /\ seg h z l y
  end.

(** The list with head [x] and entries [l]. *)
Definition ring (h : heads) (x : ptr) (l : list ptr) : Prop := NoDup (x :: l) /\ seg h x l x.

(** The head [x] has the same pointers in both memories. *)
Definition same_at (h h' : heads) (x : ptr) : Prop :=
  get_next h' x = get_next h x /\ get_prev h' x = get_prev h x.

Lemma seg_app h x l1 z l2 y : seg h x (l1 ++ z :: l2) y <-> seg h x l1 z /\ seg h z l2 y.
Proof. revert x. induction l1 as [|w l1 IH]; intros x; simpl; [done|]. rewrite IH. tauto. Qed.

(** Every entry of a ring can be taken as its head. *)
Lemma ring_rotate h x l1 y l2 : ring h x (l1 ++ y :: l2) <-> ring h y (l2 ++ x :: l1).
Proof.
  assert (E : x :: l1 ++ y :: l2 ≡ₚ y :: l2 ++ x :: l1) by solve_Permutation.
  unfold ring. rewrite !seg_app. rewrite E. tauto.
Qed.

(** A stretch depends on the pointers between its ends only. *)
Lemma seg_frame h h' x l y :
  (forall p, p ∈ x :: l -> get_next h' p = get_next h p) ->
  (forall p, p ∈ l ++ [y] -> get_prev h' p = get_prev h p) ->
  seg h x l y -> seg h' x l y.
Proof.
  revert x. induction l as [|z l IH]; intros x Hn Hp; simpl.
  - unfold link. rewrite Hn, Hp by set_solver. done.
  - intros [[H1 H2] Hs]. unfold link. rewrite Hn, Hp by set_solver. split; [done|].
    apply IH; [..|done]; intros p Hin; [apply Hn|apply Hp]; set_solver.
Qed.

(** * The assignments *)

Lemma set_next_spec h p n :
  is_Some (get_next h p) -> exists h', set_next h p n = Some h' /\
    (forall q, get_next h' q = if decide (q = p) then Some n else get_next h q) /\
    (forall q, get_prev h' q = get_prev h q).
Proof.
  unfold set_next, get_next, get_prev. intros [x Hx]. apply fmap_Some in Hx as (y & Hy & _). rewrite Hy.
  eexists. split; [done|]. split; intros q; destruct (decide (q = p)) as [->|];
    rewrite ?lookup_insert_eq, ?lookup_insert_ne by done; try done. by rewrite Hy.
Qed.

Lemma set_prev_spec h p n :
  is_Some (get_next h p) -> exists h', set_prev h p n = Some h' /\
    (forall q, get_next h' q = get_next h q) /\
    (forall q, get_prev h' q = if decide (q = p) then Some n else get_prev h q).
Proof.
  unfold set_prev, get_next, get_prev. intros [x Hx]. apply fmap_Some in Hx as (y & Hy & _). rewrite Hy.
  eexists. split; [done|]. split; intros q; destruct (decide (q = p)) as [->|];
    rewrite ?lookup_insert_eq, ?lookup_insert_ne by done; try done. by rewrite Hy.
Qed.

Lemma next_prev_Some h p : is_Some (get_next h p) <-> is_Some (get_prev h p).
Proof. unfold get_next, get_prev. by rewrite !fmap_is_Some. Qed.

(** Runs one assignment; [N] and [P] describe the pointers after it. *)
Ltac assign h' N P :=
  match goal with
  | |- context [set_next ?h ?p ?n] =>
      let E := fresh in destruct (set_next_spec h p n) as (h' & E & N & P); [|rewrite E; clear E; simpl]
  | |- context [set_prev ?h ?p ?n] =>
      let E := fresh in destruct (set_prev_spec h p n) as (h' & E & N & P); [|rewrite E; clear E; simpl]
  end.

Lemma INIT_LIST_HEAD_spec h x :
  is_Some (get_next h x) -> exists h', INIT_LIST_HEAD h x = Some h' /\ ring h' x [] /\
    forall q, q <> x -> same_at h h' q.
Proof.
  intros Hx. unfold INIT_LIST_HEAD. assign h1 N1 P1; [done|]. assign h2 N2 P2; [by rewrite N1, decide_True|].
  exists h2. split; [done|]. split.
  - split; [apply list.NoDup_singleton|]. split; [by rewrite N2, N1, decide_True|by rewrite P2, decide_True].
  - intros q Hq. split; [by rewrite N2, N1, decide_False|by rewrite P2, P1, decide_False].
Qed.

Lemma __list_add_effect h new p n :
  is_Some (get_next h new) -> is_Some (get_next h p) -> is_Some (get_next h n) -> new <> p -> new <> n ->
  exists h', __list_add h new p n = Some h' /\
    (forall q, get_next h' q = if decide (q = p) then Some new else if decide (q = new) then Some n else get_next h q) /\
    (forall q, get_prev h' q = if decide (q = new) then Some p else if decide (q = n) then Some new else get_prev h q).
Proof.
  intros Hnew Hp Hn Hnp Hnn. unfold __list_add.
  assign h1 N1 P1; [done|]. assign h2 N2 P2; [by rewrite N1|].
  assign h3 N3 P3; [by rewrite N2, decide_True|].
  assign h4 N4 P4; [by rewrite N3, N2, decide_False, N1|].
  exists h4. split; [done|]. split; intros q.
  - rewrite N4, N3, N2, N1. done.
  - rewrite P4, P3, P2, P1. done.
Qed.

Lemma __list_del_effect h p n :
  is_Some (get_next h p) -> is_Some (get_next h n) ->
  exists h', __list_del h p n = Some h' /\
    (forall q, get_next h' q = if decide (q = p) then Some n else get_next h q) /\
    (forall q, get_prev h' q = if decide (q = n) then Some p else get_prev h q).
Proof.
  intros Hp Hn. unfold __list_del. assign h1 N1 P1; [done|]. assign h2 N2 P2; [by rewrite N1|].
  exists h2. split; [done|]. split; intros q; [by rewrite N2, N1|by rewrite P2, P1].
Qed.

(** * Places in a ring *)

Lemma seg_first h x l y : seg h x l y -> get_next h x = Some (hd y l).
Proof. destruct l; [by intros []|by intros [[] _]]. Qed.

Lemma seg_last h x l y : seg h x l y -> get_prev h y = Some (List.last l x).
Proof.
  revert x. induction l as [|z l IH]; intros x; [by intros []|]. intros [_ Hs]. rewrite (IH z Hs).
  f_equal. destruct l; [done|]. simpl. clear. revert p. induction l; intros; [done|]. simpl. done.
Qed.

Lemma seg_in h x l y p : seg h x l y -> p ∈ x :: l -> is_Some (get_next h p).
Proof.
  revert x. induction l as [|z l IH]; intros x.
  - intros [Hx _] ->%list_elem_of_singleton. by eexists.
  - intros [[Hx _] Hs] [->|Hin]%elem_of_cons; [by eexists|]. by apply (IH z).
Qed.

Lemma ring_in h x l p : ring h x l -> p ∈ x :: l -> is_Some (get_next h p).
Proof. intros [_ Hs]. by eapply seg_in. Qed.

(** Insertion behind the head, wherever the head is. *)
Lemma add_between h new p l :
  ring h p l -> new ∉ p :: l -> is_Some (get_next h new) ->
  exists h', __list_add h new p (hd p l) = Some h' /\ ring h' p (new :: l) /\
    forall q, q ∉ new :: p :: l -> same_at h h' q.
Proof.
  intros Hr Hnew Hs. pose proof Hr as [Hnd Hseg].
  assert (Hp : is_Some (get_next h p)) by (eapply ring_in; [done|set_solver]).
  assert (Hn : hd p l ∈ p :: l) by (destruct l; set_solver).
  destruct (__list_add_effect h new p (hd p l)) as (h' & Hrun & N & P);
    [done|done|by eapply ring_in|set_solver..|].
  exists h'. split; [done|]. split; [split|].
  - apply list.NoDup_cons in Hnd as [H1 H2]. rewrite !list.NoDup_cons. set_solver.
  - simpl. split; [split|].
    + by rewrite N, decide_True.
    + by rewrite P, decide_True.
    + destruct l as [|z l]; simpl in *.
      * split; [rewrite N, decide_False, decide_True by set_solver|rewrite P, decide_False, decide_True by set_solver]; done.
      * apply list.NoDup_cons in Hnd as [H1 H2]. pose proof H2 as [H3 H4]%list.NoDup_cons. split.
        -- split; [rewrite N, decide_False, decide_True by set_solver|rewrite P, decide_False, decide_True by set_solver]; done.
        -- apply (seg_frame h); [| |apply Hseg]; intros q Hq; [rewrite N, !decide_False by set_solver|rewrite P, !decide_False by set_solver]; done.
  - intros q Hq. split; [rewrite N, !decide_False by set_solver|rewrite P, !decide_False by set_solver]; done.
Qed.

(** Removal of the entry behind the head. *)
Lemma del_between h p e l :
  ring h p (e :: l) ->
  exists h', __list_del h p (hd p l) = Some h' /\ ring h' p l /\ forall q, q ∉ p :: l -> same_at h h' q.
Proof.
  intros Hr. pose proof Hr as [Hnd Hseg].
  assert (Hn : hd p l ∈ p :: l) by (destruct l; set_solver).
  destruct (__list_del_effect h p (hd p l)) as (h' & Hrun & N & P);
    [eapply ring_in; [done|set_solver]|eapply ring_in; [done|set_solver]|].
  exists h'. split; [done|].
  apply list.NoDup_cons in Hnd as [H1 H2]. pose proof H2 as [H3 H4]%list.NoDup_cons.
  split; [split|].
  - rewrite list.NoDup_cons. set_solver.
  - destruct l as [|z l]; simpl in *.
    + split; [by rewrite N, decide_True|by rewrite P, decide_True].
    + pose proof H4 as [H5 H6]%list.NoDup_cons. split.
      * split; [by rewrite N, decide_True|by rewrite P, decide_True].
      * apply (seg_frame h); [| |apply Hseg]; intros q Hq; [rewrite N, !decide_False by set_solver|rewrite P, !decide_False by set_solver]; done.
  - intros q Hq. split; [rewrite N, !decide_False by set_solver|rewrite P, !decide_False by set_solver]; done.
Qed.

Lemma ring_frame h h' x l : (forall q, q ∈ x :: l -> same_at h h' q) -> ring h x l -> ring h' x l.
Proof.
  intros Hs [Hnd Hseg]. split; [done|]. apply (seg_frame h); [..|done]; intros q Hq; apply Hs; set_solver.
Qed.

(** * The operations *)

Lemma list_add_spec h new x l :
  ring h x l -> new ∉ x :: l -> is_Some (get_next h new) ->
  exists h', list_add h new x = Some h' /\ ring h' x (new :: l) /\ forall q, q ∉ new :: x :: l -> same_at h h' q.
Proof.
  intros Hr Hnew Hs. unfold list_add. rewrite (seg_first h x l x) by apply Hr. by apply add_between.
Qed.

Lemma list_add_tail_spec h new x l :
  ring h x l -> new ∉ x :: l -> is_Some (get_next h new) ->
  exists h', list_add_tail h new x = Some h' /\ ring h' x (l ++ [new]) /\ forall q, q ∉ new :: x :: l -> same_at h h' q.
Proof.
  intros Hr Hnew Hs. unfold list_add_tail. rewrite (seg_last h x l x) by apply Hr.
  destruct l as [|p l _] using rev_ind; [by apply (add_between h new x [])|].
  rewrite List.last_last. apply (ring_rotate h x l p []) in Hr.
  destruct (add_between h new p (x :: l) Hr) as (h' & Hrun & Hr' & Hsame); [set_solver|done|].
  exists h'. split; [done|]. split; [|intros q Hq; apply Hsame; set_solver].
  apply (ring_rotate h' p [new] x l) in Hr'. by rewrite <- app_assoc.
Qed.

(** Taking out the head of a ring leaves the ring of the others. *)
Lemma del_links_spec h e l p :
  ring h e (l ++ [p]) ->
  exists h', list_del_links h e = Some h' /\ ring h' p l /\ forall q, q ∉ p :: l -> same_at h h' q.
Proof.
  intros Hr. unfold list_del_links. rewrite (seg_first h e _ e), (seg_last h e _ e) by apply Hr.
  simpl. rewrite List.last_last. apply (ring_rotate h e l p []) in Hr.
  replace (hd e (l ++ [p])) with (hd p l) by (by destruct l). by apply (del_between h p e l).
Qed.

Lemma del_links_empty h e :
  ring h e [] -> exists h', list_del_links h e = Some h' /\ ring h' e [] /\ forall q, q <> e -> same_at h h' q.
Proof.
  intros Hr. pose proof Hr as [_ [Hn Hp]]. unfold list_del_links. rewrite Hn, Hp. simpl.
  destruct (__list_del_effect h e e) as (h' & Hrun & N & P); [by eexists..|].
  exists h'. split; [done|]. split.
  - split; [apply list.NoDup_singleton|]. split; [by rewrite N, decide_True|by rewrite P, decide_True].
  - intros q Hq. split; [by rewrite N, decide_False|by rewrite P, decide_False].
Qed.

(** The same for an entry. *)
Lemma del_entry_spec h x l1 e l2 :
  ring h x (l1 ++ e :: l2) ->
  exists h', list_del_links h e = Some h' /\ ring h' x (l1 ++ l2) /\ forall q, q ∉ x :: l1 ++ l2 -> same_at h h' q.
Proof.
  intros Hr. apply ring_rotate in Hr. destruct l1 as [|p l1 _] using rev_ind.
  - apply (del_links_spec h e l2 x) in Hr. done.
  - replace (l2 ++ x :: l1 ++ [p]) with ((l2 ++ x :: l1) ++ [p]) in Hr by (by rewrite <- app_assoc).
    destruct (del_links_spec h e _ p Hr) as (h' & Hrun & Hr' & Hsame). exists h'. split; [done|].
    apply ring_rotate in Hr'. rewrite <- app_assoc. split; [done|]. intros q Hq. apply Hsame. set_solver.
Qed.

Lemma ring_NoDup_mid h x l1 e l2 : ring h x (l1 ++ e :: l2) -> e ∉ x :: l1 ++ l2.
Proof.
  intros [Hnd _]. assert (E : x :: l1 ++ e :: l2 ≡ₚ e :: x :: l1 ++ l2) by solve_Permutation.
  rewrite E, list.NoDup_cons in Hnd. by destruct Hnd.
Qed.

Lemma same_at_next h h' q : same_at h h' q -> is_Some (get_next h q) -> is_Some (get_next h' q).
Proof. intros [-> _]. done. Qed.

(** Everything outside [l] is the same in both memories. *)
Definition only_changes (h h' : heads) (l : list ptr) : Prop := forall q, q ∉ l -> same_at h h' q.

Lemma only_changes_trans h1 h2 h3 l :
  only_changes h1 h2 l -> only_changes h2 h3 l -> only_changes h1 h3 l.
Proof. intros H12 H23 q Hq. destruct (H12 q Hq), (H23 q Hq). split; congruence. Qed.

Lemma only_changes_mono h h' l l' : only_changes h h' l -> (forall q, q ∈ l -> q ∈ l') -> only_changes h h' l'.
Proof. intros H Hl q Hq. apply H. auto. Qed.

Lemma list_del_init_spec h x l1 e l2 :
  ring h x (l1 ++ e :: l2) ->
  exists h', list_del_init h e = Some h' /\ ring h' x (l1 ++ l2) /\ ring h' e [] /\
    only_changes h h' (x :: l1 ++ e :: l2).
Proof.
  intros Hr. unfold list_del_init. pose proof (ring_NoDup_mid _ _ _ _ _ Hr) as He.
  destruct (del_entry_spec h x l1 e l2 Hr) as (h1 & -> & Hr1 & Hs1). simpl.
  destruct (INIT_LIST_HEAD_spec h1 e) as (h2 & -> & Hr2 & Hs2).
  { eapply same_at_next; [by apply Hs1|]. eapply ring_in; [done|set_solver]. }
  exists h2. split; [done|]. split_and!; [|done|].
  - eapply ring_frame; [|done]. intros q Hq. apply Hs2. set_solver.
  - eapply only_changes_trans; [intros q Hq; apply Hs1; set_solver|]. intros q Hq. apply Hs2. set_solver.
Qed.

Lemma list_del_ring h x l1 e l2 :
  ring h x (l1 ++ e :: l2) ->
  exists h', list_del h e = Some h' /\ ring h' x (l1 ++ l2) /\
    get_next h' e = Some LIST_POISON1 /\ get_prev h' e = Some LIST_POISON2 /\ only_changes h h' (x :: l1 ++ e :: l2).
Proof.
  intros Hr. unfold list_del. pose proof (ring_NoDup_mid _ _ _ _ _ Hr) as He.
  destruct (del_entry_spec h x l1 e l2 Hr) as (h1 & -> & Hr1 & Hs1). simpl.
  assert (He1 : is_Some (get_next h1 e)).
  { eapply same_at_next; [by apply Hs1|]. eapply ring_in; [done|set_solver]. }
  assign h2 N2 P2; [done|]. assign h3 N3 P3; [by rewrite N2, decide_True|].
  exists h3. split; [done|]. split_and!.
  - eapply (ring_frame h1); [|done]. intros q Hq. assert (q <> e) by set_solver.
    split; [by rewrite N3, N2, decide_False|by rewrite P3, decide_False].
  - by rewrite N3, N2, decide_True.
  - by rewrite P3, decide_True.
  - eapply only_changes_trans; [intros q Hq; apply Hs1; set_solver|]. intros q Hq. assert (q <> e) by set_solver.
    split; [by rewrite N3, N2, decide_False|by rewrite P3, P2, decide_False].
Qed.

Lemma disjoint_rings h x l y m : ring h x l -> ring h y m -> (forall q, q ∈ x :: l -> q ∉ y :: m) -> NoDup (x :: l ++ y :: m).
Proof. intros [H1 _] [H2 _] Hd. apply (list.NoDup_app (x :: l)). done. Qed.

(** Moving an entry to another list, or to the end of its own. *)
Lemma list_move_spec h x l1 e l2 y m :
  ring h x (l1 ++ e :: l2) -> ring h y m -> (forall q, q ∈ x :: l1 ++ e :: l2 -> q ∉ y :: m) ->
  (exists h', list_move h e y = Some h' /\ ring h' x (l1 ++ l2) /\ ring h' y (e :: m) /\
     only_changes h h' (x :: l1 ++ e :: l2 ++ y :: m)) /\
  (exists h', list_move_tail h e y = Some h' /\ ring h' x (l1 ++ l2) /\ ring h' y (m ++ [e]) /\
     only_changes h h' (x :: l1 ++ e :: l2 ++ y :: m)).
Proof.
  intros Hx Hy Hd. unfold list_move, list_move_tail. pose proof (ring_NoDup_mid _ _ _ _ _ Hx) as He.
  destruct (del_entry_spec h x l1 e l2 Hx) as (h1 & -> & Hr1 & Hs1). simpl.
  assert (He1 : is_Some (get_next h1 e)).
  { eapply same_at_next; [by apply Hs1|]. eapply ring_in; [exact Hx|set_solver]. }
  assert (Hy1 : ring h1 y m) by (eapply ring_frame; [|exact Hy]; intros q Hq; apply Hs1; set_solver).
  assert (Hey : e ∉ y :: m) by (apply Hd; set_solver).
  split; [destruct (list_add_spec h1 e y m Hy1 Hey He1) as (h2 & -> & Hr2 & Hs2)|
          destruct (list_add_tail_spec h1 e y m Hy1 Hey He1) as (h2 & -> & Hr2 & Hs2)];
    (exists h2; split; [done|]; split_and!; [|done|]).
  1, 3: eapply ring_frame; [|exact Hr1]; intros q Hq; apply Hs2; set_solver.
  all: eapply only_changes_trans; [intros q Hq; apply Hs1|intros q Hq; apply Hs2]; set_solver.
Qed.

Lemma list_move_tail_own h x l1 e l2 :
  ring h x (l1 ++ e :: l2) ->
  exists h', list_move_tail h e x = Some h' /\ ring h' x (l1 ++ l2 ++ [e]) /\ only_changes h h' (x :: l1 ++ e :: l2).
Proof.
  intros Hx. unfold list_move_tail. pose proof (ring_NoDup_mid _ _ _ _ _ Hx) as He.
  destruct (del_entry_spec h x l1 e l2 Hx) as (h1 & -> & Hr1 & Hs1). simpl.
  destruct (list_add_tail_spec h1 e x (l1 ++ l2) Hr1 He) as (h2 & -> & Hr2 & Hs2).
  { eapply same_at_next; [by apply Hs1|]. eapply ring_in; [done|set_solver]. }
  exists h2. split; [done|]. rewrite app_assoc. split; [done|].
  eapply only_changes_trans; [intros q Hq; apply Hs1|intros q Hq; apply Hs2]; set_solver.
Qed.

(** A stretch that gets a new beginning. *)
Lemma seg_rehead h h' x y l z :
  seg h y l z -> link h' x (hd z l) ->
  (forall p, p ∈ l -> get_next h' p = get_next h p) ->
  (forall p, p ∈ tail (l ++ [z]) -> get_prev h' p = get_prev h p) ->
  seg h' x l z.
Proof.
  destruct l as [|w l]; simpl; [done|]. intros [_ Hs] Hl Hn Hp. split; [done|].
  by apply (seg_frame h).
Qed.

Lemma tail_not_hd (l : list ptr) z p : NoDup (l ++ [z]) -> p ∈ tail (l ++ [z]) -> p <> hd z l /\ p ∈ l ++ [z].
Proof.
  destruct l as [|w l]; simpl; [intros _ ?%elem_of_nil; done|].
  intros [Hw _]%list.NoDup_cons Hp. split; [by intros ->|set_solver].
Qed.

(** The ring after [l ++ [z]] was linked in behind [x]. *)
Lemma joined_ring h h' y l z x m :
  NoDup (l ++ z :: x :: m) -> seg h y l z -> seg h x m x ->
  (forall q, get_next h' q = if decide (q = z) then Some (hd x m) else if decide (q = x) then Some (hd z l) else get_next h q) ->
  (forall q, get_prev h' q = if decide (q = hd x m) then Some z else if decide (q = hd z l) then Some x else get_prev h q) ->
  ring h' x (l ++ z :: m) /\ only_changes h h' (l ++ z :: x :: m).
Proof.
  intros Hnd Hl Hm N P.
  assert (E : l ++ z :: x :: m ≡ₚ (l ++ [z]) ++ (m ++ [x])) by solve_Permutation.
  assert (Ex : l ++ z :: x :: m ≡ₚ x :: l ++ z :: m) by solve_Permutation.
  pose proof Hnd as Hnd'. rewrite E in Hnd'. apply list.NoDup_app in Hnd' as (Hndl & Hdis & Hndm).
  assert (Hf : hd z l ∈ l ++ [z]) by (destruct l; set_solver). assert (Hn : hd x m ∈ m ++ [x]) by (destruct m; set_solver).
  assert (Hzl : z ∉ l) by (intros Hz; apply list.NoDup_app in Hndl as (_ & H & _); apply (H z); set_solver).
  assert (Hxm : x ∉ m) by (intros Hz; apply list.NoDup_app in Hndm as (_ & H & _); apply (H x); set_solver).
  assert (Hzx : z <> x) by (intros Ez; apply (Hdis z); [|rewrite Ez]; set_solver).
  assert (Hff : hd z l <> hd x m) by (intros Eh; apply (Hdis (hd z l)); [done|by rewrite Eh]).
  split; [split; [by rewrite <- Ex|apply seg_app; split]|].
  - apply (seg_rehead h h' x y l z Hl).
    + split; [by rewrite N, decide_False, decide_True|by rewrite P, decide_False, decide_True].
    + intros p Hp. rewrite N, !decide_False; [done| |]; intros ->; [|done]. apply (Hdis x); set_solver.
    + intros p Hp. destruct (tail_not_hd l z p Hndl Hp) as [Hph Hpi]. rewrite P, !decide_False; [done|done|].
      intros ->. by apply (Hdis (hd x m)).
  - apply (seg_rehead h h' z x m x Hm).
    + split; [by rewrite N, decide_True|by rewrite P, decide_True].
    + intros p Hp. rewrite N, !decide_False; [done| |]; intros ->; [done|]. apply (Hdis z); set_solver.
    + intros p Hp. destruct (tail_not_hd m x p Hndm Hp) as [Hph Hpi]. rewrite P, !decide_False; [done| |done].
      intros ->. by apply (Hdis (hd z l)).
  - intros q Hq. split; [rewrite N, !decide_False by set_solver; done|].
    rewrite P, !decide_False; [done| |]; intros ->; apply Hq; rewrite E; set_solver.
Qed.

Lemma splice_between h y l x m :
  ring h y l -> l <> [] -> ring h x m -> (forall q, q ∈ y :: l -> q ∉ x :: m) ->
  exists h', __list_splice h y x (hd x m) = Some h' /\ ring h' x (l ++ m) /\ only_changes h h' (l ++ x :: m).
Proof.
  intros Hy Hl Hx Hd. destruct l as [|z l _] using rev_ind; [done|clear Hl].
  pose proof Hy as [Hndy Hsy]. pose proof Hx as [Hndx Hsx].
  pose proof (disjoint_rings h y (l ++ [z]) x m Hy Hx Hd) as Hnd.
  unfold __list_splice. rewrite (seg_first _ _ _ _ Hsy), (seg_last _ _ _ _ Hsy). simpl. rewrite List.last_last.
  replace (hd y (l ++ [z])) with (hd z l) by (by destruct l). apply seg_app in Hsy as [Hs1 Hs2].
  assert (Hz : forall q, q ∈ l ++ [z] \/ q ∈ x :: m -> is_Some (get_next h q)).
  { intros q [Hq|Hq]; [eapply (ring_in h y); [exact Hy|]|eapply ring_in; [exact Hx|]]; set_solver. }
  assert (Hf : hd z l ∈ l ++ [z]) by (destruct l; set_solver). assert (Hn : hd x m ∈ x :: m) by (destruct m; set_solver).
  assign h1 N1 P1; [by auto|]. assign h2 N2 P2; [rewrite N1; apply Hz; set_solver|].
  assert (Hzx : z <> x) by (intros E; apply (Hd z); [|rewrite E]; set_solver).
  assign h3 N3 P3; [rewrite N2, decide_False, N1 by done; apply Hz; set_solver|].
  assign h4 N4 P4.
  { rewrite N3, N2, N1. repeat case_decide; [by eexists..|]. by auto. }
  exists h4. split; [done|].
  assert (N : forall q, get_next h4 q = if decide (q = z) then Some (hd x m) else if decide (q = x) then Some (hd z l) else get_next h q)
    by (intros q; by rewrite N4, N3, N2, N1).
  assert (P : forall q, get_prev h4 q = if decide (q = hd x m) then Some z else if decide (q = hd z l) then Some x else get_prev h q)
    by (intros q; by rewrite P4, P3, P2, P1).
  apply list.NoDup_cons in Hnd as [_ Hnd]. rewrite <- app_assoc in Hnd |- *.
  destruct (joined_ring h h4 y l z x m Hnd Hs1 Hsx N P) as [Hr Ho]. split; [done|].
  by rewrite <- app_assoc.
Qed.

(** * Tests *)

Lemma list_empty_spec h x l : ring h x l -> list_empty h x = Some (bool_decide (l = [])).
Proof.
  intros [Hnd Hs]. unfold list_empty. rewrite (seg_first _ _ _ _ Hs). simpl. f_equal. apply bool_decide_ext.
  destruct l as [|z l]; simpl; [done|]. apply list.NoDup_cons in Hnd as [Hx _]. split; [intros ->; set_solver|done].
Qed.

Lemma list_tests_spec h x l :
  ring h x l ->
  list_empty_careful h x = Some (bool_decide (l = [])) /\
  list_is_singular h x = Some (bool_decide (length l = 1%nat)) /\
  forall l1 e l2, l = l1 ++ e :: l2 -> list_is_last h e x = Some (bool_decide (l2 = [])).
Proof.
  intros Hr. pose proof Hr as [Hnd Hs]. pose proof (list_empty_spec h x l Hr) as He. split_and!.
  - unfold list_empty_careful. rewrite (seg_first _ _ _ _ Hs), (seg_last _ _ _ _ Hs). simpl.
    destruct l as [|z l]; simpl; [by rewrite !bool_decide_eq_true_2|].
    apply list.NoDup_cons in Hnd as [Hx _]. rewrite bool_decide_eq_false_2; [done|intros ->; set_solver].
  - unfold list_is_singular. rewrite He. simpl. destruct l as [|z l]; [done|].
    rewrite bool_decide_eq_false_2 by done. rewrite (seg_first _ _ _ _ Hs), (seg_last _ _ _ _ Hs). simpl hd. cbn [mbind option_bind].
    f_equal. apply bool_decide_ext. apply list.NoDup_cons in Hnd as [_ Hnd]. destruct l as [|w l _] using rev_ind; [done|].
    change (z :: l ++ [w]) with ((z :: l) ++ [w]) in *. rewrite List.last_last. rewrite length_app. simpl.
    apply list.NoDup_app in Hnd as (_ & Hd & _). split; [intros ->; exfalso; apply (Hd w); set_solver|lia].
  - intros l1 e l2 ->. unfold list_is_last. apply seg_app in Hs as [_ Hs]. rewrite (seg_first _ _ _ _ Hs). simpl. f_equal.
    apply bool_decide_ext. destruct l2 as [|f l2]; [done|]. simpl. apply list.NoDup_cons in Hnd as [Hx _].
    split; [intros ->; set_solver|done].
Qed.

(** * Whole lists *)

Lemma list_splice_spec h y l x m :
  ring h y l -> ring h x m -> (forall q, q ∈ y :: l -> q ∉ x :: m) ->
  (exists h', list_splice h y x = Some h' /\ ring h' x (l ++ m) /\ only_changes h h' (l ++ x :: m)) /\
  (exists h', list_splice_tail h y x = Some h' /\ ring h' x (m ++ l) /\ only_changes h h' (l ++ x :: m)).
Proof.
  intros Hy Hx Hd. unfold list_splice, list_splice_tail. rewrite (list_empty_spec h y l Hy). simpl.
  case_bool_decide as E; simpl.
  - subst l. rewrite app_nil_r. split; exists h; (split; [done|]; split; [done|by intros q _]).
  - rewrite (seg_first h x m x), (seg_last h x m x) by apply Hx. simpl. split; [by apply splice_between|].
    destruct m as [|p m _] using rev_ind.
    { destruct (splice_between h y l x [] Hy E Hx Hd) as (h' & Hrun & Hr & Ho). rewrite app_nil_r in Hr. by exists h'. }
    rewrite List.last_last. apply (ring_rotate h x m p []) in Hx.
    destruct (splice_between h y l p (x :: m) Hy E Hx) as (h' & Hrun & Hr & Ho); [set_solver|].
    exists h'. split; [done|]. apply ring_rotate in Hr. rewrite <- app_assoc. split; [done|].
    eapply only_changes_mono; [done|set_solver].
Qed.

Lemma list_splice_init_spec h y l x m :
  ring h y l -> ring h x m -> (forall q, q ∈ y :: l -> q ∉ x :: m) ->
  (exists h', list_splice_init h y x = Some h' /\ ring h' x (l ++ m) /\ ring h' y [] /\ only_changes h h' (y :: l ++ x :: m)) /\
  (exists h', list_splice_tail_init h y x = Some h' /\ ring h' x (m ++ l) /\ ring h' y [] /\
     only_changes h h' (y :: l ++ x :: m)).
Proof.
  intros Hy Hx Hd. destruct (list_splice_spec h y l x m Hy Hx Hd) as [(h1 & R1 & Hr1 & Ho1) (h2 & R2 & Hr2 & Ho2)].
  unfold list_splice, list_splice_tail, list_splice_init, list_splice_tail_init in *.
  rewrite (list_empty_spec h y l Hy) in *. simpl in *. case_bool_decide as E; simpl in *.
  - simplify_eq. split; eexists; (split; [done|]; split_and!; [done|done|by intros q _]).
  - assert (Hyn : y ∉ l ++ x :: m).
    { pose proof (disjoint_rings h y l x m Hy Hx Hd) as [? _]%list.NoDup_cons. done. }
    assert (Hys : is_Some (get_next h y)) by (eapply ring_in; [exact Hy|set_solver]).
    assert (Hfin : forall h0 r, only_changes h h0 (l ++ x :: m) -> ring h0 x r -> (forall q, q ∈ r -> q ∈ l ++ m) ->
      exists h', INIT_LIST_HEAD h0 y = Some h' /\ ring h' x r /\ ring h' y [] /\ only_changes h h' (y :: l ++ x :: m)).
    { intros h0 r Ho Hr Hsub. destruct (INIT_LIST_HEAD_spec h0 y) as (h' & -> & Hry & Hs').
      { eapply same_at_next; [by apply Ho|done]. }
      exists h'. split; [done|]. split_and!; [|done|].
      - eapply ring_frame; [|exact Hr]. intros q Hq. apply Hs'. intros ->. apply Hyn. set_solver.
      - eapply only_changes_trans; [eapply only_changes_mono; [exact Ho|set_solver]|]. intros q Hq. apply Hs'. set_solver. }
    split.
    + destruct (get_next h x); [|done]. simpl in *. rewrite R1. simpl. apply Hfin; [done|done|set_solver].
    + destruct (get_prev h x); [|done]. simpl in *. rewrite R2. simpl. apply Hfin; [done|done|set_solver].
Qed.

(** [new] in the place of [old], an entry or the head of a list that is not empty. *)
Lemma list_replace_spec h old new l p :
  ring h old (l ++ [p]) -> new ∉ old :: l ++ [p] -> is_Some (get_next h new) ->
  exists h', list_replace h old new = Some h' /\ ring h' new (l ++ [p]) /\ only_changes h h' (new :: l ++ [p]).
Proof.
  intros Hr Hnew Hsn. pose proof Hr as [Hnd Hs]. unfold list_replace.
  rewrite (seg_first _ _ _ _ Hs). simpl. assign h1 N1 P1; [done|].
  rewrite N1, decide_True by done. simpl. set (f := hd old (l ++ [p])).
  assert (Hf : f ∈ l ++ [p] /\ f = hd p l) by (unfold f; destruct l; set_solver). destruct Hf as [Hf Ef].
  assert (Hfn : f <> new) by (intros ->; set_solver). assert (Hpn : p <> new) by (intros ->; set_solver).
  assert (Hof : old <> f) by (intros E; apply list.NoDup_cons in Hnd as [Ho _]; by rewrite E in Ho).
  assign h2 N2 P2; [rewrite N1, decide_False by done; eapply ring_in; [done|set_solver]|].
  rewrite P2, P1, decide_False by done. rewrite (seg_last _ _ _ _ Hs), List.last_last. simpl.
  assign h3 N3 P3; [by rewrite N2, N1, decide_True|].
  rewrite P3, decide_True by done. simpl.
  assign h4 N4 P4; [rewrite N3, N2, N1, decide_False by done; eapply ring_in; [done|set_solver]|].
  exists h4. split; [done|].
  assert (N : forall q, get_next h4 q = if decide (q = p) then Some new else if decide (q = new) then Some f else get_next h q)
    by (intros q; by rewrite N4, N3, N2, N1).
  assert (P : forall q, get_prev h4 q = if decide (q = new) then Some p else if decide (q = f) then Some new else get_prev h q)
    by (intros q; by rewrite P4, P3, P2, P1).
  apply list.NoDup_cons in Hnd as [Hold Hnd]. apply seg_app in Hs as [Hs _].
  split; [split|].
  - apply list.NoDup_cons. split; [set_solver|done].
  - apply seg_app. split; [|split; [by rewrite N, decide_True|by rewrite P, decide_True]].
    apply (seg_rehead h h4 new old l p Hs).
    + rewrite <- Ef. split; [rewrite N, decide_False, decide_True|rewrite P, decide_False, decide_True]; done.
    + intros q Hq. rewrite N, !decide_False; [done|intros ->; set_solver|].
      intros ->. apply list.NoDup_app in Hnd as (_ & Hd & _). apply (Hd p); set_solver.
    + intros q Hq. destruct (tail_not_hd l p q Hnd Hq) as [Hqh Hqi].
      rewrite P, !decide_False; [done|congruence|intros ->; set_solver].
  - intros q Hq. split; [rewrite N, !decide_False by set_solver; done|].
    rewrite P, !decide_False; [done|intros ->; set_solver|set_solver].
Qed.

Lemma list_replace_init_spec h old new l p :
  ring h old (l ++ [p]) -> new ∉ old :: l ++ [p] -> is_Some (get_next h new) ->
  exists h', list_replace_init h old new = Some h' /\ ring h' new (l ++ [p]) /\ ring h' old [] /\
    only_changes h h' (old :: new :: l ++ [p]).
Proof.
  intros Hr Hnew Hsn. unfold list_replace_init.
  destruct (list_replace_spec h old new l p Hr Hnew Hsn) as (h1 & -> & Hr1 & Ho1). simpl.
  pose proof Hr as [[Hold _]%list.NoDup_cons _].
  destruct (INIT_LIST_HEAD_spec h1 old) as (h2 & -> & Hr2 & Hs2).
  { eapply same_at_next; [apply Ho1; set_solver|]. eapply ring_in; [exact Hr|set_solver]. }
  exists h2. split; [done|]. split_and!; [|done|].
  - eapply ring_frame; [|exact Hr1]. intros q Hq. apply Hs2. intros ->. set_solver.
  - eapply only_changes_trans; [eapply only_changes_mono; [exact Ho1|set_solver]|]. intros q Hq. apply Hs2. set_solver.
Qed.

Lemma __list_cut_effect h x e y f n :
  get_next h x = Some f -> get_next h e = Some n ->
  is_Some (get_next h y) -> is_Some (get_next h f) -> is_Some (get_next h n) ->
  f <> y -> e <> y -> x <> y -> e <> x ->
  exists h', __list_cut_position h y x e = Some h' /\
    (forall q, get_next h' q = if decide (q = x) then Some n else if decide (q = e) then Some y
      else if decide (q = y) then Some f else get_next h q) /\
    (forall q, get_prev h' q = if decide (q = n) then Some x else if decide (q = y) then Some e
      else if decide (q = f) then Some y else get_prev h q).
Proof.
  intros Hf Hn Sy Sf Sn Hfy Hey Hxy Hex. unfold __list_cut_position. rewrite Hn. simpl. rewrite Hf. simpl.
  assign h1 N1 P1; [done|]. rewrite N1, decide_True by done. simpl.
  assign h2 N2 P2; [by rewrite N1, decide_False by done|].
  assign h3 N3 P3; [by rewrite N2, N1, decide_True|].
  assign h4 N4 P4; [rewrite N3, N2, N1, decide_False by done; by eexists|].
  assign h5 N5 P5; [rewrite N4, N3, N2, N1, !decide_False by done; by eexists|].
  assign h6 N6 P6; [rewrite N5, N4, N3, N2, N1; repeat case_decide; [by eexists..|done]|].
  exists h6. split; [done|]. split; intros q; [by rewrite N6, N5, N4, N3, N2, N1|by rewrite P6, P5, P4, P3, P2, P1].
Qed.

(** The two rings after the cut. *)
Lemma cut_rings h h' x l1 e l2 y :
  NoDup (y :: x :: l1 ++ e :: l2) -> seg h x l1 e -> seg h e l2 x ->
  (forall q, get_next h' q = if decide (q = x) then Some (hd x l2) else if decide (q = e) then Some y
    else if decide (q = y) then Some (hd e l1) else get_next h q) ->
  (forall q, get_prev h' q = if decide (q = hd x l2) then Some x else if decide (q = y) then Some e
    else if decide (q = hd e l1) then Some y else get_prev h q) ->
  ring h' y (l1 ++ [e]) /\ ring h' x l2 /\ only_changes h h' (y :: x :: l1 ++ e :: l2).
Proof.
  intros Hnd Hs1 Hs2 N P. set (f := hd e l1) in *. set (n := hd x l2) in *.
  assert (E : y :: x :: l1 ++ e :: l2 ≡ₚ (y :: l1 ++ [e]) ++ (l2 ++ [x])) by solve_Permutation.
  rewrite E in Hnd. apply list.NoDup_app in Hnd as (Hnd1 & Hdis & Hnd2).
  pose proof Hnd1 as [Hy Hnd1']%list.NoDup_cons.
  assert (Hf : f ∈ l1 ++ [e]) by (unfold f; destruct l1; set_solver).
  assert (Hn : n ∈ l2 ++ [x]) by (unfold n; destruct l2; set_solver).
  assert (Hsep : forall p q, p ∈ y :: l1 ++ [e] -> q ∈ l2 ++ [x] -> p <> q) by (intros p q Hp Hq ->; by apply (Hdis q)).
  assert (Hfy : f <> y) by (intros Ef; by rewrite Ef in Hf). assert (Hey : e <> y) by (intros Ee; rewrite Ee in Hy; set_solver).
  assert (Hel : e ∉ l1) by (intros He; apply list.NoDup_app in Hnd1' as (_ & Hd & _); apply (Hd e); set_solver).
  split_and!.
  - split; [done|]. apply seg_app. split.
    + apply (seg_rehead h h' y x l1 e Hs1).
      * fold f. split; [rewrite N, decide_False, decide_False, decide_True by (done || (apply Hsep; set_solver)); done|].
        rewrite P, decide_False, decide_False, decide_True by (done || (apply Hsep; set_solver)). done.
      * intros q Hq. rewrite N, !decide_False; [done|intros ->; set_solver|intros ->; done|apply Hsep; set_solver].
      * intros q Hq. destruct (tail_not_hd l1 e q Hnd1' Hq) as [Hqh Hqi].
        rewrite P, !decide_False; [done|done|intros ->; done|apply Hsep; set_solver].
    + split; [rewrite N, decide_False, decide_True by (done || (apply Hsep; set_solver)); done|].
      rewrite P, decide_False, decide_True by (done || (apply Hsep; set_solver)). done.
  - assert (Ex : l2 ++ [x] ≡ₚ x :: l2) by solve_Permutation.
    split; [by rewrite <- Ex|]. apply (seg_rehead h h' x e l2 x Hs2).
    + fold n. split; [by rewrite N, decide_True|by rewrite P, decide_True].
    + intros q Hq. rewrite Ex in Hnd2. apply list.NoDup_cons in Hnd2 as [Hx _].
      rewrite N, !decide_False; [done|apply not_eq_sym, Hsep; set_solver|apply not_eq_sym, Hsep; set_solver|intros ->; done].
    + intros q Hq. destruct (tail_not_hd l2 x q Hnd2 Hq) as [Hqh Hqi].
      rewrite P, !decide_False; [done|apply not_eq_sym, Hsep; set_solver|apply not_eq_sym, Hsep; set_solver|done].
  - intros q Hq. rewrite E in Hq. split; [rewrite N, !decide_False by set_solver; done|].
    rewrite P, !decide_False; [done|intros ->; set_solver|set_solver|intros ->; set_solver].
Qed.

(** The entries up to [e] move to [y]. *)
Lemma cut_between h x l1 e l2 y :
  ring h x (l1 ++ e :: l2) -> y ∉ x :: l1 ++ e :: l2 -> is_Some (get_next h y) ->
  exists h', __list_cut_position h y x e = Some h' /\ ring h' y (l1 ++ [e]) /\ ring h' x l2 /\
    only_changes h h' (y :: x :: l1 ++ e :: l2).
Proof.
  intros Hr Hy Hys. pose proof Hr as [Hnd Hs]. pose proof (seg_first _ _ _ _ Hs) as Hfirst.
  replace (hd x (l1 ++ e :: l2)) with (hd e l1) in Hfirst by (by destruct l1).
  apply seg_app in Hs as [Hs1 Hs2]. pose proof (seg_first _ _ _ _ Hs2) as Hn.
  assert (Hin : forall q, q ∈ x :: l1 ++ e :: l2 -> is_Some (get_next h q) /\ q <> y)
    by (intros q Hq; split; [by eapply ring_in|by intros ->]).
  assert (Hf : hd e l1 ∈ x :: l1 ++ e :: l2) by (destruct l1; set_solver).
  assert (Hn2 : hd x l2 ∈ x :: l1 ++ e :: l2) by (destruct l2; set_solver).
  destruct (__list_cut_effect h x e y (hd e l1) (hd x l2)) as (h' & Hrun & N & P);
    [done|done|done|apply Hin; set_solver..| |].
  { apply list.NoDup_cons in Hnd as [Hx _]. intros ->. set_solver. }
  exists h'. split; [done|]. apply (cut_rings h); [|done..]. by apply list.NoDup_cons.
Qed.

Lemma list_cut_spec h x l1 e l2 y :
  ring h x (l1 ++ e :: l2) -> y ∉ x :: l1 ++ e :: l2 -> is_Some (get_next h y) ->
  exists h', list_cut_position h y x e = Some h' /\ ring h' y (l1 ++ [e]) /\ ring h' x l2 /\
    only_changes h h' (y :: x :: l1 ++ e :: l2).
Proof.
  intros Hr Hy Hys. pose proof Hr as [[Hx _]%list.NoDup_cons Hs]. unfold list_cut_position.
  rewrite (list_empty_spec h x _ Hr), (bool_decide_eq_false_2 (l1 ++ e :: l2 = [])) by (destruct l1; discriminate). cbn [mbind option_bind].
  destruct (list_tests_spec h x _ Hr) as (_ & -> & _). rewrite (seg_first _ _ _ _ Hs). cbn [mbind option_bind].
  assert (Hc : bool_decide (length (l1 ++ e :: l2) = 1%nat) && negb (bool_decide (hd x (l1 ++ e :: l2) = e)) = false).
  { destruct l1 as [|z l1]; simpl.
    - rewrite (bool_decide_eq_true_2 (e = e)) by done. by rewrite andb_false_r.
    - rewrite bool_decide_eq_false_2; [done|]. rewrite length_app. simpl. lia. }
  rewrite Hc. cbn [andb]. rewrite bool_decide_eq_false_2 by (intros ->; set_solver). by apply cut_between.
Qed.

Lemma list_cut_head h x l y :
  ring h x l -> l <> [] -> y ∉ x :: l -> is_Some (get_next h y) ->
  exists h', list_cut_position h y x x = Some h' /\ ring h' y [] /\ ring h' x l /\ only_changes h h' [y].
Proof.
  intros Hr Hl Hy Hys. unfold list_cut_position.
  rewrite (list_empty_spec h x _ Hr), (bool_decide_eq_false_2 (l = [])) by done. cbn [mbind option_bind].
  destruct (list_tests_spec h x _ Hr) as (_ & -> & _). rewrite (seg_first h x l x) by apply Hr. cbn [mbind option_bind].
  rewrite (bool_decide_eq_true_2 (x = x)) by done. rewrite andb_false_r.
  destruct (INIT_LIST_HEAD_spec h y Hys) as (h' & -> & Hr' & Hs). exists h'. split; [done|]. split_and!; [done| |].
  - eapply ring_frame; [|exact Hr]. intros q Hq. apply Hs. by intros ->.
  - intros q Hq. apply Hs. set_solver.
Qed.

(** Exchanging an entry. *)
Lemma list_replace_entry h x l1 e l2 new :
  ring h x (l1 ++ e :: l2) -> new ∉ x :: l1 ++ e :: l2 -> is_Some (get_next h new) ->
  (exists h', list_replace h e new = Some h' /\ ring h' x (l1 ++ new :: l2) /\ only_changes h h' (new :: x :: l1 ++ e :: l2)) /\
  (exists h', list_replace_init h e new = Some h' /\ ring h' x (l1 ++ new :: l2) /\ ring h' e [] /\
     only_changes h h' (new :: x :: l1 ++ e :: l2)).
Proof.
  intros Hr Hnew Hs. apply ring_rotate in Hr.
  assert (exists l p, l2 ++ x :: l1 = l ++ [p]) as (l & p & E).
  { destruct l1 as [|p l1 _] using rev_ind; [by exists l2, x|]. exists (l2 ++ x :: l1), p. by rewrite <- app_assoc. }
  rewrite E in Hr. assert (Hin : forall q, q ∈ l ++ [p] <-> q ∈ x :: l1 ++ l2) by (rewrite <- E; set_solver).
  assert (Hn : new ∉ e :: l ++ [p]) by (rewrite elem_of_cons, Hin; set_solver).
  assert (Hsub : forall q, q ∈ e :: new :: l ++ [p] -> q ∈ new :: x :: l1 ++ e :: l2)
    by (intros q; rewrite !elem_of_cons, Hin; set_solver).
  destruct (list_replace_spec h e new l p Hr Hn Hs) as (h1 & R1 & Hr1 & Ho1).
  destruct (list_replace_init_spec h e new l p Hr Hn Hs) as (h2 & R2 & Hr2 & He2 & Ho2).
  rewrite <- E in Hr1, Hr2. apply ring_rotate in Hr1, Hr2.
  split; [exists h1|exists h2]; split_and!; try done; (eapply only_changes_mono; [eassumption|]; intros q Hq; apply Hsub; set_solver).
Qed.

(** * Theorem *)

(** The result of an operation that may change the heads in [l] only. *)
Definition becomes (h : heads) (run : option heads) (l : list ptr) (Q : heads -> Prop) : Prop :=
  exists h', run = Some h' /\ Q h' /\ only_changes h h' l.

(** C28: the lists of include/linux/list.h.  On a well-formed list [list_empty],
    [list_empty_careful], [list_is_singular] and [list_is_last] tell what they say;
    [list_add] and [list_add_tail] put an entry at the front and at the end,
    [list_del], [list_del_init], [list_replace] and [list_replace_init] take one out or exchange it, [list_move],
    [list_move_tail] and the four [list_splice] functions move entries
    between lists in order, and [list_cut_position] cuts behind an entry.  Every list they
    leave is well formed, and no head outside the lists involved is written. *)
Theorem list_ops_correct h x l :
  ring h x l ->
  list_empty h x = Some (bool_decide (l = [])) /\
  list_empty_careful h x = Some (bool_decide (l = [])) /\
  list_is_singular h x = Some (bool_decide (length l = 1%nat)) /\
  (forall new, new ∉ x :: l -> is_Some (get_next h new) ->
     becomes h (list_add h new x) (new :: x :: l) (fun h' => ring h' x (new :: l)) /\
     becomes h (list_add_tail h new x) (new :: x :: l) (fun h' => ring h' x (l ++ [new])) /\
     (l <> [] -> becomes h (list_cut_position h new x x) [new] (fun h' => ring h' new [] /\ ring h' x l))) /\
  (forall l1 e l2, l = l1 ++ e :: l2 ->
     list_is_last h e x = Some (bool_decide (l2 = [])) /\
     becomes h (list_del h e) (x :: l) (fun h' => ring h' x (l1 ++ l2) /\
       get_next h' e = Some LIST_POISON1 /\ get_prev h' e = Some LIST_POISON2) /\
     becomes h (list_del_init h e) (x :: l) (fun h' => ring h' x (l1 ++ l2) /\ ring h' e []) /\
     becomes h (list_move_tail h e x) (x :: l) (fun h' => ring h' x (l1 ++ l2 ++ [e])) /\
     (forall new, new ∉ x :: l -> is_Some (get_next h new) ->
        becomes h (list_replace h e new) (new :: x :: l) (fun h' => ring h' x (l1 ++ new :: l2)) /\
        becomes h (list_replace_init h e new) (new :: x :: l) (fun h' => ring h' x (l1 ++ new :: l2) /\ ring h' e []) /\
        becomes h (list_cut_position h new x e) (new :: x :: l) (fun h' => ring h' new (l1 ++ [e]) /\ ring h' x l2))) /\
  (forall y m, ring h y m -> (forall q, q ∈ x :: l -> q ∉ y :: m) ->
     becomes h (list_splice h x y) (l ++ y :: m) (fun h' => ring h' y (l ++ m)) /\
     becomes h (list_splice_tail h x y) (l ++ y :: m) (fun h' => ring h' y (m ++ l)) /\
     becomes h (list_splice_init h x y) (x :: l ++ y :: m) (fun h' => ring h' y (l ++ m) /\ ring h' x []) /\
     becomes h (list_splice_tail_init h x y) (x :: l ++ y :: m) (fun h' => ring h' y (m ++ l) /\ ring h' x []) /\
     (forall l1 e l2, l = l1 ++ e :: l2 ->
        becomes h (list_move h e y) (x :: l ++ y :: m) (fun h' => ring h' x (l1 ++ l2) /\ ring h' y (e :: m)) /\
        becomes h (list_move_tail h e y) (x :: l ++ y :: m) (fun h' => ring h' x (l1 ++ l2) /\ ring h' y (m ++ [e])))).
Proof.
  intros Hr. destruct (list_tests_spec h x l Hr) as (Hcareful & Hsing & Hlast).
  unfold becomes. split_and!; [by apply list_empty_spec|done|done| | |].
  - intros new Hnew Hs. split_and!; [by apply list_add_spec|by apply list_add_tail_spec|]. intros Hl.
    destruct (list_cut_head h x l new Hr Hl Hnew Hs) as (h' & ? & ? & ? & ?). by exists h'.
  - intros l1 e l2 ->. split_and!; [by apply (Hlast l1)| | | |].
    + destruct (list_del_ring h x l1 e l2 Hr) as (h' & ? & ? & ? & ? & ?). by exists h'.
    + destruct (list_del_init_spec h x l1 e l2 Hr) as (h' & ? & ? & ? & ?). by exists h'.
    + by apply list_move_tail_own.
    + intros new Hnew Hs. destruct (list_replace_entry h x l1 e l2 new Hr Hnew Hs) as [H1 (h2 & ? & ? & ? & ?)].
      destruct (list_cut_spec h x l1 e l2 new Hr Hnew Hs) as (h3 & ? & ? & ? & ?).
      split_and!; [done|by exists h2|by exists h3].
  - intros y m Hy Hd. destruct (list_splice_spec h x l y m Hr Hy Hd) as [H1 H2].
    destruct (list_splice_init_spec h x l y m Hr Hy Hd) as [(h1 & ? & ? & ? & ?) (h2 & ? & ? & ? & ?)].
    split_and!; [done|done|by exists h1|by exists h2|].
    intros l1 e l2 ->. destruct (list_move_spec h x l1 e l2 y m Hr Hy Hd) as [(h3 & ? & ? & ? & ?) (h4 & ? & ? & ? & ?)].
    split; [exists h3|exists h4]; (split; [done|]; split; [done|]; by rewrite <- app_assoc).
Qed.

(** Two lists of memory: 1 with the entries 2 and 3, and 4 with the entry 5; 6 is single. *)
Definition demo_heads : heads :=
  list_to_map [(1%positive, ListHead 2 3); (2%positive, ListHead 3 1); (3%positive, ListHead 1 2);
               (4%positive, ListHead 5 5); (5%positive, ListHead 4 4); (6%positive, ListHead 6 6)].

Lemma demo_ring : ring demo_heads 1 [2%positive; 3%positive] /\ ring demo_heads 4 [5%positive].
Proof.
  split; (split; [apply (bool_decide_unpack _); vm_compute; exact I|repeat split; vm_compute; reflexivity]).
Qed.

Lemma list_ops_correct_witness :
  (exists h', list_splice_tail_init demo_heads 1 4 = Some h' /\ ring h' 4 [5%positive; 2%positive; 3%positive] /\ ring h' 1 []) /\
  exists h', list_add demo_heads 6 1 = Some h' /\ ring h' 1 [6%positive; 2%positive; 3%positive].
Proof.
  destruct demo_ring as [H1 H4].
  destruct (list_ops_correct demo_heads 1 _ H1) as (_ & _ & _ & Hadd & _ & Hsp). split.
  - destruct (Hsp 4%positive _ H4) as (_ & _ & _ & (h' & Hrun & Hr & _) & _).
    { intros q Hq Hq'. set_unfold. naive_solver. }
    exists h'. split; [exact Hrun|exact Hr].
  - destruct (Hadd 6%positive) as ((h' & Hrun & Hr & _) & _).
    { set_unfold. naive_solver. }
    { vm_compute. by eexists. }
    exists h'. split; [exact Hrun|exact Hr].
Defined.
