(* ===== verification/Plist.v ===== *)
(** Priority-sorted lists: lib/plist.c and include/linux/plist.h, over the lists of
    ListHead.

    A node is on the list of all nodes, sorted by priority and in order of arrival
    within a priority; the first node of every priority is also on the shorter list
    [prio_list], which insertion searches.  Both list heads of a node, and of the head of the
    list, are named by the address of the structure they are in, so that [container_of] is the
    identity; the two kinds of head are in memories of their own.  Priority
    inheritance (kernel/rtmutex.c) and futexes rely on these lists. *)
From Stdlib Require Import ZArith Lia Bool.
From stdpp Require Import base numbers list option gmap sets sorting.
From S2P Require Import Prelude ListHead.

Local Open Scope Z_scope.

(** * Definitions *)

Record plists : Type := Plists {
  prio_links : heads;
  node_links : heads;
  prio : gmap ptr Z
}.

Definition plist_head_init (st : plists) (head : ptr) : option plists :=
  pl ← INIT_LIST_HEAD (prio_links st) head;
  nl ← INIT_LIST_HEAD (node_links st) head;
  Some (Plists pl nl (prio st)).

Definition plist_node_init (st : plists) (node : ptr) (p : Z) : option plists :=
  plist_head_init (Plists (prio_links st) (node_links st) (<[node := p]> (prio st))) node.

Definition plist_head_empty (st : plists) (head : ptr) : option bool := list_empty (node_links st) head.
Definition plist_node_empty (st : plists) (node : ptr) : option bool := plist_head_empty st node.

Definition plist_first (st : plists) (head : ptr) : option ptr := get_next (node_links st) head.

(** The search through [prio_list]: the node to insert before, and whether the priority
    is new ([lt_prio]) or there already ([eq_prio]). *)
Definition plist_search (fuel : nat) (st : plists) (node head : ptr) : option (ptr * bool) :=
  iter ← get_next (prio_links st) head;
  loop fuel (fun iter =>
    if bool_decide (iter = head) then Some (Done (iter, true))
    else
      p ← prio st !! node;
      pi ← prio st !! iter;
      if p <? pi then Some (Done (iter, true))
      else
        n ← get_next (prio_links st) iter;
        if p =? pi then Some (Done (n, false)) else Some (Next n)) iter.

Definition plist_add (fuel : nat) (st : plists) (node head : ptr) : option plists :=
  '(iter, lt_prio) ← plist_search fuel st node head;
  pl ← if (lt_prio : bool) then list_add_tail (prio_links st) node iter else Some (prio_links st);
  nl ← list_add_tail (node_links st) node iter;
  Some (Plists pl nl (prio st)).

Definition plist_del (st : plists) (node head : ptr) : option plists :=
  e ← list_empty (prio_links st) node;
  pl ← if negb e then
         next ← plist_first st node;
         pl ← list_move_tail (prio_links st) next node;
         list_del_init pl node
       else Some (prio_links st);
  nl ← list_del_init (node_links st) node;
  Some (Plists pl nl (prio st)).

(** * The list and its first nodes *)

Section first_nodes.
Context (P : ptr -> Z).

(** The first node of every priority, after a node of priority [pv]. *)
Fixpoint firsts (pv : option Z) (l : list ptr) : list ptr :=
  match l with
  | [] => []
  | x :: l => if decide (pv = Some (P x)) then firsts pv l else x :: firsts (Some (P x)) l
  end.

(** The priority after [l]. *)
Definition after (pv : option Z) (l : list ptr) : option Z := foldl (fun _ x => Some (P x)) pv l.

Lemma firsts_app pv l1 l2 : firsts pv (l1 ++ l2) = firsts pv l1 ++ firsts (after pv l1) l2.
Proof.
  revert pv. induction l1 as [|x l1 IH]; intros pv; simpl; [done|].
  case_decide as E; simpl; rewrite IH; [by rewrite E|done].
Qed.

Lemma last_prio_app pv l1 l2 : after pv (l1 ++ l2) = after (after pv l1) l2.
Proof. apply foldl_app. Qed.

Lemma firsts_in pv l x : x ∈ firsts pv l -> x ∈ l.
Proof.
  revert pv. induction l as [|y l IH]; intros pv; simpl; [done|]. case_decide; [|rewrite elem_of_cons]; set_solver.
Qed.

(** Every node has a first node of its priority. *)
Lemma firsts_cover pv l x : x ∈ l -> pv = Some (P x) \/ exists f, f ∈ firsts pv l /\ P f = P x.
Proof.
  revert pv. induction l as [|y l IH]; intros pv; [by intros ?%elem_of_nil|].
  intros [->|Hx]%elem_of_cons; simpl; case_decide as E; [by left|right; exists y; set_solver|by apply IH|].
  right. destruct (IH (Some (P y)) Hx) as [[= Hy]|(f & Hf & Hp)]; [exists y|exists f]; set_solver.
Qed.

Lemma firsts_none pv l : firsts pv l = [] -> Forall (fun x => pv = Some (P x)) l.
Proof. induction l as [|x l IH]; simpl; [constructor|]. case_decide; [|done]. constructor; auto. Qed.

Lemma firsts_same pv l : Forall (fun x => pv = Some (P x)) l -> firsts pv l = [] /\ after pv l = pv.
Proof.
  induction 1 as [|x l Hx Hl [IH1 IH2]]; [done|]. simpl. rewrite decide_True by done. split; [done|]. by rewrite <- Hx.
Qed.

(** Where a first node is in the list. *)
Lemma firsts_split pv l fa y fb :
  firsts pv l = fa ++ y :: fb ->
  exists la lb, l = la ++ y :: lb /\ firsts pv la = fa /\ after pv la <> Some (P y) /\ firsts (Some (P y)) lb = fb.
Proof.
  revert pv fa. induction l as [|x l IH]; intros pv fa; simpl; [intros E; by apply app_cons_not_nil in E|].
  case_decide as E.
  - intros (la & lb & -> & Hla & Ha & Hlb)%IH. exists (x :: la), lb. simpl. rewrite decide_True by done. by rewrite <- E.
  - destruct fa as [|z fa]; simpl.
    + intros [= -> <-]. exists [], l. done.
    + intros [= <- (la & lb & -> & Hla & Ha & Hlb)%IH]. exists (x :: la), lb. simpl. rewrite decide_False by done. by rewrite Hla.
Qed.

Lemma firsts_NoDup pv l : NoDup l -> NoDup (firsts pv l).
Proof.
  revert pv. induction l as [|x l IH]; intros pv; simpl; [done|]. intros [Hx Hl]%list.NoDup_cons.
  case_decide; [by apply IH|]. apply list.NoDup_cons. split; [|by apply IH]. intros Hin%firsts_in. done.
Qed.
End first_nodes.

(** Insertion before the entry [hd x l2], or at the end. *)
Lemma insert_before h x l1 l2 new :
  ring h x (l1 ++ l2) -> new ∉ x :: l1 ++ l2 -> is_Some (get_next h new) ->
  exists h', list_add_tail h new (hd x l2) = Some h' /\ ring h' x (l1 ++ new :: l2) /\
    only_changes h h' (new :: x :: l1 ++ l2).
Proof.
  intros Hr Hnew Hs. destruct l2 as [|z l2]; simpl.
  - rewrite app_nil_r in Hr, Hnew |- *. by apply list_add_tail_spec.
  - apply ring_rotate in Hr. destruct (list_add_tail_spec h new z (l2 ++ x :: l1) Hr) as (h' & -> & Hr' & Ho);
      [set_solver|done|].
    exists h'. split; [done|]. rewrite <- app_assoc in Hr'. simpl in Hr'. apply ring_rotate in Hr'.
    rewrite <- app_assoc in Hr'. split; [done|]. intros q Hq. apply Ho. set_solver.
Qed.

(** * The invariant *)

Definition node_prio (st : plists) (x : ptr) : Z := default 0 (prio st !! x).

(** [head] is a list with the nodes [l]. *)
Record plist_ok (st : plists) (head : ptr) (l : list ptr) : Prop := {
  ok_nodes : ring (node_links st) head l;
  ok_prios : ring (prio_links st) head (firsts (node_prio st) None l);
  ok_others : forall x, x ∈ l -> x ∉ firsts (node_prio st) None l -> ring (prio_links st) x [];
  ok_sorted : StronglySorted (fun x y => node_prio st x <= node_prio st y) l;
  ok_known : forall x, x ∈ l -> is_Some (prio st !! x)
}.

(** A node that is on no list. *)
Record plist_single (st : plists) (x : ptr) : Prop := {
  single_nodes : ring (node_links st) x [];
  single_prios : ring (prio_links st) x [];
  single_known : is_Some (prio st !! x)
}.

Lemma known_prio st x : is_Some (prio st !! x) -> prio st !! x = Some (node_prio st x).
Proof. intros [p Hp]. unfold node_prio. by rewrite Hp. Qed.

(** What the search finds in the list of first nodes. *)
Lemma plist_search_spec fuel st node head fl :
  ring (prio_links st) head fl -> (forall x, x ∈ fl -> is_Some (prio st !! x)) -> is_Some (prio st !! node) ->
  (length fl < fuel)%nat ->
  exists fa fb, fl = fa ++ fb /\ Forall (fun x => node_prio st x < node_prio st node) fa /\
    match fb with
    | [] => plist_search fuel st node head = Some (head, true)
    | y :: fb' =>
        (node_prio st node < node_prio st y /\ plist_search fuel st node head = Some (y, true)) \/
        (node_prio st node = node_prio st y /\ plist_search fuel st node head = Some (hd head fb', false))
    end.
Proof.
  intros Hr Hk Hn Hf. pose proof Hr as [Hnd Hs]. unfold plist_search. rewrite (seg_first _ _ _ _ Hs). cbn [mbind option_bind].
  apply list.NoDup_cons in Hnd as [Hhead _]. rewrite (known_prio st node Hn). set (p := node_prio st node).
  match goal with |- context [loop fuel ?f _] => set (step := f) end.
  assert (Hgen : forall fb fa n, fl = fa ++ fb -> Forall (fun x => node_prio st x < p) fa -> (length fb < n)%nat ->
    exists fa fb0, fl = fa ++ fb0 /\ Forall (fun x => node_prio st x < p) fa /\
      match fb0 with
      | [] => loop n step (hd head fb) = Some (head, true)
      | y :: fb' => (p < node_prio st y /\ loop n step (hd head fb) = Some (y, true)) \/
                    (p = node_prio st y /\ loop n step (hd head fb) = Some (hd head fb', false))
      end).
  { induction fb as [|y fb IH]; intros fa n Hfl Hfa Hlen; (destruct n as [|n]; [simpl in Hlen; lia|]).
    - exists fa, []. split; [done|]. split; [done|]. rewrite loop_S. unfold step. simpl. by rewrite bool_decide_eq_true_2.
    - assert (Hy : y ∈ fl) by (rewrite Hfl; set_solver). simpl hd.
      assert (Hstep : step y = if p <? node_prio st y then Some (Done (y, true))
        else if p =? node_prio st y then Some (Done (hd head fb, false)) else Some (Next (hd head fb))).
      { unfold step. rewrite bool_decide_eq_false_2 by (intros ->; done). cbn [mbind option_bind].
        rewrite (known_prio st y (Hk y Hy)). cbn [mbind option_bind]. zcases; try done.
        all: rewrite Hfl in Hs; apply seg_app in Hs as [_ Hs]; rewrite (seg_first _ _ _ _ Hs); done. }
      rewrite loop_S, Hstep. destruct (Z.ltb_spec p (node_prio st y)); [exists fa, (y :: fb); auto|].
      destruct (Z.eqb_spec p (node_prio st y)); [exists fa, (y :: fb); auto|].
      apply (IH (fa ++ [y]) n); [by rewrite <- app_assoc|apply Forall_app; split; [done|constructor; [lia|done]]|simpl in Hlen; lia]. }
  destruct (Hgen fl [] fuel) as (fa & fb & ? & ? & ?); [done|constructor|done|]. by exists fa, fb.
Qed.

(** * The place of a new node *)

Section place.
Context (P : ptr -> Z) (p : Z) (node : ptr).
Hypothesis Hnode : P node = p.
Abbreviation by_prio := (fun x y : ptr => P x <= P y).

Lemma after_in pv l q : after P pv l = Some q -> pv = Some q \/ exists x, x ∈ l /\ P x = q.
Proof.
  destruct l as [|x l _] using rev_ind; [by left|]. rewrite last_prio_app. simpl. intros [= <-]. right. exists x. set_solver.
Qed.

(** A place for [node] between the nodes of lower or equal and those of higher priority. *)
Definition place (l l1 l2 : list ptr) : Prop :=
  l = l1 ++ l2 /\ Forall (fun x => P x <= p) l1 /\ Forall (fun x => p < P x) l2.

Lemma place_new l fa fb :
  StronglySorted by_prio l -> firsts P None l = fa ++ fb -> Forall (fun x => P x < p) fa ->
  (forall y fb', fb = y :: fb' -> p < P y) ->
  exists l1 l2, place l l1 l2 /\ (forall d, hd d l2 = hd d fb) /\ firsts P None (l1 ++ node :: l2) = fa ++ node :: fb.
Proof.
  intros Hs Hfl Hfa Hfb.
  assert (Hlow : forall la, firsts P None la = fa -> Forall (fun x => P x < p) la /\ after P None la <> Some p).
  { intros la Hla. assert (Hall : forall x, x ∈ la -> P x < p).
    { intros x Hx. destruct (firsts_cover P None la x Hx) as [|(f & Hf & <-)]; [done|]. rewrite Hla in Hf.
      rewrite list.Forall_forall in Hfa. by apply Hfa. }
    split; [by apply list.Forall_forall|]. intros [|(x & Hx & Hp)]%after_in; [done|]. apply Hall in Hx. lia. }
  destruct fb as [|y fb].
  - rewrite app_nil_r in Hfl. destruct (Hlow l Hfl) as [Hl Ha]. exists l, []. split; [|split; [done|]].
    + split; [by rewrite app_nil_r|]. split; [eapply Forall_impl; [exact Hl|]; simpl; lia|constructor].
    + rewrite firsts_app, Hfl. simpl. rewrite Hnode, decide_False by done. done.
  - destruct (firsts_split P None l fa y fb Hfl) as (la & lb & -> & Hla & Hay & Hlb).
    destruct (Hlow la Hla) as [Hl Ha]. specialize (Hfb y fb eq_refl). exists la, (y :: lb). split; [|split; [done|]].
    + split; [done|]. split; [eapply Forall_impl; [exact Hl|]; simpl; lia|].
      apply StronglySorted_app_1_r in Hs. apply StronglySorted_cons in Hs as [Hyb _].
      constructor; [done|]. eapply Forall_impl; [exact Hyb|]. simpl. lia.
    + rewrite firsts_app, Hla. simpl. rewrite Hnode, !decide_False by (done || (intros [= E]; lia)). by rewrite Hlb.
Qed.

Lemma place_old l fa y fb :
  StronglySorted by_prio l -> firsts P None l = fa ++ y :: fb -> P y = p ->
  exists l1 l2, place l l1 l2 /\ (forall d, hd d l2 = hd d fb) /\ firsts P None (l1 ++ node :: l2) = fa ++ y :: fb.
Proof.
  intros Hs Hfl Hy. destruct (firsts_split P None l fa y fb Hfl) as (la & lb & -> & Hla & Hay & Hlb).
  rewrite Hy in *. assert (Hle : forall x, x ∈ la -> P x <= p).
  { intros x Hx. rewrite <- Hy. eapply (StronglySorted_app_1_elem_of by_prio); [exact Hs|done|set_solver]. }
  apply StronglySorted_app_1_r in Hs. apply StronglySorted_cons in Hs as [Hyb Hsb].
  assert (Hmid : forall lb1 r, Forall (fun x => Some p = Some (P x)) lb1 -> firsts P (Some p) r = fb ->
    Forall (fun x => P x <= p) (la ++ y :: lb1) /\ firsts P None ((la ++ y :: lb1) ++ node :: r) = fa ++ y :: fb).
  { intros lb1 r Hlb1 Hr. split.
    - apply Forall_app. split; [by apply list.Forall_forall|]. constructor; [lia|].
      eapply Forall_impl; [exact Hlb1|]. simpl. intros x [= <-]. lia.
    - destruct (firsts_same P (Some p) lb1 Hlb1) as [E1 E2]. rewrite <- app_assoc, firsts_app, Hla. f_equal.
      simpl. rewrite Hy, decide_False by done. f_equal. rewrite firsts_app, E1, E2. simpl.
      rewrite Hnode, decide_True by done. done. }
  destruct fb as [|z fb].
  - apply firsts_none in Hlb as Hall. destruct (Hmid lb [] Hall eq_refl) as [H1 H2].
    exists (la ++ y :: lb), []. split; [|done]. split; [by rewrite app_nil_r|]. split; [done|constructor].
  - destruct (firsts_split P (Some p) lb [] z fb Hlb) as (lb1 & lb2 & -> & Hlb1 & Haz & Hlb2).
    apply firsts_none in Hlb1. destruct (firsts_same P (Some p) lb1 Hlb1) as [_ E2]. rewrite E2 in Haz.
    assert (Hz : p < P z).
    { rewrite list.Forall_forall in Hyb. specialize (Hyb z ltac:(set_solver)). assert (P z <> p) by congruence. lia. }
    destruct (Hmid lb1 (z :: lb2) Hlb1) as [H1 H2].
    { simpl. rewrite decide_False by done. by rewrite Hlb2. }
    exists (la ++ y :: lb1), (z :: lb2). split; [|done]. split; [by rewrite <- app_assoc|]. split; [done|].
    constructor; [done|]. apply StronglySorted_app_1_r in Hsb. apply StronglySorted_cons in Hsb as [Hzb _].
    eapply Forall_impl; [exact Hzb|]. simpl. lia.
Qed.

Lemma place_sorted l l1 l2 : StronglySorted by_prio l -> place l l1 l2 -> StronglySorted by_prio (l1 ++ node :: l2).
Proof.
  intros Hs (-> & H1 & H2). apply StronglySorted_app in Hs as (H12 & Hs1 & Hs2).
  rewrite list.Forall_forall in H1, H2.
  apply StronglySorted_app. split_and!; [|done|apply StronglySorted_cons; split; [|done]].
  - intros x1 x2 Hx1 [->|Hx2]%elem_of_cons; [rewrite Hnode; by apply H1|by apply H12].
  - apply list.Forall_forall. intros x Hx. rewrite Hnode. specialize (H2 x Hx). lia.
Qed.
End place.

(** * Insertion *)

(** The search finds the place on both lists. *)
Lemma search_place fuel st node head l :
  plist_ok st head l -> is_Some (prio st !! node) -> (length l < fuel)%nat ->
  let P := node_prio st in
  exists l1 l2 lt, plist_search fuel st node head = Some (hd head l2, lt) /\ place P (P node) l l1 l2 /\
    if (lt : bool) then exists fa fb, firsts P None l = fa ++ fb /\ hd head l2 = hd head fb /\
                          firsts P None (l1 ++ node :: l2) = fa ++ node :: fb
    else firsts P None (l1 ++ node :: l2) = firsts P None l.
Proof.
  intros [Hn Hp Ho Hs Hk] Sk Hf P. fold P in Hp, Hs. set (fl := firsts P None l) in *.
  assert (Hsub : forall x, x ∈ fl -> x ∈ l) by (intros x; apply firsts_in).
  destruct (plist_search_spec fuel st node head fl) as (fa & fb & Hfl & Hfa & Hfb);
    [done|intros; apply Hk; auto|done| |].
  { eapply Nat.le_lt_trans; [|exact Hf]. apply submseteq_length, NoDup_submseteq; [|done].
    destruct Hp as [[_ ?]%list.NoDup_cons _]. done. }
  destruct fb as [|y fb]; [|destruct Hfb as [[Hlt Hrun]|[Heq Hrun]]].
  - destruct (place_new P (P node) node eq_refl l fa [] Hs Hfl Hfa) as (l1 & l2 & Hpl & Hhd & Hfi); [done|].
    exists l1, l2, true. rewrite Hhd. split; [done|]. split; [done|]. by exists fa, [].
  - destruct (place_new P (P node) node eq_refl l fa (y :: fb) Hs Hfl Hfa) as (l1 & l2 & Hpl & Hhd & Hfi);
      [by intros ? ? [= <- <-]|].
    exists l1, l2, true. rewrite Hhd. split; [done|]. split; [done|]. by exists fa, (y :: fb).
  - destruct (place_old P (P node) node eq_refl l fa y fb Hs Hfl) as (l1 & l2 & Hpl & Hhd & Hfi); [done|].
    exists l1, l2, false. rewrite Hhd. split; [done|]. split; [done|]. by rewrite Hfi, Hfl.
Qed.

Lemma plist_add_spec fuel st node head l :
  plist_ok st head l -> plist_single st node -> node ∉ head :: l -> (length l < fuel)%nat ->
  exists st' l1 l2, plist_add fuel st node head = Some st' /\ place (node_prio st) (node_prio st node) l l1 l2 /\
    plist_ok st' head (l1 ++ node :: l2) /\ prio st' = prio st.
Proof.
  intros Hok [Sn Sp Sk] Hnew Hf. unfold plist_add.
  destruct (search_place fuel st node head l Hok Sk Hf) as (l1 & l2 & lt & -> & Hpl & Hlt).
  destruct Hok as [Hn Hp Ho Hs Hk]. set (P := node_prio st) in *. set (fl := firsts P None l) in *.
  assert (Hnewf : node ∉ head :: fl) by (intros [->|Hin%firsts_in]%elem_of_cons; apply Hnew; set_solver).
  simpl. pose proof Hpl as (Hl & Hl1 & Hl2).
  destruct (insert_before (node_links st) head l1 l2 node) as (nl & Hnl & Hrn & _);
    [by rewrite <- Hl|by rewrite <- Hl|eapply ring_in; [exact Sn|set_solver]|].
  assert (Hpl' : exists pl, (if lt then list_add_tail (prio_links st) node (hd head l2) else Some (prio_links st)) = Some pl /\
    ring pl head (firsts P None (l1 ++ node :: l2)) /\
    (forall x, x ∈ l1 ++ node :: l2 -> x ∉ firsts P None (l1 ++ node :: l2) -> ring pl x [])).
  { destruct lt; [|exists (prio_links st); rewrite Hlt; split_and!; [done|done|]].
    - destruct Hlt as (fa & fb & Hfl & -> & ->).
      destruct (insert_before (prio_links st) head fa fb node) as (pl & -> & Hrp & Hop);
        [by rewrite <- Hfl|by rewrite <- Hfl|eapply ring_in; [exact Sp|set_solver]|].
      exists pl. split_and!; [done|done|]. rewrite <- Hfl in Hop. intros x Hx Hnf.
      eapply ring_frame; [|apply Ho; [rewrite Hl; set_solver|rewrite Hfl; set_solver]].
      intros q ->%list_elem_of_singleton. apply Hop. destruct Hn as [[Hh _]%list.NoDup_cons _]. rewrite Hl in Hh.
      rewrite Hfl. set_solver.
    - intros x Hx Hnf. destruct (decide (x = node)) as [->|]; [done|]. apply Ho; [rewrite Hl; set_solver|done]. }
  destruct Hpl' as (pl & -> & Hrp & Hoth). simpl. rewrite Hnl. simpl.
  eexists _, l1, l2. split; [done|]. split; [done|]. split; [|done].
  split; change (node_prio (Plists pl nl (prio st))) with P; cbn [prio_links node_links prio]; [done|done|done| |].
  - by eapply place_sorted.
  - intros x Hx. destruct (decide (x = node)) as [->|]; [done|]. apply Hk. rewrite Hl. set_solver.
Qed.

(** * Removal *)

(** The list of first nodes after the removal of a node, by the node that follows it. *)
Lemma firsts_remove P l1 node l2 :
  StronglySorted (fun x y => P x <= P y) (l1 ++ node :: l2) ->
  let fa := firsts P None l1 in let fb := firsts P (Some (P node)) l2 in
  (firsts P None (l1 ++ node :: l2) = fa ++ fb /\ firsts P None (l1 ++ l2) = fa ++ fb) \/
  (firsts P None (l1 ++ node :: l2) = fa ++ node :: fb /\ firsts P None (l1 ++ l2) = fa ++ fb /\
   forall d, hd d l2 = hd d fb) \/
  (firsts P None (l1 ++ node :: l2) = fa ++ node :: fb /\
   exists y l3, l2 = y :: l3 /\ fb = firsts P (Some (P node)) l3 /\ firsts P None (l1 ++ l2) = fa ++ y :: fb).
Proof.
  intros Hs fa fb. rewrite !firsts_app. fold fa. simpl.
  destruct (decide (after P None l1 = Some (P node))) as [E|E]; [left; by rewrite E|right].
  destruct l2 as [|y l3]; [left; unfold fb; simpl; by rewrite !app_nil_r|]. simpl in *.
  destruct (decide (P y = P node)) as [Ey|Ey].
  - right. split; [done|]. exists y, l3. unfold fb. simpl. rewrite Ey, decide_True, decide_False by done. done.
  - left. unfold fb. simpl. rewrite (decide_False (P := Some (P node) = Some (P y))) by congruence.
    rewrite decide_False; [done|]. intros [|(x & Hx & Hxy)]%after_in; [done|].
    apply StronglySorted_app in Hs as (H12 & _ & Hs2). specialize (H12 x node Hx ltac:(set_solver)).
    apply StronglySorted_cons in Hs2 as [Hf _]. rewrite list.Forall_forall in Hf.
    specialize (Hf y ltac:(set_solver)). lia.
Qed.

(** Moving the next entry in front of [node] and taking [node] out. *)
Lemma move_next h x fa node fb :
  ring h x (fa ++ node :: fb) ->
  exists h1 h2, list_move_tail h (hd x fb) node = Some h1 /\ list_del_init h1 node = Some h2 /\
    ring h2 x (fa ++ fb) /\ ring h2 node [] /\ only_changes h h2 (x :: fa ++ node :: fb).
Proof.
  intros Hr. apply ring_rotate in Hr.
  assert (exists e r, fb ++ x :: fa = e :: r /\ hd x fb = e) as (e & r & E & ->).
  { destruct fb as [|z fb]; [by exists x, fa|by exists z, (fb ++ x :: fa)]. }
  assert (Hin : forall q, q ∈ e :: r <-> q ∈ x :: fa ++ fb) by (rewrite <- E; set_solver).
  rewrite E in Hr. destruct (list_move_tail_own h node [] e r Hr) as (h1 & -> & Hr1 & Ho1). simpl in Hr1.
  assert (exists l1 l2, ring h1 x (l1 ++ node :: l2) /\ l1 ++ l2 = fa ++ fb) as (l1 & l2 & Hr2 & El).
  { destruct fb as [|z fb]; simpl in E; injection E as <- <-.
    - exists [], fa. rewrite app_nil_r. split; [|done]. by apply (ring_rotate h1 node fa x []) in Hr1.
    - exists (fa ++ [z]), fb. rewrite <- !app_assoc in *. simpl in *. split; [|done].
      apply ring_rotate in Hr1. by rewrite <- app_assoc in Hr1. }
  destruct (list_del_init_spec h1 x l1 node l2 Hr2) as (h2 & Hd & Hr3 & Hr4 & Ho2).
  exists h1, h2. split; [done|]. split; [done|]. rewrite <- El. split; [done|]. split; [done|].
  eapply only_changes_trans; [eapply only_changes_mono; [exact Ho1|]|eapply only_changes_mono; [exact Ho2|]].
  - intros q. rewrite elem_of_cons, Hin. set_solver.
  - intros q Hq. assert (Hq' : q = node \/ q ∈ x :: l1 ++ l2) by set_solver. rewrite El in Hq'. set_solver.
Qed.

(** Putting a single entry in front of [node] and taking [node] out. *)
Lemma move_single h x fa node fb y :
  ring h x (fa ++ node :: fb) -> ring h y [] -> y ∉ x :: fa ++ node :: fb ->
  exists h1 h2, list_move_tail h y node = Some h1 /\ list_del_init h1 node = Some h2 /\
    ring h2 x (fa ++ y :: fb) /\ ring h2 node [] /\ only_changes h h2 (y :: x :: fa ++ node :: fb).
Proof.
  intros Hr Hy Hyn. unfold list_move_tail. destruct (del_links_empty h y Hy) as (h0 & -> & Hy0 & Ho0). simpl.
  assert (Hr0 : ring h0 x (fa ++ node :: fb)) by (eapply ring_frame; [|exact Hr]; intros q Hq; apply Ho0; by intros ->).
  destruct (insert_before h0 x fa (node :: fb) y) as (h1 & Hrun & Hr1 & Ho1); [done|done|eapply ring_in; [exact Hy0|set_solver]|].
  simpl in Hrun. rewrite Hrun. replace (fa ++ y :: node :: fb) with ((fa ++ [y]) ++ node :: fb) in Hr1 by (by rewrite <- app_assoc).
  destruct (list_del_init_spec h1 x (fa ++ [y]) node fb Hr1) as (h2 & Hd & Hr2 & Hr3 & Ho2).
  exists h1, h2. split; [done|]. split; [done|]. rewrite <- app_assoc in Hr2. split; [done|]. split; [done|].
  eapply only_changes_trans; [intros q Hq; apply Ho0; set_solver|].
  eapply only_changes_trans; [exact Ho1|]. eapply only_changes_mono; [exact Ho2|set_solver].
Qed.

(** The list of first nodes and the single nodes after the removal. *)
Lemma del_prios st head l1 node l2 :
  plist_ok st head (l1 ++ node :: l2) ->
  exists pl,
    (e ← list_empty (prio_links st) node;
     if negb e then next ← plist_first st node; pl ← list_move_tail (prio_links st) next node; list_del_init pl node
     else Some (prio_links st)) = Some pl /\
    ring pl head (firsts (node_prio st) None (l1 ++ l2)) /\ ring pl node [] /\
    forall x, x ∈ l1 ++ l2 -> x ∉ firsts (node_prio st) None (l1 ++ l2) -> ring pl x [].
Proof.
  intros [Hn Hp Ho Hs Hk]. set (P := node_prio st) in *.
  assert (Hfirst : plist_first st node = Some (hd head l2)).
  { unfold plist_first. destruct Hn as [_ Hn]. apply seg_app in Hn as [_ Hn]. apply (seg_first _ _ _ _ Hn). }
  pose proof (ring_NoDup_mid _ _ _ _ _ Hn) as Hnode. pose proof Hn as [[Hhead Hnd]%list.NoDup_cons _].
  assert (Hin1 : forall x, x ∈ firsts P None l1 -> x ∈ l1) by (intros x; apply firsts_in).
  assert (Hin2 : forall x, x ∈ firsts P (Some (P node)) l2 -> x ∈ l2) by (intros x; apply firsts_in).
  assert (Hself : forall pl L, only_changes (prio_links st) pl L -> forall x, x ∈ l1 ++ l2 -> x ∉ L ->
    x ∉ firsts P None (l1 ++ node :: l2) -> ring pl x []).
  { intros pl L HL x Hx HxL Hxf. eapply ring_frame; [|apply Ho; [set_solver|done]].
    intros q ->%list_elem_of_singleton. by apply HL. }
  destruct (firsts_remove P l1 node l2 Hs) as [(E1 & E2)|[(E1 & E2 & Ehd)|(E1 & y & l3 & -> & Efb & E2)]]; rewrite E1, E2 in *.
  - assert (Hsn : ring (prio_links st) node []) by (apply Ho; set_solver).
    rewrite (list_empty_spec _ _ _ Hsn). exists (prio_links st). split_and!; [done|done|done|].
    intros x Hx Hxf. apply Ho; set_solver.
  - rewrite (list_empty_spec (prio_links st) node (firsts P (Some (P node)) l2 ++ head :: firsts P None l1)) by (by apply ring_rotate).
    rewrite bool_decide_eq_false_2 by (intros E; symmetry in E; by apply app_cons_not_nil in E).
    cbn [mbind option_bind negb]. rewrite Hfirst, Ehd. cbn [mbind option_bind].
    destruct (move_next _ _ _ _ _ Hp) as (h1 & h2 & -> & Hd & Hr & Hsn & HL). cbn [mbind option_bind].
    exists h2. split_and!; [done|done|done|]. intros x Hx Hxf. eapply (Hself h2); [exact HL|done|set_solver|set_solver].
  - rewrite (list_empty_spec (prio_links st) node (firsts P (Some (P node)) (y :: l3) ++ head :: firsts P None l1)) by (by apply ring_rotate).
    rewrite bool_decide_eq_false_2 by (intros E; symmetry in E; by apply app_cons_not_nil in E).
    cbn [mbind option_bind negb]. rewrite Hfirst. cbn [mbind option_bind hd].
    assert (Hy3 : (y ∉ l3) /\ (y ∉ l1) /\ y <> node /\ y <> head).
    { apply list.NoDup_app in Hnd as (_ & Hd & Hnd). rewrite !list.NoDup_cons in Hnd. set_solver. }
    assert (Hyf : y ∉ firsts P None l1 ++ node :: firsts P (Some (P node)) (y :: l3)).
    { rewrite Efb. intros [Hy|[->|Hy]%elem_of_cons]%elem_of_app; [apply Hin1 in Hy|tauto|apply firsts_in in Hy]; set_solver. }
    destruct (move_single (prio_links st) head (firsts P None l1) node (firsts P (Some (P node)) (y :: l3)) y Hp) as (h1 & h2 & -> & Hd & Hr & Hsn & HL);
      [apply Ho; [set_solver|done]|set_solver|]. cbn [mbind option_bind].
    exists h2. split_and!; [done|done|done|]. intros x Hx Hxf. eapply (Hself h2); [exact HL|done|set_solver|set_solver].
Qed.

Lemma plist_del_spec st head l1 node l2 :
  plist_ok st head (l1 ++ node :: l2) ->
  exists st', plist_del st node head = Some st' /\ plist_ok st' head (l1 ++ l2) /\ plist_single st' node /\ prio st' = prio st.
Proof.
  intros Hok. destruct (del_prios st head l1 node l2 Hok) as (pl & Hpl & Hrp & Hsp & Hoth).
  destruct Hok as [Hn Hp Ho Hs Hk]. unfold plist_del.
  destruct (list_empty (prio_links st) node) as [e|]; [|done]. cbn [mbind option_bind] in *. rewrite Hpl.
  destruct (list_del_init_spec _ _ _ _ _ Hn) as (nl & Hnl & Hrn & Hsn & _). cbn [mbind option_bind]. rewrite Hnl.
  cbn [mbind option_bind]. eexists. split; [done|].
  split; [|split; [|done]]; split; change (node_prio (Plists pl nl (prio st))) with (node_prio st);
    cbn [prio_links node_links prio]; try done.
  - apply StronglySorted_app in Hs as (H12 & Hs1 & Hs2). apply StronglySorted_cons in Hs2 as [_ Hs2].
    apply StronglySorted_app. split_and!; [|done|done]. intros. apply H12; set_solver.
  - intros x Hx. apply Hk. set_solver.
  - apply Hk. set_solver.
Qed.

Lemma plist_head_init_spec st head :
  is_Some (get_next (prio_links st) head) -> is_Some (get_next (node_links st) head) ->
  exists st', plist_head_init st head = Some st' /\ ring (node_links st') head [] /\ ring (prio_links st') head [] /\
    prio st' = prio st.
Proof.
  intros Hp Hn. unfold plist_head_init.
  destruct (INIT_LIST_HEAD_spec _ _ Hp) as (pl & -> & Hrp & _). destruct (INIT_LIST_HEAD_spec _ _ Hn) as (nl & -> & Hrn & _).
  by eexists.
Qed.

(** * Theorem *)

(** C27: priority lists.  On a well-formed list, whose nodes are sorted by priority and
    whose [prio_list] holds the first node of every priority, [plist_first] is a
    node of the lowest priority value; [plist_add] ends and puts a single node behind all nodes
    of lower or equal and before all nodes of higher priority value; [plist_del] takes
    out any node, which is single afterwards, and the order of the others stays.  The list
    is well formed again in each case.  [plist_head_init] makes an
    empty list, [plist_node_init] a single node. *)
Theorem plist_correct st head l :
  plist_ok st head l ->
  plist_head_empty st head = Some (bool_decide (l = [])) /\
  (forall x l', l = x :: l' -> plist_first st head = Some x /\ forall y, y ∈ l -> node_prio st x <= node_prio st y) /\
  (forall fuel node, plist_single st node -> node ∉ head :: l -> (length l < fuel)%nat ->
     exists st' l1 l2, plist_add fuel st node head = Some st' /\ l = l1 ++ l2 /\
       Forall (fun x => node_prio st x <= node_prio st node) l1 /\
       Forall (fun x => node_prio st node < node_prio st x) l2 /\
       plist_ok st' head (l1 ++ node :: l2) /\ prio st' = prio st) /\
  (forall l1 node l2, l = l1 ++ node :: l2 ->
     exists st', plist_del st node head = Some st' /\ plist_ok st' head (l1 ++ l2) /\ plist_single st' node /\
       prio st' = prio st) /\
  (forall x, is_Some (get_next (prio_links st) x) -> is_Some (get_next (node_links st) x) ->
     (exists st', plist_head_init st x = Some st' /\ plist_ok st' x []) /\
     forall p, exists st', plist_node_init st x p = Some st' /\ plist_single st' x /\ node_prio st' x = p).
Proof.
  intros Hok. split_and!.
  - apply list_empty_spec, Hok.
  - intros x l' ->. split.
    + destruct Hok as [[_ Hn] _ _ _ _]. apply (seg_first _ _ _ _ Hn).
    + intros y [->|Hy]%elem_of_cons; [done|]. destruct Hok as [_ _ _ Hs _]. apply StronglySorted_cons in Hs as [Hf _].
      rewrite list.Forall_forall in Hf. by apply Hf.
  - intros fuel node Hsg Hnew Hf. destruct (plist_add_spec fuel st node head l Hok Hsg Hnew Hf) as (st' & l1 & l2 & ? & (? & ? & ?) & ? & ?).
    by exists st', l1, l2.
  - intros l1 node l2 ->. by apply plist_del_spec.
  - intros x Hp Hn. split; [|intros p].
    + destruct (plist_head_init_spec st x Hp Hn) as (st' & Hrun & Hrn & Hrp & _). exists st'. split; [done|].
      split; [done|done|by intros ? ?%elem_of_nil|constructor|by intros ? ?%elem_of_nil].
    + destruct (plist_head_init_spec (Plists (prio_links st) (node_links st) (<[x := p]> (prio st))) x Hp Hn) as (st' & Hrun & Hrn & Hrp & Hpr).
      exists st'. split; [done|]. unfold node_prio. rewrite Hpr. cbn [prio]. rewrite lookup_insert_eq.
      split; [|done]. split; [done|done|]. rewrite Hpr. cbn [prio]. rewrite lookup_insert_eq. by eexists.
Qed.

(** The head 1 and the single nodes 2, 3 and 4 with priorities 5, 3 and 5. *)
Definition demo_plists : plists :=
  let h := list_to_map ((fun x => (x, ListHead x x)) <$> [1; 2; 3; 4]%positive) in
  Plists h h (list_to_map [(2%positive, 5); (3%positive, 3); (4%positive, 5)]).

Lemma demo_single x : x ∈ [1; 2; 3; 4]%positive -> ring (node_links demo_plists) x [] /\ ring (prio_links demo_plists) x [].
Proof.
  rewrite !elem_of_cons, elem_of_nil. intros [->|[->|[->|[->|[]]]]]; (split; split; [apply list.NoDup_singleton|split; reflexivity| |]);
    try apply list.NoDup_singleton; split; reflexivity.
Qed.

(** The nodes are added in order; 3 comes first, 2 before 4. *)
Lemma plist_correct_witness :
  exists st2 st3 st4, plist_add 1 demo_plists 2 1 = Some st2 /\ plist_add 2 st2 3 1 = Some st3 /\
    plist_add 3 st3 4 1 = Some st4 /\ plist_ok st2 1 [2%positive] /\
    plist_first st4 1 = Some 3%positive /\ get_next (node_links st4) 3 = Some 2%positive.
Proof.
  assert (Hin : forall x, x = 1%positive \/ x = 2%positive -> x ∈ [1; 2; 3; 4]%positive).
  { intros x Hx. rewrite !elem_of_cons. tauto. }
  destruct (plist_correct demo_plists 1 []) as (_ & _ & Hadd & _).
  { destruct (demo_single 1) as [H1 H2]; [auto|].
    split; [exact H1|exact H2|by intros ? ?%elem_of_nil|constructor|by intros ? ?%elem_of_nil]. }
  destruct (Hadd 1%nat 2%positive) as (st2 & l1 & l2 & Hrun & Hl & _ & _ & Hok & _).
  { destruct (demo_single 2) as [H1 H2]; [auto|]. split; [exact H1|exact H2|eexists; vm_compute; reflexivity]. }
  { rewrite elem_of_cons, elem_of_nil. intros [|[]]. discriminate. }
  { simpl. lia. }
  symmetry in Hl. apply app_nil in Hl as [-> ->]. vm_compute in Hrun. injection Hrun as <-.
  do 3 eexists. split_and!; [vm_compute; reflexivity|vm_compute; reflexivity|vm_compute; reflexivity|exact Hok| |];
    vm_compute; reflexivity.
Defined.
