(* ===== verification/NextTimer.v ===== *)
(** The next timer event: [__next_timer_interrupt], [cmp_next_hrtimer_event] and
    [get_next_timer_interrupt] of kernel/timer.c, by which an idle processor
    without a periodic tick decides how long it may sleep.

    The search looks through the arrays of the wheel in order and stops at
    the first list with a timer that may not be deferred.  It is proved to find the
    earliest one although coarser arrays may hold earlier timers until they are
    cascaded.  The calls that keep the remembered [next_timer] up to date belong to
    Timer; here it is shown that they keep it early enough. *)
From Stdlib Require Import ZArith Lia Bool.
From stdpp Require Import base numbers list gmap option.
From S2P Require Import Prelude TimeConv Timer.

Local Open Scope Z_scope.

(** * Definitions *)

Definition NEXT_TIMER_MAX_DELTA : Z := 2 ^ 30 - 1.
Definition KTIME_MAX : Z := 2 ^ 63 - 1.

Definition time_before_eq (a b : Z) : bool := time_after_eq b a.

(** The loop over [tv1]: the first timer that is not deferrable, and its slot. *)
Definition first_in_tv1 (base : tvec_base) (index : Z) : option (option (Z * Z)) :=
  loop 256 (fun slot_ =>
    match List.find (fun nte => negb (deferrable nte)) (slot base 1 slot_) with
    | Some nte => Some (Done (Some (expires nte, slot_)))
    | None =>
        let slot_ := Z.land (slot_ + 1) TVR_MASK in
        if slot_ =? index then Some (Done None) else Some (Next slot_)
    end) index.

(** The loop over one list of [tv2] to [tv5]. *)
Definition look (s : bool * Z) (nte : timer_list) : bool * Z :=
  let '(found, e) := s in
  if deferrable nte then (found, e)
  else (true, if time_before (expires nte) e then expires nte else e).

(** The loop over the slots of one array, with whether the function returns. *)
Definition search_array (base : tvec_base) (tv index : Z) (found : bool) (e : Z)
  : option (bool * Z * bool) :=
  loop 64 (fun '(slot_, found, e) =>
    let '(found, e) := foldl look (found, e) (slot base tv slot_) in
    if found then Some (Done (found, e, negb ((index =? 0) || (slot_ <? index))))
    else
      let slot_ := Z.land (slot_ + 1) TVN_MASK in
      if slot_ =? index then Some (Done (found, e, false)) else Some (Next (slot_, found, e)))
    (index, found, e).

(** The number of the next cascade of the next array. *)
Definition round_up_shift (j index bits : Z) : Z :=
  Z.shiftr (if index =? 0 then j else u64 (j + (2 ^ bits - index))) bits.

(** The loop over [tv2] to [tv5]. *)
Definition search_arrays (base : tvec_base) (j : Z) (found : bool) (e : Z) : option Z :=
  x ← for_ 0 4 (fun array '(j, found, e) =>
    let index := Z.land j TVN_MASK in
    '(found, e, ret) ← search_array base (array + 2) index found e;
    if (ret : bool) then Some (Done e)
    else Some (Next (round_up_shift j index TVN_BITS, found, e))) (j, found, e);
  match x with Next (_, _, e) => Some e | Done e => Some e end.

Definition __next_timer_interrupt (base : tvec_base) : option Z :=
  let j := timer_jiffies base in
  let index := Z.land j TVR_MASK in
  r ← first_in_tv1 base index;
  let j' := round_up_shift j index TVR_BITS in
  match r with
  | Some (e, slot_) =>
      if (index =? 0) || (slot_ <? index) then search_arrays base j' true e else Some e
  | None => search_arrays base j' false (u64 (j + NEXT_TIMER_MAX_DELTA))
  end.

(** A clock base of the high-resolution timers: when its first timer expires, if it has
    one, and what its clock reads, in nanoseconds. *)
Record hrtimer_clock_base : Type := ClockBase { first_expires : option Z; clock_time : Z }.

Definition hrtimer_get_next_event (hres_active : bool) (clock_bases : list hrtimer_clock_base) : Z :=
  let mindelta :=
    if negb hres_active then
      foldl (fun mindelta base =>
        match first_expires base with
        | None => mindelta
        | Some e => let delta := long (e - clock_time base) in
            if delta <? mindelta then delta else mindelta
        end) KTIME_MAX clock_bases
    else KTIME_MAX in
  if mindelta <? 0 then 0 else mindelta.

(** [hr_delta] is what [hrtimer_get_next_event] returns. *)
Definition cmp_next_hrtimer_event (HZ hr_delta now e : Z) : Z :=
  if hr_delta =? KTIME_MAX then e
  else if hr_delta <=? 0 then u64 (now + 1)
  else
    let delta := timespec_to_jiffies HZ (ns_to_timespec hr_delta) in
    let delta := if NEXT_TIMER_MAX_DELTA <? delta then NEXT_TIMER_MAX_DELTA else delta in
    let delta := if delta <? 1 then 1 else delta in
    let now := u64 (now + delta) in
    if time_before now e then now else e.

Definition get_next_timer_interrupt (HZ hr_delta : Z) (base : tvec_base) (now : Z)
  : option (tvec_base * Z) :=
  base ← if time_before_eq (next_timer base) (timer_jiffies base)
         then e ← __next_timer_interrupt base; Some (set_next_timer base e)
         else Some base;
  let e := next_timer base in
  if time_before_eq e now then Some (base, now)
  else Some (base, cmp_next_hrtimer_event HZ hr_delta now e).

(** * Walking round an array *)

(** A search through the [2 ^ w] slots of an array that begins at [c]; [hit] says
    what is found in a slot. *)
Lemma ring_scan {S R} w c (step : S -> option (ctl S R)) (emb : Z -> S) none (hit : Z -> option R) :
  0 <= w ->
  (forall V, c <= V < c + 2 ^ w ->
     step (emb (V mod 2 ^ w)) = Some (match hit V with
       | Some r => Done r
       | None => let s := Z.land (V mod 2 ^ w + 1) (2 ^ w - 1) in
           if s =? c mod 2 ^ w then Done none else Next (emb s)
       end)) ->
  exists r, loop (Z.to_nat (2 ^ w)) step (emb (c mod 2 ^ w)) = Some r /\
    ((exists V, c <= V < c + 2 ^ w /\ hit V = Some r /\ forall V', c <= V' < V -> hit V' = None) \/
     (r = none /\ forall V, c <= V < c + 2 ^ w -> hit V = None)).
Proof.
  intros Hw Hstep. set (K := 2 ^ w) in *. assert (HK : 0 < K) by (apply Z.pow_pos_nonneg; lia).
  assert (Hgen : forall n V, V + Z.of_nat n = c + K -> c <= V < c + K ->
    (forall V', c <= V' < V -> hit V' = None) ->
    exists r, loop n step (emb (V mod K)) = Some r /\
      ((exists V, c <= V < c + K /\ hit V = Some r /\ forall V', c <= V' < V -> hit V' = None) \/
       (r = none /\ forall V, c <= V < c + K -> hit V = None))).
  { induction n as [|n IH]; intros V Hn HV Hno; [lia|]. rewrite loop_S, Hstep by done.
    destruct (hit V) as [r|] eqn:Hh; [exists r; split; [done|]; left; by exists V|].
    assert (Hno' : forall V', c <= V' < V + 1 -> hit V' = None).
    { intros V' HV'. destruct (Z.eq_dec V' V) as [->|]; [done|]. apply Hno. lia. }
    assert (Z.land (V mod K + 1) (K - 1) = (V + 1) mod K) as ->
      by (unfold K; rewrite land_pow2_sub1 by lia; by rewrite Zplus_mod_idemp_l).
    cbv zeta. destruct (Z.eqb_spec ((V + 1) mod K) (c mod K)) as [He|He].
    - exists none. split; [done|]. right. split; [done|]. intros V' HV'. apply Hno'.
      enough (V + 1 = c + K) by lia.
      pose proof (Z.div_mod (V + 1) K ltac:(lia)). pose proof (Z.div_mod c K ltac:(lia)).
      assert (0 < (V + 1) / K - c / K) by nia. nia.
    - assert (V + 1 <> c + K).
      { intros E. apply He. rewrite E. replace (c + K) with (c + 1 * K) by lia. by rewrite Z.mod_add by lia. }
      apply IH; [lia|lia|done]. }
  destruct (Hgen (Z.to_nat K) c) as (r & Hr & Hpost); [lia|lia|lia|]. by exists r.
Qed.

(** * What the wheel tells about the time a timer is due *)

Section next.
Context (t : Z) (base : tvec_base).

(** A timer that may not be deferred and is due at [f] hangs in array [n] at [i]. *)
Definition live (n i f : Z) : Prop :=
  exists x, x ∈ slot base n i /\ deferrable x = false /\ expires x = u64 f.

Definition in_reach (f : Z) : Prop := t - 2 ^ 62 <= f < t + 2 ^ 32.

(** No such timer is out of reach of the wheel, or was when it was added: every one
    of the last array hangs where its own time says. *)
Definition all_near : Prop :=
  forall n i x, x ∈ slot base n i -> deferrable x = false ->
    exists f, in_reach f /\ expires x = u64 f /\ (n = 5 -> i = (f / 2 ^ shift 5) mod TVN_SIZE).

Context (Hslots : slots_ok t (fun _ => t) base) (Hnear : all_near).

Lemma due_unique f g : in_reach f -> t - 2 ^ 63 <= g < t + 2 ^ 63 -> u64 f = u64 g -> f = g.
Proof. intros Hf Hg. apply u64_inj. unfold in_reach in Hf. lia. Qed.

(** Where a timer hangs, by the time it is due. *)
Lemma live_placed n i f :
  live n i f -> in_reach f ->
  (n = 1 /\ i = Z.max t f mod TVR_SIZE /\ Z.max t f < t + TVR_SIZE) \/
  (2 <= n <= 5 /\ i = (f / 2 ^ shift n) mod TVN_SIZE /\ t <= f /\
   next_cascade n t <= f / 2 ^ shift n <= next_cascade n t + 63).
Proof.
  intros (x & Hx & Hd & He) Hf. destruct (Hnear _ _ _ Hx Hd) as (f' & Hf' & He' & H5).
  assert (f' = f) as -> by (apply due_unique; [done|unfold in_reach in Hf; lia|congruence]).
  pose proof (proj2 Hslots _ _ _ Hx) as Hok. cbv beta in Hok.
  destruct Hok as [(g & [Hg Hge] & Hp)|(-> & -> & g & Hg & Hge)].
  - assert (f = g) as <- by (apply due_unique; [done|lia|congruence]).
    destruct Hp as [(-> & -> & Hr)|(Hn & V & -> & HV & HVf & Hx5)].
    { left. rewrite Z.max_r by lia. split_and!; [done|done|lia]. }
    right. pose proof (shift_pos n Hn) as Hpos.
    assert (V = f / 2 ^ shift n) as <-; [|by split_and!; try lia].
    destruct (Z.eq_dec n 5) as [->|]; [|apply (Z.div_unique _ _ _ (f - 2 ^ shift n * V)); lia].
    specialize (H5 eq_refl).
    assert (V <= f / 2 ^ shift 5) by (apply Z.div_le_lower_bound; lia).
    assert (f / 2 ^ shift 5 <= next_cascade 5 t + 63).
    { unfold next_cascade, in_reach in *. change (2 ^ shift 5) with (2 ^ 26) in *.
      pose proof (Z.div_le_mono f (t - 1 + 64 * 2 ^ 26) (2 ^ 26) ltac:(lia) ltac:(lia)) as Hle.
      rewrite Z.div_add in Hle by lia. lia. }
    unfold TVN_SIZE, TVN_BITS in H5. pose proof (Z.div_mod V (2 ^ 6) ltac:(lia)).
    pose proof (Z.div_mod (f / 2 ^ shift 5) (2 ^ 6) ltac:(lia)).
    assert (- 1 < f / 2 ^ shift 5 / 2 ^ 6 - V / 2 ^ 6 < 1) by lia. lia.
  - left. assert (f = g) as <- by (apply due_unique; [done|lia|congruence]).
    rewrite Z.max_l by lia. split_and!; [done|done|]. unfold TVR_SIZE, TVR_BITS. lia.
Qed.

(** The cascades of the next array. *)
Lemma next_cascade_up n : 2 <= n <= 4 -> next_cascade (n + 1) t = (next_cascade n t - 1) / 64 + 1.
Proof.
  intros Hn. unfold next_cascade. replace (shift (n + 1)) with (shift n + 6) by (unfold shift, TVN_BITS; lia).
  rewrite Z.pow_add_r by (unfold shift, TVR_BITS, TVN_BITS; lia).
  rewrite <- Z.div_div by (pose proof (shift_pos n); lia). f_equal. f_equal. lia.
Qed.

(** Array [n] is next cascaded in tick [start n]; no timer in it is due before. *)
Definition start (n : Z) : Z := 2 ^ shift n * next_cascade n t.

Lemma start_up n : 2 <= n <= 4 ->
  start (n + 1) = 2 ^ shift n * (64 * ((next_cascade n t - 1) / 64 + 1)).
Proof.
  intros Hn. unfold start. rewrite next_cascade_up by done.
  replace (shift (n + 1)) with (shift n + 6) by (unfold shift, TVN_BITS; lia).
  rewrite Z.pow_add_r by (unfold shift, TVR_BITS, TVN_BITS; lia). lia.
Qed.

Lemma start_mono m n : 2 <= m <= n -> n <= 5 -> start m <= start n.
Proof.
  intros Hm Hn. assert (Hstep : forall k, 2 <= k <= 4 -> start k <= start (k + 1)).
  { intros k Hk. rewrite start_up by done. unfold start. pose proof (shift_pos k ltac:(lia)).
    apply Z.mul_le_mono_nonneg_l; [lia|]. Z.div_mod_to_equations. lia. }
  pose proof (Hstep 2 ltac:(lia)) as H2. pose proof (Hstep 3 ltac:(lia)) as H3. pose proof (Hstep 4 ltac:(lia)) as H4.
  change (2 + 1) with 3 in H2. change (3 + 1) with 4 in H3. change (4 + 1) with 5 in H4.
  assert (m = 2 \/ m = 3 \/ m = 4 \/ m = 5) as [-> | [-> | [-> | ->]]] by lia;
  assert (n = 2 \/ n = 3 \/ n = 4 \/ n = 5) as [-> | [-> | [-> | ->]]] by lia; lia.
Qed.

Lemma start_2 : t <= start 2 < t + TVR_SIZE.
Proof.
  unfold start, next_cascade. change (2 ^ shift 2) with 256. change TVR_SIZE with 256.
  Z.div_mod_to_equations. lia.
Qed.

Lemma live_start m n i f : 2 <= m <= n -> live n i f -> in_reach f -> start m <= f.
Proof.
  intros Hm Hl Hf. destruct (live_placed _ _ _ Hl Hf) as [[-> _]|(Hn & _ & _ & HV & _)]; [lia|].
  etrans; [by apply (start_mono m n); lia|]. unfold start. pose proof (shift_pos n Hn).
  pose proof (Z.mul_div_le f (2 ^ shift n) ltac:(lia)). nia.
Qed.

(** * The search *)

(** [g] is the time of some timer, or the limit, and no timer of the arrays below
    [m] runs before [g]. *)
Record candidate (m g : Z) : Prop := {
  cand_range : t - 2 ^ 62 <= g <= t + NEXT_TIMER_MAX_DELTA;
  cand_timer : g = t + NEXT_TIMER_MAX_DELTA \/ exists n i, live n i g;
  cand_first : forall n i f, n < m -> live n i f -> in_reach f -> g <= Z.max t f
}.

Definition urgent (x : timer_list) : bool := negb (deferrable x).

Lemma urgent_live n i x :
  x ∈ slot base n i -> urgent x = true -> exists f, live n i f /\ in_reach f /\ expires x = u64 f.
Proof.
  intros Hx Hu. unfold urgent in Hu. apply negb_true_iff in Hu.
  destruct (Hnear _ _ _ Hx Hu) as (f & Hf & He & _). exists f. split_and!; [by exists x|done|done].
Qed.

Lemma before_spec f g :
  in_reach f -> t - 2 ^ 62 <= g <= t + NEXT_TIMER_MAX_DELTA -> time_before (u64 f) (u64 g) = (f <? g).
Proof.
  intros Hf Hg. unfold time_before, in_reach, NEXT_TIMER_MAX_DELTA in *. rewrite u64_sub, s64_u64 by lia. zcases.
Qed.

(** The earliest timer of a list. *)
Lemma look_ok n i l found g :
  (forall x, x ∈ l -> x ∈ slot base n i) -> t - 2 ^ 62 <= g <= t + NEXT_TIMER_MAX_DELTA ->
  exists g', foldl look (found, u64 g) l = (found || existsb urgent l, u64 g') /\
    t - 2 ^ 62 <= g' <= g /\ (g' = g \/ live n i g') /\ (existsb urgent l = false -> g' = g) /\
    (forall x f, x ∈ l -> urgent x = true -> expires x = u64 f -> in_reach f -> g' <= f).
Proof.
  revert found g. induction l as [|x l IH]; intros found g Hl Hg; simpl.
  - exists g. rewrite orb_false_r. split_and!; [done|lia|lia|by left|done|]. by intros ? ? ?%elem_of_nil.
  - assert (Hx : x ∈ slot base n i) by (apply Hl; constructor).
    assert (Hl' : forall y, y ∈ l -> y ∈ slot base n i) by (intros y Hy; apply Hl; by constructor).
    destruct (deferrable x) eqn:Hd.
    + assert (Hu : urgent x = false) by (unfold urgent; by rewrite Hd). rewrite Hu. simpl.
      destruct (IH found g Hl' Hg) as (g' & -> & H1 & H2 & H3 & H4). exists g'. split_and!; try done; try lia.
      intros y f [->|Hy]%elem_of_cons; [congruence|by apply H4].
    + assert (Hu : urgent x = true) by (unfold urgent; by rewrite Hd). rewrite Hu. simpl.
      destruct (urgent_live n i x Hx Hu) as (f & Hlf & Hf & He).
      rewrite He, before_spec by done. set (g1 := if f <? g then f else g).
      assert (Hg1 : t - 2 ^ 62 <= g1 <= g /\ g1 <= f /\ (g1 = g \/ live n i g1)).
      { unfold g1, in_reach in *. destruct (Z.ltb_spec f g); split_and!; try lia; by right. }
      replace (if f <? g then u64 f else u64 g) with (u64 g1) by (unfold g1; by destruct (f <? g)).
      destruct (IH true g1 Hl' ltac:(lia)) as (g' & -> & H1 & H2 & H3 & H4).
      exists g'. rewrite orb_true_r. split_and!; try done; try lia.
      * destruct H2 as [->|]; [apply Hg1|by right].
      * intros y f' [->|Hy]%elem_of_cons Huy Hey Hfy; [|by eapply H4].
        assert (f' = f) as -> by (apply due_unique; [done|unfold in_reach in Hf; lia|congruence]). lia.
Qed.

Lemma look_slot n i found g :
  t - 2 ^ 62 <= g <= t + NEXT_TIMER_MAX_DELTA ->
  exists g', foldl look (found, u64 g) (slot base n i) = (found || existsb urgent (slot base n i), u64 g') /\
    t - 2 ^ 62 <= g' <= g /\ (g' = g \/ live n i g') /\ (existsb urgent (slot base n i) = false -> g' = g) /\
    (forall f, live n i f -> in_reach f -> g' <= f).
Proof.
  intros Hg. destruct (look_ok n i (slot base n i) found g) as (g' & H1 & H2 & H3 & H4 & H5); [done|done|].
  exists g'. split_and!; try done; try lia.
  intros f (x & Hx & Hd & He). apply (H5 x f Hx); [unfold urgent; by rewrite Hd|done].
Qed.

Lemma no_urgent n i f : existsb urgent (slot base n i) = false -> live n i f -> False.
Proof.
  intros Hno (x & Hx & Hd & _). assert (existsb urgent (slot base n i) = true); [|congruence].
  apply existsb_exists. exists x. split; [by apply list_elem_of_In|]. unfold urgent. by rewrite Hd.
Qed.

Lemma some_urgent n i : existsb urgent (slot base n i) = true -> exists f, live n i f /\ in_reach f.
Proof.
  intros (x & Hx & Hu)%existsb_exists. destruct (urgent_live n i x) as (f & ? & ? & _); [by apply list_elem_of_In|done|].
  by exists f.
Qed.

(** What a search of array [n] gives when the first list it found something in is
    that of cascade [V]: no timer of this array is earlier than [g]. *)
Lemma first_of_array n V g :
  2 <= n <= 5 -> candidate n g -> next_cascade n t <= V -> g < 2 ^ shift n * (V + 1) ->
  (forall V', next_cascade n t <= V' < V -> existsb urgent (slot base n (V' mod TVN_SIZE)) = false) ->
  (forall f, live n (V mod TVN_SIZE) f -> in_reach f -> g <= f) ->
  candidate (n + 1) g.
Proof.
  intros Hn [Hr Ha Hb] HV Hg Hno Hin. split; [done|done|]. intros m i f Hm Hl Hf.
  destruct (Z.lt_ge_cases m n); [by apply (Hb m i)|]. assert (m = n) as -> by lia.
  destruct (live_placed _ _ _ Hl Hf) as [[-> _]|(_ & -> & Ht & HVf)]; [lia|]. rewrite Z.max_r by done.
  destruct (Z.lt_trichotomy (f / 2 ^ shift n) V) as [Hlt|[<-|Hgt]]; [|by apply Hin|].
  - exfalso. eapply no_urgent, Hl. apply Hno. lia.
  - pose proof (shift_pos n Hn). pose proof (Z.mul_div_le f (2 ^ shift n) ltac:(lia)). nia.
Qed.

(** The search may stop when it has not passed the start of the coarser arrays. *)
Lemma first_of_all n g : 2 <= n <= 5 -> candidate n g -> (n <= 5 -> g < start n) -> candidate 6 g.
Proof.
  intros Hn [Hr Ha Hb] Hg. split; [done|done|]. intros m i f Hm Hl Hf.
  destruct (Z.lt_ge_cases m n); [by apply (Hb m i)|].
  pose proof (live_start n m i f ltac:(lia) Hl Hf). lia.
Qed.

Lemma block_end c V :
  c mod 64 <> 0 -> c <= V <= c + 63 -> c mod 64 <= V mod 64 -> V + 1 <= 64 * ((c - 1) / 64 + 1).
Proof. intros. Z.div_mod_to_equations. lia. Qed.

Lemma stop_ok n V g :
  2 <= n <= 5 -> candidate (n + 1) g -> next_cascade n t <= V <= next_cascade n t + 63 ->
  g < 2 ^ shift n * (V + 1) ->
  let c := next_cascade n t in
  candidate (if negb ((c mod TVN_SIZE =? 0) || (V mod TVN_SIZE <? c mod TVN_SIZE)) then 6 else n + 1) g.
Proof.
  intros Hn Hc HV Hg c. change TVN_SIZE with 64.
  destruct (Z.eqb_spec (c mod 64) 0) as [|H0]; [done|]. destruct (Z.ltb_spec (V mod 64) (c mod 64)) as [|H1]; [done|].
  simpl. destruct (Z.eq_dec n 5) as [->|]; [done|]. apply (first_of_all (n + 1)); [lia|done|]. intros _.
  rewrite start_up by lia. pose proof (block_end c V H0 HV H1). pose proof (shift_pos n Hn). unfold c in *. nia.
Qed.

(** A timer in the list of cascade [V] is due before the next cascade. *)
Lemma live_slot n V f :
  2 <= n <= 5 -> live n (V mod TVN_SIZE) f -> in_reach f ->
  next_cascade n t <= V < next_cascade n t + TVN_SIZE -> f < 2 ^ shift n * (V + 1).
Proof.
  intros Hn Hl Hf HV. destruct (live_placed _ _ _ Hl Hf) as [[-> _]|(_ & Hi & _ & HVf)]; [lia|].
  change TVN_SIZE with 64 in *. assert (f / 2 ^ shift n = V) as <- by (Z.div_mod_to_equations; lia).
  pose proof (shift_pos n Hn). pose proof (Z.mul_succ_div_gt f (2 ^ shift n) ltac:(lia)). lia.
Qed.

(** An array of the wheel is searched: the function returns with the earliest timer,
    or goes on with the earliest up to this array. *)
Lemma search_array_ok n found g :
  2 <= n <= 5 -> candidate n g -> (found = true -> g < 2 ^ shift n * (next_cascade n t + 1)) ->
  exists found' g' ret,
    search_array base n (next_cascade n t mod TVN_SIZE) found (u64 g) = Some (found', u64 g', ret) /\
    candidate (if ret : bool then 6 else n + 1) g' /\
    (found' = true -> g' < 2 ^ shift n * (next_cascade n t + 64)).
Proof.
  intros Hn Hc Hfound. set (c := next_cascade n t) in *. pose proof (shift_pos n Hn) as Hpos.
  pose proof (fun V => look_slot n (V mod TVN_SIZE) found g (cand_range _ _ Hc)) as Hlook.
  set (hit V := let '(fd, e) := foldl look (found, u64 g) (slot base n (V mod TVN_SIZE)) in
    if fd : bool then Some (fd, e, negb ((c mod TVN_SIZE =? 0) || (V mod TVN_SIZE <? c mod TVN_SIZE))) else None).
  assert (Hnone : forall V, hit V = None -> found = false /\ existsb urgent (slot base n (V mod TVN_SIZE)) = false).
  { intros V HV. unfold hit in HV. destruct (Hlook V) as (? & Hl & _). rewrite Hl in HV. apply orb_false_iff.
    by destruct (found || _). }
  unfold search_array.
  match goal with |- context [loop 64 ?step _] =>
    destruct (ring_scan 6 c step (fun s => (s, found, u64 g)) (false, u64 g, false) hit) as (r & Hrun & Hpost) end; [lia| |].
  - intros V HV. unfold hit. change (2 ^ 6) with TVN_SIZE. destruct (Hlook V) as (g' & -> & _ & _ & Hsame & _).
    destruct (found || _) eqn:Hf; [done|]. apply orb_false_iff in Hf as [-> Hf]. rewrite (Hsame Hf).
    cbv zeta. unfold TVN_MASK. by destruct (Z.land _ _ =? _).
  - change (2 ^ 6) with TVN_SIZE in Hrun, Hpost. change (Z.to_nat TVN_SIZE) with 64%nat in Hrun. rewrite Hrun.
    destruct Hpost as [(V & HV & Hhit & Hno)|(-> & Hno)].
    + unfold hit in Hhit. destruct (Hlook V) as (g' & Hl & Hr & Hor & _ & Hle). rewrite Hl in Hhit.
      destruct (found || _) eqn:Hf in Hhit; [|done]. injection Hhit as <-.
      assert (Hg' : g' < 2 ^ shift n * (V + 1)).
      { destruct found eqn:Hfd.
        - specialize (Hfound eq_refl). destruct (Z.eq_dec V c) as [->|]; [lia|]. destruct (Hnone c) as [[=] _]. apply Hno. lia.
        - destruct (some_urgent _ _ Hf) as (f & Hlf & Hfr). specialize (Hle f Hlf Hfr). pose proof (live_slot n V f Hn Hlf Hfr HV). lia. }
      exists true, g', (negb ((c mod TVN_SIZE =? 0) || (V mod TVN_SIZE <? c mod TVN_SIZE))). split; [done|].
      change TVN_SIZE with 64 in HV. split; [|intros _; nia]. apply stop_ok; [done| |lia|done].
      apply (first_of_array n V); [done| |lia|done|intros; by apply Hnone, Hno|done].
      destruct Hc as [Hc1 Hc2 Hc3]. split; [lia|destruct Hor as [->|]; eauto|].
      intros m i f Hm Hlf Hfr. specialize (Hc3 m i f Hm Hlf Hfr). lia.
    + exists false, g, false. split; [done|]. split; [|done]. destruct Hc as [Hc1 Hc2 Hc3].
      split; [done|done|]. intros m i f Hm Hlf Hfr. destruct (Z.lt_ge_cases m n); [by apply (Hc3 m i)|].
      assert (m = n) as -> by lia. exfalso.
      destruct (live_placed _ _ _ Hlf Hfr) as [[-> _]|(_ & -> & _ & HVf)]; [lia|]. eapply no_urgent, Hlf.
      apply Hnone, Hno. fold c in HVf. change TVN_SIZE with 64. lia.
Qed.

(** [j] is the number of the next cascade of array [n] up to the bits that were
    shifted out at the top. *)
Definition numbers (n j : Z) : Prop :=
  0 <= j <= 2 ^ 56 /\ exists q, j = next_cascade n t + q * 2 ^ (64 - shift n).

Lemma numbers_index n j : 2 <= n <= 5 -> numbers n j -> Z.land j TVN_MASK = next_cascade n t mod TVN_SIZE.
Proof.
  intros Hn [_ [q ->]]. unfold TVN_MASK, TVN_SIZE, TVN_BITS. rewrite land_pow2_sub1 by lia.
  replace (64 - shift n) with (58 - shift n + 6) by lia.
  rewrite Z.pow_add_r, Z.mul_assoc, Z.mod_add by (unfold shift, TVR_BITS, TVN_BITS; lia). done.
Qed.

Lemma round_up_div j i : 0 <= j -> i = j mod 64 -> (if i =? 0 then j else j + (64 - i)) / 64 = (j - 1) / 64 + 1.
Proof. intros Hj ->. destruct (Z.eqb_spec (j mod 64) 0); Z.div_mod_to_equations; lia. Qed.

Lemma numbers_up n j :
  2 <= n <= 4 -> numbers n j -> numbers (n + 1) (round_up_shift j (Z.land j TVN_MASK) TVN_BITS).
Proof.
  intros Hn [Hj [q Hq]]. unfold round_up_shift, TVN_MASK, TVN_SIZE, TVN_BITS.
  rewrite land_pow2_sub1, Z.shiftr_div_pow2 by lia. change (2 ^ 6) with 64.
  pose proof (Z.mod_pos_bound j 64 ltac:(lia)). rewrite wrap_small by (unfold is_word; lia).
  rewrite round_up_div by lia. split; [Z.div_mod_to_equations; lia|]. exists q.
  rewrite next_cascade_up by lia. subst j.
  replace (64 - shift n) with (64 - shift (n + 1) + 6) by (unfold shift, TVN_BITS; lia).
  rewrite Z.pow_add_r by (unfold shift, TVR_BITS, TVN_BITS; lia). change (2 ^ 6) with 64.
  replace (next_cascade n t + q * (2 ^ (64 - shift (n + 1)) * 64) - 1)
    with (next_cascade n t - 1 + q * 2 ^ (64 - shift (n + 1)) * 64) by lia.
  rewrite Z.div_add by lia. lia.
Qed.

Lemma numbers_2 : numbers 2 (round_up_shift (u64 t) (Z.land (u64 t) TVR_MASK) TVR_BITS).
Proof.
  unfold round_up_shift. rewrite (tv1_index _ t) by done. unfold TVR_SIZE, TVR_BITS.
  rewrite Z.shiftr_div_pow2 by lia. pose proof (wrap_range 64 t ltac:(lia)) as Hr. unfold is_word in Hr.
  assert (Hm : u64 t mod 2 ^ 8 = t mod 2 ^ 8) by (unfold wrap; by apply (mod_mod_pow2 t 8 64)).
  unfold numbers, next_cascade. change (2 ^ shift 2) with (2 ^ 8). change (64 - shift 2) with 56.
  set (k := t / 2 ^ 64). assert (Hk : u64 t = t - k * 2 ^ 64) by (unfold wrap, k; Z.div_mod_to_equations; lia).
  destruct (Z.eqb_spec (t mod 2 ^ 8) 0).
  - split; [Z.div_mod_to_equations; lia|]. exists (- k). rewrite Hk. Z.div_mod_to_equations. lia.
  - destruct (Z.lt_ge_cases (u64 t + (2 ^ 8 - t mod 2 ^ 8)) (2 ^ 64)).
    + rewrite (wrap_small _ (u64 t + _)) by (unfold is_word; pose proof (Z.mod_pos_bound t (2 ^ 8)); lia).
      split; [Z.div_mod_to_equations; lia|]. exists (- k). rewrite Hk. Z.div_mod_to_equations. lia.
    + assert (u64 (u64 t + (2 ^ 8 - t mod 2 ^ 8)) = 0) as ->.
      { replace (u64 t + (2 ^ 8 - t mod 2 ^ 8)) with (2 ^ 64) by (Z.div_mod_to_equations; lia). done. }
      split; [done|]. exists (- k - 1). Z.div_mod_to_equations. lia.
Qed.

Lemma search_arrays_ok j found g :
  numbers 2 j -> candidate 2 g -> (found = true -> g < 2 ^ shift 2 * (next_cascade 2 t + 1)) ->
  exists g', search_arrays base j found (u64 g) = Some (u64 g') /\ candidate 6 g'.
Proof.
  intros Hj Hc Hf. unfold search_arrays.
  match goal with |- context [for_ 0 4 ?body _] =>
    destruct (for_rule body
      (fun k '(j, found, e) => exists g, e = u64 g /\ candidate (k + 2) g /\
         (k < 4 -> numbers (k + 2) j /\ (found = true -> g < 2 ^ shift (k + 2) * (next_cascade (k + 2) t + 1))))
      (fun e => exists g, e = u64 g /\ candidate 6 g) 0 4 (j, found, u64 g)) as (x & -> & Hx) end.
  - lia.
  - by exists g.
  - intros k [[j' found'] e] Hk (g1 & -> & Hc1 & Hrest). destruct (Hrest ltac:(lia)) as [Hj1 Hf1].
    rewrite (numbers_index (k + 2)) by (done || lia).
    destruct (search_array_ok (k + 2) found' g1) as (fd & g2 & ret & -> & Hc2 & Hf2); [lia|done|done|]. simpl.
    destruct ret; eexists; (split; [done|]); [by exists g2|].
    exists g2. split; [done|]. replace (k + 1 + 2) with (k + 2 + 1) by lia. split; [done|]. intros Hk4. split.
    + rewrite <- (numbers_index (k + 2) j') by (done || lia). by apply numbers_up; [lia|].
    + intros Hfd. specialize (Hf2 Hfd). rewrite next_cascade_up by lia.
      replace (shift (k + 2 + 1)) with (shift (k + 2) + 6) by (unfold shift, TVN_BITS; lia).
      rewrite Z.pow_add_r by (unfold shift, TVR_BITS, TVN_BITS; lia). pose proof (shift_pos (k + 2) ltac:(lia)).
      assert (next_cascade (k + 2) t + 64 <= 64 * ((next_cascade (k + 2) t - 1) / 64 + 1 + 1)) by (Z.div_mod_to_equations; lia).
      change (2 ^ 6) with 64. nia.
  - destruct x as [[[j' fd] e]|e]; [destruct Hx as (g' & -> & Hc' & _)|destruct Hx as (g' & -> & Hc')]; by exists g'.
Qed.

Lemma tv1_tick n i f : n < 2 -> live n i f -> in_reach f -> n = 1 /\ i = Z.max t f mod TVR_SIZE /\ t <= Z.max t f < t + TVR_SIZE.
Proof. intros Hn Hl Hf. destruct (live_placed _ _ _ Hl Hf) as [(-> & -> & ?)|[? _]]; [|lia]. split_and!; (done || lia). Qed.

(** The first timer of [tv1] is in the list of tick [V]. *)
Lemma first_in_tv1_ok :
  exists r, first_in_tv1 base (t mod TVR_SIZE) = Some r /\
    match r with
    | Some (e, s) => exists V g, t <= V < t + TVR_SIZE /\ s = V mod TVR_SIZE /\ e = u64 g /\ g <= V /\ candidate 2 g
    | None => candidate 2 (t + NEXT_TIMER_MAX_DELTA)
    end.
Proof.
  set (hit V := match List.find urgent (slot base 1 (V mod TVR_SIZE)) with
    | Some x => Some (Some (expires x, V mod TVR_SIZE)) | None => None end).
  assert (Hnone : forall V f, hit V = None -> live 1 (V mod TVR_SIZE) f -> False).
  { intros V f HV (x & Hx & Hd & _). unfold hit in HV. destruct (List.find _ _) eqn:Hfind; [done|].
    pose proof (find_none _ _ Hfind x ltac:(by apply list_elem_of_In)) as Hu. unfold urgent in Hu. by rewrite Hd in Hu. }
  unfold first_in_tv1.
  match goal with |- context [loop 256 ?step _] =>
    destruct (ring_scan 8 t step id None hit) as (r & Hrun & Hpost) end; [lia| |].
  { intros V HV. unfold hit, id. change (2 ^ 8) with TVR_SIZE. unfold urgent. destruct (List.find _ _); [done|].
    cbv zeta. unfold TVR_MASK. by destruct (_ =? _). }
  change (2 ^ 8) with TVR_SIZE in *. exists r. split; [exact Hrun|]. clear Hrun.
  destruct Hpost as [(V & HV & Hhit & Hno)|(-> & Hno)].
  - unfold hit in Hhit. destruct (List.find _ _) as [x|] eqn:Hfind; [|done]. injection Hhit as <-.
    apply find_some in Hfind as [Hx Hu]. destruct (urgent_live 1 (V mod TVR_SIZE) x) as (g & Hl & Hg & He);
      [by apply list_elem_of_In|done|]. destruct (tv1_tick 1 _ g ltac:(lia) Hl Hg) as (_ & Hi & Hr).
    assert (V = Z.max t g) as HVg by (change TVR_SIZE with 256 in *; Z.div_mod_to_equations; lia).
    exists V, g. split_and!; [lia|lia|done|done|lia|]. split.
    + unfold in_reach, NEXT_TIMER_MAX_DELTA, TVR_SIZE, TVR_BITS in *. lia.
    + right. by exists 1, (V mod TVR_SIZE).
    + intros n i f Hn Hlf Hf. destruct (tv1_tick n i f Hn Hlf Hf) as (-> & -> & Hrf).
      destruct (Z.lt_ge_cases (Z.max t f) V); [|lia]. exfalso. eapply Hnone, Hlf. apply Hno. lia.
  - split; [unfold NEXT_TIMER_MAX_DELTA; lia|by left|]. intros n i f Hn Hlf Hf.
    destruct (tv1_tick n i f Hn Hlf Hf) as (-> & -> & Hrf). exfalso. eapply Hnone, Hlf. apply Hno. lia.
Qed.

(** The whole search finds the earliest timer. *)
Lemma next_timer_found : exists g, __next_timer_interrupt base = Some (u64 g) /\ candidate 6 g.
Proof.
  unfold __next_timer_interrupt. rewrite (proj1 Hslots). pose proof numbers_2 as Hj.
  rewrite (tv1_index _ t) in * by done. pose proof start_2 as H2.
  assert (Hs2 : start 2 = 2 ^ shift 2 * next_cascade 2 t) by done. change (2 ^ shift 2) with 256 in Hs2.
  change TVR_SIZE with 256 in *.
  destruct first_in_tv1_ok as (r & Hrun & Hr). change TVR_SIZE with 256 in *. rewrite Hrun. simpl.
  destruct r as [[e s]|].
  - destruct Hr as (V & g & HV & -> & -> & Hg & Hc).
    destruct (Z.eqb_spec (t mod 256) 0) as [H0|H0]; simpl.
    { apply search_arrays_ok; [done|done|]. intros _. change (2 ^ shift 2) with 256. lia. }
    destruct (Z.ltb_spec (V mod 256) (t mod 256)) as [H1|H1].
    { apply search_arrays_ok; [done|done|]. intros _. change (2 ^ shift 2) with 256. lia. }
    exists g. split; [done|]. apply (first_of_all 2); [lia|done|]. intros _. rewrite Hs2.
    unfold next_cascade. change (2 ^ shift 2) with 256. Z.div_mod_to_equations. lia.
  - replace (u64 (u64 t + NEXT_TIMER_MAX_DELTA)) with (u64 (t + NEXT_TIMER_MAX_DELTA))
      by (unfold wrap; by rewrite Zplus_mod_idemp_l).
    by apply search_arrays_ok.
Qed.
End next.

(** * The remembered next event *)

(** No timer that may not be deferred, as far as its time is meant, runs before [g]. *)
Definition none_before (t : Z) (base : tvec_base) (g : Z) : Prop :=
  forall x f, pending base x -> deferrable x = false -> expires x = u64 f -> t - 2 ^ 63 <= f < t + 2 ^ 63 ->
    g <= Z.max t f.

(** [next_timer] stands for a tick [nx], not before [L]; when it lies in the future, no
    timer that may not be deferred runs before it. *)
Definition next_ok (L t : Z) (base : tvec_base) : Prop :=
  exists nx, next_timer base = u64 nx /\ L <= nx < t + 2 ^ 62 /\
    (t < nx -> none_before t base nx).

(** The times that calls on the base give to timers. *)
Definition action_near (L t : Z) (a : action) : Prop :=
  match a with
  | ModTimer _ e | ModTimerPending _ e => exists f, L <= f < t + 2 ^ 32 /\ e = u64 f
  | _ => True
  end.

Lemma action_near_ok L t a : action_near L t a -> action_ok a.
Proof. destruct a; simpl; [| |done|done]; intros (f & _ & ->); by apply wrap_range. Qed.

Lemma action_near_later L t t' a : t <= t' -> action_near L t a -> action_near L t' a.
Proof. intros Ht. destruct a; simpl; [| |done|done]; intros (f & ? & ->); exists f; (split; [lia|done]). Qed.

Lemma next_ok_fewer L t base base' :
  next_timer base' = next_timer base -> (forall x, pending base' x -> pending base x) ->
  next_ok L t base -> next_ok L t base'.
Proof. intros Hn Hp (nx & He & Hr & Hb). exists nx. rewrite Hn. split_and!; [done|lia|lia|]. intros Ht x f Hx. by apply (Hb Ht), Hp. Qed.

Lemma next_ok_tick L t base : next_ok L t base -> next_ok L (t + 1) base.
Proof.
  intros (nx & He & Hr & Hb). exists nx. split_and!; [done|lia|lia|]. intros Ht x f Hp Hd Hx Hf.
  destruct (Z.eq_dec f (t + 2 ^ 63)) as [->|]; [lia|]. specialize (Hb ltac:(lia) x f Hp Hd Hx ltac:(lia)). lia.
Qed.

(** ** Timers stay in reach *)

Lemma near_fewer t base base' :
  (forall n i x, x ∈ slot base' n i -> x ∈ slot base n i) -> all_near t base -> all_near t base'.
Proof. intros Hsub Hn n i x Hx. by apply Hn, Hsub. Qed.

Lemma near_add t base x f :
  timer_jiffies base = u64 t -> in_reach t f -> expires x = u64 f -> all_near t base ->
  all_near t (internal_add_timer base x).
Proof.
  intros Hj Hf He Hn n i y [Hy|[-> Hv]]%add_slot Hd; [by apply (Hn n i y)|].
  exists f. split; [done|]. split; [done|]. intros ->. revert Hv. rewrite Hj, He. unfold timer_vec, in_reach in *.
  rewrite u64_sub. change (TVR_BITS + 3 * TVN_BITS) with (shift 5).
  destruct (Z.ltb_spec (u64 (f - t)) TVR_SIZE); [done|].
  do 3 (destruct (_ <? _); [done|]).
  assert (s64 (u64 (f - t)) = f - t) as -> by (apply s64_u64; lia).
  destruct (Z.ltb_spec (f - t) 0); [done|]. rewrite (wrap_small 64 (f - t)) by (unfold is_word; lia).
  destruct (Z.ltb_spec 0xffffffff (f - t)); [lia|]. intros [= <-]. by apply tvn_index.
Qed.

Section calls.
Context (L t : Z) (HL : t - 2 ^ 62 <= L <= t).

Lemma detach_next_ok base x :
  timer_jiffies base = u64 t -> next_ok L t base -> next_ok L t (detach_pending base x).
Proof.
  intros Hj Hn.
  assert (Hp : forall y, pending (detach_pending base x) y -> pending base y) by (intros y []%detached_pending; done).
  revert Hp. unfold detach_pending. destruct (_ && _); intros Hp; [|by apply (next_ok_fewer L t base)].
  exists t. split_and!; [exact Hj|lia|lia|lia].
Qed.

Lemma arm_next_ok base x f :
  L <= f < t + 2 ^ 62 -> expires x = u64 f -> next_ok L t base ->
  next_ok L t (internal_add_timer
    (if time_before (expires x) (next_timer base) && negb (deferrable x) then set_next_timer base (expires x) else base) x).
Proof.
  intros Hf Hx (nx & He & Hr & Hb). rewrite He, Hx. unfold time_before. rewrite u64_sub, s64_u64 by lia.
  assert (Hadd : forall b y, next_timer (internal_add_timer b y) = next_timer b)
    by (intros b y; unfold internal_add_timer; by destruct (timer_vec _ _)).
  assert (Huniq : forall g, t - 2 ^ 63 <= g < t + 2 ^ 63 -> expires x = u64 g -> g = f)
    by (intros g Hg Hxg; apply u64_inj; [lia|congruence]).
  destruct (Z.ltb_spec (f - nx) 0) as [Hlt|Hge]; simpl; [destruct (deferrable x) eqn:Hd; simpl|].
  - exists nx. rewrite Hadd. split_and!; [done|lia|lia|]. intros Ht y g [->|Hy]%added_pending Hyd; [congruence|by apply (Hb Ht y)].
  - exists f. rewrite Hadd. split_and!; [done|lia|lia|]. intros Ht y g [->|Hy]%added_pending Hyd Hyg Hg.
    + rewrite (Huniq g) by done. lia.
    + specialize (Hb ltac:(lia) y g Hy Hyd Hyg Hg). lia.
  - exists nx. rewrite Hadd. split_and!; [done|lia|lia|]. intros Ht y g [->|Hy]%added_pending Hyd Hyg Hg.
    + rewrite (Huniq g) by done. lia.
    + by apply (Hb Ht y).
Qed.

Lemma __mod_timer_next_ok base x f b :
  L <= f < t + 2 ^ 32 -> timer_jiffies base = u64 t -> next_ok L t base ->
  next_ok L t (__mod_timer base x (u64 f) b).1.
Proof.
  intros Hf Hj Hn. unfold __mod_timer.
  destruct (timer_pending base (timer_id x)) as [old|]; [|destruct b; [done|]]; simpl.
  - apply (arm_next_ok (detach_pending base old) (Timer (timer_id x) (u64 f) (deferrable x)) f); [lia|done|].
    by apply detach_next_ok.
  - by apply (arm_next_ok base (Timer (timer_id x) (u64 f) (deferrable x)) f); [lia|..].
Qed.

Lemma act_next_ok base a :
  action_near L t a -> timer_jiffies base = u64 t -> next_ok L t base -> next_ok L t (act base a).
Proof.
  intros Ha Hj Hn.
  assert (Hdel : forall id, next_ok L t (del_timer base id).1).
  { intros id. unfold del_timer. destruct (timer_pending base id); [by apply detach_next_ok|done]. }
  destruct a as [x e|x e|id|id]; simpl in *.
  - destruct Ha as (f & Hf & ->). unfold mod_timer.
    destruct (timer_pending _ _); [destruct (_ =? _); [done|]|]; by apply __mod_timer_next_ok.
  - destruct Ha as (f & Hf & ->). by apply __mod_timer_next_ok.
  - done.
  - unfold try_to_del_timer_sync. case_decide; [done|apply Hdel].
Qed.

Lemma detach_near base x : all_near t base -> all_near t (detach_pending base x).
Proof.
  apply near_fewer. intros n i y. unfold detach_pending.
  destruct (_ && _); change (slot (set_next_timer ?b _)) with (slot b); by intros [? _]%detach_slot.
Qed.

Lemma __mod_timer_near base x f b :
  L <= f < t + 2 ^ 32 -> timer_jiffies base = u64 t -> all_near t base ->
  all_near t (__mod_timer base x (u64 f) b).1.
Proof.
  intros Hf Hj Hn. unfold __mod_timer.
  assert (Harm : forall (c : bool) b1, timer_jiffies b1 = u64 t -> all_near t b1 ->
    all_near t (internal_add_timer (if c then set_next_timer b1 (u64 f) else b1) (Timer (timer_id x) (u64 f) (deferrable x)))).
  { intros c b1 Hj1 Hn1. apply (near_add t _ _ f); [by destruct c|unfold in_reach; lia|done|by destruct c]. }
  destruct (timer_pending base (timer_id x)) as [old|]; [|destruct b; [done|]]; simpl; apply Harm; try done.
  - unfold detach_pending. by destruct (_ && _).
  - by apply detach_near.
Qed.

Lemma act_near base a :
  action_near L t a -> timer_jiffies base = u64 t -> all_near t base -> all_near t (act base a).
Proof.
  intros Ha Hj Hn.
  assert (Hdel : forall id, all_near t (del_timer base id).1).
  { intros id. unfold del_timer. destruct (timer_pending base id); [by apply detach_near|done]. }
  destruct a as [x e|x e|id|id]; simpl in *.
  - destruct Ha as (f & Hf & ->). unfold mod_timer.
    destruct (timer_pending _ _); [destruct (_ =? _); [done|]|]; by apply __mod_timer_near.
  - destruct Ha as (f & Hf & ->). by apply __mod_timer_near.
  - done.
  - unfold try_to_del_timer_sync. case_decide; [done|apply Hdel].
Qed.

(** Both invariants. *)
Definition next_inv (base : tvec_base) : Prop := next_ok L t base /\ all_near t base.

Lemma acts_inv l base :
  Forall (action_near L t) l -> wheel_ok t base -> next_inv base ->
  next_inv (foldl act base l) /\ wheel_ok t (foldl act base l).
Proof.
  revert base. induction l as [|a l IH]; intros base Hl Hw [Hn Hr]; simpl; [done|].
  apply Forall_cons_iff in Hl as [Ha Hl]. pose proof (proj1 (proj1 Hw)) as Hj. apply IH; [done| |].
  - apply act_ok; [by eapply action_near_ok|done].
  - split; [by apply act_next_ok|by apply act_near].
Qed.
End calls.

Section run.
Context (fn : tvec_base -> timer_list -> list action) (L t0 : Z).
Context (fn_near : forall base x, Forall (action_near L t0) (fn base x)).

Lemma fn_near_ok base x : Forall action_ok (fn base x).
Proof. apply (list.Forall_impl _ _ _ (fn_near base x)). intros a. apply action_near_ok. Qed.

Lemma fn_near_later t base x : t0 <= t -> Forall (action_near L t) (fn base x).
Proof. intros Ht. apply (list.Forall_impl _ _ _ (fn_near base x)). intros a. by apply action_near_later. Qed.

(** What a cascade leaves as it is. *)
Definition kept (t : Z) (base base' : tvec_base) : Prop :=
  next_timer base' = next_timer base /\
  (timer_jiffies base = u64 t -> all_near t base -> timer_jiffies base' = u64 t /\ all_near t base').

Lemma kept_trans t b1 b2 b3 : kept t b1 b2 -> kept t b2 b3 -> kept t b1 b3.
Proof. intros [H1 H2] [H3 H4]. split; [congruence|]. intros Hj Hn. destruct (H2 Hj Hn). by apply H4. Qed.

Lemma cascade_kept t base tv i : kept t base (cascade base tv i).1.
Proof.
  unfold cascade, list_replace_init. simpl.
  assert (Hadd : forall l b, (forall x, x ∈ l -> deferrable x = false -> exists f, in_reach t f /\ expires x = u64 f) ->
    kept t b (foldl internal_add_timer b l)).
  { induction l as [|x l IH]; intros b Hl; simpl; [done|]. eapply kept_trans; [|apply IH; intros y Hy; apply Hl; by constructor].
    split; [unfold internal_add_timer; by destruct (timer_vec _ _)|]. intros Hj Hn.
    split; [by rewrite (proj1 (proj2 (add_same b x)))|]. destruct (deferrable x) eqn:Hd.
    - intros n j y [Hy|[-> _]]%add_slot Hyd; [by apply (Hn n j y)|congruence].
    - destruct (Hl x) as (f & Hf & He); [constructor|done|]. by apply (near_add t b x f). }
  split.
  - assert (Hn : forall l b, next_timer (foldl internal_add_timer b l) = next_timer b); [|by rewrite Hn].
    induction l as [|x l IH]; intros b; simpl; [done|]. rewrite IH. unfold internal_add_timer. by destruct (timer_vec _ _).
  - intros Hj Hn. apply Hadd; [|done|].
    + intros x Hx Hd. destruct (Hn _ _ _ Hx Hd) as (f & ? & ? & _). by exists f.
    + eapply near_fewer, Hn. intros n j x. rewrite slot_insert. case_decide; [by intros ?%elem_of_nil|done].
Qed.

Lemma cascade_all_kept t base : kept t base (cascade_all base).
Proof.
  assert (Hc : forall b0 b tv i b' j, kept t b0 b -> cascade b tv i = (b', j) -> kept t b0 b').
  { intros b0 b tv i b' j H0 E. eapply kept_trans; [exact H0|]. pose proof (cascade_kept t b tv i) as Hk. by rewrite E in Hk. }
  assert (H0 : kept t base base) by done.
  unfold cascade_all. destruct (cascade base 2 _) as [b2 i2] eqn:E2. apply (Hc _ _ _ _ _ _ H0) in E2.
  destruct (negb (i2 =? 0)); [done|]. destruct (cascade b2 3 _) as [b3 i3] eqn:E3. apply (Hc _ _ _ _ _ _ E2) in E3.
  destruct (negb (i3 =? 0)); [done|]. destruct (cascade b3 4 _) as [b4 i4] eqn:E4. apply (Hc _ _ _ _ _ _ E3) in E4.
  destruct (negb (i4 =? 0)); [done|]. eapply kept_trans; [exact E4|]. apply cascade_kept.
Qed.

Lemma near_tick t base :
  (forall x, (exists n i, x ∈ slot base n i) -> later t x) -> all_near t base -> all_near (t + 1) base.
Proof.
  intros Hlater Hn n i x Hx Hd. destruct (Hn n i x Hx Hd) as (f & Hf & He & H5). exists f. split; [|done].
  destruct (Hlater x) as (g & Hg & Hge); [by exists n, i|].
  assert (f = g) as -> by (apply (due_unique t); [done|lia|congruence]). unfold in_reach in *. lia.
Qed.

Lemma run_tick_inv t base base' ran :
  t0 <= t -> t + 1 - 2 ^ 62 <= L <= t -> wheel_ok t base -> work_list base = [] -> next_inv L t base ->
  run_tick fn base = Some (base', ran) -> next_inv L (t + 1) base'.
Proof.
  intros Ht HL [Hs Hu] Hwork [Hn Hr]. unfold run_tick.
  destruct (before_tick t base Hs) as [Hs' Hsame]. rewrite (tv1_index _ t) in * by apply Hs.
  set (b := if _ =? 0 then _ else _) in *.
  assert (kept t base b) as [Hnb Hrb] by (unfold b; destruct (_ =? 0); [apply cascade_all_kept|done]).
  destruct (Hrb (proj1 Hs) Hr) as [Hjb Hnearb].
  assert (u64 (timer_jiffies b + 1) = u64 (t + 1)) as ->
    by (rewrite Hjb; unfold wrap; by rewrite Z.add_mod_idemp_l by lia).
  destruct (tick_start t base b Hs' Hsame Hu Hwork) as (Hw & Hp & _ & Hlater).
  simpl in Hw, Hp, Hlater |- *. set (b' := set_work_list _ _) in *.
  apply (loop_inv _ (fun s => wheel_ok (t + 1) s.1 /\ next_inv L (t + 1) s.1) (fun r => next_inv L (t + 1) r.1)).
  - intros [b1 r] [Hw1 [Hn1 Hr1]]. simpl in *. destruct (work_list b1) as [|x l]; [done|]. simpl.
    apply and_comm. apply acts_inv; [lia|apply fn_near_later; lia|by apply detach_ok|]. split.
    + apply (next_ok_fewer L (t + 1) b1); [done| |done]. intros y [Hy _]%detach_pending_iff. exact Hy.
    + eapply near_fewer, Hr1. by intros n i y [Hy _]%detach_slot.
  - simpl. split; [done|]. split.
    + apply (next_ok_fewer L (t + 1) base); [exact Hnb|apply Hp|by apply next_ok_tick].
    + apply near_tick; [exact Hlater|]. eapply near_fewer, Hnearb. intros n i y. unfold b'.
      change (slot (set_work_list _ _)) with (slot (set_vec b (<[(1, t mod TVR_SIZE) := []]> (vec b)))).
      rewrite slot_insert. case_decide; [by intros ?%elem_of_nil|done].
Qed.

(** Running timers keeps the remembered event early enough. *)
Lemma run_timers_inv t J base fuel :
  t0 <= t -> J + 1 - 2 ^ 62 <= L <= t -> wheel_ok t base -> work_list base = [] -> next_inv L t base ->
  t - 1 <= J < t + 2 ^ 62 -> (Z.to_nat (J - t + 1) < fuel)%nat ->
  exists base' log, __run_timers fn fuel base (u64 J) = Some (base', log) /\
    wheel_ok (J + 1) base' /\ work_list base' = [] /\ next_inv L (J + 1) base'.
Proof.
  intros Ht HL Hw Hwork Hn HJ Hfuel. unfold __run_timers.
  match goal with |- context [loop fuel ?step _] =>
    destruct (loop_total step
      (fun s => exists k, t <= k <= J + 1 /\ wheel_ok k s.1 /\ work_list s.1 = [] /\ next_inv L k s.1)
      (fun s => wheel_ok (J + 1) s.1 /\ work_list s.1 = [] /\ next_inv L (J + 1) s.1)
      (fun s => Z.to_nat (u64 (J + 1 - timer_jiffies s.1)))) with (fuel := fuel)
      (s := (base, @nil (Z * timer_list))) as ([base' log] & -> & Hpost) end.
  - intros [b log] (k & Hk & Hwk & Hwb & Hnk). simpl in *. pose proof (proj1 (proj1 Hwk)) as Hj. unfold time_after_eq.
    rewrite Hj, u64_sub, s64_u64 by lia. destruct (Z.leb_spec 0 (J - k)).
    + destruct (run_tick_ok fn fn_near_ok k b Hwk Hwb) as (b' & ran & Hrun & Hw' & Hwork' & _).
      rewrite Hrun. simpl. eexists. split; [done|]. simpl. split.
      * exists (k + 1). split; [lia|]. split; [done|]. split; [done|]. eapply (run_tick_inv k b); eauto; lia.
      * rewrite (proj1 (proj1 Hw')). unfold wrap. rewrite !Zminus_mod_idemp_r, !Z.mod_small by lia. lia.
    + assert (k = J + 1) as -> by lia. eexists. by split.
  - exists t. split; [lia|done].
  - simpl. rewrite (proj1 (proj1 Hw)). unfold wrap. rewrite Zminus_mod_idemp_r, Z.mod_small by lia. lia.
  - by exists base', log.
Qed.
End run.

(** * Asking for the next event *)

(** The delay until the first timer of a clock, as long as it fits. *)
Lemma hrtimer_delta_min l m :
  let r := foldl (fun mindelta base => match first_expires base with
    | None => mindelta
    | Some e => let delta := long (e - clock_time base) in if delta <? mindelta then delta else mindelta end) m l in
  r <= m /\
  (forall b e, b ∈ l -> first_expires b = Some e -> r <= long (e - clock_time b)) /\
  (r = m \/ exists b e, b ∈ l /\ first_expires b = Some e /\ r = long (e - clock_time b)).
Proof.
  revert m. induction l as [|c l IH]; intros m; cbn [foldl].
  - split_and!; [lia|by intros ? ? ?%elem_of_nil|by left].
  - set (m' := match first_expires c with None => m | Some e => _ end).
    destruct (IH m') as (H1 & H2 & H3). cbv zeta in *. set (r := foldl _ _ _) in *.
    assert (Hm : m' <= m /\ (forall e, first_expires c = Some e -> m' <= long (e - clock_time c)) /\
      (m' = m \/ exists e, first_expires c = Some e /\ m' = long (e - clock_time c))).
    { unfold m'. destruct (first_expires c) as [e|]; [|split_and!; [lia|done|by left]].
      destruct (Z.ltb_spec (long (e - clock_time c)) m); split_and!; try lia; try (intros ? [= <-]; lia).
      right. by exists e. }
    destruct Hm as (Hm1 & Hm2 & Hm3). split_and!.
    + lia.
    + intros b e [->|Hb]%elem_of_cons He; [specialize (Hm2 e He); lia|by apply H2].
    + destruct H3 as [->|(b & e & Hb & ? & ?)].
      * destruct Hm3 as [->|(e & ? & ->)]; [by left|]. right. exists c, e. by split_and!; [constructor| |].
      * right. exists b, e. by split_and!; [constructor| |].
Qed.

Lemma hrtimer_next_spec l :
  let r := hrtimer_get_next_event false l in
  0 <= r <= KTIME_MAX /\
  (forall b e, b ∈ l -> first_expires b = Some e -> r <= Z.max 0 (long (e - clock_time b))) /\
  (r = KTIME_MAX \/ exists b e, b ∈ l /\ first_expires b = Some e /\ r = Z.max 0 (long (e - clock_time b))).
Proof.
  unfold hrtimer_get_next_event. cbn [negb].
  destruct (hrtimer_delta_min l KTIME_MAX) as (H1 & H2 & H3). cbv zeta in *. set (r := foldl _ _ _) in *.
  assert (0 <= KTIME_MAX) by (unfold KTIME_MAX; lia).
  assert ((if r <? 0 then 0 else r) = Z.max 0 r) as -> by zcases. split_and!; [lia|lia| |].
  - intros b e Hb He. specialize (H2 b e Hb He). lia.
  - destruct H3 as [->|(b & e & ? & ? & ->)]; [left; lia|right; by exists b, e].
Qed.

(** The ticks until the first high-resolution timer. *)
Definition hr_ticks (HZ hr_delta : Z) : Z :=
  if hr_delta <=? 0 then 1 else Z.max 1 (timespec_to_jiffies HZ (ns_to_timespec hr_delta)).

Lemma cmp_next_spec HZ hr_delta T nx :
  T < nx < T + 2 ^ 63 ->
  exists R, cmp_next_hrtimer_event HZ hr_delta (u64 T) (u64 nx) = u64 R /\ T < R <= nx /\
    (hr_delta <> KTIME_MAX -> R <= T + hr_ticks HZ hr_delta).
Proof.
  intros Hnx. unfold cmp_next_hrtimer_event, hr_ticks.
  destruct (Z.eqb_spec hr_delta KTIME_MAX); [exists nx; split_and!; (done || lia)|].
  assert (Hadd : forall d, u64 (u64 T + d) = u64 (T + d)) by (intros d; unfold wrap; by rewrite Zplus_mod_idemp_l).
  destruct (Z.leb_spec hr_delta 0); [exists (T + 1); rewrite Hadd; split_and!; (done || lia)|].
  set (d := timespec_to_jiffies _ _). set (d' := if NEXT_TIMER_MAX_DELTA <? d then _ else d).
  set (d'' := if d' <? 1 then 1 else d').
  assert (Hd : 1 <= d'' <= 2 ^ 30 /\ d'' <= Z.max 1 d) by (unfold d'', d', NEXT_TIMER_MAX_DELTA; zcases).
  rewrite Hadd. unfold time_before. rewrite u64_sub, s64_u64 by lia.
  destruct (Z.ltb_spec (T + d'' - nx) 0); [exists (T + d'')|exists nx]; split_and!; (done || lia).
Qed.

Lemma reach_of t base x f :
  all_near t base -> work_list base = [] -> pending base x -> deferrable x = false -> expires x = u64 f ->
  t - 2 ^ 63 <= f < t + 2 ^ 63 -> in_reach t f /\ exists n i, live base n i f.
Proof.
  intros Hnear Hwork [Hx|(n & i & Hx)] Hd He Hf; [rewrite Hwork in Hx; by apply elem_of_nil in Hx|].
  destruct (Hnear _ _ _ Hx Hd) as (f' & Hf' & He' & _).
  assert (f' = f) as -> by (apply (due_unique t); [done|done|congruence]). split; [done|]. by exists n, i, x.
Qed.

Lemma next_timer_spec t base :
  wheel_ok t base -> work_list base = [] -> all_near t base ->
  exists g, __next_timer_interrupt base = Some (u64 g) /\ t - 2 ^ 62 <= g <= t + NEXT_TIMER_MAX_DELTA /\
    (g = t + NEXT_TIMER_MAX_DELTA \/ exists x, pending base x /\ deferrable x = false /\ expires x = u64 g) /\
    none_before t base g.
Proof.
  intros [Hs _] Hwork Hnear. destruct (next_timer_found t base Hs Hnear) as (g & Hrun & [Hr Ha Hb]).
  exists g. split_and!; [done|lia|lia| |].
  - destruct Ha as [|(n & i & x & Hx & Hd & He)]; [by left|right]. exists x. split; [right; by exists n, i|done].
  - intros x f Hp Hd He Hf. destruct (reach_of t base x f) as (Hreach & n & i & Hl); [done..|].
    apply (Hb n i f); [|done|done]. destruct (live_placed t base Hs Hnear n i f Hl Hreach) as [[-> _]|[? _]]; lia.
Qed.

(** The answer of [get_next_timer_interrupt] for a remembered event [nx]. *)
Lemma answer_ok HZ hr_delta T t base nx :
  t - 2 ^ 62 <= T < t + 2 ^ 62 -> t - 2 ^ 62 <= nx < t + 2 ^ 62 -> none_before t base nx -> all_near t base ->
  let base' := set_next_timer base (u64 nx) in
  exists nx' R, (if time_before_eq (u64 nx) (u64 T) then Some (base', u64 T)
    else Some (base', cmp_next_hrtimer_event HZ hr_delta (u64 T) (u64 nx))) =
      Some (set_next_timer base (u64 nx'), u64 R) /\
    next_inv (t - 2 ^ 62) t (set_next_timer base (u64 nx')) /\ none_before t base nx' /\
    T <= R <= Z.max T nx' /\ (hr_delta <> KTIME_MAX -> R <= T + hr_ticks HZ hr_delta).
Proof.
  intros HT Hr Hb Hnear base'. exists nx. unfold time_before_eq, time_after_eq. rewrite u64_sub, s64_u64 by lia.
  assert (next_inv (t - 2 ^ 62) t base') by (split; [by exists nx|done]).
  destruct (Z.leb_spec 0 (T - nx)).
  - exists T. split_and!; try done; [lia|]. intros _. unfold hr_ticks. zcases.
  - destruct (cmp_next_spec HZ hr_delta T nx) as (R & -> & ? & ?); [lia|]. exists R. split_and!; (done || lia).
Qed.

(** ** A timer out of reach *)

(** A timer armed [2 ^ 40] ticks ahead in tick [37 * 2 ^ 26] hangs in the last array at index 36,
    for cascade 100, and still does so shortly before. *)
Definition far_wheel : tvec_base :=
  set_timer_jiffies (act (TvecBase None (37 * 2 ^ 26) (37 * 2 ^ 26) ∅ []) (ModTimer (Timer 1 0 false) (37 * 2 ^ 26 + 2 ^ 40)))
    (100 * 2 ^ 26 - 100).

Lemma far_wheel_ok : wheel_ok (100 * 2 ^ 26 - 100) far_wheel.
Proof.
  assert (Hs : forall n i x, x ∈ slot far_wheel n i -> n = 5 /\ i = 36 /\ x = Timer 1 (37 * 2 ^ 26 + 2 ^ 40) false).
  { intros n i x Hx. change far_wheel with (set_timer_jiffies (internal_add_timer
      (TvecBase None (37 * 2 ^ 26) (37 * 2 ^ 26) ∅ []) (Timer 1 (37 * 2 ^ 26 + 2 ^ 40) false)) (100 * 2 ^ 26 - 100)) in Hx.
    change (slot (set_timer_jiffies ?b _)) with (slot b) in Hx. apply add_slot in Hx as [Hx|[-> Hv]].
    - unfold slot in Hx. simpl in Hx. rewrite lookup_empty in Hx. by apply elem_of_nil in Hx.
    - vm_compute in Hv. by injection Hv as <- <-. }
  split; [split; [done|]|].
  - intros n i x (-> & -> & ->)%Hs. left. exists (37 * 2 ^ 26 + 2 ^ 40). split; [split; [lia|reflexivity]|]. right.
    split; [lia|]. exists 100. split; [reflexivity|]. unfold next_cascade. change (2 ^ shift 5) with (2 ^ 26).
    split; [vm_compute; split; discriminate|lia].
  - intros x y [Hx|(n & i & (_ & _ & ->)%Hs)]; [by apply elem_of_nil in Hx|].
    intros [Hy|(n' & i' & (_ & _ & ->)%Hs)]; [by apply elem_of_nil in Hy|done].
Qed.

(** When a second timer is armed for the cascade after the next, the search stops at
    the list with the far timer and answers with the limit, long after the second
    timer is due. *)
Lemma next_timer_missed :
  let base := act far_wheel (ModTimer (Timer 2 0 false) (101 * 2 ^ 26 + 5)) in
  wheel_ok (100 * 2 ^ 26 - 100) base /\ pending base (Timer 2 (101 * 2 ^ 26 + 5) false) /\
  __next_timer_interrupt base = Some (100 * 2 ^ 26 - 100 + NEXT_TIMER_MAX_DELTA) /\
  101 * 2 ^ 26 + 5 + 2 ^ 29 < 100 * 2 ^ 26 - 100 + NEXT_TIMER_MAX_DELTA.
Proof.
  cbv zeta. split; [apply act_ok; [done|apply far_wheel_ok]|]. split_and!.
  - right. exists 5, 37. vm_compute. constructor.
  - vm_compute. reflexivity.
  - reflexivity.
Qed.

(** C6 The next timer event. Let the wheel be in order, and let no timer that may not be
    deferred be more than [2 ^ 32 - 1] ticks ahead, now or when it was armed. Then
    [__next_timer_interrupt] ends with the time of such a timer, or with the
    limit, before which none of them runs. [get_next_timer_interrupt] ends with a tick
    not before [now] and not after the tick in which the first of them runs, nor
    after the first high-resolution timer, which [hrtimer_get_next_event]
    finds; it only updates [next_timer]. What is remembered there stays early enough
    in every call on a timer and while timers run.  A timer armed further ahead can
    hide others: then the search can answer with the limit, more than [2 ^ 29] ticks
    after another timer is due. *)
Theorem next_timer_event_correct HZ L t base :
  wheel_ok t base -> work_list base = [] -> next_inv L t base -> t - 2 ^ 62 <= L <= t ->
  (exists g, __next_timer_interrupt base = Some (u64 g) /\ t - 2 ^ 62 <= g <= t + NEXT_TIMER_MAX_DELTA /\
     (g = t + NEXT_TIMER_MAX_DELTA \/ exists x, pending base x /\ deferrable x = false /\ expires x = u64 g) /\
     none_before t base g) /\
  (forall hr_delta T, t - 2 ^ 62 <= T < t + 2 ^ 62 ->
     exists nx R, get_next_timer_interrupt HZ hr_delta base (u64 T) = Some (set_next_timer base (u64 nx), u64 R) /\
       next_inv (t - 2 ^ 62) t (set_next_timer base (u64 nx)) /\ none_before t base nx /\
       T <= R <= Z.max T nx /\ (hr_delta <> KTIME_MAX -> R <= T + hr_ticks HZ hr_delta)) /\
  (forall l, let r := hrtimer_get_next_event false l in
     0 <= r <= KTIME_MAX /\
     (forall b e, b ∈ l -> first_expires b = Some e -> r <= Z.max 0 (long (e - clock_time b))) /\
     (r = KTIME_MAX \/ exists b e, b ∈ l /\ first_expires b = Some e /\ r = Z.max 0 (long (e - clock_time b)))) /\
  (forall a, action_near L t a -> next_inv L t (act base a)) /\
  (forall fn J fuel, (forall b x, Forall (action_near L t) (fn b x)) -> J + 1 - 2 ^ 62 <= L ->
     t - 1 <= J < t + 2 ^ 62 -> (Z.to_nat (J - t + 1) < fuel)%nat ->
     exists base' log, __run_timers fn fuel base (u64 J) = Some (base', log) /\
       wheel_ok (J + 1) base' /\ work_list base' = [] /\ next_inv L (J + 1) base') /\
  (let base := act far_wheel (ModTimer (Timer 2 0 false) (101 * 2 ^ 26 + 5)) in
   wheel_ok (100 * 2 ^ 26 - 100) base /\ pending base (Timer 2 (101 * 2 ^ 26 + 5) false) /\
   __next_timer_interrupt base = Some (100 * 2 ^ 26 - 100 + NEXT_TIMER_MAX_DELTA) /\
   101 * 2 ^ 26 + 5 + 2 ^ 29 < 100 * 2 ^ 26 - 100 + NEXT_TIMER_MAX_DELTA).
Proof.
  intros Hw Hwork [Hn Hnear] HL. pose proof (next_timer_spec t base Hw Hwork Hnear) as Hnext.
  split; [done|]. split; [|split; [apply hrtimer_next_spec|]; split; [|split; [|exact next_timer_missed]]].
  - intros hr_delta T HT. destruct Hn as (nx & He & Hr & Hb). destruct Hnext as (g & Hg & Hgr & _ & Hgb).
    assert (Ht : time_before_eq (u64 nx) (u64 t) = (0 <=? t - nx))
      by (unfold time_before_eq, time_after_eq; by rewrite u64_sub, s64_u64 by lia).
    unfold get_next_timer_interrupt. rewrite He, (proj1 (proj1 Hw)), Ht. destruct (Z.leb_spec 0 (t - nx)).
    + rewrite Hg. simpl. apply answer_ok; [done|unfold NEXT_TIMER_MAX_DELTA in Hgr; lia|done|done].
    + simpl. assert (base = set_next_timer base (u64 nx)) as Hset by (rewrite <- He; by destruct base).
      pose proof (answer_ok HZ hr_delta T t base nx HT ltac:(lia) (Hb ltac:(lia)) Hnear) as Ha. cbv zeta in Ha.
      rewrite <- Hset in Ha. by rewrite He.
  - intros a Ha. split; [apply act_next_ok|eapply act_near]; try done; apply Hw.
  - intros fn J fuel Hfn HJL HJ Hfuel. by eapply (run_timers_inv fn L t Hfn t J); [lia|lia|..].
Qed.

(** * Concrete wheels *)

Lemma demo_next_inv : next_inv (250 - 2 ^ 62) 250 demo_wheel.
Proof.
  apply (acts_inv (250 - 2 ^ 62) 250 ltac:(lia)
    [ModTimer (Timer 1 253 false) 253; ModTimer (Timer 2 600 false) 600; ModTimer (Timer 3 20000 true) 20000]
    (TvecBase None 250 250 ∅ [])); [|apply empty_wheel_ok|].
  - repeat constructor; [exists 253|exists 600|exists 20000]; (split; [lia|reflexivity]).
  - split.
    + exists 250. split; [reflexivity|]. split; [lia|]. lia.
    + intros n i x Hx. unfold slot in Hx. simpl in Hx. rewrite lookup_empty in Hx. by apply elem_of_nil in Hx.
Qed.

(** Timer 1 is next, due at 253; without it, timer 2; timer 3 may be deferred. *)
Lemma next_timer_event_correct_witness :
  __next_timer_interrupt demo_wheel = Some 253 /\
  (exists base', get_next_timer_interrupt 1000 KTIME_MAX demo_wheel 250 = Some (base', 253)) /\
  next_inv (250 - 2 ^ 62) 250 (act demo_wheel (DelTimer 1)) /\
  __next_timer_interrupt (act demo_wheel (DelTimer 1)) = Some 600.
Proof.
  destruct (next_timer_event_correct 1000 (250 - 2 ^ 62) 250 demo_wheel demo_wheel_ok)
    as (_ & _ & _ & Hact & _); [reflexivity|exact demo_next_inv|lia|].
  split; [vm_compute; reflexivity|]. split; [|split; [exact (Hact (DelTimer 1) I)|vm_compute; reflexivity]].
  eexists. vm_compute. reflexivity.
Defined.
